(* ===== verification/_CoqProject ===== *)
-Q . S2P
Prelude.v
GoStd.v
Values.v
Vocabulary.v
Entities.v
Events.v
DisplayNames.v
Speakers.v
Observations.v
Aliases.v
Projection.v
ProjectionInv.v
Engine.v
EngineInv.v
EngineSound.v
EngineSpec.v
EngineEffects.v
EngineRelations.v
EngineRestart.v
EngineBounds.v
EngineExamples.v
ProjectionSpec.v
ProjectionReads.v
Canonical.v
Keys.v
Store.v
Retention.v
StoreInv.v
StoreSpec.v
StoreReads.v
StoreCoalesce.v
LogState.v
StorePrune.v
StoreSnapshot.v
Boot.v
EngineStore.v
StoreExamples.v
Tenant.v
Registry.v
RegistryInv.v
RegistrySpec.v
Migration.v
Wire.v
Convert.v
Embedded.v
Receiver.v
IngestUndo.v
IngestSpec.v
IngestRecords.v
Emit.v
EmitSpec.v
IngestExamples.v
Auth.v
Serving.v
AuthSpec.v
AuthExamples.v
Traverse.v
TraverseSpec.v
PathSpec.v
Diff.v
DiffSpec.v
Sink.v
Logship.v
LogshipSpec.v
LogshipExamples.v
Annotations.v
AnnotationsSpec.v
AnnotationsSync.v
Annotate.v
AnnotationsExamples.v
GoParse.v
Configuration.v
ConfigSpec.v
ConfigExamples.v
Query.v
QuerySpec.v
EndpointSpec.v
History.v
HistorySpec.v
ToolExamples.v
