(* ===== verification/Prelude.v ===== *)
(** * Toise, a verification development

    Toise keeps a graph of the entities producers observe (hosts, services,
    volumes, ...) and of the relations between them. Producers send observations;
    a change engine compares each with what is known and emits qualified events; the
    events go to a durable log; a projection folds the log into an in-memory graph
    that the query surfaces read. Everything below models the Go sources of that
    pipeline, from the producer's SDK to the graph rebuilt after a restart.

    ** Parts and files

    - Prelude: notations, tactics, hints and lemmas on strings, sorting, filters and
      keyed maps that the other files share.
    - GoStd: what the sources use of Go: decimal and shortest-double formatting,
      SHA-256 and hex, instants and durations at int64 width, JSON of plain values.
    - Values (model/value.go): attribute values, their display, the canonical encoding
      in its recursive and its appending spelling, the protobuf form.
    - Vocabulary (model/registry.go, governance.go): the registered types.
    - Entities (model/entity.go, relation.go, ids.go, errors.go): records,
      validation, the identity fingerprint and the relation id.
    - Events (model/event.go, changetype.go): the log's events and their durable form.
    - DisplayNames (model/displayname.go): what a human calls an entity.
    - Speakers, Observations (change/engine.go): the keys of liveness references and
      the rules on them; observations, the attribute diff and the classification.
    - Aliases (change/alias.go): the index of identity aliases.
    - Projection (projection/graph.go, asof.go): the graph as a record of its maps,
      one definition per method. ProjectionInv has its invariant [wf] and that every
      admissible event keeps it; ProjectionSpec and ProjectionReads the properties.
    - Engine (change/engine.go, alias.go): the engine as a record and its methods as
      actions of a state monad; the function a batch is given is a program of its
      operations ([BatchProg]). EngineInv has the invariant and what is assumed of
      the appender and the host; EngineSound that every call keeps the invariant and
      follows the log; EngineSpec, EngineEffects, EngineRelations, EngineRestart and
      EngineBounds the properties; EngineExamples an instance in memory, the engine's
      witnesses, and runs of it.
    - Canonical (canonical/canonical.go): the identity overlay over an interface of
      the graph that the projection implements.
    - Keys, Store (store/store.go, read.go): the keys of the log and the log on an
      ordered byte map. Retention (retention.go, snapshot_store.go): coalescing,
      pruning, and the projection snapshot as bytes. StoreInv has what it is for a
      database to hold a log ([store_ok]); StoreSpec, StoreReads, StoreCoalesce,
      LogState, StorePrune and StoreSnapshot the properties.
    - Boot, EngineStore (registry.go [openStack], cmd/toise-server/main.go
      [writeTenantSnapshot]): the rebuild of a stack from snapshot and tail; the store
      as the engine's appender, and the life of both together. StoreExamples has a
      store in memory with a codec, the witnesses and runs.
    - Tenant (tenant/tenant.go), Registry, Migration (registry/registry.go): tenant
      ids; the registry with its single-flight openings, a call of [For] as a program
      counter that takes steps among others; the move of a legacy data directory.
      RegistryInv has the invariant of a pool of calls, RegistrySpec
      the properties and witnesses.
    - Wire (pkg/emit/wire/wire.go): the attribute names and the OTLP data the SDK
      fills and the receiver reads. Convert, Embedded, Receiver (ingest/convert.go,
      embedded.go, receiver.go): records to observations, the reconciler of embedded
      relationships as the state beside a batch, and [Export] over the tenants'
      engines. IngestUndo, IngestSpec, IngestRecords: the properties.
    - Emit (pkg/emit/emit.go): the SDK's payload; EmitSpec reads it back with the
      receiver. IngestExamples: witnesses and runs of both.

    - Auth (auth/auth.go, oidc/oidc.go, config/config.go): tokens, roles, and what each
      surface decides. Serving (cmd/toise-server/main.go, tenant_router.go,
      metrics/scope.go): the authenticator a configuration gives, the OTLP service behind
      its interceptor, the HTTP routes behind the middleware, the filtered scrape.
      AuthSpec: the properties, over what a configuration grants a token; AuthExamples:
      witnesses and runs.
    - Traverse (mcp/traverse.go, impact.go, canonical.go, and of convert.go, tools.go what
      they use): impact_of, find_path, the identity block and the rendering of entities.
      TraverseSpec: impact against failure propagation as a relation on steps; PathSpec:
      what a found path, a refusal and a convergence mean.
    - Diff (mcp/diff.go): graph_diff over the time index of the store. DiffSpec compares it
      with the graphs replayed to the two instants.
    - Sink, Logship (logship/sink.go, shipper.go, cmd/toise-server/main.go
      [restoreTenantLog]): the store of objects as an interface, the log shipped to it in
      segments and restored from it. LogshipSpec has the life of a shipped log as steps and
      what a restore rebuilds; LogshipExamples a sink in memory, the witness and a run.
    - Annotations (annotations/annotations.go, sync.go): the sidecar of notes over an
      interface of its database ([Sidecar]), and the sync through the store of objects.
      Annotate (mcp/annotate.go, graphql/resolvers/annotations.go, audit/audit.go): the
      operations of the surfaces. AnnotationsSpec: reads, writes and the move between an
      entity's two keys; AnnotationsSync: a pass of the sync, rounds over a cluster;
      Annotate also has who may write and the way of a note between nodes;
      AnnotationsExamples: witnesses and runs.
    - GoParse: what the configuration uses of Go's standard library: booleans, integers,
      durations and doubles read from text, and the flag package's order of arguments; and
      what the query tools use: base64 for cursors and [sort.Search].
    - Configuration (config/config.go): the fields as a map from names to values, the
      layers of defaults, file, environment and flags, the production profile, the
      validation. ConfigSpec: the properties; ConfigExamples: witnesses and runs.
    - Query (mcp/tools.go, convert.go,
      resolve.go, asof.go, server.go): find_entities, get_entity, get_neighbors,
      describe_schema, their provenance block and paging, and the entity an endpoint
      denotes. QuerySpec: a client that follows the cursors; EndpointSpec: endpoints, and
      reads of the past. History (mcp/tools.go, diff.go): entity_history and
      recent_changes; HistorySpec compares them with the log. ToolExamples: witnesses and
      runs of all the tools.

    ** What the theorems show

    - The engine refines an abstract fold of the log: after any sequence of calls the
      live entities and relations are the logged events folded over the initial ones,
      and every subscriber received those events in that order
      ([engine_follows_log]). A batch is atomic and reads its own writes as the
      flush will show them ([batch_all_or_nothing], [batch_reads_preview_flush]).
    - Each call does what its comment says: an observation emits one event whose kind
      is the exact classification of the difference ([observe_entity_effect]), a
      relation observation asserts one edge ([observe_relation_effect]), deletion is
      reference counted and cascades to the incident edges ([delete_entity_effect],
      [remove_relation_effect]), a sweep expires exactly the silent
      ([sweep_expires_exactly]), a restart keeps every speaker and gives it one more
      interval ([restart_keeps_speakers]), and the buffers stay bounded
      ([buffers_bounded]).
    - The projection's indexes stay exact along any admissible log
      ([replay_keeps_invariant]), and its reads equal their references: scans,
      bounded reachability, the whole listing, the window of a tombstone, and the
      graph a snapshot came from.
    - The identity overlay is reachability over believed edges and terminates
      ([canonical_walk_groups]).
    - The log is durable: an append is all or nothing across a restart
      ([append_is_durable]), the indexes answer as a scan would
      ([index_reads_exact]), a snapshot is read back ([snapshot_survives]) and its
      reading ends on any bytes ([snapshot_reading_ends]), and maintenance loses
      nothing the projection shows ([coalesce_keeps_projection],
      [prune_keeps_projection]). Engine, store and boot together: however a stack
      lived, a restart rebuilds what it showed ([restart_rebuilds_projection]).
    - Tenants are kept apart: an id is a safe path segment ([sanitize_exact]), a
      tenant has one stack however the calls interleave ([one_stack_per_tenant]),
      every call returns ([every_call_returns]), minting respects the limits
      ([limits_bind]), boot opens or quarantines every tenant
      ([boot_covers_tenants]) and the migration moves everything
      ([migrate_moves_everything]).
    - Ingest is confined to the tenants of the request ([export_is_confined]), leaves
      no trace of a batch that fails to flush ([failed_flush_leaves_no_trace]),
      removes a relation exactly when its source stops listing it
      ([removal_by_absence]), reads records exactly ([entity_obs_exact]), isolates the
      bad ones ([bad_records_do_no_harm]), and reads what the SDK wrote
      ([sdk_roundtrip]).
    - Authentication holds end to end: ingest changes only tenants the presented token is
      granted, and under derive-only tenancy only the one it is bound to
      ([ingest_is_authorized]); the query surfaces show only tenants the credential may
      read, and writes need a full role ([reads_are_authorized]).
    - The tools answer what they say: impact_of lists exactly what a failure reaches along
      the registered flow within the depth, each at its distance ([impact_is_exact]);
      a path of find_path is lawful, simple and within the depth
      ([find_path_is_lawful]); graph_diff is the comparison of the graphs at two
      instants ([diff_compares_instants]); a client that follows the cursors gets every
      match, and every neighbour at its distance, once and in order, and comes to an end
      ([find_enumerates], [neighbors_enumerate]); the timelines are the log's record of an
      entity and of a window, the totals and the digest those of the whole
      ([history_exact], [recent_changes_exact]); an answer about a past instant does not
      depend on the present ([past_reads_ignore_present]); an endpoint is resolved to the
      host or the listener its addresses say ([endpoint_denotes]).
    - The configuration is the layers in their order, the later over the earlier
      ([layers_in_order]), every value fits the field's type ([values_fit]), the production
      profile turns the debug settings off and reports which ([production_locks_down]), and
      what passes the validation leaves no surface unprotected that it promises to protect
      ([valid_config_protects]).
    - Nodes recover and agree: what was shipped is what a restore rebuilds, whatever failed
      on the way ([shipped_log_restores]); a pass of the annotation sync never replaces a
      row by an older one ([sync_keeps_the_newest]) and two rounds make all nodes hold the
      newest row of every key ([sync_converges]); a note keeps its content while it moves
      to the fingerprint ([move_keeps_the_note]), only a caller who may write changes it
      ([annotate_is_guarded]), and it is read on the other nodes
      ([note_reaches_the_other_node]).
    - Encodings are faithful: fingerprint inputs, speaker keys, and the durable form
      of events; where they are not, a theorem says when
      ([identity_hash_separator_collision], [time_storable_exactly]).
    - Runs of the model state behaviours that differ from what the comments of the
      source promise: [failed_sweep_is_not_retried],
      [alias_removal_reports_collapse], [restored_edge_promise_unbounded],
      [stale_entry_evicts_newest], [prune_resurrects_deleted],
      [horizon_regresses_on_restart], [snapshot_misses_unapplied],
      [migration_crash_splits_store], [dot_tenant_vanishes],
      [relation_key_collision], [debug_query_escapes], [read_token_writes_elsewhere],
      [empty_scope_shows_server_wide], [public_scrape_is_filtered],
      [first_arrival_hides_route], [waypoint_listed_as_convergence],
      [resurrected_change_unreported], [recovered_node_skips], [removed_note_returns],
      [failed_move_forgets], [graphql_handle_hides_old_note], [count_includes_removed],
      [blank_allowlist_admits_all], [comma_in_name_refused], [blank_token_opens_reads],
      [nan_threshold_believes_all], [wide_window_reads_nothing],
      [gone_fingerprint_refused].

    ** Modelling choices

    - Go maps are [gmap]s; where the source ranges over a map, the order is the map's
      own enumeration and the theorems speak of the members, never of the order.
      Strings are byte strings, instants are nanoseconds in [Z] with the int64 range
      written out where the code converts.
    - The engine reads a clock and draws ids: both are streams indexed by the number
      of reads ([Host]), with distinct ids as the only law. The appender is an
      interface over an abstract log ([Appender]): an append either extends the log by
      the events in order, stamped, or fails and leaves it unchanged
      ([AppenderLaws]). EngineStore discharges the laws with the store; its adapter
      refuses an append that would overflow the sequence or hold an instant outside
      the int64 range of nanoseconds ([fits]), where the laws would fail.
      Rollbacks act on a side state of any type; ingest instantiates it
      with the reconciler.
    - Pebble is an interface ([Pebble], [PebbleLaws]): reads and ranges are those of
      an ordered byte map or fail, a commit is atomic and may fail. Protobuf bytes are
      an interface ([Proto], [ProtoLaws]) whose law is the round trip of messages.
    - Pruning is stated up to an equivalence of entities [same], a parameter, because
      a kept heartbeat restates its entity's attributes as they were observed.
    - Locks are left out where an exported method holds its mutex throughout and is
      one step. The registry is where calls overlap: there each critical section is a
      step, the openings run between them, and the answer of Pebble and of the clock
      is chosen at each step ([Env]). A subscriber is the list of what it was sent, an
      installed reporter the trace of its calls; log lines are left out.
    - [Export] reads the current time once per request, where the code reads it once
      per record that carries no timestamp.
    - The store of objects is an interface ([Sink], [SinkLaws]): a put that fails may have
      landed, a get is exact or fails, a list holds the names under a prefix in order. A
      shipped event is assumed to marshal to fewer than 2^32 bytes. The sync assumes that
      names under its prefix that mean a key are in the form a push gives them, which
      [tenants_canonical] derives for the prefixes of tenants. A row of the sidecar is the
      annotation its JSON text decodes to; what JSON changes in a text is in [json_text].
    - The file of the configuration is given as the fields it sets with their values;
      the decoding of YAML is an argument. The instants of a tool's input are given as
      parsed, none where absent. A sentence of an answer whose wording depends on its case
      alone is a constructor with the values it names. What the engine tells of a thing
      (its producers, scopes, cadence) is a record of functions, as the interface is.
    - Tokens are compared by their digests, so what a token is granted is stated up to
      equality of digests. The verification of an identity's signature is a function
      from the token to its claims, an argument.
    - Fuel: paging by a client takes one unit per page and is shown to need at most one
      per entity; the overlay's walk takes one per dequeued member and needs at most
      one per entity with a relation, plus the root; the sections of a snapshot take
      one per turn and need at most one per byte; a coalescing pass one per record of
      its entity; a path is climbed with one unit per hop, at most the depth; the rounds of
      a search are the clamped depth, as in the code; the frames of a segment and the runes
      of a text take one unit each and need at most one per byte; a duration's text takes
      one turn per byte ([duration_go_ends]), [sort.Search] at most one per element. All other recursions are structural.

    ** What is not modelled

    Of MCP: describe_type, the telemetry keys, prompts, resources and the transport with
    its timeouts, and of impact_of, find_path and graph_diff the provenance block and reads
    as of a past instant: registration, texts, and what is modelled for the other tools.
    GraphQL but its annotations, the debug pages, the directory and S3 sinks, the metrics
    collectors, the decoding of the configuration file and the rest of the binaries: input
    and output, rendering and wiring. In the modelled parts, the closing of
    stores, checkpoints, the SDK's transport and the gRPC server. The liveness blob is
    the record it serialises, not its JSON text. Generated protobuf code appears as
    the message records it marshals. *)

From stdpp Require Export ssreflect.
From stdpp Require Export base tactics list sorting gmap strings sets fin_maps.
From Stdlib Require Export Ascii ZArith Lia.

#[global] Set Warnings "-rewrite-rw".

(** ** Notations and tactics *)

Declare Scope toise_scope.
Delimit Scope toise_scope with toise.

(** Go's [s + t] on strings. *)
Infix "+++" := String.append (at level 60, right associativity) : toise_scope.

#[global] Open Scope toise_scope.

(** Split every [match] and [if] of the goal or of a hypothesis, keeping the
    equations, and discharge what becomes contradictory. *)
Ltac split_match :=
  repeat (case_match; simplify_eq/=; try done).

(** The same for the [decide]s and [bool_decide]s that guards become. *)
Ltac split_guards :=
  repeat (first [case_decide | case_bool_decide]; simplify_eq/=; try done).

(** Close a goal by evaluating its decision procedure. *)
Ltac by_decide := apply (bool_decide_unpack _); vm_compute; exact I.

Create HintDb toise discriminated.
#[export] Hint Constants Opaque : toise.

(** ** Strings *)

#[global] Arguments String.append !_ _ / : simpl nomatch.

Lemma string_app_assoc (a b c : string) : a +++ (b +++ c) = (a +++ b) +++ c.
Proof. induction a as [|x a IH]; simpl; congruence. Qed.

Lemma string_app_nil_r (a : string) : a +++ "" = a.
Proof. induction a as [|x a IH]; simpl; congruence. Qed.

Lemma string_app_inj_l (a b c : string) : a +++ b = a +++ c → b = c.
Proof. induction a as [|x a IH]; simpl; [done|]. intros [=]. auto. Qed.

Lemma string_length_app (a b : string) :
  String.length (a +++ b) = String.length a + String.length b.
Proof. induction a as [|x a IH]; simpl; congruence. Qed.

Lemma string_app_inj_len (a b c d : string) :
  String.length a = String.length b → a +++ c = b +++ d → a = b ∧ c = d.
Proof.
  revert b. induction a as [|x a IH]; intros [|y b] Hlen; simpl; try done.
  intros [= -> H]. simpl in Hlen. destruct (IH b) as [-> ->]; auto.
Qed.

(** Go's [s[:n]] and [s[n:]] on byte strings, [n] in range. *)
Fixpoint str_take (n : nat) (s : string) : string :=
  match n, s with
  | S n, String c s => String c (str_take n s)
  | _, _ => ""
  end.

Fixpoint str_drop (n : nat) (s : string) : string :=
  match n, s with
  | O, _ => s
  | S n, String _ s => str_drop n s
  | S _, EmptyString => ""
  end.

Lemma str_take_app (a b : string) : str_take (String.length a) (a +++ b) = a.
Proof. induction a as [|x a IH]; simpl; [by destruct b|congruence]. Qed.

Lemma str_drop_app (a b : string) : str_drop (String.length a) (a +++ b) = b.
Proof. induction a as [|x a IH]; simpl; auto. Qed.

Lemma str_take_length n (s : string) : String.length (str_take n s) = n `min` String.length s.
Proof. revert s. induction n as [|n IH]; intros [|c s]; simpl; auto. Qed.

(** [forallb] over the bytes of a string. *)
Fixpoint str_forall (f : ascii → bool) (s : string) : bool :=
  match s with
  | EmptyString => true
  | String c s => f c && str_forall f s
  end.

Lemma str_forall_app f (a b : string) :
  str_forall f (a +++ b) = str_forall f a && str_forall f b.
Proof. induction a as [|x a IH]; simpl; [done|]. by rewrite IH andb_assoc. Qed.

(** A separator byte that neither part contains delimits unambiguously. *)
Lemma str_sep_inj (f : ascii → bool) (c : ascii) (a b x y : string) :
  f c = false → str_forall f a = true → str_forall f b = true →
  a +++ String c x = b +++ String c y → a = b ∧ x = y.
Proof.
  intros Hc. revert b. induction a as [|d a IH]; intros [|e b] Ha Hb; simpl in *.
  - by intros [= ->].
  - intros [= -> _]. by rewrite Hc in Hb.
  - intros [= -> _]. by rewrite Hc in Ha.
  - intros [= -> H]. apply andb_true_iff in Ha as [_ Ha], Hb as [_ Hb].
    by destruct (IH b Ha Hb H) as [-> ->].
Qed.

(** ** The byte order Go compares strings by *)

Definition str_le (a b : string) : Prop := String.leb a b = true.
#[export] Instance str_le_dec : RelDecision str_le.
Proof. intros a b. unfold str_le. apply _. Defined.

Lemma ascii_compare_refl c : Ascii.compare c c = Eq.
Proof. apply N.compare_refl. Qed.

Lemma ascii_compare_eq c d : Ascii.compare c d = Eq → c = d.
Proof.
  unfold Ascii.compare. intros H%N.compare_eq.
  by rewrite -(ascii_N_embedding c) -(ascii_N_embedding d) H.
Qed.

Lemma str_compare_trans_lt a b c :
  String.compare a b = Lt → String.compare b c = Lt → String.compare a c = Lt.
Proof.
  revert b c. induction a as [|x a IH]; intros [|y b] [|z c]; simpl; try done.
  destruct (Ascii.compare x y) eqn:Hxy; try done; intros Hab;
  destruct (Ascii.compare y z) eqn:Hyz; try done; intros Hbc.
  - apply ascii_compare_eq in Hxy as ->. rewrite Hyz. eauto.
  - apply ascii_compare_eq in Hxy as ->. by rewrite Hyz.
  - apply ascii_compare_eq in Hyz as ->. by rewrite Hxy.
  - unfold Ascii.compare in *. apply N.compare_lt_iff in Hxy, Hyz.
    assert (N_of_ascii x < N_of_ascii z)%N as Hlt by (etrans; eauto).
    by apply N.compare_lt_iff in Hlt as ->.
Qed.

#[export] Instance str_le_total : Total str_le.
Proof.
  intros a b. unfold str_le, String.leb. rewrite (String.compare_antisym b a).
  destruct (String.compare a b); simpl; auto.
Qed.

#[export] Instance str_le_refl : Reflexive str_le.
Proof. intros s. by destruct (total str_le s s). Qed.

#[export] Instance str_le_trans : Transitive str_le.
Proof.
  intros a b c. unfold str_le, String.leb.
  destruct (String.compare a b) eqn:Hab; try done;
  destruct (String.compare b c) eqn:Hbc; try done; intros _ _.
  - apply String.compare_eq_iff in Hab as ->. by rewrite Hbc.
  - apply String.compare_eq_iff in Hab as ->. by rewrite Hbc.
  - apply String.compare_eq_iff in Hbc as ->. by rewrite Hab.
  - by rewrite (str_compare_trans_lt a b c).
Qed.

#[export] Instance str_le_antisymm : AntiSymm (=) str_le.
Proof.
  intros a b. unfold str_le, String.leb. rewrite (String.compare_antisym b a).
  destruct (String.compare a b) eqn:Hba; simpl; try done.
  by apply String.compare_eq_iff in Hba.
Qed.

(** ** Sorting by a string key: Go's [sort.Slice] on [x.key < y.key] *)

Definition key_le {A} (key : A → string) (x y : A) : Prop := str_le (key x) (key y).
#[export] Instance key_le_dec {A} (key : A → string) : RelDecision (key_le key).
Proof. intros x y. unfold key_le. apply _. Defined.
#[export] Instance key_le_trans {A} (key : A → string) : Transitive (key_le key).
Proof. intros x y z. unfold key_le. apply transitivity. Qed.
#[export] Instance key_le_total {A} (key : A → string) : Total (key_le key).
Proof. intros x y. unfold key_le. apply total, _. Qed.

Definition sort_by {A} (key : A → string) (l : list A) : list A :=
  merge_sort (key_le key) l.

Lemma sort_by_perm {A} (key : A → string) l : sort_by key l ≡ₚ l.
Proof. apply merge_sort_Permutation. Qed.

Lemma sort_by_elem {A} (key : A → string) l x : x ∈ sort_by key l ↔ x ∈ l.
Proof. by rewrite sort_by_perm. Qed.

Lemma sort_by_sorted {A} (key : A → string) l : StronglySorted (key_le key) (sort_by key l).
Proof. apply StronglySorted_merge_sort; apply _. Qed.

(** Two sorted permutations with pairwise distinct keys are the same list: the
    sort is a canonical form, whatever order the input came in. *)
Lemma sorted_by_unique {A} (key : A → string) (l1 l2 : list A) :
  NoDup (key <$> l1) → l1 ≡ₚ l2 →
  StronglySorted (key_le key) l1 → StronglySorted (key_le key) l2 → l1 = l2.
Proof.
  intros Hnd Hp Hs1. revert l2 Hp.
  induction Hs1 as [|x l1 Hs1 IH Hall]; intros l2 Hp Hs2.
  { by apply Permutation_nil_l. }
  destruct l2 as [|y l2]; [by apply Permutation_nil_r in Hp|].
  apply StronglySorted_inv in Hs2 as [Hs2 Hall2].
  rewrite fmap_cons in Hnd. apply NoDup_cons in Hnd as [Hx Hnd].
  assert (x = y) as ->.
  { assert (x ∈ y :: l2) as Hin by (rewrite -Hp; left).
    assert (y ∈ x :: l1) as Hiny by (rewrite Hp; left).
    apply elem_of_cons in Hin as [|Hin]; [done|].
    apply elem_of_cons in Hiny as [|Hiny]; [done|]. exfalso.
    rewrite Forall_forall in Hall. rewrite Forall_forall in Hall2.
    apply Hx, list_elem_of_fmap. exists y. split; [|done].
    apply (anti_symm str_le); [by apply Hall|by apply Hall2]. }
  f_equal. apply IH; auto. by apply Permutation_cons_inv in Hp.
Qed.

Lemma sort_by_canonical {A} (key : A → string) (l1 l2 : list A) :
  NoDup (key <$> l1) → l1 ≡ₚ l2 → sort_by key l1 = sort_by key l2.
Proof.
  intros Hnd Hp. apply (sorted_by_unique key); auto using sort_by_sorted.
  - by rewrite sort_by_perm.
  - by rewrite !sort_by_perm.
Qed.

(** Two duplicate-free listings of the same members sort alike. *)
Lemma sort_by_ext {A} (key : A → string) (l1 l2 : list A) :
  NoDup l1 → NoDup l2 → (∀ x y, x ∈ l1 → y ∈ l1 → key x = key y → x = y) →
  (∀ x, x ∈ l1 ↔ x ∈ l2) → sort_by key l1 = sort_by key l2.
Proof.
  intros H1 H2 Hinj Heq. apply sort_by_canonical.
  - apply NoDup_fmap_2_strong; auto.
  - by apply NoDup_Permutation.
Qed.

(** ** Filters *)

Section filters.
Context {A : Type} (P : A → Prop) `{!∀ x, Decision (P x)}.

Lemma filter_none (l : list A) : (∀ x, x ∈ l → ¬ P x) → base.filter P l = [].
Proof.
  induction l as [|x l IH]; intros Hn; [done|]. rewrite filter_cons_False; [|set_solver].
  apply IH. set_solver.
Qed.

Lemma filter_all (l : list A) : (∀ x, x ∈ l → P x) → base.filter P l = l.
Proof.
  induction l as [|x l IH]; intros Hn; [done|]. rewrite filter_cons_True; [|set_solver].
  f_equal. apply IH. set_solver.
Qed.

Lemma NoDup_fmap_filter (key : A → string) (l : list A) :
  NoDup (key <$> l) → NoDup (key <$> base.filter P l).
Proof.
  induction l as [|x l IH]; [done|]. rewrite fmap_cons NoDup_cons filter_cons. intros [Hx Hnd].
  case_decide; [|auto]. rewrite fmap_cons NoDup_cons. split; [|auto].
  contradict Hx. apply list_elem_of_fmap in Hx as (y & -> & [_ Hy]%list_elem_of_filter).
  apply list_elem_of_fmap. eauto.
Qed.

Lemma sorted_filter (key : A → string) (l : list A) :
  StronglySorted (key_le key) l → StronglySorted (key_le key) (base.filter P l).
Proof.
  induction 1 as [|x l Hs IH Hall]; [constructor|]. rewrite filter_cons. case_decide; [|done].
  constructor; [done|]. apply Forall_forall. intros y [_ Hy]%list_elem_of_filter.
  rewrite Forall_forall in Hall. auto.
Qed.

(** Filtering and sorting commute when keys are distinct. *)
Lemma sort_by_filter (key : A → string) (l : list A) :
  NoDup (key <$> l) → sort_by key (base.filter P l) = base.filter P (sort_by key l).
Proof.
  intros Hnd. apply (sorted_by_unique key); [| |apply sort_by_sorted|].
  - rewrite sort_by_perm. by apply NoDup_fmap_filter.
  - by rewrite !sort_by_perm.
  - apply sorted_filter, sort_by_sorted.
Qed.
End filters.

(** ** Maps whose values carry their own key *)

Definition keyed {A} (key : A → string) (m : gmap string A) : Prop :=
  ∀ k x, m !! k = Some x → key x = k.

Lemma elem_of_values {A} (m : gmap string A) x : x ∈ (map_to_list m).*2 ↔ ∃ k, m !! k = Some x.
Proof.
  rewrite list_elem_of_fmap. split.
  - intros ([k y] & -> & Hin%elem_of_map_to_list). eauto.
  - intros [k Hk]. exists (k, x). by rewrite elem_of_map_to_list.
Qed.

Lemma keyed_values_NoDup {A} (key : A → string) (m : gmap string A) :
  keyed key m → NoDup (map_to_list m).*2.
Proof.
  intros Hk. apply NoDup_fmap_2_strong; [|apply NoDup_map_to_list].
  intros [k x] [k' x'] H1%elem_of_map_to_list H2%elem_of_map_to_list. simpl. intros ->.
  f_equal. by rewrite -(Hk _ _ H1) -(Hk _ _ H2).
Qed.

Lemma keyed_omap_NoDup {A} (key : A → string) (m : gmap string A) (ks : list string) :
  keyed key m → NoDup ks → NoDup (omap (λ k, m !! k) ks).
Proof.
  intros Hk. induction 1 as [|k ks Hnin Hnd IH]; csimpl; [constructor|].
  destruct (m !! k) as [x|] eqn:Hx; [|done]. apply NoDup_cons. split; [|done].
  rewrite list_elem_of_omap. intros (k' & Hk' & Hx').
  apply Hnin. by rewrite -(Hk _ _ Hx) (Hk _ _ Hx').
Qed.

(** The keys of a map in byte order: the order Go code gives them when it
    collects and sorts them. *)
Definition sorted_keys {A} (m : gmap string A) : list string :=
  sort_by id (map_to_list m).*1.

Lemma elem_of_sorted_keys {A} (m : gmap string A) k :
  k ∈ sorted_keys m ↔ is_Some (m !! k).
Proof.
  unfold sorted_keys. rewrite sort_by_elem list_elem_of_fmap. split.
  - intros ([k' v] & -> & Hin). exists v. by apply elem_of_map_to_list.
  - intros [v Hv]. exists (k, v). split; [done|]. by apply elem_of_map_to_list.
Qed.
Lemma sorted_keys_NoDup {A} (m : gmap string A) : NoDup (sorted_keys m).
Proof. unfold sorted_keys. rewrite sort_by_perm. apply NoDup_fst_map_to_list. Qed.

(** Sorted lists end to end. *)
Lemma StronglySorted_append {A} (R : relation A) (l1 l2 : list A) : StronglySorted R l1 → StronglySorted R l2 →
  (∀ x y, x ∈ l1 → y ∈ l2 → R x y) → StronglySorted R (l1 ++ l2)%list.
Proof.
  induction 1 as [|x l Hs IH Hall]; intros H2 Hr; [done|]. simpl. constructor; [apply IH; [done|intros a b Ha; apply Hr; by right]|].
  apply Forall_app. split; [done|]. apply Forall_forall. intros y. apply Hr. by left.
Qed.

(** ** Integers of Go's width *)

Open Scope Z_scope.

Definition min_int64 : Z := -9223372036854775808.
Definition max_int64 : Z := 9223372036854775807.

(** Two's-complement wrap-around of [int64] arithmetic. *)
Definition wrap64 (z : Z) : Z := (z + 9223372036854775808) mod 18446744073709551616 - 9223372036854775808.

Lemma wrap64_id z : min_int64 <= z <= max_int64 → wrap64 z = z.
Proof. unfold wrap64, min_int64, max_int64. intros. rewrite Z.mod_small; lia. Qed.

Lemma wrap64_range z : min_int64 <= wrap64 z <= max_int64.
Proof.
  unfold wrap64, min_int64, max_int64.
  pose proof (Z.mod_pos_bound (z + 9223372036854775808) 18446744073709551616). lia.
Qed.

Close Scope Z_scope.
