(* ===== verification/GoStd.v ===== *)
(** * The parts of Go's language and standard library the sources use

    Decimal formatting and parsing ([strconv]), SHA-256 and hex
    ([crypto/sha256], [encoding/hex]), instants and durations ([time]),
    IEEE doubles and their shortest decimal form ([strconv.FormatFloat] with
    precision -1), and the JSON encoder on plain values ([encoding/json]).
    Strings are byte strings, as in Go. *)
From S2P Require Import Prelude.
From Stdlib Require Import SpecFloat.

Open Scope Z_scope.

(** ** strconv: integers *)

Definition digit (d : N) : ascii := ascii_of_N (48 + d).
Definition is_digit (c : ascii) : bool := (48 <=? N_of_ascii c)%N && (N_of_ascii c <=? 57)%N.

Fixpoint utoa_go (fuel : nat) (n : N) (acc : string) : string :=
  match fuel with
  | O => acc
  | S f =>
    let acc' := String (digit (n mod 10)) acc in
    if (n <? 10)%N then acc' else utoa_go f (n / 10) acc'
  end.

(** [strconv.FormatUint(n, 10)]. *)
Definition utoa (n : N) : string := utoa_go (S (N.to_nat (N.log2 n))) n "".

(** [strconv.FormatInt(z, 10)] and [strconv.Itoa]. *)
Definition itoa (z : Z) : string :=
  if z <? 0 then String "-" (utoa (Z.abs_N z)) else utoa (Z.to_N z).

Fixpoint parse_digits (s : string) (acc : N) : option N :=
  match s with
  | EmptyString => Some acc
  | String c s =>
    if is_digit c then parse_digits s (acc * 10 + (N_of_ascii c - 48)) else None
  end.

(** [strconv.Atoi]: an optional sign and at least one digit, in range. *)
Definition atoi (s : string) : option Z :=
  let unsigned (r : string) (sign : Z) : option Z :=
    if (String.eqb r "") then None else
    match parse_digits r 0 with
    | Some n =>
      let z := sign * Z.of_N n in
      if (min_int64 <=? z) && (z <=? max_int64) then Some z else None
    | None => None
    end in
  match s with
  | String "-" r => unsigned r (-1)
  | String "+" r => unsigned r 1
  | _ => unsigned s 1
  end.

Lemma N_of_digit d : (d < 10)%N → N_of_ascii (digit d) = (48 + d)%N.
Proof. intros. unfold digit. apply N_ascii_embedding. lia. Qed.

Lemma is_digit_digit d : (d < 10)%N → is_digit (digit d) = true.
Proof.
  intros. unfold is_digit. rewrite N_of_digit; [|done].
  apply andb_true_intro. split; apply N.leb_le; lia.
Qed.

Lemma utoa_go_parse f : ∀ n s, (n < 10 ^ N.of_nat f)%N → f ≠ O →
  parse_digits (utoa_go f n s) 0 = parse_digits s n.
Proof.
  induction f as [|f IH]; intros n s Hn Hf; [done|]. cbn [utoa_go].
  pose proof (N.mod_lt n 10 ltac:(lia)) as Hmod.
  destruct (N.ltb_spec n 10) as [Hlt|Hge].
  - cbn [parse_digits]. rewrite is_digit_digit; [|done].
    rewrite N_of_digit; [|done]. rewrite N.mod_small; [|done].
    f_equal. lia.
  - rewrite Nat2N.inj_succ N.pow_succ_r' in Hn.
    assert (f ≠ 0%nat) by (intros ->; simpl in Hn; lia).
    rewrite IH; [|apply N.Div0.div_lt_upper_bound; lia|done].
    cbn [parse_digits]. rewrite is_digit_digit; [|done].
    rewrite N_of_digit; [|done]. f_equal.
    pose proof (N.div_mod' n 10) as Hdm. clear -Hdm.
    generalize dependent (n / 10)%N. generalize (n mod 10)%N. intros. lia.
Qed.

Lemma utoa_parse n : parse_digits (utoa n) 0 = Some n.
Proof.
  unfold utoa. rewrite utoa_go_parse; [done| |done].
  rewrite Nat2N.inj_succ N2Nat.id.
  destruct (decide (n = 0%N)) as [->|Hn]; [done|].
  destruct (N.log2_spec n) as [_ H]; [lia|].
  eapply N.lt_le_trans; [exact H|]. apply N.pow_le_mono_l. lia.
Qed.

Lemma utoa_go_digits f : ∀ n s, str_forall is_digit s = true →
  str_forall is_digit (utoa_go f n s) = true.
Proof.
  induction f as [|f IH]; intros n s Hs; [done|]. cbn [utoa_go].
  assert (str_forall is_digit (String (digit (n mod 10)) s) = true).
  { cbn [str_forall]. rewrite Hs is_digit_digit; [done|]. apply N.mod_lt. lia. }
  destruct (n <? 10)%N; auto.
Qed.

Lemma utoa_digits n : str_forall is_digit (utoa n) = true.
Proof. by apply utoa_go_digits. Qed.

Lemma utoa_nonempty n : utoa n ≠ ""%string.
Proof.
  intros H. pose proof (utoa_parse n) as Hp. rewrite H in Hp. simpl in Hp.
  injection Hp as <-. by vm_compute in H.
Qed.

Lemma utoa_inj n m : utoa n = utoa m → n = m.
Proof. intros H. pose proof (utoa_parse n) as E. rewrite H utoa_parse in E. congruence. Qed.

Lemma itoa_nonneg_digits z : 0 <= z → str_forall is_digit (itoa z) = true.
Proof.
  intros. unfold itoa. destruct (Z.ltb_spec z 0); [lia|]. apply utoa_digits.
Qed.

Lemma digits_head_not (s : string) (c : ascii) r :
  str_forall is_digit s = true → is_digit c = false → s ≠ String c r.
Proof. intros Hs Hc ->. cbn in Hs. by rewrite Hc in Hs. Qed.

Lemma itoa_inj a b : itoa a = itoa b → a = b.
Proof.
  unfold itoa. destruct (Z.ltb_spec a 0), (Z.ltb_spec b 0); intros E.
  - injection E as E%utoa_inj. lia.
  - exfalso. symmetry in E. revert E. apply digits_head_not; [apply utoa_digits|done].
  - exfalso. revert E. apply digits_head_not; [apply utoa_digits|done].
  - apply utoa_inj in E. lia.
Qed.

(** Reading back what [Itoa] wrote. *)
Lemma atoi_itoa z : 0 <= z <= max_int64 → atoi (itoa z) = Some z.
Proof.
  intros Hz. unfold itoa. destruct (Z.ltb_spec z 0); [lia|].
  assert (atoi (utoa (Z.to_N z)) =
    (if String.eqb (utoa (Z.to_N z)) "" then None else
     match parse_digits (utoa (Z.to_N z)) 0 with
     | Some n => let z := 1 * Z.of_N n in
       if (min_int64 <=? z) && (z <=? max_int64) then Some z else None
     | None => None end)) as ->.
  { pose proof (utoa_digits (Z.to_N z)) as Hd. unfold atoi.
    destruct (utoa (Z.to_N z)) as [|c s]; [done|].
    pose proof (digits_head_not _ "-" s Hd eq_refl).
    pose proof (digits_head_not _ "+" s Hd eq_refl).
    destruct c as [[] [] [] [] [] [] [] []]; done. }
  destruct (String.eqb_spec (utoa (Z.to_N z)) "") as [E|_]; [by apply utoa_nonempty in E|].
  rewrite utoa_parse. cbn zeta. rewrite Z2N.id; [|lia]. rewrite Z.mul_1_l.
  unfold min_int64, max_int64 in *.
  rewrite (proj2 (Z.leb_le _ z)); [|lia]. by rewrite (proj2 (Z.leb_le z _)); [|lia].
Qed.

(** ** Bytes *)

Fixpoint string_of_list (l : list ascii) : string :=
  match l with [] => "" | c :: l => String c (string_of_list l) end.
Fixpoint list_of_string (s : string) : list ascii :=
  match s with EmptyString => [] | String c s => c :: list_of_string s end.

(** Go's [strings.IndexByte], as an option. *)
Fixpoint index_byte (c : ascii) (s : string) : option nat :=
  match s with
  | EmptyString => None
  | String d s => if Ascii.eqb c d then Some O else S <$> index_byte c s
  end.

Definition contains_byte (c : ascii) (s : string) : bool :=
  match index_byte c s with Some _ => true | None => false end.

(** [encoding/binary.BigEndian.PutUint64]: the [n] low bytes of [z], the most
    significant first. *)
Fixpoint be_bytes (n : nat) (z : Z) : list ascii :=
  match n with
  | O => []
  | S n => be_bytes n (Z.shiftr z 8) ++ [ascii_of_N (Z.to_N (z mod 256))]
  end.

Fixpoint be_value (l : list ascii) (acc : Z) : Z :=
  match l with
  | [] => acc
  | c :: l => be_value l (acc * 256 + Z.of_N (N_of_ascii c))
  end.

Lemma be_value_app l1 l2 acc : be_value (l1 ++ l2) acc = be_value l2 (be_value l1 acc).
Proof. revert acc. induction l1 as [|c l1 IH]; intros acc; simpl; auto. Qed.

Lemma be_bytes_length n z : length (be_bytes n z) = n.
Proof.
  revert z. induction n as [|n IH]; intros z; [done|]. cbn [be_bytes].
  rewrite length_app IH /=. lia.
Qed.

Lemma be_bytes_value n : ∀ z, 0 <= z < 256 ^ Z.of_nat n → be_value (be_bytes n z) 0 = z.
Proof.
  induction n as [|n IH]; intros z Hz.
  { simpl in *. lia. }
  rewrite Nat2Z.inj_succ Z.pow_succ_r in Hz; [|lia].
  cbn [be_bytes]. rewrite be_value_app IH.
  - cbn [be_value]. rewrite N_ascii_embedding.
    + rewrite Z2N.id; [|apply Z.mod_pos_bound; lia].
      rewrite Z.shiftr_div_pow2; [|lia]. change (2 ^ 8) with 256.
      rewrite (Z.mul_comm (z / 256)). symmetry. apply Z.div_mod. lia.
    + pose proof (Z.mod_pos_bound z 256). lia.
  - rewrite Z.shiftr_div_pow2; [|lia]. change (2 ^ 8) with 256.
    split; [apply Z.div_pos; lia|]. apply Z.div_lt_upper_bound; lia.
Qed.

(** [encoding/hex.EncodeToString]. *)
Definition hex_digit (n : N) : ascii :=
  if (n <? 10)%N then ascii_of_N (48 + n) else ascii_of_N (87 + n).
Definition hex_byte (c : ascii) : list ascii :=
  let n := N_of_ascii c in [hex_digit (n / 16); hex_digit (n mod 16)].
Definition hex_encode (s : string) : string :=
  string_of_list (mjoin (hex_byte <$> list_of_string s)).

(** ** crypto/sha256 *)

Module Sha.
Definition w32 (z : Z) : Z := z mod 4294967296.
Definition rotr (n x : Z) : Z :=
  Z.lor (Z.shiftr x n) (w32 (Z.shiftl x (32 - n))).
Definition not32 (x : Z) : Z := 4294967295 - x.

(** Integer cube root by bisection on [hi] bits. *)
Fixpoint cbrt_go (bits : nat) (n r : Z) : Z :=
  match bits with
  | O => r
  | S b =>
    let r' := r + Z.shiftl 1 (Z.of_nat b) in
    cbrt_go b n (if r' * r' * r' <=? n then r' else r)
  end.

Definition primes : list Z :=
  [2; 3; 5; 7; 11; 13; 17; 19; 23; 29; 31; 37; 41; 43; 47; 53; 59; 61; 67; 71; 73;
   79; 83; 89; 97; 101; 103; 107; 109; 113; 127; 131; 137; 139; 149; 151; 157; 163;
   167; 173; 179; 181; 191; 193; 197; 199; 211; 223; 227; 229; 233; 239; 241; 251;
   257; 263; 269; 271; 277; 281; 283; 293; 307; 311].

(** The round constants: the first 32 fractional bits of the cube roots of the
    first 64 primes; the initial state: those of the square roots of the first 8. *)
Definition round_constants : list Z :=
  Eval vm_compute in ((λ p, w32 (cbrt_go 36 (Z.shiftl p 96) 0)) <$> primes).
Definition initial_state : list Z :=
  Eval vm_compute in ((λ p, w32 (Z.sqrt (Z.shiftl p 64))) <$> take 8 primes).

Definition pad (s : list ascii) : list ascii :=
  let n := Z.of_nat (length s) in
  let zeros := Z.to_nat ((55 - n) mod 64) in
  s ++ [ascii_of_N 128] ++ replicate zeros (ascii_of_N 0) ++ be_bytes 8 (8 * n).

Fixpoint words (fuel : nat) (l : list ascii) : list Z :=
  match fuel, l with
  | S f, a :: b :: c :: d :: l => be_value [a; b; c; d] 0 :: words f l
  | _, _ => []
  end.

(** The schedule is extended from a window of the last 16 words. *)
Fixpoint schedule (n : nat) (win : list Z) : list Z :=
  match n with
  | O => win
  | S n =>
    match win with
    | w0 :: rest =>
      let at_ i := nth i win 0 in
      let s0 := Z.lxor (Z.lxor (rotr 7 (at_ 1%nat)) (rotr 18 (at_ 1%nat))) (Z.shiftr (at_ 1%nat) 3) in
      let s1 := Z.lxor (Z.lxor (rotr 17 (at_ 14%nat)) (rotr 19 (at_ 14%nat))) (Z.shiftr (at_ 14%nat) 10) in
      w0 :: schedule n (rest ++ [w32 (w0 + s0 + at_ 9%nat + s1)])
    | [] => []
    end
  end.

Definition round (st : list Z) (kw : Z * Z) : list Z :=
  match st with
  | [a; b; c; d; e; f; g; h] =>
    let s1 := Z.lxor (Z.lxor (rotr 6 e) (rotr 11 e)) (rotr 25 e) in
    let ch := Z.lxor (Z.land e f) (Z.land (not32 e) g) in
    let t1 := h + s1 + ch + kw.1 + kw.2 in
    let s0 := Z.lxor (Z.lxor (rotr 2 a) (rotr 13 a)) (rotr 22 a) in
    let maj := Z.lxor (Z.lxor (Z.land a b) (Z.land a c)) (Z.land b c) in
    [w32 (t1 + s0 + maj); a; b; c; w32 (d + t1); e; f; g]
  | _ => st
  end.

Definition block (st : list Z) (ws : list Z) : list Z :=
  zip_with (λ x y, w32 (x + y)) st
    (foldl round st (zip round_constants (schedule 48 ws))).

Fixpoint blocks (fuel : nat) (st ws : list Z) : list Z :=
  match fuel, ws with
  | S f, _ :: _ => blocks f (block st (take 16 ws)) (drop 16 ws)
  | _, _ => st
  end.

(** [sha256.Sum256], the 32 digest bytes. *)
Definition sum256 (s : string) : string :=
  let m := pad (list_of_string s) in
  let ws := words (length m) m in
  string_of_list (mjoin (be_bytes 4 <$> blocks (length ws) initial_state ws)).
End Sha.

Lemma string_of_list_length l : String.length (string_of_list l) = length l.
Proof. induction l; simpl; congruence. Qed.
Lemma list_of_string_length s : length (list_of_string s) = String.length s.
Proof. induction s; simpl; congruence. Qed.

Lemma mjoin_const_length {A B} (f : A → list B) (k : nat) (l : list A) :
  (∀ x, length (f x) = k) → length (mjoin (f <$> l)) = (k * length l)%nat.
Proof. intros Hf. induction l as [|x l IH]; simpl; [lia|]. rewrite length_app Hf IH. lia. Qed.

Lemma sha_round_length st kw : length (Sha.round st kw) = length st.
Proof. by destruct st as [|?[|?[|?[|?[|?[|?[|?[|?[|??]]]]]]]]]. Qed.

Lemma sha_blocks_length f st ws : length (Sha.blocks f st ws) = length st.
Proof.
  revert st ws. induction f as [|f IH]; intros st [|w ws]; cbn [Sha.blocks]; auto.
  rewrite IH. unfold Sha.block. rewrite length_zip_with.
  assert (∀ l st, length (foldl Sha.round st l) = length st) as ->; [|lia].
  induction l as [|x l IHl]; intros st'; simpl; [done|]. by rewrite IHl sha_round_length.
Qed.

Lemma sum256_length s : String.length (Sha.sum256 s) = 32%nat.
Proof.
  unfold Sha.sum256. rewrite string_of_list_length (mjoin_const_length _ 4); [|apply be_bytes_length].
  by rewrite sha_blocks_length.
Qed.

Lemma hex_encode_length s : String.length (hex_encode s) = (2 * String.length s)%nat.
Proof.
  unfold hex_encode. rewrite string_of_list_length (mjoin_const_length _ 2); [|done].
  by rewrite list_of_string_length.
Qed.

(** The published test vectors of FIPS 180-4. *)
Example sha256_empty : hex_encode (Sha.sum256 "") =
  "e3b0c44298fc1c149afbf4c8996fb92427ae41e4649b934ca495991b7852b855"%string.
Proof. vm_compute. reflexivity. Qed.
Example sha256_abc : hex_encode (Sha.sum256 "abc") =
  "ba7816bf8f01cfea414140de5dae2223b00361a396177a9cb410ff61f20015ad"%string.
Proof. vm_compute. reflexivity. Qed.
Example sha256_two_blocks :
  hex_encode (Sha.sum256 "abcdbcdecdefdefgefghfghighijhijkijkljklmklmnlmnomnopnopq") =
  "248d6a61d20638b8e5c026930c3e6039a33ce45964ff2167f6ecedd419db06c1"%string.
Proof. vm_compute. reflexivity. Qed.

(** ** time

    An instant is a number of nanoseconds since Go's zero instant (January 1,
    year 1, UTC); a [Duration] is an [int64] of nanoseconds, and arithmetic on
    durations wraps at that width. [Time.Add] keeps a 64-bit count of seconds
    of its own and does not wrap at any instant a clock or a record can hold. *)
Abbreviation Time := Z (only parsing).
Abbreviation Duration := Z (only parsing).

Definition zero_time : Time := 0.
Definition is_zero (t : Time) : bool := t =? 0.
Definition after (t u : Time) : bool := u <? t.
Definition before (t u : Time) : bool := t <? u.
Definition time_add (t : Time) (d : Duration) : Time := t + d.
Definition unix_epoch : Time := 62135596800 * 1000000000.
(** [t.UnixNano()] and [time.Unix(0, n).UTC()]. *)
Definition unix_nano (t : Time) : Z := wrap64 (t - unix_epoch).
Definition of_unix_nano (n : Z) : Time := unix_epoch + n.

Definition second : Duration := 1000000000.
Definition minute : Duration := 60 * second.
Definition hour : Duration := 60 * minute.
(** [d * n] on durations. *)
Definition dur_mul (d n : Z) : Duration := wrap64 (d * n).

(** ** float64

    A double is the Standard Library's binary64 datatype; the comparisons are
    IEEE's (a NaN compares false with everything). *)
Abbreviation float64 := spec_float (only parsing).

#[export] Instance float64_eq_dec : EqDecision spec_float.
Proof. solve_decision. Defined.

Definition f64_le (x y : float64) : bool := SFleb x y.
Definition f64_lt (x y : float64) : bool := SFltb x y.
(** [float64(i)]: round to nearest, ties to even. *)
Definition f64_of_int (i : Z) : float64 := binary_normalize 53 1024 i 0 false.
(** The double nearest to [m * 2^e]. *)
Definition f64_make (m e : Z) : float64 := binary_normalize 53 1024 m e false.

Definition f64_zero : float64 := S754_zero false.
Definition f64_one : float64 := f64_of_int 1.
(** The constant [0.9]: 0x3FECCCCCCCCCCCCD. *)
Definition f64_0_9 : float64 := f64_make 8106479329266893 (-53).
(** [1e-6] (0x3EB0C6F7A0B5ED8D) and [1e21]. *)
Definition f64_1em6 : float64 := f64_make 4722366482869645 (-72).
Definition f64_1e21 : float64 := f64_of_int (10 ^ 21).

(** *** Shortest decimal digits

    The digits [d1 d2 ... dn] and the point position [dp] of
    [0.d1d2...dn * 10^dp] such that [n] is the smallest number of digits that
    lies in the rounding interval of [m * 2^e], the closest to the value where
    both neighbours do. Quantities are multiples of [2^(e-2)], so that the
    half and quarter steps to the neighbouring doubles are whole. *)
Module Shortest.
Section shortest.
Context (m e : Z).
(** [x * 2^(e-2)] against [y * 10^k]. *)
Definition un : Z := if 2 <=? e then 2 ^ (e - 2) else 1.
Definition ud : Z := if 2 <=? e then 1 else 2 ^ (2 - e).
Definition scale (x y k : Z) : Z * Z :=
  if 0 <=? k then (x * un, y * 10 ^ k * ud) else (x * un * 10 ^ (- k), y * ud).
Definition lo : Z :=
  if (m =? 4503599627370496) && negb (e =? -1074) then 4 * m - 1 else 4 * m - 2.
Definition hi : Z := 4 * m + 2.

Fixpoint point_go (fuel : nat) (p : Z) : Z :=
  match fuel with
  | O => p
  | S f => let '(a, b) := scale (4 * m) 1 p in if b <=? a then point_go f (p + 1) else p
  end.
Definition point : Z := point_go 5 ((Z.log2 m + e) * 30103 / 100000 - 1).

(** One attempt at [n] digits. *)
Definition attempt (p n : Z) : option Z :=
  let k := p - n in
  let '(v, u) := scale (4 * m) 1 k in
  let down := v / u in
  let even_m := Z.even m in
  let okdown := let '(l, d) := scale lo down k in (l <? d) || (even_m && (l =? d)) in
  let okup := let '(h, d) := scale hi (down + 1) k in (d <? h) || (even_m && (d =? h)) in
  let nearest :=
    match 2 * (v - down * u) ?= u with
    | Lt => down | Gt => down + 1
    | Eq => if Z.even down then down else down + 1
    end in
  if okdown && okup then Some nearest
  else if okdown then Some down
  else if okup then Some (down + 1)
  else None.

Fixpoint search (fuel : nat) (p n : Z) : Z * Z :=
  match fuel with
  | O => (4 * m, n)
  | S f => match attempt p n with Some d => (d, n) | None => search f p (n + 1) end
  end.
End shortest.

Fixpoint strip_zeros (l : list ascii) : list ascii :=
  match l with
  | [] => []
  | c :: l =>
    match strip_zeros l with
    | [] => if Ascii.eqb c "0" then [] else [c]
    | l' => c :: l'
    end
  end.

(** The digits without trailing zeros, and the decimal point. *)
Definition digits (m e : Z) : list ascii * Z :=
  let p := point m e in
  let '(d, n) := search m e 17 p 1 in
  let ds := list_of_string (itoa d) in
  (strip_zeros ds, p + (Z.of_nat (length ds) - n)).

Definition zeros (n : Z) : list ascii := replicate (Z.to_nat n) "0"%char.

(** The [%e] and [%f] layouts of the shortest digits. *)
Definition layout_e (ds : list ascii) (dp : Z) : list ascii :=
  let mant := match ds with
    | [] => ["0"%char] | [d] => [d] | d :: rest => d :: "."%char :: rest end in
  let x := dp - 1 in
  let ax := Z.abs x in
  mant ++ ["e"%char; if x <? 0 then "-"%char else "+"%char]
    ++ (if ax <? 10 then ["0"%char] else []) ++ list_of_string (itoa ax).

Definition layout_f (ds : list ascii) (dp : Z) : list ascii :=
  let nd := Z.of_nat (length ds) in
  let int_part :=
    if 0 <? dp then take (Z.to_nat dp) ds ++ zeros (dp - nd) else ["0"%char] in
  let frac :=
    if dp <? nd then "."%char :: zeros (- dp) ++ drop (Z.to_nat dp) ds else [] in
  int_part ++ frac.
End Shortest.

Definition sign_prefix (s : bool) : list ascii := if s then ["-"%char] else [].

(** [strconv.FormatFloat(f, 'g', -1, 64)]. *)
Definition format_float_g (f : float64) : string :=
  match f with
  | S754_nan => "NaN"
  | S754_infinity s => if s then "-Inf" else "+Inf"
  | S754_zero s => if s then "-0" else "0"
  | S754_finite s m e =>
    let '(ds, dp) := Shortest.digits (Zpos m) e in
    let x := dp - 1 in
    string_of_list (sign_prefix s ++
      (if (x <? -4) || (6 <=? x)
       then Shortest.layout_e ds dp else Shortest.layout_f ds dp))
  end.

Example format_float_samples :
  map format_float_g
    [f64_0_9; f64_of_int 1; f64_of_int 1000000; f64_of_int 123456; f64_1em6; f64_1e21;
     f64_make 1 (-1074); f64_make 9007199254740991 971; f64_make (-5) (-1);
     f64_make 6004799503160661 (-54); f64_make 4503599627370496 (-52); f64_of_int 0]
  = ["0.9"; "1"; "1e+06"; "123456"; "1e-06"; "1e+21"; "5e-324"; "1.7976931348623157e+308";
     "-2.5"; "0.3333333333333333"; "1"; "0"]%string.
Proof. vm_compute. reflexivity. Qed.

(** ** encoding/json on plain values

    The values [toAny] builds; a Go map is the list of its bindings, the last
    binding of a key being the one the map holds. *)
Set Warnings "-register-all".
Inductive any :=
| ANil
| AStr (s : string)
| AInt (i : Z)
| AFloat (f : float64)
| ABool (b : bool)
| ASlice (l : list any)
| AMap (l : list (string * any)).

Module Json.
Definition u4 (n : N) : list ascii :=
  ["\"%char; "u"%char; hex_digit (n / 4096 mod 16); hex_digit (n / 256 mod 16);
   hex_digit (n / 16 mod 16); hex_digit (n mod 16)].

(** One character below 0x80, with the HTML-safe escapes. *)
Definition escape_ascii (c : ascii) : list ascii :=
  let n := N_of_ascii c in
  if (n =? 34)%N || (n =? 92)%N then ["\"%char; c]
  else if (n =? 8)%N then ["\"%char; "b"%char]
  else if (n =? 12)%N then ["\"%char; "f"%char]
  else if (n =? 10)%N then ["\"%char; "n"%char]
  else if (n =? 13)%N then ["\"%char; "r"%char]
  else if (n =? 9)%N then ["\"%char; "t"%char]
  else if (n <? 32)%N || (n =? 60)%N || (n =? 62)%N || (n =? 38)%N then u4 n
  else [c].

Definition is_cont (c : ascii) : bool := (128 <=? N_of_ascii c)%N && (N_of_ascii c <? 192)%N.
Definition in_range (c : ascii) (lo hi : N) : bool :=
  (lo <=? N_of_ascii c)%N && (N_of_ascii c <=? hi)%N.

(** The length of the well-formed UTF-8 sequence a string starts with, or 0. *)
Definition utf8_len (l : list ascii) : nat :=
  match l with
  | a :: b :: c :: d :: _ =>
    if in_range a 194 223 && is_cont b then 2
    else if (in_range a 224 224 && in_range b 160 191 || in_range a 225 236 && is_cont b
             || in_range a 237 237 && in_range b 128 159 || in_range a 238 239 && is_cont b)
            && is_cont c then 3
    else if (in_range a 240 240 && in_range b 144 191 || in_range a 241 243 && is_cont b
             || in_range a 244 244 && in_range b 128 143) && is_cont c && is_cont d then 4
    else 0
  | [a; b; c] =>
    if in_range a 194 223 && is_cont b then 2
    else if (in_range a 224 224 && in_range b 160 191 || in_range a 225 236 && is_cont b
             || in_range a 237 237 && in_range b 128 159 || in_range a 238 239 && is_cont b)
            && is_cont c then 3
    else 0
  | [a; b] => if in_range a 194 223 && is_cont b then 2 else 0
  | _ => 0
  end%nat.

Fixpoint escape (fuel : nat) (l : list ascii) : list ascii :=
  match fuel, l with
  | S f, c :: rest =>
    if (N_of_ascii c <? 128)%N then escape_ascii c ++ escape f rest
    else match utf8_len l with
      | O => u4 65533 ++ escape f rest
      | n =>
        let seq := take n l in
        (if bool_decide (seq = [ascii_of_N 226; ascii_of_N 128; ascii_of_N 168]) then u4 8232
         else if bool_decide (seq = [ascii_of_N 226; ascii_of_N 128; ascii_of_N 169]) then u4 8233
         else seq) ++ escape f (drop n l)
      end
  | _, _ => []
  end.

Definition quoted (s : string) : list ascii :=
  let l := list_of_string s in [ascii_of_N 34] ++ escape (length l) l ++ [ascii_of_N 34].

(** Doubles take the [%f] layout between 1e-6 and 1e21 and [%e] outside, with
    a one-digit exponent where it has one; NaN and the infinities are errors. *)
Definition number (f : float64) : option (list ascii) :=
  match f with
  | S754_nan | S754_infinity _ => None
  | S754_zero s => Some (sign_prefix s ++ ["0"%char])
  | S754_finite s m e =>
    let '(ds, dp) := Shortest.digits (Zpos m) e in
    let a := S754_finite false m e in
    Some (sign_prefix s ++
      (if f64_lt a f64_1em6 || f64_le f64_1e21 a then
         let l := Shortest.layout_e ds dp in
         let n := length l in
         match drop (n - 4) l with
         | [x; sg; z; d] =>
           if Ascii.eqb x "e" && Ascii.eqb z "0" then take (n - 2) l ++ [d] else l
         | _ => l
         end
       else Shortest.layout_f ds dp))
  end.

Definition commas (l : list (list ascii)) : list ascii :=
  match l with
  | [] => []
  | x :: l => x ++ mjoin ((λ y, ","%char :: y) <$> l)
  end.

(** The map a list of bindings builds: the last binding of a key wins. *)
Definition go_map {A} (l : list (string * A)) : gmap string A :=
  list_to_map (reverse l).

(** [json.Marshal]: map keys sorted, the first unencodable value an error. *)
Fixpoint marshal (a : any) : option (list ascii) :=
  match a with
  | ANil => Some (list_of_string "null")
  | AStr s => Some (quoted s)
  | AInt i => Some (list_of_string (itoa i))
  | AFloat f => number f
  | ABool b => Some (list_of_string (if b then "true" else "false"))
  | ASlice l =>
    xs ← mapM id (map marshal l);
    Some (["["%char] ++ commas xs ++ ["]"%char])
  | AMap l =>
    let m := go_map (map (λ '(k, v), (k, marshal v)) l) in
    xs ← mapM (λ k, v ← mjoin (m !! k); Some (quoted k ++ [":"%char] ++ v)) (sorted_keys m);
    Some (["{"%char] ++ commas xs ++ ["}"%char])
  end.

Definition render (a : any) : option string := string_of_list <$> marshal a.
End Json.

Example json_sample :
  Json.render (AMap [("b", ASlice [AInt (-3); AFloat f64_0_9; ANil; AFloat f64_1em6]); ("a", AStr "x<y");
                     ("b", ABool true)]%string)
  = Some (string_of_list (list_of_string "{" ++ Json.quoted "a" ++ list_of_string ":"
      ++ [ascii_of_N 34] ++ list_of_string "x\u003cy" ++ [ascii_of_N 34]
      ++ list_of_string "," ++ Json.quoted "b" ++ list_of_string ":true}")).
Proof. vm_compute. reflexivity. Qed.

Close Scope Z_scope.
