(* ===== verification/Values.v ===== *)
(** * Attribute values: internal/model/value.go

    The typed attribute [Value] (OpenTelemetry's AnyValue), its untyped
    [display], its type-tagged [canonical] encoding, and the conversions to and
    from the protobuf message. The canonical encoding is what identity hashing
    and change detection compare, so the theorems say exactly which values it
    identifies: two values encode alike if and only if they have the same
    [shape] (kvlists up to the order of their keys, doubles up to their shortest
    decimal form). *)
From S2P Require Import Prelude GoStd.
From Stdlib Require Import SpecFloat.
Set Warnings "-register-all".

(** ** Data *)

(** A [Value] is one of the seven kinds with that kind's payload; the struct's
    unexported fields can only be set together by the constructors. *)
Inductive Value :=
| KindInvalid
| KindString (s : string)
| KindInt (i : Z)
| KindDouble (f : spec_float)
| KindBool (b : bool)
| KindArray (arr : list Value)
| KindKvlist (kvl : list (string * Value)).

Abbreviation KeyValue := (string * Value)%type.
Definition Key (kv : KeyValue) : string := kv.1.
Definition Val (kv : KeyValue) : Value := kv.2.

(** The tag alone, for the code that switches on [Kind()]. *)
Inductive ValueKind := KInvalid | KString | KInt | KDouble | KBool | KArray | KKvlist.

#[export] Instance ValueKind_eq_dec : EqDecision ValueKind.
Proof. solve_decision. Defined.

Definition Kind (v : Value) : ValueKind :=
  match v with
  | KindInvalid => KInvalid | KindString _ => KString | KindInt _ => KInt
  | KindDouble _ => KDouble | KindBool _ => KBool | KindArray _ => KArray
  | KindKvlist _ => KKvlist
  end.

Definition IsValid (v : Value) : bool := negb (bool_decide (Kind v = KInvalid)).

(** The accessors return the zero value of their type for the other kinds. *)
Definition Str (v : Value) : string := match v with KindString s => s | _ => "" end.
Definition Int (v : Value) : Z := match v with KindInt i => i | _ => 0%Z end.
Definition Double (v : Value) : spec_float := match v with KindDouble f => f | _ => S754_zero false end.
Definition Bool (v : Value) : bool := match v with KindBool b => b | _ => false end.
Definition Array (v : Value) : list Value := match v with KindArray l => l | _ => [] end.
Definition Kvlist (v : Value) : list KeyValue := match v with KindKvlist l => l | _ => [] end.

(** Induction through the nested lists. *)
Section value_ind.
Variable P : Value → Prop.
Hypothesis Hinv : P KindInvalid.
Hypothesis Hstr : ∀ s, P (KindString s).
Hypothesis Hint : ∀ i, P (KindInt i).
Hypothesis Hdbl : ∀ f, P (KindDouble f).
Hypothesis Hbool : ∀ b, P (KindBool b).
Hypothesis Harr : ∀ l, Forall P l → P (KindArray l).
Hypothesis Hkv : ∀ l, Forall (λ kv, P (snd kv)) l → P (KindKvlist l).
Fixpoint Value_rect_nested (v : Value) : P v :=
  match v with
  | KindInvalid => Hinv
  | KindString s => Hstr s
  | KindInt i => Hint i
  | KindDouble f => Hdbl f
  | KindBool b => Hbool b
  | KindArray l =>
    Harr l ((fix go l : Forall P l := match l with
      | [] => Forall_nil_2 _ | v :: l => Forall_cons_2 _ _ _ (Value_rect_nested v) (go l) end) l)
  | KindKvlist l =>
    Hkv l ((fix go l : Forall (λ kv, P (snd kv)) l := match l with
      | [] => Forall_nil_2 _
      | kv :: l => Forall_cons_2 _ kv _ (Value_rect_nested (snd kv)) (go l) end) l)
  end.
End value_ind.

#[export] Instance Value_eq_dec : EqDecision Value.
Proof.
  refine (fix go (v w : Value) : Decision (v = w) :=
    match v, w with
    | KindInvalid, KindInvalid => left eq_refl
    | KindString s, KindString t => cast_if (decide (s = t))
    | KindInt i, KindInt j => cast_if (decide (i = j))
    | KindDouble f, KindDouble g => cast_if (decide (f = g))
    | KindBool b, KindBool c => cast_if (decide (b = c))
    | KindArray l, KindArray k =>
      cast_if ((fix gol (l k : list Value) : Decision (l = k) :=
        match l, k with
        | [], [] => left eq_refl
        | x :: l, y :: k => cast_if_and (go x y) (gol l k)
        | _, _ => right _ end) l k)
    | KindKvlist l, KindKvlist k =>
      cast_if ((fix gol (l k : list (string * Value)) : Decision (l = k) :=
        match l, k with
        | [], [] => left eq_refl
        | (a, x) :: l, (b, y) :: k => cast_if_and3 (decide (a = b)) (go x y) (gol l k)
        | _, _ => right _ end) l k)
    | _, _ => right _
    end); clear go; try clear gol; abstract congruence.
Defined.

(** ** Rendering *)

(** [toAny]: kvlists become maps (the last binding of a key wins). *)
Fixpoint toAny (v : Value) : any :=
  match v with
  | KindString s => AStr s
  | KindInt i => AInt i
  | KindDouble f => AFloat f
  | KindBool b => ABool b
  | KindArray arr => ASlice (map toAny arr)
  | KindKvlist kvl => AMap (map (λ '(k, v), (k, toAny v)) kvl)
  | KindInvalid => ANil
  end.

Definition format_bool (b : bool) : string := if b then "true" else "false".

(** [Display]: no type tag; composites as compact JSON, "" when unencodable. *)
Definition Display (v : Value) : string :=
  match v with
  | KindInt i => itoa i
  | KindDouble f => format_float_g f
  | KindBool b => format_bool b
  | KindArray _ | KindKvlist _ => default "" (Json.render (toAny v))
  | _ => Str v
  end.

(** ** The canonical encoding *)

Definition str_concat (l : list string) : string := foldr String.append "" l.

(** A length-prefixed chunk, [len(c) ":" c]. *)
Definition chunk (c : string) : string := itoa (Z.of_nat (String.length c)) +++ ":" +++ c.

Fixpoint canonical (v : Value) : string :=
  match v with
  | KindString s => "s:" +++ s
  | KindInt i => "i:" +++ itoa i
  | KindDouble f => "d:" +++ format_float_g f
  | KindBool b => "b:" +++ format_bool b
  | KindArray arr =>
    "a:" +++ itoa (Z.of_nat (length arr)) +++ ":" +++ str_concat (map (λ e, chunk (canonical e)) arr)
  | KindKvlist kvl =>
    (* the entries sorted by key, each carrying its value's encoding *)
    let entries := sort_by fst (map (λ '(k, v), (k, canonical v)) kvl) in
    "k:" +++ itoa (Z.of_nat (length entries)) +++ ":" +++
      str_concat (map (λ '(k, c), chunk k +++ chunk c) entries)
  | KindInvalid => "n:"
  end.

(** [String()] is the canonical form. *)
Definition String_ (v : Value) : string := canonical v.

(** [appendCanonical]: the scalar cases written directly after [dst]. *)
Definition appendCanonical (v : Value) (dst : string) : string :=
  match v with
  | KindString s => (dst +++ "s:") +++ s
  | KindInt i => (dst +++ "i:") +++ itoa i
  | KindDouble f => (dst +++ "d:") +++ format_float_g f
  | KindBool b => (dst +++ "b:") +++ format_bool b
  | _ => dst +++ canonical v
  end.

(** ** Protobuf

    The [Value] message of proto/toise/v1: a oneof, unset when no field is. A
    repeated message field is a list of pointers, hence the options. *)
Inductive PValue :=
| PUnset
| PStringValue (s : string)
| PIntValue (i : Z)
| PDoubleValue (f : spec_float)
| PBoolValue (b : bool)
| PArrayValue (values : list (option PValue))
| PKvlistValue (values : list (option (string * option PValue))).
Abbreviation PKeyValue := (option (string * option PValue)) (only parsing).

Fixpoint toProto (v : Value) : PValue :=
  match v with
  | KindString s => PStringValue s
  | KindInt i => PIntValue i
  | KindDouble f => PDoubleValue f
  | KindBool b => PBoolValue b
  | KindArray arr => PArrayValue (map (λ e, Some (toProto e)) arr)
  | KindKvlist kvl => PKvlistValue (map (λ '(k, v), Some (k, Some (toProto v))) kvl)
  | KindInvalid => PUnset
  end.

Fixpoint valueFromMessage (p : PValue) : Value :=
  match p with
  | PStringValue s => KindString s
  | PIntValue i => KindInt i
  | PDoubleValue f => KindDouble f
  | PBoolValue b => KindBool b
  | PArrayValue l =>
    KindArray (map (λ e, match e with Some q => valueFromMessage q | None => KindInvalid end) l)
  | PKvlistValue l =>
    KindKvlist (map (λ pk, match pk with
      | Some (k, Some q) => (k, valueFromMessage q)
      | Some (k, None) => (k, KindInvalid)
      | None => ("", KindInvalid) end) l)
  | PUnset => KindInvalid
  end.

(** [valueFromProto]: a nil message is the unset value. *)
Definition valueFromProto (p : option PValue) : Value :=
  match p with Some q => valueFromMessage q | None => KindInvalid end.

Definition kvsToProto (kvs : list KeyValue) : list PKeyValue :=
  map (λ '(k, v), Some (k, Some (toProto v))) kvs.

Definition kvsFromProto (pks : list PKeyValue) : list KeyValue :=
  map (λ pk, match pk with
    | Some (k, p) => (k, valueFromProto p)
    | None => ("", KindInvalid) end) pks.

(** ** Round trips *)

Lemma valueFromMessage_toProto v : valueFromMessage (toProto v) = v.
Proof.
  induction v as [| | | | |l IH|l IH] using Value_rect_nested; simpl; auto.
  - rewrite map_map. f_equal. induction IH as [|x l Hx _ IH']; simpl; congruence.
  - rewrite map_map. f_equal. induction IH as [|[k x] l Hx _ IH']; simpl in *; congruence.
Qed.

Lemma kvsFromProto_toProto kvs : kvsFromProto (kvsToProto kvs) = kvs.
Proof.
  unfold kvsFromProto, kvsToProto. rewrite map_map.
  induction kvs as [|[k v] kvs IH]; simpl; [done|].
  by rewrite valueFromMessage_toProto IH.
Qed.

(** ** What the canonical encoding distinguishes *)

(** The part of a value the encoding keeps. *)
Inductive Shape :=
| ShNull
| ShStr (s : string)
| ShInt (i : Z)
| ShDouble (shortest : string)
| ShBool (b : bool)
| ShArr (l : list Shape)
| ShKv (l : list (string * Shape)).

Fixpoint shape (v : Value) : Shape :=
  match v with
  | KindInvalid => ShNull
  | KindString s => ShStr s
  | KindInt i => ShInt i
  | KindDouble f => ShDouble (format_float_g f)
  | KindBool b => ShBool b
  | KindArray l => ShArr (map shape l)
  | KindKvlist l => ShKv (sort_by fst (map (λ '(k, v), (k, shape v)) l))
  end.

(** The encoding of a shape; [canonical] is this after [shape]. *)
Fixpoint enc (s : Shape) : string :=
  match s with
  | ShNull => "n:"
  | ShStr s => "s:" +++ s
  | ShInt i => "i:" +++ itoa i
  | ShDouble r => "d:" +++ r
  | ShBool b => "b:" +++ format_bool b
  | ShArr l =>
    "a:" +++ itoa (Z.of_nat (length l)) +++ ":" +++ str_concat (map (λ e, chunk (enc e)) l)
  | ShKv l =>
    "k:" +++ itoa (Z.of_nat (length l)) +++ ":" +++
      str_concat (map (λ '(k, e), chunk k +++ chunk (enc e)) l)
  end.

(** Sorting by a key commutes with a map that keeps the key. *)
Lemma sort_by_map {A B} (f : A → B) (ka : A → string) (kb : B → string) (l : list A) :
  (∀ x, kb (f x) = ka x) → map f (sort_by ka l) = sort_by kb (map f l).
Proof.
  intros Hk. unfold sort_by, merge_sort.
  assert (∀ l1 l2, map f (list_merge (key_le ka) l1 l2)
            = list_merge (key_le kb) (map f l1) (map f l2)) as Hmerge.
  { intros l1. induction l1 as [|x l1 IH1]; intros l2; [by destruct l2|].
    induction l2 as [|y l2 IH2]; [done|]. simpl.
    destruct (decide (key_le ka x y)) as [H1|H1];
    destruct (decide (key_le kb (f x) (f y))) as [H2|H2];
      unfold key_le in *; rewrite !Hk in H2; try done; simpl.
    - f_equal. apply (IH1 (y :: l2)).
    - f_equal. apply IH2. }
  assert (∀ st l, map f (merge_sort_aux (key_le ka) st l)
    = merge_sort_aux (key_le kb) (map (fmap (map f)) st) (map f l)) as Haux; [|exact (Haux [] l)].
  intros st l0. revert st. induction l0 as [|x l0 IH]; intros st; simpl.
  - induction st as [|[a|] st IHst]; simpl; auto. by rewrite Hmerge IHst.
  - rewrite IH. f_equal. change [f x] with (map f [x]). generalize [x] as a. induction st as [|[b|] st IHst]; intros a; simpl; auto.
    by rewrite IHst Hmerge.
Qed.

(** The rest of an unambiguous encoding is determined once a digit run and its
    colon are. *)
Lemma digits_colon_inj (a b x y : string) :
  str_forall is_digit a = true → str_forall is_digit b = true →
  a +++ ":" +++ x = b +++ ":" +++ y → a = b ∧ x = y.
Proof. by apply (str_sep_inj is_digit). Qed.

Lemma itoa_len_colon_inj (n m : nat) (x y : string) :
  itoa (Z.of_nat n) +++ ":" +++ x = itoa (Z.of_nat m) +++ ":" +++ y → n = m ∧ x = y.
Proof.
  intros H. apply digits_colon_inj in H as [H ->]; [|apply itoa_nonneg_digits; lia..].
  apply itoa_inj in H. split; [lia|done].
Qed.

Lemma chunk_app_inj (a b x y : string) : chunk a +++ x = chunk b +++ y → a = b ∧ x = y.
Proof.
  unfold chunk. rewrite -!string_app_assoc. intros H.
  apply itoa_len_colon_inj in H as [Hlen H]. by apply string_app_inj_len in H.
Qed.

Lemma chunks_inj {A} (f : A → string) (l k : list A) :
  length l = length k →
  str_concat (map (λ x, chunk (f x)) l) = str_concat (map (λ x, chunk (f x)) k) →
  map f l = map f k.
Proof.
  revert k. induction l as [|x l IH]; intros [|y k] Hlen; simpl; try done.
  intros [Hc H]%chunk_app_inj. rewrite Hc. f_equal. apply IH; auto.
Qed.

Lemma kv_chunks_inj {A} (f : A → string) (l k : list (string * A)) :
  length l = length k →
  str_concat (map (λ '(k, x), chunk k +++ chunk (f x)) l) =
  str_concat (map (λ '(k, x), chunk k +++ chunk (f x)) k) →
  map (λ '(k, x), (k, f x)) l = map (λ '(k, x), (k, f x)) k.
Proof.
  revert k. induction l as [|[a x] l IH]; intros [|[b y] k] Hlen; simpl; try done.
  rewrite -(string_app_assoc (chunk a)) -(string_app_assoc (chunk b)). intros [-> H]%chunk_app_inj.
  apply chunk_app_inj in H as [-> H]. f_equal. apply IH; auto.
Qed.

Section shape_ind.
Variable P : Shape → Prop.
Hypothesis Hscalar : ∀ s, (∀ l, s ≠ ShArr l) → (∀ l, s ≠ ShKv l) → P s.
Hypothesis Harr : ∀ l, Forall P l → P (ShArr l).
Hypothesis Hkv : ∀ l, Forall (λ kv, P (snd kv)) l → P (ShKv l).
Fixpoint Shape_rect_nested (s : Shape) : P s.
Proof.
  destruct s as [|?|?|?|?|l|l]; try (apply Hscalar; congruence).
  - apply Harr. induction l; constructor; auto.
  - apply Hkv. induction l; constructor; auto.
Qed.
End shape_ind.

Lemma enc_inj s : ∀ t, enc s = enc t → s = t.
Proof.
  induction s as [s Ha Hk|l IH|l IH] using Shape_rect_nested; intros t.
  - destruct s as [|?|?|?|b|?|?]; destruct t as [|?|?|?|b'|?|?]; simpl; try done;
      try (intros [= ->]; done).
    + intros [= H%itoa_inj]. congruence.
    + destruct b, b'; done.
    + by destruct (Ha l).
    + by destruct (Hk l).
  - destruct t as [|?|?|?|?|k|?]; simpl; try done. intros [= H].
    apply itoa_len_colon_inj in H as [Hlen H]. apply (chunks_inj enc) in H; [|done].
    f_equal. clear Hlen. revert k H. induction IH as [|x l Hx _ IH']; intros [|y k] H; simplify_eq/=; auto.
    f_equal; auto.
  - destruct t as [|?|?|?|?|?|k]; simpl; try done. intros [= H].
    apply itoa_len_colon_inj in H as [Hlen H]. apply (kv_chunks_inj enc) in H; [|done].
    f_equal. clear Hlen. revert k H.
    induction IH as [|[a x] l Hx _ IH']; intros [|[b y] k] H; simplify_eq/=; auto.
    f_equal; [f_equal|]; auto.
Qed.

Lemma canonical_enc v : canonical v = enc (shape v).
Proof.
  induction v as [| | | | |l IH|l IH] using Value_rect_nested; try done.
  - simpl. rewrite length_map map_map. do 4 f_equal.
    induction IH as [|x l Hx _ IH']; simpl; congruence.
  - cbn [canonical enc shape].
    assert (sort_by fst (map (λ '(k, v), (k, canonical v)) l)
      = map (λ '(k, s), (k, enc s)) (sort_by fst (map (λ '(k, v), (k, shape v)) l))) as ->.
    { rewrite (sort_by_map _ fst fst); [|by intros []]. rewrite map_map. f_equal.
      induction IH as [|[k x] l Hx _ IH']; simpl in *; congruence. }
    rewrite length_map map_map. do 4 f_equal. apply map_ext. by intros [].
Qed.

Lemma appendCanonical_app v dst : appendCanonical v dst = dst +++ canonical v.
Proof. destruct v; unfold appendCanonical; rewrite -?string_app_assoc; done. Qed.

Lemma canonical_shape v w : canonical v = canonical w ↔ shape v = shape w.
Proof. rewrite !canonical_enc. split; [apply enc_inj|congruence]. Qed.

(** ** Properties *)

(** The canonical encoding is faithful: two values encode to the same
    string exactly when they have the same shape, that is, when they are the
    same kind with the same payload, kvlists being compared after sorting their
    entries by key and doubles by their shortest decimal form. No nesting of
    arrays, kvlists and strings can be confused with another. *)
Theorem canonical_faithful v w : canonical v = canonical w ↔ shape v = shape w.
Proof. apply canonical_shape. Qed.

(** The allocation-free writer of the identity hash is byte for byte the
    reference encoding: [appendCanonical] leaves [dst] followed by
    [canonical v], for every kind. *)
Theorem appendCanonical_is_canonical v dst : appendCanonical v dst = dst +++ canonical v.
Proof. apply appendCanonical_app. Qed.

(** Composites are told apart from the strings that spell them. *)
Example canonical_samples :
  canonical (KindArray [KindString "1"; KindInt 1]) = "a:2:3:s:13:i:1"%string ∧
  canonical (KindKvlist [("b", KindBool true); ("a", KindInvalid)]) = "k:2:1:a2:n:1:b6:b:true"%string ∧
  Display (KindInt 1) = Display (KindString "1").
Proof. vm_compute. auto. Qed.
