(* ===== verification/Vocabulary.v ===== *)
(** * The entity and relation vocabulary: internal/model/registry.go, with the
    names pkg/emit/wire spells, and the advisory governance attributes of
    internal/model/governance.go.

    Registries are finite maps, as in the source; the theorems say that the two
    spellings of the vocabulary agree, that every relation type's definition is
    filed under its own name, and what an unregistered type gets. *)
From S2P Require Import Prelude.
Open Scope string_scope.

(** ** Entity types *)

Definition TypeHost := "host".
Definition TypeProcess := "process".
Definition TypeNetworkInterface := "network.interface".
Definition TypeNetworkAddress := "network.address".
Definition TypeNetworkRoute := "network.route".
Definition TypeServiceListener := "service.listener".
Definition TypeServiceInstance := "service.instance".
Definition TypeDatabase := "db".
Definition TypeNetworkDevice := "network.device".
Definition TypeNetworkEndpoint := "network.endpoint".
Definition TypeComputeVM := "compute.vm".
Definition TypeContainer := "container".
Definition TypePod := "pod".
Definition TypeNetworkSegment := "network.segment".
Definition TypeNetworkNeighbor := "network.neighbor".
Definition TypeK8sNode := "k8s.node".
Definition TypeCloudResource := "cloud.resource".
Definition TypeHostService := "host.service".

Definition entityTypes : gset string :=
  {[ TypeHost; TypeProcess; TypeNetworkInterface; TypeNetworkAddress; TypeNetworkRoute;
     TypeServiceListener; TypeK8sNode; TypeHostService; TypeCloudResource;
     TypeServiceInstance; TypeDatabase; TypeNetworkDevice; TypeNetworkEndpoint;
     TypeComputeVM; TypeContainer; TypePod; TypeNetworkSegment; TypeNetworkNeighbor ]}.

Definition IsKnownEntityType (t : string) : bool := bool_decide (t ∈ entityTypes).

(** ** Relation types *)

Definition RelRunsOn := "runs_on".
Definition RelHasInterface := "has_interface".
Definition RelBoundTo := "bound_to".
Definition RelNeighborOf := "neighbor_of".
Definition RelNextHopVia := "next_hop_via".
Definition RelListensOn := "listens_on".
Definition RelMonitors := "monitors".
Definition RelHasRoute := "has_route".
Definition RelConnectedTo := "connected_to".
Definition RelDependsOn := "depends_on".
Definition RelSameAs := "same_as".
Definition RelResolvesTo := "resolves_to".
Definition RelAggregatedInto := "aggregated_into".
Definition RelAttachedTo := "attached_to".
Definition RelHasSegment := "has_segment".
Definition RelRoutesVia := "routes_via".
Definition RelForwardsTo := "forwards_to".
Definition RelAdjacentTo := "adjacent_to".

(** The direction in which a failure crosses a relation. *)
Inductive ImpactFlow := ImpactBoth | ImpactToFrom | ImpactFromTo | ImpactNone.
#[export] Instance ImpactFlow_eq_dec : EqDecision ImpactFlow.
Proof. solve_decision. Defined.

Record RelationTypeDef := {
  rtd_Type : string;
  rtd_From : string;
  rtd_To : string;
  rtd_Structural : bool;
  rtd_Impact : ImpactFlow;
}.

Definition reldef (t from to : string) (structural : bool) (impact : ImpactFlow) :=
  {| rtd_Type := t; rtd_From := from; rtd_To := to;
     rtd_Structural := structural; rtd_Impact := impact |}.

Definition relationTypes : gmap string RelationTypeDef := list_to_map [
  (RelRunsOn, reldef RelRunsOn TypeProcess TypeHost true ImpactToFrom);
  (RelHasInterface, reldef RelHasInterface TypeHost TypeNetworkInterface true ImpactFromTo);
  (RelBoundTo, reldef RelBoundTo TypeNetworkAddress TypeNetworkInterface true ImpactToFrom);
  (RelNextHopVia, reldef RelNextHopVia TypeNetworkRoute TypeNetworkAddress true ImpactToFrom);
  (RelListensOn, reldef RelListensOn TypeServiceListener TypeNetworkInterface true ImpactToFrom);
  (RelMonitors, reldef RelMonitors TypeServiceInstance "" true ImpactNone);
  (RelHasRoute, reldef RelHasRoute TypeNetworkDevice TypeNetworkRoute true ImpactFromTo);
  (RelNeighborOf, reldef RelNeighborOf TypeNetworkNeighbor TypeNetworkInterface true ImpactNone);
  (RelConnectedTo, reldef RelConnectedTo TypeNetworkInterface TypeNetworkInterface true ImpactBoth);
  (RelDependsOn, reldef RelDependsOn TypeServiceInstance TypeNetworkEndpoint true ImpactToFrom);
  (RelSameAs, reldef RelSameAs "" "" false ImpactNone);
  (RelResolvesTo, reldef RelResolvesTo TypeNetworkNeighbor TypeNetworkInterface false ImpactNone);
  (RelAggregatedInto, reldef RelAggregatedInto TypeNetworkInterface TypeNetworkInterface true ImpactNone);
  (RelAttachedTo, reldef RelAttachedTo TypeContainer TypeNetworkSegment true ImpactToFrom);
  (RelHasSegment, reldef RelHasSegment TypeServiceInstance TypeNetworkSegment true ImpactFromTo);
  (RelRoutesVia, reldef RelRoutesVia TypeNetworkDevice TypeNetworkDevice true ImpactToFrom);
  (RelForwardsTo, reldef RelForwardsTo TypeNetworkDevice TypeNetworkDevice true ImpactBoth);
  (RelAdjacentTo, reldef RelAdjacentTo TypeNetworkDevice TypeNetworkDevice true ImpactBoth)
].

Definition RelationDef (t : string) : option RelationTypeDef := relationTypes !! t.

(** Unregistered types propagate both ways. *)
Definition ImpactFlowOf (relType : string) : ImpactFlow :=
  match relationTypes !! relType with
  | Some def => rtd_Impact def
  | None => ImpactBoth
  end.

(** ** Traversal rules per entity type *)

Definition terminalEntityTypes : gset string := {[ TypeNetworkEndpoint ]}.
Definition crossOnlyByChangingRelationTypes : gset string :=
  {[ TypeNetworkNeighbor; TypeNetworkInterface ]}.

Definition CrossingNeedsADifferentRelation (t : string) : bool :=
  bool_decide (t ∈ crossOnlyByChangingRelationTypes).
Definition IsTerminalEntityType (t : string) : bool := bool_decide (t ∈ terminalEntityTypes).

(** ** The wire package's own lists (pkg/emit/wire) *)

Definition wire_EntityTypes : list string :=
  [ TypeHost; TypeProcess; TypeNetworkInterface; TypeNetworkAddress;
    TypeNetworkRoute; TypeServiceListener; TypeServiceInstance; TypeDatabase;
    TypeNetworkDevice; TypeNetworkEndpoint; TypeComputeVM; TypeContainer;
    TypePod; TypeK8sNode; TypeNetworkSegment; TypeNetworkNeighbor;
    TypeHostService; TypeCloudResource ].

Definition wire_RelationTypes : list string :=
  [ RelRunsOn; RelHasInterface; RelBoundTo; RelNextHopVia;
    RelListensOn; RelMonitors; RelHasRoute; RelConnectedTo;
    RelDependsOn; RelSameAs; RelResolvesTo; RelAggregatedInto;
    RelAttachedTo; RelHasSegment; RelNeighborOf;
    RelRoutesVia; RelForwardsTo; RelAdjacentTo ].

(** ** Governance attributes (internal/model/governance.go) *)

Record GovernanceAttribute := {
  ga_Key : string; ga_Example : string; ga_Values : list string;
  ga_Semconv : bool; ga_Was : list string
}.

Definition governanceAttributes : list GovernanceAttribute := [
  {| ga_Key := "service.namespace"; ga_Example := "checkout"; ga_Values := [];
     ga_Semconv := true; ga_Was := [] |};
  {| ga_Key := "senhub.owner.team"; ga_Example := "sre-platform"; ga_Values := [];
     ga_Semconv := false; ga_Was := ["entity.owner.team"] |};
  {| ga_Key := "senhub.owner.contact"; ga_Example := "sre@acme.io"; ga_Values := [];
     ga_Semconv := false; ga_Was := ["entity.owner.contact"] |};
  {| ga_Key := "service.criticality"; ga_Example := "high";
     ga_Values := ["critical"; "high"; "medium"; "low"]; ga_Semconv := true; ga_Was := [] |};
  {| ga_Key := "senhub.location.site"; ga_Example := "paris"; ga_Values := [];
     ga_Semconv := false; ga_Was := ["entity.location.site"] |};
  {| ga_Key := "senhub.location.datacenter"; ga_Example := "dc-eq5"; ga_Values := [];
     ga_Semconv := false; ga_Was := ["entity.location.datacenter"] |};
  {| ga_Key := "senhub.location.rack"; ga_Example := "R12"; ga_Values := [];
     ga_Semconv := false; ga_Was := ["entity.location.rack"] |};
  {| ga_Key := "senhub.location.room"; ga_Example := "hall-2"; ga_Values := [];
     ga_Semconv := false; ga_Was := ["entity.location.room"] |};
  {| ga_Key := "senhub.lifecycle.status"; ga_Example := "maintenance";
     ga_Values := ["active"; "maintenance"; "decommissioning"; "retired"];
     ga_Semconv := false; ga_Was := ["entity.lifecycle.status"] |} ].

Definition GovernanceAttributes : list GovernanceAttribute := governanceAttributes.

(** ** Facts *)

Lemma same_as_def : RelationDef RelSameAs = Some (reldef RelSameAs "" "" false ImpactNone).
Proof. reflexivity. Qed.

(** ** Properties *)

(** The registry and the wire package spell one vocabulary: a type is
    registered exactly when the wire list names it, for entities and for
    relations, and a registered relation's definition carries its own name. *)
Theorem registry_matches_wire :
  (∀ t, IsKnownEntityType t = true ↔ t ∈ wire_EntityTypes) ∧
  (∀ t, is_Some (RelationDef t) ↔ t ∈ wire_RelationTypes) ∧
  (∀ t d, RelationDef t = Some d → rtd_Type d = t).
Proof.
  split_and!.
  - intros t. unfold IsKnownEntityType, entityTypes, wire_EntityTypes.
    rewrite bool_decide_eq_true !elem_of_union !elem_of_singleton !elem_of_cons elem_of_nil. tauto.
  - intros t. unfold RelationDef, relationTypes, wire_RelationTypes.
    rewrite -elem_of_dom dom_list_to_map elem_of_list_to_set !elem_of_cons elem_of_nil. simpl. tauto.
  - intros t d. unfold RelationDef. intros Hd%elem_of_list_to_map_2.
    rewrite list_elem_of_In in Hd. simpl in Hd.
    repeat (destruct Hd as [[= <- <-]|Hd]; [done|]). done.
Qed.

Close Scope string_scope.
