(* ===== verification/Entities.v ===== *)
(** * Entities and relations: internal/model/entity.go, relation.go, ids.go and
    errors.go

    Structural validation, the identity fingerprint and the relation id, with
    the protobuf conversions. The fingerprint is a SHA-256 of an encoding of
    the type and the identifying attributes; the theorems are about the
    encoding (what two identities must share to be given one fingerprint
    input), the digest itself being computed by the executable [Sha.sum256]. *)
From S2P Require Import Prelude GoStd Values Vocabulary.

Abbreviation EntityID := string (only parsing).
Abbreviation RelationID := string (only parsing).

(** ** Errors (errors.go); [Wrap] is [fmt.Errorf("ctx: %w", err)] *)

Inductive Err :=
| ErrEmptyType
| ErrUnknownType (t : string)
| ErrNoIdentity
| ErrEmptyKey
| ErrDuplicateKey (k : string)
| ErrInvalidValue (k : string)
| ErrEmptyEndpoint
| ErrChangeTypeUnset
| ErrChangeTypeMismatch
| ErrMissingEntity
| ErrZeroEventTime
| ErrZeroRecordedAt
| ErrEmptySchemaVersion
| Wrap (ctx : string) (e : Err).

(** A [nil] error is [None]. *)
Abbreviation error := (option Err) (only parsing).

(** ** Entities *)

Record Entity := mkEntity {
  e_ID : EntityID;
  e_Type : string;
  e_Identity : list KeyValue;
  e_Attributes : list KeyValue;
  e_SchemaURL : string;
}.

#[export] Instance Entity_eq_dec : EqDecision Entity.
Proof. solve_decision. Defined.

(** The zero struct. *)
Definition zero_Entity : Entity := mkEntity "" "" [] [] "".

Definition hasAttr (kvs : list KeyValue) (key val : string) : bool :=
  existsb (λ kv, bool_decide (Key kv = key) && bool_decide (Display (Val kv) = val)) kvs.

Definition MatchAll (e : Entity) (want : gmap string string) : bool :=
  forallb (λ '(k, v), hasAttr (e_Identity e) k v || hasAttr (e_Attributes e) k v)
    (map_to_list want).

Definition sepField : string := String (ascii_of_nat 30) "".
Definition sepRecord : string := String (ascii_of_nat 31) "".

(** The buffer [IdentityHash] digests. *)
Definition identity_buf (typ : string) (identity : list KeyValue) : string :=
  foldl (λ buf kv, appendCanonical (Val kv) ((buf +++ Key kv) +++ sepField) +++ sepRecord)
    (typ +++ sepRecord) (sort_by Key identity).

Definition idHashBytes : nat := 16.

Definition identity_hash (typ : string) (identity : list KeyValue) : string :=
  typ +++ ":" +++ hex_encode (str_take idHashBytes (Sha.sum256 (identity_buf typ identity))).

Definition IdentityHash (e : Entity) : string := identity_hash (e_Type e) (e_Identity e).

#[global] Arguments identity_hash : simpl never.
#[global] Arguments IdentityHash : simpl never.

(** Empty keys, duplicate keys and unset values, in list order. *)
Fixpoint validate_from (seen : gset string) (kvs : list KeyValue) : error :=
  match kvs with
  | [] => None
  | kv :: kvs =>
    if bool_decide (Key kv = "") then Some ErrEmptyKey
    else if bool_decide (Key kv ∈ seen) then Some (ErrDuplicateKey (Key kv))
    else if negb (IsValid (Val kv)) then Some (ErrInvalidValue (Key kv))
    else validate_from ({[Key kv]} ∪ seen) kvs
  end.
Definition validateKeyValues (kvs : list KeyValue) : error := validate_from ∅ kvs.

Definition entity_validate (vocabulary : bool) (e : Entity) : error :=
  if bool_decide (e_Type e = "") then Some ErrEmptyType
  else if vocabulary && negb (IsKnownEntityType (e_Type e)) then Some (ErrUnknownType (e_Type e))
  else if bool_decide (e_Identity e = []) then Some ErrNoIdentity
  else match validateKeyValues (e_Identity e) with
  | Some err => Some (Wrap "identity" err)
  | None =>
    match validateKeyValues (e_Attributes e) with
    | Some err => Some (Wrap "attributes" err)
    | None => None
    end
  end.

Definition Entity_Validate : Entity → error := entity_validate true.
Definition Entity_ValidateShape : Entity → error := entity_validate false.

(** ** Relations *)

Record Relation := mkRelation {
  r_ID : RelationID;
  r_Type : string;
  r_From : EntityID;
  r_To : EntityID;
  r_Attributes : list KeyValue;
  r_Structural : bool;
}.

#[export] Instance Relation_eq_dec : EqDecision Relation.
Proof. solve_decision. Defined.

Definition zero_Relation : Relation := mkRelation "" "" "" "" [] false.

Definition ComputeRelationID (relType : string) (from to : EntityID) : RelationID :=
  relType +++ ":" +++
    hex_encode (str_take idHashBytes (Sha.sum256 (relType +++ sepRecord +++ from +++ sepRecord +++ to))).

#[global] Arguments ComputeRelationID : simpl never.

Definition NewRelation (relType : string) (from to : EntityID) (attrs : list KeyValue) : Relation :=
  mkRelation (ComputeRelationID relType from to) relType from to attrs
    (match RelationDef relType with Some def => rtd_Structural def | None => false end).

Definition relation_validate (vocabulary : bool) (r : Relation) : error :=
  if bool_decide (r_Type r = "") then Some ErrEmptyType
  else if vocabulary && negb (bool_decide (is_Some (RelationDef (r_Type r))))
       then Some (ErrUnknownType (r_Type r))
  else if bool_decide (r_From r = "") || bool_decide (r_To r = "") then Some ErrEmptyEndpoint
  else match validateKeyValues (r_Attributes r) with
  | Some err => Some (Wrap "attributes" err)
  | None => None
  end.

(** ** Protobuf messages *)

Record PEntity := {
  pe_EntityId : string; pe_IdentityHash : string; pe_Type : string;
  pe_Identity : list PKeyValue; pe_Attributes : list PKeyValue; pe_SchemaUrl : string
}.

Definition Entity_ToProto (e : Entity) : PEntity :=
  {| pe_EntityId := e_ID e; pe_IdentityHash := IdentityHash e; pe_Type := e_Type e;
     pe_Identity := kvsToProto (e_Identity e); pe_Attributes := kvsToProto (e_Attributes e);
     pe_SchemaUrl := e_SchemaURL e |}.

Definition EntityFromProto (p : option PEntity) : Entity :=
  match p with
  | None => zero_Entity
  | Some p => mkEntity (pe_EntityId p) (pe_Type p) (kvsFromProto (pe_Identity p))
                (kvsFromProto (pe_Attributes p)) (pe_SchemaUrl p)
  end.

Record PRelation := {
  pr_RelationId : string; pr_Type : string; pr_FromEntityId : string; pr_ToEntityId : string;
  pr_Attributes : list PKeyValue; pr_Structural : bool
}.

Definition Relation_ToProto (r : Relation) : PRelation :=
  {| pr_RelationId := r_ID r; pr_Type := r_Type r; pr_FromEntityId := r_From r;
     pr_ToEntityId := r_To r; pr_Attributes := kvsToProto (r_Attributes r);
     pr_Structural := r_Structural r |}.

Definition RelationFromProto (p : option PRelation) : Relation :=
  match p with
  | None => zero_Relation
  | Some p => mkRelation (pr_RelationId p) (pr_Type p) (pr_FromEntityId p) (pr_ToEntityId p)
                (kvsFromProto (pr_Attributes p)) (pr_Structural p)
  end.

(** ** Lemmas *)

Lemma EntityFromProto_ToProto e : EntityFromProto (Some (Entity_ToProto e)) = e.
Proof. destruct e; simpl. by rewrite !kvsFromProto_toProto. Qed.

Lemma RelationFromProto_ToProto r : RelationFromProto (Some (Relation_ToProto r)) = r.
Proof. destruct r; simpl. by rewrite !kvsFromProto_toProto. Qed.

(** Well-formed key-values: what validation accepts. *)
Definition wf_kvs (kvs : list KeyValue) : Prop :=
  NoDup (Key <$> kvs) ∧ Forall (λ kv, Key kv ≠ "" ∧ IsValid (Val kv) = true) kvs.

Lemma validate_from_None seen kvs :
  validate_from seen kvs = None ↔
  wf_kvs kvs ∧ ∀ kv, kv ∈ kvs → Key kv ∉ seen.
Proof.
  unfold wf_kvs. revert seen. induction kvs as [|kv kvs IH]; intros seen.
  { split; [|done]. intros _. split; [repeat constructor|]. set_solver. }
  cbn [validate_from]. rewrite fmap_cons NoDup_cons Forall_cons.
  case_bool_decide as Hk; [split; [done|]; naive_solver|].
  case_bool_decide as Hs; [split; [done|]; intros [_ H]; destruct (H kv); [left|done]|].
  destruct (IsValid (Val kv)) eqn:Hv; [|split; [done|]; naive_solver]. simpl.
  rewrite IH. split.
  - intros [[Hnd Hall] Hseen]. split_and!; auto.
    + intros (kv' & Heq & Hin)%list_elem_of_fmap. apply (Hseen _ Hin). rewrite Heq. set_solver.
    + intros kv' [->|Hin]%elem_of_cons; [done|]. intros Hin'. apply (Hseen _ Hin). set_solver.
  - intros [[[Hni Hnd] [_ Hall]] Hseen]. split_and!; auto.
    intros kv' Hin. rewrite elem_of_union elem_of_singleton. intros [He|He].
    + apply Hni, list_elem_of_fmap. eauto.
    + by apply (Hseen kv'); [right|].
Qed.

Lemma validateKeyValues_None kvs : validateKeyValues kvs = None ↔ wf_kvs kvs.
Proof. unfold validateKeyValues. rewrite validate_from_None. set_solver. Qed.

Lemma validateKeyValues_split kvs : {wf_kvs kvs} + {∃ err, validateKeyValues kvs = Some err}.
Proof.
  destruct (validateKeyValues kvs) eqn:E; [right; eauto|left]. by apply validateKeyValues_None.
Qed.

(** *** The fingerprint's input *)

Definition field (kv : KeyValue) : string :=
  Key kv +++ sepField +++ canonical (Val kv) +++ sepRecord.

Lemma identity_buf_fields typ identity :
  identity_buf typ identity = (typ +++ sepRecord) +++ str_concat (map field (sort_by Key identity)).
Proof.
  unfold identity_buf. generalize (typ +++ sepRecord) as acc.
  induction (sort_by Key identity) as [|kv l IH]; intros acc; simpl; [by rewrite string_app_nil_r|].
  rewrite IH appendCanonical_app. unfold field. by rewrite -!string_app_assoc.
Qed.

Lemma identity_hash_perm typ id1 id2 :
  NoDup (Key <$> id1) → id1 ≡ₚ id2 → identity_hash typ id1 = identity_hash typ id2.
Proof.
  intros Hnd Hp. unfold identity_hash, identity_buf. by rewrite (sort_by_canonical Key id1 id2).
Qed.

(** A tag, a colon and a digest of fixed width read back from the right. *)
Lemma tagged_digest_inj (a b x y : string) :
  String.length x = String.length y → a +++ ":" +++ x = b +++ ":" +++ y → a = b ∧ x = y.
Proof.
  intros Hlen H. assert (String.length a = String.length b) as Hab.
  { apply (f_equal String.length) in H. rewrite !string_length_app /= in H. lia. }
  apply string_app_inj_len in H as [-> [= ->]]; done.
Qed.

Lemma digest_length s : String.length (hex_encode (str_take idHashBytes (Sha.sum256 s))) = 32.
Proof. by rewrite hex_encode_length str_take_length sum256_length. Qed.

Lemma identity_hash_type t1 t2 id1 id2 : identity_hash t1 id1 = identity_hash t2 id2 → t1 = t2.
Proof. unfold identity_hash. intros [H _]%tagged_digest_inj; [done|]. by rewrite !digest_length. Qed.

Lemma relation_id_type t1 t2 f1 f2 o1 o2 :
  ComputeRelationID t1 f1 o1 = ComputeRelationID t2 f2 o2 → t1 = t2.
Proof. unfold ComputeRelationID. intros [H _]%tagged_digest_inj; [done|]. by rewrite !digest_length. Qed.

(** No separator byte occurs in the string. *)
Definition no_sep (c : ascii) : bool :=
  negb (Ascii.eqb c (ascii_of_nat 30) || Ascii.eqb c (ascii_of_nat 31)).
Definition sep_free (s : string) : bool := str_forall no_sep s.
Definition kv_sep_free (kv : KeyValue) : bool := sep_free (Key kv) && sep_free (canonical (Val kv)).

Lemma fields_inj (l k : list KeyValue) :
  forallb kv_sep_free l = true → forallb kv_sep_free k = true →
  str_concat (map field l) = str_concat (map field k) →
  map (λ kv, (Key kv, shape (Val kv))) l = map (λ kv, (Key kv, shape (Val kv))) k.
Proof.
  revert k. induction l as [|kv l IH]; intros [|kv' k]; simpl; try done.
  - intros _ _. unfold field. by destruct (Key kv').
  - intros _ _. unfold field. by destruct (Key kv).
  - intros [[Hk Hv]%andb_true_iff Hl]%andb_true_iff [[Hk' Hv']%andb_true_iff Hl']%andb_true_iff.
    unfold field. rewrite -!string_app_assoc. intros H.
    apply (str_sep_inj no_sep) in H as [-> H]; [|done..].
    apply (str_sep_inj no_sep) in H as [Hc H]; [|done..].
    apply canonical_shape in Hc. rewrite Hc. f_equal. by apply IH.
Qed.

Lemma forallb_sort_by {A} (p : A → bool) key (l : list A) :
  forallb p l = true → forallb p (sort_by key l) = true.
Proof.
  rewrite !forallb_forall. intros H x Hin. apply H.
  rewrite -list_elem_of_In. rewrite -list_elem_of_In in Hin. by apply sort_by_elem in Hin.
Qed.

(** ** Properties *)

(** The identity fingerprint does not depend on the order in which a
    producer lists the identifying attributes: any permutation of an identity
    with distinct keys gives the same fingerprint. *)
Theorem identity_hash_order_independent e1 e2 :
  NoDup (Key <$> e_Identity e1) → e_Type e1 = e_Type e2 → e_Identity e1 ≡ₚ e_Identity e2 →
  IdentityHash e1 = IdentityHash e2.
Proof. unfold IdentityHash. intros ? -> ?. by apply identity_hash_perm. Qed.

(** The two listings of one listener's identity. *)
Definition order_a : Entity := mkEntity "" TypeNetworkEndpoint
  [("server.address", KindString "10.0.0.5"); ("server.port", KindInt 5432)] [] "".
Definition order_b : Entity := mkEntity "" TypeNetworkEndpoint
  [("server.port", KindInt 5432); ("server.address", KindString "10.0.0.5")] [] "".
Lemma identity_hash_order_independent_witness : IdentityHash order_a = IdentityHash order_b.
Proof.
  apply identity_hash_order_independent; [|done|].
  - vm_compute. repeat constructor; set_solver.
  - apply Permutation_swap.
Defined.

(** The bytes digested into a fingerprint determine the identity: when no
    type, key or encoded value contains one of the two separator bytes, equal
    inputs mean the same type and the same keys with values of the same shape.
    Two identities then share a fingerprint only through a collision of the
    truncated digest. *)
Theorem identity_buf_faithful t1 t2 id1 id2 :
  sep_free t1 = true → sep_free t2 = true →
  forallb kv_sep_free id1 = true → forallb kv_sep_free id2 = true →
  identity_buf t1 id1 = identity_buf t2 id2 →
  t1 = t2 ∧ map (λ kv, (Key kv, shape (Val kv))) (sort_by Key id1)
          = map (λ kv, (Key kv, shape (Val kv))) (sort_by Key id2).
Proof.
  intros Ht1 Ht2 H1 H2. rewrite !identity_buf_fields -!string_app_assoc. intros H.
  apply (str_sep_inj no_sep) in H as [-> H]; [|done..]. split; [done|].
  apply fields_inj; auto using forallb_sort_by.
Qed.
Lemma identity_buf_faithful_witness :
  identity_buf TypeNetworkEndpoint (e_Identity order_a)
    = identity_buf TypeNetworkEndpoint (e_Identity order_b) ∧
  TypeNetworkEndpoint = TypeNetworkEndpoint ∧
  map (λ kv, (Key kv, shape (Val kv))) (sort_by Key (e_Identity order_a))
          = map (λ kv, (Key kv, shape (Val kv))) (sort_by Key (e_Identity order_b)).
Proof.
  split; [by vm_compute|]. apply identity_buf_faithful; by vm_compute.
Defined.

(** The separator bytes are load-bearing: an identifying value that contains
    them can spell the encoding of a further attribute, so two valid entities
    with different identities (one key against two) get the same fingerprint
    and would be taken for one entity. *)
Theorem identity_hash_separator_collision : ∃ e1 e2,
  Entity_Validate e1 = None ∧ Entity_Validate e2 = None ∧
  length (e_Identity e1) ≠ length (e_Identity e2) ∧ IdentityHash e1 = IdentityHash e2.
Proof.
  exists (mkEntity "" TypeHost
    [("a", KindString ("x" +++ sepRecord +++ "b" +++ sepField +++ "s:y"))] [] ""),
   (mkEntity "" TypeHost [("a", KindString "x"); ("b", KindString "y")] [] "").
  split_and!; [by vm_compute..|done|by vm_compute].
Qed.

(** Fingerprints and relation ids never cross types: whatever the digest
    does, two entities of different types have different fingerprints and two
    relations of different types different ids, registered types or not. *)
Theorem fingerprints_separate_types t1 t2 id1 id2 f1 o1 f2 o2 :
  t1 ≠ t2 → identity_hash t1 id1 ≠ identity_hash t2 id2 ∧
            ComputeRelationID t1 f1 o1 ≠ ComputeRelationID t2 f2 o2.
Proof.
  intros Hne. split; [by intros ?%identity_hash_type|by intros ?%relation_id_type].
Qed.
Lemma fingerprints_separate_types_witness :
  identity_hash "host" [] ≠ identity_hash "host:" [] ∧
  ComputeRelationID "host" "a" "b" ≠ ComputeRelationID "host:" "a" "b".
Proof. apply fingerprints_separate_types. done. Defined.

(** Validation accepts exactly the well-formed entities: a non-empty type,
    registered unless the vocabulary is open, at least one identifying
    attribute, and in both attribute lists distinct non-empty keys with set
    values. *)
Theorem entity_validate_spec vocabulary e :
  entity_validate vocabulary e = None ↔
  e_Type e ≠ "" ∧ (vocabulary = true → IsKnownEntityType (e_Type e) = true) ∧
  e_Identity e ≠ [] ∧ wf_kvs (e_Identity e) ∧ wf_kvs (e_Attributes e).
Proof.
  unfold entity_validate. rewrite -!validateKeyValues_None.
  case_bool_decide as Ht; [intuition congruence|].
  case_bool_decide as Hi;
  destruct vocabulary, (IsKnownEntityType (e_Type e)); simpl;
    destruct (validateKeyValues (e_Identity e)), (validateKeyValues (e_Attributes e));
    intuition congruence.
Qed.
