(* ===== verification/Events.v ===== *)
(** * Events: internal/model/changetype.go and event.go

    The classified, bi-temporal events of the log: the change taxonomy, the
    entity and relation events, their envelope, validation and the protobuf
    conversions. *)
From S2P Require Import Prelude GoStd Values Vocabulary Entities.

(** ** The change taxonomy (changetype.go) *)

(** The named constants, and any other integer a decoded message may carry. *)
Inductive ChangeType :=
| ChangeUnspecified
| EntityCreated
| EntityDeleted
| EntityIdentityChanged
| EntityAttributeUpdated
| EntityStateChanged
| EntityUnchanged
| RelationAdded
| RelationRemoved
| RelationAttributeChanged
| OtherChange (n : Z).

#[export] Instance ChangeType_eq_dec : EqDecision ChangeType.
Proof. solve_decision. Defined.

(** The underlying integer. *)
Definition ct_int (c : ChangeType) : Z :=
  match c with
  | ChangeUnspecified => 0 | EntityCreated => 1 | EntityDeleted => 2
  | EntityIdentityChanged => 3 | EntityAttributeUpdated => 4 | EntityStateChanged => 5
  | EntityUnchanged => 6 | RelationAdded => 7 | RelationRemoved => 8
  | RelationAttributeChanged => 9 | OtherChange n => n
  end.

Definition ct_of_int (n : Z) : ChangeType :=
  match n with
  | 0 => ChangeUnspecified | 1 => EntityCreated | 2 => EntityDeleted
  | 3 => EntityIdentityChanged | 4 => EntityAttributeUpdated | 5 => EntityStateChanged
  | 6 => EntityUnchanged | 7 => RelationAdded | 8 => RelationRemoved
  | 9 => RelationAttributeChanged | n => OtherChange n
  end%Z.

Definition ChangeType_String (c : ChangeType) : string :=
  match c with
  | EntityCreated => "entity.created"
  | EntityDeleted => "entity.deleted"
  | EntityIdentityChanged => "entity.identity_changed"
  | EntityAttributeUpdated => "entity.attribute_updated"
  | EntityStateChanged => "entity.state_changed"
  | EntityUnchanged => "entity.unchanged"
  | RelationAdded => "relation.added"
  | RelationRemoved => "relation.removed"
  | RelationAttributeChanged => "relation.attribute_changed"
  | ChangeUnspecified | OtherChange _ => "unspecified"
  end.

Definition IsEntity (c : ChangeType) : bool :=
  (ct_int EntityCreated <=? ct_int c)%Z && (ct_int c <=? ct_int EntityUnchanged)%Z.
Definition IsRelation (c : ChangeType) : bool :=
  (ct_int RelationAdded <=? ct_int c)%Z && (ct_int c <=? ct_int RelationAttributeChanged)%Z.

(** A change type as the code can hold one: no second spelling of a constant. *)
Definition ct_canonical (c : ChangeType) : Prop := ct_of_int (ct_int c) = c.

(** ** Events (event.go) *)

Definition SchemaVersion : string := "1.1".

Inductive DeleteSource :=
| DeleteSourceUnknown | DeleteSourceProducer | DeleteSourceLivenessExpiry | DeleteSourceCascade.
#[export] Instance DeleteSource_eq_dec : EqDecision DeleteSource.
Proof. solve_decision. Defined.

Record EntityEvent := mkEntityEvent {
  ee_EventID : string;
  ee_ChangeType : ChangeType;
  ee_Entity : Entity;
  ee_EventTime : Time;
  ee_RecordedAt : Time;
  ee_CommitSeq : Z;
  ee_Scope : string;
  ee_SchemaVersion : string;
  ee_ChangedKeys : list string;
  ee_DeleteReason : string;
  ee_DeleteSource : DeleteSource;
}.

Record RelationEvent := mkRelationEvent {
  re_EventID : string;
  re_ChangeType : ChangeType;
  re_Relation : Relation;
  re_EventTime : Time;
  re_RecordedAt : Time;
  re_CommitSeq : Z;
  re_Scope : string;
  re_SchemaVersion : string;
  re_ChangedKeys : list string;
  re_DeleteSource : DeleteSource;
}.

(** The envelope: two pointers, exactly one of them non-nil. *)
Record Event := mkEvent {
  ev_Entity : option EntityEvent;
  ev_Relation : option RelationEvent;
}.
#[export] Instance EntityEvent_eq_dec : EqDecision EntityEvent.
Proof. solve_decision. Defined.
#[export] Instance RelationEvent_eq_dec : EqDecision RelationEvent.
Proof. solve_decision. Defined.
#[export] Instance Event_eq_dec : EqDecision Event.
Proof. solve_decision. Defined.

Definition zero_Event : Event := mkEvent None None.
Definition entity_event (ee : EntityEvent) : Event := mkEvent (Some ee) None.
Definition relation_event (re : RelationEvent) : Event := mkEvent None (Some re).

(** *** Validation *)

Definition commonEventChecks (eventTime recordedAt : Time) (schemaVersion : string) : error :=
  if is_zero eventTime then Some ErrZeroEventTime
  else if is_zero recordedAt then Some ErrZeroRecordedAt
  else if bool_decide (schemaVersion = "") then Some ErrEmptySchemaVersion
  else None.

Definition entityEvent_validate (vocabulary : bool) (e : EntityEvent) : error :=
  if bool_decide (ee_ChangeType e = ChangeUnspecified) then Some ErrChangeTypeUnset
  else if negb (IsEntity (ee_ChangeType e)) then Some ErrChangeTypeMismatch
  else match commonEventChecks (ee_EventTime e) (ee_RecordedAt e) (ee_SchemaVersion e) with
  | Some err => Some err
  | None =>
    match entity_validate vocabulary (ee_Entity e) with
    | Some err => Some (Wrap "entity" err)
    | None => None
    end
  end.

Definition relationEvent_validate (vocabulary : bool) (r : RelationEvent) : error :=
  if bool_decide (re_ChangeType r = ChangeUnspecified) then Some ErrChangeTypeUnset
  else if negb (IsRelation (re_ChangeType r)) then Some ErrChangeTypeMismatch
  else match commonEventChecks (re_EventTime r) (re_RecordedAt r) (re_SchemaVersion r) with
  | Some err => Some err
  | None =>
    match relation_validate vocabulary (re_Relation r) with
    | Some err => Some (Wrap "relation" err)
    | None => None
    end
  end.

Definition validateEnvelope (vocabulary : bool) (e : Event) : error :=
  match ev_Entity e, ev_Relation e with
  | Some _, Some _ => Some ErrChangeTypeMismatch
  | Some ee, None => entityEvent_validate vocabulary ee
  | None, Some re => relationEvent_validate vocabulary re
  | None, None => Some ErrMissingEntity
  end.
Definition Event_Validate : Event → error := validateEnvelope true.
Definition Event_ValidateShape : Event → error := validateEnvelope false.

Definition Times (e : Event) : Time * Time :=
  match ev_Entity e, ev_Relation e with
  | Some ee, _ => (ee_EventTime ee, ee_RecordedAt ee)
  | None, Some re => (re_EventTime re, re_RecordedAt re)
  | None, None => (zero_time, zero_time)
  end.

(** *** Protobuf *)

Definition nanoOf (t : Time) : Z := if is_zero t then 0%Z else unix_nano t.
Definition timeOf (nano : Z) : Time := if (nano =? 0)%Z then zero_time else of_unix_nano nano.

Definition DeleteSource_toProto (s : DeleteSource) : Z :=
  match s with
  | DeleteSourceProducer => 1 | DeleteSourceLivenessExpiry => 2 | DeleteSourceCascade => 3
  | DeleteSourceUnknown => 0
  end%Z.
Definition deleteSourceFromProto (p : Z) : DeleteSource :=
  match p with
  | 1 => DeleteSourceProducer | 2 => DeleteSourceLivenessExpiry | 3 => DeleteSourceCascade
  | _ => DeleteSourceUnknown
  end%Z.

Record PEntityEvent := {
  pee_EventId : string; pee_ChangeType : Z; pee_Entity : option PEntity;
  pee_EventTimeUnixNano : Z; pee_RecordedAtUnixNano : Z; pee_CommitSeq : Z; pee_Scope : string;
  pee_SchemaVersion : string; pee_ChangedKeys : list string; pee_DeleteReason : string;
  pee_DeleteSource : Z
}.
Record PRelationEvent := {
  pre_EventId : string; pre_ChangeType : Z; pre_Relation : option PRelation;
  pre_EventTimeUnixNano : Z; pre_RecordedAtUnixNano : Z; pre_CommitSeq : Z; pre_Scope : string;
  pre_SchemaVersion : string; pre_ChangedKeys : list string; pre_DeleteSource : Z
}.
(** The [Event] message's oneof, unset when neither is. *)
Inductive PEvent :=
| PEventUnset
| PEntityEventCase (p : option PEntityEvent)
| PRelationEventCase (p : option PRelationEvent).

Definition EntityEvent_ToProto (e : EntityEvent) : PEntityEvent :=
  {| pee_EventId := ee_EventID e; pee_ChangeType := ct_int (ee_ChangeType e);
     pee_Entity := Some (Entity_ToProto (ee_Entity e));
     pee_EventTimeUnixNano := nanoOf (ee_EventTime e);
     pee_RecordedAtUnixNano := nanoOf (ee_RecordedAt e);
     pee_CommitSeq := ee_CommitSeq e; pee_Scope := ee_Scope e;
     pee_SchemaVersion := ee_SchemaVersion e; pee_ChangedKeys := ee_ChangedKeys e;
     pee_DeleteReason := ee_DeleteReason e;
     pee_DeleteSource := DeleteSource_toProto (ee_DeleteSource e) |}.

Definition zero_EntityEvent : EntityEvent :=
  mkEntityEvent "" ChangeUnspecified zero_Entity zero_time zero_time 0 "" "" [] "" DeleteSourceUnknown.

Definition EntityEventFromProto (p : option PEntityEvent) : EntityEvent :=
  match p with
  | None => zero_EntityEvent
  | Some p =>
    mkEntityEvent (pee_EventId p) (ct_of_int (pee_ChangeType p)) (EntityFromProto (pee_Entity p))
      (timeOf (pee_EventTimeUnixNano p)) (timeOf (pee_RecordedAtUnixNano p)) (pee_CommitSeq p)
      (pee_Scope p) (pee_SchemaVersion p) (pee_ChangedKeys p) (pee_DeleteReason p)
      (deleteSourceFromProto (pee_DeleteSource p))
  end.

Definition RelationEvent_ToProto (r : RelationEvent) : PRelationEvent :=
  {| pre_EventId := re_EventID r; pre_ChangeType := ct_int (re_ChangeType r);
     pre_Relation := Some (Relation_ToProto (re_Relation r));
     pre_EventTimeUnixNano := nanoOf (re_EventTime r);
     pre_RecordedAtUnixNano := nanoOf (re_RecordedAt r);
     pre_CommitSeq := re_CommitSeq r; pre_Scope := re_Scope r;
     pre_SchemaVersion := re_SchemaVersion r; pre_ChangedKeys := re_ChangedKeys r;
     pre_DeleteSource := DeleteSource_toProto (re_DeleteSource r) |}.

Definition zero_RelationEvent : RelationEvent :=
  mkRelationEvent "" ChangeUnspecified zero_Relation zero_time zero_time 0 "" "" [] DeleteSourceUnknown.

Definition RelationEventFromProto (p : option PRelationEvent) : RelationEvent :=
  match p with
  | None => zero_RelationEvent
  | Some p =>
    mkRelationEvent (pre_EventId p) (ct_of_int (pre_ChangeType p)) (RelationFromProto (pre_Relation p))
      (timeOf (pre_EventTimeUnixNano p)) (timeOf (pre_RecordedAtUnixNano p)) (pre_CommitSeq p)
      (pre_Scope p) (pre_SchemaVersion p) (pre_ChangedKeys p)
      (deleteSourceFromProto (pre_DeleteSource p))
  end.

Definition Event_ToProto (e : Event) : PEvent :=
  match ev_Entity e, ev_Relation e with
  | Some ee, _ => PEntityEventCase (Some (EntityEvent_ToProto ee))
  | None, Some re => PRelationEventCase (Some (RelationEvent_ToProto re))
  | None, None => PEventUnset
  end.

(** [EventFromProto]; a nil message is the zero event. *)
Definition EventFromProto (p : option PEvent) : Event :=
  match p with
  | None => zero_Event
  | Some (PEntityEventCase p) => entity_event (EntityEventFromProto p)
  | Some (PRelationEventCase p) => relation_event (RelationEventFromProto p)
  | Some PEventUnset => zero_Event
  end.

(** ** Lemmas *)

(** The instants the nanosecond fields can hold: the zero instant, and those
    within the int64 range around the Unix epoch other than the epoch itself. *)
Definition time_storable (t : Time) : Prop :=
  t = zero_time ∨ (t ≠ unix_epoch ∧ (min_int64 <= t - unix_epoch <= max_int64)%Z).

Lemma timeOf_nanoOf t : timeOf (nanoOf t) = t ↔ time_storable t.
Proof.
  unfold timeOf, nanoOf, time_storable, is_zero, zero_time, of_unix_nano, unix_nano.
  destruct (Z.eqb_spec t 0) as [->|Ht]; [naive_solver|].
  pose proof (wrap64_range (t - unix_epoch)) as Hr.
  destruct (Z.eqb_spec (wrap64 (t - unix_epoch)) 0) as [Hw|Hw].
  - split; [congruence|]. intros [->|[Hne Hin]]; [done|].
    rewrite wrap64_id in Hw; [|done]. lia.
  - split.
    + intros E. right. assert (wrap64 (t - unix_epoch) = t - unix_epoch)%Z as Hid by lia.
      rewrite Hid in Hw, Hr. split; [|done]. intros ->. lia.
    + intros [->|[Hne Hin]]; [done|]. rewrite wrap64_id; [lia|done].
Qed.

Lemma deleteSource_roundtrip s : deleteSourceFromProto (DeleteSource_toProto s) = s.
Proof. by destruct s. Qed.

Lemma IsEntity_IsRelation_disjoint c : IsEntity c = true → IsRelation c = false.
Proof. unfold IsEntity, IsRelation. simpl. lia. Qed.

(** What an event must satisfy for its stored form to be lossless. *)
Definition event_storable (e : Event) : Prop :=
  match ev_Entity e, ev_Relation e with
  | Some ee, None => ct_canonical (ee_ChangeType ee) ∧
      time_storable (ee_EventTime ee) ∧ time_storable (ee_RecordedAt ee)
  | None, Some re => ct_canonical (re_ChangeType re) ∧
      time_storable (re_EventTime re) ∧ time_storable (re_RecordedAt re)
  | None, None => True
  | Some _, Some _ => False
  end.

Lemma EntityEvent_roundtrip ee : ct_canonical (ee_ChangeType ee) →
  time_storable (ee_EventTime ee) → time_storable (ee_RecordedAt ee) →
  EntityEventFromProto (Some (EntityEvent_ToProto ee)) = ee.
Proof.
  destruct ee; simpl. unfold ct_canonical. intros Hc Ht1%timeOf_nanoOf Ht2%timeOf_nanoOf.
  pose proof (EntityFromProto_ToProto ee_Entity0) as He. simpl in He.
  by rewrite Hc Ht1 Ht2 He deleteSource_roundtrip.
Qed.

Lemma RelationEvent_roundtrip re : ct_canonical (re_ChangeType re) →
  time_storable (re_EventTime re) → time_storable (re_RecordedAt re) →
  RelationEventFromProto (Some (RelationEvent_ToProto re)) = re.
Proof.
  destruct re; simpl. unfold ct_canonical. intros Hc Ht1%timeOf_nanoOf Ht2%timeOf_nanoOf.
  pose proof (RelationFromProto_ToProto re_Relation0) as He. simpl in He.
  by rewrite Hc Ht1 Ht2 He deleteSource_roundtrip.
Qed.

(** The stored form of an event, decoded. *)
Lemma event_decode e : event_storable e → EventFromProto (Some (Event_ToProto e)) = e.
Proof.
  destruct e as [[ee|] [re|]]; unfold event_storable; simpl; try done; intros (Hc & Ht1 & Ht2).
  - pose proof (EntityEvent_roundtrip ee Hc Ht1 Ht2) as H. simpl in H. by rewrite H.
  - pose proof (RelationEvent_roundtrip re Hc Ht1 Ht2) as H. simpl in H. by rewrite H.
Qed.

(** ** Properties *)

(** The durable form of an event is lossless: decoding the protobuf message
    of an event with one payload gives the event back, every field included,
    when its two instants are storable (zero, or within the int64 nanosecond
    range and not exactly the Unix epoch). *)
Theorem event_proto_roundtrip e : event_storable e → EventFromProto (Some (Event_ToProto e)) = e.
Proof. apply event_decode. Qed.
Definition sample_event : Event := entity_event
  (mkEntityEvent "01J" EntityStateChanged
    (mkEntity "01H" TypeHost [("host.id", KindString "h1")]
       [("load", KindDouble f64_0_9); ("tags", KindArray [KindString "a"; KindBool true])] "v1")
    (of_unix_nano 1700000000000000000) (of_unix_nano 1700000000000000001) 7 "agent/snmp" SchemaVersion
    ["status"%string] "" DeleteSourceUnknown).
Lemma event_proto_roundtrip_witness :
  event_storable sample_event ∧ EventFromProto (Some (Event_ToProto sample_event)) = sample_event.
Proof.
  assert (event_storable sample_event) as H.
  { split; [done|]. split; right; vm_compute; (split; [done|split; by intros]). }
  split; [exact H|]. apply (event_proto_roundtrip sample_event). exact H.
Defined.

(** Exactly which instants survive the log: the nanosecond encoding and its
    decoding give an instant back if and only if it is storable. In particular
    an event dated at the Unix epoch is read back with the zero instant, which
    validation rejects. *)
Theorem time_storable_exactly t : timeOf (nanoOf t) = t ↔ time_storable t.
Proof. apply timeOf_nanoOf. Qed.
