(* ===== verification/DisplayNames.v ===== *)
(** * Display names: internal/model/displayname.go

    What a human calls an entity. The registries are maps from entity types to
    the keys, the composition or the declared reason; the theorem says that
    every registered type has made one of the three decisions, and when a name
    is empty. *)
From S2P Require Import Prelude GoStd Values Vocabulary Entities.
Open Scope string_scope.

Definition displayNameKeys : gmap string (list string) := list_to_map [
  (TypeHost, ["host.name"]);
  (TypeContainer, ["container.name"; "compose.service"]);
  (TypeServiceInstance, ["service.name"]);
  (TypeHostService, ["host.service.name"]);
  (TypeK8sNode, ["k8s.node.name"]);
  (TypeNetworkDevice, ["network.device.name"; "device.name"; "sys.name"]);
  (TypeNetworkInterface, ["network.interface.name"; "interface.name"]);
  (TypeServiceListener, ["process.executable.name"; "process.name"]);
  (TypeProcess, ["process.name"; "process.executable.name"]);
  (TypePod, ["k8s.pod.name"]);
  (TypeComputeVM, ["vm.name"; "host.name"]);
  (TypeNetworkRoute, ["route.destination"]);
  (TypeNetworkAddress, ["network.address"]);
  (TypeCloudResource, ["azure.resource.name"])
].

Definition displayNameNone : gmap string string := list_to_map [
  (TypeNetworkSegment, "its id is an assigned opaque value and no producer emits a name")
].

Definition DisplayNameAbsentReason (entityType : string) : string * bool :=
  match displayNameNone !! entityType with
  | Some reason => (reason, true)
  | None => ("", false)
  end.

(** The first entry with the key, rendered. *)
Definition find_display (kvs : list KeyValue) (key : string) : option string :=
  (λ kv, Display (Val kv)) <$> find (λ kv, bool_decide (Key kv = key)) kvs.

(** [attrValue]: the identity first. *)
Definition attrValue (e : Entity) (key : string) : string :=
  match find_display (e_Identity e) key with
  | Some s => s
  | None => default "" (find_display (e_Attributes e) key)
  end.

Definition neighborName (e : Entity) : string := attrValue e "mac".

(** An IPv6 literal is bracketed so that the port stays legible. *)
Definition bracket (addr : string) : string :=
  if contains_byte ":" addr && negb (String.prefix "[" addr) then "[" +++ addr +++ "]" else addr.

Definition endpointName (e : Entity) : string :=
  let addr := attrValue e "server.address" in
  if bool_decide (addr = "") then "" else
  let addr := bracket addr in
  let port := attrValue e "server.port" in
  if bool_decide (port = "") then addr else addr +++ ":" +++ port.

Definition databaseName (e : Entity) : string :=
  let system := attrValue e "db.system.name" in
  if bool_decide (system = "") then "" else
  let addr := attrValue e "server.address" in
  if bool_decide (addr = "") then system else
  let addr := bracket addr in
  let port := attrValue e "server.port" in
  if bool_decide (port = "") then system +++ "@" +++ addr
  else system +++ "@" +++ addr +++ ":" +++ port.

Definition displayNameComposed : gmap string (Entity → string) := list_to_map [
  (TypeNetworkEndpoint, endpointName);
  (TypeDatabase, databaseName);
  (TypeNetworkNeighbor, neighborName)
].

(** The first non-empty attribute among the keys. *)
Fixpoint first_named (e : Entity) (keys : list string) : string :=
  match keys with
  | [] => ""
  | key :: keys =>
    let s := attrValue e key in
    if bool_decide (s = "") then first_named e keys else s
  end.

Definition DisplayName (e : Entity) : string :=
  let composed := match displayNameComposed !! e_Type e with Some f => f e | None => "" end in
  if bool_decide (composed = "") then first_named e (default [] (displayNameKeys !! e_Type e))
  else composed.

Definition LabelName (e : Entity) : string :=
  let name := DisplayName e in
  if bool_decide (name = "") then ""
  else if existsb (λ kv, bool_decide (Display (Val kv) = name)) (e_Identity e) then "" else name.

(** ** Properties *)

(** Every registered entity type decides on a display name: it is listed in
    exactly one of the three registries (keys, composition, declared absence),
    and no registry lists an unregistered type. *)
Theorem display_name_decided t :
  (IsKnownEntityType t = true ↔
     is_Some (displayNameKeys !! t) ∨ is_Some (displayNameComposed !! t) ∨ is_Some (displayNameNone !! t)) ∧
  ¬ (is_Some (displayNameKeys !! t) ∧ is_Some (displayNameComposed !! t)) ∧
  ¬ (is_Some (displayNameKeys !! t) ∧ is_Some (displayNameNone !! t)) ∧
  ¬ (is_Some (displayNameComposed !! t) ∧ is_Some (displayNameNone !! t)).
Proof.
  assert (entityTypes = dom displayNameKeys ∪ dom displayNameComposed ∪ dom displayNameNone) as Hall
    by by_decide.
  assert (dom displayNameKeys ∩ dom displayNameComposed = ∅) as H12 by by_decide.
  assert (dom displayNameKeys ∩ dom displayNameNone = ∅) as H13 by by_decide.
  assert (dom displayNameComposed ∩ dom displayNameNone = ∅) as H23 by by_decide.
  unfold IsKnownEntityType. rewrite bool_decide_eq_true Hall -!elem_of_dom.
  clear Hall. rewrite !elem_of_union. generalize dependent (dom displayNameKeys).
  generalize dependent (dom displayNameComposed). generalize (dom displayNameNone).
  intros A B H23 C H12 H13. set_solver.
Qed.

(** A label never repeats an identifying value: [LabelName] is the display
    name, or empty when there is none or when some identifying attribute already
    renders as it. *)
Theorem label_name_spec e :
  (LabelName e = "" ∨ LabelName e = DisplayName e) ∧
  (LabelName e ≠ "" → ∀ kv, kv ∈ e_Identity e → Display (Val kv) ≠ LabelName e).
Proof.
  unfold LabelName. case_bool_decide as Hn; [split; [by left|done]|].
  destruct (existsb _ _) eqn:Hex; [split; [by left|done]|].
  split; [by right|]. intros _ kv Hin Heq.
  rewrite -not_true_iff_false existsb_exists in Hex. apply Hex. exists kv.
  split; [by apply list_elem_of_In|]. by rewrite bool_decide_eq_true.
Qed.

Example display_name_samples :
  DisplayName (mkEntity "" TypeNetworkEndpoint
    [("server.address", KindString "2a01:db8::1"); ("server.port", KindInt 443)] [] "") = "[2a01:db8::1]:443" ∧
  LabelName (mkEntity "" TypeHost [("host.name", KindString "web-1")] [] "") = "" ∧
  DisplayName (mkEntity "" TypeDatabase [("db.instance.id", KindString "42")]
    [("db.system.name", KindString "postgresql"); ("server.address", KindString "10.0.0.5")] "")
    = "postgresql@10.0.0.5".
Proof. vm_compute. auto. Qed.

Close Scope string_scope.
