(* ===== verification/Speakers.v ===== *)
(** * Speakers and their references: the keys of internal/change/engine.go

    A liveness reference is held by a speaker, a producer and the collection
    method it spoke through; [refKey] is the one string that names both, and the
    maps of references are keyed by it. *)
From S2P Require Import Prelude GoStd.

Open Scope string_scope.

(** ** References *)

Record liveRef := mkLiveRef {
  lr_deadline : Time;
  lr_interval : Duration;
  lr_legacy : bool;
}.
#[export] Instance liveRef_eq_dec : EqDecision liveRef.
Proof. solve_decision. Defined.

(** [liveRef{}] *)
Definition zero_liveRef : liveRef := mkLiveRef zero_time 0 false.

(** The references of one entity, edge or claim, by speaker. *)
Abbreviation Speakers := (gmap string liveRef).

Definition maxPlausibleLivenessPromise : Duration := (7 * 24 * hour)%Z.

(** A reference whose deadline is set and passed. *)
Definition lapsed (now : Time) (ref : liveRef) : bool :=
  negb (is_zero (lr_deadline ref)) && after now (lr_deadline ref).

(** The references a sweep keeps. *)
Definition kept_speakers (now : Time) (sp : Speakers) : Speakers := filter (λ kr, lapsed now kr.2 = false) sp.

(** ** Keys *)

Definition NUL : ascii := Ascii.zero.

(** The test [producer == "" || producer[0] != 0]. *)
Definition unmarked (s : string) : bool :=
  match s with
  | EmptyString => true
  | String c _ => negb (Ascii.eqb c NUL)
  end.

Definition refKey (producer scope : string) : string :=
  if bool_decide (scope = "") && unmarked producer then producer
  else String NUL (itoa (Z.of_nat (String.length producer)) +++ String NUL (producer +++ scope)).

Definition splitRefKey (key : string) : string * string :=
  match key with
  | EmptyString => (key, "")
  | String c rest =>
    if negb (Ascii.eqb c NUL) then (key, "") else
    match index_byte NUL rest with
    | None => (key, "")
    | Some e =>
      match atoi (str_take e rest) with
      | None => (key, "")
      | Some n =>
        if (n <? 0)%Z || (Z.of_nat (String.length key) <? 1 + Z.of_nat e + 1 + n)%Z then (key, "") else
        let body := str_drop (e + 1) rest in
        (str_take (Z.to_nat n) body, str_drop (Z.to_nat n) body)
      end
    end
  end.

(** ** Reading and releasing references *)

(** Drop one speaker, and with it every legacy reference of its producer. *)
Definition releaseSpeaker (refs : Speakers) (producer scope : string) : Speakers * bool :=
  let k := refKey producer scope in
  let own := bool_decide (is_Some (refs !! k)) in
  let refs := delete k refs in
  let goes (kr : string * liveRef) := lr_legacy kr.2 && bool_decide ((splitRefKey kr.1).1 = producer) in
  (filter (λ kr, goes kr = false) refs, own || existsb goes (map_to_list refs)).

(** Distinct nonempty names, sorted. *)
Definition sorted_names (l : list string) : list string :=
  sort_by id (remove_dups (base.filter (λ s, s ≠ "") l)).
Definition producersOf (speakers : Speakers) : list string :=
  sorted_names (map (λ kr, (splitRefKey kr.1).1) (map_to_list speakers)).
Definition scopesOf (speakers : Speakers) : list string :=
  sorted_names (map (λ kr, (splitRefKey kr.1).2) (map_to_list speakers)).
Definition anonymous (speakers : Speakers) : list string :=
  base.filter (λ k, (splitRefKey k).1 = "") (map_to_list speakers).*1.

(** The largest declared interval, and whether there is one. *)
Definition coarsest (speakers : Speakers) : Duration * bool :=
  let d := foldr Z.max 0%Z (map (λ kr, lr_interval kr.2) (map_to_list speakers)) in
  (d, (0 <? d)%Z).

Definition floorDeadline (deadline : Time) (interval : Duration) (now : Time) : Time :=
  if is_zero deadline || (interval <=? 0)%Z then deadline
  else let floor := time_add now interval in if before deadline floor then floor else deadline.

(** ** The key names its speaker *)

(** A Go string's length fits an [int]. *)
Definition fits (s : string) : Prop := (Z.of_nat (String.length s) <= max_int64)%Z.

Lemma index_byte_sep c a b : str_forall (λ d, negb (Ascii.eqb c d)) a = true →
  index_byte c (a +++ String c b) = Some (String.length a).
Proof.
  induction a as [|d a IH]; simpl; [by rewrite Ascii.eqb_refl|].
  destruct (Ascii.eqb c d); [done|]. intros H. by rewrite IH.
Qed.

Lemma digits_no_nul s : str_forall is_digit s = true → str_forall (λ d, negb (Ascii.eqb NUL d)) s = true.
Proof.
  induction s as [|c s IH]; [done|]. cbn [str_forall]. rewrite !(andb_true_iff (_ c)) !(andb_true_iff (negb _)).
  intros [Hc Hs]. split; [|auto]. destruct (Ascii.eqb_spec NUL c) as [<-|]; done.
Qed.

Lemma split_marked producer scope : fits producer →
  splitRefKey (String NUL (itoa (Z.of_nat (String.length producer)) +++ String NUL (producer +++ scope)))
  = (producer, scope).
Proof.
  intros Hf. set (n := itoa _). unfold splitRefKey.
  assert (str_forall (λ d, negb (Ascii.eqb NUL d)) n = true) as Hn
    by (apply digits_no_nul, itoa_nonneg_digits; lia).
  rewrite Ascii.eqb_refl index_byte_sep; [|done]. simpl.
  rewrite str_take_app. unfold n at 1. rewrite atoi_itoa; [|unfold fits in Hf; lia].
  rewrite string_length_app /= string_length_app. fold n.
  destruct (Z.ltb_spec (Z.of_nat (String.length producer)) 0); [lia|].
  destruct (Z.ltb_spec (Z.of_nat (S (String.length n + S (String.length producer + String.length scope))))
    (1 + Z.of_nat (String.length n) + 1 + Z.of_nat (String.length producer))); [lia|]. simpl.
  rewrite Nat2Z.id. change (n +++ String NUL (producer +++ scope)) with (n +++ (String NUL "" +++ (producer +++ scope))).
  rewrite string_app_assoc.
  replace (String.length n + 1) with (String.length (n +++ String NUL "")) by by rewrite string_length_app.
  by rewrite str_drop_app str_take_app str_drop_app.
Qed.

Lemma split_refKey producer scope : fits producer → splitRefKey (refKey producer scope) = (producer, scope).
Proof.
  intros Hf. unfold refKey. case_bool_decide as Hs; simpl; [|by apply split_marked].
  destruct (unmarked producer) eqn:Hu; [|by apply split_marked]. subst scope.
  destruct producer as [|c p]; [done|]. simpl in *. by rewrite Hu.
Qed.

(** The speaker key is injective on real speakers and reads back as the
    producer and method it was made of, whatever bytes either contains: no
    producer can spell another producer-and-method pair. *)
Theorem refkey_roundtrip (producer scope producer' scope' : string)
    (Hp : fits producer) (Hp' : fits producer') :
  splitRefKey (refKey producer scope) = (producer, scope) ∧
  (refKey producer scope = refKey producer' scope' → producer = producer' ∧ scope = scope').
Proof.
  split; [by apply split_refKey|]. intros H.
  pose proof (split_refKey producer scope Hp) as H1. rewrite H split_refKey in H1; [|done]. naive_solver.
Qed.

Lemma refkey_roundtrip_witness :
  splitRefKey (refKey (String NUL ("1" +++ String NUL "a")) "snmp") = (String NUL ("1" +++ String NUL "a"), "snmp").
Proof.
  apply (refkey_roundtrip (String NUL ("1" +++ String NUL "a")) "snmp" "a" ""); unfold fits; vm_compute; done.
Defined.

(** ** Releasing *)

Lemma release_lookup refs producer scope k :
  (releaseSpeaker refs producer scope).1 !! k =
  match refs !! k with
  | Some ref => if bool_decide (k = refKey producer scope) || (lr_legacy ref && bool_decide ((splitRefKey k).1 = producer))
                then None else Some ref
  | None => None
  end.
Proof.
  unfold releaseSpeaker. simpl. apply option_eq. intros ref. rewrite map_lookup_filter_Some lookup_delete_Some /=.
  destruct (refs !! k) as [ref'|]; [|split; [by intros [[_ ?] _]|done]].
  destruct (bool_decide_reflect (k = refKey producer scope)) as [Hk|Hk]; simpl;
    [split; [intros [[? _] _]; congruence|done]|].
  destruct (lr_legacy ref' && _) eqn:Hg.
  - split; [|done]. intros [[_ [= ->]] ?]. congruence.
  - split; [by intros [[_ ?] _]|]. intros [= <-]. auto.
Qed.

(** A release is confined to its speaker: the reference of any other
    producer, and any reference of the same producer that was not restored
    without its method, survives untouched; the speaker's own is gone; and the
    report says whether anything went. *)
Theorem release_is_confined (refs : Speakers) (producer scope : string) :
  let '(refs', released) := releaseSpeaker refs producer scope in
  (∀ k ref, refs !! k = Some ref → k ≠ refKey producer scope →
     (lr_legacy ref = false ∨ (splitRefKey k).1 ≠ producer) → refs' !! k = Some ref) ∧
  refs' !! refKey producer scope = None ∧ refs' ⊆ refs ∧
  (released = false ↔ refs' = refs).
Proof.
  pose proof (release_lookup refs producer scope) as HL.
  destruct (releaseSpeaker refs producer scope) as [refs' released] eqn:Hr. simpl in HL.
  assert (refs' ⊆ refs) as Hsub.
  { apply map_subseteq_spec. intros k ref. rewrite HL. destruct (refs !! k); [|done]. by case_match. }
  split; [|split; [|split; [done|]]].
  - intros k ref Hk Hne Hor. rewrite HL Hk bool_decide_eq_false_2; [|done]. simpl.
    destruct Hor as [->|Hp]; [done|]. rewrite (bool_decide_eq_false_2 _ Hp) andb_false_r. done.
  - rewrite HL bool_decide_eq_true_2; [|done]. by destruct (refs !! _).
  - unfold releaseSpeaker in Hr. injection Hr as <- <-. rewrite orb_false_iff bool_decide_eq_false. split.
    + intros [Hown Hgo]. apply map_eq. intros k. rewrite HL. destruct (refs !! k) as [ref|] eqn:Hk; [|done].
      rewrite bool_decide_eq_false_2; [|intros ->; eauto]. simpl.
      destruct (lr_legacy ref && _) eqn:Hg; [|done].
      assert (k ≠ refKey producer scope) by (intros ->; eauto).
      rewrite -not_true_iff_false in Hgo. destruct Hgo. apply existsb_exists. exists (k, ref).
      split; [|done]. apply list_elem_of_In, elem_of_map_to_list. by rewrite lookup_delete_ne.
    + intros Heq. assert (∀ k, refs !! k = filter (λ kr, (lr_legacy kr.2 && bool_decide ((splitRefKey kr.1).1 = producer)) = false)
        (delete (refKey producer scope) refs) !! k) as Hk by (intros k; by rewrite -{1}Heq).
      split.
      * intros Hs. specialize (Hk (refKey producer scope)). rewrite map_lookup_filter_None_2 in Hk; [by rewrite Hk in Hs; destruct Hs|].
        left. apply lookup_delete_eq.
      * apply not_true_iff_false. rewrite existsb_exists. intros ([k ref] & Hin & Hg).
        apply list_elem_of_In, elem_of_map_to_list, lookup_delete_Some in Hin as [Hne Hin].
        specialize (Hk k). rewrite Hin in Hk. symmetry in Hk. apply map_lookup_filter_Some in Hk as [_ Hk]. simpl in *. congruence.
Qed.
