(* ===== verification/Observations.v ===== *)
(** * Observations and their classification: internal/change/engine.go

    What producers send, and the comparison of an observation's attributes with
    the known ones that decides which change it is. *)
From S2P Require Import Prelude GoStd Values Vocabulary Entities Events.
Open Scope string_scope.

(** ** Inputs *)

Record EntityObservation := mkEntityObservation {
  eo_Type : string;
  eo_Identity : list KeyValue;
  eo_Attributes : list KeyValue;
  eo_SchemaURL : string;
  eo_EventTime : Time;
  eo_Interval : Duration;
  eo_Producer : string;
  eo_DeleteReason : string;
}.

Record EndpointRef := mkEndpointRef {
  ep_Type : string;
  ep_Identity : list KeyValue;
}.

Record RelationObservation := mkRelationObservation {
  ro_Type : string;
  ro_From : EndpointRef;
  ro_To : EndpointRef;
  ro_Attributes : list KeyValue;
  ro_EventTime : Time;
  ro_Producer : string;
  ro_Interval : Duration;
  ro_SourceInterval : Duration;
}.

(** The entity an observation describes, before it has an id. *)
Definition observed (obs : EntityObservation) (id : EntityID) : Entity :=
  mkEntity id (eo_Type obs) (eo_Identity obs) (eo_Attributes obs) (eo_SchemaURL obs).

Definition endpointHash (ref : EndpointRef) : string := identity_hash (ep_Type ref) (ep_Identity ref).

(** ** Classification *)

Definition stateKeys : gset string := list_to_set
  ["oper_state"; "admin_state"; "status"; "replication.role"; "read_only"; "hw.state"; "ha.role"].

(** Later entries of a repeated key win, as in the map the source fills. *)
Definition canonMap (kvs : list KeyValue) : gmap string string :=
  foldl (λ m kv, <[Key kv := String_ (Val kv)]> m) ∅ kvs.

Definition diffAttributes (oldAttrs newAttrs : list KeyValue) : list string * bool :=
  let om := canonMap oldAttrs in
  let nm := canonMap newAttrs in
  let changed :=
    ((base.filter (λ kv, om !! kv.1 ≠ Some kv.2) (map_to_list nm)).*1 ++
     (base.filter (λ kv, nm !! kv.1 = None) (map_to_list om)).*1)%list in
  (changed, existsb (λ k, bool_decide (k ∈ stateKeys)) changed).

(** The change type of an observation that matched an entity. *)
Definition classify (changed : list string) (stateChanged : bool) : ChangeType :=
  match changed with
  | [] => EntityUnchanged
  | _ => if stateChanged then EntityStateChanged else EntityAttributeUpdated
  end.

(** The diff is exact and drives the classification: it names each key whose
    canonical value differs, appears or disappears, once and no other; the
    observation is a heartbeat exactly when the attributes are the same map, and
    a state change exactly when a state-bearing key is among the differences. *)
Theorem diff_attributes_exact (oldAttrs newAttrs : list KeyValue) :
  let '(changed, stateChanged) := diffAttributes oldAttrs newAttrs in
  NoDup changed ∧
  (∀ k, k ∈ changed ↔ canonMap oldAttrs !! k ≠ canonMap newAttrs !! k) ∧
  (classify changed stateChanged = EntityUnchanged ↔ canonMap oldAttrs = canonMap newAttrs) ∧
  (classify changed stateChanged = EntityStateChanged ↔
     ∃ k, k ∈ stateKeys ∧ canonMap oldAttrs !! k ≠ canonMap newAttrs !! k).
Proof.
  unfold diffAttributes. generalize (canonMap oldAttrs) (canonMap newAttrs). intros om nm.
  set (changed := (_ ++ _)%list).
  assert (∀ k, k ∈ changed ↔ om !! k ≠ nm !! k) as Hch.
  { intros k. unfold changed. rewrite elem_of_app !list_elem_of_fmap. split.
    - intros [([? v] & -> & [Hne Hin%elem_of_map_to_list]%list_elem_of_filter)|
              ([? v] & -> & [Hne Hin%elem_of_map_to_list]%list_elem_of_filter)]; simpl in *; congruence.
    - intros Hne. destruct (nm !! k) as [v|] eqn:Hn.
      + left. exists (k, v). rewrite list_elem_of_filter elem_of_map_to_list. done.
      + right. destruct (om !! k) as [v|] eqn:Ho; [|done].
        exists (k, v). rewrite list_elem_of_filter elem_of_map_to_list. done. }
  assert (om = nm ↔ changed = []) as Hnil.
  { split; [intros ->; apply elem_of_nil_inv; intros k; rewrite Hch; auto|].
    intros Hn. apply map_eq. intros k. destruct (decide (om !! k = nm !! k)) as [|Hne%Hch]; [done|].
    rewrite Hn in Hne. by apply not_elem_of_nil in Hne. }
  split_and!; [|exact Hch| |].
  - unfold changed. apply NoDup_app. split_and!.
    + apply NoDup_fmap_filter, NoDup_fst_map_to_list.
    + intros k ([? v] & -> & [_ Hin%elem_of_map_to_list]%list_elem_of_filter)%list_elem_of_fmap
        ([? v'] & Heq & [Hnone _]%list_elem_of_filter)%list_elem_of_fmap. simpl in *. congruence.
    + apply NoDup_fmap_filter, NoDup_fst_map_to_list.
  - rewrite Hnil. unfold classify. destruct changed; [done|]. split; [by case_match|done].
  - assert (existsb (λ k, bool_decide (k ∈ stateKeys)) changed = true ↔
      ∃ k, k ∈ stateKeys ∧ om !! k ≠ nm !! k) as <-.
    { rewrite existsb_exists. setoid_rewrite <- Hch. setoid_rewrite list_elem_of_In.
      setoid_rewrite bool_decide_eq_true. naive_solver. }
    unfold classify. destruct changed; [done|]. case_match; naive_solver.
Qed.

#[global] Arguments diffAttributes : simpl never.
