(* ===== verification/Aliases.v ===== *)
(** * The identity alias index: internal/change/alias.go

    Speaker-asserted equivalences between values of an identity attribute, used
    to resolve relation endpoints that arrive under another name. *)
From S2P Require Import Prelude GoStd Values Vocabulary Entities Events Speakers Observations.
Open Scope string_scope.

(** ** State *)

Record aliasKey := mkAliasKey { ak_attributeKey : string; ak_aliasValue : string }.
Record aliasClaimKey := mkAliasClaimKey { ac_alias : aliasKey; ac_canonicalValue : string }.

#[export] Instance aliasKey_eq_dec : EqDecision aliasKey.
Proof. solve_decision. Defined.
#[export] Instance aliasClaimKey_eq_dec : EqDecision aliasClaimKey.
Proof. solve_decision. Defined.
#[export] Instance aliasKey_countable : Countable aliasKey.
Proof.
  refine (inj_countable' (λ k, (ak_attributeKey k, ak_aliasValue k)) (λ p, mkAliasKey p.1 p.2) _).
  by intros [].
Defined.
#[export] Instance aliasClaimKey_countable : Countable aliasClaimKey.
Proof.
  refine (inj_countable' (λ k, (ac_alias k, ac_canonicalValue k)) (λ p, mkAliasClaimKey p.1 p.2) _).
  by intros [].
Defined.

Record identityAliasIndex := mkAliasIndex {
  ai_speakers : gmap aliasClaimKey Speakers;
  ai_byAlias : gmap aliasKey (gset string);
}.
Definition newIdentityAliasIndex : identityAliasIndex := mkAliasIndex ∅ ∅.

(** ** Operations *)

(** The index, whether the claim is new, whether the alias just became ambiguous. *)
Definition record (idx : identityAliasIndex) (claim : aliasClaimKey) (speaker : string) (ref : liveRef)
    : identityAliasIndex * bool * bool :=
  let isNew := negb (bool_decide (is_Some (ai_speakers idx !! claim))) in
  let speakers := <[speaker := ref]> (default ∅ (ai_speakers idx !! claim)) in
  let candidates := default ∅ (ai_byAlias idx !! ac_alias claim) in
  let dup := bool_decide (ac_canonicalValue claim ∈ candidates) in
  let candidates' := {[ac_canonicalValue claim]} ∪ candidates in
  (mkAliasIndex (<[claim := speakers]> (ai_speakers idx)) (<[ac_alias claim := candidates']> (ai_byAlias idx)),
   isNew, negb dup && bool_decide (size candidates' = 2)).

Definition resolve (idx : identityAliasIndex) (k : aliasKey) : option string :=
  match elements (default ∅ (ai_byAlias idx !! k)) with
  | [v] => Some v
  | _ => None
  end.

Definition alias_live (idx : identityAliasIndex) (claim : aliasClaimKey) : bool :=
  bool_decide (default ∅ (ai_speakers idx !! claim) ≠ ∅).

(** Forget one candidate of an alias, and the alias with its last one. *)
Definition candidate_del (k : aliasKey) (v : string) (m : gmap aliasKey (gset string)) : gmap aliasKey (gset string) :=
  let set := default ∅ (m !! k) ∖ {[v]} in
  if bool_decide (set = ∅) then delete k m else <[k := set]> m.

(** One claim of the sweep: drop its lapsed speakers, and the claim with the last. *)
Definition sweep_claim (now : Time) (idx : identityAliasIndex) (claim : aliasClaimKey) : identityAliasIndex :=
  match ai_speakers idx !! claim with
  | None => idx
  | Some speakers =>
    let kept := kept_speakers now speakers in
    if bool_decide (kept = ∅) then
      mkAliasIndex (delete claim (ai_speakers idx))
        (candidate_del (ac_alias claim) (ac_canonicalValue claim) (ai_byAlias idx))
    else mkAliasIndex (<[claim := kept]> (ai_speakers idx)) (ai_byAlias idx)
  end.
Definition alias_sweep (now : Time) (idx : identityAliasIndex) : identityAliasIndex :=
  foldl (sweep_claim now) idx (map_to_list (ai_speakers idx)).*1.

(** ** Claims *)

Definition ConfidenceKey : string := "confidence".
Definition DefaultThreshold : float64 := f64_0_9.

(** A number in [0,1] under the confidence key's first entry. *)
Fixpoint observationConfidence (attrs : list KeyValue) : float64 * bool :=
  match attrs with
  | [] => (f64_zero, false)
  | kv :: attrs =>
    if negb (bool_decide (Key kv = ConfidenceKey)) then observationConfidence attrs
    else match Kind (Val kv) with
    | KDouble => let c := Double (Val kv) in (c, f64_le f64_zero c && f64_le c f64_one)
    | KInt => let c := f64_of_int (Int (Val kv)) in (c, f64_le f64_zero c && f64_le c f64_one)
    | _ => (f64_zero, false)
    end
  end.

Definition identityValueMap (identity : list KeyValue) : gmap string Value :=
  foldl (λ m kv, <[Key kv := Val kv]> m) ∅ identity.

Definition aliasClaimFromObservation (obs : RelationObservation) : option aliasClaimKey :=
  let '(conf, ok) := observationConfidence (ro_Attributes obs) in
  if negb ok || f64_lt conf DefaultThreshold then None
  else if negb (bool_decide (ep_Type (ro_From obs) = ep_Type (ro_To obs))) then None
  else
  let from := identityValueMap (ep_Identity (ro_From obs)) in
  let to := identityValueMap (ep_Identity (ro_To obs)) in
  if negb (bool_decide (size from = size to)) then None
  else if existsb (λ kv, negb (bool_decide (is_Some (to !! kv.1)))) (map_to_list from) then None
  else match base.filter (λ kv, String_ kv.2 ≠ String_ (default KindInvalid (to !! kv.1))) (map_to_list from) with
  | [(diffKey, fv)] =>
    let tv := default KindInvalid (to !! diffKey) in
    match Kind fv, Kind tv with
    | KString, KString => Some (mkAliasClaimKey (mkAliasKey diffKey (Str tv)) (Str fv))
    | _, _ => None
    end
  | _ => None
  end.

Definition aliasSlackFactor : Z := 2.

Definition aliasDeadline (now : Time) (obs : RelationObservation) : Time * bool :=
  if (0 <? ro_Interval obs)%Z then
    if (maxPlausibleLivenessPromise <? ro_Interval obs)%Z then (zero_time, false)
    else (time_add now (dur_mul (ro_Interval obs) aliasSlackFactor), true)
  else if (0 <? ro_SourceInterval obs)%Z then
    if (maxPlausibleLivenessPromise <? ro_SourceInterval obs)%Z then (zero_time, false)
    else (time_add now (dur_mul (ro_SourceInterval obs) aliasSlackFactor), true)
  else (zero_time, true).

(** [None] when nothing was substituted. *)
Definition substitute_one (idx : identityAliasIndex) (kv : KeyValue) : KeyValue * bool :=
  match Kind (Val kv) with
  | KString =>
    match resolve idx (mkAliasKey (Key kv) (Str (Val kv))) with
    | Some v => ((Key kv, KindString v), true)
    | None => (kv, false)
    end
  | _ => (kv, false)
  end.
Definition substituteAliases (idx : identityAliasIndex) (identity : list KeyValue) : option (list KeyValue) :=
  let out := map (substitute_one idx) identity in
  if existsb snd out then Some out.*1 else None.

(** ** The index is the set of live claims *)

(** [byAlias] lists exactly the canonical values some speaker still claims. *)
Record alias_wf (idx : identityAliasIndex) : Prop := {
  aw_spoken : ∀ c sp, ai_speakers idx !! c = Some sp → sp ≠ ∅;
  aw_index : ∀ k v, v ∈ default ∅ (ai_byAlias idx !! k) ↔ is_Some (ai_speakers idx !! mkAliasClaimKey k v);
}.

Lemma alias_wf_new : alias_wf newIdentityAliasIndex.
Proof. split; [intros c sp; by rewrite lookup_empty|]. intros k v. rewrite !lookup_empty /=. split; [set_solver|by intros []]. Qed.

Lemma record_wf idx claim speaker ref : alias_wf idx → alias_wf (record idx claim speaker ref).1.1.
Proof.
  intros [Hs Hi]. destruct claim as [a v]. split; simpl.
  - intros c sp. rewrite lookup_insert. case_decide; [|eauto]. intros [= <-]. apply insert_non_empty.
  - intros k w. rewrite !lookup_insert. destruct (decide (a = k)) as [->|Hk].
    + simpl. rewrite elem_of_union elem_of_singleton Hi. case_decide; naive_solver.
    + rewrite Hi. case_decide; naive_solver.
Qed.

Lemma sweep_claim_speakers now idx claim c :
  ai_speakers (sweep_claim now idx claim) !! c =
  if decide (c = claim) then
    sp ← ai_speakers idx !! c; let sp' := kept_speakers now sp in if decide (sp' = ∅) then None else Some sp'
  else ai_speakers idx !! c.
Proof.
  unfold sweep_claim. destruct (ai_speakers idx !! claim) as [sp|] eqn:Hc.
  - case_bool_decide as Hk; simpl.
    + rewrite lookup_delete. repeat case_decide; subst; rewrite ?Hc /=; try done; by rewrite ?decide_True.
    + rewrite lookup_insert. repeat case_decide; subst; rewrite ?Hc /=; try done; by rewrite ?decide_False.
  - case_decide; subst; by rewrite ?Hc.
Qed.

Lemma candidate_del_elem k v m k' w :
  w ∈ default ∅ (candidate_del k v m !! k') ↔ w ∈ default ∅ (m !! k') ∧ ¬ (k = k' ∧ w = v).
Proof.
  unfold candidate_del. case_bool_decide as He; rewrite ?lookup_delete ?lookup_insert; case_decide as Hk; subst; simpl.
  - split; [set_solver|]. intros [Hw Hne]. assert (w ∈ default ∅ (m !! k') ∖ {[v]}) as Hin by set_solver.
    rewrite He in Hin. set_solver.
  - naive_solver.
  - set_solver.
  - naive_solver.
Qed.

Lemma sweep_claim_wf now idx claim : alias_wf idx → alias_wf (sweep_claim now idx claim).
Proof.
  intros [Hs Hi]. split.
  - intros c sp. rewrite sweep_claim_speakers. case_decide; [|eauto].
    destruct (ai_speakers idx !! c); [|done]. simpl. case_decide; naive_solver.
  - intros k v. rewrite sweep_claim_speakers. rewrite {1}/sweep_claim.
    destruct (ai_speakers idx !! claim) as [sp|] eqn:Hc.
    2:{ rewrite Hi. case_decide; [|done]. subst. by rewrite Hc. }
    destruct claim as [a w]. simpl. case_bool_decide as Hk; simpl.
    + rewrite candidate_del_elem Hi. case_decide as Hcl.
      * injection Hcl as -> ->. rewrite Hc /= decide_True; [|done]. split; [naive_solver|by intros []].
      * naive_solver.
    + rewrite Hi. case_decide as Hcl; [|done]. injection Hcl as -> ->. rewrite Hc /= decide_False; [|done]. split; eauto.
Qed.

Lemma sweep_fold now l idx c :
  NoDup l →
  ai_speakers (foldl (sweep_claim now) idx l) !! c =
  if decide (c ∈ l) then
    sp ← ai_speakers idx !! c; let sp' := kept_speakers now sp in if decide (sp' = ∅) then None else Some sp'
  else ai_speakers idx !! c.
Proof.
  revert idx. induction l as [|x l IH]; intros idx Hnd; simpl; [done|].
  apply NoDup_cons in Hnd as [Hx Hnd]. rewrite IH // sweep_claim_speakers.
  destruct (decide (c = x)) as [->|Hne].
  - rewrite decide_False; [|done]. rewrite decide_True; [done|set_solver].
  - destruct (decide (c ∈ l)).
    + rewrite decide_True; [done|set_solver].
    + rewrite decide_False; [done|set_solver].
Qed.

Lemma sweep_wf now idx : alias_wf idx → alias_wf (alias_sweep now idx).
Proof.
  unfold alias_sweep. generalize (map_to_list (ai_speakers idx)).*1. intros l.
  revert idx. induction l as [|x l IH]; intros idx Hwf; simpl; auto using sweep_claim_wf.
Qed.

Lemma resolve_spec idx k v : alias_wf idx →
  resolve idx k = Some v ↔
  is_Some (ai_speakers idx !! mkAliasClaimKey k v) ∧
  ∀ v', is_Some (ai_speakers idx !! mkAliasClaimKey k v') → v' = v.
Proof.
  intros [_ Hi]. unfold resolve. setoid_rewrite <- Hi. generalize (default ∅ (ai_byAlias idx !! k)). intros S.
  setoid_rewrite <- elem_of_elements. pose proof (NoDup_elements S) as Hnd.
  destruct (elements S) as [|x [|y l]].
  - split; [done|set_solver].
  - split; [intros [= ->]; set_solver|]. intros [Hv _]. f_equal. set_solver.
  - split; [done|]. intros [_ Hu]. apply NoDup_cons in Hnd as [Hx _].
    assert (x = v) by (apply Hu; set_solver). assert (y = v) by (apply Hu; set_solver). set_solver.
Qed.

(** ** Histories of an index *)

(** What happens to an index: a speaker records a claim, or time passes. *)
Inductive AliasOp :=
| DoRecord (claim : aliasClaimKey) (speaker : string) (ref : liveRef)
| DoSweep (now : Time).
Definition alias_step (idx : identityAliasIndex) (op : AliasOp) : identityAliasIndex :=
  match op with
  | DoRecord claim speaker ref => (record idx claim speaker ref).1.1
  | DoSweep now => alias_sweep now idx
  end.

Lemma alias_history_wf ops idx : alias_wf idx → alias_wf (foldl alias_step idx ops).
Proof.
  revert idx. induction ops as [|op ops IH]; intros idx Hwf; simpl; [done|].
  apply IH. destruct op; [by apply record_wf|by apply sweep_wf].
Qed.

(** After any history of claims and sweeps an alias resolves exactly when
    one canonical value, and no other, is still claimed for it by some speaker:
    a contested alias and a forgotten one both resolve to nothing. *)
Theorem alias_resolves_unanimity (ops : list AliasOp) (k : aliasKey) (v : string) :
  let idx := foldl alias_step newIdentityAliasIndex ops in
  resolve idx k = Some v ↔
  alias_live idx (mkAliasClaimKey k v) = true ∧
  ∀ v', alias_live idx (mkAliasClaimKey k v') = true → v' = v.
Proof.
  intros idx. assert (alias_wf idx) as Hwf by apply alias_history_wf, alias_wf_new.
  assert (∀ c, alias_live idx c = true ↔ is_Some (ai_speakers idx !! c)) as Hl.
  { intros c. unfold alias_live. rewrite bool_decide_eq_true.
    destruct (ai_speakers idx !! c) as [sp|] eqn:Hc; simpl; [|split; [done|by intros []]].
    split; [eauto|]. intros _. by eapply aw_spoken. }
  rewrite resolve_spec // Hl. by setoid_rewrite Hl.
Qed.

(** The conflict report fires exactly when an alias that resolved to one
    value stops resolving because a second value was claimed. *)
Theorem alias_conflict_exact (idx : identityAliasIndex) (claim : aliasClaimKey) (speaker : string)
    (ref : liveRef) (Hwf : alias_wf idx) :
  let '(idx', isNew, conflict) := record idx claim speaker ref in
  (isNew = true ↔ alias_live idx claim = false) ∧
  (conflict = true ↔ (∃ v, resolve idx (ac_alias claim) = Some v) ∧ resolve idx' (ac_alias claim) = None).
Proof.
  destruct (record idx claim speaker ref) as [[idx' isNew] conflict] eqn:Hr.
  unfold record in Hr. injection Hr as <- <- <-. split.
  - unfold alias_live. rewrite negb_true_iff !bool_decide_eq_false.
    destruct (ai_speakers idx !! claim) as [sp|] eqn:Hc; simpl.
    + pose proof (aw_spoken _ Hwf _ _ Hc). naive_solver.
    + split; [naive_solver|]. by intros _ [].
  - unfold resolve. simpl. rewrite lookup_insert_eq /=.
    generalize (default ∅ (ai_byAlias idx !! ac_alias claim)) (ac_canonicalValue claim). intros S v.
    rewrite andb_true_iff negb_true_iff bool_decide_eq_false bool_decide_eq_true.
    split.
    + intros [Hv Hsz]. pose proof Hsz as H2. rewrite size_union in Hsz; [|set_solver]. rewrite size_singleton in Hsz.
      assert (size S = 1) as H1 by lia. unfold size, set_size in H1. simpl in H1.
      destruct (elements S) as [|x [|]]; try done. split; [eauto|].
      unfold size, set_size in H2. simpl in H2. destruct (elements ({[v]} ∪ S)) as [|? [|? [|]]]; done.
    + intros [[w Hw] Hn]. destruct (elements S) as [|x [|]] eqn:He; try done. injection Hw as ->.
      assert (S = {[w]}) as -> by (apply set_eq; intros y; rewrite -elem_of_elements He; set_solver).
      assert (v ≠ w). { intros ->. rewrite (union_idemp_L {[w]}) elements_singleton in Hn. done. }
      split; [set_solver|]. rewrite size_union; [|set_solver]. by rewrite !size_singleton.
Qed.

Lemma alias_conflict_exact_witness :
  let c v := mkAliasClaimKey (mkAliasKey "host.name" "a") v in
  let idx := (record newIdentityAliasIndex (c "x") "p" zero_liveRef).1.1 in
  alias_wf idx ∧ resolve (record idx (c "y") "q" zero_liveRef).1.1 (mkAliasKey "host.name" "a") = None.
Proof.
  intros c idx. assert (alias_wf idx) as Hwf by apply record_wf, alias_wf_new. split; [done|].
  assert ((record idx (c "y") "q" zero_liveRef).2 = true) as E by (vm_compute; reflexivity).
  pose proof (alias_conflict_exact idx (c "y") "q" zero_liveRef Hwf) as H.
  destruct (record idx (c "y") "q" zero_liveRef) as [[idx' isNew] conflict]. by apply H.
Defined.
