(* ===== verification/Projection.v ===== *)
(** * The projection: internal/projection/graph.go and asof.go

    The in-memory graph the event log projects to: entities with their
    tombstones, relations with their adjacency, and the identity and type
    indexes. A lookup in a Go map of sets that misses is the empty set. The
    clock is an argument of the operations that read it. Where the source ranges
    over a map, the order is the map's own enumeration; the theorems about such
    results speak of their members. *)
From S2P Require Import Prelude GoStd Values Vocabulary Entities Events.
From Stdlib Require Import SpecFloat.

(** ** State *)

Record Graph := mkGraph {
  g_entities : gmap string Entity;
  g_deleted : gset string;
  g_relations : gmap string Relation;
  g_out : gmap string (gset string);
  g_in_ : gmap string (gset string);
  g_byHash : gmap string string;
  g_byType : gmap string (gset string);
  g_tombstones : list string;
  g_tombstoneCap : Z;
  g_liveTombstones : Z;
  g_tombByHash : gmap string string;
  g_tombDeadline : gmap string Time;
  g_tombstoneTTL : Duration;
}.

Definition set_entities (x : gmap string Entity) (g : Graph) : Graph :=
  mkGraph x (g_deleted g) (g_relations g) (g_out g) (g_in_ g) (g_byHash g) (g_byType g) (g_tombstones g) (g_tombstoneCap g) (g_liveTombstones g) (g_tombByHash g) (g_tombDeadline g) (g_tombstoneTTL g).
Definition set_deleted (x : gset string) (g : Graph) : Graph :=
  mkGraph (g_entities g) x (g_relations g) (g_out g) (g_in_ g) (g_byHash g) (g_byType g) (g_tombstones g) (g_tombstoneCap g) (g_liveTombstones g) (g_tombByHash g) (g_tombDeadline g) (g_tombstoneTTL g).
Definition set_relations (x : gmap string Relation) (g : Graph) : Graph :=
  mkGraph (g_entities g) (g_deleted g) x (g_out g) (g_in_ g) (g_byHash g) (g_byType g) (g_tombstones g) (g_tombstoneCap g) (g_liveTombstones g) (g_tombByHash g) (g_tombDeadline g) (g_tombstoneTTL g).
Definition set_out (x : gmap string (gset string)) (g : Graph) : Graph :=
  mkGraph (g_entities g) (g_deleted g) (g_relations g) x (g_in_ g) (g_byHash g) (g_byType g) (g_tombstones g) (g_tombstoneCap g) (g_liveTombstones g) (g_tombByHash g) (g_tombDeadline g) (g_tombstoneTTL g).
Definition set_in_ (x : gmap string (gset string)) (g : Graph) : Graph :=
  mkGraph (g_entities g) (g_deleted g) (g_relations g) (g_out g) x (g_byHash g) (g_byType g) (g_tombstones g) (g_tombstoneCap g) (g_liveTombstones g) (g_tombByHash g) (g_tombDeadline g) (g_tombstoneTTL g).
Definition set_byHash (x : gmap string string) (g : Graph) : Graph :=
  mkGraph (g_entities g) (g_deleted g) (g_relations g) (g_out g) (g_in_ g) x (g_byType g) (g_tombstones g) (g_tombstoneCap g) (g_liveTombstones g) (g_tombByHash g) (g_tombDeadline g) (g_tombstoneTTL g).
Definition set_byType (x : gmap string (gset string)) (g : Graph) : Graph :=
  mkGraph (g_entities g) (g_deleted g) (g_relations g) (g_out g) (g_in_ g) (g_byHash g) x (g_tombstones g) (g_tombstoneCap g) (g_liveTombstones g) (g_tombByHash g) (g_tombDeadline g) (g_tombstoneTTL g).
Definition set_tombstones (x : list string) (g : Graph) : Graph :=
  mkGraph (g_entities g) (g_deleted g) (g_relations g) (g_out g) (g_in_ g) (g_byHash g) (g_byType g) x (g_tombstoneCap g) (g_liveTombstones g) (g_tombByHash g) (g_tombDeadline g) (g_tombstoneTTL g).
Definition set_tombstoneCap (x : Z) (g : Graph) : Graph :=
  mkGraph (g_entities g) (g_deleted g) (g_relations g) (g_out g) (g_in_ g) (g_byHash g) (g_byType g) (g_tombstones g) x (g_liveTombstones g) (g_tombByHash g) (g_tombDeadline g) (g_tombstoneTTL g).
Definition set_liveTombstones (x : Z) (g : Graph) : Graph :=
  mkGraph (g_entities g) (g_deleted g) (g_relations g) (g_out g) (g_in_ g) (g_byHash g) (g_byType g) (g_tombstones g) (g_tombstoneCap g) x (g_tombByHash g) (g_tombDeadline g) (g_tombstoneTTL g).
Definition set_tombByHash (x : gmap string string) (g : Graph) : Graph :=
  mkGraph (g_entities g) (g_deleted g) (g_relations g) (g_out g) (g_in_ g) (g_byHash g) (g_byType g) (g_tombstones g) (g_tombstoneCap g) (g_liveTombstones g) x (g_tombDeadline g) (g_tombstoneTTL g).
Definition set_tombDeadline (x : gmap string Time) (g : Graph) : Graph :=
  mkGraph (g_entities g) (g_deleted g) (g_relations g) (g_out g) (g_in_ g) (g_byHash g) (g_byType g) (g_tombstones g) (g_tombstoneCap g) (g_liveTombstones g) (g_tombByHash g) x (g_tombstoneTTL g).
Definition set_tombstoneTTL (x : Duration) (g : Graph) : Graph :=
  mkGraph (g_entities g) (g_deleted g) (g_relations g) (g_out g) (g_in_ g) (g_byHash g) (g_byType g) (g_tombstones g) (g_tombstoneCap g) (g_liveTombstones g) (g_tombByHash g) (g_tombDeadline g) x.

Definition defaultTombstoneCap : Z := 1024.
Definition defaultTombstoneTTL : Duration := (15 * minute)%Z.

Definition NewWithTombstoneCap (limit : Z) : Graph :=
  mkGraph ∅ ∅ ∅ ∅ ∅ ∅ ∅ [] (if (limit <=? 0)%Z then defaultTombstoneCap else limit) 0 ∅ ∅
    defaultTombstoneTTL.
Definition New : Graph := NewWithTombstoneCap defaultTombstoneCap.
Definition SetTombstoneTTL (ttl : Duration) (g : Graph) : Graph := set_tombstoneTTL ttl g.

(** A set in a map of sets, and its update. *)
Definition set_at (m : gmap string (gset string)) (k : string) : gset string := default ∅ (m !! k).
Definition set_add (k x : string) (m : gmap string (gset string)) : gmap string (gset string) :=
  <[k := {[x]} ∪ set_at m k]> m.
(** [if s := m[k]; s != nil { delete(s, x) }] *)
Definition set_del (k x : string) (m : gmap string (gset string)) : gmap string (gset string) :=
  match m !! k with Some s => <[k := s ∖ {[x]}]> m | None => m end.

(** ** Applying events *)

Definition dropTombstone (id : EntityID) (g : Graph) : Graph :=
  let g := match g_entities g !! id with
    | Some e =>
      let h := IdentityHash e in
      if bool_decide (g_tombByHash g !! h = Some id) then set_tombByHash (delete h (g_tombByHash g)) g else g
    | None => g
    end in
  let g := set_entities (delete id (g_entities g)) g in
  let g := set_deleted (g_deleted g ∖ {[id]}) g in
  let g := set_tombDeadline (delete id (g_tombDeadline g)) g in
  set_liveTombstones (g_liveTombstones g - 1)%Z g.

(** The loop pops the queue, so it is bounded by the queue. *)
Fixpoint evict_loop (queue : list EntityID) (g : Graph) : Graph :=
  match queue with
  | [] => set_tombstones [] g
  | id :: rest =>
    if (g_tombstoneCap g <? g_liveTombstones g)%Z then
      if bool_decide (id ∈ g_deleted g) then evict_loop rest (dropTombstone id g)
      else evict_loop rest g
    else set_tombstones queue g
  end.
Definition evictTombstones (g : Graph) : Graph := evict_loop (g_tombstones g) g.

Definition putEntity (e : Entity) (g : Graph) : Graph :=
  let id := e_ID e in
  let g := set_entities (<[id := e]> (g_entities g)) g in
  let h := IdentityHash e in
  let g := if bool_decide (id ∈ g_deleted g) then
      set_tombDeadline (delete id (g_tombDeadline g)) (set_liveTombstones (g_liveTombstones g - 1)%Z g)
    else g in
  let g := set_deleted (g_deleted g ∖ {[id]}) g in
  let g := set_tombByHash (delete h (g_tombByHash g)) g in
  let g := set_byHash (<[h := id]> (g_byHash g)) g in
  set_byType (set_add (e_Type e) id (g_byType g)) g.

(** The [EntityDeleted] case of [applyEntity]. *)
Definition deleteEntity (now : Time) (ee : EntityEvent) (g : Graph) : Graph :=
  let id := e_ID (ee_Entity ee) in
  let g := match g_entities g !! id with
    | Some e =>
      let h := IdentityHash e in
      let g := set_byHash (delete h (g_byHash g)) g in
      let g := set_tombByHash (<[h := id]> (g_tombByHash g)) g in
      set_byType (set_del (e_Type e) id (g_byType g)) g
    | None => g
    end in
  if bool_decide (id ∈ g_deleted g) then g else
  let g := set_deleted ({[id]} ∪ g_deleted g) g in
  let g := set_tombstones (g_tombstones g ++ [id]) g in
  let g := set_liveTombstones (g_liveTombstones g + 1)%Z g in
  let g := if (0 <? g_tombstoneTTL g)%Z then
      let base := if is_zero (ee_RecordedAt ee) then now else ee_RecordedAt ee in
      if is_zero base then g
      else set_tombDeadline (<[id := time_add base (g_tombstoneTTL g)]> (g_tombDeadline g)) g
    else g in
  evictTombstones g.

Definition applyEntity (now : Time) (ee : EntityEvent) (g : Graph) : Graph :=
  let e := ee_Entity ee in
  match ee_ChangeType ee with
  | EntityCreated => putEntity e g
  | EntityIdentityChanged =>
    let g := match g_entities g !! e_ID e with
      | Some old => set_byHash (delete (IdentityHash old) (g_byHash g)) g
      | None => g
      end in
    putEntity e g
  | EntityAttributeUpdated | EntityStateChanged => putEntity e g
  | EntityDeleted => deleteEntity now ee g
  | EntityUnchanged =>
    match g_entities g !! e_ID e with Some _ => g | None => putEntity e g end
  | _ => g
  end.

Definition addAdjacency (r : Relation) (g : Graph) : Graph :=
  let g := set_out (set_add (r_From r) (r_ID r) (g_out g)) g in
  set_in_ (set_add (r_To r) (r_ID r) (g_in_ g)) g.

Definition applyRelation (re : RelationEvent) (g : Graph) : Graph :=
  let r := re_Relation re in
  match re_ChangeType re with
  | RelationAdded | RelationAttributeChanged =>
    addAdjacency r (set_relations (<[r_ID r := r]> (g_relations g)) g)
  | RelationRemoved =>
    let g := set_relations (delete (r_ID r) (g_relations g)) g in
    let g := set_out (set_del (r_From r) (r_ID r) (g_out g)) g in
    set_in_ (set_del (r_To r) (r_ID r) (g_in_ g)) g
  | _ => g
  end.

Definition Apply (now : Time) (ev : Event) (g : Graph) : Graph :=
  match ev_Entity ev, ev_Relation ev with
  | Some ee, _ => applyEntity now ee g
  | None, Some re => applyRelation re g
  | None, None => g
  end.

(** [Replay]: every event of the scanner, in its order. *)
Definition Replay (now : Time) (evs : list Event) (g : Graph) : Graph :=
  foldl (λ g ev, Apply now ev g) g evs.

(** ** Tombstone maintenance *)

(** The first occurrence of each id still deleted, in queue order. *)
Fixpoint compact_loop (deleted seen : gset string) (queue : list EntityID) : list EntityID :=
  match queue with
  | [] => []
  | id :: rest =>
    if bool_decide (id ∈ deleted) && negb (bool_decide (id ∈ seen))
    then id :: compact_loop deleted ({[id]} ∪ seen) rest
    else compact_loop deleted seen rest
  end.
Definition compactTombstones (g : Graph) : Graph :=
  set_tombstones (compact_loop (g_deleted g) ∅ (g_tombstones g)) g.

(** One entry of the deadline map. *)
Definition prune_one (now : Time) (acc : Graph * Z) (idd : EntityID * Time) : Graph * Z :=
  let '(g, n) := acc in
  let '(id, deadline) := idd in
  if negb (after now deadline) then (g, n)
  else if bool_decide (id ∈ g_deleted g) then (dropTombstone id g, (n + 1)%Z)
  else (set_tombDeadline (delete id (g_tombDeadline g)) g, n).

Definition PruneTombstones (now : Time) (g : Graph) : Graph * Z :=
  if (g_tombstoneTTL g <=? 0)%Z then (g, 0%Z) else
  let '(g, n) := foldl (prune_one now) (g, 0%Z) (map_to_list (g_tombDeadline g)) in
  if (2 * g_liveTombstones g <? Z.of_nat (length (g_tombstones g)))%Z
  then (compactTombstones g, n) else (g, n).

(** ** Reads *)

Definition is_deleted (g : Graph) (id : EntityID) : bool := bool_decide (id ∈ g_deleted g).

(** The entity, whether it exists, whether it is soft-deleted. *)
Definition GetEntity (g : Graph) (id : EntityID) : option Entity * bool :=
  (g_entities g !! id, is_deleted g id).
Definition GetRelation (g : Graph) (id : RelationID) : option Relation := g_relations g !! id.

(** The non-deleted entities. *)
Definition live (g : Graph) : gmap string Entity :=
  filter (λ ide, ide.1 ∉ g_deleted g) (g_entities g).

Definition EntityCount (g : Graph) : Z := Z.of_nat (size (live g)).
Definition RelationCount (g : Graph) : Z := Z.of_nat (size (g_relations g)).

Definition CountByType (g : Graph) : gmap string Z :=
  omap (λ s, let n := Z.of_nat (size (s ∖ g_deleted g)) in if (0 <? n)%Z then Some n else None)
    (g_byType g).

Definition MatchIdentity (g : Graph) (typ : string) (identity : list KeyValue) : option EntityID :=
  match g_byHash g !! identity_hash typ identity with
  | Some id => if is_deleted g id then None else Some id
  | None => None
  end.

Definition MatchTombstone (now : Time) (g : Graph) (typ : string) (identity : list KeyValue) : option EntityID :=
  match g_tombByHash g !! identity_hash typ identity with
  | Some id =>
    if negb (is_deleted g id) then None
    else if (0 <? g_tombstoneTTL g)%Z then
      match g_tombDeadline g !! id with
      | Some deadline => if after now deadline then None else Some id
      | None => Some id
      end
    else Some id
  | None => None
  end.

Definition ResolveFingerprint (g : Graph) (fingerprint : string) : option EntityID :=
  match g_byHash g !! fingerprint with
  | Some id => Some id
  | None => g_tombByHash g !! fingerprint
  end.

(** *** Neighbourhoods *)

Record Bfs := mkBfs { b_visited : gset string; b_next : list EntityID; b_result : list Entity }.

Definition visitNeighbor (g : Graph) (relType : string) (b : Bfs) (nbt : EntityID * string) : Bfs :=
  let '(nb, edgeType) := nbt in
  if negb (bool_decide (relType = "")) && negb (bool_decide (edgeType = relType)) then b
  else if bool_decide (nb ∈ b_visited b) then b
  else mkBfs ({[nb]} ∪ b_visited b) (b_next b ++ [nb])
         (match g_entities g !! nb with
          | Some e => if is_deleted g nb then b_result b else b_result b ++ [e]
          | None => b_result b
          end).

(** [g.relations[rid]], the zero relation when it is missing. *)
Definition rel_at (g : Graph) (rid : RelationID) : Relation := default zero_Relation (g_relations g !! rid).

(** The far ends of the edges at [cur], outgoing then incoming, with their types. *)
Definition adjacent (g : Graph) (cur : EntityID) : list (EntityID * string) :=
  map (λ rid, (r_To (rel_at g rid), r_Type (rel_at g rid))) (elements (set_at (g_out g) cur)) ++
  map (λ rid, (r_From (rel_at g rid), r_Type (rel_at g rid))) (elements (set_at (g_in_ g) cur)).

Definition expand (g : Graph) (relType : string) (b : Bfs) (cur : EntityID) : Bfs :=
  foldl (visitNeighbor g relType) b (adjacent g cur).

Fixpoint neighbors_loop (g : Graph) (relType : string) (depth : nat) (visited : gset string)
    (frontier : list EntityID) (result : list Entity) : list Entity :=
  match depth, frontier with
  | O, _ | _, [] => result
  | S d, _ =>
    let b := foldl (expand g relType) (mkBfs visited [] result) frontier in
    neighbors_loop g relType d (b_visited b) (b_next b) (b_result b)
  end.

Definition Neighbors (g : Graph) (id : EntityID) (relType : string) (depth : Z) : list Entity :=
  if (depth <? 1)%Z then [] else neighbors_loop g relType (Z.to_nat depth) {[id]} [id] [].

(** *** Listings *)

(** An empty filter matches anything. *)
Definition filter_ok (want got : string) : bool := bool_decide (want = "") || bool_decide (got = want).

Definition ListEntities (g : Graph) (typ : string) : list Entity :=
  sort_by e_ID (base.filter (λ e, filter_ok typ (e_Type e) = true) (map_to_list (live g)).*2).

Definition ListRelations (g : Graph) (typ : string) (from to : EntityID) : list Relation :=
  sort_by r_ID (base.filter
    (λ r, filter_ok typ (r_Type r) && filter_ok from (r_From r) && filter_ok to (r_To r) = true)
    (map_to_list (g_relations g)).*2).

(** The incident edges read off the adjacency index, each once. *)
Definition RelationsTouching (g : Graph) (id : EntityID) (relType : string) : list Relation :=
  let rids := elements (set_at (g_out g) id ∪ set_at (g_in_ g) id) in
  sort_by r_ID (base.filter (λ r, filter_ok relType (r_Type r) = true) (omap (λ rid, g_relations g !! rid) rids)).

(** The live entities the fingerprint index names, as (fingerprint, id). *)
Definition indexed (g : Graph) (typ : string) : list (string * EntityID) :=
  base.filter (λ fi, match g_entities g !! fi.2 with
      | Some e => negb (is_deleted g fi.2) && filter_ok typ (e_Type e)
      | None => false end = true)
    (map_to_list (g_byHash g)).

Definition entity_at (g : Graph) (id : EntityID) : Entity := default zero_Entity (g_entities g !! id).

Definition ListEntitiesByFingerprint (g : Graph) (typ : string) : list Entity :=
  map (λ fi, entity_at g fi.2) (sort_by fst (indexed g typ)).

(** The page after a cursor, the cursor to resume from ("" on the last page) and
    the size of the whole matching set. *)
Definition PageEntitiesByFingerprint (g : Graph) (typ after : string) (limit : Z)
    : list Entity * string * Z :=
  let all := indexed g typ in
  let keys := sort_by fst
    (base.filter (λ fi, bool_decide (after = "") || negb (String.leb fi.1 after) = true) all) in
  let cut := (limit <? Z.of_nat (length keys))%Z in
  let kept := if cut then take (Z.to_nat limit) keys else keys in
  let next := if cut then from_option fst "" (last kept) else "" in
  (map (λ fi, entity_at g fi.2) kept, next, Z.of_nat (length all)).

Definition EntitiesOfType (g : Graph) (typ : string) : list Entity :=
  omap (λ id, if is_deleted g id then None else g_entities g !! id) (elements (set_at (g_byType g) typ)).

(** *** Handles *)

Definition identity_matches (e : Entity) (identity : gmap string string) : bool :=
  bool_decide (length (e_Identity e) = size identity) &&
  forallb (λ kv, bool_decide (identity !! Key kv = Some (Display (Val kv)))) (e_Identity e).

Definition ResolveIdentity (g : Graph) (typ : string) (identity : gmap string string) : option EntityID :=
  if bool_decide (typ = "") || bool_decide (identity = ∅) then None else
  let kvs := map (λ '(k, v), (k, KindString v)) (map_to_list identity) in
  match ResolveFingerprint g (identity_hash typ kvs) with
  | Some id => Some id
  | None =>
    find (λ id, match g_entities g !! id with Some e => identity_matches e identity | None => false end)
      (elements (set_at (g_byType g) typ))
  end.

(** [strings.Cut] at a byte and [strings.Split] by one. *)
Fixpoint cut_at (c : ascii) (s : string) : string * string * bool :=
  match s with
  | EmptyString => ("", "", false)
  | String d s' =>
    if Ascii.eqb c d then ("", s', true)
    else let '(a, b, ok) := cut_at c s' in (String d a, b, ok)
  end.

Fixpoint split_at (c : ascii) (s : string) : list string :=
  match s with
  | EmptyString => [""]
  | String d s' =>
    match split_at c s' with
    | [] => [] (* unreachable: a split is never empty *)
    | p :: ps => if Ascii.eqb c d then "" :: p :: ps else String d p :: ps
    end
  end%string.

Fixpoint parse_pairs (pairs : list string) (acc : gmap string string) : option (gmap string string) :=
  match pairs with
  | [] => Some acc
  | p :: pairs =>
    let '(k, v, ok) := cut_at "=" p in
    if negb ok || bool_decide (k = "") then None else parse_pairs pairs (<[k := v]> acc)
  end.

Definition ResolveHandle (g : Graph) (handle : string) : option EntityID :=
  let '(typ, rest, hasColon) := cut_at ":" handle in
  if negb hasColon then Some handle
  else if negb (contains_byte "=" rest) then ResolveFingerprint g handle
  else match parse_pairs (split_at "," rest) ∅ with
  | Some identity => ResolveIdentity g typ identity
  | None => None
  end.

(** ** Snapshots *)

(** Synthetic events for the live state, entities first; [ids] supplies the
    fresh event ids. *)
Definition snapshot_entity (ids : nat → string) (when : Time) (i : nat) (e : Entity) : Event :=
  entity_event (mkEntityEvent (ids i) EntityCreated e when when 0 "" SchemaVersion [] "" DeleteSourceUnknown).
Definition snapshot_relation (ids : nat → string) (when : Time) (i : nat) (r : Relation) : Event :=
  relation_event (mkRelationEvent (ids i) RelationAdded r when when 0 "" SchemaVersion [] DeleteSourceUnknown).

Definition SnapshotEvents (ids : nat → string) (when : Time) (g : Graph) : list Event :=
  let es := (map_to_list (live g)).*2 in
  imap (snapshot_entity ids when) es ++
  imap (λ i r, snapshot_relation ids when (length es + i) r) (map_to_list (g_relations g)).*2.

(** ** Reading the past (asof.go) *)

Inductive AtError := ErrBeforeHorizon (t horizon : Time).

(** [At]: the graph folded from the events dated in [0, t], in event-time order;
    [scan] is the store's time-range read and [horizon] its prune horizon. *)
Definition At (scan : Time → Time → list Event) (horizon now t : Time) : Graph + AtError :=
  if negb (is_zero horizon) && before t horizon then inr (ErrBeforeHorizon t horizon)
  else inl (Replay now (scan (of_unix_nano 0) (time_add t 1)) New).
