(* ===== verification/ProjectionInv.v ===== *)
(** * The projection's invariant

    What every index of the graph says about its entities and relations, and
    that applying an event keeps it so. The events must be ones a log of the
    change engine can hold ([event_ok]): identity is immutable, one live entity
    per identity, and a relation id keeps its endpoints. *)
From S2P Require Import Prelude GoStd Values Vocabulary Entities Events Projection.

(** ** The invariant *)

(** Entities, their indexes and their tombstones. *)
Record wf_entities (g : Graph) : Prop := {
  wf_ids : ∀ id e, g_entities g !! id = Some e → e_ID e = id;
  wf_byHash : ∀ h id, g_byHash g !! h = Some id ↔ ∃ e, live g !! id = Some e ∧ IdentityHash e = h;
  wf_byType : ∀ t id, id ∈ set_at (g_byType g) t ↔ ∃ e, live g !! id = Some e ∧ e_Type e = t;
  wf_count : g_liveTombstones g = Z.of_nat (size (g_deleted g));
  wf_tomb : ∀ h id, g_tombByHash g !! h = Some id →
    id ∈ g_deleted g ∧ ∃ e, g_entities g !! id = Some e ∧ IdentityHash e = h;
  wf_deadline : ∀ id, is_Some (g_tombDeadline g !! id) → id ∈ g_deleted g;
}.

(** Relations and their adjacency. *)
Record wf_relations (g : Graph) : Prop := {
  wf_rids : ∀ rid r, g_relations g !! rid = Some r → r_ID r = rid;
  wf_out : ∀ a rid, rid ∈ set_at (g_out g) a ↔ ∃ r, g_relations g !! rid = Some r ∧ r_From r = a;
  wf_in : ∀ a rid, rid ∈ set_at (g_in_ g) a ↔ ∃ r, g_relations g !! rid = Some r ∧ r_To r = a;
}.

(** The bounded tombstone cache: the queue names every tombstone and the cap holds. *)
Record wf_queue (g : Graph) : Prop := {
  wf_queued : ∀ id, id ∈ g_deleted g → id ∈ g_tombstones g;
  wf_cap : (0 < g_tombstoneCap g)%Z;
  wf_bounded : (g_liveTombstones g <= g_tombstoneCap g)%Z;
}.

Record wf (g : Graph) : Prop := {
  wf_E : wf_entities g;
  wf_R : wf_relations g;
  wf_Q : wf_queue g;
}.

(** ** Admissible events *)

(** Storing [e] changes no identity and takes no other live entity's. *)
Definition entity_ok (g : Graph) (e : Entity) : Prop :=
  (∀ e0, g_entities g !! e_ID e = Some e0 → IdentityHash e0 = IdentityHash e) ∧
  (∀ id', g_byHash g !! IdentityHash e = Some id' → id' = e_ID e).

(** The same where the identity itself moves: a live entity may take a new
    identity of its type, if no other live entity has it. *)
Definition identity_ok (g : Graph) (e : Entity) : Prop :=
  (∀ e0, g_entities g !! e_ID e = Some e0 →
     e_Type e0 = e_Type e ∧ (e_ID e ∈ g_deleted g → IdentityHash e0 = IdentityHash e)) ∧
  (∀ id', g_byHash g !! IdentityHash e = Some id' → id' = e_ID e).

Definition relation_ok (g : Graph) (r : Relation) : Prop :=
  ∀ r0, g_relations g !! r_ID r = Some r0 → r_From r0 = r_From r ∧ r_To r0 = r_To r.

(** A deletion names the owner of its identity: no newer entity has taken it. *)
Definition deletion_ok (g : Graph) (e : Entity) : Prop :=
  ∀ e0, g_entities g !! e_ID e = Some e0 →
    ∀ id', g_byHash g !! IdentityHash e0 = Some id' → id' = e_ID e.

Definition event_ok (g : Graph) (ev : Event) : Prop :=
  match ev_Entity ev, ev_Relation ev with
  | Some ee, _ =>
    let e := ee_Entity ee in
    match ee_ChangeType ee with
    | EntityCreated | EntityAttributeUpdated | EntityStateChanged => entity_ok g e
    | EntityIdentityChanged => identity_ok g e
    | EntityUnchanged => g_entities g !! e_ID e = None → entity_ok g e
    | EntityDeleted => deletion_ok g e
    | _ => True
    end
  | None, Some re =>
    match re_ChangeType re with
    | RelationAdded | RelationAttributeChanged | RelationRemoved => relation_ok g (re_Relation re)
    | _ => True
    end
  | None, None => True
  end.

(** ** Reading the state *)

Lemma live_lookup g id e :
  live g !! id = Some e ↔ g_entities g !! id = Some e ∧ id ∉ g_deleted g.
Proof. unfold live. by rewrite map_lookup_filter_Some. Qed.

Lemma live_lookup_eq g id :
  live g !! id = if bool_decide (id ∈ g_deleted g) then None else g_entities g !! id.
Proof.
  apply option_eq. intros e. rewrite live_lookup. case_bool_decide; naive_solver.
Qed.

Lemma set_at_add k x m k' y :
  y ∈ set_at (set_add k x m) k' ↔ (k = k' ∧ y = x) ∨ y ∈ set_at m k'.
Proof.
  unfold set_add, set_at at 1. rewrite lookup_insert. case_decide as Hk; subst; simpl.
  - rewrite elem_of_union elem_of_singleton. naive_solver.
  - unfold set_at. naive_solver.
Qed.

Lemma set_at_del k x m k' y :
  y ∈ set_at (set_del k x m) k' ↔ y ∈ set_at m k' ∧ ¬ (k = k' ∧ y = x).
Proof.
  unfold set_del. destruct (m !! k) as [s|] eqn:Hs.
  - unfold set_at. rewrite lookup_insert. case_decide as Hk; subst; simpl.
    + rewrite Hs /=. rewrite elem_of_difference elem_of_singleton. naive_solver.
    + naive_solver.
  - split; [|naive_solver]. intros Hy. split; [done|]. intros [<- ->].
    unfold set_at in Hy. rewrite Hs /= in Hy. by apply elem_of_empty in Hy.
Qed.

(** ** What each update touches *)

Section put.
Context (e : Entity) (g : Graph).
#[local] Abbreviation id := (e_ID e).

Lemma put_entities : g_entities (putEntity e g) = <[id := e]> (g_entities g).
Proof. unfold putEntity. simpl. by case_bool_decide. Qed.
Lemma put_deleted : g_deleted (putEntity e g) = g_deleted g ∖ {[id]}.
Proof. unfold putEntity. simpl. by case_bool_decide. Qed.
Lemma put_byHash : g_byHash (putEntity e g) = <[IdentityHash e := id]> (g_byHash g).
Proof. unfold putEntity. simpl. by case_bool_decide. Qed.
Lemma put_byType : g_byType (putEntity e g) = set_add (e_Type e) id (g_byType g).
Proof. unfold putEntity. simpl. by case_bool_decide. Qed.
Lemma put_tombByHash : g_tombByHash (putEntity e g) = delete (IdentityHash e) (g_tombByHash g).
Proof. unfold putEntity. simpl. by case_bool_decide. Qed.
Lemma put_live_count : g_liveTombstones (putEntity e g) =
  (if bool_decide (id ∈ g_deleted g) then g_liveTombstones g - 1 else g_liveTombstones g)%Z.
Proof. unfold putEntity. simpl. by case_bool_decide. Qed.
Lemma put_tombDeadline : g_tombDeadline (putEntity e g) =
  if bool_decide (id ∈ g_deleted g) then delete id (g_tombDeadline g) else g_tombDeadline g.
Proof. unfold putEntity. simpl. by case_bool_decide. Qed.
Lemma put_frame : g_relations (putEntity e g) = g_relations g ∧ g_out (putEntity e g) = g_out g ∧
  g_in_ (putEntity e g) = g_in_ g ∧ g_tombstones (putEntity e g) = g_tombstones g ∧
  g_tombstoneCap (putEntity e g) = g_tombstoneCap g ∧ g_tombstoneTTL (putEntity e g) = g_tombstoneTTL g.
Proof. unfold putEntity. simpl. by case_bool_decide. Qed.

Lemma put_live : live (putEntity e g) = <[id := e]> (live g).
Proof.
  apply map_eq. intros i. rewrite live_lookup_eq put_entities put_deleted lookup_insert.
  case_decide as Hi; subst.
  - rewrite lookup_insert_eq bool_decide_eq_false_2; [done|]. set_solver.
  - rewrite lookup_insert_ne; [|done]. rewrite live_lookup_eq.
    rewrite (bool_decide_ext _ (i ∈ g_deleted g)); [done|]. set_solver.
Qed.
End put.

(** Dropping the index entry of an entity's former identity. *)
Definition unhash (e : Entity) (g : Graph) : Graph :=
  match g_entities g !! e_ID e with
  | Some old => set_byHash (delete (IdentityHash old) (g_byHash g)) g
  | None => g
  end.

Lemma unhash_frame e g :
  g_entities (unhash e g) = g_entities g ∧ g_deleted (unhash e g) = g_deleted g ∧
  live (unhash e g) = live g ∧ g_byType (unhash e g) = g_byType g ∧
  g_liveTombstones (unhash e g) = g_liveTombstones g ∧ g_tombByHash (unhash e g) = g_tombByHash g ∧
  g_tombDeadline (unhash e g) = g_tombDeadline g ∧ g_relations (unhash e g) = g_relations g ∧
  g_out (unhash e g) = g_out g ∧ g_in_ (unhash e g) = g_in_ g ∧
  g_tombstones (unhash e g) = g_tombstones g ∧ g_tombstoneCap (unhash e g) = g_tombstoneCap g ∧
  g_tombstoneTTL (unhash e g) = g_tombstoneTTL g.
Proof. unfold unhash. by destruct (g_entities g !! e_ID e). Qed.

Lemma unhash_byHash e g h : g_byHash (unhash e g) !! h =
  match g_entities g !! e_ID e with
  | Some e0 => if decide (IdentityHash e0 = h) then None else g_byHash g !! h
  | None => g_byHash g !! h
  end.
Proof. unfold unhash. destruct (g_entities g !! e_ID e); simpl; by rewrite ?lookup_delete. Qed.

Section drop.
Context (id : EntityID) (g : Graph).

Lemma drop_entities : g_entities (dropTombstone id g) = delete id (g_entities g).
Proof. unfold dropTombstone. destruct (g_entities g !! id); [simpl; case_bool_decide|]; done. Qed.
Lemma drop_deleted : g_deleted (dropTombstone id g) = g_deleted g ∖ {[id]}.
Proof. unfold dropTombstone. destruct (g_entities g !! id); [simpl; case_bool_decide|]; done. Qed.
Lemma drop_tombDeadline : g_tombDeadline (dropTombstone id g) = delete id (g_tombDeadline g).
Proof. unfold dropTombstone. destruct (g_entities g !! id); [simpl; case_bool_decide|]; done. Qed.
Lemma drop_count : g_liveTombstones (dropTombstone id g) = (g_liveTombstones g - 1)%Z.
Proof. unfold dropTombstone. destruct (g_entities g !! id); [simpl; case_bool_decide|]; done. Qed.
Lemma drop_tombByHash h id' : g_tombByHash (dropTombstone id g) !! h = Some id' →
  g_tombByHash g !! h = Some id' ∧
  (∀ e, g_entities g !! id = Some e → IdentityHash e = h → id' ≠ id).
Proof.
  unfold dropTombstone. destruct (g_entities g !! id) as [e|]; [case_bool_decide as Ht|]; simpl.
  - rewrite lookup_delete. case_decide; [done|]. naive_solver.
  - intros H. split; [done|]. intros e' [= <-] <-. naive_solver.
  - naive_solver.
Qed.
Lemma drop_frame : g_relations (dropTombstone id g) = g_relations g ∧
  g_out (dropTombstone id g) = g_out g ∧ g_in_ (dropTombstone id g) = g_in_ g ∧
  g_byHash (dropTombstone id g) = g_byHash g ∧ g_byType (dropTombstone id g) = g_byType g ∧
  g_tombstones (dropTombstone id g) = g_tombstones g ∧
  g_tombstoneCap (dropTombstone id g) = g_tombstoneCap g ∧
  g_tombstoneTTL (dropTombstone id g) = g_tombstoneTTL g.
Proof. unfold dropTombstone. destruct (g_entities g !! id); [simpl; case_bool_decide|]; done. Qed.

Lemma drop_live : id ∈ g_deleted g → live (dropTombstone id g) = live g.
Proof.
  intros Hid. apply map_eq. intros i. rewrite !live_lookup_eq drop_entities drop_deleted lookup_delete.
  case_decide as Hi; subst.
  - rewrite (bool_decide_eq_true_2 (i ∈ g_deleted g)); [|done]. by case_bool_decide.
  - rewrite (bool_decide_ext _ (i ∈ g_deleted g)); [done|]. set_solver.
Qed.
End drop.

(** ** Preservation, update by update *)

Lemma size_difference_singleton (X : gset string) x :
  x ∈ X → Z.of_nat (size (X ∖ {[x]})) = (Z.of_nat (size X) - 1)%Z.
Proof.
  intros Hx. rewrite size_difference; [|set_solver]. rewrite size_singleton.
  assert (size X ≠ 0) by (intros H%size_empty_inv; set_solver). lia.
Qed.

(** [putEntity] after the stale index entry of the entity's former identity is
    dropped, the shape of an identity change; every other put is the case where
    the identity did not change. *)
Lemma rehash_wf_entities e g : wf_entities g → identity_ok g e → wf_entities (putEntity e (unhash e g)).
Proof.
  intros [Hids Hh Ht Hc Htb Hd] [Hsame Hown].
  destruct (unhash_frame e g) as (EE & ED & EL & ET & EC & EB & EDl & _).
  split.
  - intros id e'. rewrite put_entities EE lookup_insert. case_decide; naive_solver.
  - intros h id. rewrite put_byHash put_live EL !lookup_insert.
    case_decide as Hhe; case_decide as Hid; subst.
    + naive_solver.
    + split; [naive_solver|]. intros (e' & He' & Hhash).
      symmetry in Hhash. destruct Hid. symmetry. apply Hown. rewrite Hhash. apply Hh. eauto.
    + rewrite unhash_byHash. split; [|naive_solver]. intros Hl.
      destruct (g_entities g !! e_ID e) as [e0|] eqn:He0; [case_decide as Hh0; [done|]|];
        apply Hh in Hl as (e1 & [He1 _]%live_lookup & Hh1); naive_solver.
    + rewrite unhash_byHash. destruct (g_entities g !! e_ID e) as [e0|] eqn:He0; [|apply Hh].
      case_decide as Hh0; [|apply Hh]. split; [done|]. intros (e1 & He1 & Hh1).
      assert (g_byHash g !! h = Some id) as Hbh by (apply Hh; eauto).
      destruct (decide (e_ID e ∈ g_deleted g)) as [Hdel|Hlive].
      { exfalso. apply Hhe. rewrite -Hh0. symmetry. by apply Hsame. }
      assert (g_byHash g !! h = Some (e_ID e)); [|naive_solver].
      apply Hh. exists e0. by rewrite live_lookup.
  - intros t id. rewrite put_byType put_live EL ET set_at_add lookup_insert Ht.
    case_decide as Hid; subst; [|naive_solver]. split; [|naive_solver].
    intros [[Hty _]|(e0 & [He0 _]%live_lookup & <-)]; [by eauto|].
    exists e. split; [done|]. symmetry. by apply Hsame.
  - rewrite put_live_count put_deleted EC ED Hc. case_bool_decide as Hin.
    + by rewrite size_difference_singleton.
    + by rewrite difference_disjoint_L; [|set_solver].
  - intros h id. rewrite put_tombByHash put_entities put_deleted EB EE ED lookup_delete.
    case_decide as Hhe; [done|]. intros (Hin & e0 & He0 & Hh0)%Htb.
    assert (id ≠ e_ID e) by (intros ->; apply Hhe; rewrite -Hh0; symmetry; by apply Hsame).
    rewrite lookup_insert_ne; [|done]. set_solver.
  - intros id. rewrite put_tombDeadline put_deleted EDl ED. case_bool_decide as Hin.
    + rewrite lookup_delete. case_decide; [by intros []|]. intros ?%Hd. set_solver.
    + intros Hs%Hd. set_solver.
Qed.

Lemma entity_ok_identity_ok g e : entity_ok g e → identity_ok g e.
Proof.
  intros [H1 H2]. split; [|done]. intros e0 He0. specialize (H1 _ He0).
  split; [by eapply identity_hash_type|done].
Qed.

Lemma put_unhash e g : entity_ok g e → putEntity e (unhash e g) = putEntity e g.
Proof.
  intros [H1 _]. unfold unhash. destruct (g_entities g !! e_ID e) as [e0|] eqn:He0; [|done].
  rewrite (H1 _ eq_refl). unfold putEntity; simpl. case_bool_decide; simpl;
    unfold set_byHash, set_deleted, set_entities; simpl; by rewrite insert_delete_eq.
Qed.

Lemma put_wf_entities e g : wf_entities g → entity_ok g e → wf_entities (putEntity e g).
Proof.
  intros Hwf Hok. rewrite -put_unhash; [|done]. by apply rehash_wf_entities, entity_ok_identity_ok.
Qed.

Lemma drop_wf_entities id g : id ∈ g_deleted g → wf_entities g → wf_entities (dropTombstone id g).
Proof.
  intros Hid [Hids Hh Ht Hc Htb Hd].
  destruct (drop_frame id g) as (_ & _ & _ & EH & ET & _).
  split.
  - intros id' e'. rewrite drop_entities lookup_delete. case_decide; naive_solver.
  - intros h id'. by rewrite EH drop_live.
  - intros t id'. by rewrite ET drop_live.
  - by rewrite drop_count drop_deleted Hc size_difference_singleton.
  - intros h id' [(Hin & e0 & He0 & Hh0)%Htb Hne]%drop_tombByHash.
    assert (id' ≠ id) by (intros ->; by eapply Hne).
    rewrite drop_deleted drop_entities lookup_delete_ne; [|done]. set_solver.
  - intros id'. rewrite drop_tombDeadline drop_deleted lookup_delete.
    case_decide; [by intros []|]. intros ?%Hd. set_solver.
Qed.

(** Everything the eviction loop leaves alone. *)
Lemma evict_frame q g :
  wf_entities g →
  live (evict_loop q g) = live g ∧
  g_relations (evict_loop q g) = g_relations g ∧ g_out (evict_loop q g) = g_out g ∧
  g_in_ (evict_loop q g) = g_in_ g ∧ g_byHash (evict_loop q g) = g_byHash g ∧
  g_byType (evict_loop q g) = g_byType g ∧
  g_tombstoneCap (evict_loop q g) = g_tombstoneCap g ∧
  g_tombstoneTTL (evict_loop q g) = g_tombstoneTTL g ∧ wf_entities (evict_loop q g).
Proof.
  revert g. induction q as [|id q IH]; intros g Hwf; cbn [evict_loop]; [by destruct Hwf|].
  destruct (_ <? _)%Z; [|by destruct Hwf].
  case_bool_decide as Hin; [|auto].
  destruct (drop_frame id g) as (E1 & E2 & E3 & E4 & E5 & E6 & E7 & E8).
  specialize (IH (dropTombstone id g) (drop_wf_entities _ _ Hin Hwf)).
  rewrite E1 E2 E3 E4 E5 E7 E8 drop_live in IH; done.
Qed.

Lemma evict_wf_queue q g :
  wf_entities g → (∀ id, id ∈ g_deleted g → id ∈ q) → (0 < g_tombstoneCap g)%Z →
  wf_queue (evict_loop q g).
Proof.
  revert g. induction q as [|id q IH]; intros g Hwf Hq Hcap; cbn [evict_loop].
  - split; [exact Hq|done|]. simpl. rewrite (wf_count _ Hwf).
    assert (g_deleted g = ∅) as -> by (apply set_eq; set_solver). rewrite size_empty. lia.
  - destruct (Z.ltb_spec (g_tombstoneCap g) (g_liveTombstones g)) as [Hlt|Hle].
    + case_bool_decide as Hin.
      * destruct (drop_frame id g) as (_ & _ & _ & _ & _ & _ & E7 & _).
        apply IH; [by apply drop_wf_entities| |by rewrite E7].
        intros id'. rewrite drop_deleted. intros [Hd Hne]%elem_of_difference.
        apply Hq in Hd. set_solver.
      * apply IH; auto. intros id' Hd. pose proof (Hq _ Hd). set_solver.
    + split; [exact Hq|done|exact Hle].
Qed.

(** The state of a deletion just before the cap is enforced. *)
Definition mark_deleted (now : Time) (ee : EntityEvent) (g : Graph) : Graph :=
  let id := e_ID (ee_Entity ee) in
  let g := match g_entities g !! id with
    | Some e =>
      let h := IdentityHash e in
      let g := set_byHash (delete h (g_byHash g)) g in
      let g := set_tombByHash (<[h := id]> (g_tombByHash g)) g in
      set_byType (set_del (e_Type e) id (g_byType g)) g
    | None => g
    end in
  if bool_decide (id ∈ g_deleted g) then g else
  let g := set_deleted ({[id]} ∪ g_deleted g) g in
  let g := set_tombstones (g_tombstones g ++ [id]) g in
  let g := set_liveTombstones (g_liveTombstones g + 1)%Z g in
  if (0 <? g_tombstoneTTL g)%Z then
    let base := if is_zero (ee_RecordedAt ee) then now else ee_RecordedAt ee in
    if is_zero base then g
    else set_tombDeadline (<[id := time_add base (g_tombstoneTTL g)]> (g_tombDeadline g)) g
  else g.

Lemma deleteEntity_mark now ee g :
  deleteEntity now ee g = mark_deleted now ee g ∧ e_ID (ee_Entity ee) ∈ g_deleted g ∨
  deleteEntity now ee g = evictTombstones (mark_deleted now ee g) ∧ e_ID (ee_Entity ee) ∉ g_deleted g.
Proof.
  unfold deleteEntity, mark_deleted.
  destruct (g_entities g !! e_ID (ee_Entity ee)); simpl; case_bool_decide; auto.
Qed.

Section mark.
Context (now : Time) (ee : EntityEvent) (g : Graph).
#[local] Abbreviation id := (e_ID (ee_Entity ee)).

Ltac open_mark :=
  unfold mark_deleted; destruct (g_entities g !! id) eqn:?; simpl;
  case_bool_decide; simpl; try (destruct (0 <? g_tombstoneTTL g)%Z; simpl);
  try (destruct (is_zero _); simpl); try (destruct (is_zero _); simpl).

Lemma mark_entities : g_entities (mark_deleted now ee g) = g_entities g.
Proof. by open_mark. Qed.
Lemma mark_del : g_deleted (mark_deleted now ee g) = {[id]} ∪ g_deleted g.
Proof. open_mark; set_solver. Qed.
Lemma mark_byHash h : g_byHash (mark_deleted now ee g) !! h =
  match g_entities g !! id with
  | Some e => if decide (IdentityHash e = h) then None else g_byHash g !! h
  | None => g_byHash g !! h end.
Proof. open_mark; by rewrite ?lookup_delete. Qed.
Lemma mark_tombByHash h : g_tombByHash (mark_deleted now ee g) !! h =
  match g_entities g !! id with
  | Some e => if decide (IdentityHash e = h) then Some id else g_tombByHash g !! h
  | None => g_tombByHash g !! h end.
Proof. open_mark; by rewrite ?lookup_insert. Qed.
Lemma mark_byType t i : i ∈ set_at (g_byType (mark_deleted now ee g)) t ↔
  i ∈ set_at (g_byType g) t ∧ ∀ e, g_entities g !! id = Some e → ¬ (e_Type e = t ∧ i = id).
Proof. open_mark; rewrite ?set_at_del; naive_solver. Qed.
Lemma mark_count : g_liveTombstones (mark_deleted now ee g) =
  (if bool_decide (id ∈ g_deleted g) then g_liveTombstones g else g_liveTombstones g + 1)%Z.
Proof. by open_mark. Qed.
Lemma mark_deadline i : is_Some (g_tombDeadline (mark_deleted now ee g) !! i) →
  i = id ∨ is_Some (g_tombDeadline g !! i).
Proof. open_mark; rewrite ?lookup_insert; repeat case_decide; naive_solver. Qed.
Lemma mark_queue : g_tombstones (mark_deleted now ee g) =
  if bool_decide (id ∈ g_deleted g) then g_tombstones g else g_tombstones g ++ [id].
Proof. by open_mark. Qed.
Lemma mark_frame : g_relations (mark_deleted now ee g) = g_relations g ∧
  g_out (mark_deleted now ee g) = g_out g ∧ g_in_ (mark_deleted now ee g) = g_in_ g ∧
  g_tombstoneCap (mark_deleted now ee g) = g_tombstoneCap g ∧
  g_tombstoneTTL (mark_deleted now ee g) = g_tombstoneTTL g.
Proof. by open_mark. Qed.

Lemma mark_live : live (mark_deleted now ee g) = delete id (live g).
Proof.
  apply map_eq. intros i. rewrite lookup_delete !live_lookup_eq mark_entities mark_del.
  case_decide as Hi; subst.
  - rewrite bool_decide_eq_true_2; [done|]. set_solver.
  - rewrite (bool_decide_ext _ (i ∈ g_deleted g)); [done|]. set_solver.
Qed.
End mark.

Lemma mark_wf_entities now ee g : wf_entities g → deletion_ok g (ee_Entity ee) →
  wf_entities (mark_deleted now ee g).
Proof.
  intros [Hids Hh Ht Hc Htb Hd] Hok. split.
  - intros id e. rewrite mark_entities. apply Hids.
  - intros h id. rewrite mark_byHash mark_live lookup_delete.
    destruct (g_entities g !! e_ID (ee_Entity ee)) as [e0|] eqn:He0.
    + case_decide as Hhe; case_decide as Hid; subst; [naive_solver| | |apply Hh].
      * split; [done|]. intros (e1 & He1 & Hh1). destruct Hid. symmetry.
        apply (Hok _ He0). apply Hh. eauto.
      * split; [|naive_solver]. intros (e1 & [He1 _]%live_lookup & Hh1)%Hh. naive_solver.
    + case_decide as Hid; subst; [|apply Hh]. split; [|naive_solver].
      intros (e1 & [He1 _]%live_lookup & _)%Hh. naive_solver.
  - intros t id. rewrite mark_byType mark_live lookup_delete Ht. case_decide as Hid; subst.
    + split; [|naive_solver]. intros [(e1 & [He1 _]%live_lookup & <-) Hno]. by destruct (Hno _ He1).
    + naive_solver.
  - rewrite mark_count mark_del Hc. case_bool_decide as Hin.
    + by rewrite subseteq_union_1_L; [|set_solver].
    + rewrite size_union; [|set_solver]. rewrite size_singleton. lia.
  - intros h id. rewrite mark_tombByHash mark_entities mark_del.
    destruct (g_entities g !! e_ID (ee_Entity ee)) as [e0|] eqn:He0; [case_decide|].
    + intros [= <-]. split; [set_solver|]. eauto.
    + intros [? ?]%Htb. split; [set_solver|done].
    + intros [? ?]%Htb. split; [set_solver|done].
  - intros id [->|Hs]%mark_deadline; rewrite mark_del; [set_solver|]. apply Hd in Hs. set_solver.
Qed.

Lemma delete_wf_core now ee g : wf_entities g → wf_queue g → deletion_ok g (ee_Entity ee) →
  wf_entities (deleteEntity now ee g) ∧ wf_queue (deleteEntity now ee g).
Proof.
  intros HE HQ Hok. pose proof (mark_wf_entities now _ _ HE Hok) as HE'.
  destruct (mark_frame now ee g) as (_ & _ & _ & EC & _).
  destruct (deleteEntity_mark now ee g) as [[-> Hin]|[-> Hin]].
  - split; [done|]. destruct HQ as [Hq Hcap Hb].
    split; [|by rewrite EC|by rewrite EC mark_count bool_decide_eq_true_2].
    intros id. rewrite mark_del mark_queue bool_decide_eq_true_2; [set_solver|done].
  - split; [by apply evict_frame|]. apply evict_wf_queue; [done| |by rewrite EC; apply HQ].
    intros id. rewrite mark_del mark_queue bool_decide_eq_false_2; [|done].
    intros [Hid|Hid]%elem_of_union; [set_solver|]. apply HQ in Hid. set_solver.
Qed.

Lemma delete_wf now ee g : wf g → deletion_ok g (ee_Entity ee) → wf (deleteEntity now ee g).
Proof.
  intros [HE HR HQ] Hok. destruct (delete_wf_core now ee g HE HQ Hok) as [HE' HQ'].
  split; [done| |done]. destruct (mark_frame now ee g) as (ER & EO & EI & _).
  destruct (deleteEntity_mark now ee g) as [[-> _]|[-> _]].
  - destruct HR; by split; rewrite ?ER ?EO ?EI.
  - unfold evictTombstones. destruct (evict_frame (g_tombstones (mark_deleted now ee g)) _ (mark_wf_entities now _ _ HE Hok))
      as (_ & E1 & E2 & E3 & _).
    destruct HR; split; rewrite ?E1 ?E2 ?E3 ?ER ?EO ?EI; done.
Qed.

Lemma put_wf_rest e g : wf_relations g → wf_queue g →
  wf_relations (putEntity e g) ∧ wf_queue (putEntity e g).
Proof.
  intros HR [Hq Hcap Hb]. destruct (put_frame e g) as (ER & EO & EI & EQ & EC & _).
  split; [destruct HR; split; by rewrite ?ER ?EO ?EI|]. split.
  - intros id. rewrite put_deleted EQ. set_solver.
  - by rewrite EC.
  - rewrite EC put_live_count. case_bool_decide; lia.
Qed.

Lemma put_wf e g : wf g → entity_ok g e → wf (putEntity e g).
Proof. intros [HE HR HQ] Hok. split; [by apply put_wf_entities|by apply put_wf_rest..]. Qed.

Lemma rehash_wf e g : wf g → identity_ok g e → wf (putEntity e (unhash e g)).
Proof.
  intros [HE HR HQ] Hok. split; [by apply rehash_wf_entities|apply put_wf_rest..];
    destruct (unhash_frame e g) as (_ & ED & _ & _ & EL & _ & _ & ER & EO & EI & EQ & EC & _);
    (destruct HR; by split; rewrite ?ER ?EO ?EI) || (destruct HQ; by split; rewrite ?ED ?EL ?EC ?EQ).
Qed.

Lemma add_wf_relations r g : wf_relations g → relation_ok g r →
  wf_relations (addAdjacency r (set_relations (<[r_ID r := r]> (g_relations g)) g)).
Proof.
  intros [Hids Ho Hi] Hok. unfold addAdjacency. split; simpl.
  - intros rid r'. rewrite lookup_insert. case_decide; naive_solver.
  - intros a rid. rewrite set_at_add Ho lookup_insert. case_decide; subst; [|naive_solver].
    split; [|naive_solver]. intros [[<- _]|(r0 & Hr0 & <-)]; [by eauto|]. exists r.
    split; [done|]. symmetry. by apply Hok.
  - intros a rid. rewrite set_at_add Hi lookup_insert. case_decide; subst; [|naive_solver].
    split; [|naive_solver]. intros [[<- _]|(r0 & Hr0 & <-)]; [by eauto|]. exists r.
    split; [done|]. symmetry. by apply Hok.
Qed.

Lemma remove_wf_relations r g : wf_relations g → relation_ok g r →
  wf_relations (set_in_ (set_del (r_To r) (r_ID r) (g_in_ g))
    (set_out (set_del (r_From r) (r_ID r) (g_out g)) (set_relations (delete (r_ID r) (g_relations g)) g))).
Proof.
  intros [Hids Ho Hi] Hok. split; simpl.
  - intros rid r'. rewrite lookup_delete. case_decide; naive_solver.
  - intros a rid. rewrite set_at_del Ho lookup_delete. case_decide; subst; [|naive_solver].
    split; [|naive_solver]. intros [(r0 & Hr0 & <-) Hne]. destruct Hne. split; [|done]. symmetry. by apply Hok.
  - intros a rid. rewrite set_at_del Hi lookup_delete. case_decide; subst; [|naive_solver].
    split; [|naive_solver]. intros [(r0 & Hr0 & <-) Hne]. destruct Hne. split; [|done]. symmetry. by apply Hok.
Qed.

(** [wf] only reads the fields a change of relations leaves alone. *)
Lemma wf_entities_ext g g' :
  g_entities g' = g_entities g → g_deleted g' = g_deleted g → g_byHash g' = g_byHash g →
  g_byType g' = g_byType g → g_liveTombstones g' = g_liveTombstones g →
  g_tombByHash g' = g_tombByHash g → g_tombDeadline g' = g_tombDeadline g →
  wf_entities g → wf_entities g'.
Proof.
  destruct g, g'; simpl. intros -> -> -> -> -> -> -> [Hids Hh Ht Hc Htb Hd]. by split.
Qed.

Lemma relation_wf re g : wf g → relation_ok g (re_Relation re) → wf (applyRelation re g).
Proof.
  intros [HE HR [Hq Hcap Hb]] Hok. unfold applyRelation.
  destruct (re_ChangeType re); try (by split);
    (split; [by apply (wf_entities_ext g)|(exact (add_wf_relations _ g HR Hok) || exact (remove_wf_relations _ g HR Hok))|by split]).
Qed.

Lemma apply_wf now ev g : wf g → event_ok g ev → wf (Apply now ev g).
Proof.
  intros Hwf. unfold Apply, event_ok, applyEntity.
  destruct (ev_Entity ev) as [ee|]; [|destruct (ev_Relation ev) as [re|]; [|done]].
  - destruct (ee_ChangeType ee); intros Hok; auto using put_wf, delete_wf.
    + by apply (rehash_wf (ee_Entity ee)).
    + destruct (g_entities g !! _) eqn:?; [done|]. auto using put_wf.
  - destruct (re_ChangeType re) eqn:Hc; intros; (by apply relation_wf) || (unfold applyRelation; by rewrite Hc).
Qed.

(** ** Tombstone maintenance *)

(** The pruning loop, entry by entry. *)
Lemma prune_fold now l g n :
  wf_entities g → (∀ id, id ∈ g_deleted g → id ∈ g_tombstones g) →
  (∀ id d, g_tombDeadline g !! id = Some d → (id, d) ∈ l ∨ after now d = false) →
  let '(g', n') := foldl (prune_one now) (g, n) l in
  wf_entities g' ∧ live g' = live g ∧ g_deleted g' ⊆ g_deleted g ∧ g_entities g' ⊆ g_entities g ∧
  (n' - n = g_liveTombstones g - g_liveTombstones g')%Z ∧
  (∀ id d, g_tombDeadline g' !! id = Some d → after now d = false) ∧
  g_tombstones g' = g_tombstones g ∧ g_tombstoneCap g' = g_tombstoneCap g ∧
  g_relations g' = g_relations g ∧ g_out g' = g_out g ∧ g_in_ g' = g_in_ g.
Proof.
  revert g n. induction l as [|[id d] l IH]; intros g n HE Hq Hd; cbn [foldl].
  { split_and!; try done; [lia|]. intros id d Hid. apply Hd in Hid. set_solver. }
  unfold prune_one at 2. destruct (after now d) eqn:Ha; simpl.
  2:{ apply IH; try done. intros i d' Hi. apply Hd in Hi as [Hi|]; [|by right].
      apply elem_of_cons in Hi as [[= -> ->]|]; auto. }
  case_bool_decide as Hin.
  - destruct (drop_frame id g) as (E1 & E2 & E3 & _ & _ & E6 & E7 & _).
    specialize (IH (dropTombstone id g) (n + 1)%Z).
    destruct (foldl (prune_one now) (dropTombstone id g, (n + 1)%Z) l) as [g' n'].
    rewrite E1 E2 E3 E6 E7 drop_live // drop_count drop_deleted drop_tombDeadline drop_entities in IH.
    destruct IH as (? & -> & Hsub & Hsub' & Hn & ? & -> & -> & -> & -> & ->).
    + by apply drop_wf_entities.
    + intros i. set_solver.
    + intros i d'. rewrite lookup_delete. case_decide; [done|]. intros [Hi|Hi]%Hd; [|by right].
      apply elem_of_cons in Hi as [[= -> ->]|]; [done|auto].
    + split_and!; try done; [set_solver|etrans; [done|apply delete_subseteq]|lia].
  - assert (set_tombDeadline (delete id (g_tombDeadline g)) g = g) as ->.
    { rewrite delete_id; [by destruct g|]. apply eq_None_not_Some. by intros ?%(wf_deadline _ HE). }
    apply IH; try done. intros i d' Hi. pose proof (wf_deadline _ HE i ltac:(eauto)).
    apply Hd in Hi as [Hi|]; [|by right]. apply elem_of_cons in Hi as [[= -> ->]|]; [done|auto].
Qed.

Lemma compact_elem deleted seen q id :
  id ∈ compact_loop deleted seen q ↔ id ∈ deleted ∧ id ∈ q ∧ id ∉ seen.
Proof.
  revert seen. induction q as [|i q IH]; intros seen; simpl; [set_solver|].
  destruct (decide (id = i)) as [->|]; repeat case_bool_decide; simpl; rewrite ?elem_of_cons IH; set_solver.
Qed.

Lemma compact_NoDup deleted seen q : NoDup (compact_loop deleted seen q).
Proof.
  revert seen. induction q as [|i q IH]; intros seen; simpl; [constructor|].
  repeat case_bool_decide; simpl; auto. apply NoDup_cons. split; [|auto].
  rewrite compact_elem. set_solver.
Qed.

Lemma compact_length deleted q :
  (∀ id, id ∈ deleted → id ∈ q) → length (compact_loop deleted ∅ q) = size deleted.
Proof.
  intros Hq. rewrite -(size_list_to_set (C:=gset string) (compact_loop deleted ∅ q)); [|apply compact_NoDup].
  f_equal. apply set_eq. intros id. rewrite elem_of_list_to_set compact_elem. set_solver.
Qed.

(** What pruning leaves alone, whatever the window. *)
Lemma prune_facts now g : wf_entities g → wf_queue g →
  let '(g', n) := PruneTombstones now g in
  wf_entities g' ∧ wf_queue g' ∧ live g' = live g ∧
  n = (Z.of_nat (size (g_deleted g)) - Z.of_nat (size (g_deleted g')))%Z ∧
  g_relations g' = g_relations g ∧ g_out g' = g_out g ∧ g_in_ g' = g_in_ g ∧
  g_entities g' ⊆ g_entities g ∧ g_deleted g' ⊆ g_deleted g.
Proof.
  intros HE [Hq Hcap Hb]. unfold PruneTombstones.
  destruct (Z.leb_spec (g_tombstoneTTL g) 0). { split_and!; try done. lia. }
  pose proof (prune_fold now (map_to_list (g_tombDeadline g)) g 0 HE Hq) as Hf.
  destruct (foldl _ _ _) as [g' n]. destruct Hf as (HE' & EL & Hsub & Hsub' & Hn & Hd & EQ & EC & ER & EO & EI).
  { intros id d Hid. left. by apply elem_of_map_to_list. }
  pose proof (wf_count _ HE) as Hc. pose proof (wf_count _ HE') as Hc'.
  assert (size (g_deleted g') ≤ size (g_deleted g)) by by apply subseteq_size.
  assert (wf_queue g') as HQ' by (split; rewrite ?EC ?EQ; [set_solver|done|lia]).
  destruct (2 * g_liveTombstones g' <? Z.of_nat (length (g_tombstones g')))%Z.
  - unfold compactTombstones. simpl. split_and!; try done; try lia.
    + by apply (wf_entities_ext g').
    + destruct HQ' as [Hq' Hcap' Hb']. split; simpl; try done. intros id. rewrite compact_elem. set_solver.
  - split_and!; try done; lia.
Qed.

(** What it drops, and how long a queue it leaves. *)
(** Which tombstones a run of deadlines drops. *)
Lemma prune_fold_deleted now ds : ∀ g n id,
  id ∈ g_deleted (foldl (prune_one now) (g, n) ds).1 ↔
  id ∈ g_deleted g ∧ ¬ ∃ d, (id, d) ∈ ds ∧ after now d = true.
Proof.
  induction ds as [|[i d] ds IH]; intros g n id; cbn [foldl fst]; [set_solver|].
  assert (id ∈ g_deleted (prune_one now (g, n) (i, d)).1 ↔ id ∈ g_deleted g ∧ ¬ (id = i ∧ after now d = true)) as Hone.
  { unfold prune_one. destruct (after now d); cbn [negb fst]; [|naive_solver].
    case_bool_decide; cbn [fst]; [rewrite drop_deleted; set_solver|]. simpl. naive_solver. }
  destruct (prune_one now (g, n) (i, d)) as [g1 n1]. rewrite IH Hone.
  setoid_rewrite elem_of_cons. setoid_rewrite pair_equal_spec. naive_solver.
Qed.

Lemma prune_deleted now g id : (0 < g_tombstoneTTL g)%Z →
  id ∈ g_deleted (PruneTombstones now g).1 ↔
  id ∈ g_deleted g ∧ ¬ ∃ d, g_tombDeadline g !! id = Some d ∧ after now d = true.
Proof.
  intros Httl. unfold PruneTombstones. destruct (Z.leb_spec (g_tombstoneTTL g) 0); [lia|].
  pose proof (prune_fold_deleted now (map_to_list (g_tombDeadline g)) g 0 id) as Hf.
  setoid_rewrite elem_of_map_to_list in Hf. destruct (foldl _ _ _) as [g' n]. by destruct (_ <? _)%Z.
Qed.

Lemma prune_expired now g : wf_entities g → wf_queue g → (0 < g_tombstoneTTL g)%Z →
  let '(g', _) := PruneTombstones now g in
  (∀ id d, g_tombDeadline g' !! id = Some d → after now d = false) ∧
  (Z.of_nat (length (g_tombstones g')) <= 2 * Z.of_nat (size (g_deleted g')))%Z.
Proof.
  intros HE [Hq Hcap Hb] Httl. unfold PruneTombstones. destruct (Z.leb_spec (g_tombstoneTTL g) 0); [lia|].
  pose proof (prune_fold now (map_to_list (g_tombDeadline g)) g 0 HE Hq) as Hf.
  destruct (foldl _ _ _) as [g' n]. destruct Hf as (HE' & EL & Hsub & Hsub' & Hn & Hd & EQ & EC & ER & EO & EI).
  { intros id d Hid. left. by apply elem_of_map_to_list. }
  pose proof (wf_count _ HE') as Hc'.
  destruct (Z.ltb_spec (2 * g_liveTombstones g') (Z.of_nat (length (g_tombstones g')))).
  - unfold compactTombstones. simpl. rewrite compact_length; [|rewrite EQ; set_solver]. split; [done|lia].
  - split; [done|lia].
Qed.

(** ** The empty graph *)

Lemma wf_new limit : wf (NewWithTombstoneCap limit).
Proof.
  assert (∀ m : gmap string (gset string), m = ∅ → ∀ t i, i ∉ set_at m t) as Hno.
  { intros ? -> t i. unfold set_at. rewrite lookup_empty. apply not_elem_of_empty. }
  split; split; simpl; try done; intros *; rewrite /live /= ?map_filter_empty ?lookup_empty; try done.
  all: try (split; [by intros ?%Hno || done|by intros (? & ? & _)]).
  all: try (by intros []).
  all: unfold defaultTombstoneCap; destruct (limit <=? 0)%Z eqn:?; lia.
Qed.
