(* ===== verification/Engine.v ===== *)
(** * The change engine: internal/change/engine.go and alias.go

    Observations in, qualified events out. The engine's state is a record, its
    methods are actions of a state monad over it. What the engine does not own is
    a parameter: the clock and the ULID supply are read-indexed streams ([Host]),
    the appender is an interface over an abstract log ([Appender]), and the side
    state that rollbacks restore is a type parameter. A subscriber is the list of
    notifications it received; an installed reporter is the trace of its calls.
    Logging has no effect on the state and is left out. A clock reading is taken
    wherever the source may take one. Where the source ranges over a map, the
    order is the map's enumeration. *)
From S2P Require Import Prelude GoStd Values Vocabulary Entities Events DisplayNames.
From S2P Require Import Speakers Observations Aliases Projection.
Open Scope string_scope.

(** ** The world outside *)

(** The clock, and the generator of ids (NewEntityID, NewEventID). *)
Class Host := { clock : nat → Time; ulid : nat → string }.

(** The durable log: the events as stored (their commit sequence stamped), or
    an error. *)
Class Appender (W : Type) := Append : list Event → W → W * (string + list Event).

(** ** State *)

Record pendingRelation := mkPending {
  pn_obs : RelationObservation;
  pn_deadline : Time;
  pn_scope : string;
}.

Record contestedNames := mkContested {
  cn_last : string;
  cn_contested : bool;
  cn_values : gmap string Time;
}.

Record badPromise := mkBadPromise { bp_declared : Duration; bp_producer : string }.

(** Which reporters are installed, and what they were told. *)
Record Reporters := mkReporters { rp_promise : bool; rp_discard : bool; rp_aliasConflict : bool }.
Inductive Report :=
| PromiseReport (producer entityType : string) (declared : Duration)
| DiscardReport (relationType fromType toType : string)
| AliasConflictReport (attributeKey aliasValue : string).

Inductive EngineError :=
| ErrAppend (msg : string)
| errEndpointMissing
| errEndpointsCollapsed.
#[export] Instance EngineError_eq_dec : EqDecision EngineError.
Proof. solve_decision. Defined.

Definition maxPendingRelations : nat := Z.to_nat 4096.
Definition maxContestedDisplayNames : nat := 8.

Section state.
Context {W X : Type}.

(** A batch's uncommitted work: its events and an overlay of their effects. *)
Record Staged := mkStaged {
  st_events : list (Event * bool);
  st_scope : string;
  st_entities : gmap string Entity;
  st_deleted : gset string;
  st_byHash : gmap string string;
  st_relations : gmap string Relation;
  st_relRemoved : gset string;
  st_rollbacks : list (X → X);
}.

Definition newStaged : Staged := mkStaged [] "" ∅ ∅ ∅ ∅ ∅ [].

Record Engine := mkEngine {
  en_graph : Graph;
  en_log : W;
  en_side : X;
  en_tick : nat;
  en_ids : nat;
  en_reporters : Reporters;
  en_reports : list Report;
  en_badPromises : gmap string badPromise;
  en_bufferTTL : Duration;
  en_pending : list pendingRelation;
  en_pendingHashes : gset string;
  en_refs : gmap string Speakers;
  en_relRefs : gmap string Speakers;
  en_contested : gmap string contestedNames;
  en_aliases : identityAliasIndex;
  en_staged : option Staged;
  en_subs : gmap Z (list (Event * bool));
  en_subID : Z;
}.

Definition upd_graph (x : Graph) (e : Engine) : Engine :=
  mkEngine x (en_log e) (en_side e) (en_tick e) (en_ids e) (en_reporters e) (en_reports e) (en_badPromises e) (en_bufferTTL e) (en_pending e) (en_pendingHashes e) (en_refs e) (en_relRefs e) (en_contested e) (en_aliases e) (en_staged e) (en_subs e) (en_subID e).
Definition upd_log (x : W) (e : Engine) : Engine :=
  mkEngine (en_graph e) x (en_side e) (en_tick e) (en_ids e) (en_reporters e) (en_reports e) (en_badPromises e) (en_bufferTTL e) (en_pending e) (en_pendingHashes e) (en_refs e) (en_relRefs e) (en_contested e) (en_aliases e) (en_staged e) (en_subs e) (en_subID e).
Definition upd_side (x : X) (e : Engine) : Engine :=
  mkEngine (en_graph e) (en_log e) x (en_tick e) (en_ids e) (en_reporters e) (en_reports e) (en_badPromises e) (en_bufferTTL e) (en_pending e) (en_pendingHashes e) (en_refs e) (en_relRefs e) (en_contested e) (en_aliases e) (en_staged e) (en_subs e) (en_subID e).
Definition upd_tick (x : nat) (e : Engine) : Engine :=
  mkEngine (en_graph e) (en_log e) (en_side e) x (en_ids e) (en_reporters e) (en_reports e) (en_badPromises e) (en_bufferTTL e) (en_pending e) (en_pendingHashes e) (en_refs e) (en_relRefs e) (en_contested e) (en_aliases e) (en_staged e) (en_subs e) (en_subID e).
Definition upd_ids (x : nat) (e : Engine) : Engine :=
  mkEngine (en_graph e) (en_log e) (en_side e) (en_tick e) x (en_reporters e) (en_reports e) (en_badPromises e) (en_bufferTTL e) (en_pending e) (en_pendingHashes e) (en_refs e) (en_relRefs e) (en_contested e) (en_aliases e) (en_staged e) (en_subs e) (en_subID e).
Definition upd_reporters (x : Reporters) (e : Engine) : Engine :=
  mkEngine (en_graph e) (en_log e) (en_side e) (en_tick e) (en_ids e) x (en_reports e) (en_badPromises e) (en_bufferTTL e) (en_pending e) (en_pendingHashes e) (en_refs e) (en_relRefs e) (en_contested e) (en_aliases e) (en_staged e) (en_subs e) (en_subID e).
Definition upd_reports (x : list Report) (e : Engine) : Engine :=
  mkEngine (en_graph e) (en_log e) (en_side e) (en_tick e) (en_ids e) (en_reporters e) x (en_badPromises e) (en_bufferTTL e) (en_pending e) (en_pendingHashes e) (en_refs e) (en_relRefs e) (en_contested e) (en_aliases e) (en_staged e) (en_subs e) (en_subID e).
Definition upd_badPromises (x : gmap string badPromise) (e : Engine) : Engine :=
  mkEngine (en_graph e) (en_log e) (en_side e) (en_tick e) (en_ids e) (en_reporters e) (en_reports e) x (en_bufferTTL e) (en_pending e) (en_pendingHashes e) (en_refs e) (en_relRefs e) (en_contested e) (en_aliases e) (en_staged e) (en_subs e) (en_subID e).
Definition upd_bufferTTL (x : Duration) (e : Engine) : Engine :=
  mkEngine (en_graph e) (en_log e) (en_side e) (en_tick e) (en_ids e) (en_reporters e) (en_reports e) (en_badPromises e) x (en_pending e) (en_pendingHashes e) (en_refs e) (en_relRefs e) (en_contested e) (en_aliases e) (en_staged e) (en_subs e) (en_subID e).
Definition upd_pending (x : list pendingRelation) (e : Engine) : Engine :=
  mkEngine (en_graph e) (en_log e) (en_side e) (en_tick e) (en_ids e) (en_reporters e) (en_reports e) (en_badPromises e) (en_bufferTTL e) x (en_pendingHashes e) (en_refs e) (en_relRefs e) (en_contested e) (en_aliases e) (en_staged e) (en_subs e) (en_subID e).
Definition upd_pendingHashes (x : gset string) (e : Engine) : Engine :=
  mkEngine (en_graph e) (en_log e) (en_side e) (en_tick e) (en_ids e) (en_reporters e) (en_reports e) (en_badPromises e) (en_bufferTTL e) (en_pending e) x (en_refs e) (en_relRefs e) (en_contested e) (en_aliases e) (en_staged e) (en_subs e) (en_subID e).
Definition upd_refs (x : gmap string Speakers) (e : Engine) : Engine :=
  mkEngine (en_graph e) (en_log e) (en_side e) (en_tick e) (en_ids e) (en_reporters e) (en_reports e) (en_badPromises e) (en_bufferTTL e) (en_pending e) (en_pendingHashes e) x (en_relRefs e) (en_contested e) (en_aliases e) (en_staged e) (en_subs e) (en_subID e).
Definition upd_relRefs (x : gmap string Speakers) (e : Engine) : Engine :=
  mkEngine (en_graph e) (en_log e) (en_side e) (en_tick e) (en_ids e) (en_reporters e) (en_reports e) (en_badPromises e) (en_bufferTTL e) (en_pending e) (en_pendingHashes e) (en_refs e) x (en_contested e) (en_aliases e) (en_staged e) (en_subs e) (en_subID e).
Definition upd_contested (x : gmap string contestedNames) (e : Engine) : Engine :=
  mkEngine (en_graph e) (en_log e) (en_side e) (en_tick e) (en_ids e) (en_reporters e) (en_reports e) (en_badPromises e) (en_bufferTTL e) (en_pending e) (en_pendingHashes e) (en_refs e) (en_relRefs e) x (en_aliases e) (en_staged e) (en_subs e) (en_subID e).
Definition upd_aliases (x : identityAliasIndex) (e : Engine) : Engine :=
  mkEngine (en_graph e) (en_log e) (en_side e) (en_tick e) (en_ids e) (en_reporters e) (en_reports e) (en_badPromises e) (en_bufferTTL e) (en_pending e) (en_pendingHashes e) (en_refs e) (en_relRefs e) (en_contested e) x (en_staged e) (en_subs e) (en_subID e).
Definition upd_staged (x : option Staged) (e : Engine) : Engine :=
  mkEngine (en_graph e) (en_log e) (en_side e) (en_tick e) (en_ids e) (en_reporters e) (en_reports e) (en_badPromises e) (en_bufferTTL e) (en_pending e) (en_pendingHashes e) (en_refs e) (en_relRefs e) (en_contested e) (en_aliases e) x (en_subs e) (en_subID e).
Definition upd_subs (x : gmap Z (list (Event * bool))) (e : Engine) : Engine :=
  mkEngine (en_graph e) (en_log e) (en_side e) (en_tick e) (en_ids e) (en_reporters e) (en_reports e) (en_badPromises e) (en_bufferTTL e) (en_pending e) (en_pendingHashes e) (en_refs e) (en_relRefs e) (en_contested e) (en_aliases e) (en_staged e) x (en_subID e).
Definition upd_subID (x : Z) (e : Engine) : Engine :=
  mkEngine (en_graph e) (en_log e) (en_side e) (en_tick e) (en_ids e) (en_reporters e) (en_reports e) (en_badPromises e) (en_bufferTTL e) (en_pending e) (en_pendingHashes e) (en_refs e) (en_relRefs e) (en_contested e) (en_aliases e) (en_staged e) (en_subs e) x.

Definition M (A : Type) : Type := Engine → A * Engine.
#[global] Instance M_ret : MRet M := λ A a e, (a, e).
#[global] Instance M_bind : MBind M := λ A B f m e, let '(a, e') := m e in f a e'.

Definition gets {A} (f : Engine → A) : M A := λ e, (f e, e).
Definition modify (f : Engine → Engine) : M unit := λ e, (tt, f e).
End state.

Arguments Staged : clear implicits.
Arguments Engine : clear implicits.
Arguments M : clear implicits.

(** The event (none on a nil error without emission), and the error. *)
Abbreviation Outcome := (option Event * option EngineError)%type.

Section engine.
Context {W X : Type} `{!Host} `{!Appender W}.
#[local] Abbreviation Eng := (Engine W X).
#[local] Abbreviation Act := (M W X).

Definition now_ : Act Time := λ e, (clock (en_tick e), upd_tick (S (en_tick e)) e).
Definition newID : Act string := λ e, (ulid (en_ids e), upd_ids (S (en_ids e)) e).

(** *** Reporters *)

Definition report (on : Reporters → bool) (r : Report) : Act unit :=
  modify (λ e, if on (en_reporters e) then upd_reports (en_reports e ++ [r])%list e else e).
Definition reportDiscard (obs : RelationObservation) : Act unit :=
  report rp_discard (DiscardReport (ro_Type obs) (ep_Type (ro_From obs)) (ep_Type (ro_To obs))).

(** *** Batches *)

(** The overlay effect of an event. *)
Definition staged_apply (ev : Event) (st : Staged X) : Staged X :=
  let '(mkStaged evs sc ents del bh rels rem rb) := st in
  match ev_Entity ev, ev_Relation ev with
  | Some ee, _ =>
    let ent := ee_Entity ee in
    match ee_ChangeType ee with
    | EntityCreated =>
      mkStaged evs sc (<[e_ID ent := ent]> ents) (del ∖ {[e_ID ent]}) (<[IdentityHash ent := e_ID ent]> bh) rels rem rb
    | EntityAttributeUpdated | EntityStateChanged => mkStaged evs sc (<[e_ID ent := ent]> ents) del bh rels rem rb
    | EntityDeleted => mkStaged evs sc ents ({[e_ID ent]} ∪ del) bh rels rem rb
    | _ => st
    end
  | None, Some re =>
    let rel := re_Relation re in
    match re_ChangeType re with
    | RelationAdded | RelationAttributeChanged =>
      mkStaged evs sc ents del bh (<[r_ID rel := rel]> rels) (rem ∖ {[r_ID rel]}) rb
    | RelationRemoved => mkStaged evs sc ents del bh (delete (r_ID rel) rels) ({[r_ID rel]} ∪ rem) rb
    | _ => st
    end
  | None, None => st
  end.

Definition push_event (ev : Event) (hp : bool) (st : Staged X) : Staged X :=
  mkStaged (st_events st ++ [(ev, hp)])%list (st_scope st) (st_entities st) (st_deleted st) (st_byHash st)
    (st_relations st) (st_relRemoved st) (st_rollbacks st).
Definition put_scope (scope : string) (st : Staged X) : Staged X :=
  mkStaged (st_events st) scope (st_entities st) (st_deleted st) (st_byHash st)
    (st_relations st) (st_relRemoved st) (st_rollbacks st).
Definition push_rollback (f : X → X) (st : Staged X) : Staged X :=
  mkStaged (st_events st) (st_scope st) (st_entities st) (st_deleted st) (st_byHash st)
    (st_relations st) (st_relRemoved st) (st_rollbacks st ++ [f])%list.

Definition on_staged (f : Staged X → Staged X) : Act unit :=
  modify (λ e, match en_staged e with Some st => upd_staged (Some (f st)) e | None => e end).

Definition currentScope : Act string :=
  gets (λ e, match en_staged e with Some st => st_scope st | None => "" end).
Definition setCurrentScope (scope : string) : Act unit := on_staged (put_scope scope).

(** *** Commit *)

Definition notify (ev : Event) (hp : bool) : Act unit :=
  modify (λ e, upd_subs ((λ inbox, inbox ++ [(ev, hp)])%list <$> en_subs e) e).

(** Durable events reach the projection, then the subscribers, one by one. *)
Fixpoint deliver (evs : list (Event * bool)) : Act unit :=
  match evs with
  | [] => mret tt
  | (ev, hp) :: evs =>
    now ← now_;
    modify (λ e, upd_graph (Apply now ev (en_graph e)) e);;
    notify ev hp;;
    deliver evs
  end.

Definition append_ (evs : list Event) : Act (string + list Event) :=
  λ e, let '(w, r) := Append evs (en_log e) in (r, upd_log w e).

(** The event as committed: stamped when it reached the log here. *)
Definition commit (ev : Event) (hp : bool) : Act (EngineError + Event) :=
  st ← gets en_staged;
  match st with
  | Some _ => on_staged (λ st, staged_apply ev (push_event ev hp st));; mret (inr ev)
  | None =>
    r ← append_ [ev];
    match r with
    | inl msg => mret (inl (ErrAppend msg))
    | inr evs => deliver (zip evs [hp]);; mret (inr (default ev (head evs)))
    end
  end.

Definition flushStaged (st : Staged X) : Act (option EngineError) :=
  modify (upd_staged None);;
  match st_events st with
  | [] => mret None
  | _ =>
    r ← append_ (st_events st).*1;
    match r with
    | inl msg =>
      modify (λ e, upd_side (foldr (λ f s, f s) (en_side e) (st_rollbacks st)) e);;
      mret (Some (ErrAppend msg))
    | inr evs => deliver (zip evs (st_events st).*2);; mret None
    end
  end.

(** *** Reads, the overlay first *)

Definition matchIdentity (typ : string) (identity : list KeyValue) : Act (option EntityID) :=
  gets (λ e, match en_staged e with
  | None => MatchIdentity (en_graph e) typ identity
  | Some st =>
    match st_byHash st !! identity_hash typ identity with
    | Some id => if bool_decide (id ∈ st_deleted st) then None else Some id
    | None =>
      match MatchIdentity (en_graph e) typ identity with
      | Some id => if bool_decide (id ∈ st_deleted st) then None else Some id
      | None => None
      end
    end
  end).

Definition matchTombstone (typ : string) (identity : list KeyValue) : Act (option EntityID) :=
  now ← now_;
  gets (λ e, match MatchTombstone now (en_graph e) typ identity with
  | None => None
  | Some id =>
    match en_staged e with
    | Some st => if bool_decide (id ∈ st_deleted st) then None else Some id
    | None => Some id
    end
  end).

Definition getEntity (id : EntityID) : Act (option Entity * bool) :=
  gets (λ e, match en_staged e with
  | None => GetEntity (en_graph e) id
  | Some st =>
    match st_entities st !! id with
    | Some ent => (Some ent, bool_decide (id ∈ st_deleted st))
    | None => let '(ent, deleted) := GetEntity (en_graph e) id in
              (ent, deleted || bool_decide (id ∈ st_deleted st))
    end
  end).

Definition getRelation (id : RelationID) : Act (option Relation) :=
  gets (λ e, match en_staged e with
  | None => GetRelation (en_graph e) id
  | Some st =>
    if bool_decide (id ∈ st_relRemoved st) then None
    else match st_relations st !! id with
    | Some r => Some r
    | None => GetRelation (en_graph e) id
    end
  end).

(** The first of each id, in order, but for the ids already seen. *)
Fixpoint dedup_relations (seen : gset string) (rels : list Relation) : list Relation :=
  match rels with
  | [] => []
  | r :: rels =>
    if bool_decide (r_ID r ∈ seen) then dedup_relations seen rels
    else r :: dedup_relations ({[r_ID r]} ∪ seen) rels
  end.

Definition listRelationsTouching (id : EntityID) : Act (list Relation) :=
  gets (λ e,
    let '(over, removed) := match en_staged e with
      | Some st => (base.filter (λ r, r_From r = id ∨ r_To r = id) (map_to_list (st_relations st)).*2, st_relRemoved st)
      | None => ([], ∅)
      end in
    let base_ := dedup_relations (list_to_set (map r_ID over))
      (ListRelations (en_graph e) "" id "" ++ ListRelations (en_graph e) "" "" id)%list in
    sort_by r_ID (over ++ base.filter (λ r, r_ID r ∉ removed) base_)%list).

(** *** Aliases *)

Definition substitute (identity : list KeyValue) : Act (option (list KeyValue)) :=
  gets (λ e, substituteAliases (en_aliases e) identity).

(** The entity ("" when none) and whether substitution found it. *)
Definition resolveEndpoint (ref : EndpointRef) : Act (EntityID * bool) :=
  m ← matchIdentity (ep_Type ref) (ep_Identity ref);
  match m with
  | Some id => mret (id, false)
  | None =>
    sub ← substitute (ep_Identity ref);
    match sub with
    | None => mret ("", false)
    | Some identity =>
      m ← matchIdentity (ep_Type ref) identity;
      mret (match m with Some id => (id, true) | None => ("", false) end)
    end
  end.

Definition resolveEndpoints (from to : EndpointRef) : Act (EngineError + EntityID * EntityID) :=
  '(fromID, fromSub) ← resolveEndpoint from;
  if bool_decide (fromID = "") then mret (inl errEndpointMissing) else
  '(toID, toSub) ← resolveEndpoint to;
  if bool_decide (toID = "") then mret (inl errEndpointMissing) else
  if (fromSub || toSub) && bool_decide (fromID = toID) then mret (inl errEndpointsCollapsed) else
  mret (inr (fromID, toID)).

Definition aliasBeliefLive (obs : RelationObservation) : Act bool :=
  gets (λ e, bool_decide (ro_Type obs = RelSameAs) &&
    match aliasClaimFromObservation obs with
    | Some claim => alias_live (en_aliases e) claim
    | None => false
    end).

Definition dropPendingRelation (obs : RelationObservation) : Act unit :=
  live ← aliasBeliefLive obs;
  if live : bool then mret tt else reportDiscard obs.

(** *** Promises and references *)

Definition promise (id : EntityID) (typ producer : string) (declared : Duration) : Act Duration :=
  if (declared <=? maxPlausibleLivenessPromise)%Z then
    (if bool_decide (id = "") then mret tt else modify (λ e, upd_badPromises (delete id (en_badPromises e)) e));;
    mret declared
  else
    (if bool_decide (id = "") then mret tt
     else modify (λ e, upd_badPromises (<[id := mkBadPromise declared producer]> (en_badPromises e)) e));;
    report rp_promise (PromiseReport producer typ declared);;
    mret 0%Z.

(** [m[k]] of a map of references; missing is empty. *)
Definition refs_at (m : gmap string Speakers) (k : string) : Speakers := default ∅ (m !! k).

Definition set_ref (id key : string) (ref : liveRef) (m : gmap string Speakers) : gmap string Speakers :=
  <[id := <[key := ref]> (refs_at m id)]> m.

Definition inheritedRef (from : EntityID) (key : string) : Act liveRef :=
  gets (λ e, match refs_at (en_refs e) from !! key with
  | Some ref => mkLiveRef (lr_deadline ref) (lr_interval ref) false
  | None => zero_liveRef
  end).

(** *** Display names in contention *)

(** The value to evict: the one observed longest ago. *)
Definition oldest_value (values : gmap string Time) : string :=
  (foldl (λ acc va, if bool_decide (acc.1 = "") || before va.2 acc.2 then va else acc)
     ("", zero_time) (map_to_list values)).1.

Definition track (c : option contestedNames) (name prev : string) (now : Time) : option contestedNames :=
  match c with
  | None =>
    if bool_decide (name = prev) then None
    else Some (mkContested name false (<[name := now]> {[prev := now]}))
  | Some c =>
    if bool_decide (name = cn_last c) then
      Some (mkContested (cn_last c) (cn_contested c) (<[name := now]> (cn_values c)))
    else
      let contested := cn_contested c || bool_decide (is_Some (cn_values c !! name)) in
      let full := (maxContestedDisplayNames <=? size (cn_values c))%nat in
      let values := if full then delete (oldest_value (cn_values c)) (cn_values c) else cn_values c in
      Some (mkContested name (contested || full) (<[name := now]> values))
  end.

Definition trackDisplayName (id : EntityID) (obs : EntityObservation) (prev : string) : Act unit :=
  let name := DisplayName (observed obs "") in
  if bool_decide (name = "") then mret tt else
  let prev := if bool_decide (prev = "") then name else prev in
  now ← now_;
  modify (λ e, match track (en_contested e !! id) name prev now with
  | Some c => upd_contested (<[id := c]> (en_contested e)) e
  | None => e
  end).

(** *** Relations *)

Definition relationEvent (ct : ChangeType) (rel : Relation) (eventTime : Time) (source : DeleteSource) : Act Event :=
  evid ← newID;
  now ← now_;
  scope ← currentScope;
  mret (relation_event (mkRelationEvent evid ct rel eventTime now 0 scope SchemaVersion [] source)).

Definition observeRelationLocked (obs : RelationObservation) : Act Outcome :=
  ends ← resolveEndpoints (ro_From obs) (ro_To obs);
  match ends with
  | inl err => mret (None, Some err)
  | inr (from, to) =>
    let rel := NewRelation (ro_Type obs) from to (ro_Attributes obs) in
    scope ← currentScope;
    let key := refKey (ro_Producer obs) scope in
    iv ← promise "" (ro_Type obs) (ro_Producer obs) (ro_Interval obs);
    ref ← (if (0 <? iv)%Z then now ← now_; mret (mkLiveRef (time_add now iv) iv false)
           else inheritedRef from key);
    modify (λ e, upd_relRefs (set_ref (r_ID rel) key ref (en_relRefs e)) e);;
    existing ← getRelation (r_ID rel);
    let ct := match existing with
      | Some ex => match (diffAttributes (r_Attributes ex) (ro_Attributes obs)).1 with
                   | [] => None
                   | _ => Some RelationAttributeChanged
                   end
      | None => Some RelationAdded
      end in
    match ct with
    | None => mret (None, None)
    | Some ct =>
      ev ← relationEvent ct rel (ro_EventTime obs) DeleteSourceUnknown;
      r ← commit ev (r_Structural rel && bool_decide (ct = RelationAdded));
      mret (match r with inl err => (None, Some err) | inr ev => (Some ev, None) end)
    end
  end.

Definition rebuildPendingHashes : Act unit :=
  modify (λ e, upd_pendingHashes (list_to_set (mjoin (map (λ p,
    mjoin (map (λ ref, endpointHash ref ::
      match substituteAliases (en_aliases e) (ep_Identity ref) with
      | Some sub => [identity_hash (ep_Type ref) sub]
      | None => []
      end) [ro_From (pn_obs p); ro_To (pn_obs p)])) (en_pending e)))) e).

(** What stays parked. *)
Fixpoint flush_loop (now : Time) (ps : list pendingRelation) : Act (list pendingRelation) :=
  match ps with
  | [] => mret []
  | p :: ps =>
    keep ← (if after now (pn_deadline p) then dropPendingRelation (pn_obs p);; mret []
      else
        flushing ← currentScope;
        setCurrentScope (pn_scope p);;
        r ← observeRelationLocked (pn_obs p);
        setCurrentScope flushing;;
        match r.2 with
        | None => mret []
        | Some errEndpointsCollapsed => dropPendingRelation (pn_obs p);; mret []
        | Some _ => mret [p]
        end);
    rest ← flush_loop now ps;
    mret (keep ++ rest)%list
  end.

Definition flushPending : Act unit :=
  ps ← gets en_pending;
  match ps with
  | [] => mret tt
  | _ =>
    now ← now_;
    kept ← flush_loop now ps;
    modify (upd_pending kept);;
    rebuildPendingHashes
  end.

Definition recordAliasLocked (obs : RelationObservation) : Act unit :=
  match aliasClaimFromObservation obs with
  | None => mret tt
  | Some claim =>
    scope ← currentScope;
    now ← now_;
    let '(deadline, believable) := aliasDeadline now obs in
    if negb believable then mret tt else
    idx ← gets en_aliases;
    let '(idx', _, conflict) := record idx claim (refKey (ro_Producer obs) scope) (mkLiveRef deadline 0 false) in
    modify (upd_aliases idx');;
    (if conflict : bool then report rp_aliasConflict
       (AliasConflictReport (ak_attributeKey (ac_alias claim)) (ak_aliasValue (ac_alias claim)))
     else mret tt);;
    ps ← gets en_pending;
    match ps with [] => mret tt | _ => rebuildPendingHashes;; flushPending end
  end.

(** Parking: the oldest edge gives way when the buffer is full. *)
Definition park (obs : RelationObservation) : Act unit :=
  ps ← gets en_pending;
  (if (maxPendingRelations <=? length ps)%nat then
     match ps with
     | p :: ps' => modify (upd_pending ps');; reportDiscard (pn_obs p)
     | [] => mret tt
     end
   else mret tt);;
  ttl ← gets en_bufferTTL;
  let hold := if (ttl <? ro_SourceInterval obs)%Z then ro_SourceInterval obs else ttl in
  now ← now_;
  scope ← currentScope;
  modify (λ e, upd_pending (en_pending e ++ [mkPending obs (time_add now hold) scope])%list e);;
  rebuildPendingHashes.

Definition observeRelationBuffered (obs : RelationObservation) : Act Outcome :=
  (if bool_decide (ro_Type obs = RelSameAs) then recordAliasLocked obs else mret tt);;
  r ← observeRelationLocked obs;
  ttl ← gets en_bufferTTL;
  match r.2 with
  | Some errEndpointsCollapsed => dropPendingRelation obs;; mret (None, None)
  | Some errEndpointMissing => if (0 <? ttl)%Z then park obs;; mret (None, None) else mret r
  | _ => mret r
  end.

Definition removeRelationLocked (obs : RelationObservation) : Act Outcome :=
  ends ← resolveEndpoints (ro_From obs) (ro_To obs);
  match ends with
  | inl errEndpointMissing => mret (None, None)
  | inl err => mret (None, Some err)
  | inr (from, to) =>
    let id := ComputeRelationID (ro_Type obs) from to in
    scope ← currentScope;
    held ← gets (λ e, en_relRefs e !! id);
    let left := (λ refs, (releaseSpeaker refs (ro_Producer obs) scope).1) <$> held in
    modify (λ e, match left with
      | None => e
      | Some refs => upd_relRefs (if bool_decide (refs = ∅) then delete id (en_relRefs e)
                                  else <[id := refs]> (en_relRefs e)) e
      end);;
    if bool_decide (default ∅ left ≠ ∅) then mret (None, None) else
    existing ← getRelation id;
    match existing with
    | None => mret (None, None)
    | Some ex =>
      ev ← relationEvent RelationRemoved ex (ro_EventTime obs) DeleteSourceProducer;
      r ← commit ev (r_Structural ex);
      mret (match r with inl err => (None, Some err) | inr ev => (Some ev, None) end)
    end
  end.

(** *** Entities *)

(** The id, change type, changed keys and previous name of an observation. *)
Definition classify_observation (obs : EntityObservation) : Act (ChangeType * EntityID * list string * string) :=
  m ← matchIdentity (eo_Type obs) (eo_Identity obs);
  match m with
  | None =>
    t ← matchTombstone (eo_Type obs) (eo_Identity obs);
    match t with
    | Some rid => mret (EntityCreated, rid, [], "")
    | None => nid ← newID; mret (EntityCreated, nid, [], "")
    end
  | Some id =>
    ex ← getEntity id;
    let existing := default zero_Entity ex.1 in
    let '(changed, stateChanged) := diffAttributes (e_Attributes existing) (eo_Attributes obs) in
    mret (classify changed stateChanged, id, changed, DisplayName existing)
  end.

Definition observeEntityLocked (obs : EntityObservation) : Act Outcome :=
  '(ct, entityID, changedKeys, prevName) ← classify_observation obs;
  evid ← newID;
  now ← now_;
  scope ← currentScope;
  r ← commit (entity_event (mkEntityEvent evid ct (observed obs entityID) (eo_EventTime obs) now 0 scope
                SchemaVersion changedKeys "" DeleteSourceUnknown)) false;
  match r with
  | inl err => mret (None, Some err)
  | inr ev =>
    iv ← promise entityID (eo_Type obs) (eo_Producer obs) (eo_Interval obs);
    ref ← (if (0 <? iv)%Z then now ← now_; mret (mkLiveRef (time_add now iv) iv false)
           else mret zero_liveRef);
    modify (λ e, upd_refs (set_ref entityID (refKey (eo_Producer obs) scope) ref (en_refs e)) e);;
    trackDisplayName entityID obs prevName;;
    waited ← gets (λ e, negb (bool_decide (length (en_pending e) = 0)) &&
                        bool_decide (identity_hash (eo_Type obs) (eo_Identity obs) ∈ en_pendingHashes e));
    (if waited : bool then flushPending else mret tt);;
    mret (Some ev, None)
  end.

(** How many edges were removed, and the errors of those that were not. *)
Fixpoint remove_edges (rels : list Relation) (when : Time) : Act (Z * list EngineError) :=
  match rels with
  | [] => mret (0%Z, [])
  | rel :: rels =>
    ev ← relationEvent RelationRemoved rel when DeleteSourceCascade;
    r ← commit ev (r_Structural rel);
    '(n, errs) ← (match r with
      | inl err => mret (0%Z, [err])
      | inr _ => modify (λ e, upd_relRefs (delete (r_ID rel) (en_relRefs e)) e);; mret (1%Z, [])
      end);
    '(n', errs') ← remove_edges rels when;
    mret ((n + n')%Z, (errs ++ errs')%list)
  end.
Definition removeIncidentRelations (id : EntityID) (when : Time) : Act (Z * list EngineError) :=
  rels ← listRelationsTouching id;
  remove_edges rels when.

(** The event if one was emitted, and every error. *)
Definition deleteEntityLocked (obs : EntityObservation) : Act (option Event * list EngineError) :=
  m ← matchIdentity (eo_Type obs) (eo_Identity obs);
  match m with
  | None => mret (None, [])
  | Some id =>
    scope ← currentScope;
    held ← gets (λ e, en_refs e !! id);
    let left := (λ refs, (releaseSpeaker refs (eo_Producer obs) scope).1) <$> held in
    modify (λ e, match left with
      | None => e
      | Some refs => upd_refs (if bool_decide (refs = ∅) then delete id (en_refs e)
                               else <[id := refs]> (en_refs e)) e
      end);;
    if bool_decide (default ∅ left ≠ ∅) then mret (None, []) else
    evid ← newID;
    now ← now_;
    r ← commit (entity_event (mkEntityEvent evid EntityDeleted (observed obs id) (eo_EventTime obs) now 0 scope
                  SchemaVersion [] (eo_DeleteReason obs) DeleteSourceProducer)) false;
    match r with
    | inl err => mret (None, [err])
    | inr ev =>
      modify (λ e, upd_contested (delete id (en_contested e)) e);;
      '(_, errs) ← removeIncidentRelations id (eo_EventTime obs);
      mret (Some ev, errs)
    end
  end.

(** *** Sweep *)

(** The collection method that fell silent last among the lapsed speakers. *)
Definition silenced_scope (now : Time) (sp : Speakers) : string :=
  from_option fst "" (foldl (λ acc kr,
     if lapsed now kr.2 then
       match acc with
       | Some (_, d) => if after (lr_deadline kr.2) d
                        then Some ((splitRefKey kr.1).2, lr_deadline kr.2) else acc
       | None => Some ((splitRefKey kr.1).2, lr_deadline kr.2)
       end
     else acc) (None : option (string * Time)) (map_to_list sp)).

(** The keys left with no reference, in the map's order. *)
Definition orphans (now : Time) (m : gmap string Speakers) : list string :=
  (base.filter (λ kv, kept_speakers now kv.2 = ∅) (map_to_list m)).*1.

Record SweepResult := mkSweepResult { sr_Entities : Z; sr_Relations : Z }.

Definition drop_ref (id : EntityID) : Act unit :=
  modify (λ e, upd_refs (delete id (en_refs e)) e);;
  modify (λ e, upd_contested (delete id (en_contested e)) e).

(** One orphan: expired if live, forgotten otherwise. *)
Definition expire_entity (now : Time) (scopes : gmap string Speakers) (id : EntityID) : Act (SweepResult * list EngineError) :=
  ent ← gets (λ e, GetEntity (en_graph e) id);
  match ent with
  | (Some ent, false) =>
    evid ← newID;
    r ← commit (entity_event (mkEntityEvent evid EntityDeleted ent now now 0
          (silenced_scope now (refs_at scopes id)) SchemaVersion [] "" DeleteSourceLivenessExpiry)) false;
    match r with
    | inl err => mret (mkSweepResult 0 0, [err])
    | inr _ =>
      drop_ref id;;
      '(rn, rerrs) ← removeIncidentRelations id now;
      mret (mkSweepResult 1 rn, rerrs)
    end
  | _ => drop_ref id;; mret (mkSweepResult 0 0, [])
  end.

Fixpoint expire_entities (now : Time) (scopes : gmap string Speakers) (ids : list EntityID)
    : Act (SweepResult * list EngineError) :=
  match ids with
  | [] => mret (mkSweepResult 0 0, [])
  | id :: ids =>
    '(r, errs) ← expire_entity now scopes id;
    '(res, errs') ← expire_entities now scopes ids;
    mret (mkSweepResult (sr_Entities r + sr_Entities res) (sr_Relations r + sr_Relations res), (errs ++ errs')%list)
  end.

(** Display names older than the entity's cadence are forgotten. *)
Definition forget_names (now : Time) (refs : gmap string Speakers) (contested : gmap string contestedNames)
    : gmap string contestedNames :=
  map_imap (λ id c,
    let '(interval, ok) := coarsest (refs_at refs id) in
    let values := if ok : bool then filter (λ va, after now (time_add va.2 interval) = false) (cn_values c)
                  else cn_values c in
    if bool_decide (values = ∅) then None else Some (mkContested (cn_last c) (cn_contested c) values)) contested.

Fixpoint expire_pending (now : Time) (ps : list pendingRelation) : Act (list pendingRelation) :=
  match ps with
  | [] => mret []
  | p :: ps =>
    (if after now (pn_deadline p) then dropPendingRelation (pn_obs p) else mret tt);;
    rest ← expire_pending now ps;
    mret (if after now (pn_deadline p) then rest else p :: rest)
  end.

Fixpoint expire_relations (now : Time) (ids : list RelationID) : Act (Z * list EngineError) :=
  match ids with
  | [] => mret (0%Z, [])
  | id :: ids =>
    rel ← gets (λ e, GetRelation (en_graph e) id);
    '(n, errs) ← (match rel with
      | None => modify (λ e, upd_relRefs (delete id (en_relRefs e)) e);; mret (0%Z, [])
      | Some rel =>
        ev ← relationEvent RelationRemoved rel now DeleteSourceLivenessExpiry;
        r ← commit ev (r_Structural rel);
        match r with
        | inl err => mret (0%Z, [err])
        | inr _ => modify (λ e, upd_relRefs (delete id (en_relRefs e)) e);; mret (1%Z, [])
        end
      end);
    '(n', errs') ← expire_relations now ids;
    mret ((n + n')%Z, (errs ++ errs')%list)
  end.

(** The work of a sweep between opening its batch and flushing it. *)
Definition sweep_stage (now : Time) : Act (SweepResult * list EngineError) :=
  before ← gets en_refs;
  modify (λ e, upd_refs (kept_speakers now <$> en_refs e) e);;
  '(res, errs) ← expire_entities now before (orphans now before);
  modify (λ e, upd_contested (forget_names now (en_refs e) (en_contested e)) e);;
  ps ← gets en_pending;
  (match ps with
   | [] => mret tt
   | _ => kept ← expire_pending now ps; modify (upd_pending kept);; rebuildPendingHashes
   end);;
  relBefore ← gets en_relRefs;
  modify (λ e, upd_relRefs (kept_speakers now <$> en_relRefs e) e);;
  '(n, errs') ← expire_relations now (orphans now relBefore);
  mret (mkSweepResult (sr_Entities res) (sr_Relations res + n), (errs ++ errs')%list).

Definition Sweep : Act (SweepResult * list EngineError) :=
  modify (upd_staged (Some newStaged));;
  now ← now_;
  '(res, errs) ← sweep_stage now;
  st ← gets (λ e, default newStaged (en_staged e));
  ferr ← flushStaged st;
  modify (λ e, upd_aliases (alias_sweep now (en_aliases e)) e);;
  now' ← now_;
  modify (λ e, upd_graph (PruneTombstones now' (en_graph e)).1 e);;
  mret (match ferr with
    | Some err => (mkSweepResult 0 0, (errs ++ [err])%list)
    | None => (res, errs)
    end).

(** *** Batches *)

(** The calls a batch function makes, each free to depend on the results so far, and what
    it does to the state beside the engine that it reaches: read, change, and hand an undo
    to the batch. *)
Inductive BatchOp :=
| BSetScope (scope : string)
| BOnRollback (f : X → X)
| BObserveEntity (obs : EntityObservation)
| BDeleteEntity (obs : EntityObservation)
| BObserveRelation (obs : RelationObservation)
| BRemoveRelation (obs : RelationObservation).

Inductive BatchProg (A : Type) :=
| BDone (a : A)
| BGet (k : X → BatchProg A)
| BSide (f : X → X) (k : BatchProg A)
| BDo (op : BatchOp) (k : option Event * list EngineError → BatchProg A).
#[global] Arguments BDone {A}.
#[global] Arguments BGet {A}.
#[global] Arguments BSide {A}.
#[global] Arguments BDo {A}.
#[export] Instance BatchProg_ret : MRet BatchProg := λ A a, BDone a.
#[export] Instance BatchProg_bind : MBind BatchProg := λ A B f, fix go p :=
  match p with
  | BDone a => f a
  | BGet k => BGet (λ x, go (k x))
  | BSide g k => BSide g (go k)
  | BDo op k => BDo op (λ r, go (k r))
  end.

Definition outcome (r : Outcome) : option Event * list EngineError :=
  (r.1, match r.2 with Some err => [err] | None => [] end).

Definition run_op (op : BatchOp) : Act (option Event * list EngineError) :=
  match op with
  | BSetScope scope => setCurrentScope scope;; mret (None, [])
  | BOnRollback f => on_staged (push_rollback f);; mret (None, [])
  | BObserveEntity obs => r ← observeEntityLocked obs; mret (outcome r)
  | BDeleteEntity obs => deleteEntityLocked obs
  | BObserveRelation obs => r ← observeRelationBuffered obs; mret (outcome r)
  | BRemoveRelation obs => r ← removeRelationLocked obs; mret (outcome r)
  end.

Fixpoint run_batch {A} (p : BatchProg A) : Act A :=
  match p with
  | BDone a => mret a
  | BGet k => x ← gets en_side; run_batch (k x)
  | BSide f k => modify (λ e, upd_side (f (en_side e)) e);; run_batch k
  | BDo op k => r ← run_op op; run_batch (k r)
  end.

Definition Batch {A} (fn : BatchProg A) : Act (A * option EngineError) :=
  modify (upd_staged (Some newStaged));;
  a ← run_batch fn;
  st ← gets (λ e, default newStaged (en_staged e));
  err ← flushStaged st;
  mret (a, err).

(** *** Subscribers *)

Definition Subscribe : Act Z :=
  λ e, (en_subID e, upd_subs (<[en_subID e := []]> (en_subs e)) (upd_subID (en_subID e + 1)%Z e)).
Definition Unsubscribe (id : Z) : Act unit := modify (λ e, upd_subs (delete id (en_subs e)) e).

(** *** Read surfaces *)

Definition AssertingProducers (e : Eng) (id : EntityID) : list string := producersOf (refs_at (en_refs e) id).
Definition AssertingScopes (e : Eng) (id : EntityID) : list string := scopesOf (refs_at (en_refs e) id).
Definition RelationAssertingProducers (e : Eng) (id : RelationID) : list string := producersOf (refs_at (en_relRefs e) id).
Definition RelationAssertingScopes (e : Eng) (id : RelationID) : list string := scopesOf (refs_at (en_relRefs e) id).
Definition AnonymousReferences (e : Eng) (id : EntityID) : Z :=
  Z.of_nat (length (anonymous (refs_at (en_refs e) id))).
Definition AnonymousReferenceEntities (e : Eng) : Z :=
  Z.of_nat (length (base.filter (λ kv, anonymous kv.2 ≠ []) (map_to_list (en_refs e)))).
Definition ObservationInterval (e : Eng) (id : EntityID) : Duration * bool := coarsest (refs_at (en_refs e) id).
Definition ImplausiblePromise (e : Eng) (id : EntityID) : option badPromise := en_badPromises e !! id.
Definition ContestedDisplayNames (e : Eng) : Z :=
  Z.of_nat (length (base.filter (λ kv, cn_contested kv.2 = true) (map_to_list (en_contested e)))).

(** *** Liveness across a restart *)

Record livenessSnapshot := mkLivenessSnapshot {
  ls_Refs : gmap string (gmap string Time);
  ls_RefIntervals : gmap string (gmap string Duration);
  ls_SpeakerKeys : bool;
  ls_RelRefs : gmap string (gmap string Time);
  ls_RelRefIntervals : gmap string (gmap string Duration);
  ls_RelDeadlines : gmap string Time;
  ls_RelIntervals : gmap string Duration;
}.

Definition LivenessBlob (e : Eng) : livenessSnapshot :=
  let deadlines (m : gmap string Speakers) := (λ sp : Speakers, lr_deadline <$> sp) <$> m in
  let intervals (m : gmap string Speakers) := (λ sp : Speakers, lr_interval <$> sp) <$> m in
  mkLivenessSnapshot (deadlines (en_refs e)) (intervals (en_refs e)) true
    (deadlines (en_relRefs e)) (intervals (en_relRefs e)) ∅ ∅.

Definition carriesAnyCompositeKey (snap : livenessSnapshot) : bool :=
  let composite (m : gmap string (gmap string Time)) :=
    existsb (λ kv, existsb (λ kd, negb (bool_decide ((splitRefKey kd.1).2 = ""))) (map_to_list kv.2)) (map_to_list m) in
  composite (ls_Refs snap) || composite (ls_RelRefs snap).

(** The declared interval of a stored reference; missing is zero. *)
Definition interval_of (m : gmap string (gmap string Duration)) (id key : string) : Duration :=
  default 0%Z (default ∅ (m !! id) !! key).

(** One entity's references: each interval is judged anew. *)
Fixpoint restore_speakers (legacy : bool) (intervals : gmap string (gmap string Duration)) (now : Time) (id : string)
    (ps : list (string * Time)) : Act Speakers :=
  match ps with
  | [] => mret ∅
  | (p, deadline) :: ps =>
    let interval := interval_of intervals id p in
    let '(producer, scope) := splitRefKey p in
    kept ← promise id "" producer interval;
    let deadline := if (kept =? 0)%Z && (0 <? interval)%Z then zero_time else deadline in
    rest ← restore_speakers legacy intervals now id ps;
    mret (<[p := mkLiveRef (floorDeadline deadline kept now) kept (legacy && bool_decide (scope = ""))]> rest)
  end.

Fixpoint restore_refs (legacy : bool) (intervals : gmap string (gmap string Duration)) (now : Time)
    (l : list (string * gmap string Time)) : Act unit :=
  match l with
  | [] => mret tt
  | (id, producers) :: l =>
    ps ← restore_speakers legacy intervals now id (map_to_list producers);
    modify (λ e, upd_refs (<[id := ps]> (en_refs e)) e);;
    restore_refs legacy intervals now l
  end.

(** An edge's references are taken as they are, floored. *)
Definition restore_rel (legacy : bool) (snap : livenessSnapshot) (now : Time) (id : string) (producers : gmap string Time) : Speakers :=
  map_imap (λ p deadline, let interval := interval_of (ls_RelRefIntervals snap) id p in
    Some (mkLiveRef (floorDeadline deadline interval now) interval
            (legacy && bool_decide ((splitRefKey p).2 = "")))) producers.

Definition RestoreLiveness (snap : livenessSnapshot) : Act unit :=
  now ← now_;
  let legacy := negb (ls_SpeakerKeys snap) && negb (carriesAnyCompositeKey snap) in
  restore_refs legacy (ls_RefIntervals snap) now (map_to_list (ls_Refs snap));;
  modify (λ e, upd_relRefs (map_imap (λ id ps, Some (restore_rel legacy snap now id ps)) (ls_RelRefs snap) ∪ en_relRefs e) e);;
  modify (λ e, upd_relRefs (en_relRefs e ∪ map_imap (λ id deadline,
    let interval := default 0%Z (ls_RelIntervals snap !! id) in
    Some {["" := mkLiveRef (floorDeadline deadline interval now) interval false]}) (ls_RelDeadlines snap)) e).
End engine.

(** [New]: an engine over a graph and a log, nothing observed yet. *)
Definition New_engine {W X} (g : Graph) (w : W) (x : X) (ttl : Duration) : Engine W X :=
  mkEngine g w x 0 0 (mkReporters true true true) [] ∅ ttl [] ∅ ∅ ∅ ∅ newIdentityAliasIndex None ∅ 0.

Arguments BatchOp : clear implicits.
Arguments BatchProg : clear implicits.
#[global] Arguments staged_apply : simpl never.
#[global] Arguments track : simpl never.
