(* ===== verification/EngineInv.v ===== *)
(** * The engine's invariant

    What holds of the engine between any two of its calls, inside a batch and
    outside: the projection's indexes are exact, the staged overlay previews the
    projection the flush will produce, ids not yet drawn are unused. *)
From S2P Require Import Prelude GoStd Values Vocabulary Entities Events DisplayNames.
From S2P Require Import Speakers Observations Aliases Projection ProjectionInv Engine.

(** ** What the engine relies on *)

(** A clock that has started, and ids that are never repeated nor empty. *)
Class HostLaws `{Host} : Prop := {
  clock_started : ∀ n, is_zero (clock n) = false;
  ulid_inj : ∀ n m, ulid n = ulid m → n = m;
  ulid_nonempty : ∀ n, ulid n ≠ "";
}.

(** An event but for the sequence number the log stamps on it. *)
Definition unstamp (ev : Event) : Event :=
  mkEvent
    ((λ ee, mkEntityEvent (ee_EventID ee) (ee_ChangeType ee) (ee_Entity ee) (ee_EventTime ee) (ee_RecordedAt ee) 0
       (ee_Scope ee) (ee_SchemaVersion ee) (ee_ChangedKeys ee) (ee_DeleteReason ee) (ee_DeleteSource ee)) <$> ev_Entity ev)
    ((λ re, mkRelationEvent (re_EventID re) (re_ChangeType re) (re_Relation re) (re_EventTime re) (re_RecordedAt re) 0
       (re_Scope re) (re_SchemaVersion re) (re_ChangedKeys re) (re_DeleteSource re)) <$> ev_Relation ev).
Definition same_event (ev ev' : Event) : Prop := unstamp ev = unstamp ev'.

(** An append is all or nothing: the events, stamped, at the end of the log, or
    the log as it was. *)
Class AppenderLaws (W : Type) `{!Appender W} := {
  logged : W → list Event;
  append_ok : ∀ evs w w' evs', Append evs w = (w', inr evs') →
    logged w' = (logged w ++ evs')%list ∧ Forall2 same_event evs evs';
  append_failed : ∀ evs w w' msg, Append evs w = (w', inl msg) → logged w' = logged w;
}.

(** ** The abstract projection *)

(** What the log means: the live entities and the relations. *)
Definition Abs : Type := gmap string Entity * gmap string Relation.
Definition abs (g : Graph) : Abs := (live g, g_relations g).

Definition astep (a : Abs) (ev : Event) : Abs :=
  match ev_Entity ev, ev_Relation ev with
  | Some ee, _ =>
    let e := ee_Entity ee in
    match ee_ChangeType ee with
    | EntityCreated | EntityIdentityChanged | EntityAttributeUpdated | EntityStateChanged =>
      (<[e_ID e := e]> a.1, a.2)
    | EntityDeleted => (delete (e_ID e) a.1, a.2)
    | _ => a
    end
  | None, Some re =>
    let r := re_Relation re in
    match re_ChangeType re with
    | RelationAdded | RelationAttributeChanged => (a.1, <[r_ID r := r]> a.2)
    | RelationRemoved => (a.1, delete (r_ID r) a.2)
    | _ => a
    end
  | None, None => a
  end.

(** The event's recording instant is set. *)
Definition dated (ev : Event) : Prop :=
  match ev_Entity ev with Some ee => is_zero (ee_RecordedAt ee) = false | None => True end.

(** ** The projection, event by event *)

Lemma apply_same_event now ev ev' g : same_event ev ev' → Apply now ev g = Apply now ev' g.
Proof.
  destruct ev as [[ee|] re], ev' as [[ee'|] re']; unfold same_event, unstamp; simpl; try done.
  - destruct ee, ee'. intros [=]. subst. done.
  - destruct re as [re|], re' as [re'|]; try done. destruct re, re'. intros [=]. subst. done.
Qed.

Lemma same_event_entity ev ev' ee : same_event ev ev' → ev_Entity ev = Some ee →
  ∃ ee', ev_Entity ev' = Some ee' ∧ ee_Entity ee' = ee_Entity ee ∧ ee_ChangeType ee' = ee_ChangeType ee ∧
    ee_ChangedKeys ee' = ee_ChangedKeys ee.
Proof.
  destruct ev as [[x|] re], ev' as [[y|] re']; unfold same_event, unstamp; simpl; try done.
  intros H [= ->]. exists y. destruct ee, y. simpl in *. injection H. intros. by subst.
Qed.

Lemma dated_same_event ev ev' : same_event ev ev' → dated ev → dated ev'.
Proof.
  destruct ev as [[ee|] re], ev' as [[ee'|] re']; unfold same_event, unstamp, dated; simpl; try done.
  destruct ee, ee'. intros [=]. by subst.
Qed.

Lemma astep_same_event a ev ev' : same_event ev ev' → astep a ev = astep a ev'.
Proof.
  destruct ev as [[ee|] re], ev' as [[ee'|] re']; unfold same_event, unstamp; simpl; try done.
  - destruct ee, ee'. intros [=]. subst. done.
  - destruct re as [re|], re' as [re'|]; try done. destruct re, re'. intros [=]. subst. done.
Qed.

(** A dated event has the same effect whenever it is applied. *)
Lemma apply_dated now now' ev g : dated ev → Apply now ev g = Apply now' ev g.
Proof.
  unfold dated, Apply, applyEntity, deleteEntity. destruct (ev_Entity ev) as [ee|]; [|done].
  intros ->. done.
Qed.

(** The live entities after a deletion, with the cap enforced. *)
Lemma evict_live q g : live (evict_loop q g) = live g ∧ g_entities (evict_loop q g) ⊆ g_entities g ∧
  g_deleted (evict_loop q g) ⊆ g_deleted g ∧ g_relations (evict_loop q g) = g_relations g.
Proof.
  revert g. induction q as [|id q IH]; intros g; cbn [evict_loop]; [done|].
  destruct (_ <? _)%Z; [|done]. case_bool_decide as Hin; [|apply IH].
  destruct (IH (dropTombstone id g)) as (-> & HE & HD & ->).
  rewrite drop_live //. rewrite drop_entities in HE. rewrite drop_deleted in HD.
  split_and!; [done|etrans; [exact HE|apply delete_subseteq]|set_solver|apply drop_frame].
Qed.

Lemma delete_effect now ee g :
  live (deleteEntity now ee g) = delete (e_ID (ee_Entity ee)) (live g) ∧
  g_entities (deleteEntity now ee g) ⊆ g_entities g ∧
  g_deleted (deleteEntity now ee g) ⊆ {[e_ID (ee_Entity ee)]} ∪ g_deleted g ∧
  g_relations (deleteEntity now ee g) = g_relations g.
Proof.
  destruct (deleteEntity_mark now ee g) as [[-> _]|[-> _]].
  - rewrite mark_live mark_entities mark_del. split_and!; try done. apply mark_frame.
  - unfold evictTombstones. destruct (evict_live (g_tombstones (mark_deleted now ee g)) (mark_deleted now ee g)) as (-> & HE & HD & ->).
    rewrite mark_live. rewrite mark_entities in HE. rewrite mark_del in HD.
    split_and!; [done|done|done|apply mark_frame].
Qed.

(** A heartbeat names a live entity. *)
Definition heartbeat_ok (g : Graph) (ev : Event) : Prop :=
  match ev_Entity ev with
  | Some ee => ee_ChangeType ee = EntityUnchanged → is_Some (live g !! e_ID (ee_Entity ee))
  | None => True
  end.

(** [Apply] refines the abstract step. *)
Lemma apply_abs now ev g : heartbeat_ok g ev → abs (Apply now ev g) = astep (abs g) ev.
Proof.
  unfold heartbeat_ok, abs, Apply, astep, applyEntity, applyRelation.
  destruct (ev_Entity ev) as [ee|].
  - destruct (ee_ChangeType ee); intros Hhb; try done.
    + by rewrite put_live (proj1 (put_frame _ _)).
    + destruct (delete_effect now ee g) as (-> & _ & _ & ->). done.
    + fold (unhash (ee_Entity ee) g). rewrite put_live (proj1 (put_frame _ _)).
      destruct (unhash_frame (ee_Entity ee) g) as (_ & _ & -> & _ & _ & _ & _ & -> & _). done.
    + by rewrite put_live (proj1 (put_frame _ _)).
    + by rewrite put_live (proj1 (put_frame _ _)).
    + destruct Hhb as [x [Hx _]%live_lookup]; [done|]. by rewrite Hx.
  - intros _. destruct (ev_Relation ev) as [re|]; [|done].
    destruct (re_ChangeType re); try done.
Qed.

(** Along a log the changes are of the kinds the projection acts on, and heartbeats name
    things that are live by then. *)
Definition abeat (a : Abs) (ev : Event) : Prop :=
  match ev_Entity ev with
  | Some ee =>
    ee_ChangeType ee ∈ [EntityCreated; EntityDeleted; EntityIdentityChanged; EntityAttributeUpdated; EntityStateChanged; EntityUnchanged] ∧
    (ee_ChangeType ee = EntityUnchanged → is_Some (a.1 !! e_ID (ee_Entity ee)))
  | None => True
  end.
Fixpoint abeats (a : Abs) (evs : list Event) : Prop :=
  match evs with
  | [] => True
  | ev :: evs => abeat a ev ∧ abeats (astep a ev) evs
  end.

Lemma abeats_app a evs evs' : abeats a (evs ++ evs')%list ↔ abeats a evs ∧ abeats (foldl astep a evs) evs'.
Proof. revert a. induction evs as [|ev evs IH]; intros a; simpl; [tauto|]. rewrite IH. tauto. Qed.

Lemma abeat_same_event a ev ev' : same_event ev ev' → abeat a ev → abeat a ev'.
Proof.
  destruct ev as [[ee|] re], ev' as [[ee'|] re']; unfold same_event, unstamp, abeat; simpl; try done.
  destruct ee, ee'. intros [=]. by subst.
Qed.

Lemma abeats_same_events a evs evs' : Forall2 same_event evs evs' → abeats a evs → abeats a evs'.
Proof.
  intros HF. revert a. induction HF as [|ev ev' evs evs' Hs _ IH]; intros a; [done|]. simpl. intros [Hb Hbs].
  split; [by eapply abeat_same_event|]. rewrite -(astep_same_event _ _ _ Hs). auto.
Qed.

(** Such a log replays to what it means. *)
Lemma replay_abs now evs g : abeats (abs g) evs → abs (Replay now evs g) = foldl astep (abs g) evs.
Proof.
  unfold Replay. revert g. induction evs as [|ev evs IH]; intros g; simpl; [done|]. intros [Hb Hbs].
  assert (heartbeat_ok g ev) by (unfold heartbeat_ok; unfold abeat in Hb; destruct (ev_Entity ev); [apply Hb|done]).
  rewrite IH apply_abs //.
Qed.

(** ** The invariant *)

(** The part of the projection's invariant the engine keeps by itself; exact
    adjacency needs in addition that no two edges share a relation id. *)
Record core (g : Graph) : Prop := {
  cr_entities : wf_entities g;
  cr_queue : wf_queue g;
  cr_relations : keyed r_ID (g_relations g);
}.

(** Two live entities with one identity are one. *)
Lemma live_unique g id id' e e' :
  wf_entities g → live g !! id = Some e → live g !! id' = Some e' → IdentityHash e = IdentityHash e' → id = id'.
Proof.
  intros Hwf H1 H2 Hh.
  assert (g_byHash g !! IdentityHash e = Some id) by (apply (wf_byHash _ Hwf); eauto).
  assert (g_byHash g !! IdentityHash e = Some id') by (apply (wf_byHash _ Hwf); rewrite Hh; eauto).
  congruence.
Qed.

Lemma match_live g typ identity id : wf_entities g →
  MatchIdentity g typ identity = Some id ↔ ∃ e, live g !! id = Some e ∧ IdentityHash e = identity_hash typ identity.
Proof.
  intros Hwf. rewrite -(wf_byHash _ Hwf). unfold MatchIdentity, is_deleted.
  destruct (g_byHash g !! _) as [i|] eqn:Hi; [|done]. case_bool_decide; [|done].
  apply (wf_byHash _ Hwf) in Hi as (e & [_ ?]%live_lookup & _). done.
Qed.

(** The overlay [st] over [g] reads as [g']. *)
Record overlay {X} (g : Graph) (st : Staged X) (g' : Graph) : Prop := {
  ov_live : ∀ id, live g' !! id = if bool_decide (id ∈ st_deleted st) then None
    else match st_entities st !! id with Some e => Some e | None => live g !! id end;
  ov_relations : ∀ id, g_relations g' !! id = if bool_decide (id ∈ st_relRemoved st) then None
    else match st_relations st !! id with Some r => Some r | None => g_relations g !! id end;
  ov_keyed : keyed r_ID (st_relations st);
  ov_standing : ∀ id, id ∈ st_relRemoved st → st_relations st !! id = None;
  ov_hash : ∀ id e e', g_entities g !! id = Some e → g_entities g' !! id = Some e' → IdentityHash e = IdentityHash e';
  ov_claimed : ∀ h id, st_byHash st !! h = Some id →
    ∀ id' e', live g' !! id' = Some e' → IdentityHash e' = h → id' = id;
  ov_named : ∀ h id, st_byHash st !! h = Some id → id ∉ st_deleted st →
    ∃ e, live g' !! id = Some e ∧ IdentityHash e = h;
  ov_found : ∀ id e, live g' !! id = Some e →
    st_byHash st !! IdentityHash e = Some id ∨ ∃ e0, live g !! id = Some e0 ∧ IdentityHash e0 = IdentityHash e;
}.

Lemma overlay_new {X} g : core g → overlay g (newStaged : Staged X) g.
Proof.
  intros Hc. split; simpl.
  - intros id. rewrite lookup_empty. by rewrite bool_decide_eq_false_2; [|set_solver].
  - intros id. rewrite lookup_empty. by rewrite bool_decide_eq_false_2; [|set_solver].
  - intros k r. by rewrite lookup_empty.
  - set_solver.
  - intros id e e' H1 H2. congruence.
  - intros h id. by rewrite lookup_empty.
  - intros h id. by rewrite lookup_empty.
  - eauto.
Qed.

(** The events the engine commits, over a base [g] with the ids [D] deleted by
    the batch and the view [g']. *)
Definition admissible (g : Graph) (D : gset string) (g' : Graph) (ev : Event) : Prop :=
  match ev_Entity ev, ev_Relation ev with
  | Some ee, _ =>
    let e := ee_Entity ee in
    is_zero (ee_RecordedAt ee) = false ∧
    match ee_ChangeType ee with
    | EntityCreated => entity_ok g' e ∧ e_ID e ∉ D ∧
        ∀ e0, g_entities g !! e_ID e = Some e0 → IdentityHash e0 = IdentityHash e
    | EntityAttributeUpdated | EntityStateChanged =>
        ∃ e1, live g' !! e_ID e = Some e1 ∧ IdentityHash e1 = IdentityHash e
    | EntityUnchanged => is_Some (live g' !! e_ID e)
    | EntityDeleted => deletion_ok g' e
    | _ => False
    end
  | None, Some _ => True
  | None, None => False
  end.

Lemma admissible_dated g D g' ev : admissible g D g' ev → dated ev.
Proof. unfold admissible, dated. destruct (ev_Entity ev); [naive_solver|done]. Qed.

Lemma admissible_heartbeat g D g' ev : admissible g D g' ev → heartbeat_ok g' ev.
Proof. unfold admissible, heartbeat_ok. destruct (ev_Entity ev) as [ee|]; [|done]. intros [_ H] Hu. by rewrite Hu in H. Qed.

Lemma admissible_abeat g D g' ev : admissible g D g' ev → abeat (abs g') ev.
Proof.
  unfold admissible, abeat. destruct (ev_Entity ev) as [ee|]; [|done]. intros [_ Hk].
  destruct (ee_ChangeType ee); try done; (split; [set_solver|done]).
Qed.

Lemma update_ok g' e : core g' → (∃ e1, live g' !! e_ID e = Some e1 ∧ IdentityHash e1 = IdentityHash e) → entity_ok g' e.
Proof.
  intros Hc (e1 & Hl & Hh). pose proof Hl as [He _]%live_lookup. split; [naive_solver|].
  intros id' (e2 & Hl2 & Hh2)%(wf_byHash _ (cr_entities _ Hc)).
  eapply (live_unique g'); eauto; [by apply Hc|congruence].
Qed.

Lemma put_core e g : core g → entity_ok g e → core (putEntity e g).
Proof.
  intros [HE HQ HR] Hok. split; [by apply put_wf_entities| |by rewrite (proj1 (put_frame e g))].
  destruct HQ as [Hq Hcap Hb]. destruct (put_frame e g) as (_ & _ & _ & EQ & EC & _). split.
  - intros id. rewrite put_deleted EQ. set_solver.
  - by rewrite EC.
  - rewrite EC put_live_count. case_bool_decide; lia.
Qed.

Lemma delete_core now ee g : core g → deletion_ok g (ee_Entity ee) → core (deleteEntity now ee g).
Proof.
  intros [HE HQ HR] Hok. pose proof (mark_wf_entities now _ _ HE Hok) as HE'.
  destruct (delete_effect now ee g) as (_ & _ & _ & ER).
  destruct (delete_wf_core now ee g HE HQ Hok) as [H1 H2]. by split; [..|rewrite ER].
Qed.

Lemma relation_core re g : core g → core (applyRelation re g).
Proof.
  intros [HE [Hq Hcap Hb] HR]. unfold applyRelation. destruct (re_ChangeType re); try done;
    (split; [by apply (wf_entities_ext g)|by split|]); simpl; intros k r;
    rewrite ?lookup_insert ?lookup_delete; case_decide; naive_solver.
Qed.

Lemma core_apply now g D g' ev : core g' → admissible g D g' ev → core (Apply now ev g').
Proof.
  unfold admissible, Apply, applyEntity. destruct (ev_Entity ev) as [ee|].
  - intros Hc [_ Hok]. destruct (ee_ChangeType ee); try done.
    + apply put_core; [done|by apply Hok].
    + by apply delete_core.
    + apply put_core; [done|]. by apply update_ok.
    + apply put_core; [done|]. by apply update_ok.
    + destruct Hok as [x [Hx _]%live_lookup]. by rewrite Hx.
  - destruct (ev_Relation ev); [|done]. intros Hc _. by apply relation_core.
Qed.

(** *** The overlay previews the projection *)

Section overlay_step.
Context {X : Type} (g g' : Graph) (st : Staged X) (Hg : core g) (Hg' : core g') (Hov : overlay g st g').

(** An overlay with the events, scope and rollbacks changed reads the same. *)
Lemma overlay_push ev hp : overlay g (push_event ev hp st) g'.
Proof. by destruct Hov. Qed.

Lemma overlay_created e : entity_ok g' e → e_ID e ∉ st_deleted st →
  (∀ e0, g_entities g !! e_ID e = Some e0 → IdentityHash e0 = IdentityHash e) →
  overlay g (mkStaged (st_events st) (st_scope st) (<[e_ID e := e]> (st_entities st)) (st_deleted st ∖ {[e_ID e]})
    (<[IdentityHash e := e_ID e]> (st_byHash st)) (st_relations st) (st_relRemoved st) (st_rollbacks st))
    (putEntity e g').
Proof.
  intros Hok HD Hbase. destruct Hov as [VL VR VK VS VH VC VN VF].
  pose proof (cr_entities _ (put_core e g' Hg' Hok)) as Hwf.
  assert (live (putEntity e g') !! e_ID e = Some e) as Hself by (rewrite put_live; apply lookup_insert_eq).
  split; simpl.
  - intros id. rewrite put_live !lookup_insert. case_decide as Hid; subst.
    + by rewrite bool_decide_eq_false_2; [|set_solver].
    + rewrite VL. by rewrite (bool_decide_ext (id ∈ st_deleted st ∖ _) (id ∈ st_deleted st)); [|set_solver].
  - intros id. by rewrite (proj1 (put_frame e g')).
  - done.
  - done.
  - intros id e1 e2. rewrite put_entities lookup_insert. case_decide; subst; naive_solver.
  - intros h id. rewrite lookup_insert. case_decide as Hh; subst.
    + intros [= <-] id' e' Hl Hh. by eapply (live_unique _ _ _ _ _ Hwf).
    + intros Hb id' e'. rewrite put_live lookup_insert. case_decide; subst; [naive_solver|]. eauto.
  - intros h id. rewrite lookup_insert. case_decide as Hh; subst; [intros [= <-] _; eauto|].
    intros Hb Hd. rewrite put_live. setoid_rewrite lookup_insert. destruct (decide (e_ID e = id)) as [<-|Hid].
    + destruct (VN _ _ Hb HD) as (e1 & [He1 _]%live_lookup & <-). destruct Hh. symmetry. by apply Hok.
    + apply VN; [done|]. set_solver.
  - intros id e1 Hl. destruct (decide (IdentityHash e = IdentityHash e1)) as [Hh|Hh].
    + left. rewrite -Hh lookup_insert_eq. f_equal. by eapply (live_unique _ _ _ _ _ Hwf).
    + rewrite lookup_insert_ne; [|done]. apply VF. rewrite put_live lookup_insert in Hl.
      case_decide; naive_solver.
Qed.

Lemma overlay_updated e : (∃ e1, live g' !! e_ID e = Some e1 ∧ IdentityHash e1 = IdentityHash e) →
  overlay g (mkStaged (st_events st) (st_scope st) (<[e_ID e := e]> (st_entities st)) (st_deleted st)
    (st_byHash st) (st_relations st) (st_relRemoved st) (st_rollbacks st)) (putEntity e g').
Proof.
  intros (e1 & Hl1 & Hh1). destruct Hov as [VL VR VK VS VH VC VN VF].
  assert (e_ID e ∉ st_deleted st) as HD.
  { intros Hin. rewrite VL bool_decide_eq_true_2 in Hl1; done. }
  (* the same identities are live *)
  assert (∀ id x, live (putEntity e g') !! id = Some x → ∃ y, live g' !! id = Some y ∧ IdentityHash y = IdentityHash x) as Hback.
  { intros id x. rewrite put_live lookup_insert. case_decide; subst; [|eauto]. intros [= <-]. eauto. }
  assert (∀ id x, live g' !! id = Some x → ∃ y, live (putEntity e g') !! id = Some y ∧ IdentityHash y = IdentityHash x) as Hforth.
  { intros id x. rewrite put_live lookup_insert. case_decide; subst; naive_solver. }
  split; simpl.
  - intros id. rewrite put_live !lookup_insert. case_decide as Hid; subst; [|apply VL].
    by rewrite bool_decide_eq_false_2.
  - intros id. by rewrite (proj1 (put_frame e g')).
  - done.
  - done.
  - intros id x y Hx. rewrite put_entities lookup_insert. case_decide; subst; [|eauto].
    intros [= <-]. rewrite -Hh1. apply live_lookup in Hl1 as [He1 _]. eauto.
  - intros h id Hb id' x (y & Hy & Hxy)%Hback Hh. eapply VC; eauto. congruence.
  - intros h id Hb Hd. destruct (VN _ _ Hb Hd) as (x & (y & Hy & Hxy)%Hforth & <-). eauto.
  - intros id x (y & Hy & Hxy)%Hback. rewrite -Hxy. by apply VF.
Qed.

Lemma overlay_deleted now ee :
  overlay g (mkStaged (st_events st) (st_scope st) (st_entities st) ({[e_ID (ee_Entity ee)]} ∪ st_deleted st)
    (st_byHash st) (st_relations st) (st_relRemoved st) (st_rollbacks st)) (deleteEntity now ee g').
Proof.
  destruct Hov as [VL VR VK VS VH VC VN VF]. destruct (delete_effect now ee g') as (EL & EE & _ & ER).
  set (i := e_ID (ee_Entity ee)) in *. split; simpl.
  - intros id. rewrite EL lookup_delete. case_decide; subst.
    + by rewrite bool_decide_eq_true_2; [|set_solver].
    + rewrite VL. by rewrite (bool_decide_ext (id ∈ {[i]} ∪ _) (id ∈ st_deleted st)); [|set_solver].
  - intros id. by rewrite ER.
  - done.
  - done.
  - intros id x y Hx Hy. eapply VH; [done|]. by eapply lookup_weaken.
  - intros h id Hb id' x. rewrite EL lookup_delete_Some. intros [_ Hl]. eauto.
  - intros h id Hb Hd. destruct (VN _ _ Hb) as (x & Hx & Hh); [set_solver|].
    exists x. rewrite EL lookup_delete_ne; [done|set_solver].
  - intros id x. rewrite EL lookup_delete_Some. intros [_ Hl]. by apply VF.
Qed.

Lemma overlay_relation re : overlay g (staged_apply (relation_event re) st) (applyRelation re g').
Proof.
  destruct Hov as [VL VR VK VS VH VC VN VF]. destruct st as [evs sc ents del bh rels rem rb].
  unfold staged_apply, applyRelation. simpl in *.
  destruct (re_ChangeType re); try (by split); split; simpl; try done; intros id.
  - rewrite !lookup_insert. case_decide; subst; [by rewrite bool_decide_eq_false_2; [|set_solver]|].
    rewrite VR. by rewrite (bool_decide_ext (id ∈ rem ∖ _) (id ∈ rem)); [|set_solver].
  - intros r. rewrite lookup_insert. case_decide; naive_solver.
  - rewrite lookup_insert. case_decide; set_solver.
  - rewrite !lookup_delete. case_decide; subst; [by rewrite bool_decide_eq_true_2; [|set_solver]|].
    rewrite VR. by rewrite (bool_decide_ext (id ∈ _ ∪ rem) (id ∈ rem)); [|set_solver].
  - intros r. rewrite lookup_delete. case_decide; naive_solver.
  - rewrite lookup_delete. case_decide; set_solver.
  - rewrite !lookup_insert. case_decide; subst; [by rewrite bool_decide_eq_false_2; [|set_solver]|].
    rewrite VR. by rewrite (bool_decide_ext (id ∈ rem ∖ _) (id ∈ rem)); [|set_solver].
  - intros r. rewrite lookup_insert. case_decide; naive_solver.
  - rewrite lookup_insert. case_decide; set_solver.
Qed.

Lemma overlay_apply now ev : admissible g (st_deleted st) g' ev →
  overlay g (staged_apply ev st) (Apply now ev g').
Proof.
  unfold admissible, Apply, applyEntity, staged_apply. destruct ev as [[ee|] re]; simpl.
  - intros [_ Hok]. pose proof overlay_created (ee_Entity ee) as H1. pose proof overlay_updated (ee_Entity ee) as H2.
    pose proof overlay_deleted now ee as H3. destruct st as [evs sc ents del bh rels rem rb]. simpl in *.
    destruct (ee_ChangeType ee); try done.
    + destruct Hok as (? & ? & ?). by apply H1.
    + by apply H2.
    + by apply H2.
    + destruct Hok as [x [Hx _]%live_lookup]. by rewrite Hx.
  - destruct re as [re|]; [|done]. intros _. exact (overlay_relation re).
Qed.
End overlay_step.
