(* ===== verification/EngineSound.v ===== *)
(** * Every engine call keeps the invariant and follows the log

    The invariant [good] is kept by each call, and what the projection and the
    subscribers see advances exactly by what the log durably gained. *)
From S2P Require Import Prelude GoStd Values Vocabulary Entities Events DisplayNames.
From S2P Require Import Speakers Observations Aliases Projection ProjectionInv Engine EngineInv.
#[local] Open Scope nat_scope.

Section sound.
Context {W X : Type} `{!Host} `{!HostLaws} `{!Appender W} `{!AppenderLaws W}.
#[local] Abbreviation Eng := (Engine W X).
#[local] Abbreviation Act := (M W X).
Implicit Types e : Eng.

(** The projection as the calls of a batch see it. *)
Definition vgraph (e : Eng) : Graph :=
  match en_staged e with
  | Some st => foldl (λ g ev, Apply 0 ev g) (en_graph e) (st_events st).*1
  | None => en_graph e
  end.

Definition sdeleted (e : Eng) : gset string := match en_staged e with Some st => st_deleted st | None => ∅ end.

(** Ids not drawn yet name nothing. *)
Definition unused (n : nat) (g : Graph) : Prop :=
  ∀ m, n ≤ m → g_entities g !! ulid m = None ∧ ulid m ∉ g_deleted g.

Record good (e : Eng) : Prop := {
  gd_core : core (en_graph e);
  gd_vcore : core (vgraph e);
  gd_unused : unused (en_ids e) (en_graph e);
  gd_vunused : unused (en_ids e) (vgraph e);
  gd_dunused : ∀ m, en_ids e ≤ m → ulid m ∉ sdeleted e;
  gd_overlay : ∀ st, en_staged e = Some st → overlay (en_graph e) st (vgraph e);
  gd_dated : ∀ st, en_staged e = Some st → Forall dated (st_events st).*1;
  gd_abs : ∀ st, en_staged e = Some st →
    abs (vgraph e) = foldl astep (abs (en_graph e)) (st_events st).*1;
  gd_beats : ∀ st, en_staged e = Some st → abeats (abs (en_graph e)) (st_events st).*1;
}.

(** *** Calls that touch neither the log nor what is seen of it *)

Definition same_staged (s s' : option (Staged X)) : Prop :=
  match s, s' with
  | None, None => True
  | Some st, Some st' =>
    st_events st' = st_events st ∧ st_entities st' = st_entities st ∧ st_deleted st' = st_deleted st ∧
    st_byHash st' = st_byHash st ∧ st_relations st' = st_relations st ∧ st_relRemoved st' = st_relRemoved st
  | _, _ => False
  end.

Record quiet (e e' : Eng) : Prop := {
  qu_graph : en_graph e' = en_graph e;
  qu_log : en_log e' = en_log e;
  qu_subs : en_subs e' = en_subs e;
  qu_staged : same_staged (en_staged e) (en_staged e');
  qu_ids : en_ids e ≤ en_ids e';
}.

#[global] Instance quiet_preorder : PreOrder quiet.
Proof.
  split.
  - intros e. split; try done. unfold same_staged. by destruct (en_staged e).
  - intros e1 e2 e3 [] []. split; try congruence; [|lia]. unfold same_staged in *.
    destruct (en_staged e1), (en_staged e2), (en_staged e3); try done. intuition congruence.
Qed.

Lemma quiet_vgraph e e' : quiet e e' → vgraph e' = vgraph e ∧ sdeleted e' = sdeleted e.
Proof.
  intros [Hg _ _ Hs _]. unfold vgraph, sdeleted, same_staged in *. rewrite Hg.
  destruct (en_staged e), (en_staged e'); try done. by destruct Hs as (-> & _ & -> & _).
Qed.

Lemma quiet_good e e' : quiet e e' → good e → good e'.
Proof.
  intros Hq [H1 H2 H3 H4 H5 H6 H7 H8 H9]. pose proof (quiet_vgraph _ _ Hq) as [EV ED].
  destruct Hq as [Hg _ _ Hs Hi]. split; rewrite ?EV ?ED ?Hg; try done.
  - intros m Hm. apply H3. lia.
  - intros m Hm. apply H4. lia.
  - intros m Hm. apply H5. lia.
  - intros st' Hst'. unfold same_staged in Hs. rewrite Hst' in Hs. destruct (en_staged e) as [st|]; [|done].
    destruct Hs as (E1 & E2 & E3 & E4 & E5 & E6). destruct (H6 st eq_refl).
    split; rewrite ?E2 ?E3 ?E4 ?E5 ?E6; done.
  - intros st' Hst'. unfold same_staged in Hs. rewrite Hst' in Hs. destruct (en_staged e) as [st|]; [|done].
    destruct Hs as (-> & _). by apply H7.
  - intros st' Hst'. unfold same_staged in Hs. rewrite Hst' in Hs. destruct (en_staged e) as [st|]; [|done].
    destruct Hs as (-> & _). by apply H8.
  - intros st' Hst'. unfold same_staged in Hs. rewrite Hst' in Hs. destruct (en_staged e) as [st|]; [|done].
    destruct Hs as (-> & _). by apply H9.
Qed.

(** *** Advancing *)

(** Outside a batch: the log gained [evs], the projection and every subscriber
    followed. Inside: nothing moved but the batch's own events. *)
Definition advance (e e' : Eng) : Prop :=
  match en_staged e, en_staged e' with
  | None, None => ∃ evs,
    logged (en_log e') = (logged (en_log e) ++ evs.*1)%list ∧
    abs (en_graph e') = foldl astep (abs (en_graph e)) evs.*1 ∧
    en_subs e' = (λ inbox, inbox ++ evs)%list <$> en_subs e ∧
    abeats (abs (en_graph e)) evs.*1
  | Some st, Some st' =>
    en_graph e' = en_graph e ∧ en_log e' = en_log e ∧ en_subs e' = en_subs e ∧
    ∃ evs, st_events st' = (st_events st ++ evs)%list
  | _, _ => False
  end.

#[global] Instance advance_preorder : PreOrder advance.
Proof.
  split.
  - intros e. unfold advance. destruct (en_staged e) as [st|].
    + split_and!; try done. exists []. by rewrite app_nil_r.
    + exists []. simpl. rewrite app_nil_r. split_and!; try done.
      rewrite -{1}(map_fmap_id (en_subs e)). apply map_fmap_ext. intros i l _. by rewrite app_nil_r.
  - intros e1 e2 e3. unfold advance. destruct (en_staged e1), (en_staged e2), (en_staged e3); try done.
    + intros (-> & -> & -> & evs & ->) (-> & -> & -> & evs' & ->). split_and!; try done.
      exists (evs ++ evs')%list. by rewrite app_assoc.
    + intros (evs & HL & HA & HS & HB) (evs' & HL' & HA' & HS' & HB'). exists (evs ++ evs')%list. rewrite HA in HB'.
      rewrite HL' HL HA' HA HS' HS fmap_app foldl_app app_assoc. split_and!; try done; [|by apply abeats_app].
      rewrite -map_fmap_compose. apply map_fmap_ext. intros i l _. simpl. by rewrite app_assoc.
Qed.

Lemma quiet_advance e e' : quiet e e' → advance e e'.
Proof.
  intros Hq. assert (advance e e) as Hr by reflexivity. destruct Hq as [Hg Hl Hs Hst _].
  unfold advance, same_staged in *. rewrite Hg Hl Hs. destruct (en_staged e) as [st|], (en_staged e') as [st'|]; try done.
  destruct Hst as [-> _]. done.
Qed.

(** *** Actions that are sound in every state *)

(** With [b], the view's live entities are also left alone. *)
Definition sound {b : bool} {A} (m : Act A) : Prop := ∀ e, good e →
  good (m e).2 ∧ advance e (m e).2 ∧ (b = true → live (vgraph (m e).2) = live (vgraph e)).
Definition silent {A} (m : Act A) : Prop := ∀ e, quiet e (m e).2.

Lemma silent_sound b {A} (m : Act A) : silent m → sound (b:=b) m.
Proof.
  intros Hm e He. split; [eapply quiet_good; [apply Hm|done]|split; [apply quiet_advance, Hm|]].
  intros _. by rewrite (proj1 (quiet_vgraph _ _ (Hm e))).
Qed.

Lemma bind_state {A B} (m : Act A) (f : A → Act B) e : (m ≫= f) e = f (m e).1 (m e).2.
Proof. unfold mbind, M_bind. by destruct (m e). Qed.

Lemma sound_ret b {A} (a : A) : sound (b:=b) (mret a).
Proof. intros e He. split; [done|]. split; [reflexivity|done]. Qed.
Lemma silent_ret {A} (a : A) : silent (mret a).
Proof. intros e. simpl. reflexivity. Qed.
Lemma sound_bind b {A B} (m : Act A) (f : A → Act B) :
  sound (b:=b) m → (∀ a, sound (b:=b) (f a)) → sound (b:=b) (m ≫= f).
Proof.
  intros Hm Hf e He. rewrite bind_state. destruct (Hm e He) as (H1 & H2 & H3).
  destruct (Hf (m e).1 _ H1) as (H4 & H5 & H6). split; [done|]. split; [by etrans|].
  intros Hb. by rewrite (H6 Hb) (H3 Hb).
Qed.
Lemma silent_bind {A B} (m : Act A) (f : A → Act B) : silent m → (∀ a, silent (f a)) → silent (m ≫= f).
Proof. intros Hm Hf e. rewrite bind_state. etrans; [apply Hm|apply Hf]. Qed.

Lemma silent_gets {A} (f : Eng → A) : silent (gets f).
Proof. intros e. simpl. reflexivity. Qed.
Lemma silent_modify (f : Eng → Eng) : (∀ e, quiet e (f e)) → silent (modify f).
Proof. intros Hf e. apply Hf. Qed.
Lemma silent_now : silent now_.
Proof. intros e. split; try done. simpl. unfold same_staged. by destruct (en_staged e). Qed.
Lemma silent_newID : silent newID.
Proof. intros e. split; try done; simpl; [|lia]. unfold same_staged. by destruct (en_staged e). Qed.

(** *** Commit *)

Definition drawn (n : nat) (ev : Event) : Prop :=
  match ev_Entity ev with Some ee => ∀ m, n ≤ m → e_ID (ee_Entity ee) ≠ ulid m | None => True end.

Lemma put_unused n x g : unused n g → (∀ m, n ≤ m → e_ID x ≠ ulid m) → unused n (putEntity x g).
Proof.
  intros Hu Hd m Hm. rewrite put_entities put_deleted lookup_insert_ne; [|by apply Hd].
  destruct (Hu m Hm). split; [done|set_solver].
Qed.

Lemma apply_unused n now ev g : unused n g → drawn n ev → unused n (Apply now ev g).
Proof.
  unfold drawn, Apply, applyEntity. destruct (ev_Entity ev) as [ee|].
  - intros Hu Hd. destruct (ee_ChangeType ee); try done; try (by apply put_unused).
    + intros m Hm. destruct (delete_effect now ee g) as (_ & HE & HD & _). destruct (Hu m Hm) as [H1 H2]. split.
      * by eapply lookup_weaken_None.
      * specialize (Hd m Hm). set_solver.
    + fold (unhash (ee_Entity ee) g). apply put_unused; [|done]. intros m Hm.
      destruct (unhash_frame (ee_Entity ee) g) as (-> & -> & _). by apply Hu.
    + destruct (g_entities g !! _); [done|by apply put_unused].
  - intros Hu _. destruct (ev_Relation ev) as [re|]; [|done]. unfold applyRelation.
    by destruct (re_ChangeType re).
Qed.

Lemma staged_apply_events ev (st : Staged X) : st_events (staged_apply ev st) = st_events st.
Proof. unfold staged_apply. destruct st. by repeat case_match. Qed.

Lemma staged_apply_deleted ev (st : Staged X) n :
  (∀ m, n ≤ m → ulid m ∉ st_deleted st) → drawn n ev → ∀ m, n ≤ m → ulid m ∉ st_deleted (staged_apply ev st).
Proof.
  intros Hu Hd m Hm. specialize (Hu m Hm). unfold staged_apply, drawn in *. destruct st as [evs sc ents del bh rels rem rb].
  simpl in *. destruct (ev_Entity ev) as [ee|]; [specialize (Hd m Hm)|]; repeat case_match; simpl; set_solver.
Qed.

Lemma deliver_spec evs e : Forall dated evs.*1 →
  let e' := (deliver evs e).2 in
  en_graph e' = foldl (λ g ev, Apply 0 ev g) (en_graph e) evs.*1 ∧
  en_log e' = en_log e ∧ en_staged e' = en_staged e ∧ en_ids e' = en_ids e ∧ en_side e' = en_side e ∧
  en_subs e' = (λ inbox, inbox ++ evs)%list <$> en_subs e ∧ en_refs e' = en_refs e ∧ en_relRefs e' = en_relRefs e.
Proof.
  revert e. induction evs as [|[ev hp] evs IH]; intros e Hd.
  { simpl. split_and!; try done. rewrite -{1}(map_fmap_id (en_subs e)).
    apply map_fmap_ext. intros i l _. by rewrite app_nil_r. }
  apply Forall_cons in Hd as [Hd Hds]. cbn [deliver]. rewrite !bind_state.
  match goal with |- context [deliver evs ?x] => set (e1 := x) end. destruct (IH e1 Hds) as (-> & -> & -> & -> & -> & -> & -> & ->). unfold e1. simpl.
  split; [by rewrite (apply_dated _ 0 _ _ Hd)|]. do 4 (split; [reflexivity|]). split; [|by split].
  rewrite -map_fmap_compose. apply map_fmap_ext. intros i l _. simpl. by rewrite -app_assoc.
Qed.

(** Durable events in their stored form do what the staged ones would. *)
Lemma stored_events_effect evs evs' g : Forall2 same_event evs evs' → Forall dated evs →
  Forall dated evs' ∧ foldl (λ g ev, Apply 0 ev g) g evs' = foldl (λ g ev, Apply 0 ev g) g evs ∧
  ∀ a, foldl astep a evs' = foldl astep a evs.
Proof.
  intros HF. revert g. induction HF as [|ev ev' evs evs' Hs _ IH]; intros g Hd; [done|].
  apply Forall_cons in Hd as [Hd Hds]. destruct (IH (Apply 0 ev' g) Hds) as (H1 & H2 & H3).
  split_and!; simpl.
  - constructor; [by eapply dated_same_event|done].
  - by rewrite H2 (apply_same_event 0 _ _ g Hs).
  - intros a. by rewrite H3 (astep_same_event a _ _ Hs).
Qed.

Lemma commit_batched ev hp e st : en_staged e = Some st → good e →
  admissible (en_graph e) (sdeleted e) (vgraph e) ev → drawn (en_ids e) ev →
  let e' := upd_staged (Some (staged_apply ev (push_event ev hp st))) e in
  commit ev hp e = (inr ev, e') ∧ good e' ∧ advance e e' ∧ vgraph e' = Apply 0 ev (vgraph e).
Proof.
  intros Hst Hg Hadm Hdr e'. destruct Hg as [H1 H2 H3 H4 H5 H6 H7 H8 H9].
  assert (vgraph e' = Apply 0 ev (vgraph e)) as HV.
  { unfold vgraph, e'. simpl. rewrite Hst staged_apply_events /= fmap_app foldl_app. done. }
  split; [|split; [|split; [|done]]].
  - unfold commit. rewrite bind_state /= Hst bind_state /=. unfold on_staged, modify. by rewrite Hst.
  - assert (sdeleted e = st_deleted st) as HD by (unfold sdeleted; by rewrite Hst). rewrite HD in Hadm, H5.
    split; rewrite ?HV; try done.
    + by eapply core_apply.
    + by apply apply_unused.
    + unfold sdeleted, e'. simpl. apply staged_apply_deleted; done.
    + intros st' [= <-]. change (en_graph e') with (en_graph e).
      apply overlay_apply; try done. by apply overlay_push, H6.
    + intros st' [= <-]. rewrite staged_apply_events /= fmap_app. apply Forall_app. split; [by apply H7|].
      constructor; [by eapply admissible_dated|done].
    + intros st' [= <-]. rewrite staged_apply_events /= fmap_app foldl_app /= -(H8 _ Hst).
      apply apply_abs. by eapply admissible_heartbeat.
    + intros st' [= <-]. rewrite staged_apply_events /= fmap_app. apply abeats_app. split; [by apply H9|]. rewrite -(H8 _ Hst).
      split; [by eapply admissible_abeat|done].
  - unfold advance, e'. simpl. rewrite Hst. split_and!; try done. rewrite staged_apply_events. simpl. eauto.
Qed.

Lemma commit_unbatched ev hp e : en_staged e = None → good e →
  admissible (en_graph e) ∅ (en_graph e) ev → drawn (en_ids e) ev →
  let '(r, e') := commit ev hp e in
  good e' ∧ advance e e' ∧ en_staged e' = None ∧
  match r with
  | inr ev' => same_event ev ev' ∧ en_graph e' = Apply 0 ev (en_graph e)
  | inl _ => en_graph e' = en_graph e
  end.
Proof.
  intros Hst Hg Hadm Hdr. unfold commit. rewrite bind_state /= Hst bind_state. unfold append_.
  destruct (Append [ev] (en_log e)) as [w [msg|evs]] eqn:HA; simpl.
  - apply append_failed in HA. split_and!; try done.
    + destruct Hg. unfold vgraph, sdeleted in *. rewrite Hst in gd_vcore0, gd_vunused0, gd_dunused0.
      split; unfold vgraph, sdeleted; simpl; rewrite ?Hst; try done.
    + unfold advance. simpl. rewrite Hst. exists []. rewrite HA /= app_nil_r. split_and!; try done.
      rewrite -{1}(map_fmap_id (en_subs e)). apply map_fmap_ext. intros i l _. by rewrite app_nil_r.
  - apply append_ok in HA as [HL HF]. inversion HF as [|? ev' ? evs0 Hs HF0]. subst. inversion HF0. subst. clear HF HF0.
    assert (dated ev') as Hd by (eapply dated_same_event; [done|by eapply admissible_dated]).
    rewrite bind_state. simpl zip. set (e1 := upd_log w e).
    destruct (deliver_spec [(ev', hp)] e1) as (EG & EL & ES & EI & EX & EB & _); [by repeat constructor|].
    destruct (deliver [(ev', hp)] e1) as [[] e2]. simpl in *. unfold e1 in *. simpl in *. rewrite Hst in ES.
    assert (en_graph e2 = Apply 0 ev (en_graph e)) as EG' by (rewrite EG; symmetry; by apply apply_same_event).
    pose proof (gd_core _ Hg) as Hc. pose proof (core_apply 0 _ _ _ _ Hc Hadm) as Hc'.
    split_and!; try done.
    + split; unfold vgraph, sdeleted; rewrite ?ES ?EG' ?EI; try done; try set_solver.
      * apply apply_unused; [by apply Hg|done].
      * apply apply_unused; [by apply Hg|done].
    + unfold advance. rewrite Hst ES. exists [(ev', hp)]. rewrite EL EB. split_and!; try done.
      2:{ split; [|done]. eapply abeat_same_event; [exact Hs|]. by eapply admissible_abeat. }
      simpl. rewrite EG' -(astep_same_event _ _ _ Hs). apply apply_abs. by eapply admissible_heartbeat.
Qed.

(** Either way: the invariant, the advance, and the event in the view on success. *)
Lemma commit_sound ev hp e : good e →
  admissible (en_graph e) (sdeleted e) (vgraph e) ev → drawn (en_ids e) ev →
  let '(r, e') := commit ev hp e in
  good e' ∧ advance e e' ∧
  match r with
  | inr ev' => same_event ev ev' ∧ vgraph e' = Apply 0 ev (vgraph e)
  | inl _ => vgraph e' = vgraph e
  end.
Proof.
  intros Hg Hadm Hdr. destruct (en_staged e) as [st|] eqn:Hst.
  - destruct (commit_batched ev hp e st Hst Hg Hadm Hdr) as (-> & ? & ? & ?). done.
  - unfold sdeleted, vgraph in *. rewrite Hst in Hadm. rewrite Hst.
    pose proof (commit_unbatched ev hp e Hst Hg Hadm Hdr) as H'.
    destruct (commit ev hp e) as [r e']. destruct H' as (? & ? & -> & ?). done.
Qed.

(** A relation event is always admissible. *)
Lemma commit_relation_sound b re hp : sound (b:=b) (commit (relation_event re) hp).
Proof.
  intros e Hg. pose proof (commit_sound (relation_event re) hp e Hg I I) as H'.
  destruct (commit _ hp e) as [r e']. destruct H' as (? & ? & Hr). split; [done|]. split; [done|]. intros _. cbn [fst snd].
  destruct r as [err|ev']; [by rewrite Hr|]. destruct Hr as [_ ->].
  change (live (Apply 0 (relation_event re) (vgraph e))) with (abs (Apply 0 (relation_event re) (vgraph e))).1.
  rewrite apply_abs; [|done]. unfold astep. simpl. by destruct (re_ChangeType re).
Qed.

(** *** Bookkeeping *)

Ltac quiet_update :=
  intros ?; repeat case_match; (reflexivity || (split; simpl; try done; try lia; unfold same_staged; repeat case_match; by simplify_eq)).

Hint Resolve silent_ret silent_bind silent_gets silent_now silent_newID : core.

Lemma silent_if {A} (b : bool) (m1 m2 : Act A) : silent m1 → silent m2 → silent (if b then m1 else m2).
Proof. by destruct b. Qed.
Hint Resolve silent_if : core.

Lemma silent_report on r : silent (report on r).
Proof. apply silent_modify. quiet_update. Qed.
Lemma silent_scope scope : silent (setCurrentScope scope).
Proof. apply silent_modify. quiet_update. Qed.
Lemma silent_rollback f : silent (on_staged (push_rollback f)).
Proof. apply silent_modify. quiet_update. Qed.
Lemma silent_refs (f : Eng → gmap string Speakers) : silent (modify (λ e, upd_refs (f e) e)).
Proof. apply silent_modify. quiet_update. Qed.
Lemma silent_relRefs (f : Eng → gmap string Speakers) : silent (modify (λ e, upd_relRefs (f e) e)).
Proof. apply silent_modify. quiet_update. Qed.
Lemma silent_contested f : silent (modify (λ e, upd_contested (f e) e)).
Proof. apply silent_modify. quiet_update. Qed.
Lemma silent_pending f : silent (modify (λ e, upd_pending (f e) e)).
Proof. apply silent_modify. quiet_update. Qed.
Lemma silent_aliases f : silent (modify (λ e, upd_aliases (f e) e)).
Proof. apply silent_modify. quiet_update. Qed.
Lemma silent_side f : silent (modify (λ e, upd_side (f e) e)).
Proof. apply silent_modify. quiet_update. Qed.
Lemma silent_rebuild : silent rebuildPendingHashes.
Proof. apply silent_modify. quiet_update. Qed.
Lemma silent_bad f : silent (modify (λ e, upd_badPromises (f e) e)).
Proof. apply silent_modify. quiet_update. Qed.
Hint Resolve silent_report silent_scope silent_rollback silent_refs silent_relRefs silent_contested
  silent_pending silent_aliases silent_side silent_rebuild silent_bad : core.

Lemma silent_promise id typ producer d : silent (promise id typ producer d).
Proof. unfold promise. apply silent_if; apply silent_bind; auto. Qed.
Lemma silent_track id obs prev : silent (trackDisplayName id obs prev).
Proof.
  unfold trackDisplayName. apply silent_if; [auto|]. apply silent_bind; [auto|]. intros now.
  apply silent_modify. quiet_update.
Qed.
Lemma silent_drop obs : silent (dropPendingRelation obs).
Proof. unfold dropPendingRelation, reportDiscard. apply silent_bind; [apply silent_gets|auto]. Qed.
Lemma silent_inherited from key : silent (inheritedRef from key).
Proof. apply silent_gets. Qed.
Lemma silent_endpoint ref : silent (resolveEndpoint ref).
Proof.
  unfold resolveEndpoint. apply silent_bind; [apply silent_gets|]. intros [id|]; [auto|].
  apply silent_bind; [apply silent_gets|]. intros [sub|]; [|auto]. apply silent_bind; [apply silent_gets|auto].
Qed.
Lemma silent_endpoints from to : silent (resolveEndpoints from to).
Proof.
  unfold resolveEndpoints. apply silent_bind; [apply silent_endpoint|]. intros [f fs]. apply silent_if; [auto|].
  apply silent_bind; [apply silent_endpoint|]. intros [t ts]. auto.
Qed.
Lemma silent_park obs : silent (park obs).
Proof.
  unfold park. apply silent_bind; [auto|]. intros ps. apply silent_bind.
  - apply silent_if; [|auto]. destruct ps; [auto|]. apply silent_bind; [apply (silent_pending (λ _, ps))|].
    intros _. apply silent_report.
  - intros _. apply silent_bind; [auto|]. intros ttl. apply silent_bind; [auto|]. intros now.
    apply silent_bind; [apply silent_gets|auto].
Qed.
Hint Resolve silent_promise silent_track silent_drop silent_inherited silent_endpoint silent_endpoints silent_park : core.

(** *** Relations *)

Lemma silent_relationEvent ct rel t src : silent (relationEvent ct rel t src).
Proof.
  unfold relationEvent. apply silent_bind; [auto|]. intros. apply silent_bind; [auto|]. intros.
  apply silent_bind; [apply silent_gets|auto].
Qed.

Lemma sound_relationEvent b {B} ct rel t src (f : Event → Act B) :
  (∀ re, sound (b:=b) (f (relation_event re))) → sound (b:=b) (relationEvent ct rel t src ≫= f).
Proof.
  intros Hf e He. rewrite bind_state. pose proof (silent_relationEvent ct rel t src e) as Hq.
  assert (∃ re, (relationEvent ct rel t src e).1 = relation_event re) as [re ->]
    by (unfold relationEvent; rewrite !bind_state; simpl; eauto).
  destruct (Hf re (relationEvent ct rel t src e).2) as (H1 & H2 & H3); [by eapply quiet_good|].
  split; [done|]. split; [etrans; [by apply quiet_advance|done]|].
  intros Hb. by rewrite (H3 Hb) (proj1 (quiet_vgraph _ _ Hq)).
Qed.

(** A bind whose first part is bookkeeping, and one that ends in a relation commit. *)
Lemma sound_seq b {A B} (m : Act A) (f : A → Act B) :
  silent m → (∀ a, sound (b:=b) (f a)) → sound (b:=b) (m ≫= f).
Proof. intros Hm. apply sound_bind. by apply silent_sound. Qed.

Lemma sound_commit_relation b {B} re hp (f : EngineError + Event → Act B) :
  (∀ r, sound (b:=b) (f r)) → sound (b:=b) (commit (relation_event re) hp ≫= f).
Proof. apply sound_bind, commit_relation_sound. Qed.

Lemma observe_relation_locked_sound b obs : sound (b:=b) (observeRelationLocked obs).
Proof.
  unfold observeRelationLocked. apply sound_seq; [auto|]. intros [err|[from to]]; [apply sound_ret|].
  apply sound_seq; [apply silent_gets|]. intros scope.
  apply sound_seq; [auto|]. intros iv. apply sound_seq; [by apply silent_if; auto|]. intros ref.
  apply sound_seq; [apply silent_relRefs|]. intros []. apply sound_seq; [apply silent_gets|]. intros existing.
  case_match; [|apply sound_ret]. apply sound_relationEvent. intros re. apply sound_commit_relation.
  intros r. apply sound_ret.
Qed.

Lemma flush_loop_sound b now ps : sound (b:=b) (flush_loop now ps).
Proof.
  induction ps as [|p ps IH]; [apply sound_ret|]. cbn [flush_loop]. apply sound_bind.
  - destruct (after now (pn_deadline p)).
    + apply silent_sound. auto.
    + apply sound_seq; [apply silent_gets|]. intros flushing. apply sound_seq; [auto|]. intros [].
      apply sound_bind; [apply observe_relation_locked_sound|]. intros r. apply sound_seq; [auto|]. intros [].
      apply silent_sound. destruct r.2 as [[]|]; auto.
  - intros keep. apply sound_bind; [apply IH|]. intros rest. apply sound_ret.
Qed.

Lemma flush_pending_sound b : sound (b:=b) flushPending.
Proof.
  unfold flushPending. apply sound_seq; [auto|]. intros [|p ps]; [apply sound_ret|].
  apply sound_seq; [auto|]. intros now. apply sound_bind; [apply flush_loop_sound|]. intros kept.
  apply sound_seq; [apply (silent_pending (λ _, kept))|]. intros []. by apply silent_sound.
Qed.

Lemma record_alias_sound b obs : sound (b:=b) (recordAliasLocked obs).
Proof.
  unfold recordAliasLocked. destruct (aliasClaimFromObservation obs) as [claim|]; [|apply sound_ret].
  apply sound_seq; [apply silent_gets|]. intros scope. apply sound_seq; [auto|]. intros now.
  destruct (aliasDeadline now obs) as [deadline believable]. destruct believable; [|apply sound_ret]. cbn [negb].
  apply sound_seq; [auto|]. intros idx. destruct (record idx claim (refKey (ro_Producer obs) scope) (mkLiveRef deadline 0 false)) as [[idx' isNew] conflict].
  apply sound_seq; [apply (silent_aliases (λ _, idx'))|]. intros []. apply sound_seq; [by apply silent_if; auto|]. intros [].
  apply sound_seq; [auto|]. intros [|p ps]; [apply sound_ret|]. apply sound_seq; [auto|]. intros []. apply flush_pending_sound.
Qed.

Lemma observe_relation_sound b obs : sound (b:=b) (observeRelationBuffered obs).
Proof.
  unfold observeRelationBuffered. apply sound_bind.
  { case_bool_decide; [apply record_alias_sound|apply sound_ret]. }
  intros []. apply sound_bind; [apply observe_relation_locked_sound|]. intros r.
  apply sound_seq; [auto|]. intros ttl. apply silent_sound. destruct r.2 as [[]|]; auto.
Qed.

Lemma silent_release (b : Eng → bool) (f : Eng → Eng) : (∀ e, quiet e (f e)) → silent (modify (λ e, if b e then f e else e)).
Proof. intros Hf. apply silent_modify. intros e. destruct (b e); [apply Hf|reflexivity]. Qed.

Lemma remove_relation_sound b obs : sound (b:=b) (removeRelationLocked obs).
Proof.
  unfold removeRelationLocked. apply sound_seq; [auto|]. intros [err|[from to]]; [destruct err; apply sound_ret|].
  apply sound_seq; [apply silent_gets|]. intros scope. apply sound_seq; [auto|]. intros held.
  apply sound_seq; [apply silent_modify; quiet_update|]. intros [].
  case_bool_decide; [apply sound_ret|]. apply sound_seq; [apply silent_gets|]. intros [ex|]; [|apply sound_ret].
  apply sound_relationEvent. intros re. apply sound_commit_relation. intros r. apply sound_ret.
Qed.

Lemma remove_edges_sound b rels when : sound (b:=b) (remove_edges rels when).
Proof.
  induction rels as [|rel rels IH]; [apply sound_ret|]. cbn [remove_edges].
  apply sound_relationEvent. intros re. apply sound_commit_relation. intros r.
  apply sound_seq; [destruct r; auto|]. intros [n errs]. apply sound_bind; [apply IH|]. intros [n' errs']. apply sound_ret.
Qed.

Lemma remove_incident_sound b id when : sound (b:=b) (removeIncidentRelations id when).
Proof. apply sound_seq; [apply silent_gets|]. intros rels. apply remove_edges_sound. Qed.

(** *** Reads see the view *)

Lemma good_hash e id x y : good e →
  g_entities (en_graph e) !! id = Some x → g_entities (vgraph e) !! id = Some y → IdentityHash x = IdentityHash y.
Proof.
  intros He Hx Hy. destruct (en_staged e) as [st|] eqn:Hst.
  - by eapply (ov_hash _ _ _ (gd_overlay _ He st Hst)).
  - unfold vgraph in Hy. rewrite Hst in Hy. congruence.
Qed.

Lemma match_view typ identity e : good e →
  matchIdentity typ identity e = (MatchIdentity (vgraph e) typ identity, e).
Proof.
  intros He. unfold matchIdentity, gets. f_equal. destruct (en_staged e) as [st|] eqn:Hst.
  2:{ unfold vgraph. by rewrite Hst. }
  destruct (gd_overlay _ He st Hst) as [VL _ _ _ VH VC VN VF].
  pose proof (cr_entities _ (gd_core _ He)) as Hw. pose proof (cr_entities _ (gd_vcore _ He)) as Hw'.
  set (h := identity_hash typ identity). apply option_eq. intros id. rewrite (match_live _ _ _ id Hw'). fold h.
  destruct (st_byHash st !! h) as [i|] eqn:Hb.
  - case_bool_decide as Hd.
    + split; [done|]. intros (x & Hx & Hh). pose proof (VC _ _ Hb _ _ Hx Hh) as ->.
      rewrite VL bool_decide_eq_true_2 in Hx; done.
    + destruct (VN _ _ Hb Hd) as (x & Hx & Hh). split; [intros [= <-]; eauto|].
      intros (y & Hy & Hh'). f_equal. symmetry. by eapply VC.
  - assert (∀ x, live (vgraph e) !! id = Some x → IdentityHash x = h → ∃ x0, live (en_graph e) !! id = Some x0 ∧ IdentityHash x0 = h) as Hback.
    { intros x Hx Hh. destruct (VF _ _ Hx) as [Hs|(x0 & Hx0 & Hh0)]; [congruence|]. exists x0. split; [done|congruence]. }
    destruct (MatchIdentity (en_graph e) typ identity) as [i|] eqn:Hm.
    + apply (match_live _ _ _ _ Hw) in Hm as (x0 & Hx0 & Hh0). fold h in Hh0. case_bool_decide as Hd.
      * split; [done|]. intros (x & Hx & Hh). destruct (Hback _ Hx Hh) as (x1 & Hx1 & Hh1).
        assert (i = id) as -> by (eapply (live_unique _ _ _ _ _ Hw Hx0 Hx1); congruence).
        rewrite VL bool_decide_eq_true_2 in Hx; done.
      * assert (∃ x, live (vgraph e) !! i = Some x ∧ IdentityHash x = h) as (x & Hx & Hh).
        { rewrite VL bool_decide_eq_false_2; [|done]. destruct (st_entities st !! i) as [x|] eqn:Hs; [|eauto].
          exists x. split; [done|]. rewrite -Hh0. symmetry. apply live_lookup in Hx0 as [Hx0 _]. eapply VH; [done|].
          eapply live_lookup. rewrite VL bool_decide_eq_false_2; [|done]. by rewrite Hs. }
        split; [intros [= <-]; eauto|]. intros (y & Hy & Hhy). f_equal. eapply (live_unique _ _ _ _ _ Hw'); eauto; congruence.
    + split; [done|]. intros (x & Hx & Hh). destruct (Hback _ Hx Hh) as (x0 & Hx0).
      assert (MatchIdentity (en_graph e) typ identity = Some id) by (apply match_live; eauto). congruence.
Qed.

(** An observation's event before it is committed. *)
Definition observation_event (obs : EntityObservation) (evid : string) (ct : ChangeType) (id : EntityID) (now : Time)
    (scope : string) (changed : list string) : Event :=
  entity_event (mkEntityEvent evid ct (observed obs id) (eo_EventTime obs) now 0 scope SchemaVersion changed "" DeleteSourceUnknown).

Lemma classify_sound obs e : good e →
  let '((ct, id, changed, prev), e') := classify_observation obs e in
  quiet e e' ∧ ∀ evid now scope, is_zero now = false →
    admissible (en_graph e') (sdeleted e') (vgraph e') (observation_event obs evid ct id now scope changed) ∧
    drawn (en_ids e') (observation_event obs evid ct id now scope changed).
Proof.
  intros He. unfold classify_observation. rewrite bind_state match_view; [|done]. cbn [fst snd].
  set (h := identity_hash (eo_Type obs) (eo_Identity obs)).
  pose proof (cr_entities _ (gd_core _ He)) as Hw. pose proof (cr_entities _ (gd_vcore _ He)) as Hw'.
  destruct (MatchIdentity (vgraph e) _ _) as [id|] eqn:Hm.
  - rewrite bind_state. unfold getEntity, gets. cbn [fst snd].
    match goal with |- context [diffAttributes ?a ?b] => destruct (diffAttributes a b) as [changed sc] end.
    simpl. split; [reflexivity|].
    intros evid now scope Hnow. apply (match_live _ _ _ _ Hw') in Hm as (x & Hx & Hh). fold h in Hh.
    assert (∀ m, en_ids e ≤ m → id ≠ ulid m) as Hdr.
    { intros m Hm ->. destruct (gd_vunused _ He m Hm) as [Hn _]. apply live_lookup in Hx as [Hx _]. congruence. }
    split; [|done]. split; [done|]. simpl. unfold classify. destruct changed; [eauto|]. destruct sc; eauto.
  - rewrite bind_state. unfold matchTombstone. rewrite bind_state. simpl.
    assert (∀ id', g_byHash (vgraph e) !! h = Some id' → False) as Hfree.
    { intros id' Hb. apply (wf_byHash _ Hw') in Hb as (x & Hx & Hh).
      assert (MatchIdentity (vgraph e) (eo_Type obs) (eo_Identity obs) = Some id') by (apply match_live; eauto). congruence. }
    match goal with |- context [match ?t with Some _ => _ | None => _ end] => destruct t as [rid|] eqn:Ht end.
    + simpl. split; [apply (silent_now e)|]. intros evid now scope Hnow.
      set (e1 := upd_tick (S (en_tick e)) e) in *.
      assert (rid ∉ sdeleted e ∧ g_tombByHash (en_graph e) !! h = Some rid) as [HD Htb].
      { unfold sdeleted. unfold MatchTombstone in Ht. fold h in Ht.
        destruct (g_tombByHash (en_graph e) !! h) as [r|]; [|done].
        repeat case_match; simplify_eq; repeat case_bool_decide; simplify_eq; split; done || set_solver. }
      destruct (wf_tomb _ Hw _ _ Htb) as (Hdel & x0 & Hx0 & Hh0). split.
      * split; [done|]. simpl. split_and!; [split|done|]; simpl.
        -- intros y Hy. rewrite -(good_hash _ _ _ _ He Hx0 Hy). done.
        -- intros id' Hb. by apply Hfree in Hb.
        -- intros y Hy. change (IdentityHash (observed obs rid)) with h. congruence.
      * intros m Hm'. simpl. intros ->. destruct (gd_unused _ He m Hm') as [Hn _]. congruence.
    + simpl. split. { split; try done; simpl; [|lia]. unfold same_staged. by destruct (en_staged e). }
      intros evid now scope Hnow. destruct (gd_vunused _ He (en_ids e) (le_n _)) as [Hn1 _].
      destruct (gd_unused _ He (en_ids e) (le_n _)) as [Hn2 _]. split.
      * split; [done|]. simpl. split_and!; [split|apply (gd_dunused _ He); lia|]; simpl.
        -- intros y Hy. unfold vgraph in *. simpl in Hy. congruence.
        -- intros id' Hb. by apply Hfree in Hb.
        -- intros y Hy. congruence.
      * intros m Hm'. simpl. intros Heq%ulid_inj. simpl in Hm'. lia.
Qed.

(** *** Entities *)

(** Bookkeeping between a classification and its commit. *)
Lemma admissible_quiet e e' ev : quiet e e' →
  admissible (en_graph e) (sdeleted e) (vgraph e) ev → drawn (en_ids e) ev →
  admissible (en_graph e') (sdeleted e') (vgraph e') ev ∧ drawn (en_ids e') ev.
Proof.
  intros Hq Ha Hd. destruct (quiet_vgraph _ _ Hq) as [-> ->]. destruct Hq as [-> _ _ _ Hi].
  split; [done|]. unfold drawn in *. destruct (ev_Entity ev); [|done]. intros m Hm. apply Hd. lia.
Qed.

(** A sound continuation of a commit that was admissible. *)
Lemma sound_commit {B} ev hp (f : EngineError + Event → Act B) e : good e →
  admissible (en_graph e) (sdeleted e) (vgraph e) ev → drawn (en_ids e) ev → (∀ r, sound (b:=false) (f r)) →
  good ((commit ev hp ≫= f) e).2 ∧ advance e ((commit ev hp ≫= f) e).2.
Proof.
  intros He Ha Hd Hf. rewrite bind_state. pose proof (commit_sound ev hp e He Ha Hd) as Hc.
  destruct (commit ev hp e) as [r e']. destruct Hc as (H1 & H2 & _). destruct (Hf r e' H1) as (? & ? & _). split; [done|]. by etrans.
Qed.

Lemma observe_entity_sound obs : sound (b:=false) (observeEntityLocked obs).
Proof.
  intros e He. unfold observeEntityLocked. rewrite bind_state.
  pose proof (classify_sound obs e He) as Hcl.
  destruct (classify_observation obs e) as [[[[ct id] changed] prev] e1]. destruct Hcl as [Hq Hadm]. cbn [fst snd].
  rewrite !(bind_state newID). rewrite !(bind_state now_). rewrite !(bind_state currentScope). cbn [fst snd].
  match goal with |- good ((commit ?ev0 _ ≫= _) ?e0).2 ∧ _ => set (e2 := e0); set (ev := ev0) end.
  assert (quiet e1 e2) as Hq2.
  { transitivity (newID e1).2; [apply silent_newID|]. apply (silent_now (newID e1).2). }
  destruct (Hadm (newID e1).1 (now_ (newID e1).2).1 (currentScope e2).1 (clock_started _)) as [Ha Hd].
  destruct (admissible_quiet _ _ _ Hq2 Ha Hd) as [Ha2 Hd2].
  assert (quiet e e2) as Hqe by by etrans.
  destruct (sound_commit ev false (λ r : EngineError + Event, match r with
    | inl err => mret (None, Some err)
    | inr ev =>
      iv ← promise id (eo_Type obs) (eo_Producer obs) (eo_Interval obs);
      ref ← (if (0 <? iv)%Z then now ← now_; mret (mkLiveRef (time_add now iv) iv false) else mret zero_liveRef);
      modify (λ e, upd_refs (set_ref id (refKey (eo_Producer obs) (currentScope e2).1) ref (en_refs e)) e);;
      trackDisplayName id obs prev;;
      waited ← gets (λ e, negb (bool_decide (length (en_pending e) = 0)) &&
                        bool_decide (identity_hash (eo_Type obs) (eo_Identity obs) ∈ en_pendingHashes e));
      (if waited : bool then flushPending else mret tt);;
      mret (Some ev, None)
    end) e2) as [H1 H2]; [by eapply quiet_good|done|done| |].
  - intros [err|ev']; [apply sound_ret|]. apply sound_seq; [auto|]. intros iv.
    apply sound_seq; [by apply silent_if; auto|]. intros ref. apply sound_seq; [apply silent_refs|]. intros [].
    apply sound_seq; [auto|]. intros []. apply sound_seq; [auto|]. intros waited.
    apply sound_bind; [destruct waited; [apply flush_pending_sound|apply sound_ret]|]. intros []. apply sound_ret.
  - split; [exact H1|]. split; [|done]. transitivity e2; [by apply quiet_advance|exact H2].
Qed.

(** The owner of an identity may be deleted. *)
Lemma live_deletion_ok g x : wf_entities g → is_Some (live g !! e_ID x) → deletion_ok g x.
Proof.
  intros Hw [y Hy] e0 He0 id' Hb. pose proof Hy as [Hy' _]%live_lookup. simplify_eq.
  assert (g_byHash g !! IdentityHash e0 = Some (e_ID x)) by (apply (wf_byHash _ Hw); eauto). congruence.
Qed.

Lemma live_drawn e id : good e → is_Some (live (vgraph e) !! id) → ∀ m, en_ids e ≤ m → id ≠ ulid m.
Proof.
  intros He [x [Hx _]%live_lookup] m Hm ->. destruct (gd_vunused _ He m Hm) as [Hn _]. congruence.
Qed.

Lemma delete_entity_sound obs : sound (b:=false) (deleteEntityLocked obs).
Proof.
  intros e He. unfold deleteEntityLocked. rewrite bind_state match_view; [|done]. cbn [fst snd].
  destruct (MatchIdentity (vgraph e) (eo_Type obs) (eo_Identity obs)) as [id|] eqn:Hm; [|split; [done|split; [reflexivity|done]]].
  apply match_live in Hm as (x & Hx & _); [|by apply He].
  rewrite (bind_state currentScope) (bind_state (gets _)). cbn [fst snd].
  rewrite bind_state. match goal with |- context [modify ?f ?e0] => assert (quiet e (f e0)) as Hq1; [|set (e1 := (modify f e0).2)] end.
  { repeat case_match; (reflexivity || (split; simpl; try done; unfold same_staged; by destruct (en_staged e))). }
  change (quiet e e1) in Hq1. clearbody e1.
  case_bool_decide. { split; [by eapply quiet_good|split; [by apply quiet_advance|done]]. }
  rewrite !(bind_state newID). rewrite !(bind_state now_). cbn [fst snd].
  match goal with |- good ((commit ?ev0 _ ≫= _) ?e0).2 ∧ _ => set (e2 := e0); set (ev := ev0) end.
  assert (quiet e1 e2) as Hq2.
  { transitivity (newID e1).2; [apply silent_newID|]. apply (silent_now (newID e1).2). }
  assert (quiet e e2) as Hq by by etrans.
  destruct (admissible_quiet e e2 ev Hq) as [Ha Hd].
  { split; [apply clock_started|]. apply live_deletion_ok; [by apply He|]. simpl. eauto. }
  { change (∀ m, en_ids e ≤ m → id ≠ ulid m). apply live_drawn; eauto. }
  match goal with |- good ((_ ≫= ?f) e2).2 ∧ _ => destruct (sound_commit ev false f e2) as [G1 G2] end;
    [by eapply quiet_good|done|done| |].
  - intros [err|ev']; [apply sound_ret|]. apply sound_seq; [auto|]. intros []. apply sound_bind; [apply remove_incident_sound|].
    intros [n errs]. apply sound_ret.
  - split; [exact G1|]. split; [|done]. transitivity e2; [by apply quiet_advance|exact G2].
Qed.

(** *** Batches *)

Lemma run_op_sound op : sound (b:=false) (run_op op).
Proof.
  destruct op; simpl.
  - apply silent_sound. auto.
  - apply silent_sound. auto.
  - apply sound_bind; [apply observe_entity_sound|]. intros r. apply sound_ret.
  - apply delete_entity_sound.
  - apply sound_bind; [apply observe_relation_sound|]. intros r. apply sound_ret.
  - apply sound_bind; [apply remove_relation_sound|]. intros r. apply sound_ret.
Qed.

Lemma run_batch_sound {A} (p : BatchProg X A) : sound (b:=false) (run_batch p).
Proof.
  induction p as [a|k IH|f k IH|op k IH]; simpl.
  - apply sound_ret.
  - apply sound_bind; [apply silent_sound, silent_gets|]. intros x. apply IH.
  - apply sound_seq; [apply silent_side|]. intros []. apply IH.
  - apply sound_bind; [apply run_op_sound|]. intros r. apply IH.
Qed.

(** Opening a batch. *)
Definition opened (e : Eng) : Eng := upd_staged (Some newStaged) e.

Lemma opened_good e : good e → en_staged e = None → good (opened e).
Proof.
  intros [H1 H2 H3 H4 H5 H6 H7 H8 H9] Hst. unfold vgraph, sdeleted in *. rewrite Hst in H2, H4.
  split; unfold vgraph, sdeleted; simpl; try done; try (by intros st [= <-]).
  all: intros st [= <-]; (by apply overlay_new) || constructor.
Qed.

(** What a flush does, on both outcomes. *)
Lemma flush_spec e st : good e → en_staged e = Some st →
  let '(r, e') := flushStaged st e in
  good e' ∧ en_staged e' = None ∧ en_refs e' = en_refs e ∧ en_relRefs e' = en_relRefs e ∧
  match r with
  | None => en_graph e' = vgraph e ∧ en_side e' = en_side e ∧ ∃ evs,
      Forall2 same_event (st_events st).*1 evs ∧
      logged (en_log e') = (logged (en_log e) ++ evs)%list ∧
      en_subs e' = (λ inbox, inbox ++ zip evs (st_events st).*2)%list <$> en_subs e
  | Some _ => en_graph e' = en_graph e ∧ logged (en_log e') = logged (en_log e) ∧ en_subs e' = en_subs e ∧
      en_side e' = foldr (λ f s, f s) (en_side e) (st_rollbacks st)
  end.
Proof.
  intros He Hst. pose proof He as [H1 H2 H3 H4 H5 H6 H7 H8 H9].
  assert (∀ w x, good (upd_side x (upd_log w (upd_staged None e)))) as Hclosed.
  { intros w x. split; unfold vgraph, sdeleted; simpl; try done; set_solver. }
  assert (∀ m : gmap Z (list (Event * bool)), (λ inbox, inbox ++ [])%list <$> m = m) as Hid.
  { intros m. rewrite -{2}(map_fmap_id m). apply map_fmap_ext. intros i l _. by rewrite app_nil_r. }
  unfold flushStaged. rewrite bind_state. simpl. destruct (st_events st) as [|x l] eqn:Hev.
  { simpl. split; [apply (Hclosed (en_log e) (en_side e))|]. split_and!; try done.
    - unfold vgraph. by rewrite Hst Hev.
    - exists []. rewrite app_nil_r. split_and!; try done; by rewrite Hid. }
  rewrite -Hev. rewrite bind_state. unfold append_. simpl. destruct (Append (st_events st).*1 (en_log e)) as [w [msg|evs]] eqn:HA; simpl.
  - apply append_failed in HA. split; [apply Hclosed|]. done.
  - apply append_ok in HA as [HL HF]. rewrite bind_state. set (e1 := upd_log w (upd_staged None e)).
    destruct (stored_events_effect _ _ (en_graph e) HF (H7 _ Hst)) as (Hd & HG & _).
    assert ((zip evs (st_events st).*2).*1 = evs) as HZ.
    { apply fst_zip. apply Forall2_length in HF. rewrite !length_fmap in HF |- *. lia. }
    destruct (deliver_spec (zip evs (st_events st).*2) e1) as (EG & EL & ES & EI & EX & EB & ER & ERR); [by rewrite HZ|].
    destruct (deliver (zip evs (st_events st).*2) e1) as [[] e2]. simpl in *.
    assert (en_graph e2 = vgraph e) as EG'.
    { rewrite EG HZ. unfold vgraph. rewrite Hst. exact HG. }
    split.
    { split; unfold vgraph, sdeleted; rewrite ?ES ?EG' ?EI; simpl; try done; set_solver. }
    split_and!; try done. exists evs. rewrite EL EB. split_and!; done.
Qed.

(** Outside any batch the log, the projection and the subscribers move together. *)
Lemma flush_advance e0 e st : good e → en_staged e = Some st → en_staged e0 = None →
  en_graph e = en_graph e0 → en_log e = en_log e0 → en_subs e = en_subs e0 →
  advance e0 (flushStaged st e).2.
Proof.
  intros He Hst Hst0 EG EL ES. pose proof (flush_spec e st He Hst) as Hf.
  destruct (flushStaged st e) as [[err|] e']. simpl.
  - destruct Hf as (_ & Hst' & _ & _ & HG & HL & HS & _). unfold advance. rewrite Hst0 Hst'.
    exists []. rewrite HG HL HS EG EL ES /= app_nil_r. split_and!; try done.
    rewrite -{1}(map_fmap_id (en_subs e0)). apply map_fmap_ext. intros i l _. by rewrite app_nil_r.
  - destruct Hf as (_ & Hst' & _ & _ & HG & _ & evs & HF & HL & HS). unfold advance. rewrite Hst0 Hst'.
    destruct (stored_events_effect _ _ (en_graph e0) HF (gd_dated _ He _ Hst)) as (_ & _ & Ha).
    assert ((zip evs (st_events st).*2).*1 = evs) as HZ.
    { apply fst_zip. apply Forall2_length in HF. rewrite !length_fmap in HF |- *. lia. }
    exists (zip evs (st_events st).*2). rewrite HZ HL HS EL ES HG Ha. split_and!; try done; [by rewrite (gd_abs _ He _ Hst) EG|].
    eapply abeats_same_events; [exact HF|]. rewrite -EG. by apply gd_beats.
Qed.

(** Running sound work inside a batch, then flushing it. *)
Lemma batch_staged {A} (m : Act A) e : good (opened e) → advance (opened e) (m (opened e)).2 →
  ∃ st, en_staged (m (opened e)).2 = Some st ∧ en_graph (m (opened e)).2 = en_graph e ∧
    en_log (m (opened e)).2 = en_log e ∧ en_subs (m (opened e)).2 = en_subs e.
Proof.
  intros Ho Ha. unfold advance in Ha. simpl in Ha.
  destruct (en_staged (m (opened e)).2) as [st|]; [|done]. destruct Ha as (? & ? & ? & _). eauto.
Qed.

Lemma batch_sound {A} (p : BatchProg X A) e : good e → en_staged e = None →
  good (Batch p e).2 ∧ advance e (Batch p e).2 ∧ en_staged (Batch p e).2 = None.
Proof.
  intros He Hst. pose proof (opened_good e He Hst) as Ho. pose proof (run_batch_sound p (opened e) Ho) as Hr.
  destruct Hr as (Hr & Hadv0 & _). destruct (batch_staged (run_batch p) e Ho Hadv0) as (st & H1 & H2 & H3 & H4).
  unfold Batch. rewrite bind_state. change (modify (upd_staged (Some newStaged)) e).2 with (opened e).
  rewrite !bind_state. cbn [fst snd gets]. rewrite H1. change (default newStaged (Some st)) with st.
  pose proof (flush_advance e _ st Hr H1 Hst H2 H3 H4) as Hadv.
  pose proof (flush_spec _ st Hr H1) as Hf. destruct (flushStaged st (run_batch p (opened e)).2) as [r e'].
  destruct Hf as (? & ? & _). by split_and!.
Qed.

(** *** Sweep *)

(** The batch has stored no entity. *)
Definition barren (e : Eng) : Prop := ∃ st, en_staged e = Some st ∧ st_entities st = ∅.
Definition keeps {A} (m : Act A) : Prop := ∀ e, barren e → barren (m e).2.

Lemma silent_keeps {A} (m : Act A) : silent m → keeps m.
Proof.
  intros Hm e (st & Hst & He). destruct (Hm e) as [_ _ _ Hs _]. unfold same_staged in Hs. rewrite Hst in Hs.
  unfold barren. destruct (en_staged (m e).2) as [st'|]; [|done]. destruct Hs as (_ & E & _). exists st'. by rewrite E.
Qed.

Lemma keeps_bind {A B} (m : Act A) (f : A → Act B) : keeps m → (∀ a, keeps (f a)) → keeps (m ≫= f).
Proof. intros Hm Hf e He. rewrite bind_state. by apply Hf, Hm. Qed.

(** Neither a removed edge nor a deleted entity stores one. *)
Definition stores_none (ev : Event) : Prop :=
  match ev_Entity ev with Some ee => ee_ChangeType ee = EntityDeleted | None => True end.

Lemma commit_keeps ev hp : stores_none ev → keeps (commit ev hp).
Proof.
  intros Hev e (st & Hst & He). unfold commit. rewrite bind_state. simpl. rewrite Hst bind_state. simpl.
  unfold on_staged, modify. rewrite Hst. exists (staged_apply ev (push_event ev hp st)). split; [done|].
  unfold stores_none in Hev. unfold staged_apply. destruct ev as [[ee|] [re|]]; simpl in *; try rewrite Hev; simpl; try done;
    by destruct (re_ChangeType re).
Qed.

Lemma remove_edges_keeps rels when : keeps (remove_edges rels when).
Proof.
  induction rels as [|rel rels IH]; [apply silent_keeps, silent_ret|]. cbn [remove_edges].
  intros e He. rewrite bind_state. pose proof (silent_keeps _ (silent_relationEvent RelationRemoved rel when DeleteSourceCascade) _ He) as He1.
  assert (∃ re, (relationEvent RelationRemoved rel when DeleteSourceCascade e).1 = relation_event re) as [re ->]
    by (unfold relationEvent; rewrite !bind_state; simpl; eauto).
  revert He1. generalize (relationEvent RelationRemoved rel when DeleteSourceCascade e).2. clear e He.
  change (keeps (commit (relation_event re) (r_Structural rel) ≫= λ r, '(n, errs) ← (match r with
      | inl err => mret (0%Z, [err])
      | inr _ => modify (λ e, upd_relRefs (delete (r_ID rel) (en_relRefs e)) e);; mret (1%Z, [])
      end); '(n', errs') ← remove_edges rels when; mret ((n + n')%Z, (errs ++ errs')%list))).
  apply keeps_bind; [by apply commit_keeps|]. intros r. apply keeps_bind; [apply silent_keeps; destruct r; auto|].
  intros [n errs]. apply keeps_bind; [apply IH|]. intros [n' errs']. apply silent_keeps, silent_ret.
Qed.

(** An entity live in the projection may be expired in a barren batch. *)
Lemma barren_deletion_ok e x : good e → barren e → live (en_graph e) !! e_ID x = Some x → deletion_ok (vgraph e) x.
Proof.
  intros He (st & Hst & Hb) Hl e0 He0 id' Hid'.
  pose proof (cr_entities _ (gd_core _ He)) as Hw. pose proof (cr_entities _ (gd_vcore _ He)) as Hw'.
  apply (wf_byHash _ Hw') in Hid' as (y & Hy & Hh).
  assert (live (en_graph e) !! id' = Some y) as Hy'.
  { rewrite (ov_live _ _ _ (gd_overlay _ He st Hst)) Hb lookup_empty in Hy. by case_bool_decide. }
  symmetry. eapply (live_unique _ _ _ _ _ Hw Hl Hy'). rewrite Hh.
  apply live_lookup in Hl as [Hx _]. by eapply good_hash.
Qed.

Lemma silent_drop_ref id : silent (drop_ref id).
Proof. apply silent_bind; auto. Qed.

(** Sound work that keeps a batch barren. *)
Definition barren_sound {A} (m : Act A) : Prop := ∀ e, good e → barren e →
  good (m e).2 ∧ advance e (m e).2 ∧ barren (m e).2.

Lemma barren_bind {A B} (m : Act A) (f : A → Act B) :
  barren_sound m → (∀ a, barren_sound (f a)) → barren_sound (m ≫= f).
Proof.
  intros Hm Hf e He Hb. rewrite bind_state. destruct (Hm e He Hb) as (H1 & H2 & H3).
  destruct (Hf (m e).1 _ H1 H3) as (? & ? & ?). split_and!; try done. by etrans.
Qed.
Lemma barren_of {A} (m : Act A) : sound (b:=false) m → keeps m → barren_sound m.
Proof. intros Hs Hk e He Hb. destruct (Hs e He) as (? & ? & _). split_and!; try done. by apply Hk. Qed.
Lemma barren_silent {A} (m : Act A) : silent m → barren_sound m.
Proof. intros Hm. apply barren_of; [by apply silent_sound|by apply silent_keeps]. Qed.

Lemma expire_entity_sound now scopes id : is_zero now = false → barren_sound (expire_entity now scopes id).
Proof.
  intros Hnow e He Hb. unfold expire_entity. rewrite bind_state. cbn [fst snd gets]. unfold GetEntity, is_deleted.
  destruct (g_entities (en_graph e) !! id) as [x|] eqn:Hx; [case_bool_decide as Hd|].
  1,3: apply barren_silent; [apply silent_bind; [apply silent_drop_ref|auto]|done..].
  assert (e_ID x = id) as Hid by by apply (cr_entities _ (gd_core _ He)).
  rewrite !(bind_state newID). cbn [fst snd].
  match goal with |- good ((commit ?ev0 _ ≫= ?f0) ?e0).2 ∧ _ => set (e1 := e0); set (ev := ev0); set (f := f0) end.
  assert (quiet e e1) as Hq by apply silent_newID.
  assert (barren e1) as Hb1 by by apply (silent_keeps _ silent_newID).
  destruct (admissible_quiet e e1 ev Hq) as [Ha Hdr].
  { split; [done|]. apply barren_deletion_ok; [done..|]. rewrite Hid live_lookup. done. }
  { intros m Hm. simpl. rewrite Hid. intros ->. destruct (gd_unused _ He m Hm). congruence. }
  assert (good e1) as He1 by by eapply quiet_good.
  assert (∀ r, barren_sound (f r)) as Hf.
  { unfold f. intros [err|ev']; [apply barren_silent; auto|]. apply barren_bind; [apply barren_silent, silent_drop_ref|]. intros [].
    apply barren_bind; [|intros []; apply barren_silent; auto].
    apply barren_of; [apply remove_incident_sound|]. apply keeps_bind; [apply silent_keeps, silent_gets|].
    intros rels. apply remove_edges_keeps. }
  rewrite bind_state. pose proof (commit_sound ev false e1 He1 Ha Hdr) as Hc.
  pose proof (commit_keeps ev false eq_refl e1 Hb1) as Hk.
  destruct (commit ev false e1) as [r e2]. destruct Hc as (G1 & G2 & _). cbn [fst snd] in *.
  destruct (Hf r e2 G1 Hk) as (? & ? & ?). split_and!; try done.
  transitivity e1; [by apply quiet_advance|]. by etrans.
Qed.

Lemma expire_entities_sound now scopes ids : is_zero now = false → barren_sound (expire_entities now scopes ids).
Proof.
  intros Hnow. induction ids as [|id ids IH]; [apply barren_silent, silent_ret|]. cbn [expire_entities].
  apply barren_bind; [by apply expire_entity_sound|]. intros [r errs]. apply barren_bind; [done|].
  intros [res errs']. apply barren_silent. auto.
Qed.

Lemma expire_pending_silent now ps : silent (expire_pending now ps).
Proof.
  induction ps as [|p ps IH]; [apply silent_ret|]. cbn [expire_pending]. apply silent_bind; [auto|]. intros [].
  apply silent_bind; [done|]. auto.
Qed.

Lemma expire_relations_sound b now ids : sound (b:=b) (expire_relations now ids).
Proof.
  induction ids as [|id ids IH]; [apply sound_ret|]. cbn [expire_relations]. apply sound_seq; [auto|]. intros rel.
  apply sound_bind; [|intros [n errs]; apply sound_bind; [apply IH|intros [n' errs']; apply sound_ret]].
  destruct rel as [rel|]; [|apply silent_sound; auto]. apply sound_relationEvent. intros re.
  apply sound_commit_relation. intros [err|ev]; apply silent_sound; auto.
Qed.

Lemma sweep_stage_sound now e : is_zero now = false → good e → barren e →
  good (sweep_stage now e).2 ∧ advance e (sweep_stage now e).2.
Proof.
  intros Hnow He Hb. unfold sweep_stage. rewrite bind_state. cbn [fst snd gets]. rewrite bind_state.
  match goal with |- context [modify ?f e] => set (e1 := (modify f e).2) end.
  assert (quiet e e1) as Hq by apply silent_refs.
  assert (good e1) as He1 by by eapply quiet_good.
  assert (barren e1) as Hb1 by by apply (silent_keeps _ (silent_refs (λ e, kept_speakers now <$> en_refs e))).
  rewrite bind_state. destruct (expire_entities_sound now (en_refs e) (orphans now (en_refs e)) Hnow e1 He1 Hb1) as (He2 & Ha2 & _).
  destruct (expire_entities now (en_refs e) (orphans now (en_refs e)) e1) as [[res errs] e2]. cbn [fst snd] in *.
  match goal with |- good (?m e2).2 ∧ _ => assert (sound (b:=false) m) as Hm end.
  { apply sound_seq; [auto|]. intros []. apply sound_seq; [auto|]. intros ps. apply sound_seq.
    { destruct ps; [auto|]. apply silent_bind; [apply expire_pending_silent|]. intros kept.
      apply silent_bind; [apply (silent_pending (λ _, kept))|auto]. }
    intros []. apply sound_seq; [auto|]. intros relBefore. apply sound_seq; [auto|]. intros [].
    apply sound_bind; [apply expire_relations_sound|]. intros [n errs']. apply sound_ret. }
  destruct (Hm e2 He2) as (? & ? & _). split; [done|]. transitivity e1; [by apply quiet_advance|]. by etrans.
Qed.

Lemma prune_good now e : good e → en_staged e = None →
  let e' := upd_graph (PruneTombstones now (en_graph e)).1 e in good e' ∧ advance e e'.
Proof.
  intros He Hst e'. destruct (gd_core _ He) as [HE HQ HR]. pose proof (prune_facts now (en_graph e) HE HQ) as Hp.
  unfold e'. destruct (PruneTombstones now (en_graph e)) as [g' n]. destruct Hp as (HE' & HQ' & EL & _ & ER & _ & _ & Hse & Hsd).
  simpl. assert (core g') as Hc by (split; [done..|by rewrite ER]).
  assert (unused (en_ids e) g') as Hu.
  { intros m Hm. destruct (gd_unused _ He m Hm) as [H1 H2]. split; [by eapply lookup_weaken_None|set_solver]. }
  split.
  - split; unfold vgraph, sdeleted; simpl; rewrite ?Hst; try done; intros; set_solver.
  - unfold advance. simpl. rewrite Hst. exists []. simpl. rewrite app_nil_r. unfold abs. rewrite EL ER. split_and!; try done.
    rewrite -{1}(map_fmap_id (en_subs e)). apply map_fmap_ext. intros i l _. by rewrite app_nil_r.
Qed.

Lemma sweep_sound e : good e → en_staged e = None →
  good (Sweep e).2 ∧ advance e (Sweep e).2 ∧ en_staged (Sweep e).2 = None.
Proof.
  intros He Hst. pose proof (opened_good e He Hst) as Ho. unfold Sweep. rewrite bind_state.
  change (modify (upd_staged (Some newStaged)) e).2 with (opened e). rewrite bind_state.
  set (now := (now_ (opened e)).1). assert (is_zero now = false) as Hnow by apply clock_started.
  assert (quiet (opened e) (now_ (opened e)).2) as Hq by apply silent_now.
  assert (good (now_ (opened e)).2) as He1 by by eapply quiet_good.
  assert (barren (now_ (opened e)).2) as Hb1 by by eexists.
  rewrite bind_state. destruct (sweep_stage_sound now _ Hnow He1 Hb1) as [He2 Ha2].
  destruct (sweep_stage now (now_ (opened e)).2) as [[res errs] e2]. cbn [fst snd] in *.
  assert (advance (opened e) e2) as Ha by (etrans; [by apply quiet_advance|done]).
  unfold advance in Ha. simpl in Ha. destruct (en_staged e2) as [st|] eqn:Hst2; [|done].
  destruct Ha as (EG & EL & ES & _). rewrite bind_state. cbn [fst snd gets]. rewrite Hst2.
  change (default newStaged (Some st)) with st.
  pose proof (flush_advance e e2 st He2 Hst2 Hst EG EL ES) as Hadv. pose proof (flush_spec e2 st He2 Hst2) as Hf.
  rewrite bind_state. destruct (flushStaged st e2) as [ferr e3]. destruct Hf as (He3 & Hst3 & _). cbn [fst snd] in *.
  rewrite bind_state. set (e4 := (modify _ e3).2). assert (quiet e3 e4) as Hq4 by apply silent_aliases.
  rewrite bind_state. set (e5 := (now_ e4).2). assert (quiet e3 e5) as Hq5 by (etrans; [exact Hq4|apply silent_now]).
  assert (good e5) as He5 by by eapply quiet_good.
  assert (en_staged e5 = None) as Hst5 by done.
  rewrite bind_state. destruct (prune_good (now_ e4).1 e5 He5 Hst5) as [G1 G2].
  split_and!; [done| |done]. etrans; [exact Hadv|]. etrans; [by apply quiet_advance|exact G2].
Qed.
End sound.

Create HintDb silent discriminated.
#[export] Hint Resolve silent_ret silent_bind silent_gets silent_now silent_newID : silent.
#[export] Hint Resolve sound_ret sound_bind silent_sound : silent.
