(* ===== verification/EngineSpec.v ===== *)
(** * What the change engine promises

    The engine as a client sees it, as a sequence of calls: the log, the
    projection and the subscribers move together; a batch is all or nothing and
    previews its own effect; references decide deletion; silence expires. *)
From S2P Require Import Prelude GoStd Values Vocabulary Entities Events DisplayNames.
From S2P Require Import Speakers Observations Aliases Projection ProjectionInv Engine EngineInv EngineSound.
#[local] Open Scope nat_scope.

(** ** The engine as a sequence of calls *)

Section spec.
Context {W X : Type} `{!Host} `{!HostLaws} `{!Appender W} `{!AppenderLaws W}.
#[local] Abbreviation Eng := (Engine W X).
#[local] Abbreviation Act := (M W X).

Inductive EngineOp :=
| ObserveEntity (obs : EntityObservation)
| DeleteEntity (obs : EntityObservation)
| ObserveRelation (obs : RelationObservation)
| RemoveRelation (obs : RelationObservation)
| DoBatch {A} (fn : BatchProg X A)
| DoSweep
| DoRestore (snap : livenessSnapshot).

Definition call (op : EngineOp) : Act unit :=
  match op with
  | ObserveEntity obs => observeEntityLocked obs;; mret tt
  | DeleteEntity obs => deleteEntityLocked obs;; mret tt
  | ObserveRelation obs => observeRelationBuffered obs;; mret tt
  | RemoveRelation obs => removeRelationLocked obs;; mret tt
  | DoBatch fn => Batch fn;; mret tt
  | DoSweep => Sweep;; mret tt
  | DoRestore snap => RestoreLiveness snap
  end.

Definition calls (ops : list EngineOp) (e : Eng) : Eng := foldl (λ e op, (call op e).2) e ops.

Lemma restore_speakers_silent legacy iv now id ps : silent (restore_speakers (W:=W) (X:=X) legacy iv now id ps).
Proof.
  induction ps as [|[p d] ps IH]; [apply silent_ret|]. cbn [restore_speakers]. destruct (splitRefKey p).
  apply silent_bind; [apply silent_promise|]. intros kept. apply silent_bind; [done|]. intros rest. apply silent_ret.
Qed.

Lemma restore_silent snap : silent (RestoreLiveness (W:=W) (X:=X) snap).
Proof.
  unfold RestoreLiveness. apply silent_bind; [apply silent_now|]. intros now. apply silent_bind.
  - generalize (map_to_list (ls_Refs snap)). intros l. induction l as [|[id ps] l IH]; [apply silent_ret|]. cbn [restore_refs].
    apply silent_bind; [apply restore_speakers_silent|]. intros sp. apply silent_bind; [apply silent_refs|done].
  - intros []. apply silent_bind; [apply silent_relRefs|]. intros []. apply silent_relRefs.
Qed.

Lemma sound_unit {A} (m : Act A) : sound (b:=false) m → sound (b:=false) (m;; mret tt).
Proof. intros Hm. apply sound_bind; [done|]. intros a. apply sound_ret. Qed.

Lemma call_sound op e : good e → en_staged e = None →
  good (call op e).2 ∧ advance e (call op e).2 ∧ en_staged (call op e).2 = None.
Proof.
  intros He Hst.
  assert (∀ m : Act unit, sound (b:=false) m → good (m e).2 ∧ advance e (m e).2 ∧ en_staged (m e).2 = None) as Hone.
  { intros m Hm. destruct (Hm e He) as (H1 & H2 & _). split_and!; try done. unfold advance in H2. rewrite Hst in H2.
    by destruct (en_staged (m e).2). }
  destruct op; cbn [call].
  - apply Hone, sound_unit, observe_entity_sound.
  - apply Hone, sound_unit, delete_entity_sound.
  - apply Hone, sound_unit, observe_relation_sound.
  - apply Hone, sound_unit, remove_relation_sound.
  - rewrite bind_state. by apply batch_sound.
  - rewrite bind_state. by apply sweep_sound.
  - apply Hone, silent_sound, restore_silent.
Qed.

Lemma calls_sound ops e : good e → en_staged e = None →
  good (calls ops e) ∧ advance e (calls ops e) ∧ en_staged (calls ops e) = None.
Proof.
  revert e. induction ops as [|op ops IH]; intros e He Hst; simpl; [split_and!; [done|reflexivity|done]|].
  destruct (call_sound op e He Hst) as (H1 & H2 & H3). destruct (IH _ H1 H3) as (H4 & H5 & H6).
  split_and!; try done. by etrans.
Qed.

Lemma new_engine_good g w (x : X) ttl : core g → unused 0 g → good (New_engine (W:=W) g w x ttl).
Proof. intros Hc Hu. split; unfold vgraph, sdeleted; simpl; try done; set_solver. Qed.

(** C1. The projection is what the log says. After any sequence of calls, from
    an engine over any sound projection, the log has gained some events and
    nothing else happened: the live entities and the relations are those events
    folded over the initial ones, every subscriber received exactly those events
    in that order, and the indexes are exact. Failed appends, sweeps, batches
    and restarts of the liveness state are all among the calls. *)
Theorem engine_follows_log (ops : list EngineOp) (g : Graph) (w : W) (x : X) (ttl : Duration)
    (subs : gmap Z (list (Event * bool))) (Hg : core g) (Hu : unused 0 g) :
  let e' := calls ops (upd_subs subs (New_engine g w x ttl)) in
  ∃ evs, logged (en_log e') = (logged w ++ evs.*1)%list ∧
    abs (en_graph e') = foldl astep (abs g) evs.*1 ∧
    en_subs e' = (λ inbox, inbox ++ evs)%list <$> subs ∧ core (en_graph e').
Proof.
  intros e'. set (e := upd_subs subs (New_engine g w x ttl)) in *.
  assert (good e) as He by (destruct (new_engine_good g w x ttl Hg Hu); by split).
  destruct (calls_sound ops e He eq_refl) as (H1 & H2 & H3). fold e' in H1, H2, H3.
  unfold advance in H2. rewrite H3 in H2. destruct H2 as (evs & HL & HA & HS & _).
  exists evs. split_and!; try done. apply H1.
Qed.

(** C3. A batch is all or nothing. When its append fails the projection, the log
    and every subscriber are as before and the registered undos have run, latest
    first, on the side state; when it succeeds the log gained the staged events,
    stamped, in one append, and the projection is the one the batch's own calls
    saw. *)
Theorem batch_all_or_nothing {A} (fn : BatchProg X A) (e : Eng) (He : good e) (Hst : en_staged e = None) :
  let e1 := (run_batch fn (opened e)).2 in
  ∃ st, en_staged e1 = Some st ∧
  let '(r, e') := Batch fn e in
  match r.2 with
  | Some _ => en_graph e' = en_graph e ∧ logged (en_log e') = logged (en_log e) ∧ en_subs e' = en_subs e ∧
      en_side e' = foldr (λ f s, f s) (en_side e1) (st_rollbacks st)
  | None => en_graph e' = vgraph e1 ∧ en_side e' = en_side e1 ∧
      ∃ evs, Forall2 same_event (st_events st).*1 evs ∧ logged (en_log e') = (logged (en_log e) ++ evs)%list
  end.
Proof.
  intros e1. pose proof (opened_good e He Hst) as Ho. pose proof (run_batch_sound fn (opened e) Ho) as (Hr & Hadv0 & _).
  destruct (batch_staged (run_batch fn) e Ho Hadv0) as (st & H1 & H2 & H3 & H4). fold e1 in H1, H2, H3, H4.
  exists st. split; [done|]. unfold Batch. rewrite !bind_state.
  change (modify (upd_staged (Some newStaged)) e).2 with (opened e). cbn [fst snd gets]. fold e1. rewrite H1.
  change (default newStaged (Some st)) with st. pose proof (flush_spec e1 st Hr H1) as Hf.
  destruct (flushStaged st e1) as [[err|] e']; destruct Hf as (_ & _ & _ & _ & Hf); cbn [fst snd mret M_ret].
  - destruct Hf as (-> & -> & -> & ->). by rewrite H2 H3 H4.
  - destruct Hf as (-> & -> & evs & HF & -> & _). split_and!; try done. exists evs. by rewrite H3.
Qed.

(** C34. Inside a batch the reads preview the flush: what the overlay answers for
    an identity, a relation, or a live entity is what the projection answers once
    the batch is durable. *)
Theorem batch_reads_preview_flush {A} (fn : BatchProg X A) (e : Eng) (typ : string) (identity : list KeyValue)
    (id : EntityID) (rid : RelationID)
    (He : good e) (Hst : en_staged e = None) (Hok : (Batch fn e).1.2 = None) :
  let e1 := (run_batch fn (opened e)).2 in
  let g' := en_graph (Batch fn e).2 in
  (matchIdentity typ identity e1).1 = MatchIdentity g' typ identity ∧
  (getRelation rid e1).1 = GetRelation g' rid ∧
  (∀ x, (getEntity id e1).1 = (Some x, false) ↔ live g' !! id = Some x).
Proof.
  intros e1 g'. pose proof (opened_good e He Hst) as Ho. pose proof (run_batch_sound fn (opened e) Ho) as (Hr & Hadv0 & _).
  destruct (batch_staged (run_batch fn) e Ho Hadv0) as (st & H1 & H2 & H3 & H4). fold e1 in H1, H2, H3, H4.
  rename Hr into He1. fold e1 in He1.
  assert (g' = vgraph e1) as ->.
  { unfold g'. revert Hok. unfold Batch. rewrite !bind_state.
    change (modify (upd_staged (Some newStaged)) e).2 with (opened e). cbn [fst snd gets]. fold e1. rewrite H1.
    change (default newStaged (Some st)) with st. pose proof (flush_spec e1 st He1 H1) as Hf.
    destruct (flushStaged st e1) as [[err|] e']; [done|]. intros _. apply Hf. }
  destruct (gd_overlay _ He1 st H1) as [VL VR _ _ _ _ _ _].
  split; [by rewrite match_view|]. split.
  - unfold getRelation, GetRelation, gets. cbn [fst]. by rewrite H1 VR.
  - intros x. unfold getEntity, gets. cbn [fst]. rewrite H1 VL.
    destruct (st_entities st !! id) as [y|]; [case_bool_decide; split; congruence|].
    unfold GetEntity, is_deleted. rewrite live_lookup_eq. repeat case_bool_decide; simpl; split; congruence.
Qed.
End spec.
