(* ===== verification/EngineEffects.v ===== *)
(** * The effect of each call

    What an observation, a deletion and a sweep do to the entities, the edges and
    the references, stated over the view a call reads and writes. *)
From S2P Require Import Prelude GoStd Values Vocabulary Entities Events DisplayNames.
From S2P Require Import Speakers Observations Aliases Projection ProjectionInv Engine EngineInv EngineSound EngineSpec.
#[local] Open Scope nat_scope.

Section effects.
Context {W X : Type} `{!Host} `{!HostLaws} `{!Appender W} `{!AppenderLaws W}.
#[local] Abbreviation Eng := (Engine W X).
#[local] Abbreviation Act := (M W X).
Implicit Types e : Eng.

(** *** Reads *)

Lemma get_view e id x : good e → live (vgraph e) !! id = Some x → (getEntity id e).1.1 = Some x.
Proof.
  intros He Hx. unfold getEntity, gets. cbn [fst]. destruct (en_staged e) as [st|] eqn:Hst.
  - rewrite (ov_live _ _ _ (gd_overlay _ He st Hst)) in Hx. case_bool_decide; [done|].
    destruct (st_entities st !! id); [done|]. apply live_lookup in Hx as [Hx _]. by rewrite /GetEntity Hx.
  - unfold vgraph in Hx. rewrite Hst in Hx. apply live_lookup in Hx as [Hx _]. by rewrite /GetEntity Hx.
Qed.

Lemma dedup_elem seen rels r :
  (∀ r1 r2, r1 ∈ rels → r2 ∈ rels → r_ID r1 = r_ID r2 → r1 = r2) →
  r ∈ dedup_relations seen rels ↔ r ∈ rels ∧ r_ID r ∉ seen.
Proof.
  revert seen. induction rels as [|r0 rels IH]; intros seen Hu; simpl; [set_solver|].
  assert (∀ r1 r2, r1 ∈ rels → r2 ∈ rels → r_ID r1 = r_ID r2 → r1 = r2) as Hu' by (intros; apply Hu; set_solver).
  case_bool_decide as Hs.
  - rewrite IH //. rewrite elem_of_cons. naive_solver.
  - rewrite !elem_of_cons IH //. destruct (decide (r = r0)) as [->|Hne]; [naive_solver|].
    split; [set_solver|]. intros [[|Hin] Hns]; [done|]. right. split; [done|].
    assert (r_ID r ≠ r_ID r0) by (intros ?; apply Hne, Hu; set_solver). set_solver.
Qed.

Lemma list_relations_elem g from to r :
  r ∈ ListRelations g "" from to ↔
  (∃ rid, g_relations g !! rid = Some r) ∧ (from = "" ∨ r_From r = from) ∧ (to = "" ∨ r_To r = to).
Proof.
  unfold ListRelations. rewrite sort_by_elem list_elem_of_filter elem_of_values. unfold filter_ok.
  rewrite !andb_true_iff !orb_true_iff !bool_decide_eq_true. naive_solver.
Qed.

(** Every edge of the view that touches the entity is listed. *)
Lemma touching_listed e id rid r : good e → id ≠ "" → g_relations (vgraph e) !! rid = Some r →
  r_From r = id ∨ r_To r = id → r ∈ (listRelationsTouching id e).1.
Proof.
  intros He Hid Hr Ht. unfold listRelationsTouching, gets. cbn [fst].
  assert (∀ rels seen, (∀ r1, r1 ∈ rels → ∃ k, g_relations (en_graph e) !! k = Some r1) → ∀ r1,
    r1 ∈ dedup_relations seen rels ↔ r1 ∈ rels ∧ r_ID r1 ∉ seen) as Hdd.
  { intros rels seen Hin r1. apply dedup_elem. intros a b (ka & Ha)%Hin (kb & Hb)%Hin Hab.
    pose proof (cr_relations _ (gd_core _ He) _ _ Ha). pose proof (cr_relations _ (gd_core _ He) _ _ Hb). congruence. }
  assert (∀ r1, r1 ∈ (ListRelations (en_graph e) "" id "" ++ ListRelations (en_graph e) "" "" id)%list ↔
    (∃ k, g_relations (en_graph e) !! k = Some r1) ∧ (r_From r1 = id ∨ r_To r1 = id)) as Hscan.
  { intros r1. rewrite elem_of_app !list_relations_elem. naive_solver. }
  destruct (en_staged e) as [st|] eqn:Hst.
  - destruct (gd_overlay _ He st Hst) as [_ VR VK VS _ _ _ _]. rewrite VR in Hr. case_bool_decide as Hrem; [done|].
    rewrite sort_by_elem elem_of_app !list_elem_of_filter elem_of_values Hdd; [|intros r1; rewrite Hscan; naive_solver].
    destruct (st_relations st !! rid) as [r'|] eqn:Hs; [simplify_eq; left; eauto|].
    right. pose proof (cr_relations _ (gd_core _ He) _ _ Hr) as Hk. rewrite Hk. split; [done|]. split; [apply Hscan; eauto|].
    rewrite elem_of_list_to_set list_elem_of_fmap. intros (r2 & Hk2 & [_ (k2 & Hr2)%elem_of_values]%list_elem_of_filter).
    pose proof (VK _ _ Hr2). congruence.
  - unfold vgraph in Hr. rewrite Hst in Hr.
    rewrite sort_by_elem elem_of_app !list_elem_of_filter Hdd; [|intros r1; rewrite Hscan; naive_solver].
    right. split; [set_solver|]. split; [apply Hscan; eauto|set_solver].
Qed.

(** *** Frames *)

(** A part of the state an action leaves alone. *)
Definition same {F A} (part : Eng → F) (m : Act A) : Prop := ∀ e, part (m e).2 = part e.
#[local] Abbreviation same_refs := (same en_refs).

Lemma same_bind {F A B} (part : Eng → F) (m : Act A) (f : A → Act B) :
  same part m → (∀ a, same part (f a)) → same part (m ≫= f).
Proof. intros Hm Hf e. rewrite bind_state. by rewrite Hf Hm. Qed.

(** What a commit cannot reach: everything but the log, the projection, the batch,
    the subscribers and the clock. *)
Record uncommitted {F} (part : Eng → F) : Prop := {
  un_graph : ∀ x e, part (upd_graph x e) = part e;
  un_log : ∀ x e, part (upd_log x e) = part e;
  un_tick : ∀ x e, part (upd_tick x e) = part e;
  un_staged : ∀ x e, part (upd_staged x e) = part e;
  un_subs : ∀ x e, part (upd_subs x e) = part e;
}.

Lemma commit_same {F} (part : Eng → F) ev hp : uncommitted part → same part (commit ev hp).
Proof.
  intros [Hg Hl Ht Hs Hn]. assert (∀ evs, same part (deliver evs)) as Hd.
  { induction evs as [|[ev' hp'] evs IH]; [done|]. cbn [deliver]. apply same_bind; [intros e; apply Ht|]. intros now.
    apply same_bind; [intros e; apply Hg|]. intros []. apply same_bind; [intros e; apply Hn|]. intros []. apply IH. }
  unfold commit. apply same_bind; [done|]. intros [st|].
  - apply same_bind; [|done]. intros e. unfold on_staged, modify. cbn [snd]. destruct (en_staged e); [apply Hs|done].
  - apply same_bind; [intros e; unfold append_; destruct (Append _ _); apply Hl|]. intros [msg|evs]; [done|].
    apply same_bind; [apply Hd|done].
Qed.

Lemma refs_uncommitted : uncommitted (en_refs : Eng → _).
Proof. by split. Qed.
Lemma relRefs_uncommitted : uncommitted (en_relRefs : Eng → _).
Proof. by split. Qed.

Lemma commit_refs ev hp : same_refs (commit ev hp).
Proof. apply commit_same, refs_uncommitted. Qed.

Lemma relationEvent_refs ct rel t src : same_refs (relationEvent ct rel t src).
Proof. unfold relationEvent. repeat (apply same_bind; [done|]; intros). done. Qed.

Lemma remove_edges_refs rels when : same_refs (remove_edges rels when).
Proof.
  induction rels as [|rel rels IH]; [done|]. cbn [remove_edges]. apply same_bind; [apply relationEvent_refs|]. intros ev.
  apply same_bind; [apply commit_refs|]. intros r. apply same_bind; [by destruct r|]. intros [n errs].
  apply same_bind; [apply IH|]. by intros [].
Qed.

(** *** Removing edges *)

Lemma remove_edges_effect rels when e : good e → (remove_edges rels when e).1.2 = [] →
  g_relations (vgraph (remove_edges rels when e).2) =
  base.filter (λ kr, kr.1 ∉ r_ID <$> rels) (g_relations (vgraph e)).
Proof.
  revert e. induction rels as [|rel rels IH]; intros e He; cbn [remove_edges].
  { intros _. symmetry. apply map_filter_id. intros; set_solver. }
  rewrite bind_state. pose proof (silent_relationEvent RelationRemoved rel when DeleteSourceCascade e) as Hq.
  assert (∃ re, (relationEvent RelationRemoved rel when DeleteSourceCascade e).1 = relation_event re ∧
    re_ChangeType re = RelationRemoved ∧ re_Relation re = rel) as (re & -> & Hct & Hrel)
    by (unfold relationEvent; rewrite !bind_state; simpl; eauto).
  set (e1 := (relationEvent _ _ _ _ e).2) in *. assert (good e1) as He1 by by eapply quiet_good.
  destruct (quiet_vgraph _ _ Hq) as [EV _]. rewrite bind_state.
  pose proof (commit_sound (relation_event re) (r_Structural rel) e1 He1 I I) as Hc.
  destruct (commit (relation_event re) (r_Structural rel) e1) as [[err|ev'] e2]; cbn [fst snd]; rewrite bind_state; simpl.
  { rewrite bind_state. by destruct (remove_edges rels when e2) as [[n errs] e3]. }
  destruct Hc as (He2 & _ & _ & HV). rewrite bind_state.
  set (e3 := upd_relRefs _ e2). assert (quiet e2 e3) as Hq3.
  { split; try done. unfold same_staged. simpl. by destruct (en_staged e2). }
  assert (good e3) as He3 by by eapply quiet_good. destruct (quiet_vgraph _ _ Hq3) as [EV3 _].
  specialize (IH e3 He3). destruct (remove_edges rels when e3) as [[n errs] e4]. simpl in *. intros Herr.
  rewrite IH // EV3 HV EV. unfold Apply, applyRelation. simpl. rewrite Hct Hrel. simpl.
  apply map_eq. intros k. apply option_eq. intros r. rewrite !map_lookup_filter_Some lookup_delete_Some. simpl.
  rewrite elem_of_cons. naive_solver.
Qed.

(** *** Observations *)

(** What an observation is classified as, over the view. *)
Lemma classify_view obs e : good e →
  let '((ct, id, changed, _), _) := classify_observation obs e in
  match MatchIdentity (vgraph e) (eo_Type obs) (eo_Identity obs) with
  | Some id0 => id = id0 ∧ ∃ x, live (vgraph e) !! id = Some x ∧
      changed = (diffAttributes (e_Attributes x) (eo_Attributes obs)).1 ∧
      ct = classify changed (diffAttributes (e_Attributes x) (eo_Attributes obs)).2
  | None => ct = EntityCreated ∧ changed = []
  end.
Proof.
  intros He. unfold classify_observation. rewrite bind_state match_view; [|done]. cbn [fst snd].
  destruct (MatchIdentity (vgraph e) (eo_Type obs) (eo_Identity obs)) as [id|] eqn:Hm.
  - apply match_live in Hm as (x & Hx & _); [|by apply He]. rewrite bind_state (get_view e id x He Hx).
    change (default zero_Entity (Some x)) with x.
    destruct (diffAttributes (e_Attributes x) (eo_Attributes obs)) as [changed sc] eqn:Hd.
    change (id = id ∧ ∃ y, live (vgraph e) !! id = Some y ∧ changed = (diffAttributes (e_Attributes y) (eo_Attributes obs)).1 ∧
      classify changed sc = classify changed (diffAttributes (e_Attributes y) (eo_Attributes obs)).2).
    split; [done|]. exists x. by rewrite Hd.
  - rewrite bind_state. destruct (matchTombstone _ _ e) as [[rid|] e1]; done.
Qed.

(** The event an observation commits, and the view it leaves. *)
Lemma observe_entity_view obs e : good e →
  let '((ct, id, changed, _), _) := classify_observation obs e in
  let '((ev, err), e') := observeEntityLocked obs e in
  match err with
  | Some _ => ev = None ∧ live (vgraph e') = live (vgraph e)
  | None => ∃ evt ee, ev = Some evt ∧ ev_Entity evt = Some ee ∧ ee_Entity ee = observed obs id ∧
      ee_ChangeType ee = ct ∧ ee_ChangedKeys ee = changed ∧
      live (vgraph e') = if bool_decide (ct = EntityUnchanged) then live (vgraph e) else <[id := observed obs id]> (live (vgraph e))
  end.
Proof.
  intros He. unfold observeEntityLocked. rewrite bind_state.
  pose proof (classify_sound obs e He) as Hcl. pose proof (classify_view obs e He) as Hcv.
  destruct (classify_observation obs e) as [[[[ct id] changed] prev] e1]. destruct Hcl as [Hq Hadm]. cbn [fst snd].
  rewrite !(bind_state newID). rewrite !(bind_state now_). rewrite !(bind_state currentScope). cbn [fst snd].
  set (e2 := (now_ (newID e1).2).2). rewrite bind_state.
  match goal with |- context [commit ?ev0 false ?e0] => set (ev := ev0); change e0 with e2 end.
  assert (quiet e1 e2) as Hq2.
  { transitivity (newID e1).2; [apply silent_newID|]. apply (silent_now (newID e1).2). }
  destruct (Hadm (newID e1).1 (now_ (newID e1).2).1 (currentScope e2).1 (clock_started _)) as [Ha Hd].
  destruct (admissible_quiet _ _ _ Hq2 Ha Hd) as [Ha2 Hd2].
  assert (quiet e e2) as Hqe by by etrans. assert (good e2) as He2 by by eapply quiet_good.
  destruct (quiet_vgraph _ _ Hqe) as [EV _].
  pose proof (commit_sound ev false e2 He2 Ha2 Hd2) as Hc.
  destruct (commit ev false e2) as [[err|ev'] e3]; cbn [fst snd].
  { destruct Hc as (_ & _ & HV). simpl. by rewrite HV EV. }
  destruct Hc as (He3 & _ & Hsame & HV).
  match goal with |- context [(promise ?a ?b ?c ?d ≫= ?f) e3] => set (m := promise a b c d ≫= f) end.
  assert (sound (b:=true) m) as Hm.
  { unfold m. apply sound_seq; [apply silent_promise|]. intros iv. apply sound_seq.
    { apply silent_if; [apply silent_bind; [apply silent_now|intros; apply silent_ret]|apply silent_ret]. }
    intros ref. apply sound_seq; [apply silent_refs|]. intros []. apply sound_seq; [apply silent_track|]. intros [].
    apply sound_seq; [apply silent_gets|]. intros waited. apply sound_bind; [destruct waited; [apply flush_pending_sound|apply sound_ret]|].
    intros []. apply sound_ret. }
  destruct (Hm e3 He3) as (_ & _ & HL). specialize (HL eq_refl).
  assert ((m e3).1 = (Some ev', None)) as Hres.
  { unfold m. rewrite bind_state bind_state bind_state bind_state bind_state. destruct (gets _ _) as [waited e4]. by rewrite bind_state. }
  destruct (m e3) as [[ev'' err] e4]. simpl in Hres, HL. injection Hres as -> ->.
  destruct (same_event_entity _ _ _ Hsame eq_refl) as (ee' & Hee & Hent & Hct & Hch). exists ev', ee'.
  split_and!; try done. rewrite HL HV EV. clear -Ha2 EV Hcv.
  change (live (Apply 0 ev (vgraph e))) with (abs (Apply 0 ev (vgraph e))).1.
  rewrite apply_abs; [|rewrite -EV; by eapply admissible_heartbeat].
  assert (ct ≠ EntityDeleted) as Hnd.
  { destruct (MatchIdentity (vgraph e) _ _); [|by destruct Hcv as [-> _]]. destruct Hcv as (_ & x & _ & _ & ->).
    unfold classify. destruct changed; [done|]. by case_match. }
  destruct Ha2 as [_ Ha2]. unfold astep. cbn -[bool_decide live]. simpl in Ha2. destruct ct; try done.
Qed.

(** C5. What one observation does. Unless the append fails, in which case no
    entity changes, it emits exactly one event carrying the observed state. If a
    live entity has that identity the event is about it, its change type is the
    exact classification of the attribute difference and its changed keys are
    that difference, and the entity becomes the observed one unless nothing
    changed; otherwise an entity is created. No other entity is touched. *)
Theorem observe_entity_effect (obs : EntityObservation) (e : Eng) (He : good e) :
  let '((ev, err), e') := observeEntityLocked obs e in
  match err with
  | Some _ => ev = None ∧ live (vgraph e') = live (vgraph e)
  | None => ∃ evt ee id, ev = Some evt ∧ ev_Entity evt = Some ee ∧ ee_Entity ee = observed obs id ∧
    match MatchIdentity (vgraph e) (eo_Type obs) (eo_Identity obs) with
    | Some id0 => id = id0 ∧ ∃ x, live (vgraph e) !! id = Some x ∧
        let '(changed, stateChanged) := diffAttributes (e_Attributes x) (eo_Attributes obs) in
        ee_ChangedKeys ee = changed ∧ ee_ChangeType ee = classify changed stateChanged ∧
        live (vgraph e') = match changed with [] => live (vgraph e) | _ => <[id := observed obs id]> (live (vgraph e)) end
    | None => ee_ChangeType ee = EntityCreated ∧ ee_ChangedKeys ee = [] ∧
        live (vgraph e') = <[id := observed obs id]> (live (vgraph e))
    end
  end.
Proof.
  pose proof (observe_entity_view obs e He) as Hv. pose proof (classify_view obs e He) as Hc.
  destruct (classify_observation obs e) as [[[[ct id] changed] prev] e1].
  destruct (observeEntityLocked obs e) as [[ev [err|]] e']; [done|].
  destruct Hv as (evt & ee & -> & Hee & Hent & Hct & Hch & HL). exists evt, ee, id. split_and!; try done.
  destruct (MatchIdentity _ _ _) as [id0|].
  - destruct Hc as (-> & x & Hx & -> & ->). split; [done|]. exists x. split; [done|].
    destruct (diffAttributes _ _) as [changed sc]. simpl in *. split_and!; try done. rewrite HL. unfold classify.
    destruct changed; [done|]. by destruct sc.
  - destruct Hc as [-> ->]. done.
Qed.

(** *** Deletions *)

(** What is left of an entity's references after a producer's release. *)
Definition released (e : Eng) (id : EntityID) (obs : EntityObservation) : Speakers :=
  default ∅ ((λ refs, (releaseSpeaker refs (eo_Producer obs) (currentScope e).1).1) <$> en_refs e !! id).

(** C6. Deletion is reference counted and cascades. A producer's delete of a live
    entity that another speaker still references only drops the producer's own
    reference: no event, nothing else moves. When no reference is left, a delete
    that reports no error removes exactly that entity, and afterwards no relation
    has it at either end. *)
Theorem delete_entity_effect (obs : EntityObservation) (e : Eng) (id : EntityID)
    (He : good e) (Hm : MatchIdentity (vgraph e) (eo_Type obs) (eo_Identity obs) = Some id) (Hid : id ≠ "") :
  let '((ev, errs), e') := deleteEntityLocked obs e in
  (released e id obs ≠ ∅ →
     ev = None ∧ errs = [] ∧ vgraph e' = vgraph e ∧ en_log e' = en_log e ∧
     en_refs e' = <[id := released e id obs]> (en_refs e)) ∧
  (released e id obs = ∅ → errs = [] →
     is_Some ev ∧ live (vgraph e') = delete id (live (vgraph e)) ∧
     (∀ rid r, g_relations (vgraph e') !! rid = Some r → r_From r ≠ id ∧ r_To r ≠ id) ∧
     en_refs e' = delete id (en_refs e)).
Proof.
  unfold deleteEntityLocked. rewrite bind_state match_view; [|done]. cbn [fst snd]. rewrite Hm.
  apply match_live in Hm as (x & Hx & _); [|by apply He].
  rewrite (bind_state currentScope) (bind_state (gets _)). cbn [fst snd gets]. rewrite bind_state.
  change (en_refs (currentScope e).2 !! id) with (en_refs e !! id). fold (released e id obs).
  match goal with |- context [modify ?f ?e0] => set (e1 := (modify f e0).2) end.
  assert (quiet e e1) as Hq1.
  { unfold e1, modify. cbn [snd]. repeat case_match; (reflexivity || (split; simpl; try done; unfold same_staged; by destruct (en_staged e))). }
  assert (en_refs e1 = if decide (released e id obs = ∅) then delete id (en_refs e) else <[id := released e id obs]> (en_refs e)) as Hr1.
  { unfold e1, modify, released. cbn [snd]. destruct (en_refs e !! id) as [sp|] eqn:Hsp; simpl.
    - case_bool_decide; case_decide; done.
    - by rewrite delete_id. }
  clearbody e1. case_bool_decide as Hrel; cbn [fst snd].
  { split; [|done]. intros _. destruct (quiet_vgraph _ _ Hq1) as [-> _]. rewrite (qu_log _ _ Hq1) Hr1. by rewrite decide_False. }
  rewrite decide_True // in Hr1.
  rewrite !(bind_state newID). rewrite !(bind_state now_). cbn [fst snd].
  set (e2 := (now_ (newID e1).2).2). rewrite bind_state.
  match goal with |- context [commit ?ev0 false ?e0] => set (ev := ev0); change e0 with e2 end.
  assert (quiet e e2) as Hq.
  { etrans; [exact Hq1|]. transitivity (newID e1).2; [apply silent_newID|]. apply (silent_now (newID e1).2). }
  destruct (admissible_quiet e e2 ev Hq) as [Ha Hd].
  { split; [apply clock_started|]. apply live_deletion_ok; [by apply He|]. simpl. eauto. }
  { change (∀ m, en_ids e ≤ m → id ≠ ulid m). apply live_drawn; eauto. }
  assert (good e2) as He2 by by eapply quiet_good. destruct (quiet_vgraph _ _ Hq) as [EV _].
  pose proof (commit_sound ev false e2 He2 Ha Hd) as Hc. pose proof (commit_refs ev false e2) as Hcr.
  destruct (commit ev false e2) as [[err|ev'] e3]; cbn [fst snd mret M_ret]; [by split; [intros []|intros _]|].
  destruct Hc as (He3 & _ & _ & HV). cbn [fst snd] in Hcr. rewrite !bind_state.
  set (e4 := (modify _ e3).2).
  assert (quiet e3 e4) as Hq4 by apply silent_contested. assert (good e4) as He4 by by eapply quiet_good.
  destruct (quiet_vgraph _ _ Hq4) as [EV4 _]. unfold removeIncidentRelations. rewrite bind_state.
  change (listRelationsTouching id e4).2 with e4.
  set (rels := (listRelationsTouching id e4).1).
  pose proof (remove_edges_effect rels (eo_EventTime obs) e4 He4) as Hre.
  pose proof (remove_edges_refs rels (eo_EventTime obs) e4) as Hrr.
  destruct (remove_edges_sound true rels (eo_EventTime obs) e4 He4) as (_ & _ & HL). specialize (HL eq_refl).
  destruct (remove_edges rels (eo_EventTime obs) e4) as [[n errs] e5]. simpl in *.
  split; [by intros []|]. intros _ ->. specialize (Hre eq_refl).
  split_and!.
  - eauto.
  - rewrite HL EV4 HV EV. change (live (Apply 0 ev (vgraph e))) with (abs (Apply 0 ev (vgraph e))).1.
    rewrite apply_abs; [done|]. by intros.
  - intros rid r. rewrite Hre. intros [Hr Hn]%map_lookup_filter_Some. simpl in Hn.
    assert (¬ (r_From r = id ∨ r_To r = id)) as Hnt; [|tauto].
    intros Ht. apply Hn. rewrite -(cr_relations _ (gd_vcore _ He4) _ _ Hr). apply list_elem_of_fmap_2.
    by eapply touching_listed.
  - by rewrite Hrr /= Hcr.
Qed.

(** *** Sweeps *)

Lemma drop_pending_refs obs : same_refs (dropPendingRelation obs).
Proof.
  unfold dropPendingRelation. apply same_bind; [done|]. intros live. destruct live; [done|].
  intros e. unfold reportDiscard, report, modify. simpl. by case_match.
Qed.

Lemma expire_pending_refs now ps : same_refs (expire_pending now ps).
Proof.
  induction ps as [|p ps IH]; [done|]. cbn [expire_pending]. apply same_bind.
  - destruct (after _ _); [apply drop_pending_refs|done].
  - intros []. by apply same_bind.
Qed.

Lemma expire_relations_refs now ids : same_refs (expire_relations now ids).
Proof.
  induction ids as [|id ids IH]; [done|]. cbn [expire_relations]. apply same_bind; [done|]. intros rel.
  apply same_bind; [|intros [n errs]; apply same_bind; [apply IH|by intros []]].
  destruct rel as [rel|]; [|by apply same_bind]. apply same_bind; [apply relationEvent_refs|]. intros ev.
  apply same_bind; [apply commit_refs|]. intros [err|ev']; [done|by apply same_bind].
Qed.

Lemma expire_entity_effect now scopes id e : is_zero now = false → good e → barren e →
  let e' := (expire_entity now scopes id e).2 in
  live (vgraph e') = delete id (live (vgraph e)) ∧ en_refs e' = delete id (en_refs e).
Proof.
  intros Hnow He Hb. unfold expire_entity. rewrite bind_state. cbn [fst snd gets]. unfold GetEntity, is_deleted.
  assert (live (en_graph e) !! id = None → live (vgraph e) !! id = None) as Hnone.
  { destruct Hb as (st & Hst & Hemp). rewrite (ov_live _ _ _ (gd_overlay _ He st Hst)) Hemp lookup_empty. by case_bool_decide. }
  rewrite live_lookup_eq in Hnone.
  destruct (g_entities (en_graph e) !! id) as [x|] eqn:Hx; [case_bool_decide as Hd|].
  1,3: (rewrite bind_state; destruct (quiet_vgraph _ _ (silent_drop_ref id e)) as [EV _]; cbn [fst snd mret M_ret];
    rewrite EV delete_id; [done|apply Hnone; by case_bool_decide || done]).
  assert (e_ID x = id) as Hid by by apply (cr_entities _ (gd_core _ He)).
  rewrite !(bind_state newID). cbn [fst snd]. set (e1 := (newID e).2). rewrite bind_state.
  match goal with |- context [commit ?ev0 false ?e0] => set (ev := ev0); change e0 with e1 end.
  assert (quiet e e1) as Hq by apply silent_newID.
  assert (barren e1) as Hb1 by by apply (silent_keeps _ silent_newID).
  destruct (admissible_quiet e e1 ev Hq) as [Ha Hdr].
  { split; [done|]. apply barren_deletion_ok; [done..|]. rewrite Hid live_lookup. done. }
  { intros m Hm. simpl. rewrite Hid. intros ->. destruct (gd_unused _ He m Hm). congruence. }
  assert (good e1) as He1 by by eapply quiet_good. destruct (quiet_vgraph _ _ Hq) as [EV _].
  destruct Hb1 as (st & Hst1 & _). destruct (commit_batched ev false e1 st Hst1 He1 Ha Hdr) as (-> & He2 & _ & HV).
  set (e2 := upd_staged _ e1) in *. cbn [fst snd]. rewrite bind_state. set (e3 := (drop_ref id e2).2).
  assert (quiet e2 e3) as Hq3 by apply silent_drop_ref. assert (good e3) as He3 by by eapply quiet_good.
  destruct (quiet_vgraph _ _ Hq3) as [EV3 _]. rewrite bind_state.
  unfold removeIncidentRelations. rewrite bind_state. change (listRelationsTouching id e3).2 with e3.
  set (rels := (listRelationsTouching id e3).1). pose proof (remove_edges_refs rels now e3) as Hrr.
  destruct (remove_edges_sound true rels now e3 He3) as (_ & _ & HL). specialize (HL eq_refl).
  destruct (remove_edges rels now e3) as [[n errs] e4]. cbn [fst snd mret M_ret] in *. split.
  - rewrite HL EV3 HV EV. change (live (Apply 0 ev (vgraph e))) with (abs (Apply 0 ev (vgraph e))).1.
    rewrite apply_abs; [|by intros]. simpl. by rewrite Hid.
  - by rewrite Hrr.
Qed.

Lemma expire_entities_effect now scopes ids e : is_zero now = false → good e → barren e →
  let e' := (expire_entities now scopes ids e).2 in
  (∀ id, live (vgraph e') !! id = if decide (id ∈ ids) then None else live (vgraph e) !! id) ∧
  (∀ id, en_refs e' !! id = if decide (id ∈ ids) then None else en_refs e !! id).
Proof.
  intros Hnow. revert e. induction ids as [|i ids IH]; intros e He Hb; cbn [expire_entities]; [done|].
  rewrite bind_state. destruct (expire_entity_sound now scopes i Hnow e He Hb) as (He1 & _ & Hb1).
  destruct (expire_entity_effect now scopes i e Hnow He Hb) as [EL ER].
  destruct (expire_entity now scopes i e) as [[r errs] e1]. cbn [fst snd] in *.
  rewrite bind_state. destruct (IH e1 He1 Hb1) as [HL HR].
  destruct (expire_entities now scopes ids e1) as [[res errs'] e2]. cbn [fst snd mret M_ret] in *.
  split; intros id; rewrite ?HL ?HR ?EL ?ER lookup_delete; repeat case_decide; subst; try done; set_solver.
Qed.

(** The staged part of a sweep. *)
Lemma sweep_stage_effect now e : is_zero now = false → good e → barren e →
  let e' := (sweep_stage now e).2 in
  (∀ id, live (vgraph e') !! id = if decide (id ∈ orphans now (en_refs e)) then None else live (vgraph e) !! id) ∧
  (∀ id, en_refs e' !! id = if decide (id ∈ orphans now (en_refs e)) then None else kept_speakers now <$> en_refs e !! id).
Proof.
  intros Hnow He Hb. unfold sweep_stage. rewrite bind_state. cbn [fst snd gets]. rewrite bind_state.
  set (e1 := (modify (λ e, upd_refs (kept_speakers now <$> en_refs e) e) e).2).
  assert (quiet e e1) as Hq by apply silent_refs. destruct (quiet_vgraph _ _ Hq) as [EV _].
  assert (good e1) as He1 by by eapply quiet_good.
  assert (barren e1) as Hb1 by by apply (silent_keeps _ (silent_refs (λ e, kept_speakers now <$> en_refs e))).
  rewrite bind_state. destruct (expire_entities_effect now (en_refs e) (orphans now (en_refs e)) e1 Hnow He1 Hb1) as [HL HR].
  destruct (expire_entities_sound now (en_refs e) (orphans now (en_refs e)) Hnow e1 He1 Hb1) as (He2 & _ & _).
  destruct (expire_entities now (en_refs e) (orphans now (en_refs e)) e1) as [[res errs] e2]. cbn [fst snd] in *.
  match goal with |- context [vgraph (?m e2).2] => assert (sound (b:=true) m ∧ same_refs m) as [Hm Hr] end.
  { split.
    - apply sound_seq; [apply silent_contested|]. intros []. apply sound_seq; [apply silent_gets|]. intros ps. apply sound_seq.
      { destruct ps; [apply silent_ret|]. apply silent_bind; [apply expire_pending_silent|]. intros kept.
        apply silent_bind; [apply (silent_pending (λ _, kept))|intros []; apply silent_rebuild]. }
      intros []. apply sound_seq; [apply silent_gets|]. intros relBefore. apply sound_seq; [apply silent_relRefs|]. intros [].
      apply sound_bind; [apply expire_relations_sound|]. intros [n errs']. apply sound_ret.
    - apply same_bind; [done|]. intros []. apply same_bind; [done|]. intros ps. apply same_bind.
      { destruct ps as [|p ps]; [done|]. apply same_bind; [apply expire_pending_refs|]. intros kept. by apply same_bind. }
      intros []. apply same_bind; [done|]. intros relBefore. apply same_bind; [done|]. intros [].
      apply same_bind; [apply expire_relations_refs|]. by intros []. }
  destruct (Hm e2 He2) as (_ & _ & HLm). rewrite (HLm eq_refl) Hr. rewrite -EV. split; [done|].
  intros id. rewrite HR. unfold e1. simpl. by rewrite lookup_fmap.
Qed.

(** C4. A sweep expires exactly the silent. The references it keeps are those
    whose deadline has not passed (or that have none), and an entity keeps an
    entry only while one is left. When the sweep reports no error, an entity is
    gone from the live ones if and only if none of its references survived;
    whatever the outcome, an entity with a surviving reference stays as it was. *)
Theorem sweep_expires_exactly (e : Eng) (He : good e) (Hst : en_staged e = None) :
  let now := clock (en_tick e) in
  let '((_, errs), e') := Sweep e in
  let silent id := id ∈ orphans now (en_refs e) in
  (∀ id, en_refs e' !! id = if decide (silent id) then None else kept_speakers now <$> en_refs e !! id) ∧
  (errs = [] → ∀ id, live (en_graph e') !! id = if decide (silent id) then None else live (en_graph e) !! id) ∧
  (∀ id, ¬ silent id → live (en_graph e') !! id = live (en_graph e) !! id).
Proof.
  intros now. pose proof (opened_good e He Hst) as Ho. unfold Sweep. rewrite bind_state.
  change (modify (upd_staged (Some newStaged)) e).2 with (opened e). rewrite bind_state.
  change (now_ (opened e)).1 with now. set (e1 := (now_ (opened e)).2).
  assert (is_zero now = false) as Hnow by apply clock_started.
  assert (quiet (opened e) e1) as Hq by apply silent_now. assert (good e1) as He1 by by eapply quiet_good.
  assert (barren e1) as Hb1 by by eexists.
  rewrite bind_state. destruct (sweep_stage_sound now e1 Hnow He1 Hb1) as [He2 Ha2].
  destruct (sweep_stage_effect now e1 Hnow He1 Hb1) as [HL HR].
  change (en_refs e1) with (en_refs e) in HL, HR. change (vgraph e1) with (en_graph e) in HL.
  destruct (sweep_stage now e1) as [[res errs] e2]. cbn [fst snd] in *.
  assert (advance (opened e) e2) as Ha by (etrans; [by apply quiet_advance|done]).
  unfold advance in Ha. simpl in Ha. destruct (en_staged e2) as [st|] eqn:Hst2; [|done].
  destruct Ha as (EG & _ & _ & _). rewrite bind_state. cbn [fst snd gets]. rewrite Hst2.
  change (default newStaged (Some st)) with st. pose proof (flush_spec e2 st He2 Hst2) as Hf.
  rewrite bind_state. destruct (flushStaged st e2) as [ferr e3]. destruct Hf as (He3 & Hst3 & ER3 & _ & Hf). cbn [fst snd] in *.
  rewrite bind_state. set (e4 := (modify _ e3).2). rewrite bind_state. set (e5 := (now_ e4).2).
  rewrite bind_state.
  assert (live (PruneTombstones (now_ e4).1 (en_graph e3)).1 = live (en_graph e3)) as Hp.
  { destruct (gd_core _ He3) as [HE HQ _]. pose proof (prune_facts (now_ e4).1 (en_graph e3) HE HQ) as Hpf.
    destruct (PruneTombstones (now_ e4).1 (en_graph e3)) as [g' n]. cbn [fst]. by destruct Hpf as (_ & _ & -> & _). }
  destruct ferr as [err|]; cbn [fst snd mret M_ret modify upd_graph en_graph en_refs];
    change (en_refs e5) with (en_refs e3); change (en_graph e5) with (en_graph e3); rewrite ER3 Hp.
  - destruct Hf as (-> & _). rewrite EG. split_and!; [done| |done]. intros Herr. by destruct errs.
  - destruct Hf as (-> & _). split_and!; [done|done|]. intros id Hns. rewrite HL. by rewrite decide_False.
Qed.
End effects.
