(* ===== verification/EngineRelations.v ===== *)
(** * The effect of the relation calls

    What asserting and retracting an edge do to the relations and to the
    references on them, stated over the view a call reads and writes. *)
From S2P Require Import Prelude GoStd Values Vocabulary Entities Events DisplayNames.
From S2P Require Import Speakers Observations Aliases Projection ProjectionInv Engine EngineInv EngineSound EngineSpec EngineEffects.
#[local] Open Scope nat_scope.

Section relations.
Context {W X : Type} `{!Host} `{!HostLaws} `{!Appender W} `{!AppenderLaws W}.
#[local] Abbreviation Eng := (Engine W X).
#[local] Abbreviation Act := (M W X).
Implicit Types e : Eng.

(** *** Reads *)

Lemma get_relation_view e rid : good e → getRelation rid e = (g_relations (vgraph e) !! rid, e).
Proof.
  intros He. unfold getRelation, gets, GetRelation. f_equal. destruct (en_staged e) as [st|] eqn:Hst.
  - by rewrite (ov_relations _ _ _ (gd_overlay _ He st Hst)).
  - unfold vgraph. by rewrite Hst.
Qed.

(** An end that resolves is live; resolving only reads. *)
Lemma resolve_endpoint_view ref e : good e →
  (resolveEndpoint ref e).2 = e ∧
  ((resolveEndpoint ref e).1.1 ≠ "" → is_Some (live (vgraph e) !! (resolveEndpoint ref e).1.1)).
Proof.
  intros He. assert (∀ typ identity id, MatchIdentity (vgraph e) typ identity = Some id → is_Some (live (vgraph e) !! id)) as Hlive.
  { intros typ identity id (x & Hx & _)%match_live; [by eexists|]. by apply He. }
  unfold resolveEndpoint. rewrite bind_state match_view //. cbn [fst snd].
  destruct (MatchIdentity (vgraph e) (ep_Type ref) (ep_Identity ref)) as [id|] eqn:Hm; [split; [done|]; intros _; by eapply Hlive|].
  rewrite bind_state. cbn [fst snd substitute gets].
  destruct (substituteAliases (en_aliases e) (ep_Identity ref)) as [identity|]; [|done].
  rewrite bind_state match_view //. cbn [fst snd].
  destruct (MatchIdentity (vgraph e) (ep_Type ref) identity) as [id|] eqn:Hm2; simpl; [|done]. split; [done|]. intros _. by eapply Hlive.
Qed.

Lemma resolve_endpoints_view from to e : good e →
  (resolveEndpoints from to e).2 = e ∧
  ∀ f t, (resolveEndpoints from to e).1 = inr (f, t) → is_Some (live (vgraph e) !! f) ∧ is_Some (live (vgraph e) !! t).
Proof.
  intros He. unfold resolveEndpoints. rewrite bind_state. destruct (resolve_endpoint_view from e He) as [E1 L1].
  destruct (resolveEndpoint from e) as [[f sf] e1]. cbn [fst snd] in *. subst e1. case_bool_decide; [done|].
  rewrite bind_state. destruct (resolve_endpoint_view to e He) as [E2 L2].
  destruct (resolveEndpoint to e) as [[t st] e2]. cbn [fst snd] in *. subst e2. case_bool_decide; [done|].
  destruct (_ && _); [done|]. split; [done|]. intros ? ? [= <- <-]. auto.
Qed.

(** *** Emitting a relation event *)

(** The event a relation commit stores. *)
Definition about (ev : Event) (ct : ChangeType) (rel : Relation) (src : DeleteSource) : Prop :=
  ∃ re, ev = relation_event re ∧ re_ChangeType re = ct ∧ re_Relation re = rel ∧ re_DeleteSource re = src.

Lemma same_event_about ev ev' ct rel src : same_event ev ev' → about ev ct rel src → about ev' ct rel src.
Proof.
  intros Hs (re & -> & <- & <- & <-). destruct ev' as [[ee|] [re'|]]; unfold same_event, unstamp in Hs; simpl in Hs; try done.
  exists re'. destruct re, re'; simpl in *. injection Hs. intros. by subst.
Qed.

Definition relations_after (ct : ChangeType) (rel : Relation) (rels : gmap string Relation) : gmap string Relation :=
  match ct with
  | RelationAdded | RelationAttributeChanged => <[r_ID rel := rel]> rels
  | RelationRemoved => delete (r_ID rel) rels
  | _ => rels
  end.

Lemma emit_relation ct rel t src hp e : good e →
  let '(r, e') := commit (relationEvent ct rel t src e).1 hp (relationEvent ct rel t src e).2 in
  en_relRefs e' = en_relRefs e ∧ en_refs e' = en_refs e ∧ live (vgraph e') = live (vgraph e) ∧
  match r with
  | inl _ => g_relations (vgraph e') = g_relations (vgraph e)
  | inr ev => about ev ct rel src ∧
      g_relations (vgraph e') = relations_after ct rel (g_relations (vgraph e))
  end.
Proof.
  intros He. pose proof (silent_relationEvent ct rel t src e) as Hq.
  assert (en_relRefs (relationEvent ct rel t src e).2 = en_relRefs e ∧ en_refs (relationEvent ct rel t src e).2 = en_refs e) as [R1 R2] by done.
  assert (about (relationEvent ct rel t src e).1 ct rel src) as Hab
    by (unfold relationEvent; rewrite !bind_state; simpl; eexists; done).
  destruct (relationEvent ct rel t src e) as [ev e1]. cbn [fst snd] in *.
  assert (good e1) as He1 by by eapply quiet_good. destruct (quiet_vgraph _ _ Hq) as [EV _].
  pose proof Hab as (re & -> & Hct & Hrel & _).
  pose proof (commit_sound (relation_event re) hp e1 He1 I I) as Hc.
  pose proof (commit_same _ (relation_event re) hp relRefs_uncommitted e1) as C1.
  pose proof (commit_same _ (relation_event re) hp refs_uncommitted e1) as C2.
  destruct (commit (relation_event re) hp e1) as [r e2]. cbn [fst snd] in *. rewrite C1 C2 R1 R2.
  destruct Hc as (_ & _ & Hr). destruct r as [err|ev']; [by rewrite Hr EV|]. destruct Hr as [Hs HV].
  assert (abs (vgraph e2) = astep (abs (vgraph e)) (relation_event re)) as Habs by (rewrite HV EV; by apply apply_abs).
  unfold abs, astep in Habs. simpl in Habs. rewrite Hct Hrel in Habs.
  split_and!; [done..| |by eapply same_event_about|]; destruct ct; by injection Habs.
Qed.

(** The same, as the calls report it. *)
Lemma emit_outcome ct rel t src hp e : good e →
  let '((ev, err), e') := (ev ← relationEvent ct rel t src; r ← commit ev hp;
    mret (match r with inl err => (None, Some err) | inr ev => (Some ev, None) end)) e in
  en_relRefs e' = en_relRefs e ∧ live (vgraph e') = live (vgraph e) ∧
  match err with
  | Some _ => ev = None ∧ g_relations (vgraph e') = g_relations (vgraph e)
  | None => (∃ evt, ev = Some evt ∧ about evt ct rel src) ∧
      g_relations (vgraph e') = relations_after ct rel (g_relations (vgraph e))
  end.
Proof.
  intros He. rewrite !bind_state. pose proof (emit_relation ct rel t src hp e He) as Hc.
  destruct (commit _ hp _) as [[err|ev] e3]; simpl; destruct Hc as (H1 & _ & H2 & H3); split_and!; naive_solver.
Qed.

(** *** Asserting *)

(** The reference an assertion leaves: the promised cadence when it is plausible,
    what the speaker promised for the source otherwise. *)
Definition edge_ref (obs : RelationObservation) (from key : string) (e : Eng) (ref : liveRef) : Prop :=
  if (0 <? ro_Interval obs)%Z && (ro_Interval obs <=? maxPlausibleLivenessPromise)%Z
  then ∃ n, ref = mkLiveRef (time_add (clock n) (ro_Interval obs)) (ro_Interval obs) false
  else ref = match refs_at (en_refs e) from !! key with
             | Some held => mkLiveRef (lr_deadline held) (lr_interval held) false
             | None => zero_liveRef
             end.

(** Taking the promise and recording the reference. *)
Lemma assert_ref obs from key e :
  let m := iv ← promise "" (ro_Type obs) (ro_Producer obs) (ro_Interval obs);
    (if (0 <? iv)%Z then now ← now_; mret (mkLiveRef (time_add now iv) iv false) else inheritedRef from key) in
  edge_ref obs from key e (m e).1 ∧ quiet e (m e).2 ∧ en_relRefs (m e).2 = en_relRefs e ∧ en_refs (m e).2 = en_refs e.
Proof.
  cbn zeta. assert (silent (promise (W:=W) (X:=X) "" (ro_Type obs) (ro_Producer obs) (ro_Interval obs))) as Hp by apply silent_promise.
  specialize (Hp e). rewrite bind_state. unfold promise, edge_ref in *.
  destruct (Z.leb_spec (ro_Interval obs) maxPlausibleLivenessPromise); simpl in *.
  - destruct (Z.ltb_spec 0 (ro_Interval obs)); simpl; split_and!; try done; [by eexists|]. apply silent_now.
  - rewrite andb_false_r. unfold report, modify, mbind, M_bind in *. simpl in *. by destruct (rp_promise (en_reporters e)).
Qed.

(** C7. What asserting an edge does. If an end names no live entity, or the ends
    collapse into one through an alias, the assertion is refused and nothing moves.
    Otherwise both ends are live, the speaker holds a reference on the edge at the
    promised cadence, no entity changes, and unless the append fails, in which case the
    relations are as before: an unknown edge is added, a known one with the same
    attributes emits nothing and stays, a known one with others takes the new ones. *)
Theorem observe_relation_effect (obs : RelationObservation) (e : Eng) (He : good e) :
  let '((ev, err), e') := observeRelationLocked obs e in
  match (resolveEndpoints (ro_From obs) (ro_To obs) e).1 with
  | inl refused => ev = None ∧ err = Some refused ∧ e' = e
  | inr (from, to) =>
    let rel := NewRelation (ro_Type obs) from to (ro_Attributes obs) in
    let key := refKey (ro_Producer obs) (currentScope e).1 in
    let before := g_relations (vgraph e) in
    is_Some (live (vgraph e) !! from) ∧ is_Some (live (vgraph e) !! to) ∧
    live (vgraph e') = live (vgraph e) ∧
    (∃ ref, edge_ref obs from key e ref ∧ en_relRefs e' = set_ref (r_ID rel) key ref (en_relRefs e)) ∧
    match err with
    | Some _ => ev = None ∧ g_relations (vgraph e') = before
    | None =>
      match before !! r_ID rel with
      | None => (∃ evt, ev = Some evt ∧ about evt RelationAdded rel DeleteSourceUnknown) ∧
          g_relations (vgraph e') = <[r_ID rel := rel]> before
      | Some old =>
        if bool_decide ((diffAttributes (r_Attributes old) (ro_Attributes obs)).1 = [])
        then ev = None ∧ g_relations (vgraph e') = before
        else (∃ evt, ev = Some evt ∧ about evt RelationAttributeChanged rel DeleteSourceUnknown) ∧
          g_relations (vgraph e') = <[r_ID rel := rel]> before
      end
    end
  end.
Proof.
  unfold observeRelationLocked. rewrite bind_state. destruct (resolve_endpoints_view (ro_From obs) (ro_To obs) e He) as [-> Hends].
  destruct (resolveEndpoints (ro_From obs) (ro_To obs) e).1 as [refused|[from to]]; [done|].
  destruct (Hends from to eq_refl) as [Hf Ht]. clear Hends. cbn zeta.
  set (rel := NewRelation (ro_Type obs) from to (ro_Attributes obs)).
  rewrite (bind_state currentScope). change (currentScope e).2 with e. set (key := refKey _ (currentScope e).1).
  pose proof (assert_ref obs from key e) as Href. cbn zeta in Href. rewrite !bind_state in Href |- *.
  destruct (promise _ _ _ _ e) as [iv e0]. cbn [fst snd] in *.
  match type of Href with edge_ref _ _ _ _ (?m e0).1 ∧ _ => destruct (m e0) as [ref e1] end.
  cbn [fst snd] in *. destruct Href as (Href & Hq & HR & _).
  match goal with |- context [modify ?f e1] => set (e2 := (modify f e1).2) end.
  assert (quiet e e2) as Hq2 by (etrans; [exact Hq|apply silent_relRefs]).
  assert (en_relRefs e2 = set_ref (r_ID rel) key ref (en_relRefs e)) as HR2 by (unfold e2; simpl; by rewrite HR).
  assert (good e2) as He2 by by eapply quiet_good. destruct (quiet_vgraph _ _ Hq2) as [EV _].
  clearbody e2. rewrite get_relation_view //. cbn [fst snd]. rewrite EV.
  destruct (g_relations (vgraph e) !! r_ID rel) as [old|].
  - destruct (diffAttributes (r_Attributes old) (ro_Attributes obs)).1 as [|k ks].
    + cbn [mret M_ret]. rewrite EV. split_and!; eauto. by rewrite bool_decide_true.
    + pose proof (emit_outcome RelationAttributeChanged rel (ro_EventTime obs) DeleteSourceUnknown
        (r_Structural rel && bool_decide (RelationAttributeChanged = RelationAdded)) e2 He2) as Hemit.
      match type of Hemit with (let '(_, _) := ?x in _) => destruct x as [[ev err] e'] end. rewrite EV in Hemit.
    destruct Hemit as (-> & H2 & H3). split_and!; eauto.
  - pose proof (emit_outcome RelationAdded rel (ro_EventTime obs) DeleteSourceUnknown
      (r_Structural rel && bool_decide (RelationAdded = RelationAdded)) e2 He2) as Hemit.
    match type of Hemit with (let '(_, _) := ?x in _) => destruct x as [[ev err] e'] end. rewrite EV in Hemit.
    destruct Hemit as (-> & H2 & H3). split_and!; eauto.
Qed.

(** *** Retracting *)

(** What is left of an edge's references after a producer's release. *)
Definition edge_released (e : Eng) (id : RelationID) (obs : RelationObservation) : Speakers :=
  default ∅ ((λ refs, (releaseSpeaker refs (ro_Producer obs) (currentScope e).1).1) <$> en_relRefs e !! id).

(** Retracting an edge is reference counted. A retraction whose end is unknown is
    a no-op, and one whose ends collapse reports it and moves nothing. Otherwise the
    producer's reference goes; while another speaker holds the edge nothing else
    happens; when none is left the edge, if it is there, is removed with one event,
    unless the append fails, in which case the relations are as before. No entity
    changes. *)
Theorem remove_relation_effect (obs : RelationObservation) (e : Eng) (He : good e) :
  let '((ev, err), e') := removeRelationLocked obs e in
  match (resolveEndpoints (ro_From obs) (ro_To obs) e).1 with
  | inl refused => ev = None ∧ err = (if bool_decide (refused = errEndpointMissing) then None else Some refused) ∧ e' = e
  | inr (from, to) =>
    let id := ComputeRelationID (ro_Type obs) from to in
    let before := g_relations (vgraph e) in
    live (vgraph e') = live (vgraph e) ∧
    if decide (edge_released e id obs = ∅) then
      en_relRefs e' = delete id (en_relRefs e) ∧
      match before !! id with
      | None => ev = None ∧ err = None ∧ g_relations (vgraph e') = before
      | Some old =>
        match err with
        | Some _ => ev = None ∧ g_relations (vgraph e') = before
        | None => (∃ evt, ev = Some evt ∧ about evt RelationRemoved old DeleteSourceProducer) ∧
            g_relations (vgraph e') = delete id before
        end
      end
    else ev = None ∧ err = None ∧ g_relations (vgraph e') = before ∧
         en_relRefs e' = <[id := edge_released e id obs]> (en_relRefs e)
  end.
Proof.
  unfold removeRelationLocked. rewrite bind_state. destruct (resolve_endpoints_view (ro_From obs) (ro_To obs) e He) as [-> _].
  destruct (resolveEndpoints (ro_From obs) (ro_To obs) e).1 as [refused|[from to]].
  { destruct refused; cbn [fst snd mret M_ret]; split_and!; try done; by rewrite ?bool_decide_true ?bool_decide_false. }
  cbn zeta. set (id := ComputeRelationID _ _ _).
  rewrite (bind_state currentScope) (bind_state (gets _)). cbn [fst snd gets]. rewrite bind_state.
  change (en_relRefs (currentScope e).2 !! id) with (en_relRefs e !! id). fold (edge_released e id obs).
  match goal with |- context [modify ?f ?e0] => set (e1 := (modify f e0).2) end.
  assert (quiet e e1) as Hq.
  { unfold e1, modify. cbn [snd]. repeat case_match; (reflexivity || (split; simpl; try done; unfold same_staged; by destruct (en_staged e))). }
  assert (en_relRefs e1 = if decide (edge_released e id obs = ∅) then delete id (en_relRefs e)
    else <[id := edge_released e id obs]> (en_relRefs e)) as HR.
  { unfold e1, modify, edge_released. cbn [snd]. destruct (en_relRefs e !! id) as [sp|] eqn:Hsp; simpl.
    - case_bool_decide; case_decide; done.
    - by rewrite delete_id. }
  assert (good e1) as He1 by by eapply quiet_good. destruct (quiet_vgraph _ _ Hq) as [EV _]. clearbody e1.
  case_bool_decide as Hleft; case_decide; try done.
  { cbn [mret M_ret]. by rewrite EV. }
  rewrite bind_state get_relation_view //. cbn [fst snd]. rewrite EV.
  destruct (g_relations (vgraph e) !! id) as [old|] eqn:Hold; [|cbn [mret M_ret]; by rewrite EV].
  assert (r_ID old = id) as Hid by by apply (cr_relations _ (gd_vcore _ He)).
  pose proof (emit_outcome RelationRemoved old (ro_EventTime obs) DeleteSourceProducer (r_Structural old) e1 He1) as Hemit.
  match type of Hemit with (let '(_, _) := ?x in _) => destruct x as [[ev err] e'] end. rewrite EV /= Hid in Hemit.
  destruct Hemit as (-> & H2 & H3). split_and!; eauto.
Qed.

End relations.
