(* ===== verification/EngineRestart.v ===== *)
(** * Liveness across a restart

    The references an engine serialises into its snapshot and the ones a fresh
    engine restores from it. *)
From S2P Require Import Prelude GoStd Values Vocabulary Entities Events DisplayNames.
From S2P Require Import Speakers Observations Aliases Projection ProjectionInv Engine EngineInv EngineSound EngineSpec EngineEffects.
#[local] Open Scope nat_scope.

Section restart.
Context {W X : Type} `{!Host} `{!HostLaws} `{!Appender W} `{!AppenderLaws W}.
#[local] Abbreviation Eng := (Engine W X).
#[local] Abbreviation Act := (M W X).
Implicit Types e : Eng.

(** A map rebuilt entry by entry. *)
Lemma rebuild_lookup {A B} (f : string → A → B) (m : gmap string A) k :
  (list_to_map ((λ kv, (kv.1, f kv.1 kv.2)) <$> map_to_list m) : gmap string B) !! k = f k <$> m !! k.
Proof.
  assert (NoDup ((λ kv : string * A, (kv.1, f kv.1 kv.2)) <$> map_to_list m).*1) as Hnd.
  { rewrite -list_fmap_compose. apply NoDup_fst_map_to_list. }
  apply option_eq. intros y. rewrite -elem_of_list_to_map // list_elem_of_fmap. split.
  - intros ([k' x] & [= -> ->] & Hx%elem_of_map_to_list). simpl in *. by rewrite Hx.
  - intros (x & Hx & ->)%fmap_Some. exists (k, x). by rewrite elem_of_map_to_list.
Qed.

(** *** What is restored of one reference *)

Definition plausible (d : Duration) : Duration := if (d <=? maxPlausibleLivenessPromise)%Z then d else 0%Z.

Lemma promise_value id typ producer d e : (promise id typ producer d e).1 = plausible d.
Proof.
  unfold promise, plausible. destruct (d <=? _)%Z; [by rewrite bind_state|]. by rewrite !bind_state.
Qed.

Definition restored_ref (legacy : bool) (now : Time) (p : string) (deadline : Time) (interval : Duration) : liveRef :=
  let kept := plausible interval in
  let deadline := if (kept =? 0)%Z && (0 <? interval)%Z then zero_time else deadline in
  mkLiveRef (floorDeadline deadline kept now) kept (legacy && bool_decide ((splitRefKey p).2 = "")).

Lemma restore_speakers_value legacy intervals now id ps e :
  (restore_speakers legacy intervals now id ps e).1 =
  list_to_map ((λ kv, (kv.1, restored_ref legacy now kv.1 kv.2 (interval_of intervals id kv.1))) <$> ps).
Proof.
  revert e. induction ps as [|[p d] ps IH]; intros e; [done|]. cbn [restore_speakers].
  unfold restored_ref. destruct (splitRefKey p) as [producer scope] eqn:Hp. rewrite !bind_state promise_value IH.
  cbn [fmap list_fmap fst snd mret M_ret list_to_map foldr]. rewrite Hp. done.
Qed.

(** Restoring writes reports, bad promises and the references, nothing else. *)
Lemma restore_speakers_same {F} (part : Eng → F) legacy intervals now id ps :
  (∀ y e, part (upd_badPromises y e) = part e) → (∀ y e, part (upd_reports y e) = part e) →
  same part (restore_speakers legacy intervals now id ps).
Proof.
  intros Hb Hr. induction ps as [|[p d] ps IH]; [done|]. cbn [restore_speakers]. destruct (splitRefKey p). apply same_bind.
  - intros e. unfold promise. destruct (_ <=? _)%Z; rewrite !bind_state; unfold report, modify; repeat case_match; simpl; by rewrite ?Hr ?Hb.
  - intros kept. apply same_bind; [apply IH|done].
Qed.

Lemma restore_refs_relRefs legacy intervals now l : same (en_relRefs : Eng → _) (restore_refs legacy intervals now l).
Proof.
  induction l as [|[i ps] l IH]; [done|]. cbn [restore_refs]. apply same_bind; [by apply restore_speakers_same|]. intros sp.
  by apply same_bind.
Qed.

Lemma restore_refs_value legacy intervals now l e id : NoDup l.*1 →
  en_refs (restore_refs legacy intervals now l e).2 !! id =
  match (list_to_map l : gmap string (gmap string Time)) !! id with
  | Some ps => Some (list_to_map ((λ kv, (kv.1, restored_ref legacy now kv.1 kv.2 (interval_of intervals id kv.1))) <$> map_to_list ps))
  | None => en_refs e !! id
  end.
Proof.
  revert e. induction l as [|[i ps] l IH]; intros e Hnd; [done|]. cbn [restore_refs].
  apply NoDup_cons in Hnd as [Hni Hnd]. rewrite !bind_state. rewrite IH //. simpl.
  destruct (decide (id = i)) as [->|Hne].
  - rewrite not_elem_of_list_to_map_1 // !lookup_insert_eq. by rewrite restore_speakers_value.
  - rewrite !lookup_insert_ne //. by rewrite (restore_speakers_same en_refs).
Qed.
(** *** The restored engine *)

(** A reference as it comes back: its deadline floored, its method known. *)
Definition revived (now : Time) (ref : liveRef) : liveRef :=
  mkLiveRef (floorDeadline (lr_deadline ref) (lr_interval ref) now) (lr_interval ref) false.

Lemma restored_plausible now p deadline interval : (interval <= maxPlausibleLivenessPromise)%Z →
  restored_ref false now p deadline interval = mkLiveRef (floorDeadline deadline interval now) interval false.
Proof.
  intros Hi. unfold restored_ref, plausible. rewrite (proj2 (Z.leb_le _ _) Hi).
  destruct (Z.eqb_spec interval 0) as [->|]; done.
Qed.

Lemma interval_of_blob (m : gmap string Speakers) id sp k ref : m !! id = Some sp → sp !! k = Some ref →
  interval_of ((λ sp : Speakers, lr_interval <$> sp) <$> m) id k = lr_interval ref.
Proof. intros Hs Hk. unfold interval_of. by rewrite lookup_fmap Hs /= lookup_fmap Hk. Qed.

Lemma revived_refs (m : gmap string Speakers) now id :
  (∀ i sp k ref, m !! i = Some sp → sp !! k = Some ref → (lr_interval ref <= maxPlausibleLivenessPromise)%Z) →
  match ((λ sp : Speakers, lr_deadline <$> sp) <$> m) !! id with
  | Some ps => Some (list_to_map ((λ kv, (kv.1, restored_ref false now kv.1 kv.2
                 (interval_of ((λ sp : Speakers, lr_interval <$> sp) <$> m) id kv.1))) <$> map_to_list ps))
  | None => None
  end = ((fmap (revived now) : Speakers → Speakers) <$> m) !! id.
Proof.
  intros Hp. rewrite !lookup_fmap. destruct (m !! id) as [sp|] eqn:Hs; [|done]. cbn [fmap option_fmap option_map]. f_equal.
  apply map_eq. intros k. rewrite (rebuild_lookup (λ p d, restored_ref false now p d (interval_of _ id p))) !lookup_fmap.
  destruct (sp !! k) as [ref|] eqn:Hk; [|done]. cbn [fmap option_fmap option_map].
  by rewrite (interval_of_blob m id sp k ref Hs Hk) restored_plausible; [|by eapply Hp].
Qed.

(** C38. Liveness survives a restart. An engine that restores the snapshot of another
    holds the same speakers on the same entities and edges at the same cadences, each
    under its own collection method, and no speaker with a cadence is silenced before it
    had one full interval after the restart to speak again; a deadline further away than
    that is kept as it was. *)
Theorem restart_keeps_speakers (e : Eng) (g : Graph) (w : W) (x : X) (ttl : Duration)
    (Hp : ∀ id sp k ref, en_refs e !! id = Some sp → sp !! k = Some ref → (lr_interval ref <= maxPlausibleLivenessPromise)%Z) :
  let now := clock 0 in
  let e' := (RestoreLiveness (LivenessBlob e) (New_engine g w x ttl)).2 in
  en_refs e' = (fmap (revived now) : Speakers → Speakers) <$> en_refs e ∧
  en_relRefs e' = (fmap (revived now) : Speakers → Speakers) <$> en_relRefs e ∧
  ∀ ref t, (0 < lr_interval ref)%Z → (t <= time_add now (lr_interval ref))%Z →
    lapsed t (revived now ref) = false ∧
    (before (lr_deadline ref) (time_add now (lr_interval ref)) = false → lr_deadline (revived now ref) = lr_deadline ref).
Proof.
  intros now e'. unfold e', RestoreLiveness, LivenessBlob. rewrite !bind_state. cbn [fst snd now_ ls_SpeakerKeys negb andb ls_Refs ls_RefIntervals].
  change (clock (en_tick (New_engine g w x ttl))) with now. set (e0 := upd_tick _ _).
  split_and!.
  - apply map_eq. intros id. simpl. rewrite restore_refs_value; [|apply NoDup_fst_map_to_list].
    rewrite list_to_map_to_list. change (en_refs e0 !! id) with (None : option Speakers). by apply revived_refs.
  - apply map_eq. intros id. simpl. rewrite (restore_refs_relRefs _ _ _ _ e0) map_union_empty map_imap_empty map_union_empty.
    rewrite map_lookup_imap !lookup_fmap. destruct (en_relRefs e !! id) as [sp|] eqn:Hs; [|done]. simpl. f_equal.
    apply map_eq. intros k. unfold restore_rel. rewrite map_lookup_imap !lookup_fmap.
    destruct (sp !! k) as [ref|] eqn:Hk; [|done]. simpl. by rewrite (interval_of_blob _ id sp k ref Hs Hk).
  - intros ref t Hi Ht. unfold revived, floorDeadline, lapsed, after, before, time_add in *. simpl.
    destruct (is_zero (lr_deadline ref)) eqn:Hz; simpl; [by rewrite Hz|]. rewrite (proj2 (Z.leb_gt _ _) Hi).
    destruct (Z.ltb_spec (lr_deadline ref) (now + lr_interval ref)); split; try done;
      rewrite andb_false_iff; right; apply Z.ltb_ge; lia.
Qed.
End restart.
