(* ===== verification/EngineBounds.v ===== *)
(** * Bounds on the engine's buffers

    The engine parks relations whose ends are unknown and remembers the display names
    an entity alternates between; both are bounded whatever the producers send. *)
From S2P Require Import Prelude GoStd Values Vocabulary Entities Events DisplayNames.
From S2P Require Import Speakers Observations Aliases Projection ProjectionInv Engine EngineInv EngineSound EngineSpec EngineEffects EngineRestart.
#[local] Open Scope nat_scope.

(** *** Names in contention *)

(** At most the limit of names, none of them empty, with room for the last one if a
    sweep forgot it. *)
Definition names_ok (c : contestedNames) : Prop :=
  size (cn_values c) ≤ maxContestedDisplayNames ∧ cn_values c !! "" = None ∧
  (is_Some (cn_values c !! cn_last c) ∨ size (cn_values c) < maxContestedDisplayNames).

(** The name to evict is one of them. *)
Lemma oldest_fold l acc : acc.1 ≠ "" → (∀ va, va ∈ l → va.1 ≠ "") →
  let r := foldl (λ acc va, if bool_decide (acc.1 = "") || before va.2 acc.2 then va else acc) acc l in
  r = acc ∨ r ∈ l.
Proof.
  revert acc. induction l as [|va l IH]; intros acc Hacc Hl; cbn [foldl]; [by left|].
  rewrite bool_decide_false //. cbn [orb]. destruct (before va.2 acc.2).
  - destruct (IH va) as [-> | Hr]; [apply Hl; left|intros; apply Hl; by right|right; left|right; by right].
  - destruct (IH acc) as [-> | Hr]; [done|intros; apply Hl; by right|by left|right; by right].
Qed.

Lemma oldest_present values : values !! "" = None → values ≠ ∅ → is_Some (values !! oldest_value values).
Proof.
  intros Hne Hsome. unfold oldest_value.
  assert (∀ va, va ∈ map_to_list values → va.1 ≠ "") as Hl.
  { intros [k t] Hk%elem_of_map_to_list. simpl. intros ->. congruence. }
  pose proof (λ k t, elem_of_map_to_list values k t) as Hin.
  destruct (map_to_list values) as [|va l] eqn:Hm; [by apply map_to_list_empty_iff in Hm|].
  cbn [foldl]. rewrite bool_decide_true //. cbn [orb].
  destruct (oldest_fold l va) as [Hr|Hr]; [apply Hl; left|intros; apply Hl; by right| |].
  - rewrite Hr. destruct va as [k t]. exists t. apply Hin. left.
  - destruct (foldl _ _ _) as [k t]. exists t. apply Hin. by right.
Qed.

(** Recording a name keeps the bound when there is room or it is known. *)
Lemma put_name_ok (vs : gmap string Time) last contested now : last ≠ "" → vs !! "" = None → size vs ≤ maxContestedDisplayNames →
  is_Some (vs !! last) ∨ size vs < maxContestedDisplayNames →
  names_ok (mkContested last contested (<[last := now]> vs)).
Proof.
  intros Hl Hv Hle Hroom. unfold names_ok. cbn [cn_values cn_last]. rewrite lookup_insert_ne // lookup_insert_eq. split_and!; eauto.
  rewrite map_size_insert. destruct (vs !! last) eqn:Hin; simpl; [done|]. destruct Hroom as [[? ?]|]; [done|lia].
Qed.

Lemma track_ok c name prev now : name ≠ "" → prev ≠ "" → (∀ c0, c = Some c0 → names_ok c0) →
  ∀ c', track c name prev now = Some c' → names_ok c'.
Proof.
  intros Hname Hprev Hc c'. unfold track. destruct c as [c|]; [destruct (Hc c eq_refl) as (Hs & He & Hlast)|].
  - case_bool_decide as Hl; intros <-%(inj Some); [rewrite -Hl; rewrite -Hl in Hlast; by apply put_name_ok|].
    destruct (Nat.leb_spec maxContestedDisplayNames (size (cn_values c))) as [Hfull|Hroom]; [|apply put_name_ok; auto].
    destruct (oldest_present (cn_values c)) as [t Ht]; [done|intros E; rewrite E map_size_empty in Hfull; unfold maxContestedDisplayNames in Hfull; lia|].
    assert (size (delete (oldest_value (cn_values c)) (cn_values c)) < maxContestedDisplayNames) as Hdel.
    { rewrite map_size_delete Ht. assert (size (cn_values c) ≠ 0) by (rewrite map_size_ne_0_lookup; eauto). lia. }
    apply put_name_ok; [done|apply lookup_delete_None; by right|lia|by right].
  - case_bool_decide; intros [= <-]. apply put_name_ok; [done|by rewrite lookup_singleton_ne| |right];
      rewrite map_size_singleton; unfold maxContestedDisplayNames; lia.
Qed.

Lemma forget_ok now refs contested : map_Forall (λ _, names_ok) contested → map_Forall (λ _, names_ok) (forget_names now refs contested).
Proof.
  intros Hc id c'. unfold forget_names. rewrite map_lookup_imap. destruct (contested !! id) as [c|] eqn:Hid; [|done].
  specialize (Hc id c Hid). cbn [mbind option_bind]. destruct (coarsest _) as [interval ok].
  set (values := if ok then _ else _). assert (values ⊆ cn_values c) as Hsub by (unfold values; destruct ok; [apply map_filter_subseteq|done]).
  case_bool_decide; intros [= <-]. destruct Hc as (H1 & H2 & H3). unfold names_ok. cbn [cn_values cn_last].
  pose proof (map_subseteq_size _ _ Hsub). split_and!; [lia|by eapply lookup_weaken_None|].
  destruct (values !! cn_last c) as [t|] eqn:Hv; [by eauto|right].
  destruct H3 as [[t Ht]|]; [|lia]. enough (size values < size (cn_values c)) by lia.
  apply map_subset_size, map_subset_alt. split; [done|]. exists (cn_last c). by rewrite Ht.
Qed.

(** *** Invariants of actions *)

Section bounds.
Context {W X : Type} `{!Host} `{!Appender W}.
#[local] Abbreviation Eng := (Engine W X).
#[local] Abbreviation Act := (M W X).
Implicit Types e : Eng.

Definition bounded (e : Eng) : Prop :=
  length (en_pending e) ≤ maxPendingRelations ∧ map_Forall (λ _, names_ok) (en_contested e).
(** What the bound is about. *)
Definition buffers (e : Eng) : list pendingRelation * gmap string contestedNames := (en_pending e, en_contested e).

Definition keeps_bound {A} (m : Act A) : Prop := ∀ e, bounded e → bounded (m e).2.

Lemma kb_bind {A B} (m : Act A) (f : A → Act B) : keeps_bound m → (∀ a, keeps_bound (f a)) → keeps_bound (m ≫= f).
Proof. intros Hm Hf e He. rewrite bind_state. apply Hf, Hm, He. Qed.
Lemma kb_same {A} (m : Act A) : same buffers m → keeps_bound m.
Proof. intros Hm e He. specialize (Hm e). unfold buffers in Hm. injection Hm as H1 H2. unfold bounded. by rewrite H1 H2. Qed.

(** *** Actions that touch neither buffer *)

Create HintDb frame discriminated.
Ltac frame :=
  repeat first
    [ done
    | solve [auto with frame nocore]
    | apply same_bind; [|intros ?]
    | match goal with |- same _ (modify _) => let e := fresh in intros e; unfold modify; simpl; repeat case_match; done end
    | match goal with |- same _ (match ?x with _ => _ end) => destruct x end
    | progress cbn beta iota zeta ].

Lemma commit_frame ev hp : same buffers (commit ev hp : Act _).
Proof. by apply commit_same. Qed.
Lemma report_frame on r : same buffers (report on r : Act _).
Proof. intros e. unfold report, modify. simpl. by case_match. Qed.
Lemma scope_frame f : same buffers (on_staged f : Act _).
Proof. intros e. unfold on_staged, modify. simpl. by case_match. Qed.
#[local] Hint Resolve commit_frame report_frame scope_frame : frame.

Lemma promise_frame id typ producer d : same buffers (promise id typ producer d : Act _).
Proof. unfold promise. frame. Qed.
Lemma endpoint_frame ref : same buffers (resolveEndpoint ref : Act _).
Proof. unfold resolveEndpoint. frame. Qed.
#[local] Hint Resolve promise_frame endpoint_frame : frame.
Lemma endpoints_frame from to : same buffers (resolveEndpoints from to : Act _).
Proof. unfold resolveEndpoints. frame. Qed.
Lemma event_frame ct rel t src : same buffers (relationEvent ct rel t src : Act _).
Proof. unfold relationEvent. frame. Qed.
Lemma discard_frame obs : same buffers (dropPendingRelation obs : Act _).
Proof. unfold dropPendingRelation, reportDiscard. frame. Qed.
#[local] Hint Resolve endpoints_frame event_frame discard_frame : frame.
Lemma observe_relation_frame obs : same buffers (observeRelationLocked obs : Act _).
Proof. unfold observeRelationLocked. frame. Qed.
#[local] Hint Resolve observe_relation_frame : frame.
Lemma remove_relation_frame obs : same buffers (removeRelationLocked obs : Act _).
Proof. unfold removeRelationLocked. frame. Qed.
Lemma remove_edges_frame rels when : same buffers (remove_edges rels when : Act _).
Proof. induction rels; cbn [remove_edges]; frame. Qed.
Lemma flush_loop_frame now ps : same buffers (flush_loop now ps : Act _).
Proof. induction ps; cbn [flush_loop]; unfold setCurrentScope; frame. Qed.
Lemma expire_pending_frame now ps : same buffers (expire_pending now ps : Act _).
Proof. induction ps; cbn [expire_pending]; frame. Qed.
Lemma expire_relations_frame now ids : same buffers (expire_relations now ids : Act _).
Proof. induction ids; cbn [expire_relations]; frame. Qed.
#[local] Hint Resolve remove_relation_frame remove_edges_frame flush_loop_frame expire_pending_frame expire_relations_frame : frame.
Lemma classify_frame obs : same buffers (classify_observation obs : Act _).
Proof. unfold classify_observation, matchTombstone. frame. Qed.
Lemma restore_frame snap : same buffers (RestoreLiveness snap : Act _).
Proof.
  unfold RestoreLiveness. assert (∀ legacy iv now l, same buffers (restore_refs legacy iv now l : Act _)) as Hr.
  { intros legacy iv now l. induction l as [|[id ps] l IH]; cbn [restore_refs]; [done|].
    apply same_bind; [by apply restore_speakers_same|]. intros sp. frame. }
  frame.
Qed.
#[local] Hint Resolve classify_frame restore_frame : frame.

(** *** The ones that do *)

Definition yields {A} (P : A → Prop) (m : Act A) : Prop := ∀ e, P (m e).1.
Lemma yields_bind {A B} (P : B → Prop) (m : Act A) (f : A → Act B) : (∀ a, yields P (f a)) → yields P (m ≫= f).
Proof. intros Hf e. rewrite bind_state. apply Hf. Qed.

Lemma yields_app {A} (m r : Act (list A)) i j :
  yields (λ l, length l ≤ i) m → yields (λ l, length l ≤ j) r →
  yields (λ l, length l ≤ i + j) (keep ← m; rest ← r; mret (keep ++ rest)%list).
Proof.
  intros Hm Hr e. rewrite !bind_state. cbn [fst mret M_ret]. rewrite length_app.
  specialize (Hm e). specialize (Hr (m e).2). simpl in *. lia.
Qed.

Lemma flush_loop_length now ps : yields (λ l, length l ≤ length ps) (flush_loop now ps : Act _).
Proof.
  induction ps as [|p ps IH]; [by intros e|]. cbn [flush_loop length]. apply (yields_app _ _ 1); [|done].
  assert (∀ l : list pendingRelation, length l ≤ 1 → yields (λ l, length l ≤ 1) (mret l : Act _)) as Hret by by intros l Hl e.
  destruct (after _ _); [by apply yields_bind; intros []; apply Hret; simpl; lia|].
  do 4 (apply yields_bind; intros ?). destruct a1 as [ev [[| |]|]]; simpl; try (apply Hret; simpl; lia).
  apply yields_bind. intros []. apply Hret. simpl. lia.
Qed.

Lemma expire_pending_length now ps e : length (expire_pending now ps e).1 ≤ length ps.
Proof.
  revert e. induction ps as [|p ps IH]; intros e; [done|]. cbn [expire_pending]. rewrite !bind_state. cbn [fst mret M_ret].
  destruct (after _ _); cbn [length]; [etrans; [apply IH|lia]|apply le_n_S, IH].
Qed.

Lemma frame_pending {A} (m : Act A) : same buffers m → same en_pending m.
Proof. intros Hm e. exact (f_equal fst (Hm e)). Qed.

(** Installing a list no longer than the one it came from. *)
Lemma put_pending_bounded kept e : length kept ≤ length (en_pending e) → bounded e → bounded (upd_pending kept e).
Proof. intros Hk [Hp Hc]. split; simpl; [lia|done]. Qed.

Lemma flush_pending_bound : keeps_bound (flushPending : Act _).
Proof.
  intros e He. unfold flushPending. rewrite bind_state. cbn [fst snd gets]. destruct (en_pending e) as [|p ps] eqn:Hps; [done|].
  rewrite !bind_state.
  apply (kb_same rebuildPendingHashes); [by intros ?|]. apply put_pending_bounded.
  - rewrite (frame_pending _ (flush_loop_frame _ _)). change (en_pending (now_ e).2) with (en_pending e). rewrite Hps.
    apply flush_loop_length.
  - by apply (kb_same (flush_loop _ _)), (kb_same now_); [auto with frame nocore| |].
Qed.

Lemma record_alias_bound obs : keeps_bound (recordAliasLocked obs : Act _).
Proof.
  unfold recordAliasLocked. destruct (aliasClaimFromObservation obs) as [claim|]; [|by apply kb_same].
  apply kb_bind; [by apply kb_same|]. intros scope. apply kb_bind; [by apply kb_same|]. intros now.
  destruct (aliasDeadline now obs) as [deadline ok]. destruct ok; [|by apply kb_same].
  apply kb_bind; [by apply kb_same|]. intros idx. destruct (record _ _ _ _) as [[idx' isNew] conflict].
  apply kb_bind; [by apply kb_same|]. intros []. apply kb_bind; [apply kb_same; frame|]. intros [].
  apply kb_bind; [by apply kb_same|]. intros [|p ps]; [by apply kb_same|].
  apply kb_bind; [by apply kb_same|]. intros []. apply flush_pending_bound.
Qed.

Lemma park_bound obs : keeps_bound (park obs : Act _).
Proof.
  intros e [Hp Hc]. unfold park. rewrite bind_state. cbn [fst snd gets]. rewrite bind_state.
  match goal with |- context [((if ?b then ?x else ?y) : M W X _) e] => set (m := (if b then x else y) : Act unit) end.
  assert (length (en_pending (m e).2) < maxPendingRelations ∧ en_contested (m e).2 = en_contested e) as [H1 H2].
  { unfold m. destruct (Nat.leb_spec maxPendingRelations (length (en_pending e))) as [Hfull|]; [|done].
    destruct (en_pending e) as [|p ps] eqn:Hps.
    - split; [|done]. simpl in Hfull. exfalso. unfold maxPendingRelations in Hfull. lia.
    - rewrite bind_state. pose proof (report_frame rp_discard (DiscardReport (ro_Type (pn_obs p)) (ep_Type (ro_From (pn_obs p)))
        (ep_Type (ro_To (pn_obs p)))) (upd_pending ps e)) as Hr. unfold buffers in Hr. injection Hr as H1 H2.
      unfold reportDiscard. cbn [snd modify]. rewrite H1 H2. simpl in *. split; [lia|done]. }
  clearbody m. rewrite !bind_state. apply (kb_same rebuildPendingHashes); [by intros ?|].
  split; simpl; [rewrite length_app /=; lia|by rewrite H2].
Qed.

Lemma observe_relation_bound obs : keeps_bound (observeRelationBuffered obs : Act _).
Proof.
  unfold observeRelationBuffered. apply kb_bind; [case_bool_decide; [apply record_alias_bound|by apply kb_same]|]. intros [].
  apply kb_bind; [apply kb_same; auto with frame nocore|]. intros r. apply kb_bind; [by apply kb_same|]. intros ttl.
  destruct r.2 as [[]|]; try by apply kb_same.
  - destruct (0 <? ttl)%Z; [|by apply kb_same]. apply kb_bind; [apply park_bound|intros []; by apply kb_same].
  - apply kb_same. frame.
Qed.

Lemma contested_bound (f : gmap string contestedNames → gmap string contestedNames) :
  (∀ c, map_Forall (λ _, names_ok) c → map_Forall (λ _, names_ok) (f c)) →
  keeps_bound (modify (λ e, upd_contested (f (en_contested e)) e) : Act _).
Proof. intros Hf e [Hp Hc]. split; [done|by apply Hf]. Qed.

Lemma forget_one_bound id : keeps_bound (modify (λ e, upd_contested (delete id (en_contested e)) e) : Act _).
Proof. apply contested_bound. intros c Hc. by apply map_Forall_delete. Qed.

Lemma track_bound id obs prev : keeps_bound (trackDisplayName id obs prev : Act _).
Proof.
  unfold trackDisplayName. case_bool_decide as Hname; [by apply kb_same|].
  set (prev' := if bool_decide (prev = "") then _ else _). assert (prev' ≠ "") as Hprev by (unfold prev'; by case_bool_decide).
  apply kb_bind; [by apply kb_same|]. intros now e [Hp Hc]. unfold modify. cbn [snd].
  destruct (track _ _ _ _) as [c|] eqn:Ht; [|done]. split; [done|]. simpl. apply map_Forall_insert_2; [|done].
  eapply track_ok; [exact Hname|exact Hprev| |exact Ht]. intros c0 Hc0. by eapply Hc.
Qed.

Lemma observe_entity_bound obs : keeps_bound (observeEntityLocked obs : Act _).
Proof.
  unfold observeEntityLocked. apply kb_bind; [apply kb_same; auto with frame nocore|]. intros [[[ct id] changed] prev].
  apply kb_bind; [by apply kb_same|]. intros evid. apply kb_bind; [by apply kb_same|]. intros now.
  apply kb_bind; [by apply kb_same|]. intros scope. apply kb_bind; [apply kb_same; auto with frame nocore|].
  intros [err|ev]; [by apply kb_same|]. apply kb_bind; [apply kb_same; auto with frame nocore|]. intros iv.
  apply kb_bind; [apply kb_same; frame|]. intros ref. apply kb_bind; [by apply kb_same|]. intros [].
  apply kb_bind; [apply track_bound|]. intros []. apply kb_bind; [by apply kb_same|]. intros waited.
  apply kb_bind; [destruct waited; [apply flush_pending_bound|by apply kb_same]|]. intros []. by apply kb_same.
Qed.

Lemma delete_entity_bound obs : keeps_bound (deleteEntityLocked obs : Act _).
Proof.
  unfold deleteEntityLocked. apply kb_bind; [by apply kb_same|]. intros [id|]; [|by apply kb_same].
  apply kb_bind; [by apply kb_same|]. intros scope. apply kb_bind; [by apply kb_same|]. intros held.
  apply kb_bind; [apply kb_same; frame|]. intros []. case_bool_decide; [by apply kb_same|].
  apply kb_bind; [by apply kb_same|]. intros evid. apply kb_bind; [by apply kb_same|]. intros now.
  apply kb_bind; [apply kb_same; auto with frame nocore|]. intros [err|ev]; [by apply kb_same|].
  apply kb_bind; [apply forget_one_bound|]. intros []. apply kb_same. unfold removeIncidentRelations. frame.
Qed.

Lemma expire_entities_bound now scopes ids : keeps_bound (expire_entities now scopes ids : Act _).
Proof.
  induction ids as [|id ids IH]; [by apply kb_same|]. cbn [expire_entities]. apply kb_bind.
  - unfold expire_entity. assert (keeps_bound (drop_ref id : Act _)) as Hd
      by (unfold drop_ref; apply kb_bind; [by apply kb_same|intros []; apply forget_one_bound]).
    apply kb_bind; [by apply kb_same|]. intros [[ent|] []]; try (apply kb_bind; [apply Hd|intros []; by apply kb_same]).
    apply kb_bind; [by apply kb_same|]. intros evid. apply kb_bind; [apply kb_same; auto with frame nocore|].
    intros [err|ev]; [by apply kb_same|]. apply kb_bind; [apply Hd|]. intros []. apply kb_same. unfold removeIncidentRelations. frame.
  - intros [r errs]. apply kb_bind; [apply IH|]. intros [res errs']. by apply kb_same.
Qed.

Lemma sweep_pending_bound now : keeps_bound (ps ← gets en_pending;
  match ps with
  | [] => mret tt
  | _ => kept ← expire_pending now ps; modify (upd_pending kept);; rebuildPendingHashes
  end : Act _).
Proof.
  intros e He. rewrite bind_state. cbn [fst snd gets]. destruct (en_pending e) as [|p ps] eqn:Hps; [done|].
  rewrite !bind_state. apply (kb_same rebuildPendingHashes); [by intros ?|]. apply put_pending_bounded.
  - rewrite (frame_pending _ (expire_pending_frame _ _)) Hps. apply expire_pending_length.
  - by apply (kb_same (expire_pending _ _)); [auto with frame nocore|].
Qed.

Lemma flush_staged_frame st : same buffers (flushStaged st : Act _).
Proof.
  assert (∀ evs, same buffers (deliver evs : Act _)) as Hd by (induction evs as [|[ev hp] evs IH]; cbn [deliver]; unfold notify; frame).
  unfold flushStaged. apply same_bind; [done|]. intros []. destruct (st_events st); [done|].
  apply same_bind; [intros e; unfold append_; by destruct (Append _ _)|]. intros [msg|evs]; [done|]. by apply same_bind.
Qed.

Lemma sweep_bound : keeps_bound (Sweep : Act _).
Proof.
  unfold Sweep. apply kb_bind; [by apply kb_same|]. intros []. apply kb_bind; [by apply kb_same|]. intros now. apply kb_bind.
  - unfold sweep_stage. apply kb_bind; [by apply kb_same|]. intros before. apply kb_bind; [by apply kb_same|]. intros [].
    apply kb_bind; [apply expire_entities_bound|]. intros [res errs].
    apply kb_bind; [intros e [Hp Hc]; split; [done|by apply forget_ok]|]. intros [].
    intros e He. rewrite bind_state. cbn [fst snd gets].
    match goal with |- bounded ((?m ≫= ?f) e).2 => rewrite bind_state; apply (kb_same (f (m e).1)); [frame|] end.
    pose proof (sweep_pending_bound now e He) as Hs. rewrite bind_state in Hs. exact Hs.
  - intros [res errs]. apply kb_bind; [by apply kb_same|]. intros st. apply kb_bind; [apply kb_same, flush_staged_frame|].
    intros ferr. by apply kb_same.
Qed.

Lemma batch_bound {A} (fn : BatchProg _ A) : keeps_bound (Batch fn : Act _).
Proof.
  assert (∀ p : BatchProg _ A, keeps_bound (run_batch p : Act _)) as Hrun.
  { induction p as [a|k IH|f k IH|op k IH]; cbn [run_batch]; [by apply kb_same|apply kb_bind; [by apply kb_same|done]|apply kb_bind; [by apply kb_same|done]|].
    apply kb_bind; [|intros r; apply IH]. destruct op; cbn [run_op].
    1,2: apply kb_same; unfold setCurrentScope; frame.
    - apply kb_bind; [apply observe_entity_bound|intros; by apply kb_same].
    - apply delete_entity_bound.
    - apply kb_bind; [apply observe_relation_bound|intros; by apply kb_same].
    - apply kb_same. frame. }
  unfold Batch. apply kb_bind; [by apply kb_same|]. intros []. apply kb_bind; [apply Hrun|]. intros a.
  apply kb_bind; [by apply kb_same|]. intros st. apply kb_bind; [apply kb_same, flush_staged_frame|]. intros err. by apply kb_same.
Qed.

Lemma call_bound op : keeps_bound (call op : Act _).
Proof.
  destruct op; cbn [call]; try (apply kb_bind; [|intros; by apply kb_same]).
  - apply observe_entity_bound.
  - apply delete_entity_bound.
  - apply observe_relation_bound.
  - apply kb_same. auto with frame nocore.
  - apply batch_bound.
  - apply sweep_bound.
  - apply kb_same. auto with frame nocore.
Qed.

(** C39. The buffers stay bounded whatever producers send: after any sequence of calls on
    a new engine, batches, failed appends, sweeps and restarts included, at most 4096
    relations are parked and no entity has more than 8 display names in contention, none
    of them empty. *)
Theorem buffers_bounded (ops : list EngineOp) (g : Graph) (w : W) (x : X) (ttl : Duration) :
  let e' := calls ops (New_engine g w x ttl) in
  (Z.of_nat (length (en_pending e')) <= 4096)%Z ∧
  ∀ id c, en_contested e' !! id = Some c → size (cn_values c) ≤ 8 ∧ cn_values c !! "" = None.
Proof.
  assert (∀ e, bounded e → bounded (calls ops e)) as Hcalls.
  { unfold calls. induction ops as [|op ops IH]; intros e He; [done|]. by apply IH, call_bound. }
  intros e'. destruct (Hcalls (New_engine g w x ttl)) as [Hp Hc].
  { split; [simpl; lia|apply map_Forall_empty]. }
  fold e' in Hp, Hc. split; [unfold maxPendingRelations in Hp; lia|]. intros id c Hid.
  destruct (Hc id c Hid) as (Hs & He & _). done.
Qed.
End bounds.
