(* ===== verification/EngineExamples.v ===== *)
(** * The engine on concrete runs

    A log in memory that fails on command, a ticking clock and numbered ids: an
    instance of everything the engine relies on. The properties of the engine are
    instantiated on it, and three behaviours are run that differ from what the
    comments of the source say. *)
From S2P Require Import Prelude GoStd Values Vocabulary Entities Events DisplayNames.
From S2P Require Import Speakers Observations Aliases Projection ProjectionInv Engine EngineInv EngineSound EngineSpec EngineEffects EngineRelations EngineRestart.
#[local] Open Scope nat_scope.

(** ** A log for the witnesses *)

(** Events in memory, and which of the coming appends fail. *)
Record MemLog := mkMemLog { ml_events : list Event; ml_faults : list bool }.

Definition stamp (seq : Z) (ev : Event) : Event :=
  mkEvent
    ((λ ee, mkEntityEvent (ee_EventID ee) (ee_ChangeType ee) (ee_Entity ee) (ee_EventTime ee) (ee_RecordedAt ee) seq
       (ee_Scope ee) (ee_SchemaVersion ee) (ee_ChangedKeys ee) (ee_DeleteReason ee) (ee_DeleteSource ee)) <$> ev_Entity ev)
    ((λ re, mkRelationEvent (re_EventID re) (re_ChangeType re) (re_Relation re) (re_EventTime re) (re_RecordedAt re) seq
       (re_Scope re) (re_SchemaVersion re) (re_ChangedKeys re) (re_DeleteSource re)) <$> ev_Relation ev).

#[export] Instance mem_appender : Appender MemLog := λ evs w,
  let faults := tail (ml_faults w) in
  if default false (head (ml_faults w)) then (mkMemLog (ml_events w) faults, inl "disk full")
  else let evs' := imap (λ i ev, stamp (Z.of_nat (length (ml_events w) + i)) ev) evs in
       (mkMemLog (ml_events w ++ evs')%list faults, inr evs').

Lemma stamp_same n ev : same_event ev (stamp n ev).
Proof. destruct ev as [[[]|] [[]|]]; done. Qed.

#[export] Program Instance mem_appender_laws : AppenderLaws MemLog := { logged := ml_events }.
Next Obligation.
  intros evs w w' evs'. unfold Append, mem_appender. destruct (default false _); [done|].
  intros [= <- <-]. split; [done|]. apply Forall2_same_length_lookup_2; [by rewrite length_imap|].
  intros i x y Hx. rewrite list_lookup_imap Hx. intros [= <-]. apply stamp_same.
Qed.
Next Obligation.
  intros evs w w' msg. unfold Append, mem_appender. destruct (default false _); [|done]. by intros [= <- _].
Qed.

(** A clock that ticks a second at each reading, and numbered ids. *)
Definition demo_host : Host := {|
  clock n := (second * Z.of_nat (S n))%Z;
  ulid n := String.append "id-" (itoa (Z.of_nat n));
|}.
#[local] Existing Instance demo_host.
#[local] Instance demo_host_laws : HostLaws.
Proof.
  split.
  - intros n. unfold is_zero, clock, demo_host. apply Z.eqb_neq. unfold second. lia.
  - intros n m. unfold ulid. simpl. intros [= H%itoa_inj]. lia.
  - done.
Qed.


(** ** Inputs *)

Definition see_host (name : string) (interval : Duration) (attrs : list KeyValue) : EntityObservation :=
  mkEntityObservation "host" [("host.name", KindString name)] attrs "" 5 interval "agent-1" "".
Definition host_ref (name : string) : EndpointRef := mkEndpointRef "host" [("host.name", KindString name)].
Definition see_link (typ a b : string) (attrs : list KeyValue) : RelationObservation :=
  mkRelationObservation typ (host_ref a) (host_ref b) attrs 5 "agent-1" 0 0.

Definition start (faults : list bool) : Engine MemLog unit :=
  New_engine (Projection.New) (mkMemLog [] faults) tt (30 * second).

Lemma core_new : core Projection.New.
Proof. destruct (wf_new defaultTombstoneCap) as [HE [HR _ _] HQ]. by split. Qed.
Lemma unused_new n : unused n Projection.New.
Proof. intros m _. split; [apply lookup_empty|apply not_elem_of_empty]. Qed.
Lemma start_good faults : good (start faults).
Proof. apply new_engine_good; [apply core_new|apply unused_new]. Qed.

(** ** The properties, instantiated *)

Lemma engine_follows_log_witness :
  let e' := calls [ObserveEntity (see_host "a" 0 []); DoSweep]
    (upd_subs {[7%Z := []]} (New_engine Projection.New (mkMemLog [] []) tt 0)) in
  core Projection.New ∧ unused 0 Projection.New ∧
  ∃ evs, logged (en_log e') = (logged (mkMemLog [] []) ++ evs.*1)%list ∧
    abs (en_graph e') = foldl astep (abs Projection.New) evs.*1 ∧
    en_subs e' = (λ inbox, inbox ++ evs)%list <$> {[7%Z := []]} ∧ core (en_graph e').
Proof.
  split; [apply core_new|]. split; [apply unused_new|].
  apply (engine_follows_log [ObserveEntity (see_host "a" 0 []); DoSweep] Projection.New (mkMemLog [] []) tt 0
    {[7%Z := []]} core_new (unused_new 0)).
Defined.

(** A batch of one observation, with an undo for its side state. *)
Definition one_host : BatchProg unit unit :=
  BDo (BSetScope "snmp") (λ _, BDo (BObserveEntity (see_host "a" 0 [])) (λ _, BDone tt)).

Lemma batch_all_or_nothing_witness :
  good (start [true]) ∧ en_graph (Batch one_host (start [true])).2 = Projection.New.
Proof.
  split; [apply start_good|].
  destruct (batch_all_or_nothing one_host (start [true]) (start_good _) eq_refl) as (st & _ & Hr).
  assert ((Batch one_host (start [true])).1.2 ≠ None) as Hf by (vm_compute; done).
  destruct (Batch one_host (start [true])) as [[a [err|]] e']; [|done]. apply Hr.
Defined.

Lemma batch_reads_preview_flush_witness :
  (matchIdentity "host" [("host.name", KindString "a")] (run_batch one_host (opened (start []))).2).1 =
  MatchIdentity (en_graph (Batch one_host (start [])).2) "host" [("host.name", KindString "a")].
Proof.
  apply (batch_reads_preview_flush one_host (start []) "host" [("host.name", KindString "a")] "id-0" "" (start_good _) eq_refl).
  vm_compute. reflexivity.
Defined.

Lemma observe_entity_effect_witness :
  good (start []) ∧
  ∃ evt ee id, (observeEntityLocked (see_host "a" 0 []) (start [])).1.1 = Some evt ∧ ev_Entity evt = Some ee ∧
    ee_ChangeType ee = EntityCreated ∧ ee_Entity ee = observed (see_host "a" 0 []) id.
Proof.
  split; [apply start_good|]. pose proof (observe_entity_effect (see_host "a" 0 []) (start []) (start_good _)) as H.
  assert ((observeEntityLocked (see_host "a" 0 []) (start [])).1.2 = None) as Hn by (vm_compute; reflexivity).
  destruct (observeEntityLocked (see_host "a" 0 []) (start [])) as [[ev err] e']. simpl in Hn. subst err.
  destruct H as (evt & ee & id & H1 & H2 & H3 & H4). exists evt, ee, id. split_and!; try done. apply H4.
Defined.

(** An engine that knows one host. *)
Definition seen : Engine MemLog unit := (observeEntityLocked (see_host "a" second []) (start [])).2.
Lemma seen_good : good seen.
Proof. apply observe_entity_sound, start_good. Qed.

Lemma delete_entity_effect_witness :
  good seen ∧ released seen "id-0" (see_host "a" 0 []) = ∅ ∧
  live (vgraph (deleteEntityLocked (see_host "a" 0 []) seen).2) = delete "id-0" (live (vgraph seen)).
Proof.
  split; [apply seen_good|]. assert (released seen "id-0" (see_host "a" 0 []) = ∅) as Hr by (vm_compute; reflexivity).
  split; [done|].
  assert (MatchIdentity (vgraph seen) "host" [("host.name", KindString "a")] = Some "id-0") as Hm by (vm_compute; reflexivity).
  assert ((deleteEntityLocked (see_host "a" 0 []) seen).1.2 = []) as Hn by (vm_compute; reflexivity).
  pose proof (delete_entity_effect (see_host "a" 0 []) seen "id-0" seen_good Hm ltac:(done)) as H.
  destruct (deleteEntityLocked (see_host "a" 0 []) seen) as [[ev errs] e']. simpl in Hn.
  destruct H as [_ H]. destruct (H Hr Hn) as (_ & HL & _). exact HL.
Defined.

Lemma sweep_expires_exactly_witness : good seen ∧ live (en_graph (Sweep seen).2) !! "id-0" = None.
Proof.
  split; [apply seen_good|]. pose proof (sweep_expires_exactly seen seen_good eq_refl) as H.
  assert ((Sweep seen).1.2 = []) as Hn by (vm_compute; reflexivity).
  destruct (Sweep seen) as [[res errs] e']. simpl in Hn. destruct H as (_ & H & _). specialize (H Hn "id-0").
  assert ("id-0" ∈ orphans (clock (en_tick seen)) (en_refs seen)) as Ho by by_decide.
  cbn [fst snd]. revert H. generalize (live (en_graph e') !! "id-0"). intros o ->.
  destruct (decide _) as [_|Hno]; [reflexivity|]. destruct (Hno Ho).
Defined.

(** Two hosts, and a link asserted between them. *)
Definition seen_two : Engine MemLog unit := (observeEntityLocked (see_host "b" second []) seen).2.
Definition runs_on : RelationObservation := see_link "runs_on" "a" "b" [].
Definition linked : Engine MemLog unit := (observeRelationLocked runs_on seen_two).2.
Definition runs_on_id : RelationID := ComputeRelationID "runs_on" "id-0" (ulid 2).

Lemma seen_two_good : good seen_two.
Proof. apply observe_entity_sound, seen_good. Qed.
Lemma linked_good : good linked.
Proof. apply (observe_relation_locked_sound false), seen_two_good. Qed.

Lemma observe_relation_effect_witness :
  good seen_two ∧ g_relations (vgraph linked) = <[runs_on_id := NewRelation "runs_on" "id-0" (ulid 2) []]> (g_relations (vgraph seen_two)).
Proof.
  split; [apply seen_two_good|]. pose proof (observe_relation_effect runs_on seen_two seen_two_good) as H.
  assert ((resolveEndpoints (ro_From runs_on) (ro_To runs_on) seen_two).1 = inr ("id-0", ulid 2)) as Hends by (vm_compute; reflexivity).
  assert ((observeRelationLocked runs_on seen_two).1.2 = None) as Hn by (vm_compute; reflexivity).
  assert (g_relations (vgraph seen_two) !! runs_on_id = None) as Hnew by (vm_compute; reflexivity).
  rewrite Hends in H. unfold linked. destruct (observeRelationLocked runs_on seen_two) as [[ev err] e']. simpl in Hn. subst err.
  destruct H as (_ & _ & _ & _ & H). change (r_ID _) with runs_on_id in H. rewrite Hnew in H. apply H.
Defined.

Lemma remove_relation_effect_witness :
  good linked ∧ g_relations (vgraph (removeRelationLocked runs_on linked).2) = delete runs_on_id (g_relations (vgraph linked)).
Proof.
  split; [apply linked_good|]. pose proof (remove_relation_effect runs_on linked linked_good) as H.
  assert ((resolveEndpoints (ro_From runs_on) (ro_To runs_on) linked).1 = inr ("id-0", ulid 2)) as Hends by (vm_compute; reflexivity).
  assert ((removeRelationLocked runs_on linked).1.2 = None) as Hn by (vm_compute; reflexivity).
  assert (bool_decide (is_Some (g_relations (vgraph linked) !! runs_on_id)) = true) as [old Hold]%bool_decide_eq_true by (vm_compute; reflexivity).
  assert (edge_released linked runs_on_id runs_on = ∅) as Hr by (vm_compute; reflexivity).
  rewrite Hends in H. destruct (removeRelationLocked runs_on linked) as [[ev err] e']. simpl in Hn. subst err.
  change (ComputeRelationID (ro_Type runs_on) "id-0" (ulid 2)) with runs_on_id in H.
  destruct H as [_ H]. cbn [fst snd]. rewrite Hold in H. revert H.
  destruct (decide _) as [_|Hno]; [intros (_ & _ & HR); exact HR|destruct (Hno Hr)].
Defined.

Lemma restart_keeps_speakers_witness :
  map_Forall (λ _ sp, map_Forall (λ _ ref, (lr_interval ref <= maxPlausibleLivenessPromise)%Z) sp) (en_refs seen) ∧
  let e' := (RestoreLiveness (LivenessBlob seen) (New_engine Projection.New (mkMemLog [] []) tt 0)).2 in
  en_refs e' = (fmap (revived (clock 0)) : Speakers → Speakers) <$> en_refs seen.
Proof.
  assert (map_Forall (λ _ sp, map_Forall (λ _ ref, (lr_interval ref <= maxPlausibleLivenessPromise)%Z) sp) (en_refs seen)) as Hp
    by by_decide.
  split; [exact Hp|].
  destruct (restart_keeps_speakers seen Projection.New (mkMemLog [] []) tt 0 (λ id sp k ref Hs Hk, Hp id sp Hs k ref Hk))
    as [HR _]. exact HR.
Defined.

(** ** Behaviours to know about *)

(** A sweep whose flush fails forgets the references it was expiring, so the
    entity survives with none: the next sweep, which succeeds, has nothing to
    retry, and the silent entity stays live. *)
Theorem failed_sweep_is_not_retried :
  let e1 := (observeEntityLocked (see_host "a" second []) (start [false; true; false])).2 in
  let '((_, errs1), e2) := Sweep e1 in
  let '((res2, errs2), e3) := Sweep e2 in
  errs1 = [ErrAppend "disk full"] ∧ errs2 = [] ∧ sr_Entities res2 = 0%Z ∧
  EntityCount (en_graph e3) = 1%Z ∧ en_refs e3 = ∅.
Proof. vm_compute. split_and!; reflexivity. Qed.

(** Retracting an alias is an error where asserting it was not: the same_as
    observation is accepted without an event because both ends resolve to one
    entity, and its removal then reports the collapse, although a removal with
    nothing to remove is meant to be a no-op. *)
Theorem alias_removal_reports_collapse :
  let link := see_link RelSameAs "a" "alias-of-a" [("confidence", KindInt 1)] in
  let e1 := (observeEntityLocked (see_host "a" 0 []) (start [])).2 in
  let '(r1, e2) := observeRelationBuffered link e1 in
  let '(r2, _) := removeRelationLocked link e2 in
  r1 = (None, None) ∧ r2 = (None, Some errEndpointsCollapsed).
Proof. vm_compute. split_and!; reflexivity. Qed.

(** An implausible interval is refused again when an entity's references are
    restored, and kept when an edge's are: the edge's far deadline survives. *)
Theorem restored_edge_promise_unbounded :
  let years := (153 * 365 * 24 * hour)%Z in
  let snap := mkLivenessSnapshot {["id-0" := {["agent-1" := years]}]} {["id-0" := {["agent-1" := years]}]} true
    {["edge" := {["agent-1" := years]}]} {["edge" := {["agent-1" := years]}]} ∅ ∅ in
  let e := (RestoreLiveness snap (start [])).2 in
  refs_at (en_refs e) "id-0" !! "agent-1" = Some (mkLiveRef zero_time 0 false) ∧
  lr_interval <$> refs_at (en_relRefs e) "edge" !! "agent-1" = Some years.
Proof. vm_compute. split_and!; reflexivity. Qed.
