(* ===== verification/ProjectionSpec.v ===== *)
(** * What the projection promises

    Properties of graph.go over graphs that satisfy the invariant of
    ProjectionInv: the invariant along a log, identity matching, the tombstone
    window, the adjacency index against a full scan, neighbourhoods against
    reachability, paging against the whole listing, and snapshots. *)
From S2P Require Import Prelude GoStd Values Vocabulary Entities Events Projection ProjectionInv.

(** ** Logs *)

(** Every event is admissible in the graph its predecessors built. *)
Fixpoint log_ok (now : Time) (g : Graph) (evs : list Event) : Prop :=
  match evs with
  | [] => True
  | ev :: evs => event_ok g ev ∧ log_ok now (Apply now ev g) evs
  end.

Lemma replay_wf now evs g : wf g → log_ok now g evs → wf (Replay now evs g).
Proof.
  revert g. induction evs as [|ev evs IH]; intros g Hwf; simpl; [done|].
  intros [Hok Hrest]. apply IH; [by apply apply_wf|done].
Qed.

(** Concrete entities the witnesses use. *)
Definition host_a : Entity := mkEntity "A" "host" [("host.name", KindString "a")] [] "".
Definition host_b : Entity := mkEntity "B" "host" [("host.name", KindString "b")] [] "".
Definition host_c : Entity := mkEntity "C" "host" [("host.name", KindString "c")] [] "".
Definition change_at (t : Time) (c : ChangeType) (e : Entity) : Event :=
  entity_event (mkEntityEvent "ev" c e t t 0 "" SchemaVersion [] "" DeleteSourceUnknown).

(** C32. Replaying any admissible log into an empty graph keeps every index
    exact: ids, the identity index and the type index name the live entities and
    nothing else, adjacency names exactly the stored relations, tombstones are
    counted, queued and within the cap. *)
Theorem replay_keeps_invariant (now : Time) (limit : Z) (evs : list Event)
    (Hok : log_ok now (NewWithTombstoneCap limit) evs) :
  wf (Replay now evs (NewWithTombstoneCap limit)).
Proof. apply replay_wf; [apply wf_new|done]. Qed.

Lemma entity_ok_new limit e : entity_ok (NewWithTombstoneCap limit) e.
Proof. split; intros ?; by rewrite lookup_empty. Qed.

Lemma replay_keeps_invariant_witness :
  let evs := [change_at 5 EntityCreated host_a; change_at 6 EntityDeleted host_a] in
  log_ok 9 (NewWithTombstoneCap 2) evs ∧ wf (Replay 9 evs (NewWithTombstoneCap 2)).
Proof.
  intros evs. assert (log_ok 9 (NewWithTombstoneCap 2) evs) as Hok.
  { split; [apply entity_ok_new|]. split; [|done].
    change (deletion_ok (putEntity host_a (NewWithTombstoneCap 2)) host_a).
    intros e0. rewrite put_entities put_byHash lookup_insert_eq. intros [= <-] id'.
    rewrite lookup_insert_eq. by intros [= <-]. }
  split; [done|]. by apply (replay_keeps_invariant 9 2 evs).
Defined.

(** ** Identity *)

(** [MatchIdentity] answers with an id exactly when a live entity has that
    type and identity, and then with that entity's id. *)
Theorem match_identity_spec (g : Graph) (typ : string) (identity : list KeyValue) (id : EntityID)
    (Hwf : wf g) :
  MatchIdentity g typ identity = Some id ↔
  ∃ e, live g !! id = Some e ∧ IdentityHash e = identity_hash typ identity.
Proof.
  rewrite -(wf_byHash g (wf_E _ Hwf)). unfold MatchIdentity, is_deleted.
  destruct (g_byHash g !! _) as [i|] eqn:Hi; [|done]. case_bool_decide as Hd; [|done].
  apply (wf_byHash g (wf_E _ Hwf)) in Hi as (e & [_ Hl]%live_lookup & _). done.
Qed.

Lemma match_identity_spec_witness :
  let g := putEntity host_a New in
  MatchIdentity g "host" [("host.name", KindString "a")] = Some "A" ∧
  ∃ e, live g !! "A" = Some e ∧ IdentityHash e = identity_hash "host" [("host.name", KindString "a")].
Proof.
  intros g. assert (wf g) as Hwf by (apply put_wf; [apply wf_new|apply entity_ok_new]).
  assert (∃ e, live g !! "A" = Some e ∧
    IdentityHash e = identity_hash "host" [("host.name", KindString "a")]) as He.
  { exists host_a. split; [|done]. unfold g. rewrite put_live. by rewrite lookup_insert_eq. }
  split; [|done]. by apply (match_identity_spec g "host" [("host.name", KindString "a")] "A" Hwf).
Defined.

(** ** Incident edges *)

(** Membership, through the two adjacency sets. *)
Lemma touching_elem g id relType r : wf g →
  r ∈ RelationsTouching g id relType ↔
  g_relations g !! r_ID r = Some r ∧ (r_From r = id ∨ r_To r = id) ∧ filter_ok relType (r_Type r) = true.
Proof.
  intros [_ [Hids Ho Hi] _]. unfold RelationsTouching. rewrite sort_by_elem list_elem_of_filter list_elem_of_omap.
  setoid_rewrite elem_of_elements. setoid_rewrite elem_of_union.
  setoid_rewrite Ho. setoid_rewrite Hi. split.
  - intros (Hf & i & Hends & Hr). pose proof (Hids _ _ Hr) as <-. split_and!; [done| |done].
    destruct Hends as [(r' & Hr' & <-)|(r' & Hr' & <-)]; rewrite Hr in Hr'; naive_solver.
  - intros (Hr & Hends & Hf). split; [done|]. exists (r_ID r). split; [|done]. naive_solver.
Qed.

(** The adjacency index answers as a scan of every relation would:
    [RelationsTouching] lists, in id order and each once, exactly the relations
    that have the entity at either end and pass the type filter. *)
Theorem relations_touching_scan (g : Graph) (id : EntityID) (relType : string) (Hwf : wf g) :
  RelationsTouching g id relType =
  sort_by r_ID (base.filter (λ r, (bool_decide (r_From r = id) || bool_decide (r_To r = id)) &&
                             filter_ok relType (r_Type r) = true) (map_to_list (g_relations g)).*2).
Proof.
  destruct Hwf as [_ [Hids Ho Hi] _]. unfold RelationsTouching. apply sort_by_ext.
  - by apply NoDup_filter, (keyed_omap_NoDup r_ID), NoDup_elements.
  - by apply NoDup_filter, (keyed_values_NoDup r_ID).
  - intros r1 r2 [_ (i1 & _ & H1)%list_elem_of_omap]%list_elem_of_filter
      [_ (i2 & _ & H2)%list_elem_of_omap]%list_elem_of_filter Heq.
    rewrite (Hids _ _ H1) (Hids _ _ H2) in Heq. congruence.
  - intros r. rewrite !list_elem_of_filter elem_of_values list_elem_of_omap andb_true_iff orb_true_iff
      !bool_decide_eq_true. setoid_rewrite elem_of_elements. setoid_rewrite elem_of_union.
    setoid_rewrite Ho. setoid_rewrite Hi. naive_solver.
Qed.

Definition link_ab : Relation := mkRelation "R" "runs_on" "A" "B" [] false.
Definition link_at (t : Time) (c : ChangeType) (r : Relation) : Event :=
  relation_event (mkRelationEvent "ev" c r t t 0 "" SchemaVersion [] DeleteSourceUnknown).
(** Two hosts and an edge between them. *)
Definition demo : Graph :=
  Apply 9 (link_at 5 RelationAdded link_ab) (putEntity host_b (putEntity host_a New)).

Lemma demo_wf : wf demo.
Proof.
  apply apply_wf; [|intros r0; rewrite lookup_empty; done].
  apply put_wf; [apply put_wf; [apply wf_new|apply entity_ok_new]|].
  split; rewrite ?put_entities ?put_byHash.
  - intros e0. rewrite lookup_insert_ne; [done|by_decide].
  - intros id'. rewrite lookup_insert_ne; [done|by vm_compute].
Qed.

Lemma relations_touching_scan_witness : wf demo ∧ RelationsTouching demo "A" "" = [link_ab].
Proof.
  split; [apply demo_wf|]. rewrite (relations_touching_scan demo "A" "" demo_wf). reflexivity.
Defined.

(** ** Tombstones *)

Lemma drop_keeps i id h d g :
  i ≠ id → id ∈ g_deleted g → g_tombByHash g !! h = Some id → g_tombDeadline g !! id = d →
  id ∈ g_deleted (dropTombstone i g) ∧ g_tombByHash (dropTombstone i g) !! h = Some id ∧
  g_tombDeadline (dropTombstone i g) !! id = d.
Proof.
  intros Hne Hin Hh Hd. rewrite drop_deleted drop_tombDeadline lookup_delete_ne; [|done].
  split; [set_solver|split; [|done]].
  unfold dropTombstone. destruct (g_entities g !! i) as [e|]; [case_bool_decide as He|]; simpl; [|done..].
  rewrite lookup_delete_ne; [done|]. intros <-. congruence.
Qed.

(** Enforcing the cap keeps the last of the queue, when it is queued once. *)
Lemma evict_keeps q id h d g :
  wf_entities g → (∀ i, i ∈ g_deleted g → i ∈ q ++ [id]) → id ∉ q → (0 < g_tombstoneCap g)%Z →
  id ∈ g_deleted g → g_tombByHash g !! h = Some id → g_tombDeadline g !! id = d →
  let g' := evict_loop (q ++ [id]) g in
  id ∈ g_deleted g' ∧ g_tombByHash g' !! h = Some id ∧ g_tombDeadline g' !! id = d.
Proof.
  revert g. induction q as [|i q IH]; intros g HE Hq Hnin Hcap Hin Hh Hd; simpl.
  - destruct (Z.ltb_spec (g_tombstoneCap g) (g_liveTombstones g)) as [Hlt|_]; [|done].
    rewrite (wf_count _ HE) in Hlt. assert (g_deleted g ⊆ {[id]}) as Hsub by (intros ? ?%Hq; set_solver).
    apply subseteq_size in Hsub. rewrite size_singleton in Hsub. lia.
  - apply not_elem_of_cons in Hnin as [Hne Hnin].
    destruct (g_tombstoneCap g <? g_liveTombstones g)%Z; [|done]. case_bool_decide as Hi.
    + destruct (drop_keeps i id h d g) as (? & ? & ?); try done.
      destruct (drop_frame i g) as (_ & _ & _ & _ & _ & _ & EC & _).
      apply IH; try done; [by apply drop_wf_entities| |by rewrite EC].
      intros j. rewrite drop_deleted. intros [Hj ?]%elem_of_difference. apply Hq in Hj. set_solver.
    + apply IH; try done. intros j Hj. specialize (Hq _ Hj). set_solver.
Qed.

(** The resurrection window. Deleting a live entity that has no stale entry
    in the tombstone queue makes its identity unmatchable and keeps its id
    resurrectable until the deletion's recorded time plus the window, and not
    after it, however full the tombstone cache was. *)
Theorem deletion_window (now t : Time) (ee : EntityEvent) (e : Entity) (g : Graph)
    (Hwf : wf g) (Hlive : live g !! e_ID (ee_Entity ee) = Some e)
    (Hfresh : e_ID (ee_Entity ee) ∉ g_tombstones g)
    (Hrec : is_zero (ee_RecordedAt ee) = false) (Httl : (0 < g_tombstoneTTL g)%Z) :
  let g' := deleteEntity now ee g in
  MatchIdentity g' (e_Type e) (e_Identity e) = None ∧
  MatchTombstone t g' (e_Type e) (e_Identity e) =
    if after t (time_add (ee_RecordedAt ee) (g_tombstoneTTL g)) then None
    else Some (e_ID (ee_Entity ee)).
Proof.
  apply live_lookup in Hlive as [He Hnd]. set (id := e_ID (ee_Entity ee)) in *.
  assert (deletion_ok g (ee_Entity ee)) as Hok.
  { intros e0 He0 id' Hid'. fold id in He0 |- *. simplify_eq.
    assert (g_byHash g !! IdentityHash e = Some id); [|congruence].
    apply (wf_byHash g (wf_E _ Hwf)). exists e. by rewrite live_lookup. }
  pose proof (mark_wf_entities now ee g (wf_E _ Hwf) Hok) as HE'.
  destruct (deleteEntity_mark now ee g) as [[_ Hin]|[-> _]]; [done|].
  assert (g_tombDeadline (mark_deleted now ee g) !! id = Some (time_add (ee_RecordedAt ee) (g_tombstoneTTL g))) as Hdl.
  { unfold mark_deleted. fold id. rewrite He. simpl. rewrite bool_decide_eq_false_2; [|done].
    simpl. apply Z.ltb_lt in Httl. rewrite Httl Hrec. rewrite Hrec. simpl. apply lookup_insert_eq. }
  destruct (evict_frame (g_tombstones (mark_deleted now ee g)) _ HE') as (_ & _ & _ & _ & EB & _ & _ & ETTL & _).
  destruct (mark_frame now ee g) as (_ & _ & _ & EC & ET).
  destruct (evict_keeps (g_tombstones g) id (IdentityHash e)
    (Some (time_add (ee_RecordedAt ee) (g_tombstoneTTL g))) (mark_deleted now ee g)) as (K1 & K2 & K3); try done.
  { intros i. rewrite mark_del. fold id. intros [->%elem_of_singleton|Hi]%elem_of_union; [set_solver|].
    apply (wf_queued _ (wf_Q _ Hwf)) in Hi. set_solver. }
  { rewrite EC. apply Hwf. }
  { rewrite mark_del. set_solver. }
  { rewrite mark_tombByHash. fold id. rewrite He. by rewrite decide_True. }
  unfold evictTombstones, MatchIdentity, MatchTombstone, is_deleted. fold (IdentityHash e).
  rewrite EB ETTL ET mark_byHash. fold id. rewrite He decide_True; [|done].
  rewrite mark_queue bool_decide_eq_false_2; [|done]. fold id. 
  rewrite K2 K3 bool_decide_eq_true_2; [|done]. simpl. apply Z.ltb_lt in Httl. by rewrite Httl.
Qed.

Definition deletion_of (t : Time) (e : Entity) : EntityEvent :=
  mkEntityEvent "ev" EntityDeleted e t t 0 "" SchemaVersion [] "" DeleteSourceUnknown.

Lemma deletion_window_witness :
  MatchTombstone (5 + 15 * minute) (deleteEntity 9 (deletion_of 5 host_a) demo) "host" (e_Identity host_a) = Some "A" ∧
  MatchTombstone (6 + 15 * minute) (deleteEntity 9 (deletion_of 5 host_a) demo) "host" (e_Identity host_a) = None.
Proof.
  assert (live demo !! "A" = Some host_a) as Hl.
  { unfold demo. rewrite live_lookup_eq. rewrite bool_decide_eq_false_2; [|by_decide]. reflexivity. }
  assert ("A" ∉ g_tombstones demo) as Hf by by_decide.
  split.
  - apply (deletion_window 9 (5 + 15 * minute) (deletion_of 5 host_a) host_a demo demo_wf Hl Hf); reflexivity.
  - apply (deletion_window 9 (6 + 15 * minute) (deletion_of 5 host_a) host_a demo demo_wf Hl Hf); reflexivity.
Defined.

(** Without that proviso the cap evicts the newest tombstone: an entity
    deleted, resurrected and deleted again is found by its stale first entry, so
    with a cap of two it is dropped at once and the older tombstones stay,
    although the oldest is the one to drop. *)
Theorem stale_entry_evicts_newest :
  let g := Replay 9 [change_at 1 EntityCreated host_a; change_at 1 EntityCreated host_b;
    change_at 1 EntityCreated host_c; change_at 2 EntityDeleted host_a; change_at 3 EntityCreated host_a;
    change_at 4 EntityDeleted host_b; change_at 5 EntityDeleted host_c; change_at 6 EntityDeleted host_a]
    (NewWithTombstoneCap 2) in
  g_deleted g = {["B"; "C"]} ∧ GetEntity g "A" = (None, false) ∧
  MatchTombstone 7 g "host" (e_Identity host_a) = None.
Proof. cbv zeta. by_decide. Qed.

(** [PruneTombstones] drops exactly the tombstones whose window has passed
    and reports how many: a tombstone stays if and only if it has no deadline before
    now, no live entity is touched, no expired deadline is left, the count is the
    number of tombstones gone, the invariant holds, and the deletion queue is at most
    twice the tombstones it stands for. *)
Theorem prune_tombstones_spec (now : Time) (g : Graph) (Hwf : wf g) (Httl : (0 < g_tombstoneTTL g)%Z) :
  let '(g', n) := PruneTombstones now g in
  wf g' ∧ live g' = live g ∧
  (∀ id, id ∈ g_deleted g' ↔ id ∈ g_deleted g ∧ ¬ ∃ d, g_tombDeadline g !! id = Some d ∧ after now d = true) ∧
  n = (Z.of_nat (size (g_deleted g)) - Z.of_nat (size (g_deleted g')))%Z ∧
  (∀ id d, g_tombDeadline g' !! id = Some d → after now d = false) ∧
  (Z.of_nat (length (g_tombstones g')) <= 2 * Z.of_nat (size (g_deleted g')))%Z.
Proof.
  destruct Hwf as [HE HR HQ]. pose proof (prune_facts now g HE HQ) as Hf. pose proof (prune_expired now g HE HQ Httl) as Hx.
  pose proof (λ id, prune_deleted now g id Httl) as Hdel.
  destruct (PruneTombstones now g) as [g' n]. destruct Hf as (HE' & HQ' & EL & EN & ER & EO & EI & _).
  destruct Hx as [Hd Hlen]. split_and!; try done.
  split; [done| |done]. destruct HR; split; by rewrite ?ER ?EO ?EI.
Qed.

Lemma prune_tombstones_spec_witness :
  let g := deleteEntity 9 (deletion_of 5 host_a) demo in
  (0 < g_tombstoneTTL g)%Z ∧ (PruneTombstones (6 + 15 * minute) g).2 = 1%Z ∧
  live (PruneTombstones (6 + 15 * minute) g).1 = live g.
Proof.
  intros g. assert (wf g) as Hwf.
  { apply delete_wf; [apply demo_wf|]. intros e0 He0 id' Hid'. vm_compute in He0. injection He0 as <-.
    vm_compute in Hid'. by injection Hid' as <-. }
  split; [reflexivity|]. split; [vm_compute; reflexivity|].
  pose proof (prune_tombstones_spec (6 + 15 * minute) g Hwf eq_refl) as H.
  destruct (PruneTombstones _ g) as [g' n]. apply H.
Defined.
