(* ===== verification/ProjectionReads.v ===== *)
(** * Reads of the projection against their references

    Paging resumes where it stopped and covers the listing, neighbourhoods are
    bounded reachability, and a snapshot rebuilds the live state. *)
From S2P Require Import Prelude GoStd Values Vocabulary Entities Events Projection ProjectionInv ProjectionSpec.

(** ** Paging *)

(** A client that follows the cursor until it is empty. *)
Fixpoint pages (g : Graph) (typ : string) (limit : Z) (fuel : nat) (after : string) : list (list Entity) :=
  match fuel with
  | O => []
  | S fuel =>
    let '(page, next, _) := PageEntitiesByFingerprint g typ after limit in
    page :: if bool_decide (next = "") then [] else pages g typ limit fuel next
  end.

(** In a sorted list, the members after one of them are those past its key. *)
Lemma sorted_suffix {A} (l1 l2 : list (string * A)) (x : string * A) :
  StronglySorted (key_le fst) (l1 ++ x :: l2) → NoDup (l1 ++ x :: l2).*1 →
  base.filter (λ y, negb (String.leb y.1 x.1) = true) (l1 ++ x :: l2) = l2.
Proof.
  intros (Hle & _ & [Hall _]%StronglySorted_cons)%StronglySorted_app Hnd.
  rewrite fmap_app fmap_cons in Hnd. apply NoDup_app in Hnd as (_ & _ & [Hx _]%NoDup_cons).
  rewrite filter_app filter_none; [rewrite filter_cons_False; [apply filter_all|]|].
  - intros y Hy. rewrite Forall_forall in Hall. apply negb_true_iff, not_true_iff_false. intros Hyx.
    apply Hx. rewrite (anti_symm str_le x.1 y.1 (Hall _ Hy) Hyx). by apply list_elem_of_fmap_2.
  - rewrite negb_true_iff not_false_iff_true. apply (reflexivity (R:=str_le)).
  - intros y Hy. rewrite negb_true_iff not_false_iff_true. apply (Hle y x Hy). left.
Qed.

Section paging.
Context (g : Graph) (typ : string) (limit : Z).

(** The whole listing, as (fingerprint, id) in fingerprint order. *)
#[local] Abbreviation all := (sort_by fst (indexed g typ)).

Lemma indexed_NoDup : NoDup (indexed g typ).*1.
Proof. apply NoDup_fmap_filter, NoDup_fst_map_to_list. Qed.

(** What a page reads when the keys past its cursor are [rest]. *)
Lemma page_after after rest :
  base.filter (λ fi, bool_decide (after = "") || negb (String.leb fi.1 after) = true) all = rest →
  let cut := (limit <? Z.of_nat (length rest))%Z in
  let kept := if cut then take (Z.to_nat limit) rest else rest in
  PageEntitiesByFingerprint g typ after limit =
  (map (λ fi, entity_at g fi.2) kept, if cut then from_option fst "" (last kept) else "",
   Z.of_nat (length (indexed g typ))).
Proof.
  intros Hrest. unfold PageEntitiesByFingerprint. rewrite sort_by_filter; [|apply indexed_NoDup].
  by rewrite Hrest.
Qed.

Hypothesis Hwf : wf g.
Hypothesis Hlimit : (0 < limit)%Z.

Lemma fingerprint_nonempty fi : fi ∈ all → fi.1 ≠ "".
Proof.
  rewrite sort_by_elem. unfold indexed. rewrite list_elem_of_filter. intros [_ Hin].
  destruct fi as [h id]. apply elem_of_map_to_list in Hin.
  apply (wf_byHash g (wf_E _ Hwf)) in Hin as (e & _ & <-). simpl.
  unfold IdentityHash, identity_hash. by destruct (e_Type e).
Qed.

(** Following the cursor from a point of the listing reads the rest of it. *)
Lemma pages_from fuel after done rest :
  all = done ++ rest → length rest < fuel →
  base.filter (λ fi, bool_decide (after = "") || negb (String.leb fi.1 after) = true) all = rest →
  concat (pages g typ limit fuel after) = map (λ fi, entity_at g fi.2) rest.
Proof.
  revert after done rest. induction fuel as [|fuel IH]; intros after done rest Hall Hfuel Hrest; [lia|].
  cbn [pages]. rewrite (page_after _ _ Hrest). cbv zeta.
  destruct (Z.ltb_spec limit (Z.of_nat (length rest))) as [Hlt|Hge].
  2:{ rewrite bool_decide_eq_true_2; [|done]. simpl. by rewrite app_nil_r. }
  destruct (take (Z.to_nat limit) rest) as [|y l _] eqn:Hkept using rev_ind.
  { apply (f_equal length) in Hkept. rewrite length_take /= in Hkept. lia. }
  rewrite last_snoc. simpl.
  assert (all = (done ++ l) ++ y :: drop (Z.to_nat limit) rest) as Hsplit.
  { rewrite Hall -{1}(take_drop (Z.to_nat limit) rest) Hkept -!app_assoc. done. }
  assert (y.1 ≠ "") as Hy by (apply fingerprint_nonempty; rewrite Hsplit; set_solver).
  rewrite bool_decide_eq_false_2; [|done]. simpl.
  rewrite (IH y.1 ((done ++ l) ++ [y]) (drop (Z.to_nat limit) rest)).
  - rewrite -map_app -Hkept take_drop. done.
  - by rewrite -app_assoc.
  - rewrite length_drop. lia.
  - rewrite Hsplit. etrans; [|apply sorted_suffix].
    + apply list_filter_iff. intros fi. by rewrite bool_decide_eq_false_2.
    + rewrite -Hsplit. apply sort_by_sorted.
    + rewrite -Hsplit sort_by_perm. apply indexed_NoDup.
Qed.
End paging.

(** Paging loses and repeats nothing: a client that follows the cursor from
    the start until it comes back empty has read exactly the fingerprint-ordered
    listing, whatever the (positive) page size, within one page per entity. *)
Theorem paging_covers_listing (g : Graph) (typ : string) (limit : Z) (fuel : nat)
    (Hwf : wf g) (Hlimit : (0 < limit)%Z) (Hfuel : size (g_byHash g) < fuel) :
  concat (pages g typ limit fuel "") = ListEntitiesByFingerprint g typ.
Proof.
  apply (pages_from g typ limit Hwf Hlimit fuel "" [] (sort_by fst (indexed g typ))); [done| |].
  - rewrite sort_by_perm. eapply Nat.le_lt_trans; [apply length_filter|]. by rewrite length_map_to_list.
  - apply filter_all. done.
Qed.

Lemma paging_covers_listing_witness :
  concat (pages demo "host" 1 3 "") = ListEntitiesByFingerprint demo "host".
Proof. apply (paging_covers_listing demo "host" 1 3 demo_wf); [lia|]. vm_compute. lia. Defined.

(** ** Neighbourhoods *)

(** One hop, in either direction, over a relation of the wanted type. *)
Definition edge (g : Graph) (relType : string) (a b : EntityID) : Prop :=
  ∃ rid r, g_relations g !! rid = Some r ∧ filter_ok relType (r_Type r) = true ∧
    ((r_From r = a ∧ r_To r = b) ∨ (r_To r = a ∧ r_From r = b)).

(** [b'] is [b] after the nodes of [S] were visited. *)
Record bfs_ext (g : Graph) (b b' : Bfs) (S : gset string) : Prop := {
  be_visited : b_visited b' = b_visited b ∪ S;
  be_next : ∀ x, x ∈ b_next b' ↔ x ∈ b_next b ∨ (x ∈ S ∧ x ∉ b_visited b);
  be_result : ∀ e, e ∈ b_result b' ↔
    e ∈ b_result b ∨ ∃ x, x ∈ S ∧ x ∉ b_visited b ∧ live g !! x = Some e;
  be_once : NoDup (b_result b) → (∀ e, e ∈ b_result b → e_ID e ∈ b_visited b) →
    NoDup (b_result b') ∧ (∀ e, e ∈ b_result b' → e_ID e ∈ b_visited b');
}.

Lemma bfs_ext_refl g b : bfs_ext g b b ∅.
Proof. split; [set_solver..|auto]. Qed.

Lemma bfs_ext_trans g b1 b2 b3 S1 S2 :
  bfs_ext g b1 b2 S1 → bfs_ext g b2 b3 S2 → bfs_ext g b1 b3 (S1 ∪ S2).
Proof.
  intros [V1 N1 R1 O1] [V2 N2 R2 O2]. split.
  - rewrite V2 V1. set_solver.
  - intros x. rewrite N2 N1 V1. destruct (decide (x ∈ S1)); set_solver.
  - intros e. rewrite R2 R1 V1. split.
    + set_solver.
    + intros [|(x & [Hx|Hx]%elem_of_union & Hv & Hl)]; [by auto|left; right; eauto|].
      destruct (decide (x ∈ S1)); [left; right; eauto|right; exists x; set_solver].
  - intros Hnd Hin. apply O2; by apply O1.
Qed.

(** Visiting every member of a list, each contributing its set. *)
Lemma bfs_ext_fold {A} g (f : Bfs → A → Bfs) (S : A → gset string) (l : list A) b :
  (∀ b x, bfs_ext g b (f b x) (S x)) →
  bfs_ext g b (foldl f b l) (⋃ (S <$> l)).
Proof.
  intros Hf. revert b. induction l as [|x l IH]; intros b; simpl; [apply bfs_ext_refl|].
  eapply bfs_ext_trans; eauto.
Qed.

Section neighbours.
Context (g : Graph) (relType : string) (Hwf : wf g).

Lemma visit_ext b nbt :
  bfs_ext g b (visitNeighbor g relType b nbt) (if filter_ok relType nbt.2 then {[nbt.1]} else ∅).
Proof.
  destruct nbt as [nb t]. unfold visitNeighbor, filter_ok. simpl.
  rewrite (negb_involutive_reverse (_ || _)) negb_orb.
  destruct (negb _ && negb _); simpl; [apply bfs_ext_refl|].
  case_bool_decide as Hv.
  { split; [set_solver..|auto]. }
  pose proof (live_lookup_eq g nb) as Hl. unfold is_deleted.
  assert (∀ e, g_entities g !! nb = Some e → e_ID e = nb) as Hid by apply Hwf.
  split; simpl.
  - set_solver.
  - set_solver.
  - intros e. trans (e ∈ b_result b ∨ live g !! nb = Some e); [|set_solver].
    rewrite Hl. destruct (g_entities g !! nb) as [e0|]; case_bool_decide; try naive_solver.
    rewrite elem_of_app list_elem_of_singleton. naive_solver.
  - intros Hnd Hin. destruct (g_entities g !! nb) as [e0|]; [case_bool_decide|]; [set_solver| |set_solver].
    specialize (Hid e0 eq_refl). split.
    + apply NoDup_app. split; [done|]. split; [|apply NoDup_singleton].
      intros e He ->%list_elem_of_singleton. apply Hin in He. congruence.
    + intros e. rewrite elem_of_app list_elem_of_singleton. set_solver.
Qed.

Lemma adjacent_edge a b :
  (∃ t, (b, t) ∈ adjacent g a ∧ filter_ok relType t = true) ↔ edge g relType a b.
Proof.
  destruct Hwf as [_ [Hids Ho Hi] _]. unfold adjacent, edge, rel_at.
  setoid_rewrite elem_of_app. setoid_rewrite list_elem_of_fmap. setoid_rewrite elem_of_elements.
  setoid_rewrite Ho. setoid_rewrite Hi. split.
  - intros (t & [(rid & [= -> ->] & r & Hr & Ha)|(rid & [= -> ->] & r & Hr & Ha)] & Ht);
      rewrite Hr in Ht |- *; exists rid, r; auto.
  - intros (rid & r & Hr & Ht & [[Ha Hb]|[Ha Hb]]); exists (r_Type r); (split; [|done]);
      [left|right]; exists rid; rewrite Hr /= Hb; eauto.
Qed.

(** One round of the search. *)
Lemma round_ext visited frontier result :
  ∃ S, bfs_ext g (mkBfs visited [] result) (foldl (expand g relType) (mkBfs visited [] result) frontier) S ∧
  ∀ b, b ∈ S ↔ ∃ a, a ∈ frontier ∧ edge g relType a b.
Proof.
  eexists. split.
  - apply bfs_ext_fold with (S := λ cur, ⋃ ((λ nbt, if filter_ok relType nbt.2 then {[nbt.1]} else ∅) <$> adjacent g cur)).
    intros b cur. apply bfs_ext_fold, visit_ext.
  - intros b. rewrite elem_of_union_list. setoid_rewrite list_elem_of_fmap. split.
    + intros (X & (a & -> & Ha) & (Y & ([nb t] & -> & Hadj)%list_elem_of_fmap & Hb)%elem_of_union_list).
      exists a. split; [done|]. apply adjacent_edge. simpl in Hb.
      destruct (filter_ok relType t) eqn:Ht; set_solver.
    + intros (a & Ha & (t & Hadj & Ht)%adjacent_edge). eexists. split; [eauto|].
      apply elem_of_union_list. eexists. split; [apply list_elem_of_fmap; eauto|]. rewrite /= Ht. set_solver.
Qed.

Context (id : EntityID).

(** Reachable from [id] within [k] hops. *)
Definition within (k : nat) (b : EntityID) : Prop :=
  ∃ n, n ≤ k ∧ nsteps (edge g relType) n id b.

Lemma within_S k b : within (S k) b ↔ within k b ∨ ∃ a, within k a ∧ edge g relType a b.
Proof.
  split.
  - intros (n & Hn & Hs). destruct (decide (n ≤ k)); [left; by exists n|right].
    assert (n = S k) as -> by lia. apply nsteps_inv_r in Hs as (a & Ha & He).
    exists a. split; [|done]. by exists k.
  - intros [(n & ? & ?)|(a & (n & ? & ?) & He)].
    + exists n. split; [lia|done].
    + exists (S n). split; [lia|]. by eapply nsteps_r.
Qed.

(** The state of the search after [k] rounds. *)
Record searched (k : nat) (visited : gset string) (frontier : list EntityID) (result : list Entity) : Prop := {
  s_visited : ∀ b, b ∈ visited ↔ within k b;
  s_frontier : ∀ b, b ∈ frontier → b ∈ visited;
  s_closed : ∀ a b, a ∈ visited → a ∉ frontier → edge g relType a b → b ∈ visited;
  s_result : ∀ e, e ∈ result ↔ ∃ b, b ∈ visited ∧ b ≠ id ∧ live g !! b = Some e;
  s_once : NoDup result;
}.

Lemma searched_0 : searched 0 {[id]} [id] [].
Proof.
  split; [|set_solver..|constructor]. intros b. rewrite elem_of_singleton. split.
  - intros ->. exists 0. split; [done|constructor].
  - intros (n & Hn & Hs). assert (n = 0) as -> by lia. by inversion Hs.
Qed.

Lemma searched_S k visited frontier result :
  searched k visited frontier result →
  let b := foldl (expand g relType) (mkBfs visited [] result) frontier in
  searched (S k) (b_visited b) (b_next b) (b_result b).
Proof.
  intros [HV HF HC HR HO] b. destruct (round_ext visited frontier result) as (S & [V N R O] & HS).
  fold b in V, N, R, O. simpl in *.
  assert (id ∈ visited) as Hid by (apply HV; exists 0; split; [lia|constructor]).
  split.
  - intros x. rewrite V elem_of_union within_S -HV HS. setoid_rewrite <- HV. split; [set_solver|].
    intros [|(a & Ha & He)]; [by auto|]. destruct (decide (a ∈ frontier)); [right; eauto|left; eauto].
  - intros x. rewrite N V. set_solver.
  - intros x y. rewrite V N. intros [Hx|Hx]%elem_of_union Hn He.
    + apply elem_of_union. destruct (decide (x ∈ frontier)); [right; apply HS; eauto|left; eauto].
    + destruct (decide (x ∈ visited)); [|set_solver]. apply elem_of_union.
      destruct (decide (x ∈ frontier)); [right; apply HS; eauto|left; eauto].
  - intros e. rewrite R HR V. split.
    + intros [|(x & Hx & Hv & Hl)]; [set_solver|]. exists x. set_solver.
    + intros (x & Hx & Hne & Hl). destruct (decide (x ∈ visited)); set_solver.
  - apply O; [done|]. intros e (x & Hx & _ & [He _]%live_lookup)%HR.
    by rewrite (wf_ids g (wf_E _ Hwf) _ _ He).
Qed.

(** An exhausted frontier means nothing further is reachable. *)
Lemma searched_stop k j visited result :
  searched k visited [] result → k ≤ j → searched j visited [] result.
Proof.
  intros Hs Hj. induction Hj as [|j Hj IH]; [done|]. destruct IH as [HV HF HC HR HO].
  split; try done. intros b. rewrite within_S -HV. setoid_rewrite <- HV. set_solver.
Qed.

Lemma loop_searched d : ∀ k visited frontier result,
  searched k visited frontier result →
  ∃ visited' frontier', searched (k + d) visited' frontier' (neighbors_loop g relType d visited frontier result).
Proof.
  induction d as [|d IH]; intros k visited frontier result Hs; simpl.
  - rewrite Nat.add_0_r. eauto.
  - destruct frontier as [|x frontier].
    + exists visited, []. eapply searched_stop; [done|lia].
    + rewrite -Nat.add_succ_comm. apply IH. by apply (searched_S k visited (x :: frontier)).
Qed.
End neighbours.

(** [Neighbors] is reachability: it lists, each once, exactly the live
    entities other than the start that some path of at most [depth] relations of
    the wanted type, taken in either direction, connects to it. *)
Theorem neighbors_reachable (g : Graph) (id : EntityID) (relType : string) (depth : Z) (Hwf : wf g) :
  NoDup (Neighbors g id relType depth) ∧
  ∀ e, e ∈ Neighbors g id relType depth ↔
    ∃ nb n, nb ≠ id ∧ live g !! nb = Some e ∧ (Z.of_nat n <= depth)%Z ∧ nsteps (edge g relType) n id nb.
Proof.
  unfold Neighbors. destruct (Z.ltb_spec depth 1) as [Hd|Hd].
  - split; [constructor|]. intros e. split; [set_solver|]. intros (nb & n & Hne & _ & Hn & Hs).
    assert (n = 0) as -> by lia. by inversion Hs.
  - destruct (loop_searched g relType Hwf id (Z.to_nat depth) 0 {[id]} [id] [])
      as (V & F & [HV _ _ HR HO]); [by apply searched_0|].
    split; [done|]. intros e. rewrite HR. setoid_rewrite HV. unfold within. split.
    + intros (b & (n & Hn & Hs) & Hne & Hl). exists b, n. split_and!; try done. lia.
    + intros (b & n & Hne & Hl & Hn & Hs). exists b. split_and!; try done. exists n. split; [lia|done].
Qed.

Lemma neighbors_reachable_witness : wf demo ∧ host_b ∈ Neighbors demo "A" "runs_on" 1.
Proof.
  split; [apply demo_wf|]. apply (neighbors_reachable demo "A" "runs_on" 1 demo_wf).
  exists "B", 1. split; [by_decide|]. split; [|split; [lia|]].
  - rewrite live_lookup_eq bool_decide_eq_false_2; [|by_decide]. reflexivity.
  - apply nsteps_once. exists "R", link_ab. split; [reflexivity|]. split; [reflexivity|]. by left.
Defined.

(** ** Snapshots *)

(** Synthetic events, whatever ids and times they carry. *)
Definition creates (ev : Event) (e : Entity) : Prop :=
  ∃ ee, ev_Entity ev = Some ee ∧ ee_ChangeType ee = EntityCreated ∧ ee_Entity ee = e.
Definition adds (ev : Event) (r : Relation) : Prop :=
  ev_Entity ev = None ∧ ∃ re, ev_Relation ev = Some re ∧ re_ChangeType re = RelationAdded ∧ re_Relation re = r.

Lemma Forall2_imap {A B} (P : B → A → Prop) (f : nat → A → B) (l : list A) :
  (∀ i x, P (f i x) x) → Forall2 P (imap f l) l.
Proof. intros Hf. revert f Hf. induction l as [|x l IH]; intros f Hf; constructor; [apply Hf|]. apply IH. intros i. apply (Hf (S i)). Qed.

Lemma replay_creates now evs es g :
  Forall2 creates evs es → wf g → g_deleted g = ∅ →
  NoDup (e_ID <$> es) → NoDup (IdentityHash <$> es) →
  (∀ e, e ∈ es → g_entities g !! e_ID e = None ∧ g_byHash g !! IdentityHash e = None) →
  let g' := Replay now evs g in
  wf g' ∧ g_deleted g' = ∅ ∧ g_relations g' = g_relations g ∧
  ∀ id e, g_entities g' !! id = Some e ↔ g_entities g !! id = Some e ∨ (e ∈ es ∧ e_ID e = id).
Proof.
  intros H. revert g. induction H as [|ev e evs es (ee & Hev & Hct & <-) _ IH]; intros g Hwf Hd Hi Hh Hnew; simpl.
  { split_and!; try done. set_solver. }
  rewrite !fmap_cons !NoDup_cons in Hi, Hh. destruct Hi as [Hi1 Hi2], Hh as [Hh1 Hh2].
  destruct (Hnew (ee_Entity ee)) as [Hne Hnh]; [left|].
  assert (Apply now ev g = putEntity (ee_Entity ee) g) as -> by (unfold Apply, applyEntity; by rewrite Hev Hct).
  destruct (IH (putEntity (ee_Entity ee) g)) as (W & D & R & E); try done.
  - apply put_wf; [done|]. split; congruence.
  - rewrite put_deleted Hd. set_solver.
  - intros e He. rewrite put_entities put_byHash !lookup_insert_ne; [apply Hnew; by right|..].
    + intros Heq. apply Hh1. rewrite Heq. by apply list_elem_of_fmap_2.
    + intros Heq. apply Hi1. rewrite Heq. by apply list_elem_of_fmap_2.
  - split_and!; try done.
    + rewrite R. by apply put_frame.
    + intros id e. rewrite E put_entities lookup_insert elem_of_cons. case_decide; subst; [|naive_solver].
      rewrite Hne. naive_solver.
Qed.

Lemma replay_adds now evs rs g :
  Forall2 adds evs rs → wf g → NoDup (r_ID <$> rs) → (∀ r, r ∈ rs → g_relations g !! r_ID r = None) →
  let g' := Replay now evs g in
  wf g' ∧ g_deleted g' = g_deleted g ∧ g_entities g' = g_entities g ∧
  ∀ id r, g_relations g' !! id = Some r ↔ g_relations g !! id = Some r ∨ (r ∈ rs ∧ r_ID r = id).
Proof.
  intros H. revert g. induction H as [|ev r evs rs (Hne & re & Hev & Hct & <-) _ IH]; intros g Hwf Hi Hnew; simpl.
  { split_and!; try done. set_solver. }
  rewrite !fmap_cons !NoDup_cons in Hi. destruct Hi as [Hi1 Hi2].
  assert (Apply now ev g = applyRelation re g) as -> by (unfold Apply; by rewrite Hne Hev).
  assert (g_relations g !! r_ID (re_Relation re) = None) as Hnone by (apply Hnew; left).
  assert (g_relations (applyRelation re g) = <[r_ID (re_Relation re) := re_Relation re]> (g_relations g) ∧
    g_deleted (applyRelation re g) = g_deleted g ∧ g_entities (applyRelation re g) = g_entities g) as (HR & HD & HE)
    by (unfold applyRelation; by rewrite Hct).
  destruct (IH (applyRelation re g)) as (W & D & E & R); try done.
  - apply relation_wf; [done|]. intros r0. congruence.
  - intros r Hr. rewrite HR lookup_insert_ne; [apply Hnew; by right|].
    intros Heq. apply Hi1. rewrite Heq. by apply list_elem_of_fmap_2.
  - split_and!; try congruence. intros id r. rewrite R HR lookup_insert elem_of_cons.
    case_decide; subst; [|naive_solver]. rewrite Hnone. naive_solver.
Qed.

(** The live entities have distinct ids and distinct identities. *)
Lemma live_distinct g : wf g →
  NoDup (e_ID <$> (map_to_list (live g)).*2) ∧ NoDup (IdentityHash <$> (map_to_list (live g)).*2).
Proof.
  intros [[Hids Hh _ _ _ _] _ _].
  assert (keyed e_ID (live g)) as Hk by (intros k x [Hx _]%live_lookup; eauto).
  split; (apply NoDup_fmap_2_strong; [|by apply (keyed_values_NoDup e_ID)]);
    intros x y (kx & Hx)%elem_of_values (ky & Hy)%elem_of_values Heq.
  - rewrite (Hk _ _ Hx) (Hk _ _ Hy) in Heq. congruence.
  - assert (g_byHash g !! IdentityHash x = Some kx) as H1 by (apply Hh; eauto).
    assert (g_byHash g !! IdentityHash y = Some ky) as H2 by (apply Hh; eauto). congruence.
Qed.

(** A snapshot is lossless: replaying the synthetic events into an empty
    graph yields the same live entities and the same relations, no tombstones,
    and exact indexes, whatever ids and time the events were given. *)
Theorem snapshot_roundtrip (now when : Time) (ids : nat → string) (g : Graph) (Hwf : wf g) :
  let g' := Replay now (SnapshotEvents ids when g) New in
  wf g' ∧ live g' = live g ∧ g_relations g' = g_relations g ∧ g_deleted g' = ∅.
Proof.
  unfold SnapshotEvents. cbv zeta. rewrite /Replay foldl_app -!/(Replay _ _ _).
  pose proof (live_distinct g Hwf) as [Hi Hh]. destruct Hwf as [[Hids _ _ _ _ _] [Hrids _ _] _].
  set (es := (map_to_list (live g)).*2) in *. set (rs := (map_to_list (g_relations g)).*2).
  destruct (replay_creates now (imap (snapshot_entity ids when) es) es New) as (W1 & D1 & R1 & E1);
    [|apply wf_new|done|done|done|intros e _; by rewrite !lookup_empty|].
  { apply Forall2_imap. intros i e. by eexists. }
  destruct (replay_adds now (imap (λ i r, snapshot_relation ids when (length es + i) r) rs) rs
    (Replay now (imap (snapshot_entity ids when) es) New)) as (W2 & D2 & E2 & R2); [|done|..].
  { apply Forall2_imap. intros i r. split; [done|]. by eexists. }
  { apply NoDup_fmap_2_strong; [|by apply (keyed_values_NoDup r_ID)].
    intros x y (kx & Hx)%elem_of_values (ky & Hy)%elem_of_values Heq.
    rewrite (Hrids _ _ Hx) (Hrids _ _ Hy) in Heq. congruence. }
  { intros r _. by rewrite R1 lookup_empty. }
  split_and!; [done| | |by rewrite D2].
  - apply map_eq. intros id. apply option_eq. intros e. rewrite (live_lookup (Replay _ _ _)) D2 D1 E2 E1 lookup_empty.
    unfold es. rewrite elem_of_values. setoid_rewrite live_lookup. naive_solver set_solver.
  - apply map_eq. intros id. apply option_eq. intros r. rewrite R2 R1 lookup_empty.
    unfold rs. rewrite elem_of_values. naive_solver.
Qed.

Lemma snapshot_roundtrip_witness :
  wf demo ∧ live (Replay 9 (SnapshotEvents (λ n, itoa (Z.of_nat n)) 7 demo) New) = live demo.
Proof.
  split; [apply demo_wf|]. apply (snapshot_roundtrip 9 7 (λ n, itoa (Z.of_nat n)) demo demo_wf).
Defined.
