(* ===== verification/Canonical.v ===== *)
(** * The identity overlay: internal/canonical/canonical.go

    The walk over believed same_as edges that groups entities held to be the same
    real thing. The graph it reads is an interface; the projection implements it. *)
From S2P Require Import Prelude GoStd Values Vocabulary Entities Events Observations Aliases Projection ProjectionInv.
From S2P Require Import ProjectionSpec.
From Stdlib Require Import SpecFloat.
#[local] Open Scope nat_scope.

Definition BasisKey : string := "basis".

Record Link := mkLink { l_From : string; l_To : string; l_Confidence : float64; l_Basis : string }.

(** [Confidence]: the same reading as of an observation's attributes. *)
Definition Confidence (r : Relation) : float64 * bool := observationConfidence (r_Attributes r).
Definition Basis (r : Relation) : string :=
  match find (λ kv, bool_decide (Key kv = BasisKey)) (r_Attributes r) with
  | Some kv => Display (Val kv)
  | None => ""
  end.

(** ** The graph the walk reads *)

Class WalkGraph (G : Type) := touching : G → EntityID → string → list Relation.

(** The incident edges, and a bound on how many entities have any. *)
Class WalkGraphLaws (G : Type) `{!WalkGraph G} := {
  wg_ok : G → Prop;
  wg_edge : G → Relation → Prop;
  wg_nodes : G → gset string;
  touching_spec : ∀ g id t r, wg_ok g →
    r ∈ touching g id t ↔ wg_edge g r ∧ (r_From r = id ∨ r_To r = id) ∧ filter_ok t (r_Type r) = true;
  wg_ids : ∀ g r r', wg_ok g → wg_edge g r → wg_edge g r' → r_ID r = r_ID r' → r = r';
  wg_bound : ∀ g r, wg_ok g → wg_edge g r → r_From r ∈ wg_nodes g ∧ r_To r ∈ wg_nodes g;
}.

(** ** The walk *)

Record WalkState := mkWalk {
  w_seen : gset string;
  w_seenLink : gset string;
  w_members : list EntityID;
  w_queue : list EntityID;
  w_links : list Link;
}.

(** Strong enough to collapse. *)
Definition believed (threshold : float64) (r : Relation) : bool :=
  let '(conf, ok) := Confidence r in ok && negb (f64_lt conf threshold).

Definition walk_edge (threshold : float64) (cur : EntityID) (s : WalkState) (r : Relation) : WalkState :=
  if negb (believed threshold r) then s else
  let s := if bool_decide (r_ID r ∈ w_seenLink s) then s
    else mkWalk (w_seen s) ({[r_ID r]} ∪ w_seenLink s) (w_members s) (w_queue s)
           (w_links s ++ [mkLink (r_From r) (r_To r) (Confidence r).1 (Basis r)])%list in
  let other := if bool_decide (r_To r = cur) then r_From r else r_To r in
  if bool_decide (other ∈ w_seen s) then s
  else mkWalk ({[other]} ∪ w_seen s) (w_seenLink s) (w_members s ++ [other])%list (w_queue s ++ [other])%list (w_links s).

Section walk.
Context {G : Type} `{!WalkGraph G} `{!WalkGraphLaws G}.

Fixpoint walk_loop (g : G) (threshold : float64) (fuel : nat) (s : WalkState) : WalkState :=
  match fuel, w_queue s with
  | O, _ | _, [] => s
  | S fuel, cur :: queue =>
    walk_loop g threshold fuel
      (foldl (walk_edge threshold cur)
         (mkWalk (w_seen s) (w_seenLink s) (w_members s) queue (w_links s)) (touching g cur RelSameAs))
  end.

(** By the from-end, then the to-end. *)
Definition link_le (x y : Link) : Prop :=
  if bool_decide (l_From x = l_From y) then str_le (l_To x) (l_To y) else str_le (l_From x) (l_From y).
#[global] Instance link_le_dec : RelDecision link_le.
Proof. intros x y. unfold link_le. destruct (bool_decide _); apply _. Defined.
#[global] Instance link_le_total : Total link_le.
Proof.
  intros x y. unfold link_le. rewrite (bool_decide_ext (l_From y = l_From x) (l_From x = l_From y)) //.
  destruct (bool_decide _); apply total, _.
Qed.
#[global] Instance link_le_trans : Transitive link_le.
Proof.
  intros [f1 t1 c1 b1] [f2 t2 c2 b2] [f3 t3 c3 b3]. unfold link_le. simpl.
  intros H1 H2. repeat case_bool_decide; simplify_eq; try done; try (by etrans).
  assert (f2 = f3) as ->; [|done]. by apply (anti_symm str_le).
Qed.

Definition Walk (g : G) (fuel : nat) (root : EntityID) (threshold : float64) : list EntityID * list Link :=
  let s := walk_loop g threshold fuel (mkWalk {[root]} ∅ [root] [root] []) in
  (w_members s, merge_sort link_le (w_links s)).

(** ** What it finds *)

(** One step of belief. *)
Definition alias_edge (g : G) (threshold : float64) (a b : EntityID) : Prop :=
  ∃ r, wg_edge g r ∧ filter_ok RelSameAs (r_Type r) = true ∧ believed threshold r = true ∧
    ((r_From r = a ∧ r_To r = b) ∨ (r_To r = a ∧ r_From r = b)).

Definition link_of (r : Relation) : Link := mkLink (r_From r) (r_To r) (Confidence r).1 (Basis r).

Context (g : G) (threshold : float64) (Hg : wg_ok g) (root : EntityID).


(** A justifying edge of the group [ms]. *)
Definition justifies (ms : list EntityID) (r : Relation) : Prop :=
  wg_edge g r ∧ filter_ok RelSameAs (r_Type r) = true ∧ believed threshold r = true ∧ r_From r ∈ ms ∧ r_To r ∈ ms.

(** The state of a walk that has dequeued [done] and followed the edges [rels]. *)
Record walked (done : list EntityID) (rels : list Relation) (s : WalkState) : Prop := {
  wk_members : w_members s = (done ++ w_queue s)%list;
  wk_once : NoDup (w_members s);
  wk_seen : ∀ x, x ∈ w_seen s ↔ x ∈ w_members s;
  wk_sound : ∀ x, x ∈ w_members s → rtc (alias_edge g threshold) root x;
  wk_root : head (w_members s) = Some root;
  wk_links : w_links s = link_of <$> rels;
  wk_links_once : NoDup (r_ID <$> rels);
  wk_seenLink : ∀ i, i ∈ w_seenLink s ↔ i ∈ r_ID <$> rels;
  wk_justifies : ∀ r, r ∈ rels → justifies (w_members s) r;
}.

(** An incident same_as edge of [cur]. *)
Definition at_node (cur : EntityID) (r : Relation) : Prop :=
  wg_edge g r ∧ filter_ok RelSameAs (r_Type r) = true ∧ (r_From r = cur ∨ r_To r = cur).

(** The far end of an edge, as the walk takes it. *)
Definition far (cur : EntityID) (r : Relation) : EntityID :=
  if bool_decide (r_To r = cur) then r_From r else r_To r.

Lemma far_step cur r : at_node cur r → believed threshold r = true → alias_edge g threshold cur (far cur r).
Proof.
  intros (Hr & Ht & Hends) Hb. exists r. split_and!; try done. unfold far.
  case_bool_decide; [by right|left; naive_solver].
Qed.

Lemma far_ends cur r (l : list EntityID) : at_node cur r → cur ∈ l → far cur r ∈ l → r_From r ∈ l ∧ r_To r ∈ l.
Proof. intros (_ & _ & Hends) H1 H2. unfold far in H2. case_bool_decide; naive_solver. Qed.

(** Recording the far end. *)
Lemma walked_visit done rels s x :
  walked done rels s → x ∉ w_members s → rtc (alias_edge g threshold) root x →
  walked done rels (mkWalk ({[x]} ∪ w_seen s) (w_seenLink s) (w_members s ++ [x])%list (w_queue s ++ [x])%list (w_links s)).
Proof.
  intros [HM HN HS HR Hroot HL HLN HSL HJ] Hx Hreach. split; simpl; try done.
  - by rewrite HM -(assoc_L app).
  - apply NoDup_app. split_and!; [done| |apply NoDup_singleton]. set_solver.
  - intros y. rewrite elem_of_union elem_of_singleton HS elem_of_app list_elem_of_singleton. naive_solver.
  - intros y [Hy|Hy]%elem_of_app; [auto|]. apply list_elem_of_singleton in Hy as ->. done.
  - by destruct (w_members s).
  - intros r (H1 & H2 & H3 & H4 & H5)%HJ. split_and!; [done..| |]; apply elem_of_app; by left.
Qed.

(** Recording the edge, when both its ends are members. *)
Lemma walked_link done rels s r :
  walked done rels s → justifies (w_members s) r → r_ID r ∉ w_seenLink s →
  walked done (rels ++ [r])%list
    (mkWalk (w_seen s) ({[r_ID r]} ∪ w_seenLink s) (w_members s) (w_queue s) (w_links s ++ [link_of r])%list).
Proof.
  intros [HM HN HS HR Hroot HL HLN HSL HJ] Hr Hnew. split; simpl; try done.
  - by rewrite HL fmap_app.
  - rewrite fmap_app. apply NoDup_app. split_and!; [done| |apply NoDup_singleton].
    rewrite HSL in Hnew. intros i Hi Hi2. apply list_elem_of_singleton in Hi2 as ->. done.
  - intros i. rewrite fmap_app elem_of_union elem_of_singleton HSL elem_of_app list_elem_of_singleton. naive_solver.
  - intros r' [Hr'|Hr']%elem_of_app; [auto|]. by apply list_elem_of_singleton in Hr' as ->.
Qed.

(** The edge and its far end, in either order. *)
Definition visit (x : EntityID) (s : WalkState) : WalkState :=
  if bool_decide (x ∈ w_seen s) then s
  else mkWalk ({[x]} ∪ w_seen s) (w_seenLink s) (w_members s ++ [x])%list (w_queue s ++ [x])%list (w_links s).
Definition record_link (r : Relation) (s : WalkState) : WalkState :=
  if bool_decide (r_ID r ∈ w_seenLink s) then s
  else mkWalk (w_seen s) ({[r_ID r]} ∪ w_seenLink s) (w_members s) (w_queue s) (w_links s ++ [link_of r])%list.

Lemma walk_edge_eq cur s r :
  walk_edge threshold cur s r = if believed threshold r then record_link r (visit (far cur r) s) else s.
Proof.
  unfold walk_edge, record_link, visit, far. destruct (believed threshold r); [|done]. simpl.
  repeat (case_bool_decide; simpl in *; try done).
Qed.

(** Following one edge from [cur]. *)
Lemma walk_edge_walked done rels cur s r :
  walked done rels s → cur ∈ w_members s → at_node cur r →
  let s' := walk_edge threshold cur s r in
  ∃ rels', walked done rels' s' ∧ (∀ x, x ∈ w_members s → x ∈ w_members s') ∧
  (believed threshold r = true → justifies (w_members s') r ∧ r_ID r ∈ w_seenLink s') ∧ w_seenLink s ⊆ w_seenLink s'.
Proof.
  intros Hw Hcur Hat. cbn zeta. rewrite walk_edge_eq. destruct (believed threshold r) eqn:Hb; [|by exists rels].
  assert (walked done rels (visit (far cur r) s) ∧ far cur r ∈ w_members (visit (far cur r) s) ∧
    (∀ x, x ∈ w_members s → x ∈ w_members (visit (far cur r) s)) ∧
    w_seenLink (visit (far cur r) s) = w_seenLink s) as (Hv & Hfar & Hmono & HL).
  { unfold visit. case_bool_decide as Hseen.
    - split_and!; try done. by apply (wk_seen _ _ _ Hw).
    - split_and!; simpl; try set_solver. apply walked_visit; [done|by rewrite -(wk_seen _ _ _ Hw)|].
      eapply rtc_r; [by apply (wk_sound _ _ _ Hw)|by apply far_step]. }
  assert (justifies (w_members (visit (far cur r) s)) r) as HJ.
  { destruct (far_ends cur r _ Hat (Hmono _ Hcur) Hfar). destruct Hat as (? & ? & _). done. }
  rewrite -HL. unfold record_link. case_bool_decide as Hs; [by exists rels|].
  exists (rels ++ [r])%list. split; [by apply walked_link|]. simpl. split_and!; try done; set_solver.
Qed.

Lemma walk_edges_walked done cur es : ∀ rels s,
  walked done rels s → cur ∈ w_members s → (∀ r, r ∈ es → at_node cur r) →
  let s' := foldl (walk_edge threshold cur) s es in
  ∃ rels', walked done rels' s' ∧ (∀ x, x ∈ w_members s → x ∈ w_members s') ∧ w_seenLink s ⊆ w_seenLink s' ∧
  ∀ r, r ∈ es → believed threshold r = true → justifies (w_members s') r ∧ r_ID r ∈ w_seenLink s'.
Proof.
  induction es as [|r es IH]; intros rels s Hs Hcur Hes; simpl; [exists rels; split_and!; try done; set_solver|].
  destruct (walk_edge_walked done rels cur s r Hs Hcur) as (rels1 & Hs1 & Hmono & Hb & HL); [by apply Hes; left|].
  destruct (IH rels1 (walk_edge threshold cur s r)) as (rels2 & Hs2 & Hmono2 & HL2 & Hall);
    [done|by apply Hmono|intros; apply Hes; by right|].
  exists rels2. split_and!; [done|by auto|set_solver|].
  intros r' [->|Hr']%elem_of_cons Hbr; [|auto].
  destruct (Hb Hbr) as ((? & ? & ? & ? & ?) & ?). split; [split_and!; auto|set_solver].
Qed.

(** Dequeued members have all their believed edges followed. *)
Definition closed (done : list EntityID) (s : WalkState) : Prop :=
  ∀ a r, a ∈ done → at_node a r → believed threshold r = true → justifies (w_members s) r ∧ r_ID r ∈ w_seenLink s.

Lemma walk_loop_spec fuel : ∀ done rels s, walked done rels s → closed done s →
  ∃ done' rels', let s' := walk_loop g threshold fuel s in
  walked done' rels' s' ∧ closed done' s' ∧ (w_queue s' = [] ∨ length done' = length done + fuel).
Proof.
  induction fuel as [|fuel IH]; intros done rels s Hw Hc; simpl.
  - exists done, rels. split_and!; try done. right. lia.
  - destruct (w_queue s) as [|cur queue] eqn:Hq; [exists done, rels; split_and!; try done; by left|].
    pose proof Hw as [HM HN HS HR Hroot HL HLN HSL HJ]. rewrite Hq in HM.
    set (s1 := mkWalk (w_seen s) (w_seenLink s) (w_members s) queue (w_links s)).
    assert (walked (done ++ [cur])%list rels s1) as Hw1 by (split; simpl; try done; by rewrite -(assoc_L app)).
    assert (cur ∈ w_members s1) as Hcur by (simpl; rewrite HM; set_solver).
    assert (∀ r, r ∈ touching g cur RelSameAs ↔ at_node cur r) as Htouch.
    { intros r. rewrite touching_spec //. unfold at_node. tauto. }
    destruct (walk_edges_walked (done ++ [cur])%list cur (touching g cur RelSameAs) rels s1 Hw1 Hcur)
      as (rels2 & Hw2 & Hmono & HL2 & Hall); [intros r; apply Htouch|].
    destruct (IH (done ++ [cur])%list rels2 _ Hw2) as (done' & rels' & H1 & H2 & H3).
    { intros a r [Ha|Ha]%elem_of_app Hat Hb.
      - destruct (Hc a r Ha Hat Hb) as ((? & ? & ? & ? & ?) & ?). split; [split_and!; auto|set_solver].
      - apply list_elem_of_singleton in Ha as ->. by apply Hall, Hb; apply Htouch. }
    exists done', rels'. split_and!; try done. destruct H3 as [|H3]; [by left|right].
    rewrite H3 length_app /=. lia.
Qed.

(** Members other than the root are ends of edges, so the queue runs dry. *)
Lemma reachable_known x : rtc (alias_edge g threshold) root x → x ∈ ({[root]} ∪ wg_nodes g : gset string).
Proof.
  intros [->|(y & _ & r & Hr & _ & _ & Hends)]%rtc_inv_r; [set_solver|].
  destruct (wg_bound g r Hg Hr). naive_solver set_solver.
Qed.

Lemma walk_start : walked [] [] (mkWalk {[root]} ∅ [root] [root] []).
Proof.
  split; simpl; try done; try apply NoDup_singleton; try apply NoDup_nil_2; try set_solver.
Qed.

Lemma walk_end fuel : size (wg_nodes g) < fuel →
  ∃ done rels, let s := walk_loop g threshold (S fuel) (mkWalk {[root]} ∅ [root] [root] []) in
  walked done rels s ∧ closed done s ∧ w_queue s = [].
Proof.
  intros Hfuel. destruct (walk_loop_spec (S fuel) [] [] _ walk_start) as (done & rels & Hw & Hc & [Hq|Hq]);
    [by intros a r Ha%elem_of_nil| |].
  - by exists done, rels.
  - exfalso. pose proof Hw as [HM HN _ HR _ _ _ _ _].
    assert (length done ≤ size ({[root]} ∪ wg_nodes g : gset string)) as Hlen.
    { rewrite HM in HN. apply NoDup_app in HN as (HN & _ & _). rewrite -(size_list_to_set (C:=gset string)) //.
      apply subseteq_size. intros x Hx%elem_of_list_to_set. apply reachable_known, HR. rewrite HM. set_solver. }
    pose proof (size_union_alt ({[root]} : gset string) (wg_nodes g)) as Hu.
    assert (size (wg_nodes g ∖ {[root]}) ≤ size (wg_nodes g)) by (apply subseteq_size; set_solver).
    rewrite size_singleton in Hu. simpl in Hq. lia.
Qed.
Lemma walk_members fuel : size (wg_nodes g) < fuel → let members := (Walk g (S fuel) root threshold).1 in
  head members = Some root ∧ NoDup members ∧ ∀ x, x ∈ members ↔ rtc (alias_edge g threshold) root x.
Proof.
  intros Hfuel. destruct (walk_end fuel Hfuel) as (done & rels & [HM HN HS HR Hroot HL HLN HSL HJ] & Hc & Hq).
  unfold Walk. rewrite Hq app_nil_r in HM. cbn [fst]. rewrite HM in HN HR Hroot HJ |- *. split_and!; try done.
  intros x. split; [apply HR|]. revert x. apply rtc_ind_r; [|intros y z _ Hz IH].
  - destruct done; [done|]. naive_solver set_solver.
  - destruct Hz as (r & Hr & Ht & Hb & Hends). destruct (Hc y r IH) as ((_ & _ & _ & H1 & H2) & _);
      [split_and!; naive_solver|done|]. rewrite HM in H1 H2. naive_solver.
Qed.

(** [Walk] terminates and answers the canonical group: with fuel beyond the number
    of entities that have any relation, the members are the root first and then, each
    once, exactly the entities reachable from it over same_as edges believed at or above
    the threshold, followed in either direction; the links are, sorted by endpoints and
    one per edge, exactly the believed same_as edges with an end in the group. *)
Theorem canonical_walk_groups (fuel : nat) (Hfuel : size (wg_nodes g) < fuel) :
  let '(members, links) := Walk g (S fuel) root threshold in
  head members = Some root ∧ NoDup members ∧
  (∀ x, x ∈ members ↔ rtc (alias_edge g threshold) root x) ∧
  StronglySorted link_le links ∧
  ∃ rels, links ≡ₚ link_of <$> rels ∧ NoDup rels ∧
    ∀ r, r ∈ rels ↔ wg_edge g r ∧ filter_ok RelSameAs (r_Type r) = true ∧ believed threshold r = true ∧
                    (r_From r ∈ members ∨ r_To r ∈ members).
Proof.
  pose proof (walk_members fuel Hfuel) as Hm. destruct (walk_end fuel Hfuel) as (done & rels & [HM HN HS HR Hroot HL HLN HSL HJ] & Hc & Hq).
  unfold Walk in *. rewrite Hq app_nil_r in HM. cbn [fst] in Hm. rewrite HM in Hm HJ |- *. destruct Hm as (M1 & M2 & M3). split_and!; try done.
  - apply StronglySorted_merge_sort; apply _.
  - exists rels. rewrite merge_sort_Permutation HL. split_and!; [done|by eapply NoDup_fmap_1|].
    intros r. split; [intros (? & ? & ? & ? & ?)%HJ; naive_solver|]. intros (Hr & Ht & Hb & Hends).
    assert (r_ID r ∈ r_ID <$> rels) as (r' & Heq & Hr')%list_elem_of_fmap.
    { rewrite -HSL. destruct Hends as [H|H]; by apply (Hc _ r H); [split; auto|]. }
    destruct (HJ r' Hr') as (He & _). by rewrite (wg_ids g r r' Hg Hr He Heq).
Qed.
End walk.

(** ** The projection implements the graph *)

#[export] Instance projection_walk : WalkGraph Graph := RelationsTouching.

Definition projection_edge (g : Graph) (r : Relation) : Prop := g_relations g !! r_ID r = Some r.
Definition projection_nodes (g : Graph) : gset string :=
  list_to_set (r_From <$> (map_to_list (g_relations g)).*2) ∪ list_to_set (r_To <$> (map_to_list (g_relations g)).*2).

#[export, refine] Instance projection_walk_laws : WalkGraphLaws Graph := {|
  wg_ok := wf; wg_edge := projection_edge; wg_nodes := projection_nodes
|}.
Proof.
  - intros g id t r Hwf. unfold touching, projection_walk, projection_edge. rewrite touching_elem //.
  - unfold projection_edge. intros g r r' _ H1 H2 Heq. rewrite Heq in H1. congruence.
  - unfold projection_edge, projection_nodes. intros g r _ H.
    assert (r ∈ (map_to_list (g_relations g)).*2) by (apply elem_of_values; eauto).
    rewrite !elem_of_union !elem_of_list_to_set. split; [left|right]; apply list_elem_of_fmap; eauto.
Defined.

(** Two hosts held to be the same, and a third behind a belief too weak to use. *)
Definition same_as (id from to : string) (conf : Value) : Relation :=
  mkRelation id RelSameAs from to [("confidence", conf); ("basis", KindString "serial_match")] false.
Definition kin : Graph :=
  Apply 9 (link_at 6 RelationAdded (same_as "S" "B" "C" (KindInt 0)))
    (Apply 9 (link_at 5 RelationAdded (same_as "R" "B" "A" (KindInt 1))) New).

Lemma kin_wf : wf kin.
Proof.
  apply apply_wf; [apply apply_wf; [apply wf_new|]|]; intros r0; [rewrite lookup_empty; done|].
  rewrite lookup_insert_ne; [by rewrite lookup_empty|by_decide].
Qed.

Lemma canonical_walk_groups_witness :
  size (projection_nodes kin) < 5 ∧ Walk kin 6 "A" DefaultThreshold = (["A"; "B"], [mkLink "B" "A" (f64_of_int 1) "serial_match"]) ∧
  NoDup ["A"; "B"] ∧ ¬ rtc (alias_edge kin DefaultThreshold) "A" "C".
Proof.
  assert (size (projection_nodes kin) < 5) as Hsize by (vm_compute; lia).
  pose proof (canonical_walk_groups kin DefaultThreshold kin_wf "A" 5 Hsize) as H.
  assert (Walk kin 6 "A" DefaultThreshold = (["A"; "B"], [mkLink "B" "A" (f64_of_int 1) "serial_match"])) as E
    by (vm_compute; reflexivity).
  rewrite E in H. destruct H as (_ & HN & Hm & _). split_and!; try done.
  intros HC%Hm. set_solver.
Defined.
