(* ===== verification/Keys.v ===== *)
(** * The keys of the event log: internal/store/store.go

    Every record of the log lives in one ordered key space: the events under
    [evt/], three indexes under [ent/], [typ/] and [tim/], and a few markers under
    [meta/]. Numbers are written big-endian, so that the order of the keys is the
    order of the numbers. *)
From S2P Require Import Prelude GoStd Values Vocabulary Entities Events.
Open Scope Z_scope.

(** ** Eight-byte numbers *)

Definition u64 (z : Z) : Z := z mod 18446744073709551616.

(** [binary.BigEndian.PutUint64] and [Uint64]. *)
Definition encodeU64 (n : Z) : string := string_of_list (be_bytes 8 (u64 n)).
Definition decodeU64 (s : string) : Z := be_value (list_of_string s) 0.
(** The same at four bytes. *)
Definition u32 (z : Z) : Z := z mod 4294967296.
Definition encodeU32 (n : Z) : string := string_of_list (be_bytes 4 (u32 n)).

(** ** Key families *)

Definition primaryPrefix : string := "evt/".
Definition entityPrefix : string := "ent/".
Definition typePrefix : string := "typ/".
Definition timePrefix : string := "tim/".
Definition metaSeqKey : string := "meta/seq".
Definition metaPruneHorizonKey : string := "meta/prune_horizon".
Definition metaFormatKey : string := "meta/format_version".
Definition snapshotKey : string := "meta/snapshot".
Definition formatVersion : Z := 1.

Definition primaryKey (seq : Z) : string := primaryPrefix +++ encodeU64 seq.
Definition entityKey (id : string) (seq : Z) : string := entityPrefix +++ id +++ "/" +++ encodeU64 seq.
(** One byte, [byte(ct)]. *)
Definition byte_of (z : Z) : ascii := ascii_of_N (Z.to_N (z mod 256)).
Definition typeKey (ct : ChangeType) (seq : Z) : string :=
  typePrefix +++ String (byte_of (ct_int ct)) (encodeU64 seq).
Definition timeKey (eventNano seq : Z) : string := timePrefix +++ encodeU64 eventNano +++ encodeU64 seq.
Definition timeKeyBound (eventNano : Z) : string := timePrefix +++ encodeU64 eventNano.

(** The trailing sequence of an index key. *)
Definition seqFromKeySuffix (key : string) : Z :=
  let n := String.length key in
  if (n <? 8)%nat then 0 else decodeU64 (str_drop (n - 8) key).

(** The smallest key above every key with the prefix; none when all its bytes are
    0xff. *)
Fixpoint bump_last (l : list ascii) : option (list ascii) :=
  match l with
  | [] => None
  | c :: l =>
    match bump_last l with
    | Some l' => Some (c :: l')
    | None => if bool_decide (N_of_ascii c = 255%N) then None else Some [ascii_of_N (N_of_ascii c + 1)]
    end
  end.
Definition prefixUpperBound (prefix : string) : option string :=
  string_of_list <$> bump_last (list_of_string prefix).

(** The class byte of a time-index entry: the change type in the low seven bits, the
    structural flag of a relation in the high one. *)
Definition classTag (ev : Event) (ct : ChangeType) : ascii :=
  let b := Z.land (ct_int ct mod 256) 127 in
  let structural := match ev_Relation ev with Some re => r_Structural (re_Relation re) | None => false end in
  byte_of (if structural then Z.lor b 128 else b).

(** ** The order of keys *)

Lemma list_of_string_of_list l : list_of_string (string_of_list l) = l.
Proof. induction l as [|c l IH]; simpl; congruence. Qed.
Lemma string_of_list_of_string s : string_of_list (list_of_string s) = s.
Proof. induction s as [|c s IH]; simpl; congruence. Qed.

Lemma encodeU64_length n : String.length (encodeU64 n) = 8%nat.
Proof. unfold encodeU64. by rewrite string_of_list_length be_bytes_length. Qed.

Lemma decode_encode n : decodeU64 (encodeU64 n) = u64 n.
Proof.
  unfold decodeU64, encodeU64. rewrite list_of_string_of_list be_bytes_value; [done|].
  change (256 ^ Z.of_nat 8) with 18446744073709551616. apply Z.mod_pos_bound. lia.
Qed.

Lemma u64_id n : 0 <= n < 18446744073709551616 → u64 n = n.
Proof. apply Z.mod_small. Qed.

Lemma encodeU64_inj n m : encodeU64 n = encodeU64 m → u64 n = u64 m.
Proof. intros E. by rewrite -(decode_encode n) -(decode_encode m) E. Qed.

(** Comparing equal-length byte strings is comparing the numbers they spell. *)
Lemma be_compare l1 l2 a1 a2 : length l1 = length l2 →
  0 <= a1 → 0 <= a2 →
  (be_value l1 a1 ?= be_value l2 a2) =
  match a1 ?= a2 with Eq => String.compare (string_of_list l1) (string_of_list l2) | c => c end.
Proof.
  revert l2 a1 a2. induction l1 as [|c l1 IH]; intros [|d l2] a1 a2 Hlen H1 H2; simpl in *; try done.
  { by destruct (a1 ?= a2). }
  pose proof (N_ascii_bounded c) as Hc. pose proof (N_ascii_bounded d) as Hd.
  rewrite IH; [|lia|lia|lia]. destruct (Z.compare_spec a1 a2) as [->|Hlt|Hgt].
  - unfold Ascii.compare. rewrite -N2Z.inj_compare Z.add_compare_mono_l.
    by destruct (N_of_ascii c ?= N_of_ascii d)%N.
  - by rewrite (proj2 (Z.compare_lt_iff _ _)); [|lia].
  - by rewrite (proj2 (Z.compare_gt_iff _ _)); [|lia].
Qed.

Lemma encodeU64_compare n m : String.compare (encodeU64 n) (encodeU64 m) = (u64 n ?= u64 m).
Proof.
  rewrite -!decode_encode. unfold decodeU64, encodeU64. rewrite !list_of_string_of_list be_compare //.
Qed.

Lemma encodeU64_le n m : str_le (encodeU64 n) (encodeU64 m) ↔ u64 n <= u64 m.
Proof.
  unfold str_le, String.leb. rewrite encodeU64_compare. unfold Z.le. by destruct (u64 n ?= u64 m).
Qed.

Lemma compare_app p a b : String.compare (p +++ a) (p +++ b) = String.compare a b.
Proof. induction p as [|c p IH]; simpl; [done|]. by rewrite ascii_compare_refl. Qed.

Lemma str_le_app p a b : str_le (p +++ a) (p +++ b) ↔ str_le a b.
Proof. unfold str_le, String.leb. by rewrite compare_app. Qed.

(** Heads of one length decide first. *)
Lemma compare_app_eq a a' b b' : String.length a = String.length a' →
  String.compare (a +++ b) (a' +++ b') = match String.compare a a' with Eq => String.compare b b' | c => c end.
Proof.
  revert a'. induction a as [|c a IH]; intros [|c' a'] Hl; simpl in *; try done. rewrite IH; [|lia].
  by destruct (Ascii.compare c c').
Qed.

(** ** Prefixes *)

Definition has_prefix (p k : string) : Prop := ∃ s, k = p +++ s.

Lemma upper_cons c p : prefixUpperBound (String c p) =
  match prefixUpperBound p with
  | Some u => Some (String c u)
  | None => if bool_decide (N_of_ascii c = 255%N) then None else Some (String (ascii_of_N (N_of_ascii c + 1)) "")
  end.
Proof. unfold prefixUpperBound. simpl. destruct (bump_last _); simpl; [done|]. by case_bool_decide. Qed.

Lemma str_le_cons c a d b : str_le (String c a) (String d b) ↔
  (N_of_ascii c < N_of_ascii d)%N ∨ c = d ∧ str_le a b.
Proof.
  unfold str_le, String.leb. simpl. unfold Ascii.compare. destruct (N.compare_spec (N_of_ascii c) (N_of_ascii d)) as [E|E|E].
  - assert (c = d) as -> by (rewrite -(ascii_N_embedding c) -(ascii_N_embedding d); congruence). split; [auto|]. intros [?|[_ ?]]; [lia|done].
  - split; [by left|done].
  - split; [done|]. intros [?|[-> _]]; lia.
Qed.

Lemma str_le_nil a : str_le "" a.
Proof. by destruct a. Qed.
Lemma str_le_nil_r a : str_le a "" ↔ a = ""%string.
Proof. by destruct a. Qed.

(** The bounds of a prefix scan select exactly the keys with the prefix. *)
Lemma prefix_bounds p k :
  has_prefix p k ↔ str_le p k ∧ match prefixUpperBound p with Some u => ¬ str_le u k | None => True end.
Proof.
  revert k. induction p as [|c p IH]; intros k.
  { split; [intros _; split; [apply str_le_nil|done]|]. intros _. by exists k. }
  destruct k as [|d k]. { split; [by intros [s [=]]|]. intros [[=]%str_le_nil_r _]. }
  rewrite str_le_cons upper_cons.
  assert (has_prefix (String c p) (String d k) ↔ c = d ∧ has_prefix p k) as ->.
  { split; [intros [s [= -> ->]]; split; [done|by exists s]|]. intros [-> [s ->]]. by exists s. }
  rewrite IH. clear IH. pose proof (N_ascii_bounded c) as Hc. pose proof (N_ascii_bounded d) as Hd.
  destruct (prefixUpperBound p) as [u|].
  - rewrite str_le_cons. split.
    + intros [-> [Hle Hu]]. split; [by right|]. intros [?|[_ ?]]; [lia|done].
    + intros [[Hlt|[-> Hle]] Hu]; [exfalso; apply Hu; by left|]. split_and!; [done|done|]. intros Hk. apply Hu. by right.
  - split.
    + intros [-> [Hle _]]. split; [by right|]. case_bool_decide; [done|]. rewrite str_le_cons N_ascii_embedding; [|lia].
      intros [?|[E _]]; [lia|]. apply (f_equal N_of_ascii) in E. rewrite N_ascii_embedding in E; lia.
    + intros [[Hlt|[-> Hle]] Hu]; [exfalso|done]. case_bool_decide; [lia|]. apply Hu. rewrite str_le_cons N_ascii_embedding; [|lia].
      destruct (decide (N_of_ascii c + 1 = N_of_ascii d)%N) as [E|]; [right|left; lia].
      rewrite E ascii_N_embedding. split; [done|apply str_le_nil].
Qed.

(** ** Key families do not meet *)

Lemma suffix_seq p n : seqFromKeySuffix (p +++ encodeU64 n) = u64 n.
Proof.
  unfold seqFromKeySuffix. rewrite string_length_app encodeU64_length.
  destruct (Nat.ltb_spec (String.length p + 8) 8); [lia|].
  replace (String.length p + 8 - 8)%nat with (String.length p) by lia. by rewrite str_drop_app decode_encode.
Qed.

Lemma primaryKey_seq n : seqFromKeySuffix (primaryKey n) = u64 n.
Proof. apply suffix_seq. Qed.

Lemma primaryKey_inj n m : primaryKey n = primaryKey m → u64 n = u64 m.
Proof. intros E%string_app_inj_l. by apply encodeU64_inj. Qed.

Lemma primaryKey_le n m : str_le (primaryKey n) (primaryKey m) ↔ u64 n <= u64 m.
Proof. unfold primaryKey. by rewrite str_le_app encodeU64_le. Qed.

(** The family of a key is its first four bytes. *)
Definition family (k : string) : string := str_take 4 k.
Lemma family_app (p k : string) : String.length p = 4%nat → family (p +++ k) = p.
Proof. intros Hp. unfold family. rewrite -Hp. apply str_take_app. Qed.
