(* ===== verification/Store.v ===== *)
(** * The event log: internal/store/store.go, read.go, retention.go, snapshot_store.go

    The log is kept in Pebble, an ordered key-value engine, and its values are
    protobuf messages: both are parameters of the model ([Pebble], [Proto]), with
    what the code relies on as laws. A store is a record of the database and the
    counters the code guards with its mutex; each method is one step. A scan is what
    its callback was given, and the error it stopped with, if any. *)
From S2P Require Import Prelude GoStd Values Vocabulary Entities Events Keys.
Open Scope Z_scope.

(** ** The engine underneath *)

Inductive Write := WSet (k v : string) | WDelete (k : string).

Class Pebble (D : Type) := {
  (** [db.Get]: an error, or the value if there is one. *)
  pb_get : D → string → string + option string;
  (** An iterator over [lower, upper): what it yields before it ends, and its error. *)
  pb_iter : D → string → option string → list (string * string) * option string;
  (** A batch committed with [Sync]. *)
  pb_commit : list Write → D → D * option string;
}.

(** [proto.Marshal] and [proto.Unmarshal] on the event message. *)
Class Proto := {
  proto_marshal : PEvent → string + string;
  proto_unmarshal : string → string + PEvent;
}.

(** The key space as a map, and the keys of a range in order. *)
Definition write (m : gmap string string) (w : Write) : gmap string string :=
  match w with WSet k v => <[k := v]> m | WDelete k => delete k m end.
Definition in_range (lower : string) (upper : option string) (k : string) : bool :=
  bool_decide (str_le lower k) && match upper with Some u => negb (bool_decide (str_le u k)) | None => true end.
Definition range_of (m : gmap string string) (lower : string) (upper : option string) : list (string * string) :=
  sort_by fst (base.filter (λ kv, in_range lower upper kv.1 = true) (map_to_list m)).

(** What the code relies on: reads that report no error see the whole key space in
    key order, one that does has seen the first of it, and a batch is applied entirely and in order, or not at all. *)
Class PebbleLaws (D : Type) `{!Pebble D} := {
  contents : D → gmap string string;
  get_sound : ∀ d k v, pb_get d k = inr v → v = contents d !! k;
  iter_sound : ∀ d lower upper l, pb_iter d lower upper = (l, None) → l = range_of (contents d) lower upper;
  iter_prefix : ∀ d lower upper l msg, pb_iter d lower upper = (l, Some msg) → l `prefix_of` range_of (contents d) lower upper;
  commit_ok : ∀ ws d d', pb_commit ws d = (d', None) → contents d' = foldl write (contents d) ws;
  commit_failed : ∀ ws d d' msg, pb_commit ws d = (d', Some msg) → contents d' = contents d;
}.

(** A message is read back as it was written. *)
Class ProtoLaws `{!Proto} : Prop :=
  unmarshal_marshal : ∀ m b, proto_marshal m = inr b → proto_unmarshal b = inr m.

(** ** Errors and state *)

Inductive StoreError :=
| EInvalid (i : nat) (err : Err)
| EMarshal (i : nat) (msg : string)
| EIndex (i : nat)
| ECommit (msg : string)
| ERead (msg : string)
| EDecode (seq : Z) (msg : string)
| ECorruptMarker (what : string)
| EFormatNewer (got : Z)
| ESnapshotShort
| ESnapshotTruncated (what : string)
| ECancelled (msg : string).

Record Store (D : Type) := mkStore {
  s_db : D;
  s_AcceptUnknownTypes : bool;
  s_readOnly : bool;
  s_seq : Z;
  s_pruneHorizon : Z;
  s_prunedEvents : Z;
  s_prunedBytes : Z;
  s_snapshotSeq : Z;
  s_snapshotsWritten : Z;
}.
Arguments mkStore {D}.
Arguments s_db {D}.
Arguments s_AcceptUnknownTypes {D}.
Arguments s_readOnly {D}.
Arguments s_seq {D}.
Arguments s_pruneHorizon {D}.
Arguments s_prunedEvents {D}.
Arguments s_prunedBytes {D}.
Arguments s_snapshotSeq {D}.
Arguments s_snapshotsWritten {D}.

Definition set_db {D} (d : D) (s : Store D) : Store D :=
  mkStore d (s_AcceptUnknownTypes s) (s_readOnly s) (s_seq s) (s_pruneHorizon s) (s_prunedEvents s) (s_prunedBytes s)
    (s_snapshotSeq s) (s_snapshotsWritten s).
Definition set_seq {D} (n : Z) (s : Store D) : Store D :=
  mkStore (s_db s) (s_AcceptUnknownTypes s) (s_readOnly s) n (s_pruneHorizon s) (s_prunedEvents s) (s_prunedBytes s)
    (s_snapshotSeq s) (s_snapshotsWritten s).

Section store.
Context {D : Type} `{!Pebble D} `{!Proto}.
#[local] Abbreviation St := (Store D).

(** ** Opening *)

(** Stamp a fresh store, refuse a newer one. *)
Definition checkFormat (readOnly : bool) (d : D) : D * option StoreError :=
  match pb_get d metaFormatKey with
  | inr None =>
    if readOnly then (d, None)
    else let '(d, err) := pb_commit [WSet metaFormatKey (encodeU64 formatVersion)] d in (d, ECommit <$> err)
  | inl msg => (d, Some (ERead msg))
  | inr (Some v) =>
    if negb (String.length v =? 8)%nat then (d, Some (ECorruptMarker "format_version"))
    else if formatVersion <? decodeU64 v then (d, Some (EFormatNewer (decodeU64 v)))
    else (d, None)
  end.

(** The sequence, the prune horizon and the snapshot's sequence, as they were
    persisted. *)
Definition recoverSeq (d : D) : StoreError + Z * Z * Z :=
  match pb_get d metaSeqKey with
  | inr None => inr (0, 0, 0)
  | inl msg => inl (ERead msg)
  | inr (Some v) =>
    if negb (String.length v =? 8)%nat then inl (ECorruptMarker "seq") else
    match pb_get d metaPruneHorizonKey with
    | inl msg => inl (ERead msg)
    | inr (Some hv) =>
      if negb (String.length hv =? 8)%nat then inl (ECorruptMarker "prune_horizon") else
      match pb_get d snapshotKey with
      | inl msg => inl (ERead msg)
      | inr sv => inr (decodeU64 v, wrap64 (decodeU64 hv),
                    match sv with Some sv => if (8 <=? String.length sv)%nat then decodeU64 (str_take 8 sv) else 0 | None => 0 end)
      end
    | inr None =>
      match pb_get d snapshotKey with
      | inl msg => inl (ERead msg)
      | inr sv => inr (decodeU64 v, 0,
                    match sv with Some sv => if (8 <=? String.length sv)%nat then decodeU64 (str_take 8 sv) else 0 | None => 0 end)
      end
    end
  end.

(** [open], once Pebble has opened the directory. *)
Definition open (acceptUnknownTypes readOnly : bool) (d : D) : StoreError + St :=
  let '(d, err) := checkFormat readOnly d in
  match err with
  | Some err => inl err
  | None =>
    match recoverSeq d with
    | inl err => inl err
    | inr (seq, horizon, snapSeq) => inr (mkStore d acceptUnknownTypes readOnly seq horizon 0 0 snapSeq 0)
    end
  end.

Definition Sequence (s : St) : Z := s_seq s.
Definition PruneHorizon (s : St) : Time :=
  if s_pruneHorizon s =? 0 then zero_time else of_unix_nano (s_pruneHorizon s).

(** [Healthy]: a light read. *)
Definition Healthy (s : St) : option StoreError :=
  match pb_get (s_db s) metaSeqKey with inl msg => Some (ERead msg) | inr _ => None end.

(** ** Appending *)

Definition stamp_commit (seq : Z) (ev : Event) : Event :=
  match ev_Entity ev, ev_Relation ev with
  | Some ee, _ =>
    mkEvent (Some (mkEntityEvent (ee_EventID ee) (ee_ChangeType ee) (ee_Entity ee) (ee_EventTime ee) (ee_RecordedAt ee) seq
      (ee_Scope ee) (ee_SchemaVersion ee) (ee_ChangedKeys ee) (ee_DeleteReason ee) (ee_DeleteSource ee))) (ev_Relation ev)
  | None, Some re =>
    mkEvent None (Some (mkRelationEvent (re_EventID re) (re_ChangeType re) (re_Relation re) (re_EventTime re) (re_RecordedAt re) seq
      (re_Scope re) (re_SchemaVersion re) (re_ChangedKeys re) (re_DeleteSource re)))
  | None, None => ev
  end.

(** The index entries of an event; none for an empty envelope. *)
Definition indexEvent (ev : Event) (seq : Z) : option (list Write) :=
  let entries ct eventNs ids :=
    (map (λ id, WSet (entityKey id seq) "") (base.filter (λ id, id ≠ ""%string) ids) ++
     [WSet (typeKey ct seq) ""; WSet (timeKey eventNs seq) (String (classTag ev ct) "")])%list in
  match ev_Entity ev, ev_Relation ev with
  | Some ee, _ => Some (entries (ee_ChangeType ee) (unix_nano (ee_EventTime ee)) [e_ID (ee_Entity ee)])
  | None, Some re => Some (entries (re_ChangeType re) (unix_nano (re_EventTime re)) [r_From (re_Relation re); r_To (re_Relation re)])
  | None, None => None
  end.

(** The staged writes of the events from the [i]-th on, with the last sequence and the
    events as stamped. *)
Fixpoint stage_events (acceptUnknownTypes : bool) (commitSeq : Z) (i : nat) (localSeq : Z) (evs : list Event)
    : StoreError + Z * list Write * list Event :=
  match evs with
  | [] => inr (localSeq, [], [])
  | ev :: evs =>
    match (if acceptUnknownTypes then Event_ValidateShape ev else Event_Validate ev) with
    | Some err => inl (EInvalid i err)
    | None =>
      let ev := stamp_commit commitSeq ev in
      let localSeq := u64 (localSeq + 1) in
      match proto_marshal (Event_ToProto ev) with
      | inl msg => inl (EMarshal i msg)
      | inr data =>
        match indexEvent ev localSeq with
        | None => inl (EIndex i)
        | Some entries =>
          match stage_events acceptUnknownTypes commitSeq (S i) localSeq evs with
          | inl err => inl err
          | inr (seq, ws, evs') => inr (seq, (WSet (primaryKey localSeq) data :: entries ++ ws)%list, ev :: evs')
          end
        end
      end
    end
  end.

(** The events as they are stored and seen by whoever holds them: stamped. *)
Definition Append (evs : list Event) (s : St) : St * (StoreError + list Event) :=
  match evs with
  | [] => (s, inr [])
  | _ =>
    match stage_events (s_AcceptUnknownTypes s) (u64 (s_seq s + 1)) 0 (s_seq s) evs with
    | inl err => (s, inl err)
    | inr (seq, ws, evs') =>
      let '(d, err) := pb_commit (ws ++ [WSet metaSeqKey (encodeU64 seq)])%list (s_db s) in
      match err with
      | Some msg => (set_db d s, inl (ECommit msg))
      | None => (set_seq seq (set_db d s), inr evs')
      end
    end
  end.

(** ** Reading *)

(** The records of an iterator, decoded in order up to the first that does not. *)
Fixpoint decode_records (kvs : list (string * string)) : list (Z * string * Event) * option StoreError :=
  match kvs with
  | [] => ([], None)
  | (k, v) :: kvs =>
    let seq := seqFromKeySuffix k in
    match proto_unmarshal v with
    | inl msg => ([], Some (EDecode seq msg))
    | inr pe => let '(l, err) := decode_records kvs in ((seq, v, EventFromProto (Some pe)) :: l, err)
    end
  end.

(** The events from a lower bound on, with their stored bytes. *)
Definition scan_db (d : D) (lower : string) : list (Z * string * Event) * option StoreError :=
  let '(kvs, err) := pb_iter d lower (prefixUpperBound primaryPrefix) in
  let '(l, derr) := decode_records kvs in
  (l, match derr with Some _ => derr | None => ERead <$> err end).

Definition visited (l : list (Z * string * Event)) : list (Z * Event) := map (λ r, (r.1.1, r.2)) l.

Definition Scan (s : St) : list (Z * Event) * option StoreError :=
  let '(l, err) := scan_db (s_db s) primaryPrefix in (visited l, err).
Definition ScanFrom (afterSeq : Z) (s : St) : list (Z * Event) * option StoreError :=
  let '(l, err) := scan_db (s_db s) (primaryKey (u64 (afterSeq + 1))) in (visited l, err).
(** The maintenance scan, on a snapshot of the database. *)
Definition snapshotScan (snap : D) : list (Z * string * Event) * option StoreError := scan_db snap primaryPrefix.

(** A missing record is [None]. *)
Definition resolveSeq (d : D) (seq : Z) : StoreError + option Event :=
  match pb_get d (primaryKey seq) with
  | inl msg => inl (ERead msg)
  | inr None => inr None
  | inr (Some v) =>
    match proto_unmarshal v with
    | inl msg => inl (EDecode seq msg)
    | inr pe => inr (Some (EventFromProto (Some pe)))
    end
  end.
Definition Resolve (seq : Z) (s : St) : StoreError + option Event := resolveSeq (s_db s) seq.

(** [ctx n] is what the context reports when it is asked before the [n]-th entry. *)
Definition checkEvery (ctx : nat → option string) (n : nat) : option string :=
  if (n mod 1024 =? 0)%nat then ctx n else None.

(** The events behind the entries of an index, from the [n]-th on. The entries are a
    pinned view; [live n] is the database when the [n]-th is resolved. *)
Fixpoint resolve_entries (ctx : nat → option string) (live : nat → D) (n : nat) (kvs : list (string * string))
    : list Event * option StoreError :=
  match kvs with
  | [] => ([], None)
  | (k, _) :: kvs =>
    match checkEvery ctx n with
    | Some msg => ([], Some (ECancelled msg))
    | None =>
      match resolveSeq (live n) (seqFromKeySuffix k) with
      | inl err => ([], Some err)
      | inr None => resolve_entries ctx live (S n) kvs
      | inr (Some ev) => let '(l, err) := resolve_entries ctx live (S n) kvs in (ev :: l, err)
      end
    end
  end.

Definition resolve_range (ctx : nat → option string) (live : nat → D) (pinned : D) (lower : string) (upper : option string)
    : list Event * option StoreError :=
  let '(kvs, err) := pb_iter pinned lower upper in
  let '(l, rerr) := resolve_entries ctx live 0 kvs in
  (l, match rerr with Some _ => rerr | None => ERead <$> err end).

Definition readBySeqIndex (ctx : nat → option string) (live : nat → D) (pinned : D) (prefix : string)
    : StoreError + list Event :=
  let '(l, err) := resolve_range ctx live pinned prefix (prefixUpperBound prefix) in
  match err with Some err => inl err | None => inr l end.

Definition ReadByEntity (ctx : nat → option string) (live : nat → D) (id : EntityID) (s : St) : StoreError + list Event :=
  readBySeqIndex ctx live (s_db s) (entityPrefix +++ id +++ "/").
Definition ReadByType (ctx : nat → option string) (live : nat → D) (ct : ChangeType) (s : St) : StoreError + list Event :=
  readBySeqIndex ctx live (s_db s) (typePrefix +++ String (byte_of (ct_int ct)) "").

Definition ScanByTimeRange (ctx : nat → option string) (live : nat → D) (start stop : Time) (s : St)
    : list Event * option StoreError :=
  resolve_range ctx live (s_db s) (timeKeyBound (unix_nano start)) (Some (timeKeyBound (unix_nano stop))).
Definition ReadByTimeRange (ctx : nat → option string) (live : nat → D) (start stop : Time) (s : St)
    : StoreError + list Event :=
  let '(l, err) := ScanByTimeRange ctx live start stop s in
  match err with Some err => inl err | None => inr l end.

Record TimeIndexEntry := mkTimeIndexEntry {
  ti_Seq : Z;
  ti_ChangeType : ChangeType;
  ti_Structural : bool;
  ti_Tagged : bool;
}.

Definition time_entry (kv : string * string) : TimeIndexEntry :=
  match kv.2 with
  | String c "" =>
    let b := Z.of_N (N_of_ascii c) in
    mkTimeIndexEntry (seqFromKeySuffix kv.1) (ct_of_int (Z.land b 127)) (negb (Z.land b 128 =? 0)) true
  | _ => mkTimeIndexEntry (seqFromKeySuffix kv.1) ChangeUnspecified false false
  end.

Fixpoint visit_entries (ctx : nat → option string) (n : nat) (kvs : list (string * string))
    : list TimeIndexEntry * option StoreError :=
  match kvs with
  | [] => ([], None)
  | kv :: kvs =>
    match checkEvery ctx n with
    | Some msg => ([], Some (ECancelled msg))
    | None => let '(l, err) := visit_entries ctx (S n) kvs in (time_entry kv :: l, err)
    end
  end.

(** An iterator read backwards yields its entries in reverse. *)
Definition ScanTimeIndex (ctx : nat → option string) (start stop : Time) (newestFirst : bool) (s : St)
    : list TimeIndexEntry * option StoreError :=
  let '(kvs, err) := pb_iter (s_db s) (timeKeyBound (unix_nano start)) (Some (timeKeyBound (unix_nano stop))) in
  let '(l, cerr) := visit_entries ctx 0 (if newestFirst then reverse kvs else kvs) in
  (l, match cerr with Some _ => cerr | None => ERead <$> err end).

(** The instant of the newest event, if there is one. *)
Definition NewestEventTime (s : St) : StoreError + option Time :=
  let '(kvs, err) := pb_iter (s_db s) (timeKeyBound 0) (prefixUpperBound timePrefix) in
  match err, last kvs with
  | Some msg, _ => inl (ERead msg)
  | None, None => inr None
  | None, Some (key, _) =>
    if (String.length key <? 4 + 16)%nat then inr None
    else inr (Some (of_unix_nano (wrap64 (decodeU64 (str_take 8 (str_drop 4 key))))))
  end.
End store.
