(* ===== verification/Retention.v ===== *)
(** * Maintenance of the event log: internal/store/retention.go, snapshot_store.go

    Heartbeat coalescing, age pruning with its horizon baselines, and the projection
    snapshot kept beside the log. A maintenance pass reads a snapshot of the database
    and commits its deletions later: pruning is split at that point, so that appends
    may come between. *)
From S2P Require Import Prelude GoStd Values Vocabulary Entities Events Keys Store.
Open Scope Z_scope.

Section retention.
Context {D : Type} `{!Pebble D} `{!Proto}.
#[local] Abbreviation St := (Store D).

(** ** Coalescing heartbeats *)

(** What a scan notes of an entity's event. *)
Record HeartbeatRec := mkRec { hr_seq : Z; hr_ct : ChangeType; hr_nano : Z }.

Definition note_entity (m : gmap string (list HeartbeatRec)) (r : Z * string * Event) : gmap string (list HeartbeatRec) :=
  match ev_Entity r.2 with
  | Some ee =>
    let id := e_ID (ee_Entity ee) in
    <[id := (default [] (m !! id) ++ [mkRec r.1.1 (ee_ChangeType ee) (unix_nano (ee_EventTime ee))])%list]> m
  | None => m
  end.

Fixpoint unchanged_prefix (recs : list HeartbeatRec) : list HeartbeatRec * list HeartbeatRec :=
  match recs with
  | r :: recs' =>
    if bool_decide (hr_ct r = EntityUnchanged)
    then let '(run, rest) := unchanged_prefix recs' in (r :: run, rest)
    else ([], recs)
  | [] => ([], [])
  end.

(** The middles of the maximal runs of heartbeats; a run is consumed at once, so the
    length of the list bounds the steps. *)
Fixpoint run_middles (fuel : nat) (recs : list HeartbeatRec) : list HeartbeatRec :=
  match fuel, recs with
  | S fuel, r :: recs =>
    if bool_decide (hr_ct r = EntityUnchanged) then
      let '(run, rest) := unchanged_prefix recs in
      (removelast run ++ run_middles fuel rest)%list
    else run_middles fuel recs
  | _, _ => []
  end.

Definition heartbeat_keys (id : EntityID) (r : HeartbeatRec) : list Write :=
  map WDelete [primaryKey (hr_seq r); entityKey id (hr_seq r); typeKey (hr_ct r) (hr_seq r); timeKey (hr_nano r) (hr_seq r)].

(** The middles of every entity's runs. *)
Definition doomed_beats (l : list (Z * string * Event)) : list (EntityID * HeartbeatRec) :=
  mjoin (map (λ kv : string * list HeartbeatRec, map (pair kv.1) (run_middles (length kv.2) kv.2))
    (map_to_list (foldl note_entity ∅ l))).

Definition CoalesceHeartbeats (s : St) : St * (StoreError + Z) :=
  match snapshotScan (s_db s) with
  | (_, Some err) => (s, inl err)
  | (l, None) =>
    match doomed_beats l with
    | [] => (s, inr 0)
    | doomed =>
      let '(d, err) := pb_commit (mjoin (map (λ ir, heartbeat_keys ir.1 ir.2) doomed)) (s_db s) in
      match err with
      | Some msg => (set_db d s, inl (ECommit msg))
      | None => (set_db d s, inr (Z.of_nat (length doomed)))
      end
    end
  end.

(** ** Pruning by age *)

Definition recordedAtOf (ev : Event) : Time :=
  match ev_Entity ev, ev_Relation ev with
  | Some ee, _ => ee_RecordedAt ee
  | None, Some re => re_RecordedAt re
  | None, None => zero_time
  end.

Definition eventKeys (ev : Event) (seq : Z) : list string :=
  primaryKey seq ::
  match ev_Entity ev, ev_Relation ev with
  | Some ee, _ => [entityKey (e_ID (ee_Entity ee)) seq; typeKey (ee_ChangeType ee) seq; timeKey (unix_nano (ee_EventTime ee)) seq]
  | None, Some re => [entityKey (r_From (re_Relation re)) seq; entityKey (r_To (re_Relation re)) seq;
                      typeKey (re_ChangeType re) seq; timeKey (unix_nano (re_EventTime re)) seq]
  | None, None => []
  end.

(** The latest event of a thing. *)
Record Last := mkLast { la_seq : Z; la_alive : bool; la_ev : Event; la_nano : Z; la_bornBefore : bool }.

Definition note_last (cutoffNano : Z) (acc : gmap string Last * gmap string Last) (r : Z * string * Event)
    : gmap string Last * gmap string Last :=
  let '(ents, rels) := acc in
  let '(seq, _, ev) := r in
  let born (m : gmap string Last) id := match m !! id with Some l => la_bornBefore l | None => false end in
  match ev_Entity ev, ev_Relation ev with
  | Some ee, _ =>
    let id := e_ID (ee_Entity ee) in
    let n := unix_nano (ee_EventTime ee) in
    (<[id := mkLast seq (negb (bool_decide (ee_ChangeType ee = EntityDeleted))) ev n (born ents id || (n <=? cutoffNano))]> ents, rels)
  | None, Some re =>
    let id := r_ID (re_Relation re) in
    let n := unix_nano (re_EventTime re) in
    (ents, <[id := mkLast seq (negb (bool_decide (re_ChangeType re = RelationRemoved))) ev n (born rels id || (n <=? cutoffNano))]> rels)
  | None, None => acc
  end.

(** A fresh event of the same state at the horizon. *)
Definition baselineEvent (evid : string) (cutoff : Time) (ev : Event) : Event :=
  match ev_Entity ev, ev_Relation ev with
  | Some ee, _ =>
    entity_event (mkEntityEvent evid (ee_ChangeType ee) (ee_Entity ee) cutoff cutoff (ee_CommitSeq ee) (ee_Scope ee)
      (ee_SchemaVersion ee) [] (ee_DeleteReason ee) (ee_DeleteSource ee))
  | None, Some re =>
    relation_event (mkRelationEvent evid (re_ChangeType re) (re_Relation re) cutoff cutoff (re_CommitSeq re) (re_Scope re)
      (re_SchemaVersion re) [] (re_DeleteSource re))
  | None, None => ev
  end.

(** What the reading passes decide. *)
Record PrunePlan := mkPrunePlan {
  pp_doomed : list (Z * string * Event);
  pp_baselines : list Event;
}.

Definition lasts (cutoffNano : Z) (l : list (Z * string * Event)) : list Last :=
  let '(ents, rels) := foldl (note_last cutoffNano) (∅, ∅) l in
  ((map_to_list ents).*2 ++ (map_to_list rels).*2)%list.

Definition plan_prune (ids : nat → string) (cutoff : Time) (l : list (Z * string * Event)) : PrunePlan :=
  let cutoffNano := unix_nano cutoff in
  let latest := lasts cutoffNano l in
  let keep : gset Z := list_to_set (map la_seq (base.filter (λ x, la_alive x = true) latest)) in
  mkPrunePlan
    (base.filter (λ r, r.1.1 ∉ keep ∧ before (recordedAtOf r.2) cutoff = true) l)
    (imap (λ i x, baselineEvent (ids i) cutoff (la_ev x))
       (base.filter (λ x, la_alive x && la_bornBefore x && (cutoffNano <? la_nano x) = true) latest)).

(** The deletions and the new horizon, after the baselines. *)
Definition prune_writes (cutoff : Time) (doomed : list (Z * string * Event)) : list Write :=
  (mjoin (map (λ r, map WDelete (eventKeys r.2 r.1.1)) doomed) ++
   [WSet metaPruneHorizonKey (encodeU64 (unix_nano cutoff))])%list.

Definition prune_counters (events bytes horizon : Z) (s : St) : St :=
  mkStore (s_db s) (s_AcceptUnknownTypes s) (s_readOnly s) (s_seq s)
    (if s_pruneHorizon s <? horizon then horizon else s_pruneHorizon s)
    (u64 (s_prunedEvents s + events)) (u64 (s_prunedBytes s + bytes)) (s_snapshotSeq s) (s_snapshotsWritten s).

(** Committing a plan to the store as it is by then. *)
Definition commit_prune (cutoff : Time) (plan : PrunePlan) (s : St) : St * (StoreError + Z * Z) :=
  match pp_doomed plan with
  | [] => (s, inr (0, 0))
  | doomed =>
    let events := Z.of_nat (length doomed) in
    let bytes := foldr Z.add 0 (map (λ r, Z.of_nat (String.length r.1.2)) doomed) in
    let '(s, appended) := Append (pp_baselines plan) s in
    match appended with
    | inl err => (s, inl err)
    | inr _ =>
      let '(d, err) := pb_commit (prune_writes cutoff doomed) (s_db s) in
      match err with
      | Some msg => (set_db d s, inl (ECommit msg))
      | None => (prune_counters events bytes (unix_nano cutoff) (set_db d s), inr (events, bytes))
      end
    end
  end.

Definition PruneOlderThan (ids : nat → string) (cutoff : Time) (s : St) : St * (StoreError + Z * Z) :=
  match snapshotScan (s_db s) with
  | (_, Some err) => (s, inl err)
  | (l, None) => commit_prune cutoff (plan_prune ids cutoff l) s
  end.

(** ** Projection snapshots *)

Definition livenessSentinel : Z := 4294967295.

(** A length prefix and the bytes. *)
Definition framed (b : string) : string := encodeU32 (Z.of_nat (String.length b)) +++ b.

Fixpoint marshal_events (i : nat) (evs : list Event) : StoreError + string :=
  match evs with
  | [] => inr ""%string
  | ev :: evs =>
    match proto_marshal (Event_ToProto ev) with
    | inl msg => inl (EMarshal i msg)
    | inr b => match marshal_events (S i) evs with inl err => inl err | inr rest => inr (framed b +++ rest) end
    end
  end.

Definition snapshot_bytes (seq : Z) (evs : list Event) (liveness : string) : StoreError + string :=
  match marshal_events 0 evs with
  | inl err => inl err
  | inr body =>
    inr (encodeU64 seq +++ body +++
         (if (0 <? String.length liveness)%nat then encodeU32 livenessSentinel +++ framed liveness else ""))
  end.

Definition WriteSnapshot (seq : Z) (evs : list Event) (liveness : string) (s : St) : St * option StoreError :=
  match snapshot_bytes seq evs liveness with
  | inl err => (s, Some err)
  | inr bytes =>
    let '(d, err) := pb_commit [WSet snapshotKey bytes] (s_db s) in
    match err with
    | Some msg => (set_db d s, Some (ECommit msg))
    | None =>
      (mkStore d (s_AcceptUnknownTypes s) (s_readOnly s) (s_seq s) (s_pruneHorizon s) (s_prunedEvents s) (s_prunedBytes s)
         seq (u64 (s_snapshotsWritten s + 1)), None)
    end
  end.

Definition DropSnapshot (s : St) : St * option StoreError :=
  let '(d, err) := pb_commit [WDelete snapshotKey] (s_db s) in
  match err with
  | Some msg => (set_db d s, Some (ECommit msg))
  | None =>
    (mkStore d (s_AcceptUnknownTypes s) (s_readOnly s) (s_seq s) (s_pruneHorizon s) (s_prunedEvents s) (s_prunedBytes s)
       0 (s_snapshotsWritten s), None)
  end.

(** [uint32(len(s))]: a length as the code compares it. *)
Definition len32 (s : string) : Z := u32 (Z.of_nat (String.length s)).

(** The sections after the sequence: the events read so far, the liveness bytes, and
    what is left. Each turn consumes a length prefix, so the length bounds the turns. *)
Fixpoint read_sections (fuel : nat) (evs : list Event) (liveness : string) (rest : string)
    : StoreError + list Event * string :=
  match fuel, rest with
  | _, EmptyString => inr (evs, liveness)
  | O, _ => inl (ESnapshotTruncated "fuel")
  | S fuel, _ =>
    if (String.length rest <? 4)%nat then inl (ESnapshotTruncated "length prefix") else
    let n := decodeU64 (str_take 4 rest) in
    let rest := str_drop 4 rest in
    if n =? livenessSentinel then
      if (String.length rest <? 4)%nat then read_sections fuel evs rest "" else
      let ln := decodeU64 (str_take 4 rest) in
      let rest := str_drop 4 rest in
      if len32 rest <? ln then read_sections fuel evs rest "" else
      read_sections fuel evs (str_take (Z.to_nat ln) rest) (str_drop (Z.to_nat ln) rest)
    else
      if len32 rest <? n then inl (ESnapshotTruncated "event body") else
      match proto_unmarshal (str_take (Z.to_nat n) rest) with
      | inl msg => inl (EDecode 0 msg)
      | inr pe => read_sections fuel (evs ++ [EventFromProto (Some pe)])%list liveness (str_drop (Z.to_nat n) rest)
      end
  end.

(** The sequence, the events and the liveness bytes of a snapshot. *)
Definition parse_snapshot (data : string) : StoreError + Z * list Event * string :=
  if (String.length data <? 8)%nat then inl ESnapshotShort else
  let rest := str_drop 8 data in
  match read_sections (String.length rest) [] "" rest with
  | inl err => inl err
  | inr (evs, liveness) => inr (decodeU64 (str_take 8 data), evs, liveness)
  end.

(** The snapshot, if there is one. *)
Definition ReadSnapshot (s : St) : StoreError + option (Z * list Event * string) :=
  match pb_get (s_db s) snapshotKey with
  | inl msg => inl (ERead msg)
  | inr None => inr None
  | inr (Some data) => match parse_snapshot data with inl err => inl err | inr snap => inr (Some snap) end
  end.
End retention.
