(* ===== verification/StoreInv.v ===== *)
(** * What the key space of the log represents

    A database represents a list of numbered events when its primary records are
    exactly those events in the order of their numbers and its three indexes are
    exactly their entries. Scans then yield the list, and writing and deleting the
    keys of an event adds and removes it. *)
From S2P Require Import Prelude GoStd Values Vocabulary Entities Events Keys Store Retention.
Open Scope Z_scope.

Lemma list_app_assoc {A} (a b c : list A) : ((a ++ b) ++ c = a ++ (b ++ c))%list.
Proof. by rewrite app_assoc. Qed.

(** ** Batches of writes *)

Definition is_set (w : Write) : bool := match w with WSet _ _ => true | WDelete _ => false end.

(** No key is written twice with different values. *)
Definition functional (ws : list Write) : Prop := ∀ k v v', WSet k v ∈ ws → WSet k v' ∈ ws → v = v'.

Lemma sets_lookup ws m k v : (∀ w, w ∈ ws → is_set w = true) → functional ws →
  foldl write m ws !! k = Some v ↔ WSet k v ∈ ws ∨ (m !! k = Some v ∧ ∀ v', WSet k v' ∉ ws).
Proof.
  revert m. induction ws as [|w ws IH] using rev_ind; intros m Hset Hfun; [set_solver|].
  rewrite foldl_app. simpl. assert (is_set w = true) as Hw by (apply Hset; set_solver).
  destruct w as [k' v'|]; [|done]. simpl.
  assert (functional ws) as Hfun' by (intros k0 v1 v2 H1 H2; apply (Hfun k0); set_solver).
  destruct (decide (k = k')) as [->|Hne].
  - rewrite lookup_insert_eq. split.
    + intros [= ->]. left. set_solver.
    + intros [Hin|[_ Hno]]; [|exfalso; apply (Hno v'); set_solver].
      f_equal. apply (Hfun k'); [set_solver|done].
  - rewrite lookup_insert_ne // IH //; [|intros; apply Hset; set_solver].
    setoid_rewrite elem_of_app. setoid_rewrite list_elem_of_singleton. naive_solver.
Qed.

Lemma deletes_lookup ks m k : foldl write m (map WDelete ks) !! k = if decide (k ∈ ks) then None else m !! k.
Proof.
  revert m. induction ks as [|k' ks IH]; intros m; simpl; [done|]. rewrite IH.
  destruct (decide (k ∈ ks)), (decide (k ∈ k' :: ks)); try set_solver.
  - destruct (decide (k = k')) as [->|]; [apply lookup_delete_eq|]. set_solver.
  - rewrite lookup_delete_ne; set_solver.
Qed.

Lemma foldl_write_app m a b : foldl write m (a ++ b)%list = foldl write (foldl write m a) b.
Proof. apply foldl_app. Qed.

(** ** Index entries name their event *)

(** One of the last two entries of an event. *)
Ltac last_entry Hin := apply elem_of_cons in Hin as [Hin|Hin]; [|apply list_elem_of_singleton in Hin]; injection Hin as -> ->.

Definition index_family (k : string) : Prop :=
  family k = entityPrefix ∨ family k = typePrefix ∨ family k = timePrefix.

Lemma index_entry ev n ws k v : indexEvent ev n = Some ws → WSet k v ∈ ws →
  index_family k ∧ seqFromKeySuffix k = u64 n.
Proof.
  assert (∀ ids ct ns tag, WSet k v ∈ (map (λ id, WSet (entityKey id n) "") (base.filter (λ id, id ≠ ""%string) ids) ++
    [WSet (typeKey ct n) ""; WSet (timeKey ns n) (String tag "")])%list → index_family k ∧ seqFromKeySuffix k = u64 n) as Hall.
  { intros ids ct ns tag [Hin|Hin]%elem_of_app.
    - apply list_elem_of_fmap in Hin as (id & [= -> ->] & _). split; [left; by apply family_app|].
      unfold entityKey. rewrite !string_app_assoc. apply suffix_seq.
    - last_entry Hin.
      + split; [right; left; by apply family_app|].
        change (typeKey ct n) with ((typePrefix +++ String (byte_of (ct_int ct)) "") +++ encodeU64 n). apply suffix_seq.
      + split; [right; right; by apply family_app|]. unfold timeKey. rewrite string_app_assoc. apply suffix_seq. }
  unfold indexEvent. destruct (ev_Entity ev), (ev_Relation ev); intros [= <-]; apply Hall.
Qed.

Lemma index_sets ev n ws w : indexEvent ev n = Some ws → w ∈ ws → is_set w = true.
Proof.
  unfold indexEvent. destruct (ev_Entity ev), (ev_Relation ev); intros [= <-]; rewrite elem_of_app list_elem_of_fmap;
    (intros [(id & -> & _)|Hw]; [done|]; apply elem_of_cons in Hw as [->|Hw]; [done|]; by apply list_elem_of_singleton in Hw as ->).
Qed.

(** The entries of one event do not disagree. *)
Lemma index_functional ev n ws : indexEvent ev n = Some ws → functional ws.
Proof.
  intros Hi k v v' H1 H2. assert (∀ u, WSet k u ∈ ws → (family k = timePrefix → u = String (classTag ev (match ev_Entity ev, ev_Relation ev with
    Some ee, _ => ee_ChangeType ee | None, Some re => re_ChangeType re | None, None => ChangeUnspecified end)) "") ∧
    (family k ≠ timePrefix → u = ""%string)) as Hu.
  { intros u. unfold indexEvent in Hi. destruct (ev_Entity ev), (ev_Relation ev); try done; injection Hi as <-;
      rewrite elem_of_app list_elem_of_fmap; (intros [(id & [= -> ->] & _)|Hin];
      [split; [rewrite /entityKey family_app //|done]|last_entry Hin;
        [split; [rewrite /typeKey family_app //|done]|split; [done|rewrite /timeKey family_app //]]]). }
  destruct (Hu v H1) as [A B], (Hu v' H2) as [A' B']. destruct (decide (family k = timePrefix)); [by rewrite A // A'|by rewrite B // B'].
Qed.

(** The keys a prune deletes: the event's own, and all of them. *)
Lemma eventKeys_seq ev n k : k ∈ eventKeys ev n → seqFromKeySuffix k = u64 n ∧ (k = primaryKey n ∨ index_family k).
Proof.
  assert (∀ id, seqFromKeySuffix (entityKey id n) = u64 n ∧ index_family (entityKey id n)) as He.
  { intros id. split; [unfold entityKey; rewrite !string_app_assoc; apply suffix_seq|left; by apply family_app]. }
  assert (∀ ct, seqFromKeySuffix (typeKey ct n) = u64 n ∧ index_family (typeKey ct n)) as Ht.
  { intros ct. split; [|right; left; by apply family_app].
    change (typeKey ct n) with ((typePrefix +++ String (byte_of (ct_int ct)) "") +++ encodeU64 n). apply suffix_seq. }
  assert (∀ ns, seqFromKeySuffix (timeKey ns n) = u64 n ∧ index_family (timeKey ns n)) as Hm.
  { intros ns. split; [unfold timeKey; rewrite string_app_assoc; apply suffix_seq|right; right; by apply family_app]. }
  unfold eventKeys. intros [->|Hk]%elem_of_cons; [split; [apply primaryKey_seq|by left]|].
  destruct (ev_Entity ev), (ev_Relation ev); repeat (apply elem_of_cons in Hk as [->|Hk]; [naive_solver|]); by apply elem_of_nil in Hk.
Qed.

Lemma eventKeys_index ev n ws k v : indexEvent ev n = Some ws → WSet k v ∈ ws → k ∈ eventKeys ev n.
Proof.
  unfold indexEvent, eventKeys. destruct (ev_Entity ev) as [ee|], (ev_Relation ev) as [re|]; intros [= <-];
    rewrite elem_of_app list_elem_of_fmap; intros [(id & [= -> ->] & [_ Hid]%list_elem_of_filter)|Hin];
    try last_entry Hin; set_solver.
Qed.

(** ** The log a key space represents *)

Section represents.
Context `{!Proto}.

(** The stored bytes of an event. *)
Definition decodes (v : string) (ev : Event) : Prop := ∃ pe, proto_unmarshal v = inr pe ∧ EventFromProto (Some pe) = ev.

Definition seq_lt (a b : Z * Event) : Prop := a.1 < b.1.

Lemma seq_filter (P : Z * Event → Prop) `{!∀ x, Decision (P x)} L : StronglySorted seq_lt L → StronglySorted seq_lt (base.filter P L).
Proof.
  induction 1 as [|x l _ IH Hall]; [constructor|]. rewrite filter_cons. case_decide; [|done]. constructor; [done|].
  rewrite Forall_forall in Hall. apply Forall_forall. intros y [_ Hy]%list_elem_of_filter. auto.
Qed.

Record represents (m : gmap string string) (L : list (Z * Event)) : Prop := {
  rp_sorted : StronglySorted seq_lt L;
  rp_range : ∀ n ev, (n, ev) ∈ L → 0 <= n < 18446744073709551616;
  rp_known : ∀ k v, family k = primaryPrefix → m !! k = Some v → ∃ n ev, (n, ev) ∈ L ∧ k = primaryKey n ∧ decodes v ev;
  rp_stored : ∀ n ev, (n, ev) ∈ L → ∃ v, m !! primaryKey n = Some v ∧ decodes v ev;
  rp_index : ∀ k v, index_family k →
    m !! k = Some v ↔ ∃ n ev ws, (n, ev) ∈ L ∧ indexEvent ev n = Some ws ∧ WSet k v ∈ ws;
}.

Lemma primary_family n : family (primaryKey n) = primaryPrefix.
Proof. by apply family_app. Qed.

Lemma index_not_primary k : index_family k → family k ≠ primaryPrefix.
Proof. by intros [-> | [-> | ->]]. Qed.

Lemma represents_fun m L n ev ev' : represents m L → (n, ev) ∈ L → (n, ev') ∈ L → ev = ev'.
Proof.
  intros HR H1 H2. destruct (rp_stored m L HR _ _ H1) as (v & Hv & pe & Hp & <-).
  destruct (rp_stored m L HR _ _ H2) as (v' & Hv' & pe' & Hp' & <-). congruence.
Qed.

Lemma represents_range m L n ev : represents m L → (n, ev) ∈ L → u64 n = n.
Proof. intros HR Hin. apply u64_id. by eapply rp_range. Qed.

(** The records of the log, as an iterator over the primary family yields them. *)
Lemma primary_key_of k v m L : represents m L → family k = primaryPrefix → m !! k = Some v →
  ∃ n ev, (n, ev) ∈ L ∧ k = primaryKey n ∧ seqFromKeySuffix k = n ∧ decodes v ev.
Proof.
  intros HR Hk Hm. destruct (rp_known m L HR k v Hk Hm) as (n & ev & Hin & -> & Hd). exists n, ev. split_and!; try done.
  rewrite primaryKey_seq. by eapply represents_range.
Qed.

Lemma family_prefix p k : String.length p = 4%nat → family k = p ↔ has_prefix p k.
Proof.
  intros Hp. split; [|intros [s ->]; by apply family_app]. unfold family. intros E. exists (str_drop 4 k).
  rewrite -E in Hp |- *. do 4 (destruct k as [|? k]; [simpl in Hp; lia|]). done.
Qed.

Lemma in_prefix_range p k : in_range p (prefixUpperBound p) k = true ↔ has_prefix p k.
Proof.
  rewrite prefix_bounds. unfold in_range. rewrite andb_true_iff bool_decide_eq_true.
  destruct (prefixUpperBound p); [by rewrite negb_true_iff bool_decide_eq_false|naive_solver].
Qed.

(** Decoding pairs records with the events of the log, in order. *)
Lemma decode_records_all kvs L :
  Forall2 (λ kv ne, seqFromKeySuffix kv.1 = ne.1 ∧ decodes kv.2 ne.2) kvs L →
  ∃ l, decode_records kvs = (l, None) ∧ visited l = L.
Proof.
  induction 1 as [|[k v] [n ev] kvs L [Hk (pe & Hp & He)] _ (l & Hl & Hv)]; [by exists []|]. simpl in *.
  rewrite Hp Hl. exists ((n, v, ev) :: l). subst. done.
Qed.

(** The range of an iterator is the only ordered list of those keys. *)
Lemma range_unique m lower upper kvs :
  StronglySorted (key_le fst) kvs → NoDup kvs.*1 →
  (∀ k v, (k, v) ∈ kvs ↔ m !! k = Some v ∧ in_range lower upper k = true) →
  range_of m lower upper = kvs.
Proof.
  intros Hs Hnd Hin. unfold range_of. symmetry. apply (sorted_by_unique fst); [done| |done|apply sort_by_sorted].
  rewrite sort_by_perm. apply NoDup_Permutation.
  - by eapply NoDup_fmap_1.
  - apply NoDup_filter, NoDup_map_to_list.
  - intros [k v]. rewrite list_elem_of_filter elem_of_map_to_list Hin. simpl. tauto.
Qed.

(** The stored form of a list of events. *)
Definition stored_as (m : gmap string string) (kv : string * string) (ne : Z * Event) : Prop :=
  kv.1 = primaryKey ne.1 ∧ m !! kv.1 = Some kv.2 ∧ decodes kv.2 ne.2.

Lemma stored_records m L : (∀ n ev, (n, ev) ∈ L → ∃ v, m !! primaryKey n = Some v ∧ decodes v ev) →
  ∃ kvs, Forall2 (stored_as m) kvs L.
Proof.
  intros Hst. induction L as [|[n ev] L IH]; [by exists []|].
  destruct IH as [kvs Hk]; [intros; apply Hst; by right|]. destruct (Hst n ev) as (v & Hv & Hd); [left|].
  exists ((primaryKey n, v) :: kvs). by constructor.
Qed.

Lemma stored_sorted m kvs L : Forall2 (stored_as m) kvs L → StronglySorted seq_lt L →
  (∀ n ev, (n, ev) ∈ L → u64 n = n) → StronglySorted (key_le fst) kvs ∧ NoDup kvs.*1.
Proof.
  induction 1 as [|[k v] [n ev] kvs L (Hk & Hm & Hd) HF IH]; intros Hs Hu; [split; constructor|].
  apply StronglySorted_inv in Hs as [Hs Hall]. destruct IH as [IHs IHn]; [done|intros; eapply Hu; by right|].
  simpl in *. subst k. assert (u64 n = n) as Hn by (eapply Hu; left).
  assert (∀ k' v', (k', v') ∈ kvs → ∃ n' ev', (n', ev') ∈ L ∧ k' = primaryKey n' ∧ n < u64 n') as Hlater.
  { intros k' v' Hin. apply list_elem_of_lookup in Hin as [i Hi].
    destruct (Forall2_lookup_l _ _ _ _ _ HF Hi) as ([n' ev'] & Hi' & Hk' & _). simpl in Hk'.
    apply list_elem_of_lookup_2 in Hi'. exists n', ev'. split_and!; try done.
    rewrite (Hu n' ev'); [|by right]. rewrite Forall_forall in Hall. apply (Hall _ Hi'). }
  split.
  - constructor; [done|]. apply Forall_forall. intros [k' v'] Hin. destruct (Hlater k' v' Hin) as (n' & ev' & _ & -> & Hlt).
    unfold key_le. simpl. apply primaryKey_le. lia.
  - apply NoDup_cons. split; [|done]. intros ([k' v'] & Heq & Hin)%list_elem_of_fmap. simpl in Heq. subst k'.
    destruct (Hlater _ v' Hin) as (n' & ev' & _ & E%primaryKey_inj & Hlt). lia.
Qed.

Lemma stored_decodes m kvs L : Forall2 (stored_as m) kvs L → (∀ n ev, (n, ev) ∈ L → u64 n = n) →
  ∃ l, decode_records kvs = (l, None) ∧ visited l = L.
Proof.
  intros HF Hu. apply decode_records_all. induction HF as [|[k v] [n ev] kvs L (Hk & _ & Hd) _ IH]; constructor.
  - split; [|done]. simpl in *. rewrite Hk primaryKey_seq. eapply Hu. left.
  - apply IH. intros n' ev' Hin. eapply Hu. by right.
Qed.

(** An iterator that stays in the primary family yields the records of the events whose
    number it admits. *)
Lemma range_represents m L lower (P : Z → Prop) `{!∀ n, Decision (P n)} : represents m L →
  (∀ k, in_range lower (prefixUpperBound primaryPrefix) k = true → has_prefix primaryPrefix k) →
  (∀ n ev, (n, ev) ∈ L → in_range lower (prefixUpperBound primaryPrefix) (primaryKey n) = true ↔ P n) →
  Forall2 (stored_as m) (range_of m lower (prefixUpperBound primaryPrefix)) (base.filter (λ ne, P ne.1) L).
Proof.
  intros HR Hpre HP. set (F := base.filter (λ ne, P ne.1) L).
  assert (∀ n ev, (n, ev) ∈ F ↔ P n ∧ (n, ev) ∈ L) as HF by (intros; unfold F; by rewrite list_elem_of_filter).
  destruct (stored_records m F) as [kvs Hkvs]; [intros n ev [_ Hin]%HF; by eapply rp_stored|].
  destruct (stored_sorted m kvs F Hkvs) as [Hs Hnd].
  { by apply seq_filter, (rp_sorted m L HR). }
  { intros n ev [_ Hin]%HF. by eapply represents_range. }
  rewrite (range_unique m lower _ kvs); [done|done|done|]. intros k v. split.
  - intros [i Hi]%list_elem_of_lookup. destruct (Forall2_lookup_l _ _ _ _ _ Hkvs Hi) as ([n ev] & Hne & Hk & Hm & _).
    simpl in *. split; [done|]. subst k. apply list_elem_of_lookup_2, HF in Hne as [HPn Hin]. by eapply HP.
  - intros [Hm Hr]. destruct (primary_key_of k v m L HR) as (n & ev & Hin & -> & _ & Hd); [|done|].
    { by apply (family_prefix primaryPrefix), Hpre. }
    assert ((n, ev) ∈ F) as [i Hi]%list_elem_of_lookup by (apply HF; split; [by eapply HP|done]).
    destruct (Forall2_lookup_r _ _ _ _ _ Hkvs Hi) as ([k' v'] & Hkv & Hk' & Hm' & _). simpl in *. subst k'.
    apply list_elem_of_lookup. exists i. congruence.
Qed.

(** *** Writing and deleting events *)

(** Only the keys of the four families matter. *)
Lemma represents_ext m m' L : (∀ k, family k = primaryPrefix ∨ index_family k → m' !! k = m !! k) →
  represents m L → represents m' L.
Proof.
  intros E [H1 H2 H3 H4 H5]. split; try done.
  - intros k v Hk. rewrite E; auto.
  - intros n ev Hin. rewrite E; [auto|left; apply primary_family].
  - intros k v Hk. rewrite E; auto.
Qed.

Lemma represents_meta m L k v : family k = "meta"%string → represents m L → represents (<[k := v]> m) L.
Proof.
  intros Hk. apply represents_ext. intros k' Hk'. rewrite lookup_insert_ne; [done|]. intros <-.
  unfold index_family in Hk'. rewrite Hk in Hk'. naive_solver.
Qed.

Lemma sorted_snoc L x : StronglySorted seq_lt L → (∀ y, y ∈ L → seq_lt y x) → StronglySorted seq_lt (L ++ [x])%list.
Proof.
  induction 1 as [|y L Hs IH Hall]; intros Hx; simpl; [by repeat constructor|].
  constructor; [apply IH; intros; apply Hx; by right|]. apply Forall_app. split; [done|]. constructor; [apply Hx; left|done].
Qed.

(** The next event. *)
Lemma represents_add m L n ev data entries : represents m L →
  0 <= n < 18446744073709551616 → (∀ n' ev', (n', ev') ∈ L → n' < n) →
  decodes data ev → indexEvent ev n = Some entries →
  represents (foldl write m (WSet (primaryKey n) data :: entries)) (L ++ [(n, ev)])%list.
Proof.
  intros HR Hn Hlt Hd Hi. set (ws := WSet (primaryKey n) data :: entries).
  assert (∀ k v, WSet k v ∈ entries → index_family k ∧ seqFromKeySuffix k = n) as Hent.
  { intros k v Hin. destruct (index_entry _ _ _ _ _ Hi Hin) as [? E]. by rewrite E u64_id. }
  assert (∀ k v, WSet k v ∈ ws ↔ (k = primaryKey n ∧ v = data) ∨ WSet k v ∈ entries) as Hws.
  { intros k v. unfold ws. rewrite elem_of_cons. naive_solver. }
  assert (∀ k v, foldl write m ws !! k = Some v ↔ WSet k v ∈ ws ∨ (m !! k = Some v ∧ ∀ v', WSet k v' ∉ ws)) as Hlook.
  { intros k v. apply sets_lookup.
    - intros w [->|Hw]%elem_of_cons; [done|by eapply index_sets].
    - intros k0 v1 v2 [[-> ->]|H1]%Hws [[E ->]|H2]%Hws; [done| | |by eapply index_functional].
      + destruct (Hent _ _ H2) as [Hf _]. by apply index_not_primary in Hf as []; apply primary_family.
      + subst. destruct (Hent _ _ H1) as [Hf _]. by apply index_not_primary in Hf as []; apply primary_family. }
  assert (∀ n', n' ≠ n → u64 n' = n' → ∀ v', WSet (primaryKey n') v' ∉ ws) as Hother.
  { intros n' Hne Hu v' [[E%primaryKey_inj _]|Hin]%Hws; [rewrite Hu u64_id in E; lia|].
    destruct (Hent _ _ Hin) as [Hf _]. by apply index_not_primary in Hf as []; apply primary_family. }
  destruct HR as [H1 H2 H3 H4 H5]. split.
  - apply sorted_snoc; [done|]. intros [n' ev'] Hin. by eapply Hlt.
  - intros n' ev' [Hin|Hin]%elem_of_app; [by eapply H2|]. apply list_elem_of_singleton in Hin as [= -> ->]. done.
  - intros k v Hk [[[-> ->]|Hin]%Hws|[Hm _]]%Hlook.
    + exists n, ev. split_and!; [set_solver|done|done].
    + destruct (Hent _ _ Hin) as [Hf _]. by apply index_not_primary in Hf.
    + destruct (H3 k v Hk Hm) as (n' & ev' & Hin & Hrest). exists n', ev'. split; [set_solver|done].
  - intros n' ev' [Hin|Hin]%elem_of_app.
    + destruct (H4 n' ev' Hin) as (v & Hv & Hdv). exists v. split; [|done]. apply Hlook. right. split; [done|].
      apply Hother; [specialize (Hlt _ _ Hin); lia|apply u64_id; by eapply H2].
    + apply list_elem_of_singleton in Hin as [= -> ->]. exists data. split; [|done]. apply Hlook. left. apply Hws. by left.
  - intros k v Hk. rewrite Hlook Hws. assert (k ≠ primaryKey n) as Hkn.
    { intros ->. by apply index_not_primary in Hk as []; apply primary_family. }
    split.
    + intros [[[-> _]|Hin]|[Hm _]]; [done| |].
      * exists n, ev, entries. split_and!; [set_solver|done|done].
      * apply H5 in Hm as (n' & ev' & ws' & Hin & Hrest); [|done]. exists n', ev', ws'. split; [set_solver|done].
    + intros (n' & ev' & ws' & [Hin|Hin]%elem_of_app & Hi' & Hw).
      * right. split; [apply H5; [done|by exists n', ev', ws']|]. intros v' [[-> _]|Hin']%Hws; [done|].
        destruct (Hent _ _ Hin') as [_ E]. destruct (index_entry _ _ _ _ _ Hi' Hw) as [_ E'].
        rewrite u64_id in E'; [|by eapply H2]. specialize (Hlt _ _ Hin). lia.
      * apply list_elem_of_singleton in Hin as [= -> ->]. left. right. congruence.
Qed.

(** Deleting the keys of some events. *)
Lemma represents_remove m L doomed : represents m L → (∀ x, x ∈ doomed → x ∈ L) →
  represents (foldl write m (map WDelete (mjoin (map (λ ne, eventKeys ne.2 ne.1) doomed))))
    (base.filter (λ ne, ne.1 ∉ doomed.*1) L).
Proof.
  intros HR Hsub. set (keys := mjoin (map (λ ne, eventKeys ne.2 ne.1) doomed)).
  assert (∀ k, k ∈ keys ↔ ∃ n ev, (n, ev) ∈ doomed ∧ k ∈ eventKeys ev n) as Hkeys.
  { intros k. unfold keys. rewrite list_elem_of_join. setoid_rewrite list_elem_of_fmap. split.
    - intros (ks & Hk & [n ev] & -> & Hin). by exists n, ev.
    - intros (n & ev & Hin & Hk). exists (eventKeys ev n). split; [done|]. by exists (n, ev). }
  assert (∀ n ev k, (n, ev) ∈ L → n ∉ doomed.*1 → seqFromKeySuffix k = n → k ∉ keys) as Hsafe.
  { intros n ev k Hin Hn Hs (n' & ev' & Hin' & [E _]%eventKeys_seq)%Hkeys. apply Hn, list_elem_of_fmap. exists (n', ev').
    split; [|done]. simpl. rewrite (represents_range m L n' ev' HR (Hsub _ Hin')) in E. congruence. }
  assert (∀ k v, foldl write m (map WDelete keys) !! k = Some v ↔ m !! k = Some v ∧ k ∉ keys) as Hlook.
  { intros k v. rewrite deletes_lookup. case_decide; naive_solver. }
  pose proof HR as [H1 H2 H3 H4 H5]. split.
  - by apply seq_filter.
  - intros n ev [_ Hin]%list_elem_of_filter. by eapply H2.
  - intros k v Hk [Hm Hnk]%Hlook. destruct (H3 k v Hk Hm) as (n & ev & Hin & -> & Hd). exists n, ev. split_and!; try done.
    apply list_elem_of_filter. split; [|done]. simpl. intros ([n' ev'] & E & Hin')%list_elem_of_fmap. simpl in E. subst n'.
    apply Hnk, Hkeys. exists n, ev'. split; [done|]. left.
  - intros n ev [Hn Hin]%list_elem_of_filter. destruct (H4 n ev Hin) as (v & Hv & Hd). exists v. split; [|done].
    apply Hlook. split; [done|]. apply (Hsafe n ev); [done|done|]. rewrite primaryKey_seq. by eapply represents_range.
  - intros k v Hk. rewrite Hlook H5 //. split.
    + intros [(n & ev & ws & Hin & Hi & Hw) Hnk]. exists n, ev, ws. split_and!; [|done|done].
      apply list_elem_of_filter. split; [|done]. simpl. intros ([n' ev'] & E & Hin')%list_elem_of_fmap. simpl in E. subst n'.
      apply Hnk, Hkeys. exists n, ev'. split; [done|]. rewrite (represents_fun m L n ev' ev HR); [|by apply Hsub|done].
      by eapply eventKeys_index.
    + intros (n & ev & ws & [Hn Hin]%list_elem_of_filter & Hi & Hw). split; [by exists n, ev, ws|].
      apply (Hsafe n ev); [done|done|]. destruct (index_entry _ _ _ _ _ Hi Hw) as [_ ->]. by eapply represents_range.
Qed.
End represents.
