(* ===== verification/StoreSpec.v ===== *)
(** * What the event log promises

    Properties of store.go and read.go over stores whose database represents a log:
    an append extends it, a restart continues it, scans and index reads answer from
    it. *)
From S2P Require Import Prelude GoStd Values Vocabulary Entities Events Keys Store Retention StoreInv EngineInv.
Open Scope Z_scope.

Definition max_seq : Z := 18446744073709551616.

(** The failures that come from below: a read, or the caller's context. *)
Definition is_io (err : StoreError) : bool := match err with ERead _ | ECancelled _ => true | _ => false end.

Section spec.
Context {D : Type} `{!Pebble D} `{!PebbleLaws D} `{!Proto} `{!ProtoLaws}.
#[local] Abbreviation St := (Store D).
Implicit Types s : St.

(** The store holds the log [L], numbered up to its sequence, which is durable. *)
Record store_ok (s : St) (L : list (Z * Event)) : Prop := {
  so_log : represents (contents (s_db s)) L;
  so_seq : 0 <= s_seq s < max_seq;
  so_upto : ∀ n ev, (n, ev) ∈ L → 1 <= n <= s_seq s;
  so_marker : contents (s_db s) !! metaSeqKey = Some (encodeU64 (s_seq s)) ∨
    contents (s_db s) !! metaSeqKey = None ∧ s_seq s = 0;
  so_format : ∀ v, contents (s_db s) !! metaFormatKey = Some v → v = encodeU64 formatVersion;
  so_horizon : ∀ v, contents (s_db s) !! metaPruneHorizonKey = Some v → String.length v = 8%nat;
}.

(** Only the database and the sequence matter. *)
Lemma store_ok_ext s s' L : contents (s_db s') = contents (s_db s) → s_seq s' = s_seq s → store_ok s L → store_ok s' L.
Proof. intros E1 E2 [H1 H2 H3 H4 H5 H6]. split; rewrite ?E1 ?E2; done. Qed.

(** ** Appending *)

Lemma stamp_storable n ev : event_storable ev → event_storable (stamp_commit n ev).
Proof. by destruct ev as [[[]|] [[]|]]. Qed.

Lemma stamp_commit_same n ev : event_storable ev → same_event ev (stamp_commit n ev).
Proof. by destruct ev as [[[]|] [[]|]]. Qed.

Lemma marshal_decodes ev data : event_storable ev → proto_marshal (Event_ToProto ev) = inr data → decodes data ev.
Proof. intros Hs Hm. exists (Event_ToProto ev). split; [by apply unmarshal_marshal|by apply event_decode]. Qed.

(** Numbering a batch after [n]. *)
Definition numbered (n : Z) (evs : list Event) : list (Z * Event) := imap (λ i ev, (n + 1 + Z.of_nat i, ev)) evs.

Lemma numbered_cons n ev evs : numbered n (ev :: evs) = (n + 1, ev) :: numbered (n + 1) evs.
Proof.
  unfold numbered. rewrite imap_cons. f_equal; [f_equal; lia|]. apply imap_ext. intros i x _. simpl. f_equal. lia.
Qed.
Lemma numbered_snd n evs : (numbered n evs).*2 = evs.
Proof. revert n. induction evs as [|ev evs IH]; intros n; [done|]. by rewrite numbered_cons fmap_cons IH. Qed.

Lemma elem_of_numbered n evs k ev : (k, ev) ∈ numbered n evs → n < k <= n + Z.of_nat (length evs).
Proof.
  intros [i Hi]%list_elem_of_lookup. unfold numbered in Hi. rewrite list_lookup_imap in Hi.
  destruct (evs !! i) as [x|] eqn:Hx; [|done]. injection Hi as <- <-. apply lookup_lt_Some in Hx. lia.
Qed.

Lemma stage_spec acc c : ∀ evs i n m L seq ws evs',
  stage_events acc c i n evs = inr (seq, ws, evs') → Forall event_storable evs →
  0 <= n → n + Z.of_nat (length evs) < max_seq → represents m L → (∀ k ev, (k, ev) ∈ L → k <= n) →
  seq = n + Z.of_nat (length evs) ∧ evs' = stamp_commit c <$> evs ∧
  represents (foldl write m ws) (L ++ numbered n evs')%list ∧ (∀ w, w ∈ ws → is_set w = true) ∧
  (∀ k v, WSet k v ∈ ws → family k ≠ "meta"%string).
Proof.
  induction evs as [|ev evs IH]; intros i n m L seq ws evs' Hst Hev Hn Hroom HR Hle; cbn [stage_events] in Hst.
  { injection Hst as <- <- <-. simpl. rewrite app_nil_r. split_and!; try done; [lia|set_solver|set_solver]. }
  destruct (if acc then _ else _); [done|]. apply Forall_cons in Hev as [Hev Hevs]. simpl in Hroom.
  rewrite u64_id in Hst; [|unfold max_seq in *; lia].
  destruct (proto_marshal _) as [msg|data] eqn:Hm; [done|]. destruct (indexEvent _ _) as [entries|] eqn:Hi; [|done].
  destruct (stage_events _ _ _ _ evs) as [|[[seq1 ws1] evs1]] eqn:Hrec; [done|]. injection Hst as <- <- <-.
  pose proof (represents_add m L (n + 1) (stamp_commit c ev) data entries HR) as Hadd.
  destruct (IH (S i) (n + 1) (foldl write m (WSet (primaryKey (n + 1)) data :: entries)) (L ++ [(n + 1, stamp_commit c ev)])%list
    seq1 ws1 evs1 Hrec Hevs) as (-> & -> & HR' & Hset & Hmeta); [lia|lia| | |].
  { apply Hadd; [unfold max_seq in *; lia|intros k x Hk; specialize (Hle k x Hk); lia| |done].
    apply marshal_decodes; [by apply stamp_storable|done]. }
  { intros k x [Hk|Hk]%elem_of_app; [specialize (Hle k x Hk); lia|]. apply list_elem_of_singleton in Hk as [= -> _]. lia. }
  split_and!.
  - simpl. lia.
  - done.
  - rewrite numbered_cons. change (WSet (primaryKey (n + 1)) data :: entries ++ ws1)%list
      with ((WSet (primaryKey (n + 1)) data :: entries) ++ ws1)%list. rewrite foldl_write_app.
    by rewrite list_app_assoc in HR'.
  - intros w [->|[Hw|Hw]%elem_of_app]%elem_of_cons; [done|by eapply index_sets|auto].
  - intros k v [E|[Hw|Hw]%elem_of_app]%elem_of_cons; [|destruct (index_entry _ _ _ _ _ Hi Hw) as [[-> |[-> | ->]] _]; done|by eapply Hmeta].
    injection E as -> ->. by rewrite primary_family.
Qed.

Definition accepted s (ev : Event) : Prop := (if s_AcceptUnknownTypes s then Event_ValidateShape ev else Event_Validate ev) = None.

Lemma stage_accepted acc c : ∀ evs i n seq ws evs', stage_events acc c i n evs = inr (seq, ws, evs') →
  Forall (λ ev, (if acc then Event_ValidateShape ev else Event_Validate ev) = None) evs.
Proof.
  induction evs as [|ev evs IH]; intros i n seq ws evs' Hst; cbn [stage_events] in Hst; [done|].
  destruct (if acc then _ else _) eqn:Hv; [done|]. destruct (proto_marshal _); [done|]. destruct (indexEvent _ _); [|done].
  destruct (stage_events _ _ _ _ evs) as [|[[? ?] ?]] eqn:Hrec; [done|]. constructor; [done|by eapply IH].
Qed.

Lemma meta_not_staged (ws : list Write) m k : (∀ k v, WSet k v ∈ ws → family k ≠ "meta"%string) →
  (∀ w, w ∈ ws → is_set w = true) → family k = "meta"%string → foldl write m ws !! k = m !! k.
Proof.
  intros Hm Hs Hk. revert m. induction ws as [|w ws IH]; intros m; simpl; [done|]. rewrite IH; [|set_solver..].
  destruct w as [k' v'|]; [|by specialize (Hs _ ltac:(left))]. simpl. rewrite lookup_insert_ne; [done|].
  intros <-. by apply (Hm k' v'); [left|].
Qed.

(** An append, whatever the batch: accepted whole at the end of the log, or the log as
    it was. *)
Lemma append_log s L evs s' r : store_ok s L → Forall event_storable evs →
  s_seq s + Z.of_nat (length evs) < max_seq → Append evs s = (s', r) →
  match r with
  | inl _ => store_ok s' L ∧ s_seq s' = s_seq s
  | inr evs' => store_ok s' (L ++ numbered (s_seq s) evs')%list ∧ s_seq s' = s_seq s + Z.of_nat (length evs) ∧
      evs' = stamp_commit (s_seq s + 1) <$> evs ∧ Forall (accepted s) evs
  end.
Proof.
  intros Hok Hev Hroom. unfold Append. destruct evs as [|ev evs].
  { intros [= <- <-]. simpl. rewrite app_nil_r Z.add_0_r. done. }
  assert (0 <= s_seq s) as Hpos by (pose proof (so_seq s L Hok); lia).
  rewrite (u64_id (s_seq s + 1)); [|simpl in Hroom; clear Hev; unfold max_seq in *; lia]. remember (ev :: evs) as evs1 eqn:Hevs1.
  destruct (stage_events _ _ _ _ evs1) as [err|[[seq ws] evs']] eqn:Hst; [by intros [= <- <-]|].
  destruct (stage_spec _ _ _ _ _ (contents (s_db s)) L _ _ _ Hst) as (-> & -> & HR & Hset & Hmeta); [done|done|done|by apply Hok| |].
  { intros k x Hk. apply (so_upto s L Hok) in Hk. lia. }
  destruct (pb_commit _ _) as [d [msg|]] eqn:Hc; intros [= <- <-].
  { apply commit_failed in Hc. split; [by apply (store_ok_ext s)|done]. }
  apply commit_ok in Hc. rewrite foldl_write_app in Hc. simpl in Hc. destruct Hok as [H1 H2 H3 H4 H5 H6].
  split_and!; [split; cbn [s_db s_seq set_seq set_db]; rewrite ?Hc|done|done|by eapply stage_accepted].
  - by apply represents_meta.
  - lia.
  - intros n x [Hin|Hin]%elem_of_app; [specialize (H3 n x Hin); lia|].
    apply elem_of_numbered in Hin. rewrite length_fmap in Hin. lia.
  - left. apply lookup_insert_eq.
  - intros v. rewrite lookup_insert_ne // (meta_not_staged ws) //. auto.
  - intros v. rewrite lookup_insert_ne // (meta_not_staged ws) //. auto.
Qed.

(** Of the markers an append writes the sequence alone. *)
Lemma append_keeps_meta s L evs s' r k : store_ok s L → Forall event_storable evs → s_seq s + Z.of_nat (length evs) < max_seq →
  Append evs s = (s', r) → family k = "meta"%string → k ≠ metaSeqKey → contents (s_db s') !! k = contents (s_db s) !! k.
Proof.
  intros Hok Hev Hroom. unfold Append. destruct evs as [|ev evs]; [by intros [= <- <-]|].
  assert (0 <= s_seq s) as Hpos by (pose proof (so_seq s L Hok); lia). remember (ev :: evs) as evs1 eqn:Hevs1.
  destruct (stage_events _ _ _ _ evs1) as [err|[[seq ws] evs']] eqn:Hst; [by intros [= <- <-]|].
  destruct (stage_spec _ _ _ _ _ (contents (s_db s)) L _ _ _ Hst) as (_ & _ & _ & Hset & Hmeta); [done|done|done|by apply Hok| |].
  { intros n x Hn. apply (so_upto s L Hok) in Hn. lia. }
  destruct (pb_commit _ _) as [d [msg|]] eqn:Hc; intros [= <- <-] Hk Hne; cbn [s_db set_db set_seq].
  - apply commit_failed in Hc. by rewrite Hc.
  - apply commit_ok in Hc. rewrite foldl_write_app in Hc. rewrite Hc. cbn [foldl write]. rewrite lookup_insert_ne //. by apply meta_not_staged.
Qed.

(** ** Scanning *)

Lemma scan_log s L lower (P : Z → Prop) `{!∀ n, Decision (P n)} : store_ok s L →
  (∀ k, in_range lower (prefixUpperBound primaryPrefix) k = true → has_prefix primaryPrefix k) →
  (∀ n ev, (n, ev) ∈ L → in_range lower (prefixUpperBound primaryPrefix) (primaryKey n) = true ↔ P n) →
  (pb_iter (s_db s) lower (prefixUpperBound primaryPrefix)).2 = None →
  ∃ l, scan_db (s_db s) lower = (l, None) ∧ visited l = base.filter (λ ne, P ne.1) L.
Proof.
  intros Hok Hpre HP Hio. unfold scan_db. destruct (pb_iter _ _ _) as [kvs err] eqn:Hit. simpl in Hio. subst err.
  apply iter_sound in Hit. pose proof (range_represents _ L lower P (so_log s L Hok) Hpre HP) as HF. rewrite -Hit in HF.
  destruct (stored_decodes _ _ _ HF) as (l & -> & Hv); [|by exists l].
  intros n ev [_ Hin]%list_elem_of_filter. eapply represents_range; [by apply Hok|done].
Qed.

Lemma primary_range n k : in_range (primaryKey n) (prefixUpperBound primaryPrefix) k = true → has_prefix primaryPrefix k.
Proof.
  intros Hr. apply in_prefix_range. revert Hr. unfold in_range. rewrite !andb_true_iff !bool_decide_eq_true.
  intros [Hle ?]. split; [|done]. etrans; [|exact Hle]. apply prefix_bounds. by exists (encodeU64 n).
Qed.

Lemma scan_all s L : store_ok s L → (pb_iter (s_db s) primaryPrefix (prefixUpperBound primaryPrefix)).2 = None →
  ∃ l, snapshotScan (s_db s) = (l, None) ∧ visited l = L.
Proof.
  intros Hok Hio. destruct (scan_log s L primaryPrefix (λ _, True) Hok) as (l & Hl & Hv).
  - by intros k Hk%in_prefix_range.
  - intros n ev _. split; [done|]. intros _. apply in_prefix_range. by exists (encodeU64 n).
  - done.
  - exists l. split; [done|]. rewrite Hv. apply filter_all. done.
Qed.

Lemma scan_tail s L after : store_ok s L → 0 <= after <= s_seq s → after + 1 < max_seq →
  (pb_iter (s_db s) (primaryKey (after + 1)) (prefixUpperBound primaryPrefix)).2 = None →
  ScanFrom after s = (base.filter (λ ne, after < ne.1) L, None).
Proof.
  intros Hok Ha Hmax Hio. unfold ScanFrom. rewrite u64_id; [|unfold max_seq in *; lia].
  destruct (scan_log s L (primaryKey (after + 1)) (λ n, after < n) Hok (primary_range _)) as (l & -> & ->); [|done|done].
  intros n ev Hin. pose proof (represents_range _ _ _ _ (so_log s L Hok) Hin) as Hn. unfold in_range.
  pose proof (proj2 (in_prefix_range primaryPrefix (primaryKey n)) ltac:(by exists (encodeU64 n))) as [_ Hu]%andb_true_iff.
  rewrite andb_true_iff. rewrite bool_decide_eq_true primaryKey_le Hn u64_id; [|unfold max_seq in *; lia]. split; [lia|]. split; [lia|done].
Qed.

(** ** Reopening *)

Lemma checkFormat_log s L ro d' err : store_ok s L → checkFormat ro (s_db s) = (d', err) →
  match err with
  | None => store_ok (set_db d' s) L
  | Some (ERead _) | Some (ECommit _) => True
  | Some _ => False
  end.
Proof.
  intros Hok. unfold checkFormat. destruct (pb_get _ _) as [msg|[v|]] eqn:Hg.
  - by intros [= <- <-].
  - apply get_sound in Hg. rewrite (so_format s L Hok v) //.
    intros [= <- <-]. by apply (store_ok_ext s).
  - destruct ro; [intros [= <- <-]; by apply (store_ok_ext s)|]. destruct (pb_commit _ _) as [d [msg|]] eqn:Hc; intros [= <- <-]; [done|].
    apply commit_ok in Hc. simpl in Hc. destruct Hok as [H1 H2 H3 H4 H5 H6]. split; cbn [s_db s_seq set_db]; rewrite ?Hc.
    + by apply represents_meta.
    + done.
    + done.
    + rewrite !lookup_insert_ne //.
    + intros v. rewrite lookup_insert_eq. by intros [= <-].
    + intros v. rewrite lookup_insert_ne //. auto.
Qed.

(** The sequence and the log survive the process; a store the code wrote is never
    refused as corrupt or too new. *)
Lemma reopen_log acc ro s L : store_ok s L →
  match open acc ro (s_db s) with
  | inr s' => store_ok s' L ∧ s_seq s' = s_seq s
  | inl (ERead _) | inl (ECommit _) => True
  | inl _ => False
  end.
Proof.
  intros Hok. unfold open. destruct (checkFormat ro (s_db s)) as [d err] eqn:Hc. pose proof (checkFormat_log _ _ _ _ _ Hok Hc) as Hf.
  destruct err as [[]|]; try done. destruct Hf as [H1 H2 H3 H4 H5 H6]. cbn [s_db s_seq set_db] in *.
  unfold recoverSeq. destruct (pb_get d metaSeqKey) as [msg|v] eqn:Hs; [done|]. apply get_sound in Hs. subst v.
  destruct H4 as [Hm|[Hm Hz]]; rewrite Hm.
  - rewrite encodeU64_length. cbn [Nat.eqb negb].
    assert (decodeU64 (encodeU64 (s_seq s)) = s_seq s) as Hd by (rewrite decode_encode; by apply u64_id).
    destruct (pb_get d metaPruneHorizonKey) as [msg|[hv|]] eqn:Hh; [done| |].
    + apply get_sound in Hh. symmetry in Hh. rewrite (H6 hv Hh). cbn [Nat.eqb negb].
      destruct (pb_get d snapshotKey); [done|]. rewrite Hd. split; [|done]. split; try done. by left.
    + destruct (pb_get d snapshotKey); [done|]. rewrite Hd. split; [|done]. split; try done. by left.
  - rewrite Hz in H2, H3 |- *. split; [|done]. split; try done. by right.
Qed.

(** ** Deleting *)

Lemma event_keys_not_meta (X : list (Z * Event)) k : k ∈ mjoin (map (λ ne, eventKeys ne.2 ne.1) X) → family k ≠ "meta"%string.
Proof.
  rewrite list_elem_of_join. intros (ks & Hk & ([n ev] & -> & _)%list_elem_of_fmap).
  apply eventKeys_seq in Hk as [_ [-> |[-> |[-> | ->]]]]; [by rewrite primary_family|done..].
Qed.

(** Deleting events of the log, and possibly noting a new horizon, leaves the others. *)
Lemma store_remove s L d' (X : list (Z * Event)) (horizon : option Z) : store_ok s L → (∀ x, x ∈ X → x ∈ L) →
  contents d' = foldl write (contents (s_db s)) (map WDelete (mjoin (map (λ ne, eventKeys ne.2 ne.1) X)) ++
    match horizon with Some h => [WSet metaPruneHorizonKey (encodeU64 h)] | None => [] end)%list →
  store_ok (set_db d' s) (base.filter (λ ne, ne.1 ∉ X.*1) L).
Proof.
  intros Hok Hsub Hc. set (m := foldl write (contents (s_db s)) (map WDelete (mjoin (map (λ ne, eventKeys ne.2 ne.1) X)))).
  assert (represents m (base.filter (λ ne, ne.1 ∉ X.*1) L)) as HR by (apply represents_remove; [by apply Hok|done]).
  assert (∀ k, family k = "meta"%string → m !! k = contents (s_db s) !! k) as Hm.
  { intros k Hk. unfold m. rewrite deletes_lookup. case_decide as Hin; [|done]. by apply event_keys_not_meta in Hin. }
  assert (contents d' = match horizon with Some h => <[metaPruneHorizonKey := encodeU64 h]> m | None => m end) as E.
  { rewrite Hc foldl_write_app. by destruct horizon. }
  destruct Hok as [H1 H2 H3 H4 H5 H6]. split; cbn [s_db s_seq set_db]; rewrite ?E.
  - destruct horizon; [by apply represents_meta|done].
  - done.
  - intros n ev [_ Hin]%list_elem_of_filter. by eapply H3.
  - destruct horizon; rewrite ?lookup_insert_ne // !Hm //.
  - intros v. destruct horizon; rewrite ?lookup_insert_ne // Hm //; auto.
  - intros v. destruct horizon; [rewrite lookup_insert_eq; intros [= <-]; apply encodeU64_length|]. rewrite Hm //. auto.
Qed.

Lemma scan_visits s L l : store_ok s L → Scan s = (l, None) → l = L.
Proof.
  intros Hok. unfold Scan. destruct (scan_db (s_db s) primaryPrefix) as [l0 err] eqn:Hsc. intros [= <- ->].
  destruct (scan_all s L Hok) as (l' & Hl' & Hv); [|unfold snapshotScan in Hl'; congruence].
  unfold scan_db in Hsc. destruct (pb_iter _ _ _) as [kvs [msg|]]; [|done]. by destruct (decode_records kvs) as [? [?|]].
Qed.

(** C8. An append is all or nothing and durable. Whether it succeeds or fails, at the
    validation, the encoding or the commit, a scan of the store afterwards reads the old
    log, followed by the whole stamped batch under consecutive numbers when it
    succeeded; and opening the database again finds that log and that sequence, or
    reports a failure of the disk, never corruption. *)
Theorem append_is_durable (s : St) (L : list (Z * Event)) (evs : list Event) (s' : St) (r : StoreError + list Event) (acc ro : bool)
    (Hok : store_ok s L) (Hev : Forall event_storable evs) (Hroom : s_seq s + Z.of_nat (length evs) < max_seq)
    (Happ : Append evs s = (s', r)) :
  let L' := match r with inl _ => L | inr evs' => (L ++ numbered (Sequence s) evs')%list end in
  (∀ l, Scan s' = (l, None) → l = L') ∧
  match open acc ro (s_db s') with
  | inr s'' => store_ok s'' L' ∧ Sequence s'' = Sequence s'
  | inl (ERead _) | inl (ECommit _) => True
  | inl _ => False
  end ∧
  match r with
  | inl _ => Sequence s' = Sequence s
  | inr evs' => evs' = stamp_commit (Sequence s + 1) <$> evs ∧ Forall (accepted s) evs ∧ Sequence s' = Sequence s + Z.of_nat (length evs)
  end.
Proof.
  pose proof (append_log s L evs s' r Hok Hev Hroom Happ) as Hl. intros L'.
  assert (store_ok s' L') as Hok' by (unfold L'; destruct r; by destruct Hl).
  split_and!; [intros l; by apply scan_visits|by apply reopen_log|]. destruct r; unfold Sequence; naive_solver.
Qed.
End spec.
