(* ===== verification/StoreReads.v ===== *)
(** * Reading the log through its indexes

    The three index reads of read.go against the log itself: by entity, by change
    type, and by event time. *)
From S2P Require Import Prelude GoStd Values Vocabulary Entities Events Keys Store Retention StoreInv EngineInv StoreSpec.
Open Scope Z_scope.

(** ** What an event is filed under *)

Definition touched (ev : Event) : list string :=
  match ev_Entity ev, ev_Relation ev with
  | Some ee, _ => [e_ID (ee_Entity ee)]
  | None, Some re => [r_From (re_Relation re); r_To (re_Relation re)]
  | None, None => []
  end.
Definition ev_ct (ev : Event) : ChangeType :=
  match ev_Entity ev, ev_Relation ev with
  | Some ee, _ => ee_ChangeType ee
  | None, Some re => re_ChangeType re
  | None, None => ChangeUnspecified
  end.
Definition ev_nano (ev : Event) : Z :=
  match ev_Entity ev, ev_Relation ev with
  | Some ee, _ => unix_nano (ee_EventTime ee)
  | None, Some re => unix_nano (re_EventTime re)
  | None, None => 0
  end.

Lemma index_shape ev n ws : indexEvent ev n = Some ws →
  ws = (map (λ id, WSet (entityKey id n) "") (base.filter (λ id, id ≠ ""%string) (touched ev)) ++
    [WSet (typeKey (ev_ct ev) n) ""; WSet (timeKey (ev_nano ev) n) (String (classTag ev (ev_ct ev)) "")])%list.
Proof. unfold indexEvent, touched, ev_ct, ev_nano. by destruct (ev_Entity ev), (ev_Relation ev); intros [= <-]. Qed.

Lemma entityKey_family id n : family (entityKey id n) = entityPrefix.
Proof. by apply family_app. Qed.
Lemma typeKey_family ct n : family (typeKey ct n) = typePrefix.
Proof. by apply family_app. Qed.
Lemma timeKey_family ns n : family (timeKey ns n) = timePrefix.
Proof. by apply family_app. Qed.

(** The entries of an event, family by family. *)
Lemma index_entries ev n ws k v : indexEvent ev n = Some ws → WSet k v ∈ ws ↔
  v = ""%string ∧ (∃ id, id ∈ touched ev ∧ id ≠ ""%string ∧ k = entityKey id n) ∨
  v = ""%string ∧ k = typeKey (ev_ct ev) n ∨
  v = String (classTag ev (ev_ct ev)) "" ∧ k = timeKey (ev_nano ev) n.
Proof.
  intros ->%index_shape. rewrite elem_of_app list_elem_of_fmap elem_of_cons list_elem_of_singleton.
  setoid_rewrite list_elem_of_filter. naive_solver.
Qed.

Lemma entity_entries ev n ws k : indexEvent ev n = Some ws → family k = entityPrefix →
  (∃ v, WSet k v ∈ ws) ↔ ∃ id, id ∈ touched ev ∧ id ≠ ""%string ∧ k = entityKey id n.
Proof.
  intros Hi Hk. setoid_rewrite (index_entries _ _ _ _ _ Hi). split; [|naive_solver].
  intros (v & [[_ ?]|[[_ ->]|[_ ->]]]); [done| |]; [by rewrite typeKey_family in Hk|by rewrite timeKey_family in Hk].
Qed.
Lemma type_entries ev n ws k : indexEvent ev n = Some ws → family k = typePrefix →
  (∃ v, WSet k v ∈ ws) ↔ k = typeKey (ev_ct ev) n.
Proof.
  intros Hi Hk. setoid_rewrite (index_entries _ _ _ _ _ Hi). split; [|naive_solver].
  intros (v & [[_ (id & _ & _ & ->)]|[[_ ?]|[_ ->]]]); [by rewrite entityKey_family in Hk|done|by rewrite timeKey_family in Hk].
Qed.
Lemma time_entries ev n ws k v : indexEvent ev n = Some ws → family k = timePrefix →
  WSet k v ∈ ws ↔ k = timeKey (ev_nano ev) n ∧ v = String (classTag ev (ev_ct ev)) "".
Proof.
  intros Hi Hk. rewrite (index_entries _ _ _ _ _ Hi). split; [|naive_solver].
  intros [[_ (id & _ & _ & ->)]|[[_ ->]|[? ?]]]; [by rewrite entityKey_family in Hk|by rewrite typeKey_family in Hk|done].
Qed.

Lemma seq_sorted_map {A} (R : A → A → Prop) (f : Z * Event → A) L :
  StronglySorted seq_lt L → (∀ x y, x ∈ L → y ∈ L → x.1 < y.1 → R (f x) (f y)) → StronglySorted R (f <$> L).
Proof.
  induction 1 as [|x L Hs IH Hall]; intros HR; [constructor|]. rewrite fmap_cons. constructor.
  - apply IH. intros; apply HR; [by right|by right|done].
  - rewrite Forall_fmap. rewrite Forall_forall in Hall. apply Forall_forall. intros y Hy. apply HR; [left|by right|by apply Hall].
Qed.

Lemma sorted_pairs (kvs : list (string * string)) : StronglySorted str_le kvs.*1 → StronglySorted (key_le fst) kvs.
Proof.
  induction kvs as [|kv kvs IH]; rewrite ?fmap_cons; [constructor|]. intros [Hs Hall]%StronglySorted_inv.
  constructor; [auto|]. by rewrite Forall_fmap in Hall.
Qed.

Lemma sorted_key_list {A} (key : A → string) (l : list A) : StronglySorted (key_le key) l → StronglySorted str_le (key <$> l).
Proof. induction 1 as [|x l _ IH Hall]; [constructor|]. rewrite fmap_cons. constructor; [done|]. by apply Forall_fmap. Qed.

(** ** Keys and what they are looked up by *)

(** A name the index can tell from its neighbours: the key of an entity ends its id with
    a slash. *)
Definition slash_free (id : string) : Prop := contains_byte "/" id = false.

Lemma slash_free_cons c s : slash_free (String c s) ↔ c ≠ "/"%char ∧ slash_free s.
Proof.
  unfold slash_free, contains_byte. cbn [index_byte]. destruct (Ascii.eqb_spec "/" c) as [<-|Hne]; [naive_solver|].
  destruct (index_byte "/" s); simpl; naive_solver.
Qed.

Lemma slash_cut a b x y : slash_free a → slash_free b → a +++ "/" +++ x = b +++ "/" +++ y → a = b ∧ x = y.
Proof.
  revert b. induction a as [|c a IH]; intros [|d b]; rewrite ?slash_free_cons; simpl.
  - by intros _ _ [= ->].
  - intros _ [Hd _] [= <- _]. done.
  - intros [Hc _] _ [= -> _]. done.
  - intros [_ Ha] [_ Hb] [= -> E]. by destruct (IH b Ha Hb E) as [-> ->].
Qed.

Definition mentions (id : string) (ev : Event) : Prop := id ∈ touched ev ∧ id ≠ ""%string.
#[export] Instance mentions_dec id ev : Decision (mentions id ev).
Proof. unfold mentions. apply _. Defined.

Definition of_type (ct : ChangeType) (ev : Event) : Prop := ev_ct ev = ct.
#[export] Instance of_type_dec ct ev : Decision (of_type ct ev).
Proof. unfold of_type. apply _. Defined.

(** The change types the code writes. *)
Definition known_change (ct : ChangeType) : Prop := ct_canonical ct ∧ 0 <= ct_int ct < 256.

Lemma byte_of_inj a b : 0 <= a < 256 → 0 <= b < 256 → byte_of a = byte_of b → a = b.
Proof.
  intros Ha Hb E%(f_equal N_of_ascii). unfold byte_of in E. rewrite !Z.mod_small // in E. rewrite !N_ascii_embedding in E; lia.
Qed.

Lemma known_inj a b : known_change a → known_change b → byte_of (ct_int a) = byte_of (ct_int b) → a = b.
Proof. intros [Ca Ha] [Cb Hb] E. by rewrite -Ca (byte_of_inj _ _ Ha Hb E). Qed.

Lemma timeKey_seq ns n : seqFromKeySuffix (timeKey ns n) = u64 n.
Proof. unfold timeKey. rewrite string_app_assoc. apply suffix_seq. Qed.

(** Time keys order by instant, then by number. *)
Lemma timeKey_le t n t' n' : str_le (timeKey t n) (timeKey t' n') ↔ u64 t < u64 t' ∨ u64 t = u64 t' ∧ u64 n <= u64 n'.
Proof.
  unfold timeKey. rewrite str_le_app. pose proof (encodeU64_length t) as Hl. pose proof (encodeU64_length t') as Hl'.
  rewrite -(encodeU64_le n n'). unfold str_le, String.leb. rewrite compare_app_eq; [|congruence].
  rewrite encodeU64_compare. destruct (Z.compare_spec (u64 t) (u64 t')) as [E|E|E].
  - split; [by right|]. intros [?|[_ ?]]; [lia|done].
  - split; [by left|done].
  - split; [done|]. intros [?|[? _]]; lia.
Qed.

Lemma timeKeyBound_le a t n : str_le (timeKeyBound a) (timeKey t n) ↔ u64 a <= u64 t.
Proof.
  unfold timeKeyBound, timeKey. rewrite str_le_app. pose proof (encodeU64_length a) as Hl. pose proof (encodeU64_length t) as Hl'.
  rewrite -(string_app_nil_r (encodeU64 a)). unfold str_le, String.leb. rewrite compare_app_eq; [|congruence].
  rewrite encodeU64_compare. destruct (Z.compare_spec (u64 a) (u64 t)); [|split; [lia|done]|split; [done|lia]].
  split; [lia|]. intros _. by destruct (encodeU64 n).
Qed.

(** Bounds that share a prefix keep a scan within it. *)
Lemma bounds_prefix p a b k : str_le (p +++ a) k → ¬ str_le (p +++ b) k → has_prefix p k.
Proof.
  intros Ha Hb. apply prefix_bounds. split.
  - etrans; [|exact Ha]. apply prefix_bounds. by exists a.
  - pose proof (proj1 (prefix_bounds p (p +++ b)) ltac:(by exists b)) as [_ Hu]. destruct (prefixUpperBound p) as [u|]; [|done].
    intros Hk. apply Hu. etrans; [exact Hk|]. by destruct (str_le_total k (p +++ b)).
Qed.

(** The window of a time read, and the order it answers in. *)
Definition in_window (start stop : Z) (ev : Event) : Prop := u64 start <= u64 (ev_nano ev) < u64 stop.
#[export] Instance in_window_dec start stop ev : Decision (in_window start stop ev).
Proof. unfold in_window. apply _. Defined.
Definition time_order (x y : Z * Event) : Prop :=
  u64 (ev_nano x.2) < u64 (ev_nano y.2) ∨ u64 (ev_nano x.2) = u64 (ev_nano y.2) ∧ x.1 < y.1.

Definition time_record (x : Z * Event) : string * string :=
  (timeKey (ev_nano x.2) x.1, String (classTag x.2 (ev_ct x.2)) "").
Definition by_time (start stop : Z) (L : list (Z * Event)) : list (Z * Event) :=
  sort_by (λ x, (time_record x).1) (base.filter (λ x, in_window start stop x.2) L).

Lemma StronglySorted_NoDup_by {A} (f : A → Z) (l : list A) : StronglySorted Z.lt (f <$> l) → NoDup l.
Proof.
  induction l as [|x l IH]; rewrite ?fmap_cons; [constructor|]. intros [Hs Hall]%StronglySorted_inv.
  constructor; [|auto]. intros Hx. rewrite Forall_forall in Hall. specialize (Hall (f x)). rewrite list_elem_of_fmap in Hall.
  specialize (Hall ltac:(by exists x)). lia.
Qed.

Section reads.
Context {D : Type} `{!Pebble D} `{!PebbleLaws D} `{!Proto} `{!ProtoLaws}.
#[local] Abbreviation St := (Store D).
Implicit Types s : St.

(** Every event of the log has entries. *)
Definition indexed_log (L : list (Z * Event)) : Prop := ∀ n ev, (n, ev) ∈ L → is_Some (indexEvent ev n).

(** The keys of a range of an index, when a list of events accounts for them. *)
Lemma index_keys m L lower upper (key : Z * Event → string) F : represents m L →
  (∀ k, in_range lower upper k = true → index_family k) →
  (∀ k, in_range lower upper k = true →
     (∃ n ev ws v, (n, ev) ∈ L ∧ indexEvent ev n = Some ws ∧ WSet k v ∈ ws) ↔ ∃ x, x ∈ F ∧ k = key x) →
  (∀ x, x ∈ F → in_range lower upper (key x) = true) →
  StronglySorted str_le (key <$> F) → NoDup (key <$> F) →
  (range_of m lower upper).*1 = key <$> F.
Proof.
  intros HR Hfam Hent Hin Hs Hnd. set (entry := λ x, (key x, default ""%string (m !! key x))).
  assert ((entry <$> F).*1 = key <$> F) as E by (rewrite -list_fmap_compose; done).
  rewrite (range_unique m lower upper (entry <$> F)); [done| |by rewrite E|].
  - rewrite -E in Hs. by apply sorted_pairs.
  - intros k v. rewrite list_elem_of_fmap. split.
    + intros (x & [= -> ->] & Hx). split; [|auto]. destruct (proj2 (Hent (key x) (Hin x Hx))) as (n & ev & ws & v & H1 & H2 & H3); [by exists x|].
      rewrite (proj2 (rp_index m L HR (key x) v (Hfam _ (Hin x Hx)))); [done|by exists n, ev, ws].
    + intros [Hm Hr]. pose proof Hm as (n & ev & ws & H1 & H2 & H3)%(rp_index m L HR); [|auto].
      destruct (proj1 (Hent k Hr)) as (x & Hx & ->); [by exists n, ev, ws, v|]. exists x. split; [|done]. unfold entry. by rewrite Hm.
Qed.

(** Resolving entries against the log they come from. *)
Lemma resolve_one d L n : represents (contents d) L →
  match resolveSeq d n with
  | inl err => is_io err = true
  | inr None => ∀ ev, (n, ev) ∉ L
  | inr (Some ev) => 0 <= n < max_seq → (n, ev) ∈ L
  end.
Proof.
  intros HR. unfold resolveSeq. destruct (pb_get d (primaryKey n)) as [msg|v] eqn:Hg; [done|]. apply get_sound in Hg.
  destruct v as [v|].
  - symmetry in Hg. destruct (primary_key_of (primaryKey n) v (contents d) L HR) as (n' & ev & Hin & Hk & Hs & pe & Hp & He);
      [apply primary_family|done|]. rewrite Hp. intros Hn. rewrite primaryKey_seq u64_id // in Hs. subst. done.
  - intros ev Hin. destruct (rp_stored _ _ HR _ _ Hin) as (v & Hv & _). congruence.
Qed.

Lemma resolve_io ctx d L n kvs l err : represents (contents d) L →
  resolve_entries ctx (λ _, d) n kvs = (l, Some err) → is_io err = true.
Proof.
  intros HR. revert n l. induction kvs as [|[k v] kvs IH]; intros n l; cbn [resolve_entries]; [done|].
  destruct (checkEvery ctx n); [by intros [= _ <-]|]. pose proof (resolve_one d L (seqFromKeySuffix k) HR) as H1.
  destruct (resolveSeq d _) as [e|[ev|]]; [by intros [= _ <-]| |apply IH].
  destruct (resolve_entries ctx _ (S n) kvs) as [l' e'] eqn:Hr. intros [= _ ->]. by eapply IH.
Qed.

Lemma resolve_all ctx d L n kvs F l : represents (contents d) L →
  Forall2 (λ kv x, seqFromKeySuffix kv.1 = x.1 ∧ x ∈ L) kvs F →
  resolve_entries ctx (λ _, d) n kvs = (l, None) → l = F.*2.
Proof.
  intros HR HF. revert n l. induction HF as [|[k v] [m ev] kvs F [Hk Hin] _ IH]; intros n l; cbn [resolve_entries]; [by intros [= <-]|].
  destruct (checkEvery ctx n); [done|]. simpl in Hk. rewrite Hk. pose proof (resolve_one d L m HR) as H1.
  destruct (resolveSeq d m) as [e|[ev'|]]; [done| |by destruct (H1 ev)].
  destruct (resolve_entries ctx _ (S n) kvs) as [l' e'] eqn:Hr. intros [= <- ->]. rewrite fmap_cons. f_equal; [|by eapply IH].
  eapply (represents_fun _ L m); [done|apply H1; by eapply rp_range|done].
Qed.

(** A read of a range is the events that account for it, or a failure from below. *)
Lemma resolve_range_exact ctx d L lower upper key F : represents (contents d) L →
  (range_of (contents d) lower upper).*1 = key <$> F → (∀ x, x ∈ F → seqFromKeySuffix (key x) = x.1 ∧ x ∈ L) →
  match resolve_range ctx (λ _, d) d lower upper with
  | (l, None) => l = F.*2
  | (_, Some err) => is_io err = true
  end.
Proof.
  intros HR Hkeys HF. unfold resolve_range. destruct (pb_iter d lower upper) as [kvs err] eqn:Hit.
  destruct (resolve_entries ctx (λ _, d) 0 kvs) as [l [e|]] eqn:Hr; [by eapply resolve_io|]. destruct err as [msg|]; [done|]. simpl.
  apply iter_sound in Hit. rewrite -Hit in Hkeys. eapply resolve_all; [done| |done].
  clear -Hkeys HF. revert kvs Hkeys. induction F as [|x F IH]; intros [|kv kvs]; rewrite ?fmap_cons ?fmap_nil; try done.
  intros [= E E']. constructor; [rewrite E; apply HF; left|]. apply IH; [|done]. intros y Hy. apply HF. by right.
Qed.

(** An index whose keys are a prefix and the number: the read by that prefix yields the
    events filed under it, in the order of the log. *)
Lemma read_seq_index ctx s L p (P : Event → Prop) `{!∀ ev, Decision (P ev)} : store_ok s L → indexed_log L →
  (∀ k, has_prefix p k → index_family k) →
  (∀ k n ev ws, has_prefix p k → (n, ev) ∈ L → indexEvent ev n = Some ws →
     (∃ v, WSet k v ∈ ws) ↔ P ev ∧ k = p +++ encodeU64 n) →
  match readBySeqIndex ctx (λ _, s_db s) (s_db s) p with
  | inr l => l = (base.filter (λ x, P x.2) L).*2
  | inl err => is_io err = true
  end.
Proof.
  intros Hok Hidx Hfam Hent. pose proof (so_log s L Hok) as HR. set (F := base.filter (λ x, P x.2) L).
  assert (∀ x, x ∈ F ↔ P x.2 ∧ x ∈ L) as HF by (intros x; unfold F; by rewrite list_elem_of_filter).
  assert (∀ x, x ∈ L → u64 x.1 = x.1) as Hu by (intros [n ev] Hin; by eapply represents_range).
  assert (StronglySorted seq_lt F) as Hs by (apply seq_filter, (rp_sorted _ _ HR)).
  assert (∀ x, x ∈ F → seqFromKeySuffix (p +++ encodeU64 x.1) = x.1 ∧ x ∈ L) as Hsuf.
  { intros x [_ Hx]%HF. rewrite suffix_seq Hu //. }
  unfold readBySeqIndex. pose proof (resolve_range_exact ctx (s_db s) L p (prefixUpperBound p) (λ x, p +++ encodeU64 x.1) F HR) as Hr.
  destruct (resolve_range _ _ _ _ _) as [l err]. enough (match err with None => l = F.*2 | Some err => is_io err = true end) by (by destruct err).
  apply Hr; [|done]. apply (index_keys _ L); [done|..].
  - intros k Hk%in_prefix_range. auto.
  - intros k Hk%in_prefix_range. split.
    + intros (n & ev & ws & v & Hin & Hi & Hw). destruct (proj1 (Hent k n ev ws Hk Hin Hi)) as [HP ->]; [by exists v|].
      exists (n, ev). split; [by apply HF|done].
    + intros ([n ev] & [HP Hin]%HF & E). destruct (Hidx n ev Hin) as [ws Hi].
      destruct (proj2 (Hent k n ev ws Hk Hin Hi)) as [v Hv]; [done|by exists n, ev, ws, v].
  - intros x _. apply in_prefix_range. by exists (encodeU64 x.1).
  - apply seq_sorted_map; [done|]. intros x y [_ Hx]%HF [_ Hy]%HF Hlt. apply str_le_app, encodeU64_le. rewrite !Hu //. lia.
  - apply (StronglySorted_NoDup_by seqFromKeySuffix). rewrite -list_fmap_compose. apply seq_sorted_map; [done|].
    intros x y Hx Hy Hlt. simpl. by rewrite (proj1 (Hsuf x Hx)) (proj1 (Hsuf y Hy)).
Qed.

Lemma read_by_entity_log ctx id s L : store_ok s L → indexed_log L → slash_free id →
  (∀ n ev i, (n, ev) ∈ L → i ∈ touched ev → slash_free i) →
  match ReadByEntity ctx (λ _, s_db s) id s with
  | inr l => l = (base.filter (λ x, mentions id x.2) L).*2
  | inl err => is_io err = true
  end.
Proof.
  intros Hok Hidx Hid Hids. apply read_seq_index; [done|done|intros k [x ->]; left; rewrite -string_app_assoc; by apply family_app|].
  intros k n ev ws Hk Hin Hi. rewrite (entity_entries _ _ _ _ Hi); [|destruct Hk as [x ->]; rewrite -string_app_assoc; by apply family_app].
  unfold mentions, entityKey. rewrite -!string_app_assoc. split; [|naive_solver].
  intros (i & Ht & Hne & ->). destruct Hk as [x E]. rewrite -!string_app_assoc in E.
  apply string_app_inj_l, slash_cut in E as [-> _]; [done|by eapply Hids|done].
Qed.

Lemma read_by_type_log ctx ct s L : store_ok s L → indexed_log L → known_change ct →
  (∀ n ev, (n, ev) ∈ L → known_change (ev_ct ev)) →
  match ReadByType ctx (λ _, s_db s) ct s with
  | inr l => l = (base.filter (λ x, of_type ct x.2) L).*2
  | inl err => is_io err = true
  end.
Proof.
  intros Hok Hidx Hct Hcts. apply read_seq_index; [done|done|intros k [x ->]; right; left; rewrite -string_app_assoc; by apply family_app|].
  intros k n ev ws Hk Hin Hi. rewrite (type_entries _ _ _ _ Hi); [|destruct Hk as [x ->]; rewrite -string_app_assoc; by apply family_app].
  split; [|by intros [<- ->]]. intros ->. destruct Hk as [x E]. unfold typeKey in E. rewrite -string_app_assoc in E.
  apply string_app_inj_l in E. injection E as E _. by pose proof (known_inj _ _ (Hcts _ _ Hin) Hct E) as <-.
Qed.

Lemma by_time_elem start stop L x : x ∈ by_time start stop L ↔ in_window start stop x.2 ∧ x ∈ L.
Proof. unfold by_time. by rewrite sort_by_elem list_elem_of_filter. Qed.

Lemma time_keys_NoDup m L start stop : represents m L → NoDup ((λ x, (time_record x).1) <$> by_time start stop L).
Proof.
  intros HR. unfold by_time. rewrite sort_by_perm. apply (StronglySorted_NoDup_by seqFromKeySuffix). rewrite -list_fmap_compose.
  apply seq_sorted_map; [apply seq_filter, (rp_sorted _ _ HR)|]. intros [n ev] [n' ev'] [_ H1]%list_elem_of_filter [_ H2]%list_elem_of_filter Hlt.
  simpl. rewrite !timeKey_seq (represents_range _ _ _ _ HR H1) (represents_range _ _ _ _ HR H2). done.
Qed.

Lemma by_time_sorted m L start stop : represents m L → StronglySorted time_order (by_time start stop L).
Proof.
  intros HR. pose proof (time_keys_NoDup m L start stop HR) as Hnd.
  assert (∀ x, x ∈ by_time start stop L → u64 x.1 = x.1) as Hu by (intros [n ev] [_ Hin]%by_time_elem; by eapply represents_range).
  pose proof (sort_by_sorted (λ x, (time_record x).1) (base.filter (λ x, in_window start stop x.2) L)) as Hs.
  fold (by_time start stop L) in Hs. revert Hnd Hu. induction Hs as [|x l Hs IH Hall]; [constructor|]. rewrite fmap_cons.
  intros [Hx Hnd]%NoDup_cons Hu. constructor; [apply IH; [done|intros; apply Hu; by right]|].
  rewrite Forall_forall in Hall. apply Forall_forall. intros y Hy. pose proof (Hall y Hy) as Hle. unfold key_le in Hle. simpl in Hle.
  rewrite timeKey_le (Hu x ltac:(left)) (Hu y ltac:(by right)) in Hle. destruct Hle as [?|[E Hle]]; [by left|]. right. split; [done|].
  destruct (decide (x.1 = y.1)) as [E1|]; [|lia]. exfalso. apply Hx, list_elem_of_fmap. exists y. split; [|done]. unfold time_record. simpl.
  rewrite -E1. unfold timeKey, encodeU64. by rewrite E.
Qed.

Lemma time_range m L start stop : represents m L → indexed_log L →
  range_of m (timeKeyBound start) (Some (timeKeyBound stop)) = time_record <$> by_time start stop L.
Proof.
  intros HR Hidx. apply range_unique.
  - apply sorted_pairs. rewrite -list_fmap_compose. apply (sorted_key_list (λ x, (time_record x).1)), sort_by_sorted.
  - rewrite -list_fmap_compose. by eapply time_keys_NoDup.
  - intros k v. rewrite list_elem_of_fmap. unfold in_range. rewrite andb_true_iff negb_true_iff bool_decide_eq_true bool_decide_eq_false. split.
    + intros ([n ev] & [= -> ->] & [Hw Hin]%by_time_elem). simpl in *. destruct (Hidx n ev Hin) as [ws Hi].
      rewrite !timeKeyBound_le. split; [|unfold in_window in Hw; lia]. apply (rp_index m L HR); [right; right; apply timeKey_family|].
      exists n, ev, ws. split_and!; [done|done|]. by apply (time_entries _ _ _ _ _ Hi); [apply timeKey_family|].
    + intros (Hm & Hlo & Hhi). assert (family k = timePrefix) as Hfam.
      { apply (family_prefix timePrefix); [done|]. by eapply bounds_prefix. }
      apply (rp_index m L HR) in Hm as (n & ev & ws & Hin & Hi & Hw); [|by right; right].
      apply (time_entries _ _ _ _ _ Hi) in Hw as [-> ->]; [|done]. rewrite !timeKeyBound_le in Hlo, Hhi.
      exists (n, ev). split; [done|]. apply by_time_elem. split; [|done]. unfold in_window. simpl. lia.
Qed.

Lemma read_by_time_log ctx start stop s L : store_ok s L → indexed_log L →
  match ScanByTimeRange ctx (λ _, s_db s) start stop s with
  | (l, None) => l = (by_time (unix_nano start) (unix_nano stop) L).*2
  | (_, Some err) => is_io err = true
  end.
Proof.
  intros Hok Hidx. pose proof (so_log s L Hok) as HR. unfold ScanByTimeRange.
  apply (resolve_range_exact ctx (s_db s) L _ _ (λ x, (time_record x).1)); [done|by rewrite (time_range _ L) // -list_fmap_compose|].
  intros [n ev] [_ Hin]%by_time_elem. split; [|done]. simpl. rewrite timeKey_seq. by eapply represents_range.
Qed.

(** *** The classes of the time index *)

Definition ev_structural (ev : Event) : bool :=
  match ev_Relation ev with Some re => r_Structural (re_Relation re) | None => false end.

Definition class_round_trip (c : Z) : bool :=
  forallb (λ st : bool, let b := Z.of_N (N_of_ascii (byte_of (if st then Z.lor (Z.land (c mod 256) 127) 128 else Z.land (c mod 256) 127))) in
    (Z.land b 127 =? c) && Bool.eqb (negb (Z.land b 128 =? 0)) st) [true; false].

Lemma class_bytes c : 0 <= c < 128 → class_round_trip c = true.
Proof.
  intros Hc. assert (forallb class_round_trip (seqZ 0 128) = true) as Hall by (vm_compute; reflexivity).
  rewrite forallb_forall in Hall. apply Hall, list_elem_of_In, elem_of_seqZ. lia.
Qed.

(** The class byte gives back the change type and the structural flag. *)
Lemma time_entry_class x : u64 x.1 = x.1 → ct_canonical (ev_ct x.2) → 0 <= ct_int (ev_ct x.2) < 128 →
  time_entry (time_record x) = mkTimeIndexEntry x.1 (ev_ct x.2) (ev_structural x.2) true.
Proof.
  intros Hu Hc Hr. unfold time_entry, time_record. cbn [fst snd]. rewrite timeKey_seq Hu.
  pose proof (class_bytes _ Hr) as Hb. unfold class_round_trip in Hb. rewrite forallb_forall in Hb.
  specialize (Hb (ev_structural x.2)). rewrite andb_true_iff Z.eqb_eq Bool.eqb_true_iff in Hb.
  unfold classTag. fold (ev_structural x.2). destruct Hb as [E1 E2]; [destruct (ev_structural x.2); simpl; auto|]. cbv zeta.
  by rewrite E1 E2 Hc.
Qed.

Lemma visit_entries_all ctx n kvs :
  match visit_entries ctx n kvs with
  | (l, None) => l = time_entry <$> kvs
  | (_, Some err) => is_io err = true
  end.
Proof.
  revert n. induction kvs as [|kv kvs IH]; intros n; cbn [visit_entries]; [done|]. destruct (checkEvery ctx n); [done|].
  specialize (IH (S n)). destruct (visit_entries ctx (S n) kvs) as [l [err|]]; [done|]. by rewrite IH.
Qed.

Lemma scan_time_index_log ctx start stop newestFirst s L : store_ok s L → indexed_log L →
  (∀ n ev, (n, ev) ∈ L → ct_canonical (ev_ct ev) ∧ 0 <= ct_int (ev_ct ev) < 128) →
  match ScanTimeIndex ctx start stop newestFirst s with
  | (l, None) => l = (λ x, mkTimeIndexEntry x.1 (ev_ct x.2) (ev_structural x.2) true) <$>
      (if newestFirst then reverse else id) (by_time (unix_nano start) (unix_nano stop) L)
  | (_, Some err) => is_io err = true
  end.
Proof.
  intros Hok Hidx Hct. unfold ScanTimeIndex. destruct (pb_iter _ _ _) as [kvs err] eqn:Hit.
  pose proof (visit_entries_all ctx 0 (if newestFirst then reverse kvs else kvs)) as Hv.
  destruct (visit_entries _ _ _) as [l [e|]]; [done|]. destruct err as [msg|]; [done|]. simpl. subst l.
  apply iter_sound in Hit. rewrite (time_range _ L _ _ (so_log s L Hok) Hidx) in Hit. subst kvs.
  assert (∀ F : list (Z * Event), (∀ x, x ∈ F → x ∈ L) →
    time_entry <$> (time_record <$> F) = (λ x, mkTimeIndexEntry x.1 (ev_ct x.2) (ev_structural x.2) true) <$> F) as Hmap.
  { intros F HF. rewrite -list_fmap_compose. apply list_fmap_ext. intros i [n ev] Hi%list_elem_of_lookup_2. apply HF in Hi.
    destruct (Hct _ _ Hi). apply time_entry_class; [|done|done]. eapply represents_range; [apply Hok|done]. }
  destruct newestFirst; [rewrite -fmap_reverse|]; apply Hmap; intros x; rewrite ?elem_of_reverse by_time_elem; by intros [_ ?].
Qed.

End reads.
