(* ===== verification/StoreCoalesce.v ===== *)
(** * Coalescing heartbeats keeps the projection

    [CoalesceHeartbeats] of retention.go: which events go, and that a replay of what is
    left builds the same graph. *)
From S2P Require Import Prelude GoStd Values Vocabulary Entities Events Projection ProjectionInv Keys Store Retention StoreInv EngineInv StoreSpec.
Open Scope Z_scope.

(** ** Which heartbeats go *)

Definition is_beat (r : HeartbeatRec) : bool := bool_decide (hr_ct r = EntityUnchanged).

(** The heartbeats with a heartbeat just before and just after them; [prev] tells what
    came before the list. *)
Fixpoint middles (prev : bool) (recs : list HeartbeatRec) : list HeartbeatRec :=
  match recs with
  | [] => []
  | r :: rest =>
    let next := match rest with r' :: _ => is_beat r' | [] => false end in
    ((if prev && is_beat r && next then [r] else []) ++ middles (is_beat r) rest)%list
  end.

Lemma unchanged_prefix_spec recs run rest : unchanged_prefix recs = (run, rest) →
  recs = (run ++ rest)%list ∧ Forall (λ r, is_beat r = true) run ∧
  match rest with r :: _ => is_beat r = false | [] => True end.
Proof.
  revert run rest. induction recs as [|r recs IH]; intros run rest; cbn [unchanged_prefix]; [by intros [= <- <-]|].
  fold (is_beat r). destruct (is_beat r) eqn:Hr; [|by intros [= <- <-]].
  destruct (unchanged_prefix recs) as [run' rest']. intros [= <- <-]. destruct (IH run' rest' eq_refl) as (-> & Hall & Hrest).
  split_and!; [done|by constructor|done].
Qed.

Lemma middles_prev b recs : match recs with r :: _ => is_beat r = false | [] => True end → middles b recs = middles false recs.
Proof. destruct recs as [|r recs]; [done|]. simpl. intros ->. by rewrite !andb_false_r. Qed.

Lemma middles_run run rest : Forall (λ r, is_beat r = true) run →
  match rest with r :: _ => is_beat r = false | [] => True end →
  middles true (run ++ rest)%list = (removelast run ++ middles false rest)%list.
Proof.
  intros Hrun Hrest. induction Hrun as [|r run Hr Hall IH]; [by apply middles_prev|].
  cbn [middles app]. rewrite Hr IH. destruct Hall as [|r' run Hr' _]; simpl.
  - destruct rest as [|x rest]; [done|]. by rewrite Hrest.
  - by rewrite Hr'.
Qed.

(** The loop over runs finds exactly those. *)
Lemma run_middles_spec fuel recs : (length recs <= fuel)%nat → run_middles fuel recs = middles false recs.
Proof.
  revert recs. induction fuel as [|fuel IH]; intros [|r recs] Hlen; simpl in *; [done|lia|done|].
  fold (is_beat r). destruct (is_beat r) eqn:Hr; [|by apply IH; lia].
  destruct (unchanged_prefix recs) as [run rest] eqn:Hp. destruct (unchanged_prefix_spec _ _ _ Hp) as (-> & Hall & Hrest).
  rewrite middles_run // IH; [done|]. rewrite length_app in Hlen. lia.
Qed.

Lemma middles_beats b recs r : r ∈ middles b recs → r ∈ recs ∧ is_beat r = true.
Proof.
  revert b. induction recs as [|x recs IH]; intros b; simpl; [by intros ?%elem_of_nil|].
  intros [Hr|Hr]%elem_of_app; [|destruct (IH _ Hr); split; [by right|done]].
  destruct (b && is_beat x && _) eqn:E; [|by apply elem_of_nil in Hr]. apply list_elem_of_singleton in Hr as ->.
  apply andb_true_iff in E as [[_ ?]%andb_true_iff _]. split; [left|done].
Qed.

(** ** The records of an entity *)

Definition rec_of (id : string) (x : Z * Event) : option HeartbeatRec :=
  match ev_Entity x.2 with
  | Some ee => if decide (e_ID (ee_Entity ee) = id) then Some (mkRec x.1 (ee_ChangeType ee) (unix_nano (ee_EventTime ee))) else None
  | None => None
  end.
Definition recs_of (id : string) (L : list (Z * Event)) : list HeartbeatRec := omap (rec_of id) L.

Lemma note_entities l id : default [] (foldl note_entity ∅ l !! id) = recs_of id (visited l) ∧
  (∀ recs, foldl note_entity ∅ l !! id = Some recs → recs = recs_of id (visited l)).
Proof.
  enough (∀ id, default [] (foldl note_entity ∅ l !! id) = recs_of id (visited l)) as Hd.
  { split; [done|]. intros recs E. rewrite -Hd E. done. }
  clear id. induction l as [|[[n b] ev] l IH] using rev_ind; intros id; [done|]. rewrite foldl_app. simpl.
  unfold visited in *. rewrite map_app. unfold recs_of in *. rewrite omap_app -IH. unfold note_entity. simpl. unfold rec_of. simpl.
  destruct (ev_Entity ev) as [ee|]; [|by rewrite app_nil_r].
  destruct (decide (e_ID (ee_Entity ee) = id)) as [<-|Hne]; [by rewrite lookup_insert_eq|]. rewrite lookup_insert_ne // app_nil_r. done.
Qed.

Lemma recs_elem id L r : r ∈ recs_of id L → ∃ ev ee, (hr_seq r, ev) ∈ L ∧ ev_Entity ev = Some ee ∧ e_ID (ee_Entity ee) = id ∧
  hr_ct r = ee_ChangeType ee ∧ hr_nano r = unix_nano (ee_EventTime ee).
Proof.
  unfold recs_of, rec_of. intros ([n ev] & Hin & Hr)%list_elem_of_omap. simpl in Hr.
  destruct (ev_Entity ev) as [ee|] eqn:He; [|done]. case_decide; [|done]. injection Hr as <-. by exists ev, ee.
Qed.

(** The numbers a pass drops. *)
Definition dropped (L : list (Z * Event)) (n : Z) : Prop := ∃ id, n ∈ hr_seq <$> middles false (recs_of id L).

Definition beat_event (ev : Event) : Prop :=
  match ev_Entity ev with Some ee => ee_ChangeType ee = EntityUnchanged | None => False end.

Section coalesce.
Context {D : Type} `{!Pebble D} `{!PebbleLaws D} `{!Proto} `{!ProtoLaws}.
#[local] Abbreviation St := (Store D).
Implicit Types s : St.

Lemma beat_keys L id r : r ∈ middles false (recs_of id L) →
  ∃ x, x ∈ L ∧ x.1 = hr_seq r ∧ beat_event x.2 ∧ heartbeat_keys id r = map WDelete (eventKeys x.2 x.1).
Proof.
  intros [Hr Hb]%middles_beats. destruct (recs_elem id L r Hr) as (ev & ee & Hin & He & Hid & Hct & Hn).
  exists (hr_seq r, ev). unfold is_beat in Hb. apply bool_decide_eq_true in Hb.
  split_and!; [done|done|unfold beat_event; rewrite He; congruence|]. unfold heartbeat_keys, eventKeys. simpl. by rewrite He Hid Hct Hn.
Qed.

Lemma beat_keys_all L (doomed : list (string * HeartbeatRec)) : (∀ ir, ir ∈ doomed → ir.2 ∈ middles false (recs_of ir.1 L)) →
  ∃ X : list (Z * Event), X.*1 = (λ ir, hr_seq ir.2) <$> doomed ∧ (∀ x, x ∈ X → x ∈ L ∧ beat_event x.2) ∧
    mjoin (map (λ ir, heartbeat_keys ir.1 ir.2) doomed) = map WDelete (mjoin (map (λ ne, eventKeys ne.2 ne.1) X)).
Proof.
  induction doomed as [|[id r] doomed IH]; intros Hall; [by exists []; split_and!; [|intros ? ?%elem_of_nil|]|].
  destruct IH as (X & HX & Hin & Hk); [intros; apply Hall; by right|].
  destruct (beat_keys L id r) as (x & Hx & Hn & Hb & Hkx); [apply (Hall (id, r)); left|]. exists (x :: X). split_and!.
  - rewrite !fmap_cons. by f_equal.
  - intros y [->|Hy]%elem_of_cons; auto.
  - cbn [map mjoin list_join]. cbn [fst snd]. by rewrite map_app Hkx Hk.
Qed.

(** What a scan dooms. *)
Lemma doomed_beats_spec l id rc : (id, rc) ∈ doomed_beats l ↔ rc ∈ middles false (recs_of id (visited l)).
Proof.
  unfold doomed_beats. rewrite list_elem_of_join. destruct (note_entities l id) as [Hdef Hsome]. split.
  - intros (ks & Hin & ([id' recs] & -> & Hm%elem_of_map_to_list)%list_elem_of_fmap). simpl in Hin.
    apply list_elem_of_fmap in Hin as (rc' & [= <- <-] & Hin). rewrite run_middles_spec // in Hin. by rewrite -(Hsome recs).
  - intros Hin. destruct (foldl note_entity ∅ l !! id) as [recs|] eqn:Hm.
    + rewrite -(Hsome recs) // in Hin. exists (map (pair id) (middles false recs)). split; [apply list_elem_of_fmap; by exists rc|].
      apply list_elem_of_fmap. exists (id, recs). split; [simpl; by rewrite run_middles_spec|by apply elem_of_map_to_list].
    + simpl in Hdef. rewrite -Hdef in Hin. by apply elem_of_nil in Hin.
Qed.

Lemma doomed_events l : ∃ X : list (Z * Event), length X = length (doomed_beats l) ∧
  (∀ x, x ∈ X → x ∈ visited l ∧ beat_event x.2) ∧ (∀ n, n ∈ X.*1 ↔ dropped (visited l) n) ∧
  mjoin (map (λ ir, heartbeat_keys ir.1 ir.2) (doomed_beats l)) = map WDelete (mjoin (map (λ ne, eventKeys ne.2 ne.1) X)).
Proof.
  destruct (beat_keys_all (visited l) (doomed_beats l)) as (X & HX & HXL & Hkeys); [by intros [id rc] ?%doomed_beats_spec|].
  exists X. split_and!; [by rewrite -(length_fmap fst X) HX length_fmap|done| |done].
  intros n. rewrite HX. unfold dropped. split.
  - intros ([id rc] & -> & Hin%doomed_beats_spec)%list_elem_of_fmap. exists id. apply list_elem_of_fmap. by exists rc.
  - intros (id & (rc & -> & Hin%doomed_beats_spec)%list_elem_of_fmap). apply list_elem_of_fmap. by exists (id, rc).
Qed.

(** A scan that reports no error saw the whole log. *)
Lemma scan_complete s L l : store_ok s L → snapshotScan (s_db s) = (l, None) → visited l = L.
Proof.
  intros Hok Hscan. destruct (scan_all s L Hok) as (l' & Hl' & Hv); [|congruence].
  unfold snapshotScan, scan_db in Hscan. destruct (pb_iter _ _ _) as [kvs [msg|]]; [|done]. by destruct (decode_records kvs) as [? [?|]].
Qed.

(** A pass leaves the log without the heartbeats between heartbeats, or as it was. *)
Lemma coalesce_log s L s' r : store_ok s L → CoalesceHeartbeats s = (s', r) →
  match r with
  | inl _ => store_ok s' L
  | inr count => ∃ X : list (Z * Event), store_ok s' (base.filter (λ x, x.1 ∉ X.*1) L) ∧ count = Z.of_nat (length X) ∧
      (∀ x, x ∈ X → x ∈ L ∧ beat_event x.2) ∧ ∀ n, n ∈ X.*1 ↔ dropped L n
  end.
Proof.
  intros Hok. unfold CoalesceHeartbeats. destruct (snapshotScan (s_db s)) as [l [err|]] eqn:Hscan; [by intros [= <- <-]|].
  pose proof (scan_complete s L l Hok Hscan) as <-.
  destruct (doomed_events l) as (X & Hlen & HX & Hdrop & Hkeys). destruct (doomed_beats l) as [|ir doomed].
  - intros [= <- <-]. apply length_zero_iff_nil in Hlen as ->. exists []. split_and!; try done.
    rewrite filter_all; [done|]. intros x _. apply not_elem_of_nil.
  - rewrite Hkeys. destruct (pb_commit _ _) as [d [msg|]] eqn:Hc; intros [= <- <-].
    + apply commit_failed in Hc. by apply (store_ok_ext s).
    + apply commit_ok in Hc. exists X. split_and!; try done; [|by rewrite Hlen].
      apply (store_remove s _ d X None); [done|intros; by apply HX|]. by rewrite app_nil_r.
Qed.

(** ** The projection of what is left *)

(** Every heartbeat of the log names an entity that is live by then. *)
Fixpoint beats_live (now : Time) (g : Graph) (evs : list Event) : Prop :=
  match evs with
  | [] => True
  | ev :: evs => heartbeat_ok g ev ∧ beats_live now (Apply now ev g) evs
  end.

(** The same, decided. *)
Fixpoint beats_check (now : Time) (g : Graph) (evs : list Event) : bool :=
  match evs with
  | [] => true
  | ev :: evs =>
    match ev_Entity ev with
    | Some ee => negb (bool_decide (ee_ChangeType ee = EntityUnchanged)) || bool_decide (is_Some (live g !! e_ID (ee_Entity ee)))
    | None => true
    end && beats_check now (Apply now ev g) evs
  end.
Lemma beats_check_live now g evs : beats_check now g evs = true → beats_live now g evs.
Proof.
  revert g. induction evs as [|ev evs IH]; intros g; simpl; [done|]. rewrite andb_true_iff. intros [Hb Hbs]. split; [|auto].
  unfold heartbeat_ok. destruct (ev_Entity ev) as [ee|]; [|done]. intros Hct. rewrite Hct in Hb. by apply bool_decide_eq_true in Hb.
Qed.

Lemma beat_noop now g ev : beat_event ev → heartbeat_ok g ev → Apply now ev g = g.
Proof.
  unfold beat_event, heartbeat_ok, Apply, applyEntity. destruct (ev_Entity ev) as [ee|]; [|done]. intros -> Hl.
  destruct Hl as [e He]; [done|]. apply live_lookup in He as [-> _]. done.
Qed.

Lemma replay_without_beats now (L : list (Z * Event)) (P : Z * Event → Prop) `{!∀ x, Decision (P x)} g :
  (∀ x, x ∈ L → ¬ P x → beat_event x.2) → beats_live now g L.*2 → Replay now (base.filter P L).*2 g = Replay now L.*2 g.
Proof.
  revert g. induction L as [|[n ev] L IH]; intros g HP Hl; [done|]. destruct Hl as [Hb Hl]. rewrite filter_cons. case_decide as Hx.
  - rewrite !fmap_cons. apply IH; [intros; apply HP; [by right|done]|done].
  - rewrite IH; [|intros; apply HP; [by right|done]|].
    + simpl. by rewrite (beat_noop now g ev (HP (n, ev) ltac:(left) Hx) Hb).
    + rewrite (beat_noop now g ev (HP (n, ev) ltac:(left) Hx) Hb) in Hl. done.
Qed.

(** C36. Coalescing loses nothing the projection shows. A pass drops exactly the
    heartbeats whose neighbours among the events of their entity are heartbeats too,
    and leaves every other event in place; since heartbeats of live
    entities change nothing, a replay of what is left builds the identical graph. A
    failed pass leaves the log as it was. *)
Theorem coalesce_keeps_projection (s : St) (L : list (Z * Event)) (s' : St) (r : StoreError + Z) (now : Time) (g : Graph)
    (Hok : store_ok s L) (Hlive : beats_live now g L.*2) (Hrun : CoalesceHeartbeats s = (s', r)) :
  match r with
  | inl _ => store_ok s' L
  | inr count => ∃ L', store_ok s' L' ∧ Replay now L'.*2 g = Replay now L.*2 g ∧
      ∀ n ev, (n, ev) ∈ L' ↔ (n, ev) ∈ L ∧ ¬ dropped L n
  end.
Proof.
  pose proof (coalesce_log s L s' r Hok Hrun) as Hc. destruct r as [err|count]; [done|]. destruct Hc as (X & Hok' & -> & HX & Hd).
  exists (base.filter (λ x, x.1 ∉ X.*1) L). split_and!; [done| |].
  - apply replay_without_beats; [|done]. intros [n ev] Hx Hn. apply dec_stable in Hn. apply list_elem_of_fmap in Hn as ([n' ev'] & E & Hin).
    simpl in E. subst n'. destruct (HX _ Hin) as [HyL Hbe]. by rewrite (represents_fun _ _ _ _ _ (so_log _ _ Hok) Hx HyL).
  - intros n ev. rewrite list_elem_of_filter. simpl. rewrite Hd. tauto.
Qed.
End coalesce.
