(* ===== verification/LogState.v ===== *)
(** * What a log says of each thing

    The graph a log replays to, thing by thing: an entity or a relation is what the last
    event about it says. Heartbeats only restate, up to an equivalence of entities the
    caller chooses; retention relies on nothing else. *)
From S2P Require Import Prelude GoStd Values Vocabulary Entities Events Projection ProjectionInv Engine EngineInv.
Open Scope Z_scope.

(** ** Things and their stories *)

(** What an event is about: an entity, or a relation. *)
Definition thing (ev : Event) : option (bool * string) :=
  match ev_Entity ev, ev_Relation ev with
  | Some ee, _ => Some (false, e_ID (ee_Entity ee))
  | None, Some re => Some (true, r_ID (re_Relation re))
  | None, None => None
  end.

(** What it leaves of it. *)
Definition state_of (ev : Event) : option (Entity + Relation) :=
  match ev_Entity ev, ev_Relation ev with
  | Some ee, _ => if bool_decide (ee_ChangeType ee = EntityDeleted) then None else Some (inl (ee_Entity ee))
  | None, Some re => if bool_decide (re_ChangeType re = RelationRemoved) then None else Some (inr (re_Relation re))
  | None, None => None
  end.

Definition is_heartbeat (ev : Event) : Prop :=
  match ev_Entity ev with Some ee => ee_ChangeType ee = EntityUnchanged | None => False end.

#[export] Instance is_heartbeat_dec ev : Decision (is_heartbeat ev).
Proof. unfold is_heartbeat. destruct (ev_Entity ev); apply _. Defined.

(** The kinds of change the engine writes. *)
Definition known_kind (ev : Event) : Prop :=
  match ev_Entity ev, ev_Relation ev with
  | Some ee, _ => IsEntity (ee_ChangeType ee) = true ∧ ct_canonical (ee_ChangeType ee)
  | None, Some re => IsRelation (re_ChangeType re) = true ∧ ct_canonical (re_ChangeType re)
  | None, None => False
  end.

Lemma entity_kinds c : IsEntity c = true → ct_canonical c →
  c ∈ [EntityCreated; EntityDeleted; EntityIdentityChanged; EntityAttributeUpdated; EntityStateChanged; EntityUnchanged].
Proof.
  unfold IsEntity, ct_canonical. rewrite andb_true_iff !Z.leb_le. simpl. intros Hr <-.
  assert (ct_int c ∈ [1; 2; 3; 4; 5; 6]) as Hin by (apply list_elem_of_In; simpl; lia).
  repeat (apply elem_of_cons in Hin as [->|Hin]; [simpl; set_solver|]). by apply elem_of_nil in Hin.
Qed.
Lemma relation_kinds c : IsRelation c = true → ct_canonical c → c ∈ [RelationAdded; RelationRemoved; RelationAttributeChanged].
Proof.
  unfold IsRelation, ct_canonical. rewrite andb_true_iff !Z.leb_le. simpl. intros Hr <-.
  assert (ct_int c ∈ [7; 8; 9]) as Hin by (apply list_elem_of_In; simpl; lia).
  repeat (apply elem_of_cons in Hin as [->|Hin]; [simpl; set_solver|]). by apply elem_of_nil in Hin.
Qed.

Definition story (t : bool * string) (E : list Event) : list Event := base.filter (λ ev, thing ev = Some t) E.

Lemma story_app t E E' : story t (E ++ E')%list = (story t E ++ story t E')%list.
Proof. apply filter_app. Qed.
Lemma story_one t ev : story t [ev] = if decide (thing ev = Some t) then [ev] else [].
Proof. done. Qed.

Section state.
Context (same : relation Entity) `{!Equivalence same}.

Definition same_state (p q : Entity + Relation) : Prop :=
  match p, q with inl e, inl e' => same e e' | inr r, inr r' => r = r' | _, _ => False end.

#[export] Instance same_state_equiv : Equivalence same_state.
Proof.
  split.
  - intros [e|r]; simpl; [reflexivity|done].
  - intros [e|r] [e'|r']; simpl; try done; by symmetry.
  - intros [e|r] [e'|r'] [e''|r'']; simpl; try done; intros; by etrans.
Qed.

(** [b] says of a live thing what [a] said. *)
Definition restates (a b : Event) : Prop :=
  ∃ p q, state_of a = Some p ∧ state_of b = Some q ∧ same_state p q.

Lemma restates_trans a b c : restates a b → restates b c → restates a c.
Proof.
  intros (p & q & Ha & Hb & Hpq) (q' & r & Hb' & Hc & Hqr). assert (q = q') as <- by congruence.
  exists p, r. split_and!; [done|done|by etrans].
Qed.

(** A heartbeat restates the event before it. *)
Definition steady (S : list Event) : Prop :=
  ∀ S1 b S2 c, S = (S1 ++ b :: S2)%list → is_heartbeat b → last S1 = Some c → restates c b.

Lemma steady_prefix S S' : steady (S ++ S')%list → steady S.
Proof. intros Hs S1 b S2 c ->. apply (Hs S1 b (S2 ++ S')%list). by rewrite -(assoc_L app). Qed.

Definition final (S : list Event) : option (Entity + Relation) := last S ≫= state_of.
Definition final_entity (t : string) (E : list Event) : option Entity :=
  match final (story (false, t) E) with Some (inl e) => Some e | _ => None end.
Definition final_relation (t : string) (E : list Event) : option Relation :=
  match final (story (true, t) E) with Some (inr r) => Some r | _ => None end.

Lemma final_snoc_entity id E ev : final_entity id (E ++ [ev])%list =
  if decide (thing ev = Some (false, id)) then match state_of ev with Some (inl e) => Some e | _ => None end else final_entity id E.
Proof.
  unfold final_entity, final. rewrite story_app story_one. case_decide; [by rewrite last_snoc|by rewrite app_nil_r].
Qed.
Lemma final_snoc_relation id E ev : final_relation id (E ++ [ev])%list =
  if decide (thing ev = Some (true, id)) then match state_of ev with Some (inr r) => Some r | _ => None end else final_relation id E.
Proof.
  unfold final_relation, final. rewrite story_app story_one. case_decide; [by rewrite last_snoc|by rewrite app_nil_r].
Qed.

(** What a graph has to do with a log. *)
Record tells (E : list Event) (g : Graph) : Prop := {
  tl_live : ∀ id, option_Forall2 same (live g !! id) (final_entity id E);
  tl_relations : ∀ id, g_relations g !! id = final_relation id E;
  tl_known : ∀ id, is_Some (g_entities g !! id) → story (false, id) E ≠ [];
}.

(** Writing an entity. *)
Lemma tells_put E g g' ev ee : tells E g → ev_Entity ev = Some ee → ee_ChangeType ee ≠ EntityDeleted →
  live g' = <[e_ID (ee_Entity ee) := ee_Entity ee]> (live g) → g_relations g' = g_relations g →
  (∀ id, is_Some (g_entities g' !! id) → id = e_ID (ee_Entity ee) ∨ is_Some (g_entities g !! id)) → tells (E ++ [ev]) g'.
Proof.
  intros [H1 H2 H3] He Hct El Er Hk. assert (thing ev = Some (false, e_ID (ee_Entity ee))) as Ht by (unfold thing; by rewrite He).
  assert (state_of ev = Some (inl (ee_Entity ee))) as Hs by (unfold state_of; rewrite He bool_decide_eq_false_2 //). split.
  - intros id. rewrite El final_snoc_entity Ht Hs. destruct (decide (id = e_ID (ee_Entity ee))) as [->|Hne].
    + rewrite lookup_insert_eq decide_True //.
    + rewrite lookup_insert_ne // decide_False; [apply H1|congruence].
  - intros id. rewrite Er final_snoc_relation decide_False; [apply H2|congruence].
  - intros id Hid. rewrite story_app story_one Ht. intros E0. apply app_eq_nil in E0 as [E0 E1].
    destruct (Hk id Hid) as [->|Hg]; [by rewrite decide_True in E1|by apply (H3 id)].
Qed.

Lemma tells_putEntity E g h ev ee : tells E g → ev_Entity ev = Some ee → ee_ChangeType ee ≠ EntityDeleted →
  h = unhash (ee_Entity ee) g ∨ h = g → tells (E ++ [ev]) (putEntity (ee_Entity ee) h).
Proof.
  intros Ht He Hne Hh. assert (live h = live g ∧ g_relations h = g_relations g ∧ g_entities h = g_entities g) as (E1 & E2 & E3).
  { destruct Hh as [-> | ->]; [|done]. by destruct (unhash_frame (ee_Entity ee) g) as (? & _ & -> & _ & _ & _ & _ & -> & _). }
  apply (tells_put E g _ ev ee); [done|done|done|by rewrite put_live E1|by rewrite (proj1 (put_frame _ _)) E2|].
  intros id. rewrite put_entities E3. destruct (decide (id = e_ID (ee_Entity ee))); [by left|]. rewrite lookup_insert_ne //. by right.
Qed.

Lemma tells_delete now E g ev ee : tells E g → ev_Entity ev = Some ee → ee_ChangeType ee = EntityDeleted →
  tells (E ++ [ev]) (deleteEntity now ee g).
Proof.
  intros [H1 H2 H3] He Hct. assert (thing ev = Some (false, e_ID (ee_Entity ee))) as Ht by (unfold thing; by rewrite He).
  assert (state_of ev = None) as Hs by (unfold state_of; by rewrite He Hct).
  destruct (delete_effect now ee g) as (El & Hsub & _ & Er). split.
  - intros id. rewrite El final_snoc_entity Ht Hs. destruct (decide (id = e_ID (ee_Entity ee))) as [->|Hne].
    + rewrite lookup_delete_eq decide_True //.
    + rewrite lookup_delete_ne // decide_False; [apply H1|congruence].
  - intros id. rewrite Er final_snoc_relation decide_False; [apply H2|congruence].
  - intros id [x Hx]. rewrite story_app. intros [E0 _]%app_eq_nil. apply (H3 id); [|done]. exists x. by eapply lookup_weaken.
Qed.

(** A heartbeat of a thing the log knows changes nothing; of one it does not, it is its
    first word. *)
Lemma tells_beat E g ev ee : tells E g → ev_Entity ev = Some ee → ee_ChangeType ee = EntityUnchanged →
  (∀ c, last (story (false, e_ID (ee_Entity ee)) E) = Some c → restates c ev) →
  tells (E ++ [ev]) (match g_entities g !! e_ID (ee_Entity ee) with Some _ => g | None => putEntity (ee_Entity ee) g end).
Proof.
  intros Ht He Hct Hb. destruct (g_entities g !! e_ID (ee_Entity ee)) as [e0|] eqn:Hg;
    [|apply (tells_putEntity E g g ev ee); [done|done|by rewrite Hct|by right]].
  destruct Ht as [H1 H2 H3]. assert (thing ev = Some (false, e_ID (ee_Entity ee))) as Ht by (unfold thing; by rewrite He).
  assert (state_of ev = Some (inl (ee_Entity ee))) as Hs by (unfold state_of; rewrite He Hct //).
  destruct (last (story (false, e_ID (ee_Entity ee)) E)) as [c|] eqn:Hl.
  2:{ apply last_None in Hl. destruct (H3 (e_ID (ee_Entity ee))); [by rewrite Hg|done]. }
  destruct (Hb c eq_refl) as (p & q & Hp & Hq & Hpq). rewrite Hs in Hq. injection Hq as <-. split.
  - intros id. rewrite final_snoc_entity Ht Hs. case_decide as Hid; [|apply H1]. injection Hid as <-.
    pose proof (H1 (e_ID (ee_Entity ee))) as H1'. unfold final_entity, final in H1'. rewrite Hl /= Hp in H1'.
    destruct p as [e|r]; [|done]. inversion H1' as [x y Hxy Hx Hy|]; subst. constructor. by etrans.
  - intros id. rewrite final_snoc_relation decide_False; [apply H2|congruence].
  - intros id Hid. rewrite story_app. intros [E0 _]%app_eq_nil. by apply (H3 id).
Qed.

Lemma tells_relation E g ev re : tells E g → ev_Entity ev = None → ev_Relation ev = Some re →
  IsRelation (re_ChangeType re) = true → ct_canonical (re_ChangeType re) → tells (E ++ [ev]) (applyRelation re g).
Proof.
  intros [H1 H2 H3] He Hr Hk Hc. assert (thing ev = Some (true, r_ID (re_Relation re))) as Ht by (unfold thing; by rewrite He Hr).
  assert (live (applyRelation re g) = live g ∧ g_entities (applyRelation re g) = g_entities g ∧ g_relations (applyRelation re g) =
    match state_of ev with Some _ => <[r_ID (re_Relation re) := re_Relation re]> (g_relations g) | None => delete (r_ID (re_Relation re)) (g_relations g) end)
    as (El & Ee & Er).
  { unfold state_of, applyRelation. rewrite He Hr. pose proof (relation_kinds _ Hk Hc) as Hin.
    repeat (apply elem_of_cons in Hin as [->|Hin]; [done|]). by apply elem_of_nil in Hin. }
  split.
  - intros id. rewrite El final_snoc_entity decide_False; [apply H1|congruence].
  - intros id. rewrite Er final_snoc_relation Ht. destruct (decide (id = r_ID (re_Relation re))) as [->|Hne].
    + rewrite decide_True //. unfold state_of. rewrite He Hr. case_bool_decide; [by rewrite lookup_delete_eq|by rewrite lookup_insert_eq].
    + rewrite decide_False; [|congruence]. rewrite -H2. destruct (state_of ev); [by rewrite lookup_insert_ne|by rewrite lookup_delete_ne].
  - intros id. rewrite Ee story_app. intros Hid [E0 _]%app_eq_nil. by apply (H3 id).
Qed.

Lemma tells_step now E g ev : tells E g → known_kind ev →
  (∀ t c, thing ev = Some t → is_heartbeat ev → last (story t E) = Some c → restates c ev) → tells (E ++ [ev]) (Apply now ev g).
Proof.
  intros Ht Hk Hb. unfold Apply, known_kind, is_heartbeat, thing in *. destruct (ev_Entity ev) as [ee|] eqn:He.
  - destruct Hk as [Hk Hc]. pose proof (entity_kinds _ Hk Hc) as Hin. unfold applyEntity.
    repeat (apply elem_of_cons in Hin as [Hct|Hin]; [rewrite Hct|]); [..|by apply elem_of_nil in Hin].
    + by apply (tells_putEntity E g g); [..|rewrite Hct|right].
    + by apply tells_delete.
    + by apply (tells_putEntity E g (unhash (ee_Entity ee) g)); [..|rewrite Hct|left].
    + by apply (tells_putEntity E g g); [..|rewrite Hct|right].
    + by apply (tells_putEntity E g g); [..|rewrite Hct|right].
    + apply tells_beat; [done|done|done|]. intros c Hl. by eapply Hb.
  - destruct (ev_Relation ev) as [re|] eqn:Hr; [|done]. destruct Hk. by apply tells_relation.
Qed.

(** A log of known changes in which heartbeats only restate replays to the last word on
    every thing. *)
Lemma replay_tells now E : Forall known_kind E → (∀ t, steady (story t E)) → tells E (Replay now E New).
Proof.
  induction E as [|ev E IH] using rev_ind; intros Hk Hs.
  { split; [intros id; unfold live; rewrite map_filter_empty lookup_empty; constructor|done|]. intros id [x Hx]. by rewrite lookup_empty in Hx. }
  apply Forall_app in Hk as [Hk Hev]. apply Forall_cons in Hev as [Hev _]. unfold Replay in *. rewrite foldl_app. apply tells_step; [|exact Hev|].
  - apply IH; [exact Hk|]. intros t. specialize (Hs t). rewrite story_app in Hs. by eapply steady_prefix.
  - intros t c Ht Hb Hl. specialize (Hs t). rewrite story_app story_one decide_True // in Hs. by apply (Hs (story t E) ev []).
Qed.
End state.
