(* ===== verification/StorePrune.v ===== *)
(** * Pruning keeps the projection

    [PruneOlderThan] of retention.go: a log whose things are each told in order says the
    same of every thing after a pass, and is still told in order, so that passes can
    follow each other. *)
From S2P Require Import Prelude GoStd Values Vocabulary Entities Events Projection ProjectionInv Engine EngineInv.
From S2P Require Import Keys Store Retention StoreInv StoreSpec StoreReads StoreCoalesce LogState.
Open Scope Z_scope.

(** ** Dropping from a story *)

Section drop.
Context (same : relation Entity) `{!Equivalence same}.
#[local] Abbreviation restates := (restates same).
#[local] Abbreviation steady := (steady same).

(** An event either restates the one before it, or was recorded after everything before
    it. *)
Definition orderly (S : list Event) : Prop :=
  ∀ S1 b S2, S = (S1 ++ b :: S2)%list →
    (∃ c, last S1 = Some c ∧ restates c b) ∨ (∀ a, a ∈ S1 → recordedAtOf a <= recordedAtOf b).

(** A story [W] of numbered events, some of which are [kept]: a dropped one is [old],
    nothing old survives before it, and the last word on a live thing is kept. *)
Context (W : list (Z * Event)) (kept : Z * Event → Prop) `{!∀ x, Decision (kept x)} (cutoff : Z).
Context (Hold : ∀ b, b ∈ W → ¬ kept b → recordedAtOf b.2 < cutoff).
Context (Hsuf : ∀ W1 b W2 a, W = (W1 ++ b :: W2)%list → ¬ kept b → a ∈ W1 → recordedAtOf a.2 < cutoff → ¬ kept a).
Context (Hlast : ∀ z, last W = Some z → is_Some (state_of z.2) → kept z).
Context (Hsteady : steady W.*2) (Horder : orderly W.*2).

Lemma order_at W1 b W2 : W = (W1 ++ b :: W2)%list →
  (∃ c, last W1 = Some c ∧ restates c.2 b.2) ∨ (∀ a, a ∈ W1 → recordedAtOf a.2 <= recordedAtOf b.2).
Proof.
  intros E. destruct (Horder W1.*2 b.2 W2.*2) as [(c & Hc & Hr)|Ha].
  - by rewrite E fmap_app fmap_cons.
  - left. rewrite fmap_last in Hc. apply fmap_Some in Hc as (x & Hx & ->). by exists x.
  - right. intros a Hin. apply Ha, list_elem_of_fmap. by exists a.
Qed.

(** What survives before a dropped event says what it said. *)
Lemma survivor W1 : ∀ b W2, W = (W1 ++ b :: W2)%list → ¬ kept b →
  match last (base.filter kept W1) with None => True | Some y => restates y.2 b.2 end.
Proof.
  induction W1 as [|c W1 IH] using rev_ind; intros b W2 E Hb; [by rewrite filter_nil|].
  destruct (order_at (W1 ++ [c])%list b W2 E) as [(c' & Hc & Hr)|Ha].
  - rewrite last_snoc in Hc. injection Hc as <-. rewrite filter_app filter_cons filter_nil. case_decide as Hkc; [by rewrite last_snoc|].
    rewrite app_nil_r. specialize (IH c (b :: W2)). rewrite -(assoc_L app) in E. specialize (IH E Hkc).
    destruct (last (base.filter kept W1)); [|done]. by eapply restates_trans.
  - rewrite filter_none; [done|]. intros a Hin. eapply Hsuf; [done|done|done|]. eapply Z.le_lt_trans; [by apply Ha|].
    apply Hold; [|done]. rewrite E. set_solver.
Qed.

(** The predecessor of a surviving event. *)
Lemma survivor_pred W1 b W2 c : W = (W1 ++ b :: W2)%list → last (base.filter kept W1) = Some c →
  ∀ p, last W1 = Some p → restates p.2 b.2 → restates c.2 b.2.
Proof.
  intros E Hc p Hp Hr. apply last_Some in Hp as [W1' ->]. rewrite filter_app filter_cons filter_nil in Hc.
  case_decide as Hk; [rewrite last_snoc in Hc; by injection Hc as <-|]. rewrite app_nil_r in Hc.
  rewrite -(assoc_L app) in E. pose proof (survivor W1' p (b :: W2) E Hk) as Hs. rewrite Hc in Hs. by eapply restates_trans.
Qed.

Lemma filter_split (l F1 F2 : list (Z * Event)) b : base.filter kept l = (F1 ++ b :: F2)%list →
  ∃ l1 l2, l = (l1 ++ b :: l2)%list ∧ base.filter kept l1 = F1.
Proof.
  revert F1. induction l as [|x l IH]; intros F1; [by destruct F1|]. rewrite filter_cons. case_decide as Hx.
  - destruct F1 as [|y F1]; intros [= -> E]; [by exists [], l|]. destruct (IH F1 E) as (l1 & l2 & -> & <-).
    exists (y :: l1), l2. split; [done|]. by rewrite filter_cons_True.
  - intros E. destruct (IH F1 E) as (l1 & l2 & -> & <-). exists (x :: l1), l2. split; [done|]. by rewrite filter_cons_False.
Qed.

(** Baselines: copies of the last word, after everything. *)
Context (B : list Event) (HB : ∀ b, b ∈ B → ∃ z, last W = Some z ∧ is_Some (state_of z.2) ∧ state_of b = state_of z.2).
#[local] Abbreviation W' := ((base.filter kept W).*2 ++ B)%list.

Lemma last_kept z : last W = Some z → kept z → last (base.filter kept W) = Some z.
Proof. intros [l ->]%last_Some Hk. rewrite filter_app filter_cons_True // filter_nil. apply last_snoc. Qed.

(** Where an event of the new story comes from. *)
Lemma new_split T1 b T2 : W' = (T1 ++ b :: T2)%list →
  (∃ W1 x W2, W = (W1 ++ x :: W2)%list ∧ x.2 = b ∧ T1 = (base.filter kept W1).*2) ∨
  (∃ c, last T1 = Some c ∧ restates c b).
Proof.
  intros E. apply app_eq_app in E as [T [[E1 E2]|[E1 E2]]].
  - destruct T as [|b' T].
    + right. rewrite app_nil_r in E1. simpl in E2. destruct (HB b) as (z & Hz & [p Hp] & Hs); [rewrite -E2; left|].
      exists z.2. split; [|exists p, p; split_and!; [done|congruence|reflexivity]].
      rewrite -E1 fmap_last (last_kept z Hz); [done|apply Hlast; eauto].
    + left. injection E2 as -> E2. apply fmap_app_inv in E1 as (F1 & F2 & -> & E1 & EF).
      symmetry in E1. apply fmap_cons_inv in E1 as (x & F2' & Hx & _ & ->). apply filter_split in EF as (W1 & W2 & HW & <-). by exists W1, x, W2.
  - right. destruct (HB b) as (z & Hz & [p Hp] & Hs); [rewrite E2; set_solver|].
    assert (∃ c, last T1 = Some c ∧ state_of c = state_of z.2) as (c & Hc & Hcs).
    { rewrite E1. destruct (last T) as [c|] eqn:HT.
      - exists c. rewrite last_app HT. split; [done|]. apply last_Some in HT as [T' ->].
        destruct (HB c) as (z' & Hz' & _ & Hc); [rewrite E2; set_solver|]. congruence.
      - apply last_None in HT as ->. exists z.2. rewrite app_nil_r fmap_last (last_kept z Hz); [done|apply Hlast; eauto]. }
    exists c. split; [done|]. exists p, p. split_and!; [congruence|congruence|reflexivity].
Qed.

Lemma new_steady : steady W'.
Proof.
  intros T1 b T2 c E Hb Hc. destruct (new_split T1 b T2 E) as [(W1 & x & W2 & EW & <- & ->)|(c' & Hc' & Hr)]; [|congruence].
  rewrite fmap_last in Hc. apply fmap_Some in Hc as (y & Hy & ->). destruct (last W1) as [p|] eqn:Hp.
  - eapply survivor_pred; [done|done|done|]. eapply (Hsteady W1.*2 x.2 W2.*2); [by rewrite EW fmap_app fmap_cons|done|].
    by rewrite fmap_last Hp.
  - apply last_None in Hp as ->. done.
Qed.

Lemma new_orderly : orderly W'.
Proof.
  intros T1 b T2 E. destruct (new_split T1 b T2 E) as [(W1 & x & W2 & EW & <- & ->)|Hr]; [|by left].
  destruct (order_at W1 x W2 EW) as [(p & Hp & Hr)|Ha].
  - destruct (last (base.filter kept W1)) as [y|] eqn:Hy.
    + left. exists y.2. rewrite fmap_last Hy. split; [done|]. by eapply survivor_pred.
    + right. apply last_None in Hy as ->. intros a Ha. by apply elem_of_nil in Ha.
  - right. intros a (y & -> & [_ Hy]%list_elem_of_filter)%list_elem_of_fmap. by apply Ha.
Qed.

Lemma new_final : final W' = final W.*2.
Proof.
  unfold final. rewrite last_app. destruct (last B) as [b|] eqn:HlB in |- *.
  { apply last_Some in HlB as [B' EB]. destruct (HB b) as (z & Hz & _ & Hs); [rewrite EB; set_solver|]. by rewrite fmap_last Hz. }
  rewrite !fmap_last. destruct (last W) as [z|] eqn:Hz in |- *; [|apply last_None in Hz; by rewrite Hz].
  destruct (decide (kept z)) as [Hk|Hk]; [by rewrite (last_kept z)|]. simpl.
  assert (state_of z.2 = None) as Hd by (destruct (state_of z.2) eqn:?; [destruct Hk; apply Hlast; eauto|done]).
  apply last_Some in Hz as [W1 HW]. pose proof (survivor W1 z [] HW Hk) as Hs.
  rewrite HW filter_app filter_cons_False // filter_nil app_nil_r. destruct (last (base.filter kept W1)) as [y|]; [|by rewrite Hd].
  destruct Hs as (p & q & _ & Hq & _). congruence.
Qed.
End drop.

(** ** What the reading pass notes *)

Definition story_of (t : bool * string) (L : list (Z * Event)) : list (Z * Event) := base.filter (λ x, thing x.2 = Some t) L.

Lemma story_of_events t L : (story_of t L).*2 = story t L.*2.
Proof.
  unfold story, story_of. induction L as [|x L IH]; [done|]. rewrite fmap_cons !filter_cons. case_decide; [|done]. by rewrite fmap_cons IH.
Qed.

Lemma story_of_snoc t L x : story_of t (L ++ [x])%list = if decide (thing x.2 = Some t) then (story_of t L ++ [x])%list else story_of t L.
Proof. unfold story_of. rewrite filter_app filter_cons filter_nil. case_decide; [done|by rewrite app_nil_r]. Qed.

Definition is_alive (ev : Event) : bool := match state_of ev with Some _ => true | None => false end.

Lemma is_alive_true ev : is_alive ev = true ↔ is_Some (state_of ev).
Proof. unfold is_alive. destruct (state_of ev); [by split; [eauto|]|]. split; [done|]. by intros [? ?]. Qed.

(** What is noted of a story whose last event is [x]. *)
Definition as_last (cutoffNano : Z) (S : list (Z * Event)) (x : Z * Event) : Last :=
  mkLast x.1 (is_alive x.2) x.2 (ev_nano x.2) (existsb (λ y, ev_nano y.2 <=? cutoffNano) S).

Lemma note_lasts c l ents rels : foldl (note_last c) (∅, ∅) l = (ents, rels) → ∀ id,
  ents !! id = as_last c (story_of (false, id) (visited l)) <$> last (story_of (false, id) (visited l)) ∧
  rels !! id = as_last c (story_of (true, id) (visited l)) <$> last (story_of (true, id) (visited l)).
Proof.
  revert ents rels. induction l as [|[[n b] ev] l IH] using rev_ind; intros ents rels.
  { intros [= <- <-] id. by rewrite !lookup_empty. }
  rewrite foldl_app. destruct (foldl (note_last c) (∅, ∅) l) as [ents0 rels0]. specialize (IH ents0 rels0 eq_refl).
  assert (∀ k id, match (if k : bool then rels0 else ents0) !! id with Some la => la_bornBefore la | None => false end =
    existsb (λ y, ev_nano y.2 <=? c) (story_of (k, id) (visited l))) as Hborn.
  { intros k id. destruct (IH id) as [He Hr]. transitivity (match last (story_of (k, id) (visited l)) with
      Some _ => existsb (λ y, ev_nano y.2 <=? c) (story_of (k, id) (visited l)) | None => false end).
    - destruct k; [rewrite Hr; destruct (last (story_of (true, id) (visited l)))|rewrite He; destruct (last (story_of (false, id) (visited l)))]; reflexivity.
    - destruct (last (story_of (k, id) (visited l))) eqn:Hl; [done|]. by apply last_None in Hl as ->. }
  intros Hn id. destruct (IH id) as [He Hr]. unfold visited in *. rewrite map_app. cbn [map fst snd]. rewrite !story_of_snoc. cbn [fst snd].
  assert (∀ k x, last (story_of (k, id) (visited l) ++ [x])%list = Some x) as Hsnoc by (intros; apply last_snoc).
  assert (∀ t, existsb (λ y, ev_nano y.2 <=? c) (story_of t (visited l) ++ [(n, ev)])%list =
    existsb (λ y, ev_nano y.2 <=? c) (story_of t (visited l)) || (ev_nano ev <=? c)) as Hex.
  { intros t. rewrite existsb_app. simpl. by rewrite orb_false_r. }
  unfold visited in *. cbn [foldl note_last] in Hn. unfold thing, is_alive, as_last in *.
  destruct (ev_Entity ev) as [ee|] eqn:Hee; [|destruct (ev_Relation ev) as [re|] eqn:Hre]; injection Hn as <- <-.
  - split; [|by case_decide]. destruct (decide (e_ID (ee_Entity ee) = id)) as [<-|Hne].
    + rewrite lookup_insert_eq decide_True // Hsnoc /= Hex -(Hborn false) /=. unfold is_alive, state_of, ev_nano. rewrite Hee. by case_bool_decide.
    + rewrite lookup_insert_ne // decide_False //; congruence.
  - split; [by case_decide|]. destruct (decide (r_ID (re_Relation re) = id)) as [<-|Hne].
    + rewrite lookup_insert_eq decide_True // Hsnoc /= Hex -(Hborn true) /=. unfold is_alive, state_of, ev_nano. rewrite Hee Hre. by case_bool_decide.
    + rewrite lookup_insert_ne // decide_False //; congruence.
  - split; by case_decide.
Qed.

Lemma lasts_elem c l la : la ∈ lasts c l ↔
  ∃ t x, last (story_of t (visited l)) = Some x ∧ la = as_last c (story_of t (visited l)) x.
Proof.
  unfold lasts. destruct (foldl (note_last c) (∅, ∅) l) as [ents rels] eqn:Hn. pose proof (note_lasts c l ents rels Hn) as Hl.
  assert (∀ (m : gmap string Last), la ∈ (map_to_list m).*2 ↔ ∃ id, m !! id = Some la) as Hm.
  { intros m. rewrite list_elem_of_fmap. split; [intros ([id ?] & -> & Hin%elem_of_map_to_list); by exists id|].
    intros [id Hin]. exists (id, la). split; [done|]. by apply elem_of_map_to_list. }
  rewrite elem_of_app !Hm. split.
  - intros [[id Hin]|[id Hin]]; destruct (Hl id) as [He Hr]; [rewrite He in Hin|rewrite Hr in Hin];
      apply fmap_Some in Hin as (x & Hx & ->); [by exists (false, id), x|by exists (true, id), x].
  - intros ([[] id] & x & Hx & ->); destruct (Hl id) as [He Hr]; [right|left]; exists id; [rewrite Hr|rewrite He]; by rewrite Hx.
Qed.

Lemma last_story L t x : last (story_of t L) = Some x → x ∈ L ∧ thing x.2 = Some t.
Proof.
  intros [S E]%last_Some. assert (x ∈ story_of t L) as Hx by (rewrite E; set_solver).
  unfold story_of in Hx. apply list_elem_of_filter in Hx as [??]. done.
Qed.

(** ** The plan *)

Section plan.
Context (ids : nat → string) (cutoff : Time) (l : list (Z * string * Event)).
#[local] Abbreviation L := (visited l).
#[local] Abbreviation plan := (plan_prune ids cutoff l).
Definition doomed_of : list (Z * Event) := visited (pp_doomed plan).
Context (Hfun : ∀ n ev ev', (n, ev) ∈ L → (n, ev') ∈ L → ev = ev').

Lemma doomed_elem x : x ∈ doomed_of ↔ x ∈ L ∧ before (recordedAtOf x.2) cutoff = true ∧
  ¬ ∃ t y, last (story_of t L) = Some y ∧ y.1 = x.1 ∧ is_Some (state_of y.2).
Proof.
  unfold doomed_of, visited, plan_prune. cbn [pp_doomed]. rewrite !list_elem_of_fmap. setoid_rewrite list_elem_of_filter.
  assert (∀ n, n ∉ (list_to_set (map la_seq (base.filter (λ x, la_alive x = true) (lasts (unix_nano cutoff) l))) : gset Z) ↔
    ¬ ∃ t y, last (story_of t L) = Some y ∧ y.1 = n ∧ is_Some (state_of y.2)) as Hkeep.
  { intros n. rewrite elem_of_list_to_set list_elem_of_fmap. setoid_rewrite list_elem_of_filter. setoid_rewrite lasts_elem.
    apply not_iff_compat. split.
    - intros (la & -> & Ha & t & y & Hy & ->). simpl in *. apply is_alive_true in Ha. by exists t, y.
    - intros (t & y & Hy & <- & Ha%is_alive_true). exists (as_last (unix_nano cutoff) (story_of t L) y). split_and!; [done|done|by exists t, y]. }
  setoid_rewrite Hkeep. split.
  - intros ([[n b] ev] & -> & [Hk Hb] & Hin). simpl in *. split_and!; [|done|done]. by exists (n, b, ev).
  - intros (([[n b] ev] & -> & Hin) & Hb & Hk). by exists (n, b, ev).
Qed.

Lemma doomed_number x : x ∈ L → x.1 ∈ doomed_of.*1 ↔ x ∈ doomed_of.
Proof.
  intros Hx. rewrite list_elem_of_fmap. split; [|intros; by exists x]. intros ([n ev'] & Hn & Hin). destruct x as [n0 ev]. simpl in Hn. subst n0.
  pose proof (proj1 (doomed_elem (n, ev')) Hin) as [Hin' _]. by rewrite (Hfun n ev ev' Hx Hin').
Qed.

(** What the plan keeps of a story: what is recent, and the last word on a live thing. *)
Lemma plan_keeps t : let W := story_of t L in let kept x := x.1 ∉ doomed_of.*1 in
  (∀ b, b ∈ W → ¬ kept b → recordedAtOf b.2 < cutoff) ∧
  (∀ W1 b W2 a, W = (W1 ++ b :: W2)%list → ¬ kept b → a ∈ W1 → recordedAtOf a.2 < cutoff → NoDup W.*1 → ¬ kept a) ∧
  (∀ z, last W = Some z → is_Some (state_of z.2) → kept z).
Proof.
  intros W kept. assert (∀ x, x ∈ W → x ∈ L ∧ thing x.2 = Some t) as HW by (intros x; unfold W, story_of; rewrite list_elem_of_filter; tauto).
  assert (∀ x, x ∈ W → ¬ kept x ↔ x ∈ doomed_of) as Hk.
  { intros x [Hx _]%HW. unfold kept. rewrite (doomed_number x Hx). destruct (decide (x ∈ doomed_of)); tauto. }
  split_and!.
  - intros b Hb Hnk. apply Hk, doomed_elem in Hnk as (_ & Hlt & _); [|done]. unfold before in Hlt. lia.
  - intros W1 b W2 a E _ Ha Hr Hnd. assert (a ∈ W) as HaW by (rewrite E; set_solver). apply Hk; [done|]. apply doomed_elem.
    split_and!; [by apply HW|unfold before; lia|]. intros (t' & y & Hy & Hn & _). destruct (last_story L t' y Hy) as [HyL Ht'].
    assert (y = a) as -> by (destruct y as [n1 e1], a as [n2 e2]; simpl in Hn; subst n2; f_equal; eapply Hfun; [done|by apply HW]).
    destruct (HW a HaW) as [_ Ht]. assert (t' = t) as -> by congruence. fold W in Hy. rewrite E in Hy. rewrite last_app_cons in Hy.
    rewrite E fmap_app NoDup_app in Hnd. destruct Hnd as (_ & Hnd & _). apply (Hnd a.1); [apply list_elem_of_fmap; by exists a|].
    apply last_Some in Hy as [S' HS]. rewrite HS fmap_app. set_solver.
  - intros z Hz Hs Hn. assert (z ∈ W) as HzW by (apply last_Some in Hz as [S ->]; set_solver).
    apply doomed_number, doomed_elem in Hn as (_ & _ & Hno); [|by apply HW]. apply Hno. by exists t, z.
Qed.

Lemma baseline_elem b : b ∈ pp_baselines plan → ∃ t x i, last (story_of t L) = Some x ∧ is_Some (state_of x.2) ∧ b = baselineEvent (ids i) cutoff x.2.
Proof.
  unfold plan_prune. cbn [pp_baselines]. intros [i Hi]%list_elem_of_lookup. rewrite list_lookup_imap in Hi.
  apply fmap_Some in Hi as (la & Hla & ->). apply list_elem_of_lookup_2, list_elem_of_filter in Hla as [Hc Hin].
  apply lasts_elem in Hin as (t & x & Hx & ->). simpl in Hc. apply andb_true_iff in Hc as [[Ha _]%andb_true_iff _].
  exists t, x, i. split_and!; [done|by apply is_alive_true|done].
Qed.
End plan.

(** A baseline says what its event said. *)
Lemma baseline_facts evid cutoff n ev : let b := stamp_commit n (baselineEvent evid cutoff ev) in
  thing b = thing ev ∧ state_of b = state_of ev ∧ (known_kind ev → known_kind b).
Proof. by destruct ev as [[ee|] [re|]]. Qed.
Lemma baseline_storable evid cutoff ev : time_storable cutoff → event_storable ev → event_storable (baselineEvent evid cutoff ev).
Proof. intros Hc. destruct ev as [[ee|] [re|]]; unfold event_storable; simpl; naive_solver. Qed.

Lemma lasts_length c l : (length (lasts c l) <= length l)%nat.
Proof.
  unfold lasts. assert (∀ acc, let '(e, r) := foldl (note_last c) acc l in
    (size e + size r <= size acc.1 + size acc.2 + length l)%nat) as Hl.
  { induction l as [|[[n b] ev] l IH]; intros [e r]; cbn [foldl length fst snd]; [lia|].
    specialize (IH (note_last c (e, r) (n, b, ev))). destruct (foldl _ _ l) as [e' r']. etrans; [exact IH|].
    unfold note_last. destruct (ev_Entity ev), (ev_Relation ev); cbn [fst snd]; rewrite ?map_size_insert; repeat case_match; simpl; unfold id; lia. }
  specialize (Hl (∅, ∅)). destruct (foldl _ _ l) as [e r]. rewrite length_app !length_fmap !length_map_to_list.
  simpl in Hl. rewrite !map_size_empty in Hl. lia.
Qed.

Lemma NoDup_fst_inj {A} (L : list (Z * A)) n x y : NoDup L.*1 → (n, x) ∈ L → (n, y) ∈ L → x = y.
Proof.
  intros Hnd [i Hi]%list_elem_of_lookup [j Hj]%list_elem_of_lookup. assert (i = j) as ->.
  { eapply (NoDup_lookup L.*1 i j n); [done|by rewrite list_lookup_fmap Hi|by rewrite list_lookup_fmap Hj]. }
  congruence.
Qed.

Lemma NoDup_filter_fst {A} (P : Z * A → Prop) `{!∀ x, Decision (P x)} (L : list (Z * A)) : NoDup L.*1 → NoDup (base.filter P L).*1.
Proof.
  induction L as [|x L IH]; [done|]. rewrite fmap_cons. intros [Hx Hnd]%NoDup_cons. rewrite filter_cons. case_decide; [|auto].
  rewrite fmap_cons. apply NoDup_cons. split; [|auto]. intros (y & E & [_ Hy]%list_elem_of_filter)%list_elem_of_fmap. apply Hx, list_elem_of_fmap. eauto.
Qed.

Lemma filter_filter_comm {A} (P Q : A → Prop) `{!∀ x, Decision (P x)} `{!∀ x, Decision (Q x)} (l : list A) :
  base.filter P (base.filter Q l) = base.filter Q (base.filter P l).
Proof.
  induction l as [|x l IH]; [done|]. rewrite !filter_cons. repeat case_decide; rewrite ?filter_cons; repeat case_decide; try done; by rewrite IH.
Qed.

Section pass.
Context (same : relation Entity) `{!Equivalence same}.
Context {D : Type} `{!Pebble D} `{!PebbleLaws D} `{!Proto} `{!ProtoLaws}.
#[local] Abbreviation St := (Store D).
Implicit Types s : St.

(** A log fit to be pruned: changes of known kinds, heartbeats that restate, and every
    thing told in the order it was recorded. *)
Record told (L : list (Z * Event)) : Prop := {
  td_known : Forall known_kind L.*2;
  td_storable : Forall event_storable L.*2;
  td_steady : ∀ t, steady same (story t L.*2);
  td_orderly : ∀ t, orderly same (story t L.*2);
}.

(** A log recorded in order, in which heartbeats repeat, is fit: its conditions decided. *)
Fixpoint beats_repeat (S : list Event) : bool :=
  match S with
  | c :: (b :: _) as rest =>
    (negb (bool_decide (is_heartbeat b)) || bool_decide (state_of c = state_of b ∧ is_alive b = true)) && beats_repeat rest
  | _ => true
  end.

Lemma beats_repeat_tail x S : beats_repeat (x :: S) = true → beats_repeat S = true.
Proof. destruct S as [|y S]; [done|]. cbn [beats_repeat]. rewrite andb_true_iff. by intros [_ ?]. Qed.

Lemma beats_repeat_steady S : beats_repeat S = true → steady same S.
Proof.
  intros HS S1 b S2 c E Hb Hc. apply last_Some in Hc as [S0 ->]. rewrite -(assoc_L app) in E. subst S.
  induction S0 as [|x S0 IH]; [|apply IH; by apply (beats_repeat_tail x)].
  simpl in HS. apply andb_true_iff in HS as [HS _]. rewrite (bool_decide_eq_true_2 _ Hb) in HS. apply bool_decide_eq_true in HS as [E Ha].
  apply is_alive_true in Ha as [q Hq]. exists q, q. split_and!; [congruence|done|by apply same_state_equiv].
Qed.

Lemma told_check L : Forall known_kind L.*2 → Forall event_storable L.*2 → StronglySorted Z.le (recordedAtOf <$> L.*2) →
  Forall (λ ev, match thing ev with Some t => beats_repeat (story t L.*2) = true | None => True end) L.*2 → told L.
Proof.
  intros Hk Hst Hs Hb. split; [done|done| |].
  - intros t. destruct (story t L.*2) as [|ev S] eqn:E; [intros S1 b S2 c; by destruct S1|]. rewrite -E. apply beats_repeat_steady.
    assert (ev ∈ story t L.*2) as [Ht Hin]%list_elem_of_filter by (rewrite E; left). rewrite Forall_forall in Hb. specialize (Hb ev Hin). by rewrite Ht in Hb.
  - intros t S1 b S2 E. right. intros a Ha. assert (StronglySorted Z.le (recordedAtOf <$> story t L.*2)) as Hs'.
    { clear -Hs. induction (L.*2) as [|x l IH]; [constructor|]. rewrite fmap_cons in Hs. apply StronglySorted_inv in Hs as [Hs Hall].
      unfold story in *. rewrite filter_cons. case_decide; [|auto]. rewrite fmap_cons. constructor; [auto|]. rewrite Forall_forall in Hall. apply Forall_forall.
      intros n (y & -> & [_ Hy]%list_elem_of_filter)%list_elem_of_fmap. by apply Hall, list_elem_of_fmap_2. }
    rewrite E fmap_app fmap_cons in Hs'. eapply StronglySorted_app_1_elem_of; [exact Hs'|by apply list_elem_of_fmap_2|left].
Qed.

(** Two logs say the same of everything. *)
Definition same_projection (L L' : list (Z * Event)) : Prop :=
  ∀ now, (∀ id, option_Forall2 same (live (Replay now L.*2 New) !! id) (live (Replay now L'.*2 New) !! id)) ∧
    g_relations (Replay now L.*2 New) = g_relations (Replay now L'.*2 New).

Lemma finals_projection L L' : told L → told L' → (∀ t, final (story t L.*2) = final (story t L'.*2)) → same_projection L L'.
Proof.
  intros H1 H2 Hf now. destruct (replay_tells same now L.*2 (td_known L H1) (td_steady L H1)) as [A1 B1 _].
  destruct (replay_tells same now L'.*2 (td_known L' H2) (td_steady L' H2)) as [A2 B2 _]. split.
  - intros id. etrans; [apply A1|]. symmetry. etrans; [apply A2|]. unfold final_entity. by rewrite Hf.
  - apply map_eq. intros id. rewrite B1 B2. unfold final_relation. by rewrite Hf.
Qed.

(** Dropping what the plan dooms, or nothing, and adding its baselines. *)
Lemma replan ids cutoff l n c X : let L := visited l in told L → time_storable cutoff → NoDup L.*1 →
  X = doomed_of ids cutoff l ∨ X = [] →
  let L' := (base.filter (λ x, x.1 ∉ X.*1) L ++ numbered n (stamp_commit c <$> pp_baselines (plan_prune ids cutoff l)))%list in
  told L' ∧ ∀ t, final (story t L'.*2) = final (story t L.*2).
Proof.
  intros L HL Hcut Hnd HX L'. set (B := stamp_commit c <$> pp_baselines (plan_prune ids cutoff l)) in *.
  assert (∀ n ev ev', (n, ev) ∈ L → (n, ev') ∈ L → ev = ev') as Hfun by (intros; by eapply NoDup_fst_inj).
  assert (∀ b, b ∈ B → ∃ t x i, last (story_of t L) = Some x ∧ is_Some (state_of x.2) ∧ b = stamp_commit c (baselineEvent (ids i) cutoff x.2)) as HB.
  { intros b (b0 & -> & (t & x & i & H1 & H2 & ->)%baseline_elem)%list_elem_of_fmap. by exists t, x, i. }
  assert ((numbered n B).*2 = B) as HnB by apply numbered_snd.
  assert (∀ t, story t L'.*2 = ((base.filter (λ x, x.1 ∉ X.*1) (story_of t L)).*2 ++ story t B)%list) as Hstory.
  { intros t. unfold L'. rewrite fmap_app HnB story_app -story_of_events. unfold story_of. by rewrite filter_filter_comm. }
  assert (∀ t b, b ∈ story t B → ∃ z, last (story_of t L) = Some z ∧ is_Some (state_of z.2) ∧ state_of b = state_of z.2) as HBt.
  { intros t b [Ht Hin]%list_elem_of_filter. destruct (HB b Hin) as (t' & x & i & Hx & Ha & ->).
    destruct (baseline_facts (ids i) cutoff c x.2) as (E1 & E2 & _). rewrite E1 in Ht. destruct (last_story L t' x Hx) as [_ Ht'].
    exists x. split_and!; [congruence|done|done]. }
  assert (∀ t, let W := story_of t L in let kept x := x.1 ∉ X.*1 in
    (∀ b, b ∈ W → ¬ kept b → recordedAtOf b.2 < cutoff) ∧
    (∀ W1 b W2 a, W = (W1 ++ b :: W2)%list → ¬ kept b → a ∈ W1 → recordedAtOf a.2 < cutoff → ¬ kept a) ∧
    (∀ z, last W = Some z → is_Some (state_of z.2) → kept z)) as Hkeep.
  { intros t W kept. destruct HX as [-> | ->].
    - destruct (plan_keeps ids cutoff l Hfun t) as (H1 & H2 & H3). split_and!; [done| |done].
      intros W1 b W2 a E Hb Ha Hr. apply (H2 W1 b W2); try done. by apply NoDup_filter_fst.
    - unfold kept. split_and!; intros; set_solver. }
  assert (∀ t, steady same (story_of t L).*2 ∧ orderly same (story_of t L).*2) as Hso.
  { intros t. rewrite story_of_events. split; [by apply td_steady|by apply td_orderly]. }
  assert (∀ P : Event → Prop, (∀ i x, P x → P (stamp_commit c (baselineEvent (ids i) cutoff x))) → Forall P L.*2 → Forall P L'.*2) as Hall.
  { intros P HP HL'. unfold L'. rewrite fmap_app HnB. rewrite Forall_forall in HL'. apply Forall_app. split; apply Forall_forall.
    - intros ev (x & -> & [_ Hx]%list_elem_of_filter)%list_elem_of_fmap. apply HL', list_elem_of_fmap. by exists x.
    - intros b Hb. destruct (HB b Hb) as (t & x & i & Hx & _ & ->). apply HP, HL', list_elem_of_fmap. exists x. split; [done|by eapply last_story]. }
  split; [split|].
  - apply Hall; [|by apply td_known]. intros i x. by apply baseline_facts.
  - apply Hall; [|by apply td_storable]. intros i x Hx. by apply stamp_storable, baseline_storable.
  - intros t. rewrite Hstory. destruct (Hkeep t) as (H1 & H2 & H3), (Hso t). apply (new_steady same (story_of t L) _ cutoff); auto.
  - intros t. rewrite Hstory. destruct (Hkeep t) as (H1 & H2 & H3), (Hso t). apply (new_orderly same (story_of t L) _ cutoff); auto.
  - intros t. rewrite Hstory -story_of_events. destruct (Hkeep t) as (H1 & H2 & H3), (Hso t). apply (new_final same (story_of t L) _ cutoff); auto.
Qed.

Lemma prune_writes_keys cutoff (doomed : list (Z * string * Event)) :
  prune_writes cutoff doomed = (map WDelete (mjoin (map (λ ne, eventKeys ne.2 ne.1) (visited doomed))) ++
    [WSet metaPruneHorizonKey (encodeU64 (unix_nano cutoff))])%list.
Proof.
  unfold prune_writes. f_equal. induction doomed as [|[[n b] ev] doomed IH]; [done|]. cbn [map mjoin list_join visited fst snd].
  rewrite map_app. f_equal. exact IH.
Qed.

Lemma seq_NoDup m L : represents m L → NoDup L.*1.
Proof. intros HR. apply (StronglySorted_NoDup_by id). rewrite list_fmap_id. apply seq_sorted_map; [by eapply rp_sorted|done]. Qed.

(** What a pass leaves of a log, at whatever point it stops. *)
Lemma prune_log ids cutoff s L s' r : store_ok s L → told L → time_storable cutoff → s_seq s + Z.of_nat (length L) < max_seq →
  PruneOlderThan ids cutoff s = (s', r) →
  ∃ L', store_ok s' L' ∧ told L' ∧ same_projection L L' ∧ (∀ x, x ∈ L → before (recordedAtOf x.2) cutoff = false → x ∈ L').
Proof.
  intros Hok Htd Hcut Hroom. unfold PruneOlderThan. destruct (snapshotScan (s_db s)) as [l [err|]] eqn:Hscan.
  { intros [= <- <-]. exists L. by split_and!. }
  pose proof (scan_complete s L l Hok Hscan) as <-. set (plan := plan_prune ids cutoff l). set (bs := pp_baselines plan).
  pose proof (seq_NoDup _ _ (so_log s _ Hok)) as Hnd.
  assert (∀ X n c, X = doomed_of ids cutoff l ∨ X = [] → let L' := (base.filter (λ x, x.1 ∉ X.*1) (visited l) ++ numbered n (stamp_commit c <$> bs))%list in
    told L' ∧ same_projection (visited l) L' ∧ (∀ x, x ∈ visited l → before (recordedAtOf x.2) cutoff = false → x ∈ L')) as Hre.
  { intros X n c HX L'. destruct (replan ids cutoff l n c X Htd Hcut Hnd HX) as [Ht Hf]. fold plan bs in Ht, Hf. split_and!; [done|by apply finals_projection|].
    intros x Hx Hr. apply elem_of_app. left. apply list_elem_of_filter. split; [|done]. destruct HX as [-> | ->]; [|apply not_elem_of_nil].
    rewrite doomed_number; [|intros; by eapply NoDup_fst_inj|done]. intros (_ & Hb & _)%doomed_elem. congruence. }
  assert (Forall event_storable bs) as Hbs.
  { apply Forall_forall. intros b (t & x & i & Hx & _ & ->)%baseline_elem. apply baseline_storable; [done|].
    pose proof (td_storable _ Htd) as Hst. rewrite Forall_forall in Hst. apply Hst, list_elem_of_fmap. exists x. split; [done|by eapply last_story]. }
  assert (s_seq s + Z.of_nat (length bs) < max_seq) as Hroom'.
  { enough (length bs <= length (visited l))%nat by lia. unfold bs, plan, plan_prune, visited. cbn [pp_baselines].
    rewrite length_imap length_map. etrans; [apply length_filter|apply lasts_length]. }
  unfold commit_prune. fold plan bs. destruct (pp_doomed plan) as [|d0 ds] eqn:Hd.
  { intros [= <- <-]. exists (visited l). by split_and!. }
  destruct (Append bs s) as [s1 ap] eqn:Happ. pose proof (append_log s _ bs s1 ap Hok Hbs Hroom' Happ) as Hap. destruct ap as [err|bs'].
  { intros [= <- <-]. destruct Hap as [Hap _]. exists (visited l). by split_and!. }
  destruct Hap as (Hok1 & _ & -> & _). destruct (pb_commit _ _) as [d [msg|]] eqn:Hc; intros [= <- <-].
  - apply commit_failed in Hc. eexists. split; [by apply (store_ok_ext s1)|]. destruct (Hre [] (s_seq s) (s_seq s + 1)) as (H1 & H2 & H3); [by right|].
    rewrite filter_all in H1, H2, H3; [done|]. intros x _. apply not_elem_of_nil.
  - apply commit_ok in Hc. rewrite -Hd prune_writes_keys in Hc. destruct (Hre (doomed_of ids cutoff l) (s_seq s) (s_seq s + 1)) as (H1 & H2 & H3); [by left|].
    eexists. split; [|done]. pose proof (store_remove s1 _ d (doomed_of ids cutoff l) (Some (unix_nano cutoff)) Hok1) as Hrm.
    eapply (store_ok_ext (set_db d s1)); [done|done|]. rewrite filter_app in Hrm.
    rewrite (filter_all _ (numbered _ _)) in Hrm.
    + apply Hrm; [|done]. intros x (Hx & _)%doomed_elem. apply elem_of_app. by left.
    + intros [n ev] Hin%elem_of_numbered. simpl. intros ([n' ev'] & E & (Hx & _)%doomed_elem)%list_elem_of_fmap. simpl in E. subst n'.
      apply (so_upto s _ Hok) in Hx. lia.
Qed.

End pass.
