(* ===== verification/StoreSnapshot.v ===== *)
(** * The projection snapshot

    The bytes [WriteSnapshot] of snapshot_store.go lays out and [ReadSnapshot] takes
    apart: the sequence, the framed events, and an optional liveness section. *)
From S2P Require Import Prelude GoStd Values Vocabulary Entities Events Keys Store Retention StoreInv EngineInv StoreSpec.
Open Scope Z_scope.

Definition max_u32 : Z := 4294967296.

Lemma encodeU32_length n : String.length (encodeU32 n) = 4%nat.
Proof. unfold encodeU32. by rewrite string_of_list_length be_bytes_length. Qed.

Lemma decode_encodeU32 n : 0 <= n < max_u32 → decodeU64 (encodeU32 n) = n.
Proof.
  intros Hn. unfold decodeU64, encodeU32. rewrite list_of_string_of_list be_bytes_value; [by apply Z.mod_small|].
  apply Z.mod_pos_bound. done.
Qed.

(** The head of an encoding, taken and dropped. *)
Lemma take_u32 n s : str_take 4 (encodeU32 n +++ s) = encodeU32 n.
Proof. rewrite -{1}(encodeU32_length n). apply str_take_app. Qed.
Lemma drop_u32 n s : str_drop 4 (encodeU32 n +++ s) = s.
Proof. rewrite -{1}(encodeU32_length n). apply str_drop_app. Qed.

Section snapshot.
Context {D : Type} `{!Pebble D} `{!PebbleLaws D} `{!Proto} `{!ProtoLaws}.
#[local] Abbreviation St := (Store D).
Implicit Types s : St.

Lemma read_framed fuel evs lv b pe rest : Z.of_nat (String.length (framed b +++ rest)) < max_u32 → proto_unmarshal b = inr pe →
  (String.length (framed b +++ rest) <= fuel)%nat → ∃ fuel', (String.length rest <= fuel')%nat ∧
  read_sections fuel evs lv (framed b +++ rest) = read_sections fuel' (evs ++ [EventFromProto (Some pe)])%list lv rest.
Proof.
  unfold framed. rewrite -string_app_assoc !string_length_app encodeU32_length. intros Hlen Hp Hfuel.
  destruct fuel as [|fuel]; [lia|]. exists fuel. split; [lia|]. unfold max_u32 in *.
  assert (decodeU64 (encodeU32 (Z.of_nat (String.length b))) = Z.of_nat (String.length b)) as Hd by (apply decode_encodeU32; unfold max_u32; lia).
  destruct (encodeU32 (Z.of_nat (String.length b)) +++ b +++ rest) as [|c r] eqn:E.
  { apply (f_equal String.length) in E. rewrite string_length_app encodeU32_length in E. done. }
  cbn [read_sections]. rewrite -E take_u32 drop_u32 Hd.
  rewrite (proj2 (Nat.ltb_ge _ _)); [|rewrite string_length_app encodeU32_length; lia].
  rewrite (proj2 (Z.eqb_neq _ _)); [|unfold livenessSentinel; lia].
  assert (len32 (b +++ rest) = Z.of_nat (String.length b + String.length rest)) as ->.
  { unfold len32, u32. rewrite string_length_app. apply Z.mod_small. lia. }
  rewrite (proj2 (Z.ltb_ge _ _)); [|lia]. rewrite Nat2Z.id str_take_app str_drop_app Hp. done.
Qed.

(** The events come back in order, whatever follows them. *)
Lemma read_events evs : ∀ i acc lv fuel body tail, marshal_events i evs = inr body → Forall event_storable evs →
  Z.of_nat (String.length (body +++ tail)) < max_u32 → (String.length (body +++ tail) <= fuel)%nat →
  ∃ fuel', (String.length tail <= fuel')%nat ∧
    read_sections fuel acc lv (body +++ tail) = read_sections fuel' (acc ++ evs)%list lv tail.
Proof.
  induction evs as [|ev evs IH]; intros i acc lv fuel body tail Hm Hst Hlen Hfuel; cbn [marshal_events] in Hm.
  { injection Hm as <-. exists fuel. by rewrite app_nil_r. }
  apply Forall_cons in Hst as [Hev Hst]. destruct (proto_marshal (Event_ToProto ev)) as [msg|b] eqn:Hb; [done|].
  destruct (marshal_events (S i) evs) as [err|rest] eqn:Hr; [done|]. apply (inj inr) in Hm as <-. rewrite -string_app_assoc in Hlen, Hfuel |- *.
  destruct (read_framed fuel acc lv b (Event_ToProto ev) (rest +++ tail) Hlen) as (fuel1 & Hf1 & ->); [by apply unmarshal_marshal|done|].
  destruct (IH (S i) (acc ++ [ev])%list lv fuel1 rest tail Hr Hst) as (fuel2 & Hf2 & E); [|done|].
  { rewrite string_length_app in Hlen. lia. }
  exists fuel2. split; [done|]. rewrite event_decode // E. by rewrite -(assoc_L app).
Qed.

Lemma read_liveness fuel evs b : b ≠ ""%string → Z.of_nat (String.length (encodeU32 livenessSentinel +++ framed b)) < max_u32 →
  (String.length (encodeU32 livenessSentinel +++ framed b) <= fuel)%nat →
  read_sections fuel evs "" (encodeU32 livenessSentinel +++ framed b) = inr (evs, b).
Proof.
  unfold framed. rewrite !string_length_app !encodeU32_length. intros Hb Hlen Hfuel.
  destruct fuel as [|fuel]; [lia|]. destruct (encodeU32 livenessSentinel +++ _) as [|c r] eqn:E.
  { apply (f_equal String.length) in E. rewrite !string_length_app !encodeU32_length in E. done. }
  cbn [read_sections]. rewrite -E take_u32 drop_u32 decode_encodeU32; [|done]. rewrite Z.eqb_refl.
  rewrite (proj2 (Nat.ltb_ge _ _)); [|rewrite !string_length_app !encodeU32_length; lia].
  rewrite (proj2 (Nat.ltb_ge _ _)); [|rewrite string_length_app encodeU32_length; lia].
  unfold max_u32 in *. rewrite take_u32 drop_u32 decode_encodeU32; [|unfold max_u32; lia].
  assert (len32 b = Z.of_nat (String.length b)) as -> by (apply Z.mod_small; lia).
  rewrite Z.ltb_irrefl Nat2Z.id. pose proof (str_take_app b "") as Ht. pose proof (str_drop_app b "") as Hd.
  rewrite string_app_nil_r in Ht, Hd. rewrite Ht Hd. by destruct fuel.
Qed.

(** The bytes read back as what was written. *)
Lemma snapshot_read seq evs liveness bytes : snapshot_bytes seq evs liveness = inr bytes → Forall event_storable evs →
  Z.of_nat (String.length bytes) < max_u32 →
  parse_snapshot bytes = inr (u64 seq, evs, liveness).
Proof.
  unfold snapshot_bytes. destruct (marshal_events 0 evs) as [err|body] eqn:Hm; [done|]. intros <-%(inj inr) Hst Hlen.
  unfold parse_snapshot. rewrite (proj2 (Nat.ltb_ge _ _)); [|rewrite string_length_app encodeU64_length; lia].
  rewrite string_length_app encodeU64_length in Hlen.
  assert (∀ x, str_take 8 (encodeU64 seq +++ x) = encodeU64 seq ∧ str_drop 8 (encodeU64 seq +++ x) = x) as Hhd.
  { intros x. rewrite -(encodeU64_length seq). by rewrite str_take_app str_drop_app. }
  destruct (Hhd (body +++ if (0 <? String.length liveness)%nat then encodeU32 livenessSentinel +++ framed liveness else "")) as [-> ->].
  rewrite decode_encode. enough (read_sections (String.length (body +++ if (0 <? String.length liveness)%nat then encodeU32 livenessSentinel +++ framed liveness else "")) []
    "" (body +++ if (0 <? String.length liveness)%nat then encodeU32 livenessSentinel +++ framed liveness else "") = inr (evs, liveness)) as -> by done.
  destruct (Nat.ltb_spec 0 (String.length liveness)) as [Hl|Hl].
  - destruct (read_events evs 0 [] "" (String.length (body +++ encodeU32 livenessSentinel +++ framed liveness)) body
      (encodeU32 livenessSentinel +++ framed liveness) Hm Hst) as (fuel & Hf & ->); [lia|done|].
    apply read_liveness; [intros ->; simpl in Hl; lia|rewrite string_length_app in Hlen; lia|done].
  - assert (liveness = ""%string) as -> by (destruct liveness; [done|cbn [String.length] in Hl; lia]).
    destruct (read_events evs 0 [] "" (String.length (body +++ "")) body "" Hm Hst) as (fuel & Hf & ->); [lia|done|]. by destruct fuel.
Qed.

Lemma str_drop_le n (s : string) : (String.length (str_drop n s) <= String.length s)%nat.
Proof. revert n. induction s as [|c s IH]; intros [|n]; simpl; try done. specialize (IH n). lia. Qed.
Lemma str_drop_lt n (s : string) : (0 < n)%nat → (0 < String.length s)%nat → (String.length (str_drop n s) < String.length s)%nat.
Proof. destruct n as [|n], s as [|c s]; simpl; try lia. pose proof (str_drop_le n s). lia. Qed.

(** Every turn of the reading loop consumes a length prefix, so the bytes bound it. *)
Lemma read_sections_ends fuel : ∀ evs lv rest, (String.length rest <= fuel)%nat →
  read_sections fuel evs lv rest ≠ inl (ESnapshotTruncated "fuel").
Proof.
  induction fuel as [|fuel IH]; intros evs lv [|c rest] Hlen; try done; [cbn [String.length] in Hlen; lia|].
  cbn [read_sections]. set (r := String c rest) in *. destruct (_ <? 4)%nat; [done|].
  assert (String.length (str_drop 4 r) <= fuel)%nat as H4.
  { pose proof (str_drop_lt 4 r ltac:(lia) ltac:(unfold r; cbn [String.length]; lia)). lia. }
  assert (∀ n, (String.length (str_drop n (str_drop 4 r)) <= fuel)%nat) as Hn by (intros n; etrans; [apply str_drop_le|done]).
  destruct (_ =? livenessSentinel).
  - destruct (_ <? 4)%nat; [apply IH; cbn [String.length]; lia|]. destruct (_ <? _); [apply IH; cbn [String.length]; lia|].
    apply IH. etrans; [apply str_drop_le|apply Hn].
  - destruct (_ <? _); [done|]. destruct (proto_unmarshal _); [done|]. apply IH, Hn.
Qed.

(** ** Keeping and dropping it *)

Lemma snapshot_meta s L d' v : store_ok s L → contents d' = write (contents (s_db s)) v →
  match v with WSet k _ | WDelete k => k = snapshotKey end → store_ok (set_db d' s) L.
Proof.
  intros [H1 H2 H3 H4 H5 H6] E Hk. assert (∀ k, k ≠ snapshotKey → contents d' !! k = contents (s_db s) !! k) as Hne.
  { intros k Hne. rewrite E. destruct v as [k' v|k']; subst k'; simpl; [by rewrite lookup_insert_ne|by rewrite lookup_delete_ne]. }
  split; cbn [s_db s_seq set_db]; rewrite ?Hne //. eapply represents_ext; [|exact H1]. intros k Hf. apply Hne. intros ->.
  unfold index_family in Hf. by destruct Hf as [?|[?|[?|?]]].
Qed.

Lemma write_snapshot_log seq evs liveness s L s' err : store_ok s L → Forall event_storable evs →
  WriteSnapshot seq evs liveness s = (s', err) →
  store_ok s' L ∧ s_seq s' = s_seq s ∧
  (err = None → ∀ bytes, snapshot_bytes seq evs liveness = inr bytes → Z.of_nat (String.length bytes) < max_u32 →
    s_snapshotSeq s' = seq ∧
    match ReadSnapshot s' with
    | inr r => r = Some (u64 seq, evs, liveness)
    | inl e => is_io e = true
    end).
Proof.
  intros Hok Hst. unfold WriteSnapshot. destruct (snapshot_bytes seq evs liveness) as [e|bytes] eqn:Hb; [by intros [= <- <-]|].
  destruct (pb_commit _ _) as [d [msg|]] eqn:Hc; intros [= <- <-].
  { apply commit_failed in Hc. split_and!; [by apply (store_ok_ext s)|done|done]. }
  apply commit_ok in Hc. cbn [foldl] in Hc. split_and!; [|done|].
  - eapply (store_ok_ext (set_db d s)); [done|done|]. by eapply snapshot_meta.
  - intros _ bytes' [= <-] Hlen. split; [done|]. pose proof (snapshot_read _ _ _ _ Hb Hst Hlen) as Hread.
    unfold ReadSnapshot. cbn [s_db]. destruct (pb_get d snapshotKey) as [msg|v] eqn:Hg; [done|]. apply get_sound in Hg. rewrite Hc in Hg.
    cbn [write] in Hg. rewrite lookup_insert_eq in Hg. subst v.
    by rewrite Hread.
Qed.

(** A snapshot is read back as it was written: the sequence, every event in order and
    the liveness section, when it is under four gigabytes; and writing one, or failing
    to, leaves the log and the sequence alone. *)
Theorem snapshot_survives (seq : Z) (evs : list Event) (liveness : string) (s : St) (L : list (Z * Event)) (s' : St) (err : option StoreError)
    (Hok : store_ok s L) (Hst : Forall event_storable evs) (Hwrite : WriteSnapshot seq evs liveness s = (s', err)) :
  store_ok s' L ∧ Sequence s' = Sequence s ∧
  (err = None → ∀ bytes, snapshot_bytes seq evs liveness = inr bytes → Z.of_nat (String.length bytes) < max_u32 →
    match ReadSnapshot s' with
    | inr r => r = Some (u64 seq, evs, liveness)
    | inl e => is_io e = true
    end).
Proof.
  destruct (write_snapshot_log seq evs liveness s L s' err Hok Hst Hwrite) as (H1' & H2' & H3'). split_and!; [done|done|].
  intros E bytes Hb Hlen. by destruct (H3' E bytes Hb Hlen).
Qed.

(** C40. Reading a snapshot ends on any bytes: every turn of the section loop consumes a
    length prefix or the rest, so as many turns as there are bytes are enough and the
    turns never run out. *)
Theorem snapshot_reading_ends (data : string) : parse_snapshot data ≠ inl (ESnapshotTruncated "fuel").
Proof.
  unfold parse_snapshot. destruct (_ <? 8)%nat; [done|]. pose proof (read_sections_ends (String.length (str_drop 8 data)) [] "" (str_drop 8 data) (le_n _)) as He.
  destruct (read_sections _ _ _ _) as [e|[evs lv]]; [|done]. intros [= ->]. done.
Qed.
End snapshot.
