(* ===== verification/Boot.v ===== *)
(** * Snapshots and boot: main.go [writeTenantSnapshot], registry.go [openStack]

    A tenant's stack is rebuilt from its projection snapshot and the events after the
    sequence the snapshot names. The snapshot's sequence and its state are sampled one
    after the other while the engine runs, so the state may be ahead of the sequence:
    the events in between are then replayed over a state that already has them. *)
From S2P Require Import Prelude GoStd Values Vocabulary Entities Events Projection ProjectionInv Engine EngineInv.
From S2P Require Import Keys Store Retention StoreInv StoreSpec StoreCoalesce StoreSnapshot LogState.
Open Scope Z_scope.

Section boot.
Context {D : Type} `{!Pebble D} `{!Proto}.
#[local] Abbreviation St := (Store D).

(** [writeTenantSnapshot]: the sequence was read first, then the graph was sampled, then
    the liveness section was serialised. *)
Definition writeTenantSnapshot (ids : nat → string) (when : Time) (seq : Z) (g : Graph) (liveness : string) (s : St)
    : St * option StoreError :=
  WriteSnapshot seq (SnapshotEvents ids when g) liveness s.

(** The projection part of [openStack], once the store is open: the rebuilt graph, the liveness section and the
    sequence it was restored from. *)
Definition rebuildStack (resGrace : Duration) (now : Time) (s : St) : StoreError + Graph * string * Z :=
  let graph := if negb (resGrace =? 0) then SetTombstoneTTL resGrace New else New in
  let '(graph, liveness, restoredFrom) :=
    match ReadSnapshot s with
    | inr (Some (seq, snapEvents, blob)) => (Replay now snapEvents graph, blob, seq)
    | _ => (graph, ""%string, 0)
    end in
  match ScanFrom restoredFrom s with
  | (_, Some err) => inl err
  | (tail, None) => inr (Replay now tail.*2 graph, liveness, restoredFrom)
  end.

(** [openStack] over the tenant's database. *)
Definition openStack (acceptUnknownTypes : bool) (resGrace : Duration) (now : Time) (d : D) : StoreError + St * (Graph * string * Z) :=
  match open acceptUnknownTypes false d with
  | inl err => inl err
  | inr s => match rebuildStack resGrace now s with inl err => inl err | inr r => inr (s, r) end
  end.
End boot.

(** ** Replaying what is already there *)

(** A change of a thing, as against a heartbeat. *)
Definition changes_entity (id : string) (ev : Event) : Prop :=
  match ev_Entity ev with
  | Some ee => e_ID (ee_Entity ee) = id ∧ ee_ChangeType ee ∈ [EntityCreated; EntityIdentityChanged; EntityAttributeUpdated; EntityStateChanged; EntityDeleted]
  | None => False
  end.
#[export] Instance changes_entity_dec id ev : Decision (changes_entity id ev).
Proof. unfold changes_entity. destruct (ev_Entity ev); apply _. Defined.
Definition names_entity (id : string) (ev : Event) : Prop :=
  match ev_Entity ev with Some ee => e_ID (ee_Entity ee) = id | None => False end.
Definition changes_relation (id : string) (ev : Event) : Prop :=
  match ev_Entity ev, ev_Relation ev with
  | None, Some re => r_ID (re_Relation re) = id ∧ re_ChangeType re ∈ [RelationAdded; RelationAttributeChanged; RelationRemoved]
  | _, _ => False
  end.
#[export] Instance changes_relation_dec id ev : Decision (changes_relation id ev).
Proof. unfold changes_relation. destruct (ev_Entity ev), (ev_Relation ev); apply _. Defined.

(** A change overwrites its thing; anything else leaves the others alone. *)
Lemma astep_change_entity a b id ev : changes_entity id ev → (astep a ev).1 !! id = (astep b ev).1 !! id.
Proof.
  unfold changes_entity, astep. destruct (ev_Entity ev) as [ee|]; [|done]. intros [<- Hct].
  repeat (apply elem_of_cons in Hct as [->|Hct]; [simpl; by rewrite ?lookup_insert_eq ?lookup_delete_eq|]). by apply elem_of_nil in Hct.
Qed.
Lemma astep_other_entity a id ev : ¬ changes_entity id ev → (astep a ev).1 !! id = a.1 !! id.
Proof.
  unfold changes_entity, astep. destruct (ev_Entity ev) as [ee|].
  - intros Hn. destruct (ee_ChangeType ee) eqn:Hct; try done; simpl;
      (destruct (decide (e_ID (ee_Entity ee) = id)); [destruct Hn; split; [done|set_solver]|by rewrite ?lookup_insert_ne ?lookup_delete_ne]).
  - intros _. destruct (ev_Relation ev) as [re|]; [|done]. by destruct (re_ChangeType re).
Qed.
Lemma astep_change_relation a b id ev : changes_relation id ev → (astep a ev).2 !! id = (astep b ev).2 !! id.
Proof.
  unfold changes_relation, astep. destruct (ev_Entity ev) as [ee|]; [done|]. destruct (ev_Relation ev) as [re|]; [|done]. intros [<- Hct].
  repeat (apply elem_of_cons in Hct as [->|Hct]; [simpl; by rewrite ?lookup_insert_eq ?lookup_delete_eq|]). by apply elem_of_nil in Hct.
Qed.
Lemma astep_other_relation a id ev : ¬ changes_relation id ev → (astep a ev).2 !! id = a.2 !! id.
Proof.
  unfold changes_relation, astep. destruct (ev_Entity ev) as [ee|]; [by destruct (ee_ChangeType ee)|]. destruct (ev_Relation ev) as [re|]; [|done].
  intros Hn. destruct (re_ChangeType re) eqn:Hct; try done; simpl;
    (destruct (decide (r_ID (re_Relation re) = id)); [destruct Hn; split; [done|set_solver]|by rewrite ?lookup_insert_ne ?lookup_delete_ne]).
Qed.

(** What applying an event does to what is seen: the abstract step, or the first word of
    a heartbeat on a thing the graph does not know. *)
Lemma apply_seen now ev g : abs (Apply now ev g) = astep (abs g) ev ∨
  ∃ ee, ev_Entity ev = Some ee ∧ ee_ChangeType ee = EntityUnchanged ∧ live g !! e_ID (ee_Entity ee) = None ∧
    abs (Apply now ev g) = (<[e_ID (ee_Entity ee) := ee_Entity ee]> (live g), g_relations g).
Proof.
  destruct (ev_Entity ev) as [ee|] eqn:He; [|left; apply apply_abs; unfold heartbeat_ok; by rewrite He].
  destruct (decide (ee_ChangeType ee = EntityUnchanged)) as [Hct|Hct]; [|left; apply apply_abs; unfold heartbeat_ok; by rewrite He].
  destruct (g_entities g !! e_ID (ee_Entity ee)) as [e0|] eqn:Hg.
  - left. unfold Apply, applyEntity, astep. by rewrite He Hct Hg.
  - right. exists ee. split_and!; [done|done|rewrite live_lookup_eq Hg; by case_bool_decide|].
    unfold Apply, applyEntity, abs. rewrite He Hct Hg put_live. by rewrite (proj1 (put_frame _ _)).
Qed.

Lemma changes_names id ev : changes_entity id ev → names_entity id ev.
Proof. unfold changes_entity, names_entity. destruct (ev_Entity ev); naive_solver. Qed.

Section overlap.
Context (now : Time) (a : Abs) (seg : list Event) (g : Graph).
Context (Hbeats : abeats a seg) (Habs : abs g = foldl astep a seg).

(** Part of the way through the replay of [seg] over the state that has it: what changed
    so far is as it was at that point, what stands is as it will be. *)
Record partway (p : list Event) : Prop := {
  pw_changed : ∀ id, Exists (changes_entity id) p → (abs (Replay now p g)).1 !! id = (foldl astep a p).1 !! id;
  pw_standing : ∀ id e, ¬ Exists (changes_entity id) p → (abs g).1 !! id = Some e → (abs (Replay now p g)).1 !! id = Some e;
  pw_unnamed : ∀ id, ¬ Exists (names_entity id) p → (abs (Replay now p g)).1 !! id = (abs g).1 !! id;
  pw_edges : ∀ id, (abs (Replay now p g)).2 !! id =
    if decide (Exists (changes_relation id) p) then (foldl astep a p).2 !! id else (abs g).2 !! id;
}.

Lemma exists_snoc (P : Event → Prop) p ev : Exists P (p ++ [ev])%list ↔ Exists P p ∨ P ev.
Proof. rewrite Exists_app Exists_cons Exists_nil. tauto. Qed.

Lemma replay_snoc p ev : Replay now (p ++ [ev])%list g = Apply now ev (Replay now p g).
Proof. unfold Replay. by rewrite foldl_app. Qed.

(** A heartbeat of a thing that has changed, or stands, is no first word. *)
Lemma beat_known p ev ee : partway p → abeat (foldl astep a p) ev → ev_Entity ev = Some ee → ee_ChangeType ee = EntityUnchanged →
  live (Replay now p g) !! e_ID (ee_Entity ee) = None →
  ¬ Exists (changes_entity (e_ID (ee_Entity ee))) p ∧ (abs g).1 !! e_ID (ee_Entity ee) = None.
Proof.
  intros [H1 H2 _ _] Hb He Hct Hl. unfold abeat in Hb. rewrite He in Hb. destruct (proj2 Hb Hct) as [e0 He0].
  destruct (decide (Exists (changes_entity (e_ID (ee_Entity ee))) p)) as [Hch|Hch].
  - specialize (H1 _ Hch). unfold abs in H1. cbn [fst] in H1. congruence.
  - split; [done|]. destruct ((abs g).1 !! _) as [e|] eqn:Hg; [|done]. specialize (H2 _ e Hch Hg). unfold abs in H2. cbn [fst] in H2. congruence.
Qed.

Lemma partway_step p ev : partway p → abeat (foldl astep a p) ev → partway (p ++ [ev])%list.
Proof.
  intros Hp Hb. pose proof Hp as [H1 H2 H3 H4].
  destruct (apply_seen now ev (Replay now p g)) as [E|(ee & He & Hct & Hl & E)].
  - split; intros id; rewrite replay_snoc E ?foldl_app; cbn [foldl].
    + rewrite exists_snoc. intros Hx. destruct (decide (changes_entity id ev)) as [Hc|Hc]; [by apply astep_change_entity|].
      rewrite !astep_other_entity //. apply H1. tauto.
    + intros e. rewrite exists_snoc. intros Hx Hg. rewrite astep_other_entity; [apply H2; tauto|tauto].
    + rewrite exists_snoc. intros Hx. rewrite astep_other_entity; [apply H3; tauto|]. intros Hc%changes_names. tauto.
    + destruct (decide (changes_relation id ev)) as [Hc|Hc].
      * rewrite decide_True; [by apply astep_change_relation|]. apply exists_snoc. by right.
      * rewrite !astep_other_relation // H4. destruct (decide (Exists (changes_relation id) p)) as [Hx|Hx].
        -- rewrite decide_True //. apply exists_snoc. by left.
        -- rewrite decide_False //. rewrite exists_snoc. tauto.
  - destruct (beat_known p ev ee Hp Hb He Hct Hl) as [Hch Hg0].
    assert (∀ id, ¬ changes_entity id ev) as Hnc by (intros id; unfold changes_entity; rewrite He Hct; set_solver).
    assert (∀ id, ¬ changes_relation id ev) as Hnr by (intros id; unfold changes_relation; rewrite He; set_solver).
    assert (∀ b, astep b ev = b) as Hid by (intros b; unfold astep; by rewrite He Hct).
    assert (∀ id, id ≠ e_ID (ee_Entity ee) → (<[e_ID (ee_Entity ee) := ee_Entity ee]> (live (Replay now p g))) !! id = (abs (Replay now p g)).1 !! id) as Hne.
    { intros id Hne. by rewrite lookup_insert_ne. }
    split; intros id; rewrite replay_snoc E ?foldl_app; cbn [foldl fst snd]; rewrite ?Hid.
    + rewrite exists_snoc. intros [Hx|Hx]; [|by apply Hnc in Hx]. rewrite Hne; [by apply H1|]. intros ->. done.
    + intros e. rewrite exists_snoc. intros Hx Hg. rewrite Hne; [apply H2; tauto|]. intros ->. congruence.
    + rewrite exists_snoc. intros Hx. rewrite Hne; [apply H3; tauto|]. intros ->. apply Hx. right. unfold names_entity. by rewrite He.
    + change (g_relations (Replay now p g)) with (abs (Replay now p g)).2. rewrite H4.
      destruct (decide (Exists (changes_relation id) p)) as [Hx|Hx].
      * rewrite decide_True //. apply exists_snoc. by left.
      * rewrite decide_False //. rewrite exists_snoc. intros [?|Hr]; [done|]. by apply Hnr in Hr.
Qed.

Lemma partway_all p : ∀ q, seg = (p ++ q)%list → partway p.
Proof.
  induction p as [|ev p IH] using rev_ind; intros q E.
  { split; try done. intros id Hx. by apply Exists_nil in Hx. }
  rewrite -(assoc_L app) in E. apply partway_step; [by eapply IH|].
  pose proof Hbeats as Hb. rewrite E in Hb. by apply abeats_app in Hb as [_ [? _]].
Qed.

Lemma unchanged_entity b p id : ¬ Exists (changes_entity id) p → (foldl astep b p).1 !! id = b.1 !! id.
Proof.
  revert b. induction p as [|ev p IH]; intros b Hn; [done|]. rewrite Exists_cons in Hn. cbn [foldl]. rewrite IH; [|tauto].
  apply astep_other_entity. tauto.
Qed.
Lemma unchanged_relation b p id : ¬ Exists (changes_relation id) p → (foldl astep b p).2 !! id = b.2 !! id.
Proof.
  revert b. induction p as [|ev p IH]; intros b Hn; [done|]. rewrite Exists_cons in Hn. cbn [foldl]. rewrite IH; [|tauto].
  apply astep_other_relation. tauto.
Qed.

(** An entity that is not there and does not change is not named. *)
Lemma unnamed b p id : abeats b p → ¬ Exists (changes_entity id) p → b.1 !! id = None → ¬ Exists (names_entity id) p.
Proof.
  revert b. induction p as [|ev p IH]; intros b Hb Hn Hnone; [intros Hx; by apply Exists_nil in Hx|]. destruct Hb as [Hb Hbs].
  rewrite Exists_cons in Hn. rewrite Exists_cons. intros [Hx|Hx].
  - assert (¬ changes_entity id ev) as Hnc by tauto. unfold abeat, changes_entity, names_entity in *. destruct (ev_Entity ev) as [ee|]; [|done].
    subst id. destruct Hb as [Hk Hb]. destruct (decide (ee_ChangeType ee = EntityUnchanged)) as [Hct|Hct]; [destruct (Hb Hct); congruence|].
    apply Hnc. split; [done|]. set_solver.
  - revert Hx. apply (IH (astep b ev)); [done|tauto|]. rewrite astep_other_entity; tauto.
Qed.

(** Replaying a stretch of the log over the state that already has it changes nothing. *)
Lemma overlap_harmless : abs (Replay now seg g) = abs g.
Proof.
  pose proof (partway_all seg [] ltac:(by rewrite app_nil_r)) as [H1 H2 H3 H4]. apply injective_projections; apply map_eq; intros id.
  - destruct (decide (Exists (changes_entity id) seg)) as [Hc|Hc]; [rewrite (H1 id Hc) Habs; done|].
    destruct ((abs g).1 !! id) as [e|] eqn:Hg; [by apply H2|]. rewrite -Hg. apply H3.
    apply (unnamed a); [done|done|]. rewrite -(unchanged_entity a seg id Hc) -Habs. done.
  - rewrite H4. case_decide as Hc; [by rewrite Habs|done].
Qed.
End overlap.

(** ** Boot *)

Section rebuild.
Context {D : Type} `{!Pebble D} `{!PebbleLaws D} `{!Proto} `{!ProtoLaws}.
#[local] Abbreviation St := (Store D).
Implicit Types s : St.

(** The state a prefix of the log means. *)
Definition meaning (L : list (Z * Event)) : Abs := foldl astep (∅, ∅) L.*2.
Definition upto (n : Z) (L : list (Z * Event)) : list (Z * Event) := base.filter (λ x, x.1 <= n) L.
Definition past (n : Z) (L : list (Z * Event)) : list (Z * Event) := base.filter (λ x, n < x.1) L.

(** The snapshot a store holds, if it holds one, is of a state at or past its sequence. *)
Definition snapshot_ok s (L : list (Z * Event)) : Prop :=
  ∀ data seq evs blob, contents (s_db s) !! snapshotKey = Some data → parse_snapshot data = inr (seq, evs, blob) →
    0 <= seq <= s_seq s ∧ abeats (∅, ∅) evs ∧
    ∃ m, seq <= m <= s_seq s ∧ foldl astep (∅, ∅) evs = meaning (upto m L).

Lemma sorted_split n L : StronglySorted seq_lt L → L = (upto n L ++ past n L)%list.
Proof.
  unfold upto, past. induction 1 as [|x L Hs IH Hall]; [done|]. rewrite !filter_cons. destruct (decide (x.1 <= n)) as [Hx|Hx].
  - rewrite (decide_False (P := n < x.1)); [|lia]. simpl. by f_equal.
  - rewrite decide_True; [|lia]. rewrite filter_none; [|rewrite Forall_forall in Hall; intros y Hy; specialize (Hall y Hy); unfold seq_lt in Hall; lia].
    rewrite filter_all; [done|]. rewrite Forall_forall in Hall. intros y Hy. specialize (Hall y Hy). unfold seq_lt in Hall. lia.
Qed.

Lemma past_split n m L : StronglySorted seq_lt L → n <= m → past n L = (past n (upto m L) ++ past m L)%list.
Proof.
  intros Hs Hnm. rewrite {1}(sorted_split m L Hs). unfold past at 1. rewrite filter_app. f_equal. apply filter_all.
  intros x [Hx _]%list_elem_of_filter. lia.
Qed.
Lemma upto_split n m L : StronglySorted seq_lt L → n <= m → upto m L = (upto n L ++ past n (upto m L))%list.
Proof.
  intros Hs Hnm. rewrite {1}(sorted_split n (upto m L)); [|by apply seq_filter]. f_equal. unfold upto. rewrite list_filter_filter.
  apply list_filter_iff. intros x. lia.
Qed.

Lemma scan_tail_complete after s L l : store_ok s L → 0 <= after <= s_seq s → s_seq s + 1 < max_seq →
  ScanFrom after s = (l, None) → l = past after L.
Proof.
  intros Hok Ha Hroom Hscan. assert ((pb_iter (s_db s) (primaryKey (after + 1)) (prefixUpperBound primaryPrefix)).2 = None) as Hio.
  { unfold ScanFrom, scan_db in Hscan. rewrite u64_id in Hscan; [|unfold max_seq in *; lia].
    destruct (pb_iter _ _ _) as [kvs [msg|]]; [|done]. by destruct (decode_records kvs) as [? [?|]]. }
  rewrite (scan_tail s L after Hok Ha) // in Hscan; [|lia]. by injection Hscan as <-.
Qed.

(** The tail of the log, over a state at or past the sequence it starts from. *)
Lemma tail_replay now L n m g : StronglySorted seq_lt L → abeats (∅, ∅) L.*2 → n <= m →
  abs g = meaning (upto m L) → abs (Replay now (past n L).*2 g) = meaning L.
Proof.
  intros Hs Hb Hnm Hg. rewrite (past_split n m L Hs Hnm) fmap_app /Replay foldl_app -!/(Replay _ _ _).
  assert (L.*2 = (upto n L).*2 ++ (past n (upto m L)).*2 ++ (past m L).*2)%list as EL.
  { rewrite (assoc_L app) -!fmap_app -upto_split //. by rewrite -sorted_split. }
  assert (abs g = foldl astep (meaning (upto n L)) (past n (upto m L)).*2) as Hg'.
  { rewrite Hg {1}(upto_split n m L Hs Hnm). unfold meaning. by rewrite fmap_app foldl_app. }
  rewrite EL in Hb. apply abeats_app in Hb as [_ [Hb2 Hb3]%abeats_app]. fold (meaning (upto n L)) in Hb2, Hb3.
  assert (abs (Replay now (past n (upto m L)).*2 g) = abs g) as E.
  { by apply (overlap_harmless now (meaning (upto n L))). }
  rewrite replay_abs E Hg'; [|done]. unfold meaning. by rewrite EL !foldl_app.
Qed.

(** Boot rebuilds what the log means, with or without a snapshot, readable or not. *)
Lemma rebuildStack_log resGrace now s L g liveness from : store_ok s L → s_seq s + 1 < max_seq →
  abeats (∅, ∅) L.*2 → snapshot_ok s L →
  rebuildStack resGrace now s = inr (g, liveness, from) → abs g = meaning L.
Proof.
  intros Hok Hroom Hb Hsnap. unfold rebuildStack. set (g0 := if negb (resGrace =? 0) then _ else _).
  pose proof (rp_sorted _ _ (so_log s L Hok)) as Hs. assert (0 <= s_seq s) as Hpos by apply (so_seq s L Hok).
  assert (abs g0 = (∅, ∅)) as Hg0 by (unfold g0; by destruct (negb _)).
  assert (upto 0 L = [] ∧ past 0 L = L) as [Hu Hp].
  { split; [apply filter_none|apply filter_all]; intros [n ev] Hin; apply (so_upto s L Hok) in Hin; simpl; lia. }
  assert (∀ x, match ScanFrom 0 s with (_, Some err) => inl err | (tail, None) => inr (Replay now tail.*2 g0, ""%string, 0) end = inr x → abs x.1.1 = meaning L) as Hfull.
  { intros x. destruct (ScanFrom 0 s) as [tail [err|]] eqn:Hscan; [done|]. intros [= <-].
    apply (scan_tail_complete 0 s L tail Hok) in Hscan as ->; [|lia|done]. apply (tail_replay now L 0 0); try done. by rewrite Hu Hg0. }
  destruct (ReadSnapshot s) as [err|[[[seq evs] blob]|]] eqn:Hr; [intros E; by specialize (Hfull _ E)| |intros E; by specialize (Hfull _ E)].
  unfold ReadSnapshot in Hr. destruct (pb_get (s_db s) snapshotKey) as [|[data|]] eqn:Hget; try done. apply get_sound in Hget.
  destruct (parse_snapshot data) as [|snap] eqn:Hparse; [done|]. injection Hr as ->.
  destruct (Hsnap data seq evs blob (eq_sym Hget) Hparse) as (Hseq & Hbe & m & Hm & E).
  destruct (ScanFrom seq s) as [tail [err|]] eqn:Hscan; [done|]. intros [= <- <- <-].
  apply (scan_tail_complete seq s L tail Hok) in Hscan as ->; [|lia|done]. apply (tail_replay now L seq m); try done; [lia|].
  rewrite replay_abs Hg0 //.
Qed.

(** ** Taking a snapshot *)

Lemma fold_puts (f : nat → Entity → Event) (es : list Entity) a :
  (∀ i e b, astep b (f i e) = (<[e_ID e := e]> b.1, b.2)) → NoDup (e_ID <$> es) →
  foldl astep a (imap f es) = (list_to_map ((λ e, (e_ID e, e)) <$> es) ∪ a.1, a.2).
Proof.
  revert f a. induction es as [|e es IH]; intros f a Hf Hnd; [simpl; rewrite map_empty_union; by destruct a|].
  rewrite fmap_cons in Hnd. apply NoDup_cons in Hnd as [Hn Hnd]. rewrite imap_cons. cbn [foldl fmap list_fmap list_to_map foldr]. rewrite Hf IH; [|intros; by rewrite Hf|done].
  cbn [fst snd]. f_equal. rewrite -insert_union_r; [by rewrite insert_union_l|].
  apply not_elem_of_list_to_map_1. rewrite -list_fmap_compose. done.
Qed.
Lemma fold_adds (f : nat → Relation → Event) (rs : list Relation) a :
  (∀ i r b, astep b (f i r) = (b.1, <[r_ID r := r]> b.2)) → NoDup (r_ID <$> rs) →
  foldl astep a (imap f rs) = (a.1, list_to_map ((λ r, (r_ID r, r)) <$> rs) ∪ a.2).
Proof.
  revert f a. induction rs as [|r rs IH]; intros f a Hf Hnd; [simpl; rewrite map_empty_union; by destruct a|].
  rewrite fmap_cons in Hnd. apply NoDup_cons in Hnd as [Hn Hnd]. rewrite imap_cons. cbn [foldl fmap list_fmap list_to_map foldr]. rewrite Hf IH; [|intros; by rewrite Hf|done].
  cbn [fst snd]. f_equal. rewrite -insert_union_r; [by rewrite insert_union_l|].
  apply not_elem_of_list_to_map_1. rewrite -list_fmap_compose. done.
Qed.

Lemma keyed_list {A} (key : A → string) (m : gmap string A) : keyed key m →
  (λ x, (key x, x)) <$> (map_to_list m).*2 = map_to_list m.
Proof.
  intros Hk. rewrite -list_fmap_compose -{2}(list_fmap_id (map_to_list m)). apply list_fmap_ext. intros i [k x] Hi.
  apply list_elem_of_lookup_2, elem_of_map_to_list, Hk in Hi. simpl. by rewrite Hi.
Qed.

Lemma keyed_values_NoDup_keys {A} (key : A → string) (m : gmap string A) : keyed key m → NoDup (key <$> (map_to_list m).*2).
Proof.
  intros Hk. assert (key <$> (map_to_list m).*2 = (map_to_list m).*1) as ->; [|apply NoDup_fst_map_to_list].
  rewrite -{2}(keyed_list key m Hk) -!list_fmap_compose. done.
Qed.

Lemma abeats_all a evs : Forall (λ ev, ∀ a, abeat a ev) evs → abeats a evs.
Proof. intros HF. revert a. induction HF as [|ev evs Hev _ IH]; intros a; [done|]. by split. Qed.

(** The synthetic events of a graph mean what it shows. *)
Lemma snapshot_events_mean ids when g : core g → time_storable when →
  foldl astep (∅, ∅) (SnapshotEvents ids when g) = abs g ∧ abeats (∅, ∅) (SnapshotEvents ids when g) ∧
  Forall event_storable (SnapshotEvents ids when g).
Proof.
  intros Hc Hw. assert (keyed e_ID (live g)) as Hke by (intros id e [He _]%live_lookup; by apply (wf_ids _ (cr_entities _ Hc)) in He).
  pose proof (cr_relations _ Hc) as Hkr. unfold SnapshotEvents. split_and!.
  - rewrite foldl_app fold_puts; [|done|by apply (keyed_values_NoDup_keys e_ID)]. rewrite fold_adds; [|done|by apply (keyed_values_NoDup_keys r_ID)].
    rewrite !keyed_list // !list_to_map_to_list. cbn [fst snd]. by rewrite !map_union_empty.
  - apply abeats_all. apply Forall_app. split; apply Forall_forall; intros ev [i Hi]%list_elem_of_lookup; rewrite list_lookup_imap in Hi;
      apply fmap_Some in Hi as (x & _ & ->); intros a; unfold abeat; simpl; [split; [set_solver|done]|done].
  - apply Forall_app. split; apply Forall_forall; intros ev [i Hi]%list_elem_of_lookup; rewrite list_lookup_imap in Hi;
      apply fmap_Some in Hi as (x & _ & ->); done.
Qed.

(** A snapshot of a state at or past the sequence it names is one boot can use. *)
Lemma write_tenant_snapshot_ok ids when seq m g liveness s L s' bytes : store_ok s L → core g → time_storable when →
  0 <= seq <= m → m <= s_seq s → abs g = meaning (upto m L) →
  snapshot_bytes seq (SnapshotEvents ids when g) liveness = inr bytes → Z.of_nat (String.length bytes) < max_u32 →
  writeTenantSnapshot ids when seq g liveness s = (s', None) →
  store_ok s' L ∧ snapshot_ok s' L ∧ s_seq s' = s_seq s.
Proof.
  intros Hok Hc Hw Hseq Hm Hg Hb Hlen Hwrite. destruct (snapshot_events_mean ids when g Hc Hw) as (Hmean & Hbeats & Hst).
  destruct (write_snapshot_log _ _ _ _ L _ _ Hok Hst Hwrite) as (Hok' & Hs & _). split_and!; [done| |done].
  unfold writeTenantSnapshot, WriteSnapshot in Hwrite. rewrite Hb in Hwrite.
  destruct (pb_commit _ _) as [d [msg|]] eqn:Hcm; [done|]. injection Hwrite as <-. apply commit_ok in Hcm. cbn [foldl write] in Hcm.
  intros data seq' evs' blob'. cbn [s_db]. rewrite Hcm lookup_insert_eq. intros [= <-].
  rewrite (snapshot_read _ _ _ _ Hb Hst Hlen). intros [= <- <- _]. pose proof (so_seq s L Hok) as Hr. unfold max_seq in Hr.
  rewrite u64_id; [|lia]. split_and!; [lia|simpl; lia|done|]. exists m. cbn [s_seq]. split; [lia|]. by rewrite Hmean.
Qed.

Lemma upto_app m L evs n : m <= n → upto m (L ++ numbered n evs)%list = upto m L.
Proof.
  intros Hm. unfold upto. rewrite filter_app (filter_none _ (numbered n evs)); [by rewrite app_nil_r|].
  intros [k ev] Hin%elem_of_numbered. simpl. lia.
Qed.

(** Appending does not disturb it. *)
Lemma append_snapshot_ok s L evs s' r : store_ok s L → Forall event_storable evs → s_seq s + Z.of_nat (length evs) < max_seq →
  snapshot_ok s L → Append evs s = (s', r) →
  snapshot_ok s' (match r with inl _ => L | inr evs' => L ++ numbered (s_seq s) evs' end)%list.
Proof.
  intros Hok Hev Hroom Hsnap Happ. pose proof (append_log s L evs s' r Hok Hev Hroom Happ) as Hlog.
  assert (contents (s_db s') !! snapshotKey = contents (s_db s) !! snapshotKey) as Ek by by eapply append_keeps_meta.
  intros data seq evs0 blob. rewrite Ek. intros Hd Hp. destruct (Hsnap data seq evs0 blob Hd Hp) as (Hs & Hb & m & Hm & E).
  destruct r as [err|evs'].
  - destruct Hlog as [_ ->]. split_and!; [lia|lia|done|by exists m].
  - destruct Hlog as (_ & -> & _). split_and!; [lia|lia|done|]. exists m. split; [lia|]. rewrite upto_app; [done|lia].
Qed.

(** Neither does opening the database again. *)
Lemma reopen_snapshot_ok acc ro s L s' : store_ok s L → snapshot_ok s L → open acc ro (s_db s) = inr s' → snapshot_ok s' L.
Proof.
  intros Hok Hsnap Hopen. pose proof (reopen_log acc ro s L Hok) as Hre. rewrite Hopen in Hre. destruct Hre as [_ Hseq].
  assert (contents (s_db s') !! snapshotKey = contents (s_db s) !! snapshotKey) as Ek.
  { unfold open in Hopen. destruct (checkFormat ro (s_db s)) as [d [err|]] eqn:Hc; [done|].
    destruct (recoverSeq d) as [|[[? ?] ?]]; [done|]. injection Hopen as <-. cbn [s_db]. unfold checkFormat in Hc.
    destruct (pb_get _ _) as [msg|[v|]]; [done|repeat case_match; by injection Hc as <-|]. destruct ro; [by injection Hc as <-|].
    destruct (pb_commit _ _) as [d' [msg|]] eqn:Hcm; [done|]. injection Hc as <-. apply commit_ok in Hcm. rewrite Hcm. cbn [foldl write].
    by rewrite lookup_insert_ne. }
  intros data seq evs blob. rewrite Ek Hseq. apply Hsnap.
Qed.
End rebuild.
