(* ===== verification/EngineStore.v ===== *)
(** * The engine over the durable store

    The change engine appends to an interface ([Appender]); the event store implements
    it. The laws the engine was proved against are discharged by the store's own
    theorems, and the two together give the durability of the whole stack: what boot
    rebuilds from the database is what the running engine showed. *)
From S2P Require Import Prelude GoStd Values Vocabulary Entities Events DisplayNames.
From S2P Require Import Speakers Observations Aliases Projection ProjectionInv Engine EngineInv EngineSound EngineSpec.
From S2P Require Import Keys Store Retention StoreInv StoreSpec StoreCoalesce StoreSnapshot LogState Boot.
Open Scope Z_scope.

#[export] Instance time_storable_dec t : Decision (time_storable t).
Proof. unfold time_storable. apply _. Defined.
#[export] Instance event_storable_dec ev : Decision (event_storable ev).
Proof. unfold event_storable, ct_canonical. destruct (ev_Entity ev), (ev_Relation ev); apply _. Defined.

Section durable.
Context {D : Type} `{!Pebble D} `{!PebbleLaws D} `{!Proto} `{!ProtoLaws}.

(** A store together with the log it holds. *)
Record Durable := mkDurable {
  du_store : Store D;
  du_log : list (Z * Event);
  du_ok : store_ok du_store du_log;
  du_snap : snapshot_ok du_store du_log;
}.

(** What the store can hold: instants within its range, and numbers left. *)
Definition fits (evs : list Event) (s : Store D) : Prop :=
  Forall event_storable evs ∧ s_seq s + Z.of_nat (length evs) < max_seq.
#[export] Instance fits_dec evs s : Decision (fits evs s).
Proof. unfold fits. apply _. Defined.

Definition log_after (s : Store D) (L : list (Z * Event)) (r : StoreError + list Event) : list (Z * Event) :=
  match r with inl _ => L | inr evs' => (L ++ numbered (s_seq s) evs')%list end.

Lemma after_ok evs s L : store_ok s L → fits evs s → store_ok (Append evs s).1 (log_after s L (Append evs s).2).
Proof.
  intros Hok [Hev Hroom]. destruct (Append evs s) as [s' r] eqn:E. pose proof (append_log s L evs s' r Hok Hev Hroom E) as Hl.
  simpl. by destruct r; destruct Hl.
Qed.
Lemma after_snap evs s L : store_ok s L → snapshot_ok s L → fits evs s → snapshot_ok (Append evs s).1 (log_after s L (Append evs s).2).
Proof. intros Hok Hsn [Hev Hroom]. eapply append_snapshot_ok; [done|done|done|done|]. by destruct (Append evs s). Qed.

(** The store's [Append] as the engine's; what it cannot hold is refused. *)
#[export] Instance durable_appender : Appender Durable := λ evs w,
  match decide (fits evs (du_store w)) with
  | left Hf =>
    (mkDurable (Append evs (du_store w)).1 (log_after (du_store w) (du_log w) (Append evs (du_store w)).2)
       (after_ok _ _ _ (du_ok w) Hf) (after_snap _ _ _ (du_ok w) (du_snap w) Hf),
     match (Append evs (du_store w)).2 with inl _ => inl "append failed"%string | inr evs' => inr evs' end)
  | right _ => (w, inl "not storable"%string)
  end.

Lemma same_stamped n evs : Forall event_storable evs → Forall2 same_event evs (stamp_commit n <$> evs).
Proof. induction 1 as [|ev evs Hev _ IH]; [constructor|]. constructor; [by apply stamp_commit_same|done]. Qed.

Lemma numbered_events n evs : (numbered n evs).*2 = evs.
Proof.
  revert n. induction evs as [|ev evs IH]; intros n; [done|]. rewrite numbered_cons fmap_cons. f_equal. apply IH.
Qed.

#[export] Program Instance durable_laws : AppenderLaws Durable := { logged w := (du_log w).*2 }.
Next Obligation.
  intros evs w w' evs'. unfold Engine.Append, durable_appender. case_decide as Hf; [|done]. intros [= <- Er]. cbn [du_log].
  destruct Hf as [Hev Hroom]. destruct (Append evs (du_store w)) as [s' r] eqn:E.
  pose proof (append_log _ _ evs s' r (du_ok w) Hev Hroom E) as Hl. cbn [fst snd] in *. destruct r as [err|evs1]; [done|]. injection Er as <-.
  destruct Hl as (_ & _ & -> & _). simpl. rewrite fmap_app numbered_events. split; [done|by apply same_stamped].
Qed.
Next Obligation.
  intros evs w w' msg. unfold Engine.Append, durable_appender. case_decide as Hf; [|by intros [= <- _]]. intros [= <- Er]. cbn [du_log].
  by destruct (Append evs (du_store w)).2.
Qed.
End durable.
Arguments Durable D {_ _ _}.

(** ** The log of a database is determined *)

Section unique.
Context `{!Proto}.

Lemma stored_unique m kvs L1 L2 : Forall2 (stored_as m) kvs L1 → Forall2 (stored_as m) kvs L2 →
  (∀ n ev, (n, ev) ∈ L1 → u64 n = n) → (∀ n ev, (n, ev) ∈ L2 → u64 n = n) → L1 = L2.
Proof.
  intros H1. revert L2. induction H1 as [|kv [n ev] kvs L1 (Hk & _ & pe & Hp & He) _ IH]; intros L2 H2 Hu1 Hu2; inversion H2; subst; [done|].
  destruct y as [n' ev']. match goal with H : stored_as _ _ (n', ev') |- _ => destruct H as (Hk' & _ & pe' & Hp' & He') end. cbn [fst snd] in *. f_equal.
  - rewrite Hk in Hk'. apply primaryKey_inj in Hk'. rewrite (Hu1 n ev) in Hk'; [|left]. rewrite (Hu2 n' ev') in Hk'; [|left]. congruence.
  - apply IH; [done|intros; eapply Hu1; by right|intros; eapply Hu2; by right].
Qed.

Lemma represents_unique m L1 L2 : represents m L1 → represents m L2 → L1 = L2.
Proof.
  intros H1 H2. assert (∀ L, represents m L → Forall2 (stored_as m) (range_of m primaryPrefix (prefixUpperBound primaryPrefix)) L) as Hr.
  { intros L HL. pose proof (range_represents m L primaryPrefix (λ _, True) HL) as Hr. rewrite filter_all in Hr; [|done].
    apply Hr; [by intros k Hk%in_prefix_range|]. intros n ev _. split; [done|]. intros _. apply in_prefix_range. by exists (encodeU64 n). }
  apply (stored_unique m _ L1 L2 (Hr _ H1) (Hr _ H2)); intros n ev Hin; [by apply (represents_range m L1 n ev)|by apply (represents_range m L2 n ev)].
Qed.
End unique.

(** ** Heartbeats out of a log *)

Lemma beat_astep a ev : beat_event ev → astep a ev = a.
Proof. unfold beat_event, astep. destruct (ev_Entity ev) as [ee|]; [|done]. by intros ->. Qed.

Lemma drop_beats (P : Z * Event → Prop) `{!∀ x, Decision (P x)} L a : (∀ x, x ∈ L → ¬ P x → beat_event x.2) →
  foldl astep a (base.filter P L).*2 = foldl astep a L.*2 ∧ (abeats a L.*2 → abeats a (base.filter P L).*2).
Proof.
  revert a. induction L as [|x L IH]; intros a HP; [done|]. rewrite filter_cons. case_decide as Hx; cbn [fmap list_fmap foldl abeats].
  - destruct (IH (astep a x.2)) as [E Hb]; [intros; apply HP; [by right|done]|]. split; [done|]. intros [? ?]. split; auto.
  - pose proof (HP x ltac:(left) Hx) as Hbe. rewrite (beat_astep a x.2 Hbe). destruct (IH a) as [E Hb]; [intros; apply HP; [by right|done]|].
    split; [done|]. intros [_ ?]. auto.
Qed.

(** ** The life of a stack *)

Section life.
Context {D X : Type} `{!Host} `{!HostLaws} `{!Pebble D} `{!PebbleLaws D} `{!Proto} `{!ProtoLaws}.
#[local] Abbreviation Eng := (Engine (Durable D) X).
#[local] Abbreviation store_of e := (du_store (en_log e)).
Implicit Types e : Eng.

(** What happens to a running stack: engine calls, snapshots, heartbeat coalescing, and
    restarts of the store under it. *)
Inductive lives : Eng → Eng → Prop :=
| lv_call e op : lives e (call op e).2
| lv_snapshot e ids when liveness (w' : Durable D) err :
    writeTenantSnapshot ids when (Sequence (store_of e)) (en_graph e) liveness (store_of e) = (du_store w', err) →
    time_storable when → lives e (upd_log w' e)
| lv_coalesce e (w' : Durable D) r : CoalesceHeartbeats (store_of e) = (du_store w', r) → lives e (upd_log w' e).

(** The engine shows what its store holds. *)
Record aligned e : Prop := {
  al_good : good e;
  al_idle : en_staged e = None;
  al_abs : abs (en_graph e) = meaning (du_log (en_log e));
  al_beats : abeats (∅, ∅) (du_log (en_log e)).*2;
}.

Lemma upd_log_good e w' : good e → good (upd_log w' e).
Proof. intros [G1 G2 G3 G4 G5 G6 G7 G8 G9]. by split. Qed.

Lemma relog e (w' : Durable D) L' : aligned e → store_ok (du_store w') L' →
  meaning L' = meaning (du_log (en_log e)) → abeats (∅, ∅) L'.*2 → aligned (upd_log w' e).
Proof.
  intros [A1 A2 A3 A4] Hok Hm Hb. pose proof (represents_unique _ _ _ (so_log _ _ Hok) (so_log _ _ (du_ok w'))) as ->.
  split; [by apply upd_log_good|done|by rewrite Hm|done].
Qed.

Lemma lives_aligned e e' : lives e e' → aligned e → aligned e'.
Proof.
  intros [e0 op|e0 ids when liveness w' err Hw Ht|e0 w' r Hw] Ha; pose proof Ha as [A1 A2 A3 A4].
  - destruct (call_sound op e0 A1 A2) as (G1 & G2 & G3). unfold advance in G2. rewrite A2 G3 in G2. destruct G2 as (evs & HL & HA & _ & HB).
    change (logged ?w) with (du_log w).*2 in HL. split; [done|done| |].
    + rewrite HA A3. unfold meaning. by rewrite HL foldl_app.
    + rewrite HL. apply abeats_app. split; [done|]. by rewrite A3 in HB.
  - unfold writeTenantSnapshot in Hw.
    destruct (snapshot_events_mean ids when (en_graph e0) (gd_core _ A1) Ht) as (_ & _ & Hst).
    destruct (write_snapshot_log _ _ _ _ (du_log (en_log e0)) _ _ (du_ok _) Hst Hw) as (Hok & _). by apply (relog e0 w' (du_log (en_log e0))).
  - pose proof (coalesce_log _ _ _ _ (du_ok (en_log e0)) Hw) as Hc. destruct r as [err|count]; [by apply (relog e0 w' (du_log (en_log e0)))|].
    destruct Hc as (Y & Hok & _ & HY & _). destruct (drop_beats (λ x, x.1 ∉ Y.*1) (du_log (en_log e0)) (∅, ∅)) as [E Hb].
    { intros [n ev] Hx Hn. apply dec_stable in Hn. apply list_elem_of_fmap in Hn as ([n' ev'] & Hn' & Hin). simpl in Hn'. subst n'.
      destruct (HY _ Hin) as [HyL Hbe]. by rewrite (represents_fun _ _ _ _ _ (so_log _ _ (du_ok (en_log e0))) Hx HyL). }
    apply (relog e0 w' _ Ha Hok); [done|]. auto.
Qed.

Lemma life_aligned e e' : rtc lives e e' → aligned e → aligned e'.
Proof. induction 1 as [|e1 e2 e3 Hl _ IH]; [done|]. intros Ha. by apply IH, (lives_aligned e1). Qed.

(** A fresh engine over what the store holds. *)
Lemma new_engine_aligned g (w : Durable D) (x : X) ttl subs : core g → unused 0 g →
  abs g = meaning (du_log w) → abeats (∅, ∅) (du_log w).*2 → aligned (upd_subs subs (New_engine g w x ttl)).
Proof.
  intros Hc Hu Hg Hb. pose proof (new_engine_good g w x ttl Hc Hu) as [G1 G2 G3 G4 G5 G6 G7 G8 G9]. by split.
Qed.

End life.
