(* ===== verification/StoreExamples.v ===== *)
(** * The store on concrete runs

    A database in memory and a codec that knows a fixed table of messages: an instance
    of everything the store relies on. The properties of the store and of the stack are
    instantiated on it, and behaviours are run that differ from what the comments of the
    source say. *)
From S2P Require Import Prelude GoStd Values Vocabulary Entities Events DisplayNames.
From S2P Require Import Speakers Observations Aliases Projection ProjectionInv ProjectionSpec Engine EngineInv EngineSound EngineSpec EngineExamples.
From S2P Require Import Keys Store Retention StoreInv StoreSpec StoreReads StoreCoalesce LogState StorePrune StoreSnapshot Boot EngineStore.
Open Scope Z_scope.

(** ** A database in memory *)

#[export] Instance mem_pebble : Pebble (gmap string string) := {|
  pb_get d k := inr (d !! k);
  pb_iter d lower upper := (range_of d lower upper, None);
  pb_commit ws d := (foldl write d ws, None);
|}.
#[export] Program Instance mem_pebble_laws : PebbleLaws (gmap string string) := {| contents d := d |}.
Solve Obligations with naive_solver.

(** ** A codec for a table of messages *)

#[export] Instance PValue_eq_dec : EqDecision PValue.
Proof.
  refine (fix go (v w : PValue) : Decision (v = w) :=
    match v, w with
    | PUnset, PUnset => left eq_refl
    | PStringValue s, PStringValue t => cast_if (decide (s = t))
    | PIntValue i, PIntValue j => cast_if (decide (i = j))
    | PDoubleValue f, PDoubleValue g => cast_if (decide (f = g))
    | PBoolValue b, PBoolValue c => cast_if (decide (b = c))
    | PArrayValue l, PArrayValue k =>
      cast_if ((fix gol (l k : list (option PValue)) : Decision (l = k) :=
        match l, k with
        | [], [] => left eq_refl
        | Some x :: l, Some y :: k => cast_if_and (go x y) (gol l k)
        | None :: l, None :: k => cast_if (gol l k)
        | _, _ => right _ end) l k)
    | PKvlistValue l, PKvlistValue k =>
      cast_if ((fix gol (l k : list (option (string * option PValue))) : Decision (l = k) :=
        match l, k with
        | [], [] => left eq_refl
        | Some (a, Some x) :: l, Some (b, Some y) :: k => cast_if_and3 (decide (a = b)) (go x y) (gol l k)
        | Some (a, None) :: l, Some (b, None) :: k => cast_if_and (decide (a = b)) (gol l k)
        | None :: l, None :: k => cast_if (gol l k)
        | _, _ => right _ end) l k)
    | _, _ => right _
    end); clear go; abstract congruence.
Defined.
#[export] Instance PEntity_eq_dec : EqDecision PEntity.
Proof. solve_decision. Defined.
#[export] Instance PRelation_eq_dec : EqDecision PRelation.
Proof. solve_decision. Defined.
#[export] Instance PEntityEvent_eq_dec : EqDecision PEntityEvent.
Proof. solve_decision. Defined.
#[export] Instance PRelationEvent_eq_dec : EqDecision PRelationEvent.
Proof. solve_decision. Defined.
#[export] Instance PEvent_eq_dec : EqDecision PEvent.
Proof. solve_decision. Defined.

(** One byte per message of the table. *)
Definition table_codec (table : list PEvent) : Proto := {|
  proto_marshal m :=
    match list_find (λ m', m' = m) table with
    | Some (i, _) => if (i <? 256)%nat then inr (String (ascii_of_nat i) "") else inl "table full"%string
    | None => inl "unknown message"%string
    end;
  proto_unmarshal b :=
    match b with
    | String c "" => match table !! nat_of_ascii c with Some m => inr m | None => inl "unknown byte"%string end
    | _ => inl "bad length"%string
    end;
|}.
Lemma table_codec_laws table : @ProtoLaws (table_codec table).
Proof.
  intros m b. unfold proto_marshal, proto_unmarshal, table_codec. destruct (list_find _ table) as [[i m']|] eqn:Hf; [|done].
  apply list_find_Some in Hf as (Hi & -> & _). destruct (Nat.ltb_spec i 256); [|done]. intros [= <-].
  by rewrite nat_ascii_embedding // Hi.
Qed.

(** ** Inputs *)

Definition at_second (k : Z) : Time := unix_epoch + k * second.
Definition said (k : Z) (c : ChangeType) (e : Entity) : Event :=
  entity_event (mkEntityEvent "ev" c e (at_second k) (at_second k) 0 "" SchemaVersion [] "" DeleteSourceUnknown).
Definition linked (k : Z) (c : ChangeType) (r : Relation) : Event :=
  relation_event (mkRelationEvent "ev" c r (at_second k) (at_second k) 0 "" SchemaVersion [] DeleteSourceUnknown).

Definition history : list Event :=
  [said 10 EntityCreated host_a; said 20 EntityCreated host_b; linked 25 RelationAdded link_ab; said 30 EntityUnchanged host_a;
   said 40 EntityUnchanged host_a; said 50 EntityUnchanged host_a; said 60 EntityUnchanged host_b].

(** The same host with an attribute, its update and its end. *)
Definition host_a2 : Entity := mkEntity "A" "host" [("host.name", KindString "a")] [("os.type", KindString "linux")] "".
Definition update_a : Event := said 50 EntityAttributeUpdated host_a2.
Definition delete_a : Event := said 55 EntityDeleted host_a2.
Definition relink : Event := linked 70 RelationAttributeChanged link_ab.
Definition base_at (k n : Z) (ev : Event) : Event := stamp_commit n (baselineEvent "base" (at_second k) ev).
Definition snapped (e : Entity) : Event := snapshot_entity (λ _, "snap"%string) (at_second 99) 0 e.

(** A clock within the store's range, and an observation the engine makes an event of. *)
Definition stack_host : Host := {|
  clock n := at_second (Z.of_nat (S n));
  ulid n := String.append "id-" (itoa (Z.of_nat n));
|}.
#[local] Existing Instance stack_host.
#[local] Instance stack_host_laws : HostLaws.
Proof.
  split.
  - intros n. unfold is_zero, clock, stack_host, at_second, unix_epoch, second. apply Z.eqb_neq. lia.
  - intros n m. unfold ulid. simpl. intros [= E%itoa_inj]. lia.
  - done.
Qed.
Definition sighting : EntityObservation :=
  mkEntityObservation "host" [("host.name", KindString "c")] [] "" (at_second 10) 0 "agent-1" "".
Definition observed : list Event :=
  ml_events (en_log (call (X:=unit) (ObserveEntity sighting) (New_engine Projection.New (mkMemLog [] []) tt 0)).2).

Definition fresh (d : gmap string string) : Store (gmap string string) := mkStore d true false 0 0 0 0 0 0.
Lemma empty_store_ok `{!Proto} `{!ProtoLaws} : store_ok (fresh ∅) [].
Proof.
  split; cbn [fresh s_db s_seq contents mem_pebble_laws].
  - split; [constructor|set_solver|intros k v; by rewrite lookup_empty|set_solver|]. intros k v _. rewrite lookup_empty. set_solver.
  - unfold max_seq. lia.
  - set_solver.
  - right. by rewrite lookup_empty.
  - intros v. by rewrite lookup_empty.
  - intros v. by rewrite lookup_empty.
Qed.

(** Everything the runs below store. *)
Definition messages : list Event :=
  (stamp_commit 1 <$> observed) ++
  (stamp_commit 1 <$> history) ++
  [stamp_commit 1 update_a; stamp_commit 3 delete_a; base_at 45 4 (stamp_commit 1 update_a); base_at 45 5 (stamp_commit 1 update_a);
   stamp_commit 6 relink; base_at 30 7 (stamp_commit 6 relink); base_at 45 8 (stamp_commit 1 (said 50 EntityUnchanged host_a));
   base_at 45 8 (stamp_commit 1 (said 60 EntityUnchanged host_b)); snapped host_a; stamp_commit 2 (said 20 EntityCreated host_b)].

#[local] Instance history_codec : Proto := table_codec (Event_ToProto <$> messages).
#[local] Instance history_codec_laws : ProtoLaws := table_codec_laws _.

Definition held : list (Z * Event) := numbered 0 (stamp_commit 1 <$> history).
Definition kept_store : Store (gmap string string) := (Append history (fresh ∅)).1.

Lemma history_storable : Forall event_storable history.
Proof. apply (bool_decide_unpack _). vm_compute. exact I. Qed.

Lemma history_appended : (Append history (fresh ∅)).2 = inr (stamp_commit 1 <$> history).
Proof. vm_compute. reflexivity. Qed.

Lemma kept_store_ok : store_ok kept_store held.
Proof.
  pose proof (append_log (fresh ∅) [] history kept_store (inr (stamp_commit 1 <$> history)) empty_store_ok history_storable eq_refl) as Hl.
  destruct Hl as [Hl _]; [|done]. unfold kept_store. rewrite -history_appended. by destruct (Append history (fresh ∅)).
Qed.

(** ** Witnesses *)

Lemma append_is_durable_witness : Forall event_storable history ∧ Scan kept_store = (held, None).
Proof.
  split; [exact history_storable|].
  assert (Append history (fresh ∅) = (kept_store, inr (stamp_commit 1 <$> history))) as Happ.
  { unfold kept_store. rewrite -history_appended. by destruct (Append history (fresh ∅)). }
  destruct (append_is_durable (fresh ∅) [] history kept_store _ true false empty_store_ok history_storable eq_refl Happ) as (Hscan & _).
  assert ((Scan kept_store).2 = None) as Hio by (vm_compute; reflexivity).
  destruct (Scan kept_store) as [l err]. simpl in Hio. subst err. by rewrite (Hscan l eq_refl).
Defined.

Lemma read_b : ∃ l, ReadByEntity (λ _, None) (λ _, s_db kept_store) "B" kept_store = inr l.
Proof. eexists. vm_compute. reflexivity. Qed.


Lemma held_live : beats_live 0 New held.*2.
Proof. apply beats_check_live. vm_compute. reflexivity. Qed.
Lemma middle_beat : dropped held 5.
Proof. exists "A"%string. apply (bool_decide_unpack _). vm_compute. exact I. Qed.
Lemma coalesced_one : (CoalesceHeartbeats kept_store).2 = inr 1.
Proof. vm_compute. reflexivity. Qed.

Lemma coalesce_keeps_projection_witness :
  (CoalesceHeartbeats kept_store).2 = inr 1 ∧
  ∃ L', store_ok (CoalesceHeartbeats kept_store).1 L' ∧ Replay 0 L'.*2 New = Replay 0 held.*2 New ∧ (5, stamp_commit 1 (said 40 EntityUnchanged host_a)) ∉ L'.
Proof.
  split; [exact coalesced_one|].
  pose proof (coalesce_keeps_projection kept_store held _ _ 0 New kept_store_ok held_live (surjective_pairing (CoalesceHeartbeats kept_store))) as Hc.
  rewrite coalesced_one in Hc. destruct Hc as (L' & H1 & H2 & H3).
  exists L'. split_and!; [exact H1|exact H2|]. rewrite H3. intros [_ Hn]. exact (Hn middle_beat).
Defined.

Lemma held_told : told eq held.
Proof.
  apply (told_check eq).
  - repeat (apply Forall_cons; split; [split; reflexivity|]). exact (Forall_nil_2 _).
  - apply (bool_decide_unpack _). vm_compute. exact I.
  - repeat constructor; vm_compute; discriminate.
  - repeat constructor; vm_compute; reflexivity.
Qed.
Lemma cutoff_storable : time_storable (at_second 45).
Proof. apply (bool_decide_unpack _). vm_compute. exact I. Qed.
Lemma held_room : s_seq kept_store + Z.of_nat (length held) < max_seq.
Proof. vm_compute. reflexivity. Qed.
Lemma held_a : live (Replay 0 held.*2 New) !! "A"%string = Some host_a.
Proof. vm_compute. reflexivity. Qed.
Definition pruned := PruneOlderThan (λ _, "base"%string) (at_second 45) kept_store.
Lemma pruned_four : pruned.2 = inr (4, 4).
Proof. vm_compute. reflexivity. Qed.


Definition live_bytes : string := default "" (match snapshot_bytes 2 [snapped host_a] "live" with inr b => Some b | inl _ => None end).
Lemma live_bytes_eq : snapshot_bytes 2 [snapped host_a] "live" = inr live_bytes.
Proof. vm_compute. reflexivity. Qed.
Lemma live_bytes_short : Z.of_nat (String.length live_bytes) < max_u32.
Proof. vm_compute. reflexivity. Qed.

Lemma snapshot_survives_witness :
  (WriteSnapshot 2 [snapped host_a] "live" kept_store).2 = None ∧
  ReadSnapshot (WriteSnapshot 2 [snapped host_a] "live" kept_store).1 = inr (Some (2, [snapped host_a], "live"%string)).
Proof.
  assert ((WriteSnapshot 2 [snapped host_a] "live" kept_store).2 = None) as Hw by (vm_compute; reflexivity). split; [exact Hw|].
  assert (Forall event_storable [snapped host_a]) as Hst by (apply (bool_decide_unpack _); vm_compute; exact I).
  assert (∃ r, ReadSnapshot (WriteSnapshot 2 [snapped host_a] "live" kept_store).1 = inr r) as [r Hr] by (eexists; vm_compute; reflexivity).
  destruct (WriteSnapshot 2 [snapped host_a] "live" kept_store) as [s' err] eqn:E. simpl in Hw. subst err.
  destruct (snapshot_survives 2 [snapped host_a] "live" kept_store held s' None kept_store_ok Hst E) as (_ & _ & H3').
  specialize (H3' eq_refl live_bytes live_bytes_eq live_bytes_short). simpl in Hr. cbn [fst]. rewrite Hr in H3' |- *. by rewrite H3'.
Defined.

(** ** A prune that overlaps a deletion *)

#[local] Abbreviation MemStore := (Store (gmap string string)).
Definition shown (s : MemStore) (id : string) : option Entity := live (Replay 0 (Scan s).1.*2 New) !! id.

Definition updated_store : MemStore := (Append [said 10 EntityCreated host_a; update_a] (fresh ∅)).1.
(** The reading passes, on a snapshot of the database; then the host is deleted. *)
Definition early_plan : PrunePlan := plan_prune (λ _, "base"%string) (at_second 45) (snapshotScan (s_db updated_store)).1.
Definition deleted_store : MemStore := (Append [delete_a] updated_store).1.

(** A prune can bring a deleted entity back. Its keep set is read from a snapshot
    and committed later; when an entity is deleted in between, the baseline the plan
    holds for it is appended after the deletion, with the change type of its last
    event, and every replay from then on shows the entity live. *)
Theorem prune_resurrects_deleted :
  shown updated_store "A" = Some host_a2 ∧ shown deleted_store "A" = None ∧
  let '(s', r) := commit_prune (at_second 45) early_plan deleted_store in
  r = inr (1, 1) ∧ shown s' "A" = Some host_a2.
Proof. vm_compute. repeat split; reflexivity. Qed.

(** ** The horizon across a restart *)

Definition once_pruned : MemStore :=
  (PruneOlderThan (λ _, "base"%string) (at_second 45)
    (Append [said 10 EntityCreated host_a; said 20 EntityCreated host_b; linked 25 RelationAdded link_ab; update_a] (fresh ∅)).1).1.
Definition twice_pruned : MemStore :=
  (PruneOlderThan (λ _, "base"%string) (at_second 30) (Append [relink] once_pruned).1).1.

(** The persisted horizon is the last cutoff, not the latest: a prune with an earlier
    cutoff than one before it (a longer retention) leaves the running store's horizon
    where it was, and overwrites the durable one, so that after a restart reads before
    the real horizon are answered from a truncated log instead of refused. *)
Theorem horizon_regresses_on_restart :
  PruneHorizon once_pruned = at_second 45 ∧ PruneHorizon twice_pruned = at_second 45 ∧
  match open true false (s_db twice_pruned) with inr s => PruneHorizon s = at_second 30 | inl _ => False end.
Proof. vm_compute. repeat split; reflexivity. Qed.

(** ** A snapshot between an append and its apply *)

Definition first_store : MemStore := (Append [said 10 EntityCreated host_a] (fresh ∅)).1.
Definition second_store : MemStore := (Append [said 20 EntityCreated host_b] first_store).1.
(** The graph as it is while the second event is durable and not yet applied. *)
Definition lagging : Graph := Replay 0 (Scan first_store).1.*2 New.

(** A snapshot taken while a commit is between its append and its apply loses the
    event at the next boot: the sequence, read first, counts the event, the graph,
    sampled next, misses it, and the replayed tail starts after it. The log holds an
    entity the projection does not show, and later snapshots inherit the gap. *)
Theorem snapshot_misses_unapplied :
  let s' := (writeTenantSnapshot (λ _, "snap"%string) (at_second 99) (Sequence second_store) lagging "" second_store).1 in
  shown s' "B" = Some host_b ∧
  match openStack true 0 0 (s_db s') with
  | inr (_, (g, _, from)) => from = 2 ∧ live g !! "A" = Some host_a ∧ live g !! "B" = None
  | inl _ => False
  end.
Proof. vm_compute. repeat split; reflexivity. Qed.

(** ** A stack and its restart *)

Lemma empty_snapshot_ok : snapshot_ok (fresh ∅) [].
Proof. intros data seq evs blob. cbn [fresh s_db contents mem_pebble_laws]. by rewrite lookup_empty. Qed.
Definition empty_durable : Durable (gmap string string) := mkDurable (fresh ∅) [] empty_store_ok empty_snapshot_ok.
Definition new_stack : Engine (Durable (gmap string string)) unit := New_engine Projection.New empty_durable tt 0.
Definition seen_stack : Engine (Durable (gmap string string)) unit := (call (ObserveEntity sighting) new_stack).2.

Lemma stack_unused n : unused n Projection.New.
Proof. intros m _. split; [apply lookup_empty|apply not_elem_of_empty]. Qed.

Lemma new_stack_aligned : aligned new_stack.
Proof.
  pose proof (new_engine_aligned Projection.New empty_durable tt 0 ∅ core_new (stack_unused 0)) as Ha.
  unfold new_stack. change (New_engine _ _ _ _) with (upd_subs ∅ (New_engine Projection.New empty_durable tt 0)). by apply Ha.
Qed.

(** What boot finds of it. *)
Definition rebooted : option (Store (gmap string string) * (Graph * string * Z)) :=
  match openStack true 0 0 (s_db (du_store (en_log seen_stack))) with inr r => Some r | inl _ => None end.
Definition rebooted_with := default (fresh ∅, (Projection.New, ""%string, 0)) rebooted.
Lemma reboots_some : match rebooted with Some _ => true | None => false end = true.
Proof. vm_compute. reflexivity. Qed.
Lemma seen_size : size (live (en_graph seen_stack)) = 1%nat.
Proof. vm_compute. reflexivity. Qed.
Lemma seen_seq : s_seq (du_store (en_log seen_stack)) = 1.
Proof. vm_compute. reflexivity. Qed.

Lemma seen_lives : rtc lives new_stack seen_stack.
Proof. exact (rtc_once _ _ (lv_call new_stack (ObserveEntity sighting))). Qed.
Lemma seen_room : s_seq (du_store (en_log seen_stack)) + 1 < max_seq.
Proof. rewrite seen_seq. reflexivity. Qed.
Lemma reboots_with : openStack true 0 0 (s_db (du_store (en_log seen_stack))) = inr rebooted_with.
Proof.
  pose proof reboots_some as Hr. unfold rebooted_with. unfold rebooted in *. destruct (openStack _ _ _ _) as [err|r]; [discriminate Hr|reflexivity].
Qed.

