(* ===== verification/Tenant.v ===== *)
(** * Tenant ids

    The ids that name one tenant's graph, of src/internal/tenant/tenant.go: how a raw id
    from a header, a query or a resource attribute is normalised ([Sanitize]) and where
    it is read from. The theorems say that an accepted id is one safe path segment, that
    accepting is idempotent, and which raw ids are refused. Contexts and requests are the
    values read from them: an absent header is the empty string, as [http.Header.Get]
    has it. *)
From Stdlib Require Import ZifyBool.
From stdpp Require Import base list strings.
From S2P Require Import Prelude GoStd.

Definition Default : string := "default".
Definition maxLen : nat := 64.

(** ** strings.TrimSpace *)

(** The white space of the unicode package, as UTF-8 spells it: one, two or three bytes. *)
Definition ascii_space (c : ascii) : bool :=
  let n := N_of_ascii c in ((9 <=? n)%N && (n <=? 13)%N) || (n =? 32)%N.
Definition space2 (c1 c2 : ascii) : bool :=
  let n1 := N_of_ascii c1 in let n2 := N_of_ascii c2 in
  (n1 =? 194)%N && ((n2 =? 133)%N || (n2 =? 160)%N).
Definition space3 (c1 c2 c3 : ascii) : bool :=
  let n1 := N_of_ascii c1 in let n2 := N_of_ascii c2 in let n3 := N_of_ascii c3 in
  ((n1 =? 225)%N && (n2 =? 154)%N && (n3 =? 128)%N) ||
  ((n1 =? 226)%N && (n2 =? 128)%N && (((128 <=? n3)%N && (n3 <=? 138)%N) || (n3 =? 168)%N || (n3 =? 169)%N || (n3 =? 175)%N)) ||
  ((n1 =? 226)%N && (n2 =? 129)%N && (n3 =? 159)%N) ||
  ((n1 =? 227)%N && (n2 =? 128)%N && (n3 =? 128)%N).

(** Dropping space runes off the front; [s2] and [s3] read two and three bytes in the
    order they come, so that the same loop on a reversed string trims its end. *)
Fixpoint trim_go (s2 : ascii → ascii → bool) (s3 : ascii → ascii → ascii → bool) (l : list ascii) : list ascii :=
  match l with
  | [] => []
  | c1 :: r1 =>
    if ascii_space c1 then trim_go s2 s3 r1 else
    match r1 with
    | [] => l
    | c2 :: r2 =>
      if s2 c1 c2 then trim_go s2 s3 r2 else
      match r2 with
      | [] => l
      | c3 :: r3 => if s3 c1 c2 c3 then trim_go s2 s3 r3 else l
      end
    end
  end.
Definition trim_left (l : list ascii) : list ascii := trim_go space2 space3 l.
Definition trim_right (l : list ascii) : list ascii :=
  reverse (trim_go (λ c1 c2, space2 c2 c1) (λ c1 c2 c3, space3 c3 c2 c1) (reverse l)).
Definition TrimSpace (s : string) : string := string_of_list (trim_right (trim_left (list_of_string s))).

(** ** Sanitize *)

(** The bytes of an id. The code ranges over runes; a byte of 128 or more is in a rune
    outside the set, whether it decodes or not. *)
Definition tenant_char (c : ascii) : bool :=
  let n := N_of_ascii c in
  ((97 <=? n)%N && (n <=? 122)%N) || ((65 <=? n)%N && (n <=? 90)%N) || ((48 <=? n)%N && (n <=? 57)%N) ||
  (n =? 45)%N || (n =? 95)%N || (n =? 46)%N.

Definition Sanitize (raw : string) : option string :=
  let raw := TrimSpace raw in
  if bool_decide (raw = "")%string then Some Default else
  if (maxLen <? String.length raw)%nat || bool_decide (raw = ".")%string || bool_decide (raw = "..")%string then None else
  if str_forall tenant_char raw then Some raw else None.

(** ** Where the id is read *)

Definition FromContext (v : option string) : string :=
  match v with Some id => if negb (bool_decide (id = "")%string) then id else Default | None => Default end.
Definition FromHTTP (header : string) : option string := Sanitize header.
Definition FromHTTPWithQuery (query header : string) : option string :=
  if negb (bool_decide (query = "")%string) then Sanitize query else FromHTTP header.
Definition FromGRPC (vals : list string) : option string :=
  match vals with [] => Some Default | v :: _ => Sanitize v end.

(** ** What an accepted id is *)

(** One path segment of the safe set, that is not a reference to a directory itself. *)
Record safe_id (id : string) : Prop := {
  si_nonempty : id ≠ ""%string;
  si_short : (String.length id ≤ maxLen)%nat;
  si_chars : str_forall tenant_char id = true;
  si_not_dot : id ≠ "."%string ∧ id ≠ ".."%string;
}.

Lemma default_safe : safe_id Default.
Proof. split; [done|unfold maxLen, Default; simpl; lia|reflexivity|done]. Qed.

Lemma list_of_string_inv s : string_of_list (list_of_string s) = s.
Proof. induction s as [|c s IH]; [done|]. simpl. by rewrite IH. Qed.

Lemma str_forall_list f s : str_forall f s = true ↔ Forall (λ c, f c = true) (list_of_string s).
Proof.
  induction s as [|c s IH]; simpl; [by split; constructor|]. rewrite Forall_cons andb_true_iff IH. done.
Qed.

(** Characters of ids are not the first byte of a space, nor its last. *)
Lemma tenant_char_no_space c : tenant_char c = true →
  ascii_space c = false ∧ (∀ d, space2 c d = false ∧ space2 d c = false) ∧ (∀ d e, space3 c d e = false ∧ space3 d e c = false).
Proof.
  unfold tenant_char, ascii_space, space2, space3. generalize (N_of_ascii c) as n. intros n Hn.
  assert ((n <= 122)%N ∧ (n <> 32)%N ∧ (13 < n)%N) as (H1 & H2 & H3) by lia.
  split_and!; intros; try split; lia.
Qed.

Lemma trim_go_id s2 s3 l : (∀ c, tenant_char c = true → (∀ d, s2 c d = false) ∧ ∀ d e, s3 c d e = false) →
  (∀ c, head l = Some c → tenant_char c = true) → trim_go s2 s3 l = l.
Proof.
  intros Hs Hl. destruct l as [|c1 r1]; [done|]. specialize (Hl c1 eq_refl). destruct (Hs c1 Hl) as [H2 H3].
  cbn [trim_go]. rewrite (proj1 (tenant_char_no_space c1 Hl)). destruct r1 as [|c2 r2]; [done|]. rewrite H2. destruct r2 as [|c3 r3]; [done|]. by rewrite H3.
Qed.

Lemma trim_id s : str_forall tenant_char s = true → TrimSpace s = s.
Proof.
  rewrite str_forall_list. intros HF. unfold TrimSpace, trim_left, trim_right.
  assert (∀ l : list ascii, Forall (λ c, tenant_char c = true) l → ∀ c, head l = Some c → tenant_char c = true) as Hh.
  { intros l Hl c Hc. destruct l; [done|]. injection Hc as ->. by inversion Hl. }
  rewrite (trim_go_id space2 space3); [|intros c Hc; split; intros; by apply (tenant_char_no_space c Hc)|by apply Hh].
  rewrite trim_go_id; [by rewrite reverse_involutive list_of_string_inv| |apply Hh, Forall_reverse; done].
  intros c Hc. split; intros; by apply (tenant_char_no_space c Hc).
Qed.

(** An id that is safe is accepted as it is. *)
Lemma sanitize_safe_id id : safe_id id → Sanitize id = Some id.
Proof.
  intros [Hne Hlen Hch [Hd1 Hd2]]. unfold Sanitize. rewrite trim_id //.
  rewrite (bool_decide_false _ Hne) (bool_decide_false _ Hd1) (bool_decide_false _ Hd2).
  rewrite (proj2 (Nat.ltb_ge _ _) Hlen) Hch. done.
Qed.

(** What [Sanitize] returns is safe. *)
Lemma sanitize_result raw id : Sanitize raw = Some id → safe_id id ∧ (id = TrimSpace raw ∨ TrimSpace raw = ""%string ∧ id = Default).
Proof.
  unfold Sanitize. case_bool_decide as He; [intros [= <-]; split; [apply default_safe|by right]|].
  destruct (_ || _) eqn:Hb; [done|]. destruct (str_forall _ _) eqn:Hf; [|done]. intros [= <-].
  apply orb_false_iff in Hb as [[Hl Hd1]%orb_false_iff Hd2]. apply bool_decide_eq_false in Hd1, Hd2. apply Nat.ltb_ge in Hl.
  split; [by split|by left].
Qed.

Lemma str_forall_no_byte f c s : f c = false → str_forall f s = true → contains_byte c s = false.
Proof.
  intros Hc. unfold contains_byte. induction s as [|d s IH]; [done|]. cbn [str_forall index_byte]. intros [Hd Hs]%andb_true_iff.
  specialize (IH Hs). destruct (Ascii.eqb_spec c d) as [->|_]; [congruence|]. by destruct (index_byte c s).
Qed.

(** A tenant id is a safe single path segment. An accepted id is not empty, at most 64
    bytes, holds letters, digits, dots, dashes and underscores only, so no separator, and
    is neither of the two directory references; accepting it again returns it unchanged,
    so the id of a directory names that directory; and a raw id is refused exactly when
    what is left of it after trimming is none of these and not empty. *)
Theorem sanitize_exact (raw : string) :
  match Sanitize raw with
  | Some id => safe_id id ∧ contains_byte "/"%char id = false ∧ Sanitize id = Some id ∧ (id = TrimSpace raw ∨ TrimSpace raw = ""%string ∧ id = Default)
  | None => TrimSpace raw ≠ ""%string ∧ ¬ safe_id (TrimSpace raw)
  end.
Proof.
  destruct (Sanitize raw) as [id|] eqn:E.
  - destruct (sanitize_result raw id E) as [Hs Hid]. split_and!; [done| |by apply sanitize_safe_id|done].
    by apply (str_forall_no_byte tenant_char), (si_chars id Hs).
  - unfold Sanitize in E. case_bool_decide as He; [done|]. split; [done|]. intros [_ Hlen Hch [Hd1 Hd2]].
    rewrite (bool_decide_false _ Hd1) (bool_decide_false _ Hd2) (proj2 (Nat.ltb_ge _ _) Hlen) Hch in E. done.
Qed.

(** Trimming takes off unicode spaces, and a byte that is not of the set refuses the id. *)
Example sanitize_trims : Sanitize (String " " (String "194" (String "160" "acme "))) = Some "acme"%string.
Proof. reflexivity. Qed.
Example sanitize_refuses : (Sanitize "../etc", Sanitize "a/b", Sanitize "..") = (None, None, None).
Proof. reflexivity. Qed.
Example sanitize_dot : Sanitize ".acme" = Some ".acme"%string.
Proof. reflexivity. Qed.
