(* ===== verification/Registry.v ===== *)
(** * The tenant registry

    src/internal/registry/registry.go: one isolated stack (store, projection) per tenant,
    opened on first use and cached. The state is the data directory with the database of
    every tenant directory, the open stacks, and the singleflight slots of stacks being
    opened. [For] and [ensure] run concurrently: a call is a program counter ([Pc]) that
    advances one critical section, one directory check or one opening at a time
    ([advance]), and [step] lets any call of a pool advance. The slots are a heap of
    their own, because a caller that waits keeps its slot after the registry dropped it.

    The engine that [openStack] wires over the graph and the store is the one of Engine.v;
    its liveness section is kept as the bytes the snapshot held. Annotations, loggers and
    reporters are left out, except that opening the annotations may fail. *)
From S2P Require Import Prelude GoStd Events Projection Keys Store Boot Tenant.
Open Scope Z_scope.

(** ** Limits *)

Record Limits := mkLimits { AutoCreate : bool; Allowlist : list string; MaxTenants : Z }.

(** The refusals that wrap [tenant.ErrNotAllowed]. *)
Inductive Refusal := AutoCreateOff | NotOnAllowlist | CapReached.

Definition allows (l : Limits) (id : string) (open : Z) : option Refusal :=
  if bool_decide (id = Default) then None else
  if negb (AutoCreate l) then Some AutoCreateOff else
  if negb (bool_decide (Allowlist l = [])) && negb (bool_decide (id ∈ Allowlist l)) then Some NotOnAllowlist else
  if (0 <? MaxTenants l) && (MaxTenants l <=? open) then Some CapReached else None.

Inductive RegError :=
| InvalidTenant (raw : string)
| NotAllowed (r : Refusal)
| OpeningLog (id : string) (msg : string + StoreError)
| OpeningAnnotations (id : string) (msg : string)
| NotADirectory (id : string).

Section registry.
Context {D : Type} `{!Pebble D} `{!Proto} (empty : D).

(** ** State *)

(** What is at a name of the data directory: a file, or a directory with the database Pebble finds in it. *)
Inductive Node := NFile | NDir (d : D).

Record Stack := mkStack { st_Tenant : string; st_Store : Store D; st_Graph : Graph; st_Liveness : string }.
#[local] Abbreviation Res := (RegError + Stack)%type.

Record Registry := mkRegistry {
  r_dir : gmap string Node;
  r_acceptUnknownTypes : bool;
  r_resGrace : Duration;
  r_limits : Limits;
  r_quarantined : list string;
  r_stacks : gmap string Stack;
  r_opening : gmap string nat;
  r_slots : gmap nat (option Res);
  r_next : nat;
}.

Definition upd_dir (x : gmap string Node) (r : Registry) : Registry :=
  mkRegistry x (r_acceptUnknownTypes r) (r_resGrace r) (r_limits r) (r_quarantined r) (r_stacks r) (r_opening r) (r_slots r) (r_next r).
Definition upd_quarantined (x : list string) (r : Registry) : Registry :=
  mkRegistry (r_dir r) (r_acceptUnknownTypes r) (r_resGrace r) (r_limits r) x (r_stacks r) (r_opening r) (r_slots r) (r_next r).
Definition upd_stacks (x : gmap string Stack) (r : Registry) : Registry :=
  mkRegistry (r_dir r) (r_acceptUnknownTypes r) (r_resGrace r) (r_limits r) (r_quarantined r) x (r_opening r) (r_slots r) (r_next r).
Definition upd_opening (x : gmap string nat) (r : Registry) : Registry :=
  mkRegistry (r_dir r) (r_acceptUnknownTypes r) (r_resGrace r) (r_limits r) (r_quarantined r) (r_stacks r) x (r_slots r) (r_next r).
Definition upd_slots (x : gmap nat (option Res)) (n : nat) (r : Registry) : Registry :=
  mkRegistry (r_dir r) (r_acceptUnknownTypes r) (r_resGrace r) (r_limits r) (r_quarantined r) (r_stacks r) (r_opening r) x n.

(** ** Opening a stack *)

(** What the environment answers to one opening: whether Pebble fails (having made the
    directory or not), whether the annotations fail, and the time. *)
Record Env := mkEnv { env_pebble : option string; env_created : bool; env_annotations : option string; env_now : Time }.

Definition openStack (env : Env) (id : string) (r : Registry) : Registry * Res :=
  match r_dir r !! id with
  | Some NFile => (r, inl (NotADirectory id))
  | node =>
    let d := match node with Some (NDir d) => d | _ => empty end in
    match env_pebble env with
    | Some msg =>
      (match node with
       | None => if env_created env then upd_dir (<[id := NDir empty]> (r_dir r)) r else r
       | _ => r
       end, inl (OpeningLog id (inl msg)))
    | None =>
      match Boot.openStack (r_acceptUnknownTypes r) (r_resGrace r) (env_now env) d with
      | inl err => (upd_dir (<[id := NDir (checkFormat false d).1]> (r_dir r)) r, inl (OpeningLog id (inr err)))
      | inr (st, (graph, liveness, _)) =>
        (upd_dir (<[id := NDir (s_db st)]> (r_dir r)) r,
         match env_annotations env with
         | Some msg => inl (OpeningAnnotations id msg)
         | None => inr (mkStack id st graph liveness)
         end)
      end
    end
  end.

(** ** ensure, by its parts *)

(** The first critical section: the stack, the slot to wait for, a refusal, or a slot of one's own. *)
Inductive Entered := Found (s : Stack) | InFlight (slot : nat) | Refused (why : Refusal) | Opens (slot : nat).

Definition open_count (r : Registry) : Z := Z.of_nat (size (r_stacks r)) + Z.of_nat (size (r_opening r)).

Definition ensure_enter (id : string) (minting : bool) (r : Registry) : Registry * Entered :=
  match r_stacks r !! id with
  | Some s => (r, Found s)
  | None =>
    match r_opening r !! id with
    | Some slot => (r, InFlight slot)
    | None =>
      match (if minting then allows (r_limits r) id (open_count r) else None) with
      | Some why => (r, Refused why)
      | None =>
        let slot := r_next r in
        (upd_opening (<[id := slot]> (r_opening r)) (upd_slots (<[slot := None]> (r_slots r)) (S slot) r), Opens slot)
      end
    end
  end.

(** The second: the stack enters the map, the slot leaves it. *)
Definition ensure_publish (id : string) (x : Res) (r : Registry) : Registry :=
  let r := match x with inr s => upd_stacks (<[id := s]> (r_stacks r)) r | inl _ => r end in
  upd_opening (delete id (r_opening r)) r.
(** Then the result is set in the slot and its channel closed. *)
Definition ensure_close (slot : nat) (x : Res) (r : Registry) : Registry :=
  upd_slots (<[slot := Some x]> (r_slots r)) (r_next r) r.

(** [ensure] when nothing else runs, as at boot. *)
Definition ensure (env : Env) (id : string) (minting : bool) (r : Registry) : Registry * Res :=
  match ensure_enter id minting r with
  | (r, Found s) => (r, inr s)
  | (r, Refused why) => (r, inl (NotAllowed why))
  | (r, InFlight slot) => (r, default (inl (InvalidTenant id)) (mjoin (r_slots r !! slot)))
  | (r, Opens slot) =>
    let '(r, x) := openStack env id r in
    (ensure_close slot x (ensure_publish id x r), x)
  end.

(** ** Concurrent calls of For *)

Inductive Pc :=
| Called (raw : string)
| Entering (id : string) (minting : bool)
| Opening (id : string) (slot : nat)
| Publishing (id : string) (slot : nat) (x : Res)
| Closing (id : string) (slot : nat) (x : Res)
| Waiting (id : string) (slot : nat)
| Returned (x : Res).

(** One step of a call: the tenant's directory is looked up ([os.Stat]), a critical
    section of [ensure] runs, the stack is opened outside the mutex, or the slot's channel
    is found closed. [None] is a call that is blocked or has returned. *)
Definition advance (env : Env) (pc : Pc) (r : Registry) : option (Pc * Registry) :=
  match pc with
  | Called raw =>
    match Sanitize raw with
    | None => Some (Returned (inl (InvalidTenant raw)), r)
    | Some id => Some (Entering id (bool_decide (r_dir r !! id = None)), r)
    end
  | Entering id minting =>
    let '(r, e) := ensure_enter id minting r in
    Some (match e with
          | Found s => Returned (inr s)
          | InFlight slot => Waiting id slot
          | Refused why => Returned (inl (NotAllowed why))
          | Opens slot => Opening id slot
          end, r)
  | Opening id slot => let '(r, x) := openStack env id r in Some (Publishing id slot x, r)
  | Publishing id slot x => Some (Closing id slot x, ensure_publish id x r)
  | Closing id slot x => Some (Returned x, ensure_close slot x r)
  | Waiting id slot => match r_slots r !! slot with Some (Some x) => Some (Returned x, r) | _ => None end
  | Returned _ => None
  end.

(** A pool of calls over one registry. *)
Inductive step : list Pc * Registry → list Pc * Registry → Prop :=
| step_call pcs r i pc env pc' r' : pcs !! i = Some pc → advance env pc r = Some (pc', r') →
    step (pcs, r) (<[i := pc']> pcs, r').

(** ** Reads *)

Definition Peek (raw : string) (r : Registry) : option Stack :=
  match Sanitize raw with Some id => r_stacks r !! id | None => None end.
Definition TenantCount (r : Registry) : Z := Z.of_nat (size (r_stacks r)).
(** [Stacks]: sorted by tenant id. *)
Definition Stacks (r : Registry) : list Stack := sort_by st_Tenant (map_to_list (r_stacks r)).*2.

(** [SetResurrectionGrace]: the stacks open now, and those opened later. *)
Definition SetResurrectionGrace (d : Duration) (r : Registry) : Registry :=
  if d =? 0 then r else
  mkRegistry (r_dir r) (r_acceptUnknownTypes r) d (r_limits r) (r_quarantined r)
    ((λ s, mkStack (st_Tenant s) (st_Store s) (SetTombstoneTTL d (st_Graph s)) (st_Liveness s)) <$> r_stacks r)
    (r_opening r) (r_slots r) (r_next r).

(** ** Boot *)

Definition hidden (name : string) : bool := match name with String c _ => Ascii.eqb c "." | EmptyString => false end.

(** [tenantDirs]: the names come sorted, as [os.ReadDir] returns them; the canonical
    tenant ids, and the other directories that are not hidden. *)
Definition tenantDirs (dir : gmap string Node) : list string * list string :=
  let names := base.filter (λ n, match dir !! n with Some (NDir _) => negb (hidden n) | _ => false end = true) (sorted_keys dir) in
  (base.filter (λ n, Sanitize n = Some n) names, base.filter (λ n, Sanitize n ≠ Some n) names).

Definition new_registry (dir : gmap string Node) (acc : bool) (limits : Limits) : Registry :=
  mkRegistry dir acc 0 limits [] ∅ ∅ ∅ 0.

(** One tenant at boot: its stack, or quarantine. *)
Definition boot_tenant (envs : string → Env) (r : Registry) (id : string) : Registry :=
  match ensure (envs id) id false r with
  | (r, inr _) => r
  | (r, inl _) => upd_quarantined (r_quarantined r ++ [id])%list r
  end.

(** [openWithClock], past the migration of a legacy layout: what exists is opened, then the default tenant is. *)
Definition openWithClock (envs : string → Env) (env : Env) (dir : gmap string Node) (acc : bool) (limits : Limits) : RegError + Registry :=
  let r := foldl (boot_tenant envs) (new_registry dir acc limits) (tenantDirs dir).1 in
  match ensure env Default false r with
  | (_, inl err) => inl err
  | (r, inr _) => inr r
  end.

(** [openExistingStores]: every tenant directory's store and nothing else, all or none. *)
Inductive ExistingError := LegacyLayout | NoTenantStores | OpeningExisting (id : string) (err : string + StoreError).

Fixpoint open_each (faults : string → option string) (acc readOnly : bool) (dir : gmap string Node) (ids : list string)
    : ExistingError + list (string * Store D) :=
  match ids with
  | [] => inr []
  | id :: ids =>
    match dir !! id, faults id with
    | Some (NDir d), None =>
      match open acc readOnly d with
      | inl err => inl (OpeningExisting id (inr err))
      | inr st => match open_each faults acc readOnly dir ids with inl e => inl e | inr l => inr ((id, st) :: l) end
      end
    | _, fault => inl (OpeningExisting id (inl (default "not a directory"%string fault)))
    end
  end.

Definition openExistingStores (faults : string → option string) (acc readOnly : bool) (dir : gmap string Node)
    : ExistingError + list (string * Store D) :=
  if bool_decide (is_Some (dir !! "CURRENT"%string)) then inl LegacyLayout else
  match (tenantDirs dir).1 with
  | [] => inl NoTenantStores
  | ids => open_each faults acc readOnly dir ids
  end.
End registry.
Arguments Node D : clear implicits.
Arguments NFile {D}.
Arguments Stack D : clear implicits.
Arguments Registry D : clear implicits.
Arguments Pc D : clear implicits.
Arguments Called {D}.
Arguments Entering {D}.
Arguments Opening {D}.
Arguments Waiting {D}.
