(* ===== verification/RegistryInv.v ===== *)
(** * The registry under concurrent calls

    The invariant of any pool of concurrent [For] calls over one registry, by rule
    induction over [step]: a tenant being opened is opened by exactly one call, which
    holds its slot until the result is published and the waiters are released; what a
    call returns is the stack of the map. From it: one stack per tenant, no stuck
    waiters, and the bound on the number of stacks. *)
From S2P Require Import Prelude GoStd Events Projection Keys Store Boot Tenant Registry.
Open Scope Z_scope.

Section registry_inv.
Context {D : Type} `{!Pebble D} `{!Proto} (empty : D).
#[local] Abbreviation Res := (RegError + Stack D)%type.
Implicit Types (r : Registry D) (pcs : list (Pc D)) (pc : Pc D) (x : Res) (k : nat).

(** ** The invariant *)

Definition opener (id : string) (k : nat) (pc : Pc D) : Prop := pc = Opening id k ∨ ∃ x, pc = Publishing id k x.
Definition owner (id : string) (k : nat) (pc : Pc D) : Prop := opener id k pc ∨ ∃ x, pc = Closing id k x.

(** A result is one of the tenant, and a stack is the one of the map. *)
Definition settled (stacks : gmap string (Stack D)) (id : string) (x : Res) : Prop :=
  match x with inr s => st_Tenant s = id ∧ stacks !! id = Some s | inl _ => True end.

(** What holds of a call for the raw id, at each of its program counters. *)
Definition pc_ok (r : Registry D) (raw : string) (pc : Pc D) : Prop :=
  match pc with
  | Called raw' => raw' = raw
  | Entering id _ => Sanitize raw = Some id
  | Opening id k => Sanitize raw = Some id ∧ r_opening r !! id = Some k
  | Publishing id k x => Sanitize raw = Some id ∧ r_opening r !! id = Some k ∧ ∀ s, x = inr s → st_Tenant s = id
  | Closing id k x => Sanitize raw = Some id ∧ r_slots r !! k = Some None ∧ settled (r_stacks r) id x ∧ ∀ id', r_opening r !! id' ≠ Some k
  | Waiting id k => Sanitize raw = Some id ∧ ∃ v, r_slots r !! k = Some v ∧ ∀ x, v = Some x → settled (r_stacks r) id x
  | Returned x => ∀ s, x = inr s → Sanitize raw = Some (st_Tenant s) ∧ r_stacks r !! st_Tenant s = Some s
  end.

Record pool_ok (raws : list string) (pcs : list (Pc D)) (r : Registry D) : Prop := {
  po_calls : Forall2 (pc_ok r) raws pcs;
  po_opening : ∀ id k, r_opening r !! id = Some k →
    r_slots r !! k = Some None ∧ r_stacks r !! id = None ∧ ∃ i pc, pcs !! i = Some pc ∧ opener id k pc;
  po_waiting : ∀ i id k, pcs !! i = Some (Waiting id k) → r_slots r !! k = Some None → ∃ j pc, pcs !! j = Some pc ∧ owner id k pc;
  po_owner : ∀ i j id id' k pc pc', pcs !! i = Some pc → pcs !! j = Some pc' → owner id k pc → owner id' k pc' → i = j;
  po_slots : ∀ k v, r_slots r !! k = Some v → (k < r_next r)%nat;
  po_stacks : ∀ id s, r_stacks r !! id = Some s → st_Tenant s = id;
}.

(** A registry at rest, and calls not yet begun. *)
Definition at_rest (r : Registry D) : Prop :=
  r_opening r = ∅ ∧ (∀ k v, r_slots r !! k = Some v → (k < r_next r)%nat) ∧ ∀ id s, r_stacks r !! id = Some s → st_Tenant s = id.

Lemma pool_start raws r : at_rest r → pool_ok raws (Called <$> raws) r.
Proof.
  intros (Ho & Hs & Hst).
  assert (∀ i pc, (Called <$> raws : list (Pc D)) !! i = Some pc → ∃ raw, pc = Called raw) as Hc.
  { intros i pc (raw & -> & _)%list_lookup_fmap_Some. by exists raw. }
  split.
  - apply Forall2_fmap_r, Forall2_same_length_lookup_2; [done|]. intros i y z Hy Hz. by simplify_eq.
  - intros id k. by rewrite Ho lookup_empty.
  - intros i id k (raw & ?)%Hc. done.
  - intros i j id id' k pc pc' (raw & ->)%Hc _ [[?|[??]]|[??]]; done.
  - done.
  - done.
Qed.

(** ** How a call's facts survive the steps of others *)

Lemma settled_mono stacks stacks' id x : stacks ⊆ stacks' → settled stacks id x → settled stacks' id x.
Proof. destruct x as [|s]; [done|]. simpl. intros Hsub [H1 H2]. split; [done|]. by eapply lookup_weaken. Qed.

Lemma owner_slot id k pc id' k' : owner id k pc → owner id' k' pc → k = k' ∧ id = id'.
Proof. intros [[->|[x ->]]|[x ->]] [[?|[y ?]]|[y ?]]; by simplify_eq. Qed.

(** Stacks only grow; the entries of [opening] this call does not own stay, and so do the
    slots with a result; a new entry of [opening] has a new slot. *)
Lemma pc_ok_frame r r' raw pc :
  r_stacks r ⊆ r_stacks r' →
  (∀ id k, opener id k pc → r_opening r !! id = Some k → r_opening r' !! id = Some k) →
  (∀ id k x, pc = Closing id k x → r_slots r' !! k = Some None ∧ ∀ id', r_opening r' !! id' ≠ Some k) →
  (∀ id k v, pc = Waiting id k → r_slots r !! k = Some v → (∀ x, v = Some x → settled (r_stacks r) id x) →
    ∃ v', r_slots r' !! k = Some v' ∧ ∀ x, v' = Some x → settled (r_stacks r') id x) →
  pc_ok r raw pc → pc_ok r' raw pc.
Proof.
  intros Hs Ho Hc Hw. destruct pc as [raw'|id m|id k|id k x|id k x|id k|x]; cbn [pc_ok]; try done.
  - intros [? ?]. split; [done|]. apply Ho; [by left|done].
  - intros (? & ? & ?). split_and!; [done| |done]. apply Ho; [right; by exists x|done].
  - intros (? & ? & ? & ?). destruct (Hc id k x eq_refl) as [? ?]. split_and!; [done|done|by eapply settled_mono|done].
  - intros (? & v & Hv & ?). split; [done|]. by apply (Hw id k v).
  - intros Hr s ->. destruct (Hr s eq_refl) as [? ?]. split; [done|]. by eapply lookup_weaken.
Qed.

Lemma insert_inv i (pc' : Pc D) pcs j pc : <[i := pc']> pcs !! j = Some pc → j = i ∧ pc = pc' ∨ j ≠ i ∧ pcs !! j = Some pc.
Proof. intros [(-> & -> & _)|[? ?]]%list_lookup_insert_Some; [by left|right; by split]. Qed.

Lemma insert_same i pc (pc' : Pc D) pcs : pcs !! i = Some pc → <[i := pc']> pcs !! i = Some pc'.
Proof. intros Hi. apply list_lookup_insert_eq. by eapply lookup_lt_Some. Qed.

(** The calls of a pool after one of them moved. *)
Lemma calls_update r r' raws pcs i pc pc' : Forall2 (pc_ok r) raws pcs → pcs !! i = Some pc →
  (∀ raw, pc_ok r raw pc → pc_ok r' raw pc') →
  (∀ j pc0 raw, j ≠ i → pcs !! j = Some pc0 → pc_ok r raw pc0 → pc_ok r' raw pc0) →
  Forall2 (pc_ok r') raws (<[i := pc']> pcs).
Proof.
  intros HF Hi Hnew Hold. apply Forall2_same_length_lookup. split; [by rewrite length_insert; eapply Forall2_length|].
  intros j raw pc0 Hr [(-> & ->)|[Hj Hpc]]%insert_inv.
  - apply Hnew. by eapply (Forall2_lookup_lr _ _ _ i).
  - eapply Hold; [done|done|]. by eapply (Forall2_lookup_lr _ _ _ j).
Qed.

(** A step that owns no slot, before or after, and changes no part the pool reads. *)
Lemma quiet_step raws pcs r i pc pc' : pool_ok raws pcs r → pcs !! i = Some pc →
  (∀ id k, ¬ owner id k pc) → (∀ id k, ¬ owner id k pc') → (∀ raw, pc_ok r raw pc → pc_ok r raw pc') →
  (∀ id k, pc' = Waiting id k → r_opening r !! id = Some k) →
  pool_ok raws (<[i := pc']> pcs) r.
Proof.
  intros [P1 P2 P3 P4 P5 P6] Hi Hno Hno' Hpc Hwait.
  assert (∀ j pc0 id k, pcs !! j = Some pc0 → owner id k pc0 → <[i := pc']> pcs !! j = Some pc0) as Hkeep.
  { intros j pc0 id k Hj Hown. rewrite list_lookup_insert_ne //. intros ->. simplify_eq. by destruct (Hno id k). }
  assert (∀ id k, r_opening r !! id = Some k → ∃ j pc0, <[i := pc']> pcs !! j = Some pc0 ∧ opener id k pc0) as Hopen.
  { intros id k (_ & _ & j & pc0 & Hj & Hown)%P2. exists j, pc0. split; [|done]. eapply Hkeep; [done|by left]. }
  split.
  - eapply calls_update; eauto.
  - intros id k Ho. destruct (P2 id k Ho) as (? & ? & _). split_and!; [done|done|by apply Hopen].
  - intros j id k [(-> & Hw)|[Hj Hpcj]]%insert_inv Hs.
    + destruct (Hopen id k) as (j & pc0 & ? & ?); [by apply Hwait|]. exists j, pc0. split; [done|by left].
    + destruct (P3 j id k Hpcj Hs) as (j' & pc0 & Hj' & Hown). exists j', pc0. split; [by eapply Hkeep|done].
  - intros j j' id id' k pc0 pc1 [(-> & ->)|[_ Hj]]%insert_inv [(-> & ->)|[_ Hj']]%insert_inv H1 H2; try done;
      [by destruct (Hno' id k)|by destruct (Hno' id' k)|by eapply (P4 j j')].
  - done.
  - done.
Qed.

(** A step of the owner of a slot that stays its owner. *)
Lemma owner_step raws pcs r r' i pc pc' id k : pool_ok raws pcs r → pcs !! i = Some pc → owner id k pc → owner id k pc' →
  Forall2 (pc_ok r') raws (<[i := pc']> pcs) →
  r_slots r' = r_slots r → r_next r' = r_next r → (∀ id s, r_stacks r' !! id = Some s → st_Tenant s = id) →
  (∀ id' k', r_opening r' !! id' = Some k' → r_opening r !! id' = Some k' ∧ r_stacks r' !! id' = None ∧ (k' = k → opener id' k' pc')) →
  pool_ok raws (<[i := pc']> pcs) r'.
Proof.
  intros [P1 P2 P3 P4 P5 P6] Hi Hown Hown' Hcalls Es En Hst' Ho.
  pose proof (insert_same i pc pc' pcs Hi) as Hi'.
  assert (∀ j pc0 id' k', pcs !! j = Some pc0 → owner id' k' pc0 → ∃ j pc0, <[i := pc']> pcs !! j = Some pc0 ∧ owner id' k' pc0) as Hkeep.
  { intros j pc0 id' k' Hj Hown0. destruct (decide (j = i)) as [->|Hne]; [|exists j, pc0; by rewrite list_lookup_insert_ne].
    simplify_eq. destruct (owner_slot _ _ _ _ _ Hown Hown0) as [<- <-]. by exists i, pc'. }
  split; [done| | | | |].
  - intros id' k' Hk. destruct (Ho _ _ Hk) as (Hk0 & Hst & Hop). destruct (P2 id' k' Hk0) as (Hsl & _ & j & pc0 & Hj & Hopj).
    rewrite Es. split_and!; [done|done|]. destruct (decide (j = i)) as [->|Hne]; [|exists j, pc0; by rewrite list_lookup_insert_ne].
    exists i, pc'. split; [done|]. simplify_eq. apply Hop. by destruct (owner_slot _ _ _ _ _ Hown (or_introl Hopj)).
  - intros j id' k' [(-> & <-)|[_ Hj]]%insert_inv; [by destruct Hown' as [[?|[? ?]]|[? ?]]|]. rewrite Es. intros Hs.
    destruct (P3 j id' k' Hj Hs) as (j' & pc0 & Hj' & Hown0). by apply (Hkeep j' pc0).
  - intros j j' id1 id2 k' pc0 pc1 [(-> & ->)|[Hne Hj]]%insert_inv [(-> & ->)|[Hne' Hj']]%insert_inv H1 H2; [done| | |by eapply (P4 j j')].
    + destruct (owner_slot _ _ _ _ _ Hown' H1) as [<- <-]. exfalso. by apply Hne', (P4 j' i id2 id k pc1 pc).
    + destruct (owner_slot _ _ _ _ _ Hown' H2) as [<- <-]. exfalso. by apply Hne, (P4 j i id1 id k pc0 pc).
  - rewrite Es En. done.
  - done.
Qed.

(** ** Every step keeps the invariant *)

Lemma openStack_frame env id r r' x : openStack empty env id r = (r', x) →
  (∃ dir, r' = upd_dir dir r) ∧ ∀ s, x = inr s → st_Tenant s = id.
Proof.
  assert (∃ dir, r = upd_dir dir r) as Hr by (exists (r_dir r); by destruct r).
  unfold openStack. repeat case_match; intros [= <- <-]; (split; [by first [exact Hr|eexists]|by intros ? [= <-]]).
Qed.

(** The first critical section, when it takes a slot. *)
Lemma opens_step raws pcs r i id m : pool_ok raws pcs r → pcs !! i = Some (Entering id m) →
  r_stacks r !! id = None → r_opening r !! id = None →
  pool_ok raws (<[i := Opening id (r_next r)]> pcs)
    (upd_opening (<[id := r_next r]> (r_opening r)) (upd_slots (<[r_next r := None]> (r_slots r)) (S (r_next r)) r)).
Proof.
  intros [P1 P2 P3 P4 P5 P6] Hi Hst Hno. set (k0 := r_next r).
  assert (r_slots r !! k0 = None) as Hfresh by (apply eq_None_not_Some; intros [v ?%P5]; unfold k0 in *; lia).
  pose proof (insert_same i _ (Opening id k0) pcs Hi) as Hi'.
  assert (∀ j pc0 id' k, pcs !! j = Some pc0 → owner id' k pc0 → <[i := Opening id k0]> pcs !! j = Some pc0) as Hkeep.
  { intros j pc0 id' k Hj Hown. rewrite list_lookup_insert_ne //. intros ->. simplify_eq. by destruct Hown as [[?|[??]]|[??]]. }
  assert (∀ j pc0 id' k, pcs !! j = Some pc0 → owner id' k pc0 → k ≠ k0) as Hold.
  { intros j pc0 id' k Hj Hown ->. destruct (Forall2_lookup_r _ _ _ _ _ P1 Hj) as (raw & _ & Hpc).
    destruct Hown as [[->|[x ->]]|[x ->]]; cbn [pc_ok] in Hpc; [destruct Hpc as [_ Ho]; apply P2 in Ho|destruct Hpc as (_ & Ho & _); apply P2 in Ho|]; naive_solver. }
  split; cbn [upd_opening upd_slots r_opening r_slots r_stacks r_next].
  - eapply calls_update; [done|done| |].
    + intros raw Hpc. cbn [pc_ok] in *. split; [done|]. cbn [r_opening upd_opening]. by rewrite lookup_insert_eq.
    + intros j pc0 raw Hne Hj Hpc. apply (pc_ok_frame r); [done| | |..|done]; cbn [upd_opening upd_slots r_opening r_slots r_stacks].
      * intros id' k _ Ho. rewrite lookup_insert_ne //. intros <-. congruence.
      * intros id' k x ->. destruct Hpc as (_ & Hs & _ & Hn). assert (k ≠ k0) as Hk by (eapply Hold; [done|right; by exists x]).
        split; [by rewrite lookup_insert_ne|]. intros id'' [[_ ?]|[_ ?]]%lookup_insert_Some; [done|by eapply Hn].
      * intros id' k v -> Hv Hs. exists v. rewrite lookup_insert_ne; [done|congruence].
  - intros id' k [[<- <-]|[Hne Ho]]%lookup_insert_Some.
    + rewrite lookup_insert_eq. split_and!; [done|done|]. exists i, (Opening id k0). split; [done|by left].
    + destruct (P2 id' k Ho) as (Hs & ? & j & pc0 & Hj & Hop). rewrite lookup_insert_ne; [|intros <-; congruence].
      split_and!; [done|done|]. exists j, pc0. split; [|done]. eapply Hkeep; [done|by left].
  - intros j id' k [(-> & ?)|[_ Hj]]%insert_inv; [done|]. intros [[<- _]|[_ Hs]]%lookup_insert_Some.
    + destruct (Forall2_lookup_r _ _ _ _ _ P1 Hj) as (raw & _ & _ & v & Hv & _). fold k0 in Hv. congruence.
    + destruct (P3 j id' k Hj Hs) as (j' & pc0 & Hj' & Hown). exists j', pc0. split; [by eapply Hkeep|done].
  - intros j j' id1 id2 k pc0 pc1 [(-> & ->)|[Hne Hj]]%insert_inv [(-> & ->)|[Hne' Hj']]%insert_inv H1 H2; [done| | |by eapply (P4 j j')].
    + destruct (owner_slot id k0 _ _ _ (or_introl (or_introl eq_refl)) H1) as [<- _]. by destruct (Hold _ _ _ _ Hj' H2).
    + destruct (owner_slot id k0 _ _ _ (or_introl (or_introl eq_refl)) H2) as [<- _]. by destruct (Hold _ _ _ _ Hj H1).
  - intros k v [[<- _]|[_ ?%P5]]%lookup_insert_Some; unfold k0 in *; lia.
  - done.
Qed.

Lemma publish_grows id x r : r_stacks r !! id = None → r_stacks r ⊆ r_stacks (ensure_publish id x r).
Proof. intros Hn. destruct x as [|s]; [done|]. by apply insert_subseteq. Qed.

(** The second critical section. *)
Lemma publish_step raws pcs r i id k x : pool_ok raws pcs r → pcs !! i = Some (Publishing id k x) →
  pool_ok raws (<[i := Closing id k x]> pcs) (ensure_publish id x r) ∧ r_stacks r !! id = None.
Proof.
  intros Hp Hi. pose proof Hp as [P1 P2 P3 P4 P5 P6].
  destruct (Forall2_lookup_r _ _ _ _ _ P1 Hi) as (raw0 & _ & _ & Ho & Hmade). destruct (P2 id k Ho) as (Hslot & Hst & _).
  assert (owner id k (Publishing id k x)) as Hown by (left; right; by exists x).
  assert (r_slots (ensure_publish id x r) = r_slots r ∧ r_next (ensure_publish id x r) = r_next r ∧
    r_opening (ensure_publish id x r) = delete id (r_opening r)) as (Es & En & Eo) by by destruct x.
  pose proof (publish_grows id x r Hst) as Hgrow.
  assert (∀ j pc0 id', pcs !! j = Some pc0 → owner id' k pc0 → j = i) as Huniq by (intros j pc0 id' Hj Ho'; by eapply (P4 j i)).
  assert (∀ id', r_opening r !! id' = Some k → id' = id) as Hslotid.
  { intros id' Ho'. destruct (P2 id' k Ho') as (_ & _ & j & pc0 & Hj & Hop). pose proof (Huniq j pc0 id' Hj (or_introl Hop)) as ->.
    simplify_eq. by destruct (owner_slot _ _ _ _ _ Hown (or_introl Hop)). }
  split; [|done]. eapply (owner_step raws pcs r _ i _ _ id k Hp Hi Hown); [right; by exists x| |done|done| |].
  - eapply calls_update; [done|done| |].
    + intros raw (Hraw & _ & _). cbn [pc_ok]. rewrite Es Eo. split_and!; [done|done| |].
      * destruct x as [|s]; [done|]. split; [by apply Hmade|]. apply lookup_insert_eq.
      * intros id' [Hne Ho']%lookup_delete_Some. by apply Hne, eq_sym, Hslotid.
    + intros j pc0 raw Hne Hj Hpc. apply (pc_ok_frame r); [done| | |..|done]; rewrite ?Es ?Eo.
      * intros id' k' Hop Ho'. rewrite lookup_delete_ne //. intros <-. rewrite Ho in Ho'. injection Ho' as <-.
        apply Hne. eapply Huniq; [done|by left].
      * intros id' k' x' ->. destruct Hpc as (_ & Hs & _ & Hn). split; [done|]. intros id'' [_ Hd]%lookup_delete_Some. by eapply Hn.
      * intros id' k' v -> Hv Hs. exists v. split; [done|]. intros x' Hx. eapply settled_mono; [done|by apply Hs].
  - destruct x as [|s]; [done|]. cbn [ensure_publish r_stacks upd_opening upd_stacks]. intros id' s' [[<- <-]|[_ Hs]]%lookup_insert_Some; [by apply Hmade|by apply P6].
  - intros id' k'. rewrite Eo. intros [Hne Ho']%lookup_delete_Some. split_and!; [done| |].
    + destruct (P2 id' k' Ho') as (_ & Hn & _). destruct x as [|s]; [done|]. cbn [ensure_publish r_stacks upd_opening upd_stacks]. by rewrite lookup_insert_ne.
    + intros ->. by destruct Hne; apply eq_sym, Hslotid.
Qed.

(** The result reaches the slot. *)
Lemma close_step raws pcs r i id k x : pool_ok raws pcs r → pcs !! i = Some (Closing id k x) →
  pool_ok raws (<[i := Returned x]> pcs) (ensure_close k x r).
Proof.
  intros [P1 P2 P3 P4 P5 P6] Hi.
  destruct (Forall2_lookup_r _ _ _ _ _ P1 Hi) as (raw0 & _ & _ & Hslot & Hset & Hnone).
  assert (owner id k (Closing id k x)) as Hown by (right; by exists x).
  assert (∀ j pc0 id' k', j ≠ i → pcs !! j = Some pc0 → owner id' k' pc0 → k' ≠ k) as Huniq.
  { intros j pc0 id' k' Hne Hj Ho' ->. apply Hne. by eapply (P4 j i). }
  assert (∀ j pc0 id' k', k' ≠ k → pcs !! j = Some pc0 → owner id' k' pc0 → <[i := Returned x]> pcs !! j = Some pc0) as Hkeep.
  { intros j pc0 id' k' Hne Hj Ho'. rewrite list_lookup_insert_ne //. intros ->. simplify_eq. by destruct (owner_slot _ _ _ _ _ Hown Ho'). }
  split; unfold ensure_close; cbn [upd_slots r_opening r_slots r_stacks r_next].
  - eapply calls_update; [done|done| |].
    + intros raw (Hraw & _) s ->. destruct Hset as [<- Hset]. split; [done|]. cbn [r_stacks upd_slots]. by rewrite Hset.
    + intros j pc0 raw Hne Hj Hpc. apply (pc_ok_frame r); [done|done| |..|done]; cbn [upd_slots r_opening r_slots r_stacks].
      * intros id' k' x' ->. destruct Hpc as (_ & Hs & _ & Hn). rewrite lookup_insert_ne //. apply not_eq_sym, (Huniq j _ id' k' Hne Hj). right; by exists x'.
      * intros id' k' v -> Hv Hs. destruct (decide (k' = k)) as [->|Hk]; [|exists v; by rewrite lookup_insert_ne].
        exists (Some x). rewrite lookup_insert_eq. split; [done|]. intros ? [= <-].
        rewrite Hslot in Hv. injection Hv as <-. destruct (P3 j id' k Hj Hslot) as (j' & pc1 & Hj' & Ho1).
        destruct (decide (j' = i)) as [->|Hne']; [|by destruct (Huniq j' pc1 id' k Hne' Hj' Ho1)]. simplify_eq.
        by destruct (owner_slot _ _ _ _ _ Hown Ho1) as [_ <-].
  - intros id' k' Ho'. assert (k' ≠ k) as Hk by (intros ->; by eapply Hnone).
    destruct (P2 id' k' Ho') as (? & ? & j & pc0 & Hj & Hop). rewrite lookup_insert_ne //. split_and!; [done|done|].
    exists j, pc0. split; [|done]. eapply Hkeep; [done|done|by left].
  - intros j id' k' [(-> & ?)|[Hne Hj]]%insert_inv Hs; [done|]. apply lookup_insert_Some in Hs as [[_ ?]|[Hk Hs]]; [done|].
    destruct (P3 j id' k' Hj Hs) as (j' & pc0 & Hj' & Ho'). exists j', pc0. split; [|done]. eapply Hkeep; [by apply not_eq_sym|done|done].
  - intros j j' id1 id2 k' pc0 pc1 [(-> & ->)|[Hne Hj]]%insert_inv [(-> & ->)|[Hne' Hj']]%insert_inv H1 H2;
      first [done|by destruct H1 as [[?|[??]]|[??]]|by destruct H2 as [[?|[??]]|[??]]|by eapply (P4 j j')].
  - intros k' v [[<- _]|[_ Hv]]%lookup_insert_Some; by eapply P5.
  - done.
Qed.

Lemma pool_dir raws pcs r dir : pool_ok raws pcs r → pool_ok raws pcs (upd_dir dir r).
Proof.
  intros [P1 P2 P3 P4 P5 P6]. by split.
Qed.

Lemma no_owner_waiting id k id' k' : ¬ owner id k (Waiting id' k').
Proof. by intros [[?|[??]]|[??]]. Qed.

Lemma advance_pool raws pcs r env i pc pc' r' : pool_ok raws pcs r → pcs !! i = Some pc → advance empty env pc r = Some (pc', r') →
  pool_ok raws (<[i := pc']> pcs) r' ∧ r_stacks r ⊆ r_stacks r'.
Proof.
  intros Hp Hi. pose proof Hp as [P1 P2 P3 P4 P5 P6].
  assert (∀ pc', (∀ id k, ¬ owner id k pc) → (∀ id k, ¬ owner id k pc') → (∀ raw, pc_ok r raw pc → pc_ok r raw pc') →
    (∀ id k, pc' = Waiting id k → r_opening r !! id = Some k) → pool_ok raws (<[i := pc']> pcs) r) as Hquiet by eauto using quiet_step.
  destruct pc as [raw|id m|id k|id k x|id k x|id k|x]; cbn [advance].
  - destruct (Sanitize raw) as [id|] eqn:Hid; intros [= <- <-]; (split; [|done]); apply Hquiet; try (by intros ?? [[?|[??]]|[??]]); try done.
    intros raw' Hr. cbn [pc_ok] in *. congruence.
  - unfold ensure_enter. destruct (r_stacks r !! id) as [s|] eqn:Hst; [|destruct (r_opening r !! id) as [k|] eqn:Ho; [|destruct (if m then _ else _) as [why|]]];
      intros [= <- <-]; (split; [|done]); try (apply Hquiet; try (by intros ?? [[?|[??]]|[??]]); try done).
    + intros raw Hr s' [= <-]. cbn [pc_ok] in Hr. rewrite (P6 id s Hst). done.
    + intros raw Hr. split; [done|]. exists None. split; [|done]. by apply (P2 id k).
    + intros id' k' [= <- <-]. done.
    + by apply (opens_step raws pcs r i id m).
  - destruct (openStack empty env id r) as [r1 x] eqn:Hopen. intros [= <- <-].
    destruct (openStack_frame env id r r1 x Hopen) as [[dir ->] Hmade]. split; [|done]. apply pool_dir.
    eapply (owner_step raws pcs r r i _ _ id k Hp Hi); [by left; left|left; right; by exists x| |done|done|done|].
    + eapply calls_update; [done|done| |done]. intros raw [? ?]. by split_and!.
    + intros id' k' Ho. destruct (P2 id' k' Ho) as (_ & ? & j & pc0 & Hj & Hop). split_and!; [done|done|]. intros ->.
      assert (j = i) as -> by (eapply (P4 j i); [done|done|by left|by left; left]). simplify_eq.
      destruct Hop as [[= ->]|[? ?]]; [|done]. right. by exists x.
  - intros [= <- <-]. destruct (publish_step raws pcs r i id k x Hp Hi). split; [done|]. by apply publish_grows.
  - intros [= <- <-]. split; [|done]. by eapply close_step.
  - destruct (r_slots r !! k) as [[x|]|] eqn:Hs; [|done..]. intros [= <- <-]. split; [|done]. apply Hquiet; try (by intros ?? [[?|[??]]|[??]]); try done.
    intros raw (Hraw & v & Hv & Hset) s ->. rewrite Hs in Hv. injection Hv as <-. destruct (Hset _ eq_refl) as [-> ?]. by split.
  - done.
Qed.
End registry_inv.
