(* ===== verification/RegistrySpec.v ===== *)
(** * What the registry promises

    For any pool of concurrent calls: one stack per tenant, opened once; every call
    returns; only tenants the limits permit are minted and the cap bounds them. For boot:
    every persisted tenant is opened or quarantined, whatever the limits. At the end the
    theorems are instantiated by schedules over databases in memory, and a tenant id is run
    that is accepted and that boot does not find. *)
From S2P Require Import Prelude GoStd Events Projection Keys Store Boot Tenant Registry RegistryInv StoreExamples.
Open Scope Z_scope.

Section registry_spec.
Context {D : Type} `{!Pebble D} `{!Proto} (empty : D).
#[local] Abbreviation Res := (RegError + Stack D)%type.
Implicit Types (r : Registry D) (pcs : list (Pc D)) (pc : Pc D) (x : Res) (k : nat).

Lemma reachable_pool raws pcs pcs' r r' : pool_ok raws pcs r → rtc (step empty) (pcs, r) (pcs', r') →
  pool_ok raws pcs' r' ∧ r_stacks r ⊆ r_stacks r'.
Proof.
  intros Hp Hs. remember (pcs, r) as σ eqn:E. remember (pcs', r') as σ' eqn:E'. revert pcs r Hp E.
  induction Hs as [σ|σ1 σ2 σ3 Hstep _ IH]; intros pcs r Hp ->; [by simplify_eq|].
  inversion Hstep as [? ? i pc env pc' r1 Hi Ha]; subst. destruct (advance_pool empty raws pcs r env i pc pc' r1 Hp Hi Ha) as [Hp' Hsub].
  destruct (IH eq_refl _ _ Hp' eq_refl) as [? ?]. split; [done|]. by etrans.
Qed.

(** C13. One stack per tenant. However the concurrent calls of a pool interleave, no two of
    them are opening the same tenant's database, and none opens a tenant whose stack is
    already there; a stack that is there stays; a call that returns a stack returns the
    one of the registry, for the tenant it was called with, so that two calls for one
    tenant return the same stack. *)
Theorem one_stack_per_tenant (raws : list string) (r r' : Registry D) (pcs : list (Pc D))
    (Hrest : at_rest r) (Hrun : rtc (step empty) (Called <$> raws, r) (pcs, r')) :
  (∀ i j id k k', pcs !! i = Some (Opening id k) → pcs !! j = Some (Opening id k') → i = j) ∧
  (∀ i id k, pcs !! i = Some (Opening id k) → r_stacks r' !! id = None) ∧
  r_stacks r ⊆ r_stacks r' ∧
  (∀ i raw s, raws !! i = Some raw → pcs !! i = Some (Returned (inr s)) →
    Sanitize raw = Some (st_Tenant s) ∧ Peek raw r' = Some s).
Proof.
  destruct (reachable_pool raws _ _ _ _ (pool_start raws r Hrest) Hrun) as [Hp Hsub].
  assert (∀ i id k, pcs !! i = Some (Opening id k) → r_opening r' !! id = Some k) as Ho.
  { intros i id k Hi. by destruct (Forall2_lookup_r _ _ _ _ _ (po_calls _ _ _ Hp) Hi) as (? & _ & _ & ?). }
  split_and!; [| |done|].
  - intros i j id k k' Hi Hj. assert (k = k') as <- by (apply Ho in Hi, Hj; congruence).
    eapply (po_owner _ _ _ Hp i j id id k); [done|done|by left; left|by left; left].
  - intros i id k Hi%Ho. by apply (po_opening _ _ _ Hp id k) in Hi as (_ & ? & _).
  - intros i raw s Hraw Hi. pose proof (Forall2_lookup_lr _ _ _ _ _ _ (po_calls _ _ _ Hp) Hraw Hi) as Hr.
    destruct (Hr s eq_refl) as [Hs Hst]. split; [done|]. by rewrite /Peek Hs.
Qed.

(** ** Every call returns *)

Definition pc_rank (pc : Pc D) : nat :=
  match pc with
  | Called _ => 6 | Entering _ _ => 5 | Opening _ _ => 4 | Publishing _ _ _ => 3 | Closing _ _ _ => 2 | Waiting _ _ => 1 | Returned _ => 0
  end.
Definition work (pcs : list (Pc D)) : nat := sum_list (pc_rank <$> pcs).

Lemma advance_rank env pc r pc' r' : advance empty env pc r = Some (pc', r') → (pc_rank pc' < pc_rank pc)%nat.
Proof.
  destruct pc; cbn [advance]; repeat case_match; intros; simplify_eq; simpl; lia.
Qed.

Lemma work_insert pcs i pc pc' : pcs !! i = Some pc → (work (<[i := pc']> pcs) + pc_rank pc = work pcs + pc_rank pc')%nat.
Proof.
  unfold work. revert i. induction pcs as [|pc0 pcs IH]; intros [|i] Hi; simplify_eq/=; [lia|]. specialize (IH i Hi). lia.
Qed.

(** The calls that can move. *)
Definition can_move (pcs : list (Pc D)) (r : Registry D) (env : Env) : Prop :=
  ∃ i pc, pcs !! i = Some pc ∧ is_Some (advance empty env pc r).

Lemma returned_or_moves raws pcs r env : pool_ok raws pcs r →
  can_move pcs r env ∨ Forall (λ pc, ∃ x, pc = Returned x) pcs.
Proof.
  intros Hp. destruct (decide (Exists (λ pc, is_Some (advance empty env pc r)) pcs)) as [(pc & Hpc & Hm)%Exists_exists|Hn].
  { apply list_elem_of_lookup in Hpc as [i Hi]. left. by exists i, pc. }
  right. apply Forall_forall. intros pc [i Hi]%list_elem_of_lookup.
  assert (∀ j pc0, pcs !! j = Some pc0 → advance empty env pc0 r = None) as Hstuck.
  { intros j pc0 Hj. apply eq_None_not_Some. intros Hm. apply Hn, Exists_exists. exists pc0. split; [by eapply list_elem_of_lookup_2|done]. }
  pose proof (Hstuck i pc Hi) as Hs. destruct pc as [raw|id m|id k|id k x|id k x|id k|x]; cbn [advance] in Hs; try (by repeat case_match); [|by exists x].
  destruct (Forall2_lookup_r _ _ _ _ _ (po_calls _ _ _ Hp) Hi) as (raw & _ & _ & v & Hv & _). rewrite Hv in Hs. destruct v as [x|]; [done|].
  destruct (po_waiting _ _ _ Hp i id k Hi Hv) as (j & pc0 & Hj & Hown). apply Hstuck in Hj.
  destruct Hown as [[->|[x ->]]|[x ->]]; cbn [advance] in Hj; by repeat case_match.
Qed.

(** Every call returns. A pool of [n] calls takes at most [6 n] steps, whatever the
    openings answer, and a pool in which no call can move has returned from every call:
    nobody waits for a slot whose opener is gone. *)
Theorem every_call_returns (raws : list string) (r r' : Registry D) (pcs : list (Pc D)) (n : nat) (env : Env)
    (Hrest : at_rest r) (Hrun : nsteps (step empty) n (Called <$> raws, r) (pcs, r')) :
  (n ≤ 6 * length raws)%nat ∧ (can_move pcs r' env ∨ Forall (λ pc, ∃ x, pc = Returned x) pcs).
Proof.
  split.
  - assert (∀ σ σ', nsteps (step empty) n σ σ' → (n + work σ'.1 ≤ work σ.1)%nat) as Hw.
    { clear. induction 1 as [σ|n σ1 σ2 σ3 Hstep _ IH]; [done|]. inversion Hstep as [pcs r i pc env pc' r1 Hi Ha]; subst. simpl in *.
      apply advance_rank in Ha. pose proof (work_insert pcs i pc pc' Hi). lia. }
    apply Hw in Hrun. simpl in Hrun. assert (work (Called <$> raws) = 6 * length raws)%nat as E; [|lia].
    clear. unfold work. induction raws as [|raw raws IH]; [done|]. rewrite fmap_cons. cbn [fmap list_fmap sum_list_with pc_rank length id]. unfold id at 1. rewrite IH. lia.
  - destruct (reachable_pool raws _ _ _ _ (pool_start raws r Hrest) (rtc_nsteps_2 _ _ _ Hrun)) as [Hp _]. by eapply returned_or_moves.
Qed.

(** ** The limits *)

(** The ids the limits let a call mint, the cap aside. *)
Definition permitted (l : Limits) (id : string) : Prop :=
  id = Default ∨ AutoCreate l = true ∧ (Allowlist l = [] ∨ id ∈ Allowlist l).

Lemma allows_spec l id open : allows l id open = None →
  permitted l id ∧ (id ≠ Default → 0 < MaxTenants l → open < MaxTenants l).
Proof.
  unfold allows, permitted. case_bool_decide as Hd; [intros _; split; [by left|done]|].
  destruct (AutoCreate l); [|done]. cbn [negb]. destruct (negb (bool_decide (Allowlist l = [])) && negb (bool_decide (id ∈ Allowlist l))) eqn:Hl; [done|].
  destruct ((0 <? MaxTenants l) && (MaxTenants l <=? open)) eqn:Hc; [done|]. intros _. apply andb_false_iff in Hl, Hc. split; [right; split; [done|]|intros _ Hm].
  - destruct Hl as [Hl|Hl]; apply negb_false_iff, bool_decide_eq_true in Hl; auto.
  - destruct Hc as [Hc|Hc]; [apply Z.ltb_ge in Hc; lia|by apply Z.leb_gt].
Qed.

(** A call about to take a slot that no limit was asked for: its directory was there, or it is the default tenant. *)
Definition unlimited (pc : Pc D) (r : Registry D) : bool :=
  match pc with
  | Entering id m => match (ensure_enter id m r).2 with Opens _ => negb m || bool_decide (id = Default) | _ => false end
  | _ => false
  end.

(** Runs, with the number of slots taken so. *)
Inductive runs : Z → list (Pc D) * Registry D → list (Pc D) * Registry D → Prop :=
| runs_refl σ : runs 0 σ σ
| runs_step n σ pcs r i pc env pc' r' : runs n σ (pcs, r) → pcs !! i = Some pc → advance empty env pc r = Some (pc', r') →
    runs (n + if unlimited pc r then 1 else 0) σ (<[i := pc']> pcs, r').

Lemma runs_rtc n σ σ' : runs n σ σ' → rtc (step empty) σ σ'.
Proof. induction 1 as [|n σ pcs r i pc env pc' r' _ IH Hi Ha]; [done|]. eapply rtc_r; [done|]. by econstructor. Qed.

Lemma openStack_dir env id r r' x : openStack empty env id r = (r', x) →
  ∀ id', is_Some (r_dir r' !! id') → is_Some (r_dir r !! id') ∨ id' = id.
Proof.
  assert (∀ d id', is_Some (<[id := d]> (r_dir r) !! id') → is_Some (r_dir r !! id') ∨ id' = id) as Hins.
  { intros d id'. destruct (decide (id = id')) as [->|Hne]; [by right|]. rewrite lookup_insert_ne //. by left. }
  unfold openStack. repeat case_match; intros [= <- <-] id'; cbn [r_dir upd_dir]; try (by left); apply Hins.
Qed.

Definition known (r0 : Registry D) (id : string) : Prop :=
  is_Some (r_dir r0 !! id) ∨ is_Some (r_stacks r0 !! id) ∨ permitted (r_limits r0) id.

(** What the limits leave true of a pool. *)
Record within_limits (r0 : Registry D) (n : Z) (pcs : list (Pc D)) (r : Registry D) : Prop := {
  wl_pos : 0 <= n;
  wl_limits : r_limits r = r_limits r0;
  wl_dir : ∀ id, is_Some (r_dir r !! id) → known r0 id;
  wl_stacks : ∀ id, is_Some (r_stacks r !! id) → known r0 id;
  wl_opening : ∀ id, is_Some (r_opening r !! id) → known r0 id;
  wl_entering : ∀ i id, pcs !! i = Some (Entering id false) → known r0 id;
  wl_count : 0 < MaxTenants (r_limits r0) → open_count r <= Z.max (MaxTenants (r_limits r0)) (open_count r0) + n;
}.

Lemma publish_count id x r : r_stacks r !! id = None → is_Some (r_opening r !! id) →
  open_count (ensure_publish id x r) <= open_count r.
Proof.
  intros Hs [k Ho]. unfold open_count, ensure_publish.
  assert (size (delete id (r_opening r)) = Nat.pred (size (r_opening r))) as Ed by (apply map_size_delete_Some; by eexists).
  assert (size (r_opening r) ≠ 0)%nat by (apply map_size_ne_0_lookup; exists id; by rewrite Ho).
  destruct x as [|s]; cbn [r_stacks r_opening upd_opening upd_stacks]; rewrite Ed; [|rewrite map_size_insert_None //]; lia.
Qed.

Lemma enter_within r0 n pcs r i id m r1 e : within_limits r0 n pcs r → pcs !! i = Some (Entering id m) →
  ensure_enter id m r = (r1, e) → ∀ pc', (∀ id', pc' ≠ Entering id' false) →
  within_limits r0 (n + if unlimited (Entering id m) r then 1 else 0) (<[i := pc']> pcs) r1.
Proof.
  intros [W0 W1 W2 W3 W4 W5 W6] Hi He pc' Hpc'.
  assert (∀ j id', <[i := pc']> pcs !! j = Some (Entering id' false) → known r0 id') as W5'.
  { intros j id' [(-> & E)|[_ Hj]]%insert_inv; [by destruct (Hpc' id')|by eapply W5]. }
  unfold unlimited. rewrite He. cbn [snd]. unfold ensure_enter in He.
  destruct (r_stacks r !! id) eqn:Hst; [injection He as <- <-; rewrite Z.add_0_r; by split|].
  destruct (r_opening r !! id) eqn:Ho; [injection He as <- <-; rewrite Z.add_0_r; by split|].
  destruct (if m then allows (r_limits r) id (open_count r) else None) as [why|] eqn:Hl; injection He as <- <-; [rewrite Z.add_0_r; by split|].
  split; cbn [upd_opening upd_slots r_limits r_dir r_stacks r_opening]; [destruct (_ || _); lia|done|done|done| |done|].
  - intros id' [k [[<- _]|[_ Hk]]%lookup_insert_Some]; [|apply W4; by eexists].
    destruct m; [right; right; rewrite -W1; by apply (allows_spec _ _ _ Hl)|by eapply W5].
  - intros Hmax. specialize (W6 Hmax). unfold open_count in *. cbn [upd_opening upd_slots r_stacks r_opening]. rewrite map_size_insert_None //.
    destruct m; cbn [negb orb]; [|lia]. destruct (allows_spec _ _ _ Hl) as [_ Hcap]. rewrite W1 in Hcap. case_bool_decide as Hd; [lia|].
    specialize (Hcap Hd Hmax). lia.
Qed.

Lemma runs_within raws r0 n σ : at_rest r0 → runs n (Called <$> raws, r0) σ → within_limits r0 n σ.1 σ.2.
Proof.
  intros Hrest Hr. remember (Called <$> raws, r0) as σ0 eqn:E. pose proof Hr as Hpool. revert E Hpool.
  induction Hr as [σ|n σ pcs r i pc env pc' r' Hr IH Hi Ha]; intros -> _.
  { split; cbn [fst snd]; [done|done|by left|intros; right; by left| | |lia].
    - intros id. rewrite (proj1 Hrest) lookup_empty. by intros [? ?].
    - intros i id (? & ? & _)%list_lookup_fmap_Some. done. }
  specialize (IH eq_refl Hr). cbn [fst snd] in *.
  destruct (reachable_pool raws _ _ _ _ (pool_start raws r0 Hrest) (runs_rtc _ _ _ Hr)) as [Hp _].
  assert (∀ r1 n', r_limits r1 = r_limits r → (∀ id, is_Some (r_dir r1 !! id) → known r0 id) → (∀ id, is_Some (r_stacks r1 !! id) → known r0 id) →
    (∀ id, is_Some (r_opening r1 !! id) → is_Some (r_opening r !! id)) → open_count r1 <= open_count r → n' = n →
    (∀ id, pc' = Entering id false → known r0 id) → within_limits r0 n' (<[i := pc']> pcs) r1) as Hkeep.
  { destruct IH as [W0 W1 W2 W3 W4 W5 W6]. intros r1 n' El Hd Hst Ho Hc -> Hpc. split; [done|congruence|done|done|by intros ? ?%Ho%W4| |intros Hm; specialize (W6 Hm); lia].
    intros j id [(-> & E)|[_ Hj]]%insert_inv; [by apply Hpc|by eapply W5]. }
  pose proof IH as [W0 W1 W2 W3 W4 W5 W6].
  destruct pc as [raw|id m|id k|id k x|id k x|id k|x]; cbn [advance] in Ha.
  - destruct (Sanitize raw) as [id|] eqn:Hid; injection Ha as <- <-; (apply Hkeep; cbn [unlimited]; try done; try lia).
    intros id' [= <- Hd]. apply W2. apply bool_decide_eq_false in Hd. by apply not_eq_None_Some.
  - destruct (ensure_enter id m r) as [r1 e] eqn:He. injection Ha as <- <-. eapply enter_within; [done|done|done|]. intros id'. by destruct e.
  - destruct (openStack empty env id r) as [r1 x] eqn:Hop. injection Ha as <- <-.
    destruct (openStack_frame empty env id r r1 x Hop) as [[dir ->] _].
    destruct (Forall2_lookup_r _ _ _ _ _ (po_calls _ _ _ Hp) Hi) as (raw & _ & _ & Ho).
    apply Hkeep; cbn [unlimited]; try done; try lia.
    intros id' [?| ->]%(openStack_dir env id r _ x Hop); [by apply W2|apply W4; by eexists].
  - injection Ha as <- <-. destruct (Forall2_lookup_r _ _ _ _ _ (po_calls _ _ _ Hp) Hi) as (raw & _ & _ & Ho & _).
    destruct (po_opening _ _ _ Hp id k Ho) as (_ & Hst & _).
    apply Hkeep; cbn [unlimited]; try done; try lia; [by destruct x|by destruct x| | |by apply publish_count; [|eexists]].
    + intros id'. destruct x as [|s]; [by apply W3|]. cbn [ensure_publish upd_opening upd_stacks r_stacks].
      destruct (decide (id = id')) as [<-|Hne]; [intros _; apply W4; by eexists|rewrite lookup_insert_ne //; by apply W3].
    + intros id' [k' Hk]. assert (delete id (r_opening r) !! id' = Some k') as [_ ?]%lookup_delete_Some by (by destruct x). by eexists.
  - injection Ha as <- <-. apply Hkeep; cbn [unlimited]; try done; lia.
  - destruct (r_slots r !! k) as [[x|]|]; [|done..]. injection Ha as <- <-. apply Hkeep; cbn [unlimited]; try done; lia.
  - done.
Qed.

(** The limits bind. Whatever calls a pool makes and however they interleave, a
    tenant has a stack or a directory only if it had one before, or is the default
    tenant, or auto-creation is on and the allowlist, if any, names it; and the stacks
    open or being opened exceed neither the cap nor their former number by more than the
    slots that were taken for the default tenant or for a directory that existed: minting
    never overshoots the cap, however many calls mint at once. *)
Theorem limits_bind (raws : list string) (r r' : Registry D) (pcs : list (Pc D)) (n : Z)
    (Hrest : at_rest r) (Hrun : runs n (Called <$> raws, r) (pcs, r')) :
  (∀ id, is_Some (r_stacks r' !! id) ∨ is_Some (r_dir r' !! id) →
    is_Some (r_dir r !! id) ∨ is_Some (r_stacks r !! id) ∨ permitted (r_limits r) id) ∧
  (0 < MaxTenants (r_limits r) → open_count r' <= Z.max (MaxTenants (r_limits r)) (open_count r) + n).
Proof.
  destruct (runs_within raws r n _ Hrest Hrun) as [_ _ Wd Ws _ _ Wc]. split; [|done]. intros id [?|?]; [by apply Ws|by apply Wd].
Qed.

(** ** Boot *)

Lemma hidden_dirs dir id : id ∈ (tenantDirs (D:=D) dir).1 ↔ (∃ d, dir !! id = Some (NDir d)) ∧ hidden id = false ∧ Sanitize id = Some id.
Proof.
  unfold tenantDirs. cbn [fst]. rewrite !list_elem_of_filter elem_of_sorted_keys. split.
  - intros (Hs & Hd & _). destruct (dir !! id) as [[|d]|]; [done| |done]. apply negb_true_iff in Hd. split_and!; [by eexists|done|done].
  - intros ([d Hd] & Hh & Hs). rewrite Hd Hh. split_and!; [done|done|by eexists].
Qed.

(** [ensure] alone, from rest. *)
Lemma ensure_rest env id r r' x : at_rest r → ensure empty env id false r = (r', x) →
  at_rest r' ∧ r_quarantined r' = r_quarantined r ∧ r_stacks r ⊆ r_stacks r' ∧
  (∀ id', is_Some (r_stacks r' !! id') → is_Some (r_stacks r !! id') ∨ id' = id) ∧
  match x with inr s => r_stacks r' !! id = Some s | inl err => r_stacks r' = r_stacks r ∧ ∃ r0, (openStack empty env id r0).2 = inl err end.
Proof.
  intros (Ho & Hs & Ht). unfold ensure, ensure_enter. destruct (r_stacks r !! id) as [s|] eqn:Hst.
  { intros [= <- <-]. split_and!; try done. by left. }
  rewrite Ho lookup_empty. set (r1 := upd_opening _ _). destruct (openStack empty env id r1) as [r2 x0] eqn:Hop. intros [= <- <-].
  destruct (openStack_frame empty env id r1 r2 x0 Hop) as [[dir ->] Hmade].
  assert (at_rest (ensure_close (r_next r) x0 (ensure_publish id x0 (upd_dir dir r1)))) as Hrest.
  { split_and!; destruct x0 as [|s0]; cbn.
    1,2: by rewrite insert_empty delete_singleton_eq.
    1,2: intros k v [[<- _]|[_ [[<- _]|[_ ?%Hs]]%lookup_insert_Some]]%lookup_insert_Some; lia.
    - done.
    - intros id' s' [[<- <-]|[_ ?]]%lookup_insert_Some; [by apply Hmade|by apply Ht]. }
  split; [exact Hrest|]. destruct x0 as [err|s0]; cbn; split_and!; try done.
  - intros id' ?. by left.
  - exists r1. by rewrite Hop.
  - by apply insert_subseteq.
  - intros id'. destruct (decide (id = id')) as [<-|Hne]; [by right|]. rewrite lookup_insert_ne //. by left.
  - by rewrite lookup_insert_eq.
Qed.

(** The registry while boot goes through the tenant directories. *)
Record booted (ids : list string) (r : Registry D) : Prop := {
  bt_rest : at_rest r;
  bt_covered : ∀ id, id ∈ ids → is_Some (r_stacks r !! id) ∨ id ∈ r_quarantined r;
  bt_stacks : ∀ id, is_Some (r_stacks r !! id) → id ∈ ids;
  bt_quarantined : ∀ id, id ∈ r_quarantined r → id ∈ ids;
}.

Lemma boot_tenant_step envs ids r id : booted ids r → booted (ids ++ [id]) (boot_tenant empty envs r id).
Proof.
  intros [B1 B2 B3 B4]. unfold boot_tenant. destruct (ensure empty (envs id) id false r) as [r1 x] eqn:He.
  destruct (ensure_rest _ _ _ _ _ B1 He) as (Hrest & Hq & Hsub & Hback & Hx).
  assert (∀ id', id' ∈ ids → is_Some (r_stacks r1 !! id') ∨ id' ∈ r_quarantined r1) as Hcov.
  { intros id' [[s Hs]|?]%B2; [left; exists s; by eapply lookup_weaken|right; by rewrite Hq]. }
  assert (∀ id', is_Some (r_stacks r1 !! id') → id' ∈ (ids ++ [id])%list) as Hst.
  { intros id' [?| ->]%Hback; apply elem_of_app; [left; by apply B3|right; by left]. }
  destruct x as [err|s].
  - split; cbn [upd_quarantined r_quarantined r_stacks]; [done| |done|].
    + intros id' [Hi| ->%list_elem_of_singleton]%elem_of_app; [destruct (Hcov id' Hi); [by left|right; apply elem_of_app; by left]|right; apply elem_of_app; right; by left].
    + intros id' [Hi|Hi]%elem_of_app; apply elem_of_app; [left; apply B4; by rewrite -Hq|by right].
  - split; [done| |done|].
    + intros id' [Hi| ->%list_elem_of_singleton]%elem_of_app; [by apply Hcov|left; by eexists].
    + intros id'. rewrite Hq. intros ?%B4. apply elem_of_app. by left.
Qed.

(** Boot covers every persisted tenant. When the registry opens, each directory that
    is visible and named by a canonical tenant id has its stack, or is listed as
    quarantined; the limits do not matter; nothing else but the default tenant has a
    stack; and the registry is at rest, so that what is proved of concurrent calls
    applies from there. It fails only where the default tenant's stack fails to open. *)
Theorem boot_covers_tenants (envs : string → Env) (env : Env) (dir : gmap string (Node D)) (acc : bool) (limits : Limits) :
  match openWithClock empty envs env dir acc limits with
  | inr r =>
    (∀ id d, dir !! id = Some (NDir d) → hidden id = false → Sanitize id = Some id → is_Some (r_stacks r !! id) ∨ id ∈ r_quarantined r) ∧
    is_Some (r_stacks r !! Default) ∧
    (∀ id, is_Some (r_stacks r !! id) → id = Default ∨ Sanitize id = Some id ∧ ∃ d, dir !! id = Some (NDir d)) ∧
    at_rest r
  | inl err => ∃ r, (openStack empty env Default r).2 = inl err
  end.
Proof.
  unfold openWithClock. set (r0 := new_registry dir acc limits).
  assert (booted [] r0) as H0.
  { split; [split_and!; try done|..]; intros id; rewrite ?lookup_empty; try by intros []. all: set_solver. }
  assert (∀ done ids r, booted done r → booted (done ++ ids) (foldl (boot_tenant empty envs) r ids)) as Hfold.
  { intros dn ids. revert dn. induction ids as [|id ids IH]; intros dn r Hb; [by rewrite app_nil_r|]. cbn [foldl].
    rewrite (cons_middle id dn ids) app_assoc. by apply IH, boot_tenant_step. }
  specialize (Hfold [] (tenantDirs dir).1 r0 H0). rewrite app_nil_l in Hfold.
  destruct (ensure empty env Default false (foldl _ _ _)) as [r x] eqn:He.
  destruct Hfold as [B1 B2 B3 B4]. destruct (ensure_rest _ _ _ _ _ B1 He) as (Hrest & Hq & Hsub & Hback & Hx).
  destruct x as [err|s]; [by destruct Hx|]. split_and!; [|by eexists| |done].
  - intros id d Hd Hh Hs. destruct (B2 id) as [[s' Hs']|?]; [apply hidden_dirs; split_and!; [by eexists|done|done]|left; exists s'; by eapply lookup_weaken|right; by rewrite Hq].
  - intros id [(Hd & _ & Hs)%B3%hidden_dirs| ->]%Hback; [right; by split|by left].
Qed.
End registry_spec.

(** ** Concrete runs *)

#[local] Instance no_messages : Proto := table_codec [].
#[local] Abbreviation Db := (gmap string string).
#[local] Abbreviation Reg := (Registry Db).

(** The openings all succeed. *)
Definition fair : Env := mkEnv None false None (at_second 0).

(** The calls that advance, in order. *)
Fixpoint schedule (l : list nat) (n : Z) (σ : list (Pc Db) * Reg) : option (Z * (list (Pc Db) * Reg)) :=
  match l with
  | [] => Some (n, σ)
  | i :: l =>
    match σ.1 !! i with
    | Some pc =>
      match advance ∅ fair pc σ.2 with
      | Some (pc', r') => schedule l (n + if unlimited pc σ.2 then 1 else 0) (<[i := pc']> σ.1, r')
      | None => None
      end
    | None => None
    end
  end.

Lemma schedule_runs l n0 n σ0 σ σ' : runs ∅ n0 σ0 σ → schedule l n0 σ = Some (n, σ') → runs ∅ n σ0 σ'.
Proof.
  revert n0 σ. induction l as [|i l IH]; intros n0 [pcs r] Hr; cbn [schedule fst snd]; [by intros [= <- <-]|].
  destruct (pcs !! i) as [pc|] eqn:Hi; [|done]. destruct (advance ∅ fair pc r) as [[pc' r']|] eqn:Ha; [|done].
  apply IH. by econstructor.
Qed.
Lemma schedule_nsteps l n0 n σ σ' : schedule l n0 σ = Some (n, σ') → nsteps (step ∅) (length l) σ σ'.
Proof.
  revert n0 σ. induction l as [|i l IH]; intros n0 [pcs r]; cbn [schedule fst snd length]; [intros [= _ <-]; constructor|].
  destruct (pcs !! i) as [pc|] eqn:Hi; [|done]. destruct (advance ∅ fair pc r) as [[pc' r']|] eqn:Ha; [|done].
  intros Hs. econstructor; [by econstructor|by eapply IH].
Qed.

(** ** Two calls for one new tenant, and one refused by the cap *)

Definition capped : Reg := new_registry ∅ false (mkLimits true [] 1).
Definition calls : list string := ["acme"; " acme"; "globex"]%string.
(** The second call finds the slot of the first; the third finds the cap reached. *)
Definition order : list nat := [0; 1; 0; 2; 1; 0; 2; 0; 0; 1]%nat.
Definition outcome : Z * (list (Pc Db) * Reg) := default (0, ([], capped)) (schedule order 0 (Called <$> calls, capped)).

Lemma outcome_eq : schedule order 0 (Called <$> calls, capped) = Some outcome.
Proof.
  assert (match schedule order 0 (Called <$> calls, capped) with Some _ => true | None => false end = true) as Hs by (vm_compute; reflexivity).
  unfold outcome. destruct (schedule _ _ _); [done|discriminate Hs].
Qed.
Lemma outcome_pcs : match outcome.2.1 with
  | [Returned (inr s); Returned (inr s'); Returned (inl (NotAllowed CapReached))] => bool_decide (st_Tenant s = "acme"%string)
  | _ => false end = true.
Proof. vm_compute. reflexivity. Qed.
Lemma capped_rest : at_rest capped.
Proof. split_and!; [done|..]; intros ??; by rewrite lookup_empty. Qed.
Lemma outcome_runs : runs ∅ outcome.1 (Called <$> calls, capped) (outcome.2.1, outcome.2.2).
Proof.
  rewrite -surjective_pairing. apply (schedule_runs order 0 _ _ (Called <$> calls, capped)); [constructor|].
  rewrite outcome_eq. by destruct outcome.
Qed.

Lemma one_stack_per_tenant_witness : ∃ s s',
  outcome.2.1 !! 0%nat = Some (Returned (inr s)) ∧ outcome.2.1 !! 1%nat = Some (Returned (inr s')) ∧
  Peek "acme" outcome.2.2 = Some s ∧ Peek " acme" outcome.2.2 = Some s'.
Proof.
  pose proof outcome_pcs as Hp. pose proof (runs_rtc ∅ _ _ _ outcome_runs) as Hrun. revert Hp Hrun.
  generalize outcome.2.1 as pcs. generalize outcome.2.2 as r. intros r pcs Hp Hrun.
  destruct (one_stack_per_tenant ∅ calls capped r pcs capped_rest Hrun) as (_ & _ & _ & Hret).
  destruct pcs as [|[| | | | | |[?|s]] [|[| | | | | |[?|s']] pcs]]; try discriminate Hp.
  exists s, s'. split_and!; [reflexivity|reflexivity| |].
  - exact (proj2 (Hret 0%nat "acme"%string s eq_refl eq_refl)).
  - exact (proj2 (Hret 1%nat " acme"%string s' eq_refl eq_refl)).
Defined.

Lemma outcome_nsteps : nsteps (step ∅) 10 (Called <$> calls, capped) (outcome.2.1, outcome.2.2).
Proof.
  rewrite -surjective_pairing. apply (schedule_nsteps order 0 outcome.1). rewrite outcome_eq. by destruct outcome.
Qed.
Lemma every_call_returns_witness :
  (10 ≤ 6 * length calls)%nat ∧ (can_move ∅ outcome.2.1 outcome.2.2 fair ∨ Forall (λ pc, ∃ x, pc = Returned x) outcome.2.1).
Proof. exact (every_call_returns ∅ calls capped outcome.2.2 outcome.2.1 10 fair capped_rest outcome_nsteps). Defined.

Lemma outcome_free : outcome.1 = 0.
Proof. vm_compute. reflexivity. Qed.
Lemma limits_bind_witness : outcome.1 = 0 ∧ open_count outcome.2.2 <= 1.
Proof.
  split; [exact outcome_free|].
  pose proof (proj2 (limits_bind ∅ calls capped outcome.2.2 outcome.2.1 outcome.1 capped_rest outcome_runs) eq_refl) as Hc.
  rewrite outcome_free in Hc. exact Hc.
Defined.

(** ** A hidden tenant *)

(** The registry over an empty data directory, the call for ".acme" run to its end, and boot over what it left. *)
Definition fresh_boot : option Reg := match openWithClock ∅ (λ _, fair) fair ∅ false (mkLimits true [] 0) with inr r => Some r | inl _ => None end.
Definition after_call : option Reg := (λ r, (ensure ∅ fair ".acme" true r).1) <$> fresh_boot.
Definition next_boot : option Reg :=
  after_call ≫= λ r, match openWithClock ∅ (λ _, fair) fair (r_dir r) false (mkLimits true [] 0) with inr r => Some r | inl _ => None end.

(** A tenant whose id starts with a dot vanishes at boot. The id is accepted, its stack
    is opened and its directory made; the next boot does not open it, does not
    quarantine it, and does not list it among the skipped directories it warns of. *)
Theorem dot_tenant_vanishes :
  Sanitize ".acme" = Some ".acme"%string ∧
  (match after_call with Some r => match Peek ".acme" r with Some _ => true | None => false end && bool_decide (tenantDirs (r_dir r) = ([Default], [])) | None => false end) = true ∧
  (match next_boot with Some r => match Peek ".acme" r with Some _ => false | None => true end && bool_decide (r_quarantined r = []) | None => false end) = true.
Proof. vm_compute. repeat split; reflexivity. Qed.
