(* ===== verification/Migration.v ===== *)
(** * Migrating a legacy data directory

    registry.go [migrateLegacy]: an older build kept its store directly under the data
    directory; its entries are moved one by one into a staging directory, which is then
    renamed to the default tenant. The file system under the data directory is a tree,
    and the migration is the list of the operations it makes, each atomic as [rename] and
    [mkdir] are; a crash is a prefix of that list. *)
From S2P Require Import Prelude Tenant Registry.
Open Scope Z_scope.

Inductive Tree := Leaf (contents : string) | Tdir (entries : gmap string Tree).

(** The entries of the data directory. *)
#[local] Abbreviation Root := (gmap string Tree).

(** The operations of the migration, on names of the data directory and of its staging directory. *)
Inductive FsOp :=
| MkdirTemp (tmp : string)
| RenameInto (name tmp : string)   (* <root>/name to <root>/tmp/name *)
| Rename (old new : string).

Definition fs_op (op : FsOp) (root : Root) : Root :=
  match op with
  | MkdirTemp tmp => <[tmp := Tdir ∅]> root
  | RenameInto name tmp =>
    match root !! name, root !! tmp with
    | Some t, Some (Tdir es) => <[tmp := Tdir (<[name := t]> es)]> (delete name root)
    | _, _ => root
    end
  | Rename old new => match root !! old with Some t => <[new := t]> (delete old root) | None => root end
  end.
Definition fs_ops (ops : list FsOp) (root : Root) : Root := foldl (λ r op, fs_op op r) root ops.

Definition legacyMarker : string := "CURRENT".

Inductive Migration := Nothing | CannotMigrate | Migrate (ops : list FsOp).

(** [migrateLegacy]: what it does to this directory. [tmp] is the name [os.MkdirTemp]
    chose, one with the prefix ".migrate-" that nothing has; the entries are listed
    after it was made, and it is skipped. *)
Definition migrateLegacy (tmp : string) (root : Root) : Migration :=
  match root !! legacyMarker with
  | None => Nothing
  | Some _ =>
    match root !! Default with
    | Some _ => CannotMigrate
    | None =>
      let ents := sorted_keys (fs_op (MkdirTemp tmp) root) in
      Migrate (MkdirTemp tmp :: ((λ n, RenameInto n tmp) <$> base.filter (λ n, n ≠ tmp) ents) ++ [Rename tmp Default])
    end
  end.

(** ** What it does *)

Lemma rename_each tmp names : ∀ (root es : Root), root !! tmp = Some (Tdir es) → NoDup names → tmp ∉ names →
  (∀ n, n ∈ names → is_Some (root !! n)) →
  ∃ es', fs_ops ((λ n, RenameInto n tmp) <$> names) root = <[tmp := Tdir es']> (filter (λ kv, kv.1 ∉ names) root) ∧
    ∀ n, es' !! n = if decide (n ∈ names) then root !! n else es !! n.
Proof.
  induction names as [|n names IH]; intros root es Ht Hnd Hnt Hex.
  { exists es. split; [|done]. cbn [fmap list_fmap fs_ops foldl]. rewrite map_filter_id; [by rewrite insert_id|]. intros i x _. simpl. by apply not_elem_of_nil. }
  apply NoDup_cons in Hnd as [Hn Hnd]. apply not_elem_of_cons in Hnt as [Hnt0 Hnt].
  destruct (Hex n ltac:(left)) as [t Hnt1]. rewrite fmap_cons. unfold fs_ops. cbn [foldl fs_op]. rewrite Hnt1 Ht.
  destruct (IH (<[tmp := Tdir (<[n := t]> es)]> (delete n root)) (<[n := t]> es)) as (es' & E & Hes); [by rewrite lookup_insert_eq|done|done| |].
  { intros m Hm. rewrite lookup_insert_ne; [|by intros <-]. rewrite lookup_delete_ne; [|by intros <-]. apply Hex. by right. }
  exists es'. unfold fs_ops in E. rewrite E. split.
  - apply map_eq. intros i. destruct (decide (i = tmp)) as [->|Hi]; [by rewrite !lookup_insert_eq|]. rewrite !(lookup_insert_ne _ tmp) //.
    rewrite !map_lookup_filter lookup_insert_ne //. destruct (decide (i = n)) as [->|Hin].
    + rewrite lookup_delete_eq Hnt1 /=. case_guard as Hg; [|done]. by destruct Hg; left.
    + rewrite lookup_delete_ne //. destruct (root !! i); simpl; [|done]. rewrite !option_guard_decide. repeat case_decide; set_solver.
  - intros m. rewrite Hes. destruct (decide (m = n)) as [->|Hm].
    + rewrite (decide_False (P := n ∈ names)) // (decide_True (P := n ∈ n :: names)); [|by left]. by rewrite lookup_insert_eq.
    + rewrite (lookup_insert_ne _ n) //. destruct (decide (m ∈ names)) as [Hin|Hin].
      * rewrite decide_True; [|by right]. rewrite lookup_insert_ne; [|by intros <-]. by rewrite lookup_delete_ne.
      * rewrite decide_False; [done|]. by intros [|]%elem_of_cons.
Qed.

(** Migrating moves the legacy store whole. On a data directory with the legacy marker
    and no default tenant, the operations of the migration leave exactly one entry, the
    default tenant's directory, and it holds every entry the data directory had. *)
Theorem migrate_moves_everything (tmp : string) (root : gmap string Tree) (ops : list FsOp)
    (Htmp : root !! tmp = None) (Hops : migrateLegacy tmp root = Migrate ops) :
  fs_ops ops root = {[ Default := Tdir root ]}.
Proof.
  unfold migrateLegacy in Hops. destruct (root !! legacyMarker); [|done]. destruct (root !! Default) eqn:Hd; [done|]. injection Hops as <-.
  set (names := base.filter _ _). unfold fs_ops. cbn [foldl]. rewrite foldl_app. cbn [foldl]. set (root1 := fs_op (MkdirTemp tmp) root).
  assert (∀ n, n ∈ names ↔ is_Some (root !! n)) as Hnames.
  { intros n. unfold names. rewrite list_elem_of_filter elem_of_sorted_keys. cbn [fs_op]. split.
    - intros [Hne Hs]. by rewrite lookup_insert_ne in Hs.
    - intros Hs. assert (n ≠ tmp) as Hne by (intros ->; rewrite Htmp in Hs; by destruct Hs). by rewrite lookup_insert_ne. }
  destruct (rename_each tmp names root1 ∅) as (es' & E & Hes).
  - apply lookup_insert_eq.
  - apply NoDup_filter. unfold sorted_keys. rewrite sort_by_perm. apply NoDup_fst_map_to_list.
  - rewrite Hnames Htmp. by intros [? ?].
  - intros n Hn%Hnames. unfold root1. cbn [fs_op]. rewrite lookup_insert_ne; [done|]. intros <-. rewrite Htmp in Hn. by destruct Hn.
  - unfold fs_ops in E. rewrite E. cbn [fs_op]. rewrite lookup_insert_eq.
    assert (es' = root) as ->.
    { apply map_eq. intros n. rewrite Hes. destruct (decide (n ∈ names)) as [Hn|Hn]; rewrite Hnames in Hn.
      - unfold root1. cbn [fs_op]. rewrite lookup_insert_ne; [done|]. intros <-. rewrite Htmp in Hn. by destruct Hn.
      - rewrite lookup_empty. symmetry. by apply eq_None_not_Some. }
    apply map_eq. intros n. destruct (decide (n = Default)) as [->|Hne]; [by rewrite lookup_insert_eq lookup_singleton_eq|].
    rewrite lookup_insert_ne // lookup_singleton_ne //. apply lookup_delete_None. destruct (decide (n = tmp)) as [->|Ht]; [by left|right].
    rewrite lookup_insert_ne // map_lookup_filter. unfold root1. cbn [fs_op]. rewrite lookup_insert_ne //.
    destruct (root !! n) eqn:Hn; simpl; [|done]. case_guard as Hg; [|done]. destruct Hg. apply Hnames. by eexists.
Qed.

(** ** A crash in the middle *)

(** The files of a store, as an older build left them at the root. *)
Definition legacy_root : gmap string Tree :=
  {[ "000004.log" := Leaf "wal"; "CURRENT" := Leaf "MANIFEST-000001"; "MANIFEST-000001" := Leaf "manifest"; "OPTIONS-000003" := Leaf "options" ]}%string.
Definition staging : string := ".migrate-1".
Definition legacy_ops : list FsOp := match migrateLegacy staging legacy_root with Migrate ops => ops | _ => [] end.
(** The data directory after the first [n] operations. *)
Definition crashed (n : nat) : gmap string Tree := fs_ops (take n legacy_ops) legacy_root.

(** What a boot finds: the tenant directories it opens, and those it skips with a warning. *)
Definition boot_dirs (root : gmap string Tree) : list string * list string :=
  tenantDirs ((λ t, match t with Leaf _ => NFile | Tdir es => NDir es end) <$> root).

Lemma migrate_moves_everything_witness :
  (∃ ops, migrateLegacy staging legacy_root = Migrate ops) ∧ fs_ops legacy_ops legacy_root = {[ Default := Tdir legacy_root ]}.
Proof.
  assert (migrateLegacy staging legacy_root = Migrate legacy_ops) as Hm by (vm_compute; reflexivity).
  split; [by eexists|]. apply (migrate_moves_everything staging legacy_root legacy_ops); [vm_compute; reflexivity|exact Hm].
Defined.

(** A crash in the middle of the migration leaves the store in two halves. Once the
    marker is moved, the next boot sees no legacy layout no tenant directory and nothing to warn of, and
    starts an empty default tenant beside the staging directory; before it is moved,
    the next boot migrates what is left, and the entries already moved stay behind in the
    staging directory, inside the default tenant's store, which lacks them. *)
Theorem migration_crash_splits_store :
  (migrateLegacy ".migrate-2" (crashed 3) = Nothing ∧ boot_dirs (crashed 3) = ([], []) ∧ crashed 3 !! "MANIFEST-000001"%string = Some (Leaf "manifest")) ∧
  (∃ ops es, migrateLegacy ".migrate-2" (crashed 2) = Migrate ops ∧ fs_ops ops (crashed 2) = {[ Default := Tdir es ]} ∧
    es !! "000004.log"%string = None ∧ es !! staging = Some (Tdir {[ "000004.log"%string := Leaf "wal" ]})).
Proof.
  split; [vm_compute; repeat split; reflexivity|].
  exists (match migrateLegacy ".migrate-2" (crashed 2) with Migrate ops => ops | _ => [] end), (crashed 2).
  vm_compute. repeat split; reflexivity.
Qed.
