(* ===== verification/Wire.v ===== *)
(** * The wire: entity-events vocabulary and OTLP values

    The attribute keys of src/pkg/emit/wire/wire.go, and the part of the OTLP data model
    (package pdata) that producers fill and the receiver reads: values, attribute maps as
    the lists of entries they are, log records and their grouping. A map's [Get] returns
    the first entry of a key and [Range] goes through the entries in order. *)
From S2P Require Import Prelude GoStd.
Open Scope Z_scope.

(** ** Vocabulary *)

Definition EventEntityState : string := "entity.state".
Definition EventEntityDelete : string := "entity.delete".
Definition AttrEntityType : string := "entity.type".
Definition AttrEntityID : string := "entity.id".
Definition AttrEntityDescription : string := "entity.description".
Definition AttrEntityReportInterval : string := "entity.report.interval".
Definition AttrEntityDeleteReason : string := "entity.delete.reason".
Definition AttrEntityRelationships : string := "entity.relationships".
Definition RelType : string := "relationship.type".
Definition RelTargetType : string := AttrEntityType.
Definition RelTargetID : string := AttrEntityID.
Definition RelConfidence : string := "confidence".
Definition RelBasis : string := "basis".
Definition ResServiceName : string := "service.name".
Definition ResServiceInstanceID : string := "service.instance.id".

(** ** Values and maps *)

Inductive AnyValue :=
| AVEmpty
| AVStr (s : string)
| AVInt (i : Z)
| AVDouble (f : float64)
| AVBool (b : bool)
| AVBytes (s : string)
| AVSlice (l : list AnyValue)
| AVMap (m : list (string * AnyValue)).
Abbreviation PMap := (list (string * AnyValue)).

Definition pget (m : PMap) (key : string) : option AnyValue := snd <$> head (base.filter (λ kv, kv.1 = key) m).

Lemma pget_cons k v m key : pget ((k, v) :: m) key = if decide (k = key) then Some v else pget m key.
Proof. unfold pget. rewrite filter_cons. cbn [fst]. destruct (decide (k = key)); [done|reflexivity]. Qed.
Lemma pget_elem m key v : pget m key = Some v → (key, v) ∈ m.
Proof.
  induction m as [|[k w] m IH]; [done|]. rewrite pget_cons elem_of_cons. case_decide as Hk; [intros [= ->]; left; by rewrite Hk|].
  intros Hm. right. by apply IH.
Qed.
Lemma pget_app m1 m2 key : pget (m1 ++ m2)%list key = match pget m1 key with Some v => Some v | None => pget m2 key end.
Proof. induction m1 as [|[k w] m1 IH]; [done|]. cbn [app]. rewrite !pget_cons. by case_decide. Qed.
Lemma pget_None m key : pget m key = None ↔ key ∉ m.*1.
Proof.
  induction m as [|[k w] m IH]; [split; [intros _; apply not_elem_of_nil|done]|]. rewrite pget_cons fmap_cons not_elem_of_cons.
  case_decide as Hk; simpl; [subst; naive_solver|]. rewrite IH. naive_solver.
Qed.

(** ** Log records *)

Record LogRecord := mkLogRecord {
  lr_EventName : string;
  lr_Timestamp : Z;          (* nanoseconds, uint64; 0 is unset *)
  lr_ObservedTimestamp : Z;
  lr_Attributes : PMap;
}.
Record ScopeLogs := mkScopeLogs { sl_Scope : string; sl_Records : list LogRecord }.
Record ResourceLogs := mkResourceLogs { rl_Attributes : PMap; rl_Scopes : list ScopeLogs }.

(** A value of 64 bits, as the fields of a message hold. *)
Fixpoint av_wire (v : AnyValue) : Prop :=
  match v with
  | AVInt i => min_int64 <= i <= max_int64
  | AVSlice l => (fix go l := match l with [] => True | v :: l => av_wire v ∧ go l end) l
  | AVMap m => (fix go m := match m with [] => True | (_, v) :: m => av_wire v ∧ go m end) m
  | _ => True
  end.
