(* ===== verification/Convert.v ===== *)
(** * From log records to observations

    src/internal/ingest/convert.go: an entity-event record becomes an observation, or is
    refused; what of it cannot be kept is named. The engine the record is routed to is a
    batch's program ([BatchProg]), where the calls of the code's [engine] interface are
    its operations. *)
From S2P Require Import Prelude GoStd Values Vocabulary Entities Events Observations Engine Wire.
Open Scope Z_scope.

(** The records the receiver rejects for good: the wire contract is violated. *)
Inductive InvalidRecord :=
| MissingType
| MissingIdentity
| InvalidEntity (err : Err)
| UnknownRelationship (relType : string).

(** What routing a record can fail with; the first wraps [errInvalidRecord]. *)
Inductive IngestError := ErrInvalidRecord (why : InvalidRecord) | ErrEngine (errs : list EngineError).

(** ** Values *)

(** Scalars; arrays and maps where nesting is allowed, unless a leaf of theirs is not supported. *)
Fixpoint valueFrom (allowNested : bool) (v : AnyValue) : option Value :=
  match v with
  | AVStr s => Some (KindString s)
  | AVInt i => Some (KindInt i)
  | AVDouble f => Some (KindDouble f)
  | AVBool b => Some (KindBool b)
  | AVSlice l =>
    if allowNested then
      KindArray <$> (fix elems l := match l with
        | [] => Some []
        | v :: l => match valueFrom true v, elems l with Some x, Some xs => Some (x :: xs) | _, _ => None end
        end) l
    else None
  | AVMap m =>
    if allowNested then
      KindKvlist <$> (fix entries m := match m with
        | [] => Some []
        | (k, v) :: m => match valueFrom true v, entries m with Some x, Some xs => Some ((k, x) :: xs) | _, _ => None end
        end) m
    else None
  | AVEmpty | AVBytes _ => None
  end.

Definition joinKey (pre k : string) : string := if bool_decide (pre = "")%string then k else pre +++ "." +++ k.

(** The entries kept, and the dotted keys of those dropped, both in order. *)
Fixpoint kvsFromMap (m : PMap) (pre : string) (allowNested : bool) : list KeyValue * list string :=
  match m with
  | [] => ([], [])
  | (k, v) :: m =>
    let '(kvs, dropped) := kvsFromMap m pre allowNested in
    match valueFrom allowNested v with
    | Some mv => ((k, mv) :: kvs, dropped)
    | None => (kvs, joinKey pre k :: dropped)
    end
  end.

Definition strAttr (attrs : PMap) (key : string) : option string :=
  match pget attrs key with Some (AVStr s) => Some s | _ => None end.
Definition mapAttr (attrs : PMap) (key : string) (allowNested : bool) : option (list KeyValue * list string) :=
  match pget attrs key with Some (AVMap m) => Some (kvsFromMap m key allowNested) | _ => None end.

(** ** Records *)

(** [ts.AsTime()]: the unsigned count read as a signed one. *)
Definition asTime (ts : Z) : Time := of_unix_nano (wrap64 ts).
Definition eventTimeOf (now : Time) (lr : LogRecord) : Time :=
  if negb (lr_Timestamp lr =? 0) then asTime (lr_Timestamp lr)
  else if negb (lr_ObservedTimestamp lr =? 0) then asTime (lr_ObservedTimestamp lr)
  else now.

Definition reportEntityInterval (attrs : PMap) : Duration :=
  match pget attrs AttrEntityReportInterval with
  | Some (AVInt secs) => if 0 <? secs then dur_mul secs second else 0
  | _ => 0
  end.

Definition entityObs (attrs : PMap) (when : Time) (strictVocab : bool) : (InvalidRecord + EntityObservation) * list string :=
  match strAttr attrs AttrEntityType with
  | None => (inl MissingType, [])
  | Some typ =>
    match mapAttr attrs AttrEntityID false with
    | None => (inl MissingIdentity, [])
    | Some ([], identDropped) => (inl MissingIdentity, identDropped)
    | Some (ident, identDropped) =>
      let '(descriptive, descDropped) := default ([], []) (mapAttr attrs AttrEntityDescription true) in
      let dropped := (identDropped ++ descDropped)%list in
      match entity_validate strictVocab (mkEntity "" typ ident descriptive "") with
      | Some err => (inl (InvalidEntity err), dropped)
      | None =>
        let '(interval, mistyped) :=
          match pget attrs AttrEntityReportInterval with
          | Some (AVInt secs) => (if 0 <? secs then dur_mul secs second else 0, [])
          | Some _ => (0, [AttrEntityReportInterval])
          | None => (0, [])
          end in
        (inr (mkEntityObservation typ ident descriptive "" when interval "" ""), (dropped ++ mistyped)%list)
      end
    end
  end.

Definition with_producer (producer : string) (obs : EntityObservation) : EntityObservation :=
  mkEntityObservation (eo_Type obs) (eo_Identity obs) (eo_Attributes obs) (eo_SchemaURL obs) (eo_EventTime obs) (eo_Interval obs) producer (eo_DeleteReason obs).
Definition with_reason (reason : string) (obs : EntityObservation) : EntityObservation :=
  mkEntityObservation (eo_Type obs) (eo_Identity obs) (eo_Attributes obs) (eo_SchemaURL obs) (eo_EventTime obs) (eo_Interval obs) (eo_Producer obs) reason.

(** [routeRecordVocab]: whether the record is an entity event, the keys dropped, and the
    error. [now] is the time of a record that carries none. *)
Definition routeRecordVocab {X} (now : Time) (lr : LogRecord) (producer : string) (strictVocab : bool)
    : BatchProg X (bool * list string * option IngestError) :=
  let attrs := lr_Attributes lr in
  let when := eventTimeOf now lr in
  let engine_error (errs : list EngineError) := match errs with [] => None | _ => Some (ErrEngine errs) end in
  if bool_decide (lr_EventName lr = EventEntityState) then
    match entityObs attrs when strictVocab with
    | (inl why, drop) => BDone (true, drop, Some (ErrInvalidRecord why))
    | (inr obs, drop) => BDo (BObserveEntity (with_producer producer obs)) (λ r, BDone (true, drop, engine_error r.2))
    end
  else if bool_decide (lr_EventName lr = EventEntityDelete) then
    match entityObs attrs when strictVocab with
    | (inl why, drop) => BDone (true, drop, Some (ErrInvalidRecord why))
    | (inr obs, drop) =>
      let obs := with_producer producer obs in
      let obs := match strAttr attrs AttrEntityDeleteReason with Some reason => with_reason reason obs | None => obs end in
      BDo (BDeleteEntity obs) (λ r, BDone (true, drop, engine_error r.2))
    end
  else BDone (false, [], None).
