(* ===== verification/Embedded.v ===== *)
(** * The embedded reconciler

    src/internal/ingest/embedded.go: an entity-state record lists the relations its entity
    asserts; a relation that a producer stops listing is removed. The state is what each
    source (producer, collection method and entity) last asserted. It is the state beside
    the engine of a batch's program: read, advanced, and restored by an undo when the
    batch is not flushed. Maps are walked in a fixed order where Go's is random. *)
From S2P Require Import Prelude GoStd Values Vocabulary Entities Events Observations Engine Wire Convert.
Open Scope Z_scope.

(** What each source asserts: source key, relation key, observation. *)
Abbreviation Recon := (gmap string (gmap string RelationObservation)).

(** ** Keys *)

Fixpoint join (sep : string) (l : list string) : string :=
  match l with [] => "" | [s] => s | s :: l => s +++ sep +++ join sep l end.
Definition canonicalIdentity (kvs : list KeyValue) : string :=
  join "," (sort_by id ((λ kv, Key kv +++ "=" +++ String_ (Val kv)) <$> kvs)).
Definition endpointKey (ep : EndpointRef) : string := ep_Type ep +++ "|" +++ canonicalIdentity (ep_Identity ep).
Definition nul : string := String (ascii_of_nat 0) "".
Definition producerKey (producer scope : string) (ep : EndpointRef) : string := producer +++ nul +++ scope +++ nul +++ endpointKey ep.
Definition relationKey (o : RelationObservation) : string := ro_Type o +++ "=>" +++ endpointKey (ro_To o).

(** ** Beliefs *)

Record beliefNote := mkBeliefNote { bn_relType : string; bn_reason : string }.

Definition usable (c : float64) : bool := f64_le f64_zero c && f64_le c f64_one.

Definition beliefAttributes (m : PMap) (relType : string) : list KeyValue * string :=
  let '(out, reason) :=
    match pget m RelConfidence with
    | Some (AVDouble c) => ([(RelConfidence, KindDouble c)], if usable c then "" else "confidence_out_of_range")
    | Some (AVInt i) => ([(RelConfidence, KindInt i)], if usable (f64_of_int i) then "" else "confidence_out_of_range")
    | Some _ => ([], "confidence_not_numeric")
    | None => ([], "no_confidence")
    end%string in
  let reason :=
    if bool_decide (relType = RelResolvesTo)
    then match pget m RelConfidence with Some _ => "relation_has_no_reader" | None => "" end
    else reason in
  let out :=
    match pget m RelBasis with
    | Some (AVStr s) => if negb (bool_decide (s = "")%string) then (out ++ [(RelBasis, KindString s)])%list else out
    | _ => out
    end in
  (out, reason%string).

(** ** The descriptors of a record *)

Record Described := mkDescribed {
  ds_rels : list RelationObservation;
  ds_dropped : list string;
  ds_beliefs : list beliefNote;
  ds_err : option InvalidRecord;   (* the first of them *)
}.
Definition none_described : Described := mkDescribed [] [] [] None.

Section record.
Variables (source : EndpointRef) (producer : string) (when : Time) (strictVocab : bool) (srcInterval : Duration).

(** One descriptor, with what the earlier ones gave. *)
Definition describe (key : string) (el : AnyValue) (acc : Described) : Described :=
  let drop ks := mkDescribed (ds_rels acc) (ds_dropped acc ++ ks)%list (ds_beliefs acc) (ds_err acc) in
  match el with
  | AVMap m =>
    match strAttr m RelType, strAttr m RelTargetType, pget m RelTargetID with
    | Some relType, Some toType, Some (AVMap idm) =>
      if bool_decide (relType = "")%string then drop [key] else
      if strictVocab && bool_decide (RelationDef relType = None) then
        mkDescribed (ds_rels acc) (ds_dropped acc) (ds_beliefs acc)
          (match ds_err acc with None => Some (UnknownRelationship relType) | err => err end)
      else
      let idKey := key +++ "." +++ RelTargetID in
      let '(toID, idDropped) := kvsFromMap idm idKey false in
      if bool_decide (toID = []) then drop (idDropped ++ [idKey])%list else
      let '(attrs, reason) :=
        if bool_decide (relType = RelSameAs) || bool_decide (relType = RelResolvesTo) then beliefAttributes m relType else ([], ""%string) in
      let obs := mkRelationObservation relType source (mkEndpointRef toType toID) attrs when producer 0 srcInterval in
      mkDescribed (ds_rels acc ++ [obs])%list (ds_dropped acc ++ idDropped)%list
        (if bool_decide (reason = "")%string then ds_beliefs acc else ds_beliefs acc ++ [mkBeliefNote relType reason])%list (ds_err acc)
    | _, _, _ => drop [key]
    end
  | _ => drop [key]
  end.

Definition descriptorKey (i : nat) : string := AttrEntityRelationships +++ "[" +++ itoa (Z.of_nat i) +++ "]".

Fixpoint describe_all (i : nat) (sl : list AnyValue) (acc : Described) : Described :=
  match sl with
  | [] => acc
  | el :: sl => describe_all (S i) sl (describe (descriptorKey i) el acc)
  end.
End record.

Definition embeddedRelations (attrs : PMap) (source : EndpointRef) (producer : string) (when : Time) (strictVocab : bool) : Described :=
  match pget attrs AttrEntityRelationships with
  | Some (AVSlice sl) => describe_all source producer when strictVocab (reportEntityInterval attrs) 0 sl none_described
  | _ => none_described
  end.

(** ** Reconciling *)

Definition at_time (when : Time) (o : RelationObservation) : RelationObservation :=
  mkRelationObservation (ro_Type o) (ro_From o) (ro_To o) (ro_Attributes o) when (ro_Producer o) (ro_Interval o) (ro_SourceInterval o).

(** What the source asserts, by relation key; the last of equal keys stays. *)
Definition wanted (desired : list RelationObservation) : gmap string RelationObservation :=
  foldl (λ m o, <[relationKey o := o]> m) ∅ desired.

Fixpoint observe_each (desired : list RelationObservation) : BatchProg Recon (list EngineError) :=
  match desired with
  | [] => mret []
  | o :: desired => BDo (BObserveRelation o) (λ r, errs ← observe_each desired; mret (r.2 ++ errs)%list)
  end.
Fixpoint remove_each (when : Time) (gone : list RelationObservation) : BatchProg Recon (list EngineError) :=
  match gone with
  | [] => mret []
  | o :: gone => BDo (BRemoveRelation (at_time when o)) (λ r, errs ← remove_each when gone; mret (r.2 ++ errs)%list)
  end.

(** What was asserted and is not any more. *)
Definition no_longer (prevState want : gmap string RelationObservation) : list RelationObservation :=
  (base.filter (λ kv, want !! kv.1 = None) (map_to_list prevState)).*2.

Definition advance_state (sourceKey : string) (want : gmap string RelationObservation) (st : Recon) : Recon :=
  if bool_decide (want = ∅) then delete sourceKey st else <[sourceKey := want]> st.
Definition restore_state (sourceKey : string) (prevState : option (gmap string RelationObservation)) (st : Recon) : Recon :=
  match prevState with Some prev => <[sourceKey := prev]> st | None => delete sourceKey st end.

Definition reconcile (sourceKey : string) (desired : list RelationObservation) (when : Time) : BatchProg Recon (list EngineError) :=
  BGet (λ st,
    let prevState := st !! sourceKey in
    let want := wanted desired in
    errs ← observe_each desired;
    errs' ← remove_each when (no_longer (default ∅ prevState) want);
    BSide (advance_state sourceKey want)
      (BDo (BOnRollback (restore_state sourceKey prevState)) (λ _, BDone (errs ++ errs')%list))).

(** [handleVocab]: the keys dropped, the beliefs that change no answer, and the error. *)
Definition handleVocab (now : Time) (lr : LogRecord) (producer scope : string) (strictVocab : bool)
    : BatchProg Recon (list string * list beliefNote * option IngestError) :=
  let attrs := lr_Attributes lr in
  let state := bool_decide (lr_EventName lr = EventEntityState) in
  if negb state && negb (bool_decide (lr_EventName lr = EventEntityDelete)) then BDone ([], [], None) else
  match strAttr attrs AttrEntityType, mapAttr attrs AttrEntityID false with
  | Some sourceType, Some (((_ :: _) as sourceID), idDropped) =>
    let source := mkEndpointRef sourceType sourceID in
    let sk := producerKey producer scope source in
    if state then
      let when := eventTimeOf now lr in
      let ds := embeddedRelations attrs source producer when strictVocab in
      let dropped := (idDropped ++ ds_dropped ds)%list in
      errs ← reconcile sk (ds_rels ds) when;
      mret (dropped, ds_beliefs ds,
        match errs with [] => ErrInvalidRecord <$> ds_err ds | _ => Some (ErrEngine errs) end)
    else
      BGet (λ st, BSide (delete sk)
        (match st !! sk with
         | Some prev => BDo (BOnRollback (restore_state sk (Some prev))) (λ _, BDone (idDropped, [], None))
         | None => BDone (idDropped, [], None)
         end))
  | _, Some (_, idDropped) => BDone (idDropped, [], None)
  | _, None => BDone ([], [], None)
  end.
