(* ===== verification/Receiver.v ===== *)
(** * The OTLP receiver

    src/internal/ingest/receiver.go [Export]: a request is a list of ResourceLogs, each of
    one producer and one tenant. Each becomes one batch of its tenant's engine, whose
    records are routed and reconciled in order; a record that violates the contract is
    counted and its siblings go on; any other error ends the request. The per-tenant
    engines are those [engineFor] finds or opens; the tenant's reconciler is put beside its
    engine while the batch runs. Metrics and log lines are left out, but the counts they
    report are kept. *)
From S2P Require Import Prelude GoStd Values Vocabulary Entities Events Observations Engine Tenant Wire Convert Embedded.
Open Scope Z_scope.

(** ** Tallies *)

(** The variables of [Export] the batch function adds to. *)
Record Tally := mkTally {
  t_handled : Z;
  t_skipped : Z;
  t_rejected : Z;
  t_reject : option (InvalidRecord * string);   (* the first rejection and its tenant *)
  t_inert : list beliefNote;
  t_dropped : list string;
}.
Definition no_tally : Tally := mkTally 0 0 0 None [] [].

Definition tally_dropped (ks : list string) (t : Tally) : Tally :=
  mkTally (t_handled t) (t_skipped t) (t_rejected t) (t_reject t) (t_inert t) (t_dropped t ++ ks)%list.
Definition tally_inert (bs : list beliefNote) (t : Tally) : Tally :=
  mkTally (t_handled t) (t_skipped t) (t_rejected t) (t_reject t) (t_inert t ++ bs)%list (t_dropped t).
Definition tally_reject (why : InvalidRecord) (tenantID : string) (t : Tally) : Tally :=
  mkTally (t_handled t) (t_skipped t) (t_rejected t + 1)
    (match t_reject t with None => Some (why, tenantID) | r => r end) (t_inert t) (t_dropped t).
Definition tally_done (handled : bool) (t : Tally) : Tally :=
  if handled then mkTally (t_handled t + 1) (t_skipped t) (t_rejected t) (t_reject t) (t_inert t) (t_dropped t)
  else mkTally (t_handled t) (t_skipped t + 1) (t_rejected t) (t_reject t) (t_inert t) (t_dropped t).

(** ** The batch of one ResourceLogs *)

Section resource.
Variables (now : Time) (producer tenantID : string) (acceptUnknown : bool).

(** One record: the tally, and the error that ends the routing if it is not the record's own. *)
Definition ingest_record (scope : string) (lr : LogRecord) (t : Tally) : BatchProg Recon (Tally * option IngestError) :=
  '(handled, drop, err) ← routeRecordVocab now lr producer (negb acceptUnknown);
  let t := tally_dropped drop t in
  match err with
  | Some (ErrInvalidRecord why) => mret (tally_reject why tenantID t, None)
  | Some err => mret (t, Some err)
  | None =>
    '(edrop, ebeliefs, eerr) ← handleVocab now lr producer scope (negb acceptUnknown);
    let t := tally_inert ebeliefs (tally_dropped edrop t) in
    match eerr with
    | Some (ErrInvalidRecord why) => mret (tally_reject why tenantID t, None)
    | Some err => mret (t, Some err)
    | None => mret (tally_done handled t, None)
    end
  end.

Fixpoint ingest_records (scope : string) (lrs : list LogRecord) (t : Tally) : BatchProg Recon (Tally * option IngestError) :=
  match lrs with
  | [] => mret (t, None)
  | lr :: lrs =>
    '(t, routeErr) ← ingest_record scope lr t;
    match routeErr with Some _ => mret (t, routeErr) | None => ingest_records scope lrs t end
  end.

Fixpoint ingest_scopes (sls : list ScopeLogs) (t : Tally) : BatchProg Recon (Tally * option IngestError) :=
  match sls with
  | [] => mret (t, None)
  | sl :: sls =>
    BDo (BSetScope (sl_Scope sl)) (λ _,
      '(t, routeErr) ← ingest_records (sl_Scope sl) (sl_Records sl) t;
      match routeErr with Some _ => mret (t, routeErr) | None => ingest_scopes sls t end)
  end.
End resource.

(** ** The request *)

Inductive Refusing :=
| BadHeader | BadResourceAttr (raw : string) | NotAuthorized (tenantID : string) | TenantRefused (tenantID : string)
| TenantUnresolved (tenantID : string) | Routing (err : IngestError) | Flushing (err : EngineError).
Inductive Response :=
| InvalidArgument (why : Refusing)
| PermissionDenied (why : Refusing)
| Unavailable (why : Refusing)
| Accepted (rejected : Z) (first : option (InvalidRecord * string)).

Section export.
Context {W : Type} `{!Host} `{!Appender W}.
#[local] Abbreviation Eng := (Engine W Recon).

(** What the receiver was built with: the engine of a tenant, given those there are (a
    refusal by policy is [inl true]), and who may write where. *)
Variable engineFor : string → gmap string Eng → bool + Eng.
Variable authorize : option (string → bool).
Variable acceptUnknown : bool.

(** The engines, and the reconcilers the receiver holds. *)
Record Server := mkServer { sv_engines : gmap string Eng; sv_reconcilers : gmap string Recon }.

Definition reconcilerFor (tenantID : string) (sv : Server) : Recon := default ∅ (sv_reconcilers sv !! tenantID).

(** What one tenant's records came to: handled, ignored, rejected, values dropped. *)
Record tenantCounts := mkCounts { c_handled : Z; c_skipped : Z; c_rejected : Z; c_dropped : Z }.
Definition add_counts (t t' : Tally) (c : option tenantCounts) : tenantCounts :=
  let c := default (mkCounts 0 0 0 0) c in
  mkCounts (c_handled c + (t_handled t' - t_handled t)) (c_skipped c + (t_skipped t' - t_skipped t))
    (c_rejected c + (t_rejected t' - t_rejected t))
    (c_dropped c + (Z.of_nat (length (t_dropped t')) - Z.of_nat (length (t_dropped t)))).

(** The tenant of one ResourceLogs. *)
Definition tenantOf (baseTenant : string) (tenantLocked : bool) (attrs : PMap) : Response + string :=
  match strAttr attrs "tenant.id" with
  | Some rt =>
    if tenantLocked then inr baseTenant else
    match Sanitize rt with Some san => inr san | None => inl (InvalidArgument (BadResourceAttr rt)) end
  | None => inr baseTenant
  end.

(** One ResourceLogs: its tenant is resolved and authorized, and its batch is run. *)
Definition export_resource (now : Time) (baseTenant : string) (tenantLocked : bool) (rl : ResourceLogs) (sv : Server) (t : Tally)
    : Server * (Response + Tally * string) :=
  let producer := default ""%string (strAttr (rl_Attributes rl) ResServiceInstanceID) in
  match tenantOf baseTenant tenantLocked (rl_Attributes rl) with
  | inl resp => (sv, inl resp)
  | inr tenantID =>
    if negb (match authorize with Some auth => auth tenantID | None => true end) then (sv, inl (PermissionDenied (NotAuthorized tenantID))) else
    match engineFor tenantID (sv_engines sv) with
    | inl true => (sv, inl (InvalidArgument (TenantRefused tenantID)))
    | inl false => (sv, inl (Unavailable (TenantUnresolved tenantID)))
    | inr engine =>
      let '((t', routeErr, batchErr), engine) :=
        Batch (ingest_scopes now producer tenantID acceptUnknown (rl_Scopes rl) t) (upd_side (reconcilerFor tenantID sv) engine) in
      let sv := mkServer (<[tenantID := engine]> (sv_engines sv)) (<[tenantID := en_side engine]> (sv_reconcilers sv)) in
      match routeErr, batchErr with
      | Some err, _ => (sv, inl (Unavailable (Routing err)))
      | None, Some err => (sv, inl (Unavailable (Flushing err)))
      | None, None => (sv, inr (t', tenantID))
      end
    end
  end.

Fixpoint export_resources (now : Time) (baseTenant : string) (tenantLocked : bool) (rls : list ResourceLogs) (sv : Server) (t : Tally)
    (perTenant : gmap string tenantCounts) : Server * (Response + Tally * gmap string tenantCounts) :=
  match rls with
  | [] => (sv, inr (t, perTenant))
  | rl :: rls =>
    match export_resource now baseTenant tenantLocked rl sv t with
    | (sv, inl resp) => (sv, inl resp)
    | (sv, inr (t', tenantID)) =>
      export_resources now baseTenant tenantLocked rls sv t' (<[tenantID := add_counts t t' (perTenant !! tenantID)]> perTenant)
    end
  end.

(** [Export]. [resolved] is what the tenant resolver made of the request: the base tenant
    and whether it is locked. *)
Definition Export (now : Time) (resolved : option (string * bool)) (rls : list ResourceLogs) (sv : Server)
    : Server * Response * gmap string tenantCounts :=
  match resolved with
  | None => (sv, InvalidArgument BadHeader, ∅)
  | Some (baseTenant, tenantLocked) =>
    match export_resources now baseTenant tenantLocked rls sv no_tally ∅ with
    | (sv, inl resp) => (sv, resp, ∅)
    | (sv, inr (t, perTenant)) => (sv, Accepted (t_rejected t) (t_reject t), perTenant)
    end
  end.
End export.
Arguments Server W : clear implicits.
