(* ===== verification/IngestUndo.v ===== *)
(** * Undoing an ingest batch

    The receiver's batch changes the reconciler beside the engine and hands the engine an
    undo for each change. The undos pending at any point of the batch, run latest first,
    give back the reconciler the batch started with; no engine operation disturbs them. *)
From S2P Require Import Prelude GoStd Values Vocabulary Entities Events DisplayNames.
From S2P Require Import Speakers Observations Aliases Projection ProjectionInv Engine EngineInv EngineSound EngineEffects.
From S2P Require Import Wire Convert Embedded Receiver.

Section undo.
Context {W : Type} `{!Host} `{!Appender W}.
#[local] Abbreviation Eng := (Engine W Recon).
#[local] Abbreviation Act := (M W Recon).
Implicit Types e : Eng.

(** ** What the engine's operations leave alone *)

(** The state beside the engine and the undos registered so far. *)
Definition undo e : Recon * option (list (Recon → Recon)) := (en_side e, st_rollbacks <$> en_staged e).

Create HintDb undo discriminated.
Ltac undo_frame :=
  repeat first
    [ done
    | solve [auto with undo nocore]
    | apply same_bind; [|intros ?]
    | match goal with |- same _ (modify _) => let e := fresh in intros e; unfold modify; simpl; repeat case_match; done end
    | match goal with |- same _ (match ?x with _ => _ end) => destruct x end
    | progress cbn beta iota zeta ].

Lemma staged_apply_rollbacks ev (st : Staged Recon) : st_rollbacks (staged_apply ev st) = st_rollbacks st.
Proof. unfold staged_apply. destruct st. repeat case_match; done. Qed.
Lemma scope_undo scope : same undo (setCurrentScope scope : Act _).
Proof. intros e. unfold setCurrentScope, on_staged, modify, undo. simpl. by destruct (en_staged e) eqn:E; rewrite /= ?E. Qed.
Lemma report_undo on r : same undo (report on r : Act _).
Proof. intros e. unfold report, modify. simpl. by case_match. Qed.
Lemma deliver_undo evs : same undo (deliver evs : Act _).
Proof. induction evs as [|[ev hp] evs IH]; cbn [deliver]; unfold notify; undo_frame. Qed.
Lemma commit_undo ev hp : same undo (commit ev hp : Act _).
Proof.
  unfold commit. intros e. rewrite bind_state. cbn [fst snd gets]. destruct (en_staged e) as [st|] eqn:Hst.
  - rewrite bind_state. unfold on_staged, modify, undo. cbn [snd mret M_ret]. rewrite Hst. simpl. by rewrite staged_apply_rollbacks.
  - rewrite bind_state. assert (undo (append_ [ev] e).2 = undo e) as Ha by (unfold append_; by destruct (Append _ _)). rewrite -Ha.
    destruct (append_ [ev] e) as [[msg|evs] e1]; cbn [fst snd]; [done|]. rewrite bind_state. apply deliver_undo.
Qed.
#[local] Hint Resolve scope_undo report_undo commit_undo : undo.

Lemma promise_undo id typ producer d : same undo (promise id typ producer d : Act _).
Proof. unfold promise. undo_frame. Qed.
Lemma endpoint_undo ref : same undo (resolveEndpoint ref : Act _).
Proof. unfold resolveEndpoint. undo_frame. Qed.
#[local] Hint Resolve promise_undo endpoint_undo : undo.
Lemma endpoints_undo from to : same undo (resolveEndpoints from to : Act _).
Proof. unfold resolveEndpoints. undo_frame. Qed.
Lemma event_undo ct rel t src : same undo (relationEvent ct rel t src : Act _).
Proof. unfold relationEvent. undo_frame. Qed.
Lemma discard_undo obs : same undo (dropPendingRelation obs : Act _).
Proof. unfold dropPendingRelation, reportDiscard. undo_frame. Qed.
#[local] Hint Resolve endpoints_undo event_undo discard_undo : undo.
Lemma observe_locked_undo obs : same undo (observeRelationLocked obs : Act _).
Proof. unfold observeRelationLocked. undo_frame. Qed.
#[local] Hint Resolve observe_locked_undo : undo.
Lemma remove_relation_undo obs : same undo (removeRelationLocked obs : Act _).
Proof. unfold removeRelationLocked. undo_frame. Qed.
Lemma remove_edges_undo rels when : same undo (remove_edges rels when : Act _).
Proof. induction rels; cbn [remove_edges]; undo_frame. Qed.
Lemma flush_loop_undo now ps : same undo (flush_loop now ps : Act _).
Proof. induction ps; cbn [flush_loop]; undo_frame. Qed.
#[local] Hint Resolve remove_relation_undo remove_edges_undo flush_loop_undo : undo.
Lemma flush_pending_undo : same undo (flushPending : Act _).
Proof. unfold flushPending, rebuildPendingHashes. undo_frame. Qed.
#[local] Hint Resolve flush_pending_undo : undo.
Lemma alias_undo obs : same undo (recordAliasLocked obs : Act _).
Proof.
  unfold recordAliasLocked, rebuildPendingHashes. destruct (aliasClaimFromObservation obs); [|done].
  do 2 (apply same_bind; [done|]; intros ?). destruct (aliasDeadline _ obs) as [deadline []]; [|done].
  apply same_bind; [done|]. intros idx. destruct (record _ _ _ _) as [[idx' isNew] conflict]. undo_frame.
Qed.
Lemma park_undo obs : same undo (park obs : Act _).
Proof. unfold park, reportDiscard, rebuildPendingHashes. undo_frame. Qed.
#[local] Hint Resolve alias_undo park_undo : undo.
Lemma observe_relation_undo obs : same undo (observeRelationBuffered obs : Act _).
Proof. unfold observeRelationBuffered. undo_frame. Qed.
Lemma classify_undo obs : same undo (classify_observation obs : Act _).
Proof. unfold classify_observation, matchTombstone. undo_frame. Qed.
Lemma track_undo id obs prev : same undo (trackDisplayName id obs prev : Act _).
Proof. unfold trackDisplayName. undo_frame. Qed.
#[local] Hint Resolve classify_undo track_undo : undo.
Lemma observe_entity_undo obs : same undo (observeEntityLocked obs : Act _).
Proof. unfold observeEntityLocked. undo_frame. Qed.
Lemma delete_entity_undo obs : same undo (deleteEntityLocked obs : Act _).
Proof. unfold deleteEntityLocked, removeIncidentRelations. undo_frame. Qed.
#[local] Hint Resolve observe_relation_undo observe_entity_undo delete_entity_undo : undo.

Definition registers (op : BatchOp Recon) : bool := match op with BOnRollback _ => true | _ => false end.
Lemma run_op_undo op : registers op = false → same undo (run_op op : Act _).
Proof. destruct op; try done; intros _; cbn [run_op]; undo_frame. Qed.

(** ** Programs that can be undone *)

Definition rolled_back (side : Recon) (rbs : list (Recon → Recon)) : Recon := foldr (λ f s, f s) side rbs.

Definition undoable {A} (p : BatchProg Recon A) : Prop := ∀ e st, en_staged e = Some st →
  ∃ st', en_staged (run_batch p e).2 = Some st' ∧
    rolled_back (en_side (run_batch p e).2) (st_rollbacks st') = rolled_back (en_side e) (st_rollbacks st).

Lemma run_bind {A B} (p : BatchProg Recon A) (f : A → BatchProg Recon B) e :
  run_batch (p ≫= f) e = run_batch (f (run_batch p e).1) (run_batch p e).2.
Proof.
  revert e. induction p as [a|k IH|g k IH|op k IH]; intros e; [done| | |].
  - exact (IH (en_side e) e).
  - exact (IH (upd_side (g (en_side e)) e)).
  - cbn [mbind BatchProg_bind run_batch]. rewrite !bind_state. apply IH.
Qed.

Lemma undoable_ret {A} (a : A) : undoable (mret a).
Proof. intros e st Hst. by exists st. Qed.
Lemma undoable_done {A} (a : A) : undoable (BDone a).
Proof. apply undoable_ret. Qed.
Lemma undoable_bind {A B} (p : BatchProg Recon A) (f : A → BatchProg Recon B) :
  undoable p → (∀ a, undoable (f a)) → undoable (p ≫= f).
Proof.
  intros Hp Hf e st Hst. rewrite run_bind. destruct (Hp e st Hst) as (st1 & H1 & E1).
  destruct (Hf (run_batch p e).1 _ st1 H1) as (st2 & H2 & E2). exists st2. split; [done|]. by rewrite E2.
Qed.
Lemma undoable_op {A} op (k : option Event * list EngineError → BatchProg Recon A) :
  registers op = false → (∀ r, undoable (k r)) → undoable (BDo op k).
Proof.
  intros Hop Hk e st Hst. cbn [run_batch]. rewrite bind_state. pose proof (run_op_undo op Hop e) as Hu. unfold undo in Hu. injection Hu as Hside Hrb.
  rewrite Hst in Hrb. destruct (en_staged (run_op op e).2) as [st1|] eqn:H1; [|done]. injection Hrb as Hrb.
  destruct (Hk (run_op op e).1 _ st1 H1) as (st2 & H2 & E2). exists st2. split; [done|]. by rewrite E2 Hside Hrb.
Qed.
Lemma undoable_get {A} (k : Recon → BatchProg Recon A) : (∀ x, undoable (k x)) → undoable (BGet k).
Proof. intros Hk e st Hst. exact (Hk (en_side e) e st Hst). Qed.

(** A change followed by the registration of an undo that takes it back. *)
Lemma undo_pair {A} f g (a : A) e st : en_staged e = Some st → g (f (en_side e)) = en_side e →
  ∃ st', en_staged (run_batch (BSide f (BDo (BOnRollback g) (λ _, BDone a))) e).2 = Some st' ∧
    rolled_back (en_side (run_batch (BSide f (BDo (BOnRollback g) (λ _, BDone a))) e).2) (st_rollbacks st') =
    rolled_back (en_side e) (st_rollbacks st).
Proof.
  intros Hst Hg. cbn [run_batch run_op]. rewrite !bind_state. unfold on_staged, modify. cbn [fst snd mret M_ret].
  change (en_staged (upd_side (f (en_side e)) e)) with (en_staged e). rewrite Hst. cbn [en_staged upd_staged en_side upd_side].
  exists (push_rollback g st). split; [done|]. unfold push_rollback, rolled_back. cbn [st_rollbacks]. by rewrite foldr_app /= Hg.
Qed.

Lemma restore_advance sk want (st : Recon) : restore_state sk (st !! sk) (advance_state sk want st) = st.
Proof.
  unfold restore_state, advance_state. destruct (st !! sk) as [prev|] eqn:Hs; case_bool_decide.
  - by rewrite insert_delete_id.
  - by rewrite insert_insert_eq insert_id.
  - rewrite delete_id; [by apply delete_id|]. by rewrite lookup_delete_eq.
  - by rewrite delete_insert_id.
Qed.

Lemma observe_each_undoable desired : undoable (observe_each desired).
Proof.
  induction desired as [|o desired IH]; cbn [observe_each]; [apply undoable_ret|]. apply undoable_op; [done|]. intros r.
  apply undoable_bind; [done|]. intros errs. apply undoable_ret.
Qed.
Lemma remove_each_undoable when gone : undoable (remove_each when gone).
Proof.
  induction gone as [|o gone IH]; cbn [remove_each]; [apply undoable_ret|]. apply undoable_op; [done|]. intros r.
  apply undoable_bind; [done|]. intros errs. apply undoable_ret.
Qed.

(** Observing and removing leave the reconciler as it was. *)
Definition keeps_side {A} (p : BatchProg Recon A) : Prop := ∀ e, en_side (run_batch p e).2 = en_side e.
Lemma observe_each_side desired : keeps_side (observe_each desired).
Proof.
  induction desired as [|o desired IH]; intros e; cbn [observe_each]; [done|]. cbn [run_batch]. rewrite bind_state run_bind. cbn [run_batch mret BatchProg_ret M_ret snd].
  rewrite IH. pose proof (run_op_undo (BObserveRelation o) eq_refl e) as Hu. exact (f_equal fst Hu).
Qed.
Lemma remove_each_side when gone : keeps_side (remove_each when gone).
Proof.
  induction gone as [|o gone IH]; intros e; cbn [remove_each]; [done|]. cbn [run_batch]. rewrite bind_state run_bind. cbn [run_batch mret BatchProg_ret M_ret snd].
  rewrite IH. pose proof (run_op_undo (BRemoveRelation (at_time when o)) eq_refl e) as Hu. exact (f_equal fst Hu).
Qed.

Lemma reconcile_undoable sk desired when : undoable (reconcile sk desired when).
Proof.
  intros e st Hst. unfold reconcile. cbn [run_batch]. rewrite bind_state. cbn [fst snd gets]. rewrite run_bind run_bind.
  set (e1 := (run_batch (observe_each desired) e).2). set (gone := no_longer _ _). set (e2 := (run_batch (remove_each when gone) e1).2).
  destruct (observe_each_undoable desired e st Hst) as (st1 & H1 & E1). fold e1 in H1, E1.
  destruct (remove_each_undoable when gone e1 st1 H1) as (st2 & H2 & E2). fold e2 in H2, E2.
  assert (en_side e2 = en_side e) as Hside by (unfold e2, e1; by rewrite remove_each_side observe_each_side).
  destruct (undo_pair (advance_state sk (wanted desired)) (restore_state sk (en_side e !! sk)) ((run_batch (observe_each desired) e).1 ++ (run_batch (remove_each when gone) e1).1)%list e2 st2 H2)
    as (st3 & H3 & E3); [rewrite Hside; apply restore_advance|].
  exists st3. split; [exact H3|]. by rewrite E3 E2 E1.
Qed.

Lemma handle_undoable now lr producer scope strict : undoable (handleVocab now lr producer scope strict).
Proof.
  unfold handleVocab. destruct (negb _ && negb _); [apply undoable_done|].
  destruct (strAttr _ _) as [sourceType|], (mapAttr _ _ _) as [[[|kv sourceID] idDropped]|]; try apply undoable_done.
  destruct (bool_decide (lr_EventName lr = EventEntityState)).
  - apply undoable_bind; [apply reconcile_undoable|]. intros errs. apply undoable_ret.
  - intros e st Hst. cbn [run_batch]. rewrite bind_state. cbn [fst snd gets]. set (sk := producerKey _ _ _).
    destruct (en_side e !! sk) as [prev|] eqn:Hsk.
    + apply undo_pair; [done|]. unfold restore_state. by apply insert_delete_id.
    + exists st. cbn [run_batch]. rewrite bind_state. unfold modify. cbn [fst snd mret M_ret en_side upd_side en_staged]. split; [done|]. by rewrite delete_id.
Qed.

Lemma route_undoable now lr producer strict : undoable (routeRecordVocab (X:=Recon) now lr producer strict).
Proof.
  unfold routeRecordVocab. repeat case_bool_decide; [..|apply undoable_done];
    destruct (entityObs _ _ _) as [[why|obs] drop]; try apply undoable_done; apply undoable_op; try done; intros r; apply undoable_done.
Qed.

Lemma ingest_scopes_undoable now producer tenantID acceptUnknown sls t : undoable (ingest_scopes now producer tenantID acceptUnknown sls t).
Proof.
  assert (∀ scope lr t, undoable (ingest_record now producer tenantID acceptUnknown scope lr t)) as Hrec.
  { intros scope lr t0. unfold ingest_record. apply undoable_bind; [apply route_undoable|]. intros [[handled drop] [[why|errs]|]]; try apply undoable_ret.
    apply undoable_bind; [apply handle_undoable|]. intros [[edrop beliefs] [[why|errs]|]]; apply undoable_ret. }
  assert (∀ scope lrs t, undoable (ingest_records now producer tenantID acceptUnknown scope lrs t)) as Hrecs.
  { intros scope lrs. induction lrs as [|lr lrs IH]; intros t0; cbn [ingest_records]; [apply undoable_ret|].
    apply undoable_bind; [apply Hrec|]. intros [t1 [err|]]; [apply undoable_ret|apply IH]. }
  revert t. induction sls as [|sl sls IH]; intros t; cbn [ingest_scopes]; [apply undoable_ret|].
  apply undoable_op; [done|]. intros r. apply undoable_bind; [apply Hrecs|]. intros [t1 [err|]]; [apply undoable_ret|apply IH].
Qed.
End undo.
