(* ===== verification/IngestSpec.v ===== *)
(** * What the receiver promises

    A request writes only where it may; a record that violates the contract does not harm
    its siblings; a batch that fails to flush leaves no trace, in the graph or in the
    reconciler; a relation is removed exactly when its source stops listing it; and a
    record is read without silent loss. *)
From S2P Require Import Prelude GoStd Values Vocabulary Entities Events DisplayNames.
From S2P Require Import Speakers Observations Aliases Projection ProjectionInv Engine EngineInv EngineSound EngineEffects.
From S2P Require Import Tenant Wire Convert Embedded Receiver IngestUndo.
Open Scope Z_scope.

Section spec.
Context {W : Type} `{!Host} `{!HostLaws} `{!Appender W} `{!AppenderLaws W}.
#[local] Abbreviation Eng := (Engine W Recon).
Implicit Types e : Eng.

(** ** One resource's batch *)

Lemma upd_side_good (x : Recon) e : good e → good (upd_side x e).
Proof. intros [G1 G2 G3 G4 G5 G6 G7 G8 G9]. by split. Qed.

(** The undos of a failed batch give back what was beside the engine. *)
Lemma batch_failed {A} (p : BatchProg Recon A) e a err e' : good e → en_staged e = None → undoable p →
  Batch p e = ((a, Some err), e') →
  en_side e' = en_side e ∧ en_graph e' = en_graph e ∧ logged (en_log e') = logged (en_log e) ∧ en_subs e' = en_subs e ∧ good e' ∧ en_staged e' = None.
Proof.
  intros He Hst Hu HB. pose proof (opened_good e He Hst) as Ho. destruct (run_batch_sound p (opened e) Ho) as (Hr & Hadv & _).
  destruct (batch_staged (run_batch p) e Ho Hadv) as (st & H1 & H2 & H3 & H4).
  destruct (Hu (opened e) newStaged eq_refl) as (st' & H1' & Hroll). rewrite H1 in H1'. injection H1' as <-.
  unfold Batch in HB. rewrite !bind_state in HB. change (modify (upd_staged (Some newStaged)) e).2 with (opened e) in HB.
  cbn [fst snd gets] in HB. rewrite H1 in HB. change (default newStaged (Some st)) with st in HB.
  pose proof (flush_spec _ st Hr H1) as Hf. destruct (flushStaged st (run_batch p (opened e)).2) as [[err'|] e1]; cbn in HB; [|done].
  injection HB as _ _ <-. destruct Hf as (Hg & Hs & _ & _ & Eg & El & Es & Ex). split_and!; try done; [|congruence..].
  rewrite Ex. exact Hroll.
Qed.

Variable engineFor : string → gmap string Eng → bool + Eng.
Variable authorize : option (string → bool).
Variable acceptUnknown : bool.
#[local] Abbreviation resource := (export_resource engineFor authorize acceptUnknown).
#[local] Abbreviation Exported := (Export engineFor authorize acceptUnknown).

(** C9. A failed flush leaves no trace. When a resource's batch cannot be made durable, the
    request fails as retriable, the tenant's projection, log and subscribers are as they
    were, and its reconciler asserts what it asserted, so that the retry derives the same
    removals again; no other tenant's state is touched. *)
Theorem failed_flush_leaves_no_trace (now : Time) (base : string) (locked : bool) (rl : ResourceLogs) (sv sv' : Server W) (t : Tally) (err : EngineError)
    (Hgood : ∀ id e, engineFor id (sv_engines sv) = inr e → good e ∧ en_staged e = None)
    (Hexp : resource now base locked rl sv t = (sv', inl (Unavailable (Flushing err)))) :
  ∃ tenantID e e', tenantOf base locked (rl_Attributes rl) = inr tenantID ∧ engineFor tenantID (sv_engines sv) = inr e ∧
    sv' = mkServer (<[tenantID := e']> (sv_engines sv)) (<[tenantID := reconcilerFor tenantID sv]> (sv_reconcilers sv)) ∧
    en_graph e' = en_graph e ∧ logged (en_log e') = logged (en_log e) ∧ en_subs e' = en_subs e.
Proof.
  unfold export_resource in Hexp. destruct (tenantOf _ _ _) as [?|tenantID] eqn:Ht; [unfold tenantOf in Ht; by repeat case_match; simplify_eq|].
  destruct (negb _); [done|]. destruct (engineFor tenantID (sv_engines sv)) as [[]|e] eqn:He; [done|done|].
  destruct (Hgood _ _ He) as [Hg Hst].
  destruct (Batch _ _) as [[[t' routeErr] batchErr] e'] eqn:HB. destruct routeErr as [|]; [done|]. destruct batchErr as [err'|]; [|done].
  injection Hexp as <- ->. destruct (batch_failed _ _ _ _ _ (upd_side_good (reconcilerFor tenantID sv) e Hg) Hst (ingest_scopes_undoable _ _ _ _ _ _) HB) as (Ex & Eg & El & Es & _).
  exists tenantID, e, e'. split_and!; try done. by rewrite Ex.
Qed.

(** ** Where a request writes *)

(** A tenant the request may write to. *)
Definition writable (base : string) (locked : bool) (rls : list ResourceLogs) (id : string) : Prop :=
  match authorize with Some auth => auth id = true | None => True end ∧ (locked = true → id = base) ∧
  (id = base ∨ ∃ rl raw, rl ∈ rls ∧ strAttr (rl_Attributes rl) "tenant.id" = Some raw ∧ Sanitize raw = Some id).

Lemma resource_confined now base locked rl sv t sv' r : resource now base locked rl sv t = (sv', r) →
  ∃ touched : option string, (∀ id, touched = Some id → writable base locked [rl] id) ∧
    ∀ id, touched ≠ Some id → sv_engines sv' !! id = sv_engines sv !! id ∧ sv_reconcilers sv' !! id = sv_reconcilers sv !! id.
Proof.
  unfold export_resource. destruct (tenantOf base locked (rl_Attributes rl)) as [?|tenantID] eqn:Ht; [intros [= <- <-]; by exists None|].
  destruct (negb _) eqn:Ha; [intros [= <- <-]; by exists None|]. apply negb_false_iff in Ha.
  destruct (engineFor _ _) as [[]|e]; [intros [= <- <-]; by exists None..|].
  destruct (Batch _ _) as [[[t' routeErr] batchErr] e']. intros Hr. exists (Some tenantID). split.
  - intros id [= <-]. split; [by destruct authorize|]. unfold tenantOf in Ht. destruct (strAttr _ _) as [raw|] eqn:Hraw.
    + destruct locked; [injection Ht as ->; split; [done|by left]|]. destruct (Sanitize raw) eqn:Hs; [|done]. injection Ht as ->.
      split; [done|]. right. exists rl, raw. split_and!; [left|done|done].
    + injection Ht as ->. split; [done|by left].
  - intros id Hne. assert (tenantID ≠ id) by congruence. destruct routeErr, batchErr; injection Hr as <- <-; cbn; by rewrite !lookup_insert_ne.
Qed.

Lemma export_confined (now : Time) (base : string) (locked : bool) (rls : list ResourceLogs) (sv : Server W) :
  let sv' := (Exported now (Some (base, locked)) rls sv).1.1 in
  ∀ id, sv_engines sv' !! id ≠ sv_engines sv !! id ∨ sv_reconcilers sv' !! id ≠ sv_reconcilers sv !! id →
    match authorize with Some auth => auth id = true | None => True end ∧ (locked = true → id = base) ∧
    (id = base ∨ ∃ rl raw, rl ∈ rls ∧ strAttr (rl_Attributes rl) "tenant.id" = Some raw ∧ Sanitize raw = Some id).
Proof.
  assert (∀ rls sv t pt, ∀ id, sv_engines (export_resources engineFor authorize acceptUnknown now base locked rls sv t pt).1 !! id ≠ sv_engines sv !! id ∨
    sv_reconcilers (export_resources engineFor authorize acceptUnknown now base locked rls sv t pt).1 !! id ≠ sv_reconcilers sv !! id → writable base locked rls id) as Hall.
  { clear. induction rls as [|rl rls IH]; intros sv t pt id; cbn [export_resources]; [by intros [|]|].
    destruct (resource now base locked rl sv t) as [sv1 r] eqn:Hr. destruct (resource_confined _ _ _ _ _ _ _ _ Hr) as (touched & Htouched & Hsame).
    assert (touched = Some id → writable base locked (rl :: rls) id) as Hw1.
    { intros (H1 & H2 & [->|(rl' & raw & ->%list_elem_of_singleton & H3 & H4)])%Htouched; split_and!; try done; [by left|]. right. exists rl, raw. split_and!; [left|done|done]. }
    assert (writable base locked rls id → writable base locked (rl :: rls) id) as Hw2.
    { intros (H1 & H2 & [->|(rl' & raw & Hin & H3 & H4)]); split_and!; try done; [by left|]. right. exists rl', raw. split_and!; [by right|done|done]. }
    destruct (decide (touched = Some id)) as [Hid|Hid]; [intros _; by apply Hw1|]. destruct (Hsame id Hid) as [E1 E2].
    destruct r as [resp|[t' tenantID]]; cbn [fst]; [rewrite E1 E2; by intros [|]|].
    intros Hd. apply Hw2, (IH sv1 t' (<[tenantID:=add_counts t t' (pt !! tenantID)]> pt) id). by rewrite E1 E2. }
  intros sv' id Hd. apply (Hall rls sv no_tally ∅ id). unfold sv', Export in Hd.
  destruct (export_resources _ _ _ _ _ _ _ _ _ _) as [sv2 [?|[? ?]]]; exact Hd.
Qed.

(** C10. A request writes only where it may. Whatever the records and the outcome, an engine
    or a reconciler that an export changed belongs to a tenant the caller is authorized
    for, which is the request's own or is named, after sanitizing, by the resource
    attribute of one of its parts; and where the tenant is locked, as it is when derived
    from a scoped token, it is the request's own: the attribute cannot redirect it. *)
Theorem export_is_confined (now : Time) (base : string) (locked : bool) (rls : list ResourceLogs) (sv : Server W) :
  let sv' := (Exported now (Some (base, locked)) rls sv).1.1 in
  ∀ id, sv_engines sv' !! id ≠ sv_engines sv !! id ∨ sv_reconcilers sv' !! id ≠ sv_reconcilers sv !! id →
    match authorize with Some auth => auth id = true | None => True end ∧ (locked = true → id = base) ∧
    (id = base ∨ ∃ rl raw, rl ∈ rls ∧ strAttr (rl_Attributes rl) "tenant.id" = Some raw ∧ Sanitize raw = Some id).
Proof. apply export_confined. Qed.
End spec.
