(* ===== verification/IngestRecords.v ===== *)
(** * Records and reconciliation

    What one record's routing and one source's reconciliation amount to: a refused record
    changes nothing but the count, a relation is removed by absence, and an accepted
    record is read exactly, with what is dropped named. *)
From S2P Require Import Prelude GoStd Values Vocabulary Entities Events DisplayNames.
From S2P Require Import Speakers Observations Aliases Projection ProjectionInv Engine EngineInv EngineSound EngineEffects.
From S2P Require Import Tenant Wire Convert Embedded Receiver IngestUndo.
Open Scope Z_scope.

(** ** Conversion *)

Lemma kvsFromMap_cons k v m pre nested : kvsFromMap ((k, v) :: m) pre nested =
  match valueFrom nested v with
  | Some mv => ((k, mv) :: (kvsFromMap m pre nested).1, (kvsFromMap m pre nested).2)
  | None => ((kvsFromMap m pre nested).1, joinKey pre k :: (kvsFromMap m pre nested).2)
  end.
Proof. cbn [kvsFromMap]. destruct (kvsFromMap m pre nested). by destruct (valueFrom nested v). Qed.

(** Each entry is kept or its dotted key is named, in order. *)
Lemma kvsFromMap_split m pre nested :
  (kvsFromMap m pre nested).1 = omap (λ kv, pair kv.1 <$> valueFrom nested kv.2) m ∧
  (kvsFromMap m pre nested).2 = (λ kv, joinKey pre kv.1) <$> base.filter (λ kv, valueFrom nested kv.2 = None) m.
Proof.
  induction m as [|[k v] m [IH1 IH2]]; [done|]. rewrite kvsFromMap_cons filter_cons. cbn [omap list_omap fst snd].
  case_decide as Hd; cbn [snd] in Hd; destruct (valueFrom nested v); try done; rewrite IH1 IH2 //.
Qed.

(** An array or a map is taken whole or not at all; a map with the rule of [kvsFromMap]. *)
Lemma valueFrom_map m : valueFrom true (AVMap m) = match kvsFromMap m "" true with (kvs, []) => Some (KindKvlist kvs) | _ => None end.
Proof.
  cbn [valueFrom]. match goal with |- KindKvlist <$> ?f m = _ => set (g := f) end.
  assert (g m = match kvsFromMap m "" true with (kvs, []) => Some kvs | _ => None end) as ->.
  { induction m as [|[k v] m IH]; [done|]. rewrite kvsFromMap_cons. cbn [g]. fold g. rewrite IH. destruct (valueFrom true v); [|done].
    by destruct (kvsFromMap m "" true) as [kvs []]. }
  by destruct (kvsFromMap m "" true) as [kvs []].
Qed.

(** The scalar entries of an attribute map. *)
Definition scalar_entries (m : PMap) : list KeyValue := omap (λ kv, pair kv.1 <$> valueFrom false kv.2) m.
Definition all_entries (m : PMap) : list KeyValue := omap (λ kv, pair kv.1 <$> valueFrom true kv.2) m.
Definition map_of (attrs : PMap) (key : string) : PMap := match pget attrs key with Some (AVMap m) => m | _ => [] end.
(** The dotted keys of what a record loses. *)
Definition lost_keys (attrs : PMap) : list string :=
  (((λ kv, joinKey AttrEntityID kv.1) <$> base.filter (λ kv, valueFrom false kv.2 = None) (map_of attrs AttrEntityID)) ++
   ((λ kv, joinKey AttrEntityDescription kv.1) <$> base.filter (λ kv, valueFrom true kv.2 = None) (map_of attrs AttrEntityDescription)) ++
   match pget attrs AttrEntityReportInterval with Some (AVInt _) | None => [] | Some _ => [AttrEntityReportInterval] end)%list.

Lemma mapAttr_map attrs key nested : mapAttr attrs key nested =
  match pget attrs key with Some (AVMap m) => Some (kvsFromMap m key nested) | _ => None end.
Proof. done. Qed.

(** An accepted record is read exactly and nothing of it is lost silently. Its
    observation has the record's type, the scalar entries of its identity map and every
    convertible entry of its description, in order, its time and its interval in seconds;
    the entity so described is valid under the vocabulary in force; and the keys
    reported as dropped are exactly those of the entries that were not taken. A record is
    refused when the type is missing, no scalar identity is left, or the entity is not
    valid, and for no other reason. *)
Theorem entity_obs_exact (attrs : PMap) (when : Time) (strictVocab : bool) :
  match entityObs attrs when strictVocab with
  | (inr obs, dropped) =>
    strAttr attrs AttrEntityType = Some (eo_Type obs) ∧
    eo_Identity obs = scalar_entries (map_of attrs AttrEntityID) ∧ eo_Identity obs ≠ [] ∧
    eo_Attributes obs = all_entries (map_of attrs AttrEntityDescription) ∧
    eo_EventTime obs = when ∧ eo_Interval obs = reportEntityInterval attrs ∧
    entity_validate strictVocab (observed obs "") = None ∧ dropped = lost_keys attrs
  | (inl MissingType, _) => strAttr attrs AttrEntityType = None
  | (inl MissingIdentity, _) => scalar_entries (map_of attrs AttrEntityID) = []
  | (inl (InvalidEntity err), _) => ∃ typ, strAttr attrs AttrEntityType = Some typ ∧
    entity_validate strictVocab (mkEntity "" typ (scalar_entries (map_of attrs AttrEntityID)) (all_entries (map_of attrs AttrEntityDescription)) "") = Some err
  | (inl (UnknownRelationship _), _) => False
  end.
Proof.
  unfold entityObs. destruct (strAttr attrs AttrEntityType) as [typ|]; [|done].
  assert (∀ key nested, default ([], []) (mapAttr attrs key nested) = kvsFromMap (map_of attrs key) key nested) as Hmap.
  { intros key nested. rewrite mapAttr_map. unfold map_of. by destruct (pget attrs key) as [[]|]. }
  pose proof (Hmap AttrEntityID false) as Hid. destruct (kvsFromMap_split (map_of attrs AttrEntityID) AttrEntityID false) as [Ei Edi]. rewrite -Hid in Ei, Edi.
  pose proof (Hmap AttrEntityDescription true) as Hdesc. destruct (kvsFromMap_split (map_of attrs AttrEntityDescription) AttrEntityDescription true) as [Ed Edd]. rewrite -Hdesc in Ed, Edd.
  destruct (mapAttr attrs AttrEntityID false) as [[[|kv ident] identDropped]|]; [done| |done]. cbn [default fst snd] in Ei, Edi.
  destruct (default ([], []) (mapAttr attrs AttrEntityDescription true)) as [descriptive descDropped]. cbn [fst snd] in Ed, Edd.
  change (omap _ (map_of attrs AttrEntityID)) with (scalar_entries (map_of attrs AttrEntityID)) in Ei.
  change (omap _ (map_of attrs AttrEntityDescription)) with (all_entries (map_of attrs AttrEntityDescription)) in Ed. rewrite -Ei -Ed.
  destruct (entity_validate _ _) as [err|] eqn:Hv; [by exists typ|].
  unfold reportEntityInterval. unfold lost_keys. rewrite -Edi -Edd app_assoc.
  destruct (pget attrs AttrEntityReportInterval) as [[]|]; cbn [eo_Type eo_Identity eo_Attributes eo_EventTime eo_Interval observed eo_SchemaURL];
    split_and!; done || by rewrite ?app_nil_r.
Qed.

(** ** A refused record *)

Definition refused (now : Time) (strictVocab : bool) (lr : LogRecord) : bool :=
  (bool_decide (lr_EventName lr = EventEntityState) || bool_decide (lr_EventName lr = EventEntityDelete)) &&
  match (entityObs (lr_Attributes lr) (eventTimeOf now lr) strictVocab).1 with inl _ => true | inr _ => false end.

Section records.
Context {W : Type} `{!Host} `{!Appender W}.
#[local] Abbreviation Eng := (Engine W Recon).
Implicit Types e : Eng.
Variables (now : Time) (producer tenantID : string) (acceptUnknown : bool).
#[local] Abbreviation record := (ingest_record now producer tenantID acceptUnknown).
#[local] Abbreviation recs := (ingest_records now producer tenantID acceptUnknown).
#[local] Abbreviation bad := (refused now (negb acceptUnknown)).

(** Tallies that differ by [k] rejections only. *)
Record off_by (k : Z) (t t' : Tally) : Prop := {
  ob_handled : t_handled t = t_handled t';
  ob_skipped : t_skipped t = t_skipped t';
  ob_rejected : t_rejected t = t_rejected t' + k;
}.

Lemma record_off_by scope lr e k t t' : off_by k t t' →
  (run_batch (record scope lr t) e).2 = (run_batch (record scope lr t') e).2 ∧
  (run_batch (record scope lr t) e).1.2 = (run_batch (record scope lr t') e).1.2 ∧
  off_by k (run_batch (record scope lr t) e).1.1 (run_batch (record scope lr t') e).1.1.
Proof.
  intros [H1 H2 H3]. unfold ingest_record. rewrite !run_bind. destruct (run_batch (routeRecordVocab _ _ _ _) e) as [[[handled drop] err] e1]. cbn [fst snd].
  destruct err as [[why|errs]|]; [split_and!; try done; split; simpl; lia..|].
  rewrite !run_bind. destruct (run_batch (handleVocab _ _ _ _ _) e1) as [[[edrop beliefs] eerr] e2]. cbn [fst snd].
  destruct eerr as [[why|errs]|]; [split_and!; try done; split; simpl; lia..|]. destruct handled; split_and!; try done; split; simpl; lia.
Qed.

Lemma refused_record scope lr e t : bad lr = true →
  ∃ t', run_batch (record scope lr t) e = ((t', None), e) ∧ off_by 1 t' t.
Proof.
  unfold refused. intros [Hev Hobs]%andb_true_iff. unfold ingest_record. rewrite run_bind. unfold routeRecordVocab.
  destruct (entityObs _ _ _) as [[why|obs] drop]; [|done]. repeat case_bool_decide; try done; cbn [run_batch fst snd mret M_ret BatchProg_ret];
    eexists; (split; [reflexivity|split; simpl; lia]).
Qed.

(** One bad record does no harm. Routing a list of records leaves the engine, the
    reconciler, the outcome and the counts of handled and ignored records as routing the
    list without the refused ones does; only the count of rejections differs, by their
    number when the routing gets to the end. *)
Theorem bad_records_do_no_harm (scope : string) (lrs : list LogRecord) (t : Tally) (e : Eng) :
  let all := run_batch (recs scope lrs t) e in
  let rest := run_batch (recs scope (base.filter (λ lr, bad lr = false) lrs) t) e in
  all.2 = rest.2 ∧ all.1.2 = rest.1.2 ∧ t_handled all.1.1 = t_handled rest.1.1 ∧ t_skipped all.1.1 = t_skipped rest.1.1 ∧
  (all.1.2 = None → t_rejected all.1.1 = t_rejected rest.1.1 + Z.of_nat (length (base.filter (λ lr, bad lr = true) lrs))).
Proof.
  assert (∀ lrs k t t' e, off_by k t t' →
    let all := run_batch (recs scope lrs t) e in
    let rest := run_batch (recs scope (base.filter (λ lr, bad lr = false) lrs) t') e in
    all.2 = rest.2 ∧ all.1.2 = rest.1.2 ∧ ∃ k', off_by k' all.1.1 rest.1.1 ∧
      (all.1.2 = None → k' = k + Z.of_nat (length (base.filter (λ lr, bad lr = true) lrs)))) as Hall.
  { clear. induction lrs as [|lr lrs IH]; intros k t t' e Hoff; cbn [ingest_records].
    { split_and!; try done. exists k. split; [done|]. intros _. simpl. lia. }
    rewrite !filter_cons. destruct (bad lr) eqn:Hbad.
    - destruct (decide (true = false)) as [|_]; [done|]. destruct (decide (true = true)) as [_|]; [|done]. rewrite run_bind. destruct (refused_record scope lr e t Hbad) as (t1 & -> & Ho1). cbn [fst snd].
      destruct (IH (k + 1) t1 t' e) as (E1 & E2 & k' & Hk & Hn); [destruct Hoff, Ho1; split; lia|].
      split_and!; try done. exists k'. split; [done|]. intros Hnone. rewrite (Hn Hnone). cbn [length]. lia.
    - destruct (decide (false = false)) as [_|]; [|done]. destruct (decide (false = true)) as [|_]; [done|]. cbn [ingest_records]. rewrite (run_bind (record scope lr t)) (run_bind (record scope lr t')).
      destruct (record_off_by scope lr e k t t' Hoff) as (E1 & E2 & Hrel).
      destruct (run_batch (record scope lr t) e) as [[t1 err1] e1], (run_batch (record scope lr t') e) as [[t2 err2] e2]. cbn [fst snd] in *. subst e2 err2.
      destruct err1 as [err|]; [|by apply IH]. split_and!; [done|done|]. by exists k. }
  destruct (Hall lrs 0 t t e) as (E1 & E2 & k' & [H1 H2 H3] & Hn); [by split; lia|].
  intros all rest. split_and!; try done. intros Hnone. unfold all, rest. specialize (Hn Hnone). rewrite H3 Hn. apply Z.add_cancel_l. lia.
Qed.

(** ** Removal by absence *)

Lemma wanted_lookup desired k o : wanted desired !! k = Some o → relationKey o = k ∧ o ∈ desired.
Proof.
  unfold wanted. rewrite -(app_nil_r desired).
  assert (∀ l (m : gmap string RelationObservation), (∀ k o, m !! k = Some o → relationKey o = k) → ∀ k o, foldl (λ m o, <[relationKey o := o]> m) m l !! k = Some o →
    relationKey o = k ∧ (o ∈ l ∨ m !! k = Some o)) as Hf.
  { clear. induction l as [|o l IH]; intros m Hm k o' Ho; cbn [foldl] in *; [split; [by apply Hm|by right]|].
    apply IH in Ho as [Hk Ho]; [|intros k0 o0 [[<- <-]|[_ ?]]%lookup_insert_Some; [done|by apply Hm]]. split; [done|].
    destruct Ho as [Ho|[[_ <-]|[_ Ho]]%lookup_insert_Some]; [left; by right|left; left|by right]. }
  rewrite app_nil_r. intros [Hk Ho]%Hf; [|intros ??; by rewrite lookup_empty]. split; [done|]. rewrite lookup_empty in Ho. by destruct Ho.
Qed.
Lemma wanted_some desired k : is_Some (wanted desired !! k) ↔ k ∈ relationKey <$> desired.
Proof.
  split.
  - intros [o [<- Ho]%wanted_lookup]. by apply list_elem_of_fmap_2.
  - unfold wanted. generalize (∅ : gmap string RelationObservation) as m.
    assert (∀ (l : list RelationObservation) (m : gmap string RelationObservation) k, is_Some (m !! k) → is_Some (foldl (λ m o, <[relationKey o := o]> m) m l !! k)) as Hk.
    { clear. induction l as [|o l IH]; intros m k Hs; cbn [foldl]; [done|]. apply IH. destruct (decide (relationKey o = k)) as [->|Hne]; [by rewrite lookup_insert_eq|by rewrite lookup_insert_ne]. }
    induction desired as [|o l IH]; intros m; rewrite ?fmap_nil ?fmap_cons; [by intros ?%elem_of_nil|].
    intros [->|Hin]%elem_of_cons; cbn [foldl]; [apply Hk; by rewrite lookup_insert_eq|by apply IH].
Qed.

Definition run_ops (ops : list (BatchOp Recon)) e : Eng := foldl (λ e op, (run_op op e).2) e ops.

Lemma observe_each_ops desired e : (run_batch (observe_each desired) e).2 = run_ops (BObserveRelation <$> desired) e.
Proof.
  revert e. induction desired as [|o desired IH]; intros e; cbn [observe_each]; [done|]. cbn [run_batch]. rewrite bind_state run_bind.
  cbn [run_batch mret BatchProg_ret M_ret snd]. rewrite IH. done.
Qed.
Lemma remove_each_ops when gone e : (run_batch (remove_each when gone) e).2 = run_ops ((λ o, BRemoveRelation (at_time when o)) <$> gone) e.
Proof.
  revert e. induction gone as [|o gone IH]; intros e; cbn [remove_each]; [done|]. cbn [run_batch]. rewrite bind_state run_bind.
  cbn [run_batch mret BatchProg_ret M_ret snd]. rewrite IH. done.
Qed.

(** Removal is by absence, per source. When a source that last listed some relations
    lists others, the engine is asked to observe each listed one, in order, and then to
    remove, once each and at the record's time, those of its former list whose key is not
    listed any more, and nothing else; the source's entry becomes the new list, or goes
    when it is empty, every other source's stays, and the undo is registered. *)
Theorem removal_by_absence (sk : string) (former desired : list RelationObservation) (when : Time) (e : Eng)
    (Hformer : default ∅ (en_side e !! sk) = wanted former) :
  ∃ gone,
    NoDup (relationKey <$> gone) ∧ (∀ o, o ∈ gone → o ∈ former) ∧
    (∀ k, k ∈ relationKey <$> gone ↔ k ∈ relationKey <$> former ∧ k ∉ relationKey <$> desired) ∧
    let e1 := run_ops ((BObserveRelation <$> desired) ++ ((λ o, BRemoveRelation (at_time when o)) <$> gone))%list e in
    (run_batch (reconcile sk desired when) e).2 =
      (on_staged (push_rollback (restore_state sk (en_side e !! sk))) (upd_side (advance_state sk (wanted desired) (en_side e)) e1)).2 ∧
    (∀ sk', sk' ≠ sk → advance_state sk (wanted desired) (en_side e) !! sk' = en_side e !! sk') ∧
    default ∅ (advance_state sk (wanted desired) (en_side e) !! sk) = wanted desired.
Proof.
  exists (no_longer (wanted former) (wanted desired)).
  assert (∀ k o, (k, o) ∈ base.filter (λ kv, wanted desired !! kv.1 = None) (map_to_list (wanted former)) ↔
    wanted former !! k = Some o ∧ k ∉ relationKey <$> desired) as Hin.
  { intros k o. rewrite list_elem_of_filter elem_of_map_to_list. cbn [fst]. rewrite -wanted_some eq_None_not_Some. tauto. }
  assert (relationKey <$> no_longer (wanted former) (wanted desired) = (base.filter (λ kv, wanted desired !! kv.1 = None) (map_to_list (wanted former))).*1) as Hkeys.
  { unfold no_longer. rewrite -list_fmap_compose. apply list_fmap_ext. intros i [k o] Hi%list_elem_of_lookup_2%Hin. simpl. by destruct Hi as [[? _]%wanted_lookup _]. }
  cbv zeta. split_and!.
  - rewrite Hkeys. apply NoDup_fmap_filter, NoDup_fst_map_to_list.
  - intros o [[k o'] [-> [Ho _]%Hin]]%list_elem_of_fmap. by apply wanted_lookup in Ho as [_ ?].
  - intros k. rewrite Hkeys list_elem_of_fmap. split.
    + intros [[k' o] [-> [Ho Hn]%Hin]]. split; [|done]. apply wanted_some. by exists o.
    + intros [[o Ho]%wanted_some Hn]. exists (k, o). split; [done|]. by apply Hin.
  - unfold reconcile. cbn [run_batch]. rewrite bind_state. cbn [fst snd gets]. rewrite run_bind run_bind. cbn [run_batch run_op mret M_ret].
    rewrite !bind_state. cbn [fst snd modify mret M_ret]. rewrite Hformer remove_each_ops observe_each_ops.
    unfold run_ops. rewrite foldl_app. fold (run_ops (BObserveRelation <$> desired) e). set (e1 := foldl _ _ _).
    assert (en_side e1 = en_side e) as ->; [|done]. unfold e1. fold (run_ops ((λ o, BRemoveRelation (at_time when o)) <$> no_longer (wanted former) (wanted desired)) (run_ops (BObserveRelation <$> desired) e)).
    by rewrite -remove_each_ops remove_each_side -observe_each_ops observe_each_side.
  - intros sk' Hne. unfold advance_state. case_bool_decide; [by rewrite lookup_delete_ne|by rewrite lookup_insert_ne].
  - unfold advance_state. case_bool_decide as He; [by rewrite lookup_delete_eq He|by rewrite lookup_insert_eq].
Qed.
End records.
