(* ===== verification/EmitSpec.v ===== *)
(** * What the SDK builds, the receiver reads

    The payload of [Build] read with the receiver's conversion: every record is accepted
    under the vocabulary it is built from, with the identity, the attributes, the interval
    and the relations the producer gave, and nothing dropped. *)
From S2P Require Import Prelude GoStd Values Vocabulary Entities Events Observations Engine Wire Convert Embedded IngestUndo IngestRecords Emit.
Open Scope Z_scope.

(** ** Maps *)

Lemma pget_pput k v m k' : pget (pput k v m) k' = if decide (k = k') then Some v else pget m k'.
Proof.
  induction m as [|[k0 v0] m IH]; cbn [pput]; [by rewrite pget_cons|]. destruct (decide (k0 = k)) as [->|Hne].
  - rewrite !pget_cons. by case_decide.
  - rewrite !pget_cons IH. repeat case_decide; congruence.
Qed.
Lemma pput_fresh k v m : k ∉ m.*1 → pput k v m = (m ++ [(k, v)])%list.
Proof.
  induction m as [|[k0 v0] m IH]; [done|]. rewrite fmap_cons not_elem_of_cons. intros [Hne Hn]. cbn [pput app].
  rewrite decide_False; [by rewrite IH|]. intros ->. by apply Hne.
Qed.

Lemma sorted_entries_elem {A} (m : gmap string A) k x : (k, x) ∈ sorted_entries m ↔ m !! k = Some x.
Proof. unfold sorted_entries. rewrite sort_by_elem. apply elem_of_map_to_list. Qed.
Lemma sorted_entries_NoDup {A} (m : gmap string A) : NoDup (sorted_entries m).*1.
Proof. unfold sorted_entries. rewrite sort_by_perm. apply NoDup_fst_map_to_list. Qed.
Lemma sorted_entries_nil {A} (m : gmap string A) : sorted_entries m = [] ↔ m = ∅.
Proof.
  split; [|intros ->; done]. intros E. apply map_empty. intros k. apply eq_None_not_Some. intros [x Hx].
  apply sorted_entries_elem in Hx. rewrite E in Hx. by apply elem_of_nil in Hx.
Qed.

Lemma put_strings (l : list (string * string)) (m : PMap) : NoDup l.*1 → (∀ k, k ∈ l.*1 → k ∉ m.*1) →
  foldl (λ m kv, pput kv.1 (AVStr kv.2) m) m l = (m ++ ((λ kv, (kv.1, AVStr kv.2)) <$> l))%list.
Proof.
  revert m. induction l as [|[k s] l IH]; intros m Hnd Hfresh; [by rewrite app_nil_r|]. rewrite fmap_cons in Hnd, Hfresh. apply NoDup_cons in Hnd as [Hk Hnd].
  cbn [foldl fst snd]. rewrite pput_fresh; [|apply Hfresh; left]. rewrite IH; [by rewrite fmap_cons -app_assoc|done|].
  intros k' Hk'. rewrite fmap_app. intros [?|Hin]%elem_of_app; [by apply (Hfresh k'); [right|]|].
  apply list_elem_of_singleton in Hin as ->. done.
Qed.

(** The string entries of a Go map, as the payload and as attributes. *)
Definition string_entries (m : gmap string string) : PMap := (λ kv, (kv.1, AVStr kv.2)) <$> sorted_entries m.
Definition strings (m : gmap string string) : list KeyValue := (λ kv, (kv.1, KindString kv.2)) <$> sorted_entries m.

Lemma putSorted_new m : putSorted [] m = string_entries m.
Proof. unfold putSorted. rewrite put_strings; [done|apply sorted_entries_NoDup|intros ? _; apply not_elem_of_nil]. Qed.

(** Entries that all convert. *)
Lemma kvsFromMap_all m kvs pre nested : Forall2 (λ e kv, e.1 = kv.1 ∧ valueFrom nested e.2 = Some kv.2) m kvs → kvsFromMap m pre nested = (kvs, []).
Proof.
  induction 1 as [|[k v] [k' mv] m kvs [Hk Hv] _ IH]; [done|]. cbn [fst snd] in *. subst k'. by rewrite kvsFromMap_cons Hv IH.
Qed.
Lemma kvs_strings m pre nested : kvsFromMap (string_entries m) pre nested = (strings m, []).
Proof.
  apply kvsFromMap_all. unfold string_entries, strings. apply Forall2_fmap, Forall_Forall2_diag, Forall_forall. by intros [k s] _.
Qed.

(** ** Native values *)

Section go_value_ind.
Variable P : GoValue → Prop.
Hypothesis Hstr : ∀ s, P (GString s).
Hypothesis Hbool : ∀ b, P (GBool b).
Hypothesis Hint : ∀ i, P (GInt i).
Hypothesis Huint : ∀ n, P (GUint n).
Hypothesis Hfloat : ∀ f, P (GFloat f).
Hypothesis Hslice : ∀ l, Forall P l → P (GSlice l).
Hypothesis Hmap : ∀ m, Forall (λ kv, P kv.2) m → P (GMap m).
Hypothesis Hother : P GOther.
Fixpoint GoValue_rect_nested (v : GoValue) : P v :=
  match v with
  | GString s => Hstr s
  | GBool b => Hbool b
  | GInt i => Hint i
  | GUint n => Huint n
  | GFloat f => Hfloat f
  | GSlice l => Hslice l ((fix go l : Forall P l := match l with [] => Forall_nil_2 P | v :: l => Forall_cons_2 P v l (GoValue_rect_nested v) (go l) end) l)
  | GMap m => Hmap m ((fix go m : Forall (λ kv : string * GoValue, P kv.2) m := match m with
      | [] => Forall_nil_2 (λ kv : string * GoValue, P kv.2)
      | (k, v) :: m => Forall_cons_2 (λ kv : string * GoValue, P kv.2) (k, v) m (GoValue_rect_nested v) (go m)
      end) m)
  | GOther => Hother
  end.
End go_value_ind.

(** The attribute value a native value stands for. *)
Fixpoint native (v : GoValue) : Value :=
  match v with
  | GString s => KindString s
  | GBool b => KindBool b
  | GInt i => KindInt i
  | GUint n => KindInt (wrap64 n)
  | GFloat f => KindDouble f
  | GSlice l => KindArray (map native l)
  | GMap m => KindKvlist (sort_by fst (map (λ kv, (kv.1, native kv.2)) m))
  | GOther => KindInvalid
  end.

Lemma native_valid g v : putAnyValue g = Some v → IsValid (native g) = true.
Proof. by destruct g. Qed.

Lemma valueFrom_put g v : putAnyValue g = Some v → valueFrom true v = Some (native g).
Proof.
  revert v. induction g as [s|b|i|n|f|l IH|m IH|] using GoValue_rect_nested; intros v; cbn [putAnyValue]; try (by intros [= <-]).
  - match goal with |- AVSlice <$> ?f l = _ → _ => set (elems := f) end.
    destruct (elems l) as [xs|] eqn:Hl; [|done]. intros [= <-]. cbn [valueFrom native].
    match goal with |- KindArray <$> ?f xs = _ => set (go := f) end. assert (go xs = Some (map native l)) as ->; [|done].
    revert xs Hl. induction IH as [|g l Hg _ IHl]; intros xs Hl; cbn [elems] in Hl; [by injection Hl as <-|].
    fold elems in Hl. destruct (putAnyValue g) as [x|]; [|done]. destruct (elems l) as [xs'|]; [|done]. injection Hl as <-.
    cbn [go]. fold go. by rewrite (Hg x eq_refl) (IHl xs' eq_refl).
  - match goal with |- _ <$> ?f m = _ → _ => set (entries := f) end.
    destruct (entries m) as [es|] eqn:Hm; [|done]. intros [= <-]. rewrite valueFrom_map.
    assert (Forall2 (λ e kv, e.1 = kv.1 ∧ valueFrom true e.2 = Some kv.2) es (map (λ kv, (kv.1, native kv.2)) m)) as HF.
    { revert es Hm. induction IH as [|[k g] m Hg _ IHm]; intros es Hm; cbn [entries] in Hm; [injection Hm as <-; constructor|].
      fold entries in Hm. cbn [fst snd] in *. destruct (putAnyValue g) as [x|]; [|done]. destruct (entries m) as [es'|]; [|done]. injection Hm as <-.
      constructor; [by split; [|apply Hg]|by apply IHm]. }
    set (conv := λ e : string * AnyValue, (e.1, default KindInvalid (valueFrom true e.2))).
    assert (map (λ kv, (kv.1, native kv.2)) m = conv <$> es) as E.
    { clear -HF. induction HF as [|[k v] [k' mv] es kvs [Hk Hv] _ IH]; [done|]. cbn [fst snd] in *. rewrite fmap_cons -IH. unfold conv. cbn [fst snd]. by rewrite Hk Hv. }
    cbn [native]. rewrite E. change (conv <$> es) with (map conv es). rewrite -(sort_by_map conv fst fst) //.
    rewrite (kvsFromMap_all _ (conv <$> sort_by fst es)); [done|]. apply Forall2_fmap_r, Forall_Forall2_diag, Forall_forall.
    intros [k v] Hin%sort_by_elem. unfold conv. cbn [fst snd]. split; [done|].
    apply list_elem_of_lookup in Hin as [i Hi]. destruct (Forall2_lookup_l _ _ _ _ _ HF Hi) as ([k' mv] & _ & _ & Hv). cbn [snd] in Hv. by rewrite Hv.
Qed.

(** ** The description *)

Lemma put_rich_app kvs : ∀ m m', NoDup kvs.*1 → (∀ k, k ∈ kvs.*1 → k ∉ m.*1) → put_rich m kvs = Some m' →
  ∃ xs, m' = (m ++ xs)%list ∧ Forall2 (λ x kv, x.1 = kv.1 ∧ putAnyValue kv.2 = Some x.2) xs kvs.
Proof.
  induction kvs as [|[k g] kvs IH]; intros m m' Hnd Hfresh; cbn [put_rich]; [intros [= <-]; exists []; by rewrite app_nil_r|].
  destruct (putAnyValue g) as [x|] eqn:Hg; [|done]. rewrite fmap_cons in Hnd, Hfresh. apply NoDup_cons in Hnd as [Hk Hnd].
  rewrite pput_fresh; [|apply Hfresh; left]. intros Hr. destruct (IH (m ++ [(k, x)])%list m' Hnd) as (xs & -> & HF); [|done|].
  - intros k' Hk'. rewrite fmap_app. intros [?|Hin%list_elem_of_singleton]%elem_of_app; [by apply (Hfresh k'); [right|]|by subst].
  - exists ((k, x) :: xs). rewrite -app_assoc. split; [done|]. by constructor.
Qed.

(** The native attributes, in key order. *)
Definition natives (m : gmap string GoValue) : list KeyValue := (λ kv, (kv.1, native kv.2)) <$> sorted_entries m.

Lemma string_entries_keys m : (string_entries m).*1 = (sorted_entries m).*1.
Proof. unfold string_entries. by rewrite -list_fmap_compose. Qed.
Lemma elem_of_sorted_entries_keys {A} (m : gmap string A) k : k ∈ (sorted_entries m).*1 ↔ is_Some (m !! k).
Proof.
  rewrite list_elem_of_fmap. split; [intros [[k' x] [-> ?%sorted_entries_elem]]; by eexists|]. intros [x Hx]. exists (k, x). split; [done|]. by apply sorted_entries_elem.
Qed.

Lemma putRich_spec A R desc : putRich (putSorted [] A) A R = Some desc →
  kvsFromMap desc AttrEntityDescription true = ((strings A ++ natives R)%list, []) ∧
  (∀ k g, R !! k = Some g → IsValid (native g) = true ∧ A !! k = None).
Proof.
  unfold putRich. destruct (forallb _ _) eqn:Hd; [|done]. rewrite putSorted_new. intros Hr.
  assert (∀ k, is_Some (R !! k) → A !! k = None) as Hdis.
  { intros k Hk%elem_of_sorted_keys. rewrite forallb_forall in Hd. apply list_elem_of_In in Hk. by apply Hd, bool_decide_eq_true in Hk. }
  apply put_rich_app in Hr as (xs & -> & HF); [|apply sorted_entries_NoDup|].
  - split.
    + apply kvsFromMap_all, Forall2_app.
      * unfold string_entries, strings. apply Forall2_fmap, Forall_Forall2_diag, Forall_forall. by intros [k s] _.
      * unfold natives. apply Forall2_fmap_r. eapply Forall2_impl; [exact HF|]. intros [k x] [k' g] [Hk Hx]. cbn [fst snd] in *. split; [done|]. by apply valueFrom_put.
    + intros k g Hk. split; [|apply Hdis; by eexists]. apply sorted_entries_elem, list_elem_of_lookup in Hk as [i Hi].
      destruct (Forall2_lookup_r _ _ _ _ _ HF Hi) as ([k' x] & _ & _ & Hx). by eapply native_valid.
  - intros k Hk%elem_of_sorted_entries_keys. rewrite string_entries_keys elem_of_sorted_entries_keys Hdis //.
Qed.

Lemma wf_strings_natives A R : A !! ""%string = None → R !! ""%string = None →
  (∀ k g, R !! k = Some g → IsValid (native g) = true ∧ A !! k = None) → wf_kvs (strings A ++ natives R).
Proof.
  intros HA HR Hg. unfold wf_kvs. rewrite fmap_app Forall_app. unfold strings, natives, Key, Val. rewrite -!list_fmap_compose. split_and!.
  - apply NoDup_app. split_and!; [apply sorted_entries_NoDup| |apply sorted_entries_NoDup].
    intros k [x Hx]%elem_of_sorted_entries_keys [g Hk]%elem_of_sorted_entries_keys. destruct (Hg k g Hk) as [_ ?]. congruence.
  - apply Forall_fmap, Forall_forall. intros [k s] Hin%sorted_entries_elem. split; [|done]. simpl. intros ->. congruence.
  - apply Forall_fmap, Forall_forall. intros [k g] Hin%sorted_entries_elem. split; [|by apply (Hg k g)]. simpl. intros ->. congruence.
Qed.
Lemma wf_strings A : A !! ""%string = None → wf_kvs (strings A).
Proof. intros HA. pose proof (wf_strings_natives A ∅ HA) as Hw. rewrite app_nil_r in Hw. apply Hw; [done|]. intros ??. by rewrite lookup_empty. Qed.

(** ** Relationships *)

(** The belief a relationship carries on the wire. *)
Definition sdk_belief (r : Relationship) : list KeyValue :=
  if bool_decide (rs_Type r = RelSameAs) then
    ((if f64_lt f64_zero (rs_Confidence r) then [(RelConfidence, KindDouble (rs_Confidence r))] else []) ++
     (if bool_decide (rs_Basis r = "")%string then [] else [(RelBasis, KindString (rs_Basis r))]))%list
  else [].
Definition sdk_relation (source : EndpointRef) (producer : string) (when : Time) (interval : Duration) (r : Relationship) : RelationObservation :=
  mkRelationObservation (rs_Type r) source (mkEndpointRef (rs_TargetType r) (strings (rs_TargetID r))) (sdk_belief r) when producer 0 interval.

Ltac wire_keys := repeat first [rewrite decide_True; [|reflexivity] | rewrite decide_False; [|discriminate]].

Lemma relationship_fields r : ∃ m, relationship_value r = AVMap m ∧
  pget m RelType = Some (AVStr (rs_Type r)) ∧ pget m RelTargetType = Some (AVStr (rs_TargetType r)) ∧
  pget m RelTargetID = Some (AVMap (string_entries (rs_TargetID r))) ∧
  pget m RelConfidence = (if bool_decide (rs_Type r = RelSameAs) && f64_lt f64_zero (rs_Confidence r) then Some (AVDouble (rs_Confidence r)) else None) ∧
  pget m RelBasis = (if bool_decide (rs_Type r = RelSameAs) && negb (bool_decide (rs_Basis r = "")%string) then Some (AVStr (rs_Basis r)) else None).
Proof.
  unfold relationship_value. rewrite putSorted_new. eexists. split; [reflexivity|].
  destruct (bool_decide (rs_Type r = RelSameAs)); [|split_and!; rewrite !pget_pput; by wire_keys].
  destruct (f64_lt f64_zero (rs_Confidence r)), (negb (bool_decide (rs_Basis r = "")%string)); split_and!; rewrite ?pget_pput; by wire_keys.
Qed.

Lemma belief_of r m : pget m RelConfidence = (if bool_decide (rs_Type r = RelSameAs) && f64_lt f64_zero (rs_Confidence r) then Some (AVDouble (rs_Confidence r)) else None) →
  pget m RelBasis = (if bool_decide (rs_Type r = RelSameAs) && negb (bool_decide (rs_Basis r = "")%string) then Some (AVStr (rs_Basis r)) else None) →
  (if bool_decide (rs_Type r = RelSameAs) || bool_decide (rs_Type r = RelResolvesTo) then beliefAttributes m (rs_Type r) else ([], ""%string)).1 = sdk_belief r.
Proof.
  intros Hc Hb. unfold sdk_belief, beliefAttributes. rewrite Hc Hb. destruct (bool_decide (rs_Type r = RelSameAs)); cbn [andb orb].
  - destruct (f64_lt f64_zero (rs_Confidence r)); destruct (bool_decide (rs_Basis r = "")%string) eqn:E; cbn [negb]; rewrite ?E; done.
  - by destruct (bool_decide (rs_Type r = RelResolvesTo)).
Qed.

Lemma strings_nonempty m : m ≠ ∅ → strings m ≠ [].
Proof. intros Hm E. apply Hm, sorted_entries_nil. by apply fmap_nil_inv in E. Qed.

(** A relationship the SDK accepted is described as it was given. *)
Lemma describe_sdk source producer when strict iv key r acc :
  incomplete r = false → (strict = true → RelationDef (rs_Type r) ≠ None) →
  let acc' := describe source producer when strict iv key (relationship_value r) acc in
  ds_rels acc' = (ds_rels acc ++ [sdk_relation source producer when iv r])%list ∧ ds_dropped acc' = ds_dropped acc ∧ ds_err acc' = ds_err acc.
Proof.
  intros [[Ht Htt]%orb_false_iff Hid]%orb_false_iff Hknown. apply bool_decide_eq_false in Hid.
  destruct (relationship_fields r) as (m & -> & F1 & F2 & F3 & F4 & F5). unfold describe, strAttr. rewrite F1 F2 F3 Ht.
  assert (strict && bool_decide (RelationDef (rs_Type r) = None) = false) as ->.
  { destruct strict; [|done]. by apply bool_decide_eq_false, Hknown. }
  rewrite kvs_strings. rewrite (bool_decide_false _ (strings_nonempty _ Hid)).
  pose proof (belief_of r m F4 F5) as Hbel. destruct (if bool_decide (rs_Type r = RelSameAs) || bool_decide (rs_Type r = RelResolvesTo) then _ else _) as [attrs reason].
  cbn [fst] in Hbel. subst attrs. cbn [ds_rels ds_dropped ds_err]. by rewrite app_nil_r.
Qed.

Lemma describe_all_sdk source producer when strict iv i0 rs : ∀ i j vs acc, relationship_values i0 j rs = inr vs →
  (strict = true → ∀ r, r ∈ rs → RelationDef (rs_Type r) ≠ None) →
  let acc' := describe_all source producer when strict iv i vs acc in
  ds_rels acc' = (ds_rels acc ++ (sdk_relation source producer when iv <$> rs))%list ∧ ds_dropped acc' = ds_dropped acc ∧ ds_err acc' = ds_err acc.
Proof.
  induction rs as [|r rs IH]; intros i j vs acc; cbn [relationship_values]; [intros [= <-] _; by rewrite app_nil_r|].
  destruct (incomplete r) eqn:Hi; [done|]. destruct (out_of_range _); [done|]. destruct (relationship_values i0 (S j) rs) as [|vs'] eqn:Hvs; [done|].
  intros [= <-] Hknown. cbn [describe_all].
  destruct (describe_sdk source producer when strict iv (descriptorKey i) r acc Hi) as (E1 & E2 & E3); [intros Hs; apply Hknown; [done|left]|].
  destruct (IH (S i) (S j) vs' (describe source producer when strict iv (descriptorKey i) (relationship_value r) acc) Hvs) as (E4 & E5 & E6); [intros Hs r' Hr; apply Hknown; [done|by right]|].
  cbv zeta. rewrite E4 E5 E6 E1 E2 E3 fmap_cons -app_assoc. done.
Qed.

(** ** A record *)

(** The attributes of a built record, key by key. *)
Lemma record_fields eventName when i em lr : build_record eventName when i em = inr lr →
  em_Type em ≠ ""%string ∧ em_ID em ≠ ∅ ∧ (0 < em_Interval em → second <= em_Interval em) ∧
  lr_EventName lr = eventName ∧ lr_Timestamp lr = when ∧
  let a := lr_Attributes lr in
  pget a AttrEntityType = Some (AVStr (em_Type em)) ∧
  pget a AttrEntityID = Some (AVMap (string_entries (em_ID em))) ∧
  (match pget a AttrEntityDescription with
   | Some (AVMap desc) => putRich (putSorted [] (em_Attributes em)) (em_Attributes em) (em_RichAttributes em) = Some desc
   | Some _ => False
   | None => em_Attributes em = ∅ ∧ em_RichAttributes em = ∅
   end) ∧
  pget a AttrEntityReportInterval = (if 0 <? em_Interval em then Some (AVInt (em_Interval em ÷ second)) else None) ∧
  pget a AttrEntityDeleteReason =
    (if bool_decide (eventName = EventEntityDelete) && negb (bool_decide (em_DeleteReason em = "")%string) then Some (AVStr (em_DeleteReason em)) else None) ∧
  (if bool_decide (eventName = EventEntityState) && negb (bool_decide (em_Relationships em = []))
   then ∃ vs, relationship_values i 0 (em_Relationships em) = inr vs ∧ pget a AttrEntityRelationships = Some (AVSlice vs)
   else pget a AttrEntityRelationships = None).
Proof.
  unfold build_record. case_bool_decide as Ht; [done|]. case_bool_decide as Hid; [done|].
  destruct (_ && _) eqn:Hiv; [done|]. rewrite putSorted_new. set (a0 := pput AttrEntityID _ _) in *.
  set (bare := bool_decide (em_Attributes em = ∅) && bool_decide (em_RichAttributes em = ∅)). destruct (if bare then _ else _) as [a1|] eqn:Hdesc; [|done].
  set (a2 := if 0 <? em_Interval em then _ else a1). set (why := bool_decide (eventName = EventEntityDelete) && _).
  set (a3 := if why then _ else a2). set (has := bool_decide (eventName = EventEntityState) && _). intros Hlr.
  assert (0 < em_Interval em → second <= em_Interval em) as Hsec by (apply andb_false_iff in Hiv; lia).
  assert (∀ k, k ≠ AttrEntityDescription → pget a1 k = pget a0 k) as E1.
  { intros k Hk. destruct bare; [by apply (inj Some) in Hdesc as <-|]. destruct (putRich _ _ _); [|done]. apply (inj Some) in Hdesc as <-. rewrite pget_pput; case_decide; congruence. }
  assert (match pget a1 AttrEntityDescription with Some (AVMap desc) => putRich (putSorted [] (em_Attributes em)) (em_Attributes em) (em_RichAttributes em) = Some desc
    | Some _ => False | None => em_Attributes em = ∅ ∧ em_RichAttributes em = ∅ end) as Hd1.
  { destruct bare eqn:Hemp.
    - apply (inj Some) in Hdesc as <-. unfold a0. rewrite !pget_pput. wire_keys. apply andb_true_iff in Hemp as [?%bool_decide_eq_true ?%bool_decide_eq_true]. done.
    - destruct (putRich _ _ _) as [desc|]; [|done]. apply (inj Some) in Hdesc as <-. rewrite pget_pput. by wire_keys. }
  assert (∀ k, k ≠ AttrEntityReportInterval → pget a2 k = pget a1 k) as E2 by (intros k Hk; unfold a2; destruct (0 <? _); [rewrite pget_pput; case_decide; congruence|done]).
  assert (pget a2 AttrEntityReportInterval = if 0 <? em_Interval em then Some (AVInt (em_Interval em ÷ second)) else None) as Hd2.
  { unfold a2. destruct (0 <? _); [rewrite pget_pput; by wire_keys|]. rewrite E1; [|done]. unfold a0. rewrite !pget_pput. by wire_keys. }
  assert (∀ k, k ≠ AttrEntityDeleteReason → pget a3 k = pget a2 k) as E3 by (intros k Hk; unfold a3; destruct why; [rewrite pget_pput; case_decide; congruence|done]).
  assert (pget a3 AttrEntityDeleteReason = if why then Some (AVStr (em_DeleteReason em)) else None) as Hd3.
  { unfold a3. destruct why; [rewrite pget_pput; by wire_keys|]. by rewrite E2 // E1. }
  assert (∀ k, k ≠ AttrEntityRelationships → pget (lr_Attributes lr) k = pget a3 k) as E4.
  { intros k Hk. destruct has; [|by apply (inj inr) in Hlr as <-].
    destruct (relationship_values _ _ _); [done|]. apply (inj inr) in Hlr as <-. cbn [lr_Attributes]. rewrite pget_pput; case_decide; congruence. }
  split_and!; try done; [|..]; cbv zeta.
  1,2: destruct has; [destruct (relationship_values _ _ _); [done|]|]; by apply (inj inr) in Hlr as <-.
  - by rewrite E4 // E3 // E2 // E1.
  - by rewrite E4 // E3 // E2 // E1.
  - by rewrite E4 // E3 // E2.
  - by rewrite E4 // E3.
  - by rewrite E4.
  - destruct has.
    + destruct (relationship_values i 0 (em_Relationships em)) as [|vs]; [done|]. apply (inj inr) in Hlr as <-. exists vs. split; [done|]. cbn [lr_Attributes]. rewrite pget_pput. by wire_keys.
    + apply (inj inr) in Hlr as <-. cbn [lr_Attributes]. by rewrite E3 // E2 // E1.
Qed.

(** The interval in whole seconds. *)
Definition whole_seconds (d : Duration) : Duration := if 0 <? d then d - d mod second else 0.

Lemma interval_read d : d <= max_int64 → (0 < d → second <= d) → ∀ a, pget a AttrEntityReportInterval = (if 0 <? d then Some (AVInt (d ÷ second)) else None) →
  reportEntityInterval a = whole_seconds d.
Proof.
  intros Hmax Hsec a Ha. unfold reportEntityInterval, whole_seconds. rewrite Ha. destruct (Z.ltb_spec 0 d) as [Hpos|]; [|done].
  specialize (Hsec Hpos). assert (0 < second) as H0 by done. rewrite Z.quot_div_nonneg; [|lia..].
  assert (0 < d `div` second) as Hq by (apply Z.div_str_pos; lia). apply Z.ltb_lt in Hq as ->.
  unfold dur_mul. pose proof (Z.div_mod d second ltac:(lia)). pose proof (Z.mod_pos_bound d second H0). rewrite wrap64_id; unfold max_int64, min_int64 in *; lia.
Qed.

(** The producer's entity as an observation. *)
Definition sdk_observation (em : EmitEntity) (when : Time) : EntityObservation :=
  mkEntityObservation (em_Type em) (strings (em_ID em)) (strings (em_Attributes em) ++ natives (em_RichAttributes em))
    "" when (whole_seconds (em_Interval em)) "" "".

(** C33. The receiver reads what the SDK wrote. A record built from an entity whose type is
    registered, whose attribute keys are not empty and whose relationship types are
    registered (or under the open vocabulary) is accepted, with nothing dropped: the
    observation has the entity's type, its identity as strings and its attributes with
    their own types, in key order, and its interval in whole seconds; a deletion carries
    its reason; a state carries exactly the relationships, in order, each with its
    target and the belief of an alias; none is refused. *)
Theorem sdk_roundtrip (eventName : string) (stamp : Z) (i : nat) (em : EmitEntity) (lr : LogRecord) (when : Time) (strict : bool)
    (source : EndpointRef) (producer : string)
    (Hbuild : build_record eventName stamp i em = inr lr)
    (Htype : strict = true → IsKnownEntityType (em_Type em) = true)
    (Hkeys : em_ID em !! ""%string = None ∧ em_Attributes em !! ""%string = None ∧ em_RichAttributes em !! ""%string = None)
    (Hrels : strict = true → ∀ r, r ∈ em_Relationships em → RelationDef (rs_Type r) ≠ None)
    (Hiv : em_Interval em <= max_int64) :
  entityObs (lr_Attributes lr) when strict = (inr (sdk_observation em when), []) ∧
  (eventName = EventEntityDelete → default ""%string (strAttr (lr_Attributes lr) AttrEntityDeleteReason) = em_DeleteReason em) ∧
  (eventName = EventEntityState →
    let ds := embeddedRelations (lr_Attributes lr) source producer when strict in
    ds_rels ds = sdk_relation source producer when (whole_seconds (em_Interval em)) <$> em_Relationships em ∧ ds_dropped ds = [] ∧ ds_err ds = None).
Proof.
  destruct (record_fields _ _ _ _ _ Hbuild) as (Ht & Hid & Hsec & _ & _ & F1 & F2 & F3 & F4 & F5 & F6). destruct Hkeys as (K1 & K2 & K3).
  pose proof (interval_read _ Hiv Hsec _ F4) as Hint. split_and!.
  - unfold entityObs, strAttr, mapAttr. rewrite F1 F2 kvs_strings. destruct (strings (em_ID em)) as [|kv l] eqn:Hs; [by destruct (strings_nonempty _ Hid)|]. rewrite -Hs. clear kv l Hs.
    assert (default ([], []) (match pget (lr_Attributes lr) AttrEntityDescription with Some (AVMap m) => Some (kvsFromMap m AttrEntityDescription true) | _ => None end) =
      ((strings (em_Attributes em) ++ natives (em_RichAttributes em))%list, []) ∧ wf_kvs (strings (em_Attributes em) ++ natives (em_RichAttributes em))) as [-> Hwf].
    { destruct (pget (lr_Attributes lr) AttrEntityDescription) as [[]|]; try (exfalso; exact F3).
      - apply putRich_spec in F3 as [E Hg]. split; [done|]. by apply wf_strings_natives.
      - destruct F3 as [-> ->]. split; [done|]. split; constructor. }
    assert (entity_validate strict (mkEntity "" (em_Type em) (strings (em_ID em)) (strings (em_Attributes em) ++ natives (em_RichAttributes em)) "") = None) as ->.
    { unfold entity_validate. cbn [e_Type e_Identity e_Attributes]. rewrite (bool_decide_false _ Ht) (bool_decide_false _ (strings_nonempty _ Hid)).
      assert (strict && negb (IsKnownEntityType (em_Type em)) = false) as -> by (destruct strict; [by rewrite Htype|done]).
      by rewrite (proj2 (validateKeyValues_None _) (wf_strings _ K1)) (proj2 (validateKeyValues_None _) Hwf). }
    unfold reportEntityInterval in Hint. unfold sdk_observation. rewrite F4 in Hint |- *. destruct (0 <? em_Interval em); cbn [app]; by rewrite -Hint.
  - intros ->. unfold strAttr. rewrite F5. cbn. by destruct (bool_decide_reflect (em_DeleteReason em = ""%string)) as [->|].
  - intros ->. unfold embeddedRelations. cbn [andb] in F6. rewrite bool_decide_true in F6; [|reflexivity]. cbn [andb] in F6. destruct (em_Relationships em) as [|r rs] eqn:Hr; cbn in F6.
    + rewrite F6. cbn. split_and!; reflexivity.
    + destruct F6 as (vs & Hvs & ->). rewrite Hint. destruct (describe_all_sdk source producer when strict (whole_seconds (em_Interval em)) i (r :: rs) 0 0 vs none_described Hvs Hrels) as (E1 & E2 & E3). exact (conj E1 (conj E2 E3)).
Qed.
