(* ===== verification/IngestExamples.v ===== *)
(** * Ingest on concrete requests

    An entity built by the SDK is exported to a receiver whose engines keep their log in
    memory; the properties of the receiver and of the SDK are instantiated on it, and a
    source whose relations share a key is run. *)
From S2P Require Import Prelude GoStd Values Vocabulary Entities Events DisplayNames.
From S2P Require Import Speakers Observations Aliases Projection ProjectionInv Engine EngineInv EngineSound EngineEffects EngineBounds EngineSpec EngineExamples.
From S2P Require Import Tenant Wire Convert Embedded Receiver IngestUndo IngestSpec IngestRecords Emit EmitSpec.
Open Scope Z_scope.
#[local] Existing Instance demo_host.
#[local] Existing Instance demo_host_laws.

(** ** A producer's payload *)

Definition web : EmitEntity :=
  mkEmitEntity "host" {["host.name" := "web"]}%string {["cores"%string := GUint 8]} {["os.type" := "linux"]}%string (90 * second)
    [mkRelationship RelSameAs "host" {["host.name" := "web.example"]}%string f64_one "dns"] "".
Definition web_record : LogRecord :=
  match build_record EventEntityState 7 0 web with inr lr => lr | inl _ => mkLogRecord "" 0 0 [] end.
Lemma web_builds : build_record EventEntityState 7 0 web = inr web_record.
Proof. vm_compute. reflexivity. Qed.

Lemma sdk_roundtrip_witness :
  build_record EventEntityState 7 0 web = inr web_record ∧
  entityObs (lr_Attributes web_record) 7 true = (inr (sdk_observation web 7), []).
Proof.
  split; [exact web_builds|]. pose proof web_builds as Hb. revert Hb. generalize web_record. intros lr Hb.
  refine (proj1 (sdk_roundtrip EventEntityState 7 0 web lr 7 true (host_ref "web") "agent-1" Hb _ _ _ _)).
  - intros _. vm_compute. reflexivity.
  - split_and!; vm_compute; reflexivity.
  - intros _ r ->%list_elem_of_singleton. vm_compute. discriminate.
  - vm_compute. discriminate.
Defined.

(** ** A request that fails to flush *)

Definition start_recon (faults : list bool) : Engine MemLog Recon :=
  New_engine (Projection.New) (mkMemLog [] faults) ∅ (30 * second).
Lemma start_recon_good faults : good (start_recon faults).
Proof. apply new_engine_good; [apply core_new|apply unused_new]. Qed.

Definition full_disk (id : string) (engines : gmap string (Engine MemLog Recon)) : bool + Engine MemLog Recon := inr (start_recon [true]).
Definition web_logs : ResourceLogs := mkResourceLogs [] [mkScopeLogs "snmp" [web_record]].
Definition no_server : Server MemLog := mkServer ∅ ∅.
Definition is_flush_failure {A} (r : Response + A) : option EngineError :=
  match r with inl (Unavailable (Flushing err)) => Some err | _ => None end.
Lemma flush_failure {A} (r : Response + A) err : is_flush_failure r = Some err → r = inl (Unavailable (Flushing err)).
Proof. destruct r as [[|?|[]|]|]; try done. cbn. by intros [= ->]. Qed.

Lemma full_disk_fails : is_Some (is_flush_failure (export_resource full_disk None true 5 Default true web_logs no_server no_tally).2).
Proof. vm_compute. by eexists. Qed.

Lemma failed_flush_leaves_no_trace_witness :
  ∃ e', (export_resource full_disk None true 5 Default true web_logs no_server no_tally).1 = mkServer {[Default := e']} {[Default := ∅]} ∧
    en_graph e' = Projection.New ∧ logged (en_log e') = [].
Proof.
  destruct full_disk_fails as [err Hf%flush_failure].
  destruct (export_resource full_disk None true 5 Default true web_logs no_server no_tally) as [sv' r] eqn:Hx.
  cbn [snd fst] in *. subst r.
  destruct (failed_flush_leaves_no_trace full_disk None true 5 Default true web_logs no_server sv' no_tally err) as (id & e & e' & Ht & He & Hsv & Hg & Hl & _).
  - intros id e [= <-]. split; [apply start_recon_good|reflexivity].
  - exact Hx.
  - cbn in Ht. injection Ht as <-. injection He as <-. exists e'. split_and!; [exact Hsv|exact Hg|exact Hl].
Defined.

Definition scoped_token (id : string) : bool := bool_decide (id = "acme"%string).
Definition misaddressed : ResourceLogs := mkResourceLogs [("tenant.id"%string, AVStr "globex")] [mkScopeLogs "snmp" [web_record]].

Lemma acme_written : bool_decide (is_Some (sv_reconcilers (Export full_disk (Some scoped_token) true 5 (Some ("acme"%string, true)) [misaddressed] no_server).1.1 !! "acme"%string)) = true.
Proof. vm_compute. reflexivity. Qed.

Lemma export_is_confined_witness :
  (sv_reconcilers (Export full_disk (Some scoped_token) true 5 (Some ("acme"%string, true)) [misaddressed] no_server).1.1 !! "acme"%string ≠ None) ∧
  (true = true → "acme" = "acme")%string.
Proof.
  assert (sv_reconcilers (Export full_disk (Some scoped_token) true 5 (Some ("acme"%string, true)) [misaddressed] no_server).1.1 !! "acme"%string ≠ None) as H.
  { pose proof acme_written as [x Hx]%bool_decide_eq_true. congruence. }
  split; [exact H|].
  refine (proj1 (proj2 (export_is_confined full_disk (Some scoped_token) true 5 "acme" true [misaddressed] no_server "acme" _))).
  right. exact H.
Defined.

(** ** Relations by absence *)

Definition link_to (to : EndpointRef) : RelationObservation := mkRelationObservation "runs_on" (host_ref "a") to [] 5 "agent-1" 0 0.
Definition asserted_b : Engine MemLog Recon := upd_side {["a"%string := wanted [link_to (host_ref "b")]]} (start_recon []).

Lemma removal_by_absence_witness :
  default ∅ (en_side asserted_b !! "a"%string) = wanted [link_to (host_ref "b")] ∧
  ∃ gone : list RelationObservation, ∀ k, k ∈ relationKey <$> gone ↔ k ∈ relationKey <$> [link_to (host_ref "b")] ∧ k ∉ relationKey <$> [link_to (host_ref "c")].
Proof.
  assert (default ∅ (en_side asserted_b !! "a"%string) = wanted [link_to (host_ref "b")]) as H by (vm_compute; reflexivity).
  split; [exact H|].
  destruct (removal_by_absence "a" [link_to (host_ref "b")] [link_to (host_ref "c")] 9 asserted_b H) as (gone & _ & _ & Hk & _).
  exists gone. exact Hk.
Defined.

(** ** Behaviours to know about *)

(** Two hosts told apart by the projection, whose identities print alike. *)
Definition odd_host : EndpointRef := mkEndpointRef "host" [("host.name", KindString "x,zone=s:y")]%string.
Definition zoned_host : EndpointRef := mkEndpointRef "host" [("host.name", KindString "x"); ("zone", KindString "y")]%string.
Definition see (ep : EndpointRef) : EntityObservation := mkEntityObservation (ep_Type ep) (ep_Identity ep) [] "" 5 0 "agent-1" "".
Definition three_hosts : Engine MemLog Recon :=
  run_ops [BObserveEntity (see (host_ref "a")); BObserveEntity (see odd_host); BObserveEntity (see zoned_host)] (opened (start_recon [])).
(** The source lists links to both, and then none. *)
Definition listed_both : Engine MemLog Recon := (run_batch (reconcile "a" [link_to odd_host; link_to zoned_host] 5) three_hosts).2.
Definition listed_none : Engine MemLog Recon := (run_batch (reconcile "a" [] 6) listed_both).2.

(** A source's relations are keyed by a printed target, in which a separator of the
    identity is not escaped. Two targets that the projection tells apart print alike, so
    of two relations to them that are both observed the reconciler remembers one; when
    the source stops listing both, only that one is removed, and the other stays live. *)
Theorem relation_key_collision :
  odd_host ≠ zoned_host ∧ relationKey (link_to odd_host) = relationKey (link_to zoned_host) ∧
  size (g_relations (vgraph listed_both)) = 2%nat ∧ size (default ∅ (en_side listed_both !! "a"%string)) = 1%nat ∧
  en_side listed_none !! "a"%string = None ∧ size (g_relations (vgraph listed_none)) = 1%nat.
Proof. split; [discriminate|]. vm_compute. split_and!; reflexivity. Qed.
