(* ===== verification/Auth.v ===== *)
(** * Authentication

    src/internal/auth/auth.go: bearer tokens with a role and possibly a tenant, and what a
    request presenting one may do on each surface; src/internal/oidc/oidc.go: the tenant
    and the role of a verified identity; src/internal/config/config.go: the pairs that bind
    a token to a tenant. A set of tokens is the list of their digests. The token a client
    presents is the value of the header, "" when there is none. Whether the verification of
    an identity succeeds, and with which claims, is an argument. *)
From S2P Require Import Prelude GoStd Tenant.
Open Scope Z_scope.

(** ** Tokens *)

Definition hashToken (t : string) : string := Sha.sum256 t.

Inductive surface := surfaceRead | surfaceIngest.

(** No early return: the loop goes through the whole set. *)
Definition matchAny (token : string) (set : list string) : bool :=
  foldl (λ ok want, if bool_decide (token = want) then true else ok) false set.

Definition toBytes (toks : list string) : list string :=
  omap (λ t, let t := TrimSpace t in if bool_decide (t = "")%string then None else Some (hashToken t)) toks.

(** A tenant with nothing but blanks gets no entry. *)
Definition hashScopedMap (m : gmap string (list string)) : gmap string (list string) :=
  omap (λ toks, match toBytes toks with [] => None | hs => Some hs end) m.

Definition lower (c : ascii) : ascii :=
  let n := N_of_ascii c in if (65 <=? n)%N && (n <=? 90)%N then ascii_of_N (n + 32) else c.
(** [strings.EqualFold] against ASCII text without k or s: no rune but a letter's other
    case folds to it. *)
Definition equal_fold (a b : string) : bool :=
  bool_decide (lower <$> list_of_string a = lower <$> list_of_string b).

Definition bearer (h : string) : string :=
  if (String.length h <=? 7)%nat || negb (equal_fold (str_take 7 h) "Bearer ") then "" else TrimSpace (str_drop 7 h).

(** ** The authenticator *)

(** A verified identity: its tenant and its role, or a refusal. *)
Definition OIDCVerifier := string → option (string * string).

Record Authenticator := mkAuthenticator {
  a_tokens : list string;
  a_readTokens : list string;
  a_ingestTokens : list string;
  a_scoped : gmap string (list string);
  a_scopedRead : gmap string (list string);
  a_scopedIngest : gmap string (list string);
  a_deriveOnly : bool;
  a_oidc : option OIDCVerifier;
  a_oidcDeclared : bool;
  a_ingestMTLSOnly : bool;
  a_tenantExempt : list string;
  a_unauthenticatedWrites : bool;
}.

Definition NewWithRoles (both readOnly ingestOnly : list string) (scoped : gmap string (list string)) : Authenticator :=
  mkAuthenticator (toBytes both) (toBytes readOnly) (toBytes ingestOnly) (hashScopedMap scoped) ∅ ∅ false None false false [] false.
Definition WithScopedRoleTokens (read ingest : gmap string (list string)) (a : Authenticator) : Authenticator :=
  mkAuthenticator (a_tokens a) (a_readTokens a) (a_ingestTokens a) (a_scoped a) (hashScopedMap read) (hashScopedMap ingest)
    (a_deriveOnly a) (a_oidc a) (a_oidcDeclared a) (a_ingestMTLSOnly a) (a_tenantExempt a) (a_unauthenticatedWrites a).
Definition SetTenantTrustMode (deriveOnly : bool) (a : Authenticator) : Authenticator :=
  mkAuthenticator (a_tokens a) (a_readTokens a) (a_ingestTokens a) (a_scoped a) (a_scopedRead a) (a_scopedIngest a)
    deriveOnly (a_oidc a) (a_oidcDeclared a) (a_ingestMTLSOnly a) (a_tenantExempt a) (a_unauthenticatedWrites a).
(** Setting the verifier sets the declaration, in both directions. *)
Definition SetOIDC (v : option OIDCVerifier) (a : Authenticator) : Authenticator :=
  mkAuthenticator (a_tokens a) (a_readTokens a) (a_ingestTokens a) (a_scoped a) (a_scopedRead a) (a_scopedIngest a)
    (a_deriveOnly a) v (match v with Some _ => true | None => false end) (a_ingestMTLSOnly a) (a_tenantExempt a) (a_unauthenticatedWrites a).
Definition SetOIDCDeclared (v : bool) (a : Authenticator) : Authenticator :=
  mkAuthenticator (a_tokens a) (a_readTokens a) (a_ingestTokens a) (a_scoped a) (a_scopedRead a) (a_scopedIngest a)
    (a_deriveOnly a) (a_oidc a) v (a_ingestMTLSOnly a) (a_tenantExempt a) (a_unauthenticatedWrites a).
Definition SetIngestMTLSOnly (v : bool) (a : Authenticator) : Authenticator :=
  mkAuthenticator (a_tokens a) (a_readTokens a) (a_ingestTokens a) (a_scoped a) (a_scopedRead a) (a_scopedIngest a)
    (a_deriveOnly a) (a_oidc a) (a_oidcDeclared a) v (a_tenantExempt a) (a_unauthenticatedWrites a).
Definition SetTenantExemptPaths (paths : list string) (a : Authenticator) : Authenticator :=
  mkAuthenticator (a_tokens a) (a_readTokens a) (a_ingestTokens a) (a_scoped a) (a_scopedRead a) (a_scopedIngest a)
    (a_deriveOnly a) (a_oidc a) (a_oidcDeclared a) (a_ingestMTLSOnly a) paths (a_unauthenticatedWrites a).
Definition SetUnauthenticatedWrites (v : bool) (a : Authenticator) : Authenticator :=
  mkAuthenticator (a_tokens a) (a_readTokens a) (a_ingestTokens a) (a_scoped a) (a_scopedRead a) (a_scopedIngest a)
    (a_deriveOnly a) (a_oidc a) (a_oidcDeclared a) (a_ingestMTLSOnly a) (a_tenantExempt a) v.

Definition nonempty {A} (l : list A) : bool := match l with [] => false | _ => true end.
Definition Enabled (a : Authenticator) : bool :=
  nonempty (a_tokens a) || nonempty (a_readTokens a) || nonempty (a_ingestTokens a) ||
  negb (bool_decide (a_scoped a = ∅)) || negb (bool_decide (a_scopedRead a = ∅)) || negb (bool_decide (a_scopedIngest a = ∅)) ||
  match a_oidc a with Some _ => true | None => false end || a_oidcDeclared a.

Definition UnauthenticatedWritesAllowed (a : Authenticator) : bool := a_unauthenticatedWrites a && negb (Enabled a).

(** ** What a token is good for *)

Definition roleSet (s : surface) (a : Authenticator) : list string :=
  match s with surfaceIngest => a_ingestTokens a | surfaceRead => a_readTokens a end.
Definition scopedRoleSet (s : surface) (a : Authenticator) : gmap string (list string) :=
  match s with surfaceIngest => a_scopedIngest a | surfaceRead => a_scopedRead a end.
Definition at_tenant (m : gmap string (list string)) (id : string) : list string := default [] (m !! id).

(** Some tenant's set has the token. *)
Definition any_tenant (got : string) (m : gmap string (list string)) : bool :=
  existsb (λ kv, matchAny got kv.2) (map_to_list m).

Definition valid (token : string) (s : surface) (a : Authenticator) : bool :=
  let got := hashToken token in
  matchAny got (a_tokens a) || matchAny got (roleSet s a) ||
  (any_tenant got (a_scoped a) || any_tenant got (scopedRoleSet s a)).

Definition allowedForTenant (token tenantID : string) (s : surface) (a : Authenticator) : bool :=
  let got := hashToken token in
  matchAny got (a_tokens a) || matchAny got (roleSet s a) ||
  (matchAny got (at_tenant (a_scoped a) tenantID) || matchAny got (at_tenant (scopedRoleSet s a) tenantID)).

Definition validHeader (h : string) (s : surface) (a : Authenticator) : bool :=
  let t := bearer h in negb (bool_decide (t = "")%string) && valid t s a.
Definition headerAllowedForTenant (h tenantID : string) (s : surface) (a : Authenticator) : bool :=
  let t := bearer h in negb (bool_decide (t = "")%string) && allowedForTenant t tenantID s a.

Definition canWriteHeader (h : string) (a : Authenticator) : bool :=
  let t := bearer h in
  negb (bool_decide (t = "")%string) && (matchAny (hashToken t) (a_tokens a) || any_tenant (hashToken t) (a_scoped a)).

(** The tenants a token is bound to in a set. *)
Definition bound_in (got : string) (m : gmap string (list string)) : gset string :=
  list_to_set (base.filter (λ kv, matchAny got kv.2 = true) (map_to_list m)).*1.

Definition TenantForBearer (h : string) (a : Authenticator) : option string :=
  let t := bearer h in
  if bool_decide (t = "")%string then None else
  let got := hashToken t in
  if matchAny got (a_tokens a) || matchAny got (a_readTokens a) || matchAny got (a_ingestTokens a) then None else
  match elements (bound_in got (a_scoped a) ∪ bound_in got (a_scopedRead a) ∪ bound_in got (a_scopedIngest a)) with
  | [id] => Some id
  | _ => None
  end.

(** ** gRPC ingest *)

(** The values of the authorization and of the x-scope-orgid metadata. *)
Record Metadata := mkMetadata { md_authorization : list string; md_orgID : list string }.

Definition TenantForBearerGRPC (md : Metadata) (a : Authenticator) : option string :=
  match md_authorization md with [] => None | v :: _ => TenantForBearer v a end.

(** The tenant and whether it is locked; [None] is an invalid header. *)
Definition EffectiveTenantGRPC (md : Metadata) (a : Authenticator) : option (string * bool) :=
  match (if a_deriveOnly a && Enabled a then TenantForBearerGRPC md a else None) with
  | Some t => Some (t, true)
  | None => (λ id, (id, false)) <$> FromGRPC (md_orgID md)
  end.

Definition AllowedForTenantGRPC (md : Metadata) (tenantID : string) (a : Authenticator) : bool :=
  if a_ingestMTLSOnly a then true else
  if negb (Enabled a) then true else
  match md_authorization md with [] => false | v :: _ => headerAllowedForTenant v tenantID surfaceIngest a end.

(** Whether the interceptors let a call through. *)
Definition checkContext (md : Metadata) (a : Authenticator) : bool :=
  if a_ingestMTLSOnly a then true else
  if negb (Enabled a) then true else
  match md_authorization md with [] => false | v :: _ => validHeader v surfaceIngest a end.

(** ** HTTP *)

Record Request := mkRequest { rq_Path : string; rq_Authorization : string; rq_OrgID : string; rq_TenantQuery : string }.
(** The values this package puts in a context. *)
Record Ctx := mkCtx { cx_writable : option bool; cx_resolvedTenant : option string }.
Definition no_ctx : Ctx := mkCtx None None.

Definition WithWritable (w : bool) (cx : Ctx) : Ctx := mkCtx (Some w) (cx_resolvedTenant cx).
Definition CanWrite (cx : Ctx) : bool := default false (cx_writable cx).

Definition EffectiveTenantHTTP (r : Request) (cx : Ctx) (a : Authenticator) : option string :=
  match cx_resolvedTenant cx with
  | Some (String _ _ as id) => Some id
  | _ =>
    match (if a_deriveOnly a && Enabled a then TenantForBearer (rq_Authorization r) a else None) with
    | Some id => Some id
    | None => FromHTTP (rq_OrgID r)
    end
  end.

(** The tenant whose series may be read, and whether all may. *)
Definition MetricsScope (r : Request) (cx : Ctx) (a : Authenticator) : string * bool :=
  if negb (Enabled a) then (""%string, true) else
  match cx_resolvedTenant cx with
  | Some (String _ _ as id) => (id, false)
  | _ =>
    let h := rq_Authorization r in
    let t := bearer h in
    if bool_decide (t = "")%string then (""%string, false) else
    if matchAny (hashToken t) (a_tokens a) || matchAny (hashToken t) (a_readTokens a) then (""%string, true) else
    match TenantForBearer h a with Some id => (id, false) | None => (""%string, false) end
  end.

(** What becomes of a request: it goes on, with a context, or is answered. *)
Inductive Verdict := Next (cx : Ctx) | Forbidden | Unauthorized.

Definition HTTPMiddleware (public : list string) (r : Request) (cx : Ctx) (a : Authenticator) : Verdict :=
  if negb (Enabled a) then Next (WithWritable (UnauthenticatedWritesAllowed a) cx) else
  if bool_decide (rq_Path r ∈ public) then Next cx else
  let h := rq_Authorization r in
  if validHeader h surfaceRead a then
    match EffectiveTenantHTTP r cx a with
    | Some id =>
      if negb (bool_decide (rq_Path r ∈ a_tenantExempt a)) && negb (allowedForTenant (bearer h) id surfaceRead a) then Forbidden
      else Next (WithWritable (canWriteHeader h a) cx)
    | None => Next (WithWritable (canWriteHeader h a) cx)
    end
  else
    match (match a_oidc a with Some verify => verify (bearer h) | None => None end) with
    | Some (tID, role) =>
      if bool_decide (role = "ingest")%string then Forbidden
      else Next (WithWritable (bool_decide (role = "full")%string) (mkCtx (cx_writable cx) (Some tID)))
    | None => Unauthorized
    end.

(** ** OIDC *)

(** The claims of a token that verifies: the strings; any other value is not one. *)
Record OIDCConfig := mkOIDCConfig { oc_TenantClaim : string; oc_RoleClaim : string }.
Definition tenantClaim (c : OIDCConfig) : string :=
  if bool_decide (oc_TenantClaim c = "")%string then "tenant"%string else oc_TenantClaim c.

Definition Verify (c : OIDCConfig) (idVerify : string → option (gmap string string)) (rawToken : string) : option (string * string) :=
  match idVerify rawToken with
  | None => None
  | Some claims =>
    let rawTenant := default ""%string (claims !! tenantClaim c) in
    if bool_decide (rawTenant = "")%string then None else
    match Sanitize rawTenant with
    | None => None
    | Some san =>
      if bool_decide (san = "")%string then None else
      if bool_decide (oc_RoleClaim c = "")%string then Some (san, "full"%string) else
      let rs := default ""%string (claims !! oc_RoleClaim c) in
      if bool_decide (rs ∈ ["full"; "read"; "ingest"]%string) then Some (san, rs) else None
    end
  end.

(** ** Configuration *)

Fixpoint cut_colon (s : string) : option (string * string) :=
  match s with
  | EmptyString => None
  | String c s' => if Ascii.eqb c ":" then Some (""%string, s') else (λ p, (String c p.1, p.2)) <$> cut_colon s'
  end.

(** The tokens of each tenant, in the order of the pairs; a malformed pair is an error. *)
Fixpoint parse_pairs (pairs : list string) (out : gmap string (list string)) : option (gmap string (list string)) :=
  match pairs with
  | [] => Some out
  | p :: pairs =>
    match cut_colon p with
    | None => None
    | Some (id, token) =>
      if bool_decide (Sanitize id = Some id) && negb (bool_decide (TrimSpace token = "")%string)
      then parse_pairs pairs (<[id := (default [] (out !! id) ++ [token])%list]> out)
      else None
    end
  end.
Definition parseTenantTokens (pairs : list string) : option (gmap string (list string)) := parse_pairs pairs ∅.
