(* ===== verification/Serving.v ===== *)
(** * The surfaces behind authentication

    How src/cmd/toise-server/main.go puts the parts together: the authenticator the
    configuration gives, the OTLP service behind its interceptor, and the HTTP routes
    behind its middleware: the per-tenant surfaces, each with the router of
    src/cmd/toise-server/tenant_router.go, and the scrape with the filter of
    src/internal/metrics/scope.go. Handlers are the stacks they are bound to; what they
    answer is not modelled. CORS, TLS and the playground page are left out. *)
From S2P Require Import Prelude GoStd Values Entities Events Observations Projection Engine Keys Store Tenant Registry Wire Convert Embedded Receiver Auth.
Open Scope Z_scope.

(** ** Configuration *)

Record Config := mkConfig {
  cf_AuthTokens : list string;
  cf_ReadTokens : list string;
  cf_IngestTokens : list string;
  cf_TenantTokens : list string;
  cf_TenantReadTokens : list string;
  cf_TenantIngestTokens : list string;
  cf_DeriveOnly : bool;
  cf_IngestMTLSOnly : bool;
  cf_AllowUnauthenticatedWrites : bool;
  cf_OIDC : option OIDCConfig;       (* when an issuer is set *)
  cf_DebugUI : bool;
  cf_MetricsPublic : bool;
}.

(** The authenticator the server builds; [None] is a malformed pair. [idVerify] is the
    verifier the discovery of the issuer gave. *)
Definition authenticator (idVerify : string → option (gmap string string)) (cfg : Config) : option Authenticator :=
  scoped ← parseTenantTokens (cf_TenantTokens cfg);
  scopedRead ← parseTenantTokens (cf_TenantReadTokens cfg);
  scopedIngest ← parseTenantTokens (cf_TenantIngestTokens cfg);
  let a := WithScopedRoleTokens scopedRead scopedIngest
    (NewWithRoles (cf_AuthTokens cfg) (cf_ReadTokens cfg) (cf_IngestTokens cfg) scoped) in
  let a := SetTenantTrustMode (cf_DeriveOnly cfg) a in
  let a := SetIngestMTLSOnly (cf_IngestMTLSOnly cfg) a in
  let a := SetUnauthenticatedWrites (cf_AllowUnauthenticatedWrites cfg) a in
  let a := SetOIDCDeclared (match cf_OIDC cfg with Some _ => true | None => false end) a in
  let a := match cf_OIDC cfg with Some oc => SetOIDC (Some (Verify oc idVerify)) a | None => a end in
  Some (SetTenantExemptPaths ["/metrics"%string] a).

(** ** OTLP *)

Section ingest.
Context {W : Type} `{!Host} `{!Appender W}.
Variable engineFor : string → gmap string (Engine W Recon) → bool + Engine W Recon.
Variable acceptUnknown : bool.

(** The tenant of an export, as the receiver resolves it. *)
Definition resolveTenant (cfg : Config) (a : Authenticator) (md : Metadata) : option (string * bool) :=
  if cf_DeriveOnly cfg then EffectiveTenantGRPC md a else (λ id, (id, false)) <$> FromGRPC (md_orgID md).

(** A call of the service: [None] is one the interceptor refused. *)
Definition serve_export (cfg : Config) (a : Authenticator) (md : Metadata) (now : Time) (rls : list ResourceLogs) (sv : Server W)
    : Server W * option (Response * gmap string tenantCounts) :=
  if negb (checkContext md a) then (sv, None) else
  let '(sv', resp, counts) := Export engineFor (Some (λ id, AllowedForTenantGRPC md id a)) acceptUnknown now (resolveTenant cfg a md) rls sv in
  (sv', Some (resp, counts)).
End ingest.

(** ** The tenant router *)

Section router.
Context {D : Type}.
#[local] Abbreviation Stack := (Stack D).
#[local] Abbreviation Handlers := (gmap string Stack).
#[local] Abbreviation Registry := (Registry D).

Inductive Answer := BadTenant | InternalError | UnknownTenant | Handled (id : string) (st : Stack) (cx : Ctx).

(** The handler of a tenant: the cached one, or one built for its open stack. *)
Definition handlerFor (build : Stack → bool) (id : string) (reg : Registry) (hs : Handlers) : Handlers * (bool + option Stack) :=
  match hs !! id with
  | Some h => (hs, inr (Some h))
  | None =>
    match Peek id reg with
    | None => (hs, inr None)
    | Some st => if build st then (<[id := st]> hs, inr (Some st)) else (hs, inl true)
    end
  end.

Definition route (resolve : Request → Ctx → option string) (build : Stack → bool) (r : Request) (cx : Ctx) (reg : Registry) (hs : Handlers)
    : Handlers * Answer :=
  match resolve r cx with
  | None => (hs, BadTenant)
  | Some id =>
    match handlerFor build id reg hs with
    | (hs, inl _) => (hs, InternalError)
    | (hs, inr None) => (hs, UnknownTenant)
    | (hs, inr (Some st)) => (hs, Handled id st cx)
    end
  end.

(** How the graphql and mcp routers read the tenant, and how the debug UI's does. *)
Definition claimed (cfg : Config) : bool := cf_DeriveOnly cfg || match cf_OIDC cfg with Some _ => true | None => false end.
Definition surface_resolve (cfg : Config) (a : Authenticator) (r : Request) (cx : Ctx) : option string :=
  if claimed cfg then EffectiveTenantHTTP r cx a else FromHTTP (rq_OrgID r).
Definition debug_resolve (cfg : Config) (a : Authenticator) (r : Request) (cx : Ctx) : option string :=
  if claimed cfg then EffectiveTenantHTTP r cx a else FromHTTPWithQuery (rq_TenantQuery r) (rq_OrgID r).

(** ** The routes *)

Record Caches := mkCaches { ch_graphql : Handlers; ch_mcp : Handlers; ch_debug : Handlers }.
Inductive Page := Refused (v : Verdict) | Probe | Data (ans : Answer) | Debug (ans : Answer) | Scrape (scope : string * bool) | NoRoute.

Definition public_paths (cfg : Config) : list string :=
  app ["/healthz"%string; "/readyz"%string] (if cf_MetricsPublic cfg then ["/metrics"%string] else []).

Definition serve_http (cfg : Config) (a : Authenticator) (debugBuild : Stack → bool) (r : Request) (reg : Registry) (ch : Caches) : Caches * Page :=
  match HTTPMiddleware (public_paths cfg) r no_ctx a with
  | Next cx =>
    if bool_decide (rq_Path r = "/graphql")%string then
      let '(hs, ans) := route (surface_resolve cfg a) (λ _, true) r cx reg (ch_graphql ch) in (mkCaches hs (ch_mcp ch) (ch_debug ch), Data ans)
    else if bool_decide (rq_Path r = "/mcp")%string then
      let '(hs, ans) := route (surface_resolve cfg a) (λ _, true) r cx reg (ch_mcp ch) in (mkCaches (ch_graphql ch) hs (ch_debug ch), Data ans)
    else if bool_decide (rq_Path r ∈ ["/healthz"; "/readyz"]%string) then (ch, Probe)
    else if bool_decide (rq_Path r = "/metrics")%string then (ch, Scrape (MetricsScope r cx a))
    else if cf_DebugUI cfg then
      let '(hs, ans) := route (debug_resolve cfg a) debugBuild r cx reg (ch_debug ch) in (mkCaches (ch_graphql ch) (ch_mcp ch) hs, Debug ans)
    else (ch, NoRoute)
  | v => (ch, Refused v)
  end.
End router.
Arguments Answer D : clear implicits.
Arguments Page D : clear implicits.
Arguments Caches D : clear implicits.

(** ** The scrape *)

(** A family of metrics: its name and, for each metric, its labels and its value. *)
Record MetricFamily := mkMetricFamily { mf_Name : string; mf_Metric : list (list (string * string) * float64) }.

Definition labelValue (m : list (string * string) * float64) (name : string) : string :=
  default ""%string (snd <$> head (base.filter (λ l, l.1 = name) m.1)).
Definition tenantLabel : string := "tenant".
Definition scopeInfo (tenantID : string) : MetricFamily :=
  mkMetricFamily "toise_metrics_scope_info" [([(tenantLabel, tenantID)], f64_one)].

Definition keep_family (tenantID : string) (mf : MetricFamily) : option MetricFamily :=
  match base.filter (λ m, labelValue m tenantLabel = tenantID) (mf_Metric mf) with
  | [] => None
  | kept => Some (mkMetricFamily (mf_Name mf) kept)
  end.
Definition serveScoped (mfs : list MetricFamily) (tenantID : string) : list MetricFamily :=
  sort_by mf_Name (omap (keep_family tenantID) mfs ++ [scopeInfo tenantID])%list.

(** [ScopedHandler]: the whole exposition, or the part of one tenant. *)
Definition scrape (mfs : list MetricFamily) (scope : string * bool) : list MetricFamily :=
  if scope.2 then mfs else serveScoped mfs scope.1.
