(* ===== verification/AuthSpec.v ===== *)
(** * What authentication promises

    What a configured token grants, in terms of the configuration; and that ingest writes,
    the query surfaces read and the scrape shows only what the presented credential
    grants. Tokens are compared by digest: a statement about a token holds for any other
    with the same SHA-256. *)
From S2P Require Import Prelude GoStd Values Entities Events Observations Projection Engine EngineInv Keys Store Tenant Registry Wire Convert Embedded Receiver IngestSpec Auth Serving.
Open Scope Z_scope.

(** ** What the configuration grants *)

(** A token of a list, or of a tenant's pairs, past the blanks around it. *)
Definition listed (t : string) (toks : list string) : Prop := t ≠ ""%string ∧ ∃ raw, raw ∈ toks ∧ TrimSpace raw = t.
Definition paired (id t : string) (pairs : list string) : Prop :=
  t ≠ ""%string ∧ ∃ p raw, p ∈ pairs ∧ cut_colon p = Some (id, raw) ∧ TrimSpace raw = t.

Definition role_tokens (s : surface) (cfg : Config) : list string :=
  match s with surfaceRead => cf_ReadTokens cfg | surfaceIngest => cf_IngestTokens cfg end.
Definition role_pairs (s : surface) (cfg : Config) : list string :=
  match s with surfaceRead => cf_TenantReadTokens cfg | surfaceIngest => cf_TenantIngestTokens cfg end.

(** A token opens a tenant on a surface. *)
Definition grants (cfg : Config) (t id : string) (s : surface) : Prop :=
  ∃ t', hashToken t' = hashToken t ∧
    (listed t' (cf_AuthTokens cfg) ∨ listed t' (role_tokens s cfg) ∨ paired id t' (cf_TenantTokens cfg) ∨ paired id t' (role_pairs s cfg)).
(** It is an operator's, of any role. *)
Definition operator_token (cfg : Config) (t : string) : Prop :=
  ∃ t', hashToken t' = hashToken t ∧ (listed t' (cf_AuthTokens cfg) ∨ listed t' (cf_ReadTokens cfg) ∨ listed t' (cf_IngestTokens cfg)).
(** It is bound to a tenant, in any role. *)
Definition binds (cfg : Config) (t id : string) : Prop :=
  ∃ t', hashToken t' = hashToken t ∧
    (paired id t' (cf_TenantTokens cfg) ∨ paired id t' (cf_TenantReadTokens cfg) ∨ paired id t' (cf_TenantIngestTokens cfg)).
(** It may write: an operator's or a tenant's, of the full role. *)
Definition full_token (cfg : Config) (t : string) : Prop :=
  ∃ t', hashToken t' = hashToken t ∧ (listed t' (cf_AuthTokens cfg) ∨ ∃ id, paired id t' (cf_TenantTokens cfg)).
(** Nothing authenticates. *)
Definition no_credentials (cfg : Config) : Prop :=
  cf_OIDC cfg = None ∧ ∀ t, ¬ operator_token cfg t ∧ ∀ id, ¬ binds cfg t id.

(** ** Sets of digests *)

Lemma matchAny_spec got l : matchAny got l = true ↔ got ∈ l.
Proof.
  unfold matchAny. assert (∀ b, foldl (λ ok want, if bool_decide (got = want) then true else ok) b l = true ↔ b = true ∨ got ∈ l) as H.
  { induction l as [|x l IH]; intros b; cbn [foldl]; [split; [by left|intros [?|?%elem_of_nil]; done]|].
    rewrite IH elem_of_cons. case_bool_decide; naive_solver. }
  rewrite H. split; [by intros [|]|by right].
Qed.

Lemma toBytes_elem h toks : h ∈ toBytes toks ↔ ∃ t, listed t toks ∧ h = hashToken t.
Proof.
  unfold toBytes. rewrite list_elem_of_omap. split.
  - intros (raw & Hin & E). case_bool_decide; [done|]. apply (inj Some) in E as <-. exists (TrimSpace raw). split; [|done]. split; [done|]. by exists raw.
  - intros (t & [Hne (raw & Hin & <-)] & ->). exists raw. split; [done|]. cbn zeta. by rewrite bool_decide_false.
Qed.

Lemma hashScoped_at m id : at_tenant (hashScopedMap m) id = toBytes (at_tenant m id).
Proof.
  unfold at_tenant, hashScopedMap. rewrite lookup_omap. destruct (m !! id) as [toks|]; [|done]. cbn [mbind option_bind from_option]. unfold Datatypes.id. by destruct (toBytes toks).
Qed.

(** The tokens of a tenant's pairs, in order. *)
Definition tokens_of (id : string) (pairs : list string) : list string :=
  omap (λ p, match cut_colon p with Some (i, tok) => if decide (i = id) then Some tok else None | None => None end) pairs.

Lemma parse_pairs_at pairs : ∀ out m id, parse_pairs pairs out = Some m → at_tenant m id = (at_tenant out id ++ tokens_of id pairs)%list.
Proof.
  induction pairs as [|p pairs IH]; intros out m id; cbn [parse_pairs]; [intros [= <-]; by rewrite app_nil_r|].
  unfold tokens_of. cbn [omap list_omap]. destruct (cut_colon p) as [[i tok]|] eqn:Hc; [|done]. destruct (_ && _); [|done].
  intros Hm. rewrite (IH _ _ id Hm). unfold at_tenant at 1. destruct (decide (i = id)) as [->|Hne].
  - rewrite lookup_insert_eq. cbn. rewrite -app_assoc. done.
  - by rewrite lookup_insert_ne.
Qed.
Lemma parse_at pairs m id : parseTenantTokens pairs = Some m → at_tenant m id = tokens_of id pairs.
Proof. intros Hm. by rewrite (parse_pairs_at _ _ _ _ Hm). Qed.

Lemma paired_listed id t pairs : listed t (tokens_of id pairs) ↔ paired id t pairs.
Proof.
  unfold listed, paired, tokens_of. apply and_iff_compat_l. split.
  - intros (raw & (p & Hp & E)%list_elem_of_omap & Ht). destruct (cut_colon p) as [[i tok]|] eqn:Hc; [|done]. case_decide; [|done].
    apply (inj Some) in E as <-. subst i. by exists p, tok.
  - intros (p & raw & Hp & Hc & Ht). exists raw. split; [|done]. apply list_elem_of_omap. exists p. split; [done|]. rewrite Hc. by rewrite decide_True.
Qed.

Lemma any_tenant_spec got m : any_tenant got m = true ↔ ∃ id, got ∈ at_tenant m id.
Proof.
  unfold any_tenant. rewrite existsb_exists. split.
  - intros ([id toks] & Hin%list_elem_of_In%elem_of_map_to_list & Hm%matchAny_spec). exists id. unfold at_tenant. by rewrite Hin.
  - intros [id Hid]. unfold at_tenant in Hid. destruct (m !! id) as [toks|] eqn:Hm; [|by apply elem_of_nil in Hid].
    exists (id, toks). split; [by apply list_elem_of_In, elem_of_map_to_list|by apply matchAny_spec].
Qed.
Lemma bound_in_spec got m id : id ∈ bound_in got m ↔ got ∈ at_tenant m id.
Proof.
  unfold bound_in, at_tenant. rewrite elem_of_list_to_set list_elem_of_fmap. split.
  - intros ([id' toks] & -> & [Hm Hin%elem_of_map_to_list]%list_elem_of_filter). cbn in *. rewrite Hin. by apply matchAny_spec.
  - destruct (m !! id) as [toks|] eqn:Hm; [|by intros ?%elem_of_nil]. intros Hin. exists (id, toks). split; [done|].
    apply list_elem_of_filter. split; [by apply matchAny_spec|by apply elem_of_map_to_list].
Qed.

(** ** The authenticator of a configuration *)

Section configured.
Context (idVerify : string → option (gmap string string)) (cfg : Config) (a : Authenticator).
Hypothesis Hauth : authenticator idVerify cfg = Some a.

Record built : Prop := {
  bu_tokens : a_tokens a = toBytes (cf_AuthTokens cfg);
  bu_read : a_readTokens a = toBytes (cf_ReadTokens cfg);
  bu_ingest : a_ingestTokens a = toBytes (cf_IngestTokens cfg);
  bu_scoped id : at_tenant (a_scoped a) id = toBytes (tokens_of id (cf_TenantTokens cfg));
  bu_scopedRead id : at_tenant (a_scopedRead a) id = toBytes (tokens_of id (cf_TenantReadTokens cfg));
  bu_scopedIngest id : at_tenant (a_scopedIngest a) id = toBytes (tokens_of id (cf_TenantIngestTokens cfg));
  bu_derive : a_deriveOnly a = cf_DeriveOnly cfg;
  bu_mtls : a_ingestMTLSOnly a = cf_IngestMTLSOnly cfg;
  bu_writes : a_unauthenticatedWrites a = cf_AllowUnauthenticatedWrites cfg;
  bu_oidc : a_oidc a = (λ oc, Verify oc idVerify) <$> cf_OIDC cfg;
  bu_declared : a_oidcDeclared a = match cf_OIDC cfg with Some _ => true | None => false end;
  bu_exempt : a_tenantExempt a = ["/metrics"%string];
  bu_entries : (∀ id, a_scoped a !! id ≠ Some []) ∧ (∀ id, a_scopedRead a !! id ≠ Some []) ∧ (∀ id, a_scopedIngest a !! id ≠ Some []);
}.

Lemma hashScoped_entries m id : hashScopedMap m !! id ≠ Some [].
Proof. unfold hashScopedMap. rewrite lookup_omap. destruct (m !! id) as [toks|]; [|done]. cbn [mbind option_bind from_option]. unfold Datatypes.id. by destruct (toBytes toks). Qed.

Lemma authenticator_built : built.
Proof.
  unfold authenticator in Hauth. destruct (parseTenantTokens (cf_TenantTokens cfg)) as [m1|] eqn:H1; [|done].
  destruct (parseTenantTokens (cf_TenantReadTokens cfg)) as [m2|] eqn:H2; [|done]. destruct (parseTenantTokens (cf_TenantIngestTokens cfg)) as [m3|] eqn:H3; [|done].
  cbn [mbind option_bind] in Hauth. apply (inj Some) in Hauth as Ha.
  destruct (cf_OIDC cfg) as [oc|] eqn:Ho; split; rewrite -Ha ?Ho; cbn -[at_tenant hashScopedMap toBytes tokens_of]; try done; intros;
    try (split_and!; intros; apply hashScoped_entries); by rewrite hashScoped_at; erewrite parse_at.
Qed.

Lemma in_list (l : list string) toks t : l = toBytes toks → hashToken t ∈ l ↔ ∃ t', hashToken t' = hashToken t ∧ listed t' toks.
Proof. intros ->. rewrite toBytes_elem. naive_solver. Qed.
Lemma in_pairs (l : list string) id pairs t : l = toBytes (tokens_of id pairs) → hashToken t ∈ l ↔ ∃ t', hashToken t' = hashToken t ∧ paired id t' pairs.
Proof. intros ->. rewrite toBytes_elem. setoid_rewrite paired_listed. naive_solver. Qed.

Lemma allowed_grants t id s : allowedForTenant t id s a = true ↔ grants cfg t id s.
Proof.
  destruct authenticator_built. unfold allowedForTenant, grants. rewrite !orb_true_iff !matchAny_spec.
  rewrite (in_list _ _ t bu_tokens0) (in_pairs _ id _ t (bu_scoped0 id)).
  destruct s; cbn [roleSet scopedRoleSet role_tokens role_pairs]; [rewrite (in_list _ _ t bu_read0) (in_pairs _ id _ t (bu_scopedRead0 id))
    |rewrite (in_list _ _ t bu_ingest0) (in_pairs _ id _ t (bu_scopedIngest0 id))]; naive_solver.
Qed.
Lemma global_operator t : matchAny (hashToken t) (a_tokens a) || matchAny (hashToken t) (a_readTokens a) || matchAny (hashToken t) (a_ingestTokens a) = true ↔ operator_token cfg t.
Proof.
  destruct authenticator_built. unfold operator_token. rewrite !orb_true_iff !matchAny_spec.
  rewrite (in_list _ _ t bu_tokens0) (in_list _ _ t bu_read0) (in_list _ _ t bu_ingest0). naive_solver.
Qed.
Lemma bound_binds t id : id ∈ bound_in (hashToken t) (a_scoped a) ∪ bound_in (hashToken t) (a_scopedRead a) ∪ bound_in (hashToken t) (a_scopedIngest a) ↔ binds cfg t id.
Proof.
  destruct authenticator_built. unfold binds. rewrite !elem_of_union !bound_in_spec.
  rewrite (in_pairs _ id _ t (bu_scoped0 id)) (in_pairs _ id _ t (bu_scopedRead0 id)) (in_pairs _ id _ t (bu_scopedIngest0 id)). naive_solver.
Qed.

(** The derived tenant is that of a token that is bound to one tenant and is no operator's. *)
Lemma derived_spec h id : TenantForBearer h a = Some id ↔
  bearer h ≠ ""%string ∧ ¬ operator_token cfg (bearer h) ∧ binds cfg (bearer h) id ∧ ∀ id', binds cfg (bearer h) id' → id' = id.
Proof.
  unfold TenantForBearer. cbv zeta. case_bool_decide as Hb; [naive_solver|].
  destruct (_ || _ || _) eqn:Hg.
  - apply global_operator in Hg. naive_solver.
  - assert (¬ operator_token cfg (bearer h)) as Hng by (intros Hx%global_operator; congruence).
    set (X := bound_in _ _ ∪ _ ∪ _). assert (∀ i, i ∈ X ↔ binds cfg (bearer h) i) as HX by (intros i; apply bound_binds).
    transitivity (X = {[id]}).
    + split.
      * destruct (elements X) as [|i [|]] eqn:E; [done| |done]. intros [= ->]. apply set_eq. intros i. rewrite -elem_of_elements E. set_solver.
      * intros ->. by rewrite elements_singleton.
    + split; [intros E; split_and!; try done; [apply HX; set_solver|intros id' Hi%HX; set_solver]|].
      intros (_ & _ & H1 & H2). apply set_eq. intros i. rewrite HX elem_of_singleton. naive_solver.
Qed.

Lemma valid_grants t s : valid t s a = true ↔ ∃ id, grants cfg t id s.
Proof.
  split.
  - intros Hv. assert (∃ id, allowedForTenant t id s a = true) as [id ?%allowed_grants]; [|by exists id].
    unfold valid in Hv. unfold allowedForTenant. apply orb_true_iff in Hv as [Hv|Hv]; [exists ""%string; by rewrite Hv|].
    apply orb_true_iff in Hv as [[id Hi%matchAny_spec]%any_tenant_spec|[id Hi%matchAny_spec]%any_tenant_spec]; exists id; by rewrite Hi ?orb_true_r.
  - intros [id Hg%allowed_grants]. unfold allowedForTenant in Hg. unfold valid. apply orb_true_iff in Hg as [->|Hg]; [done|].
    apply orb_true_iff in Hg as [Hg|Hg]; apply orb_true_iff; right; apply orb_true_iff; [left|right]; apply any_tenant_spec; exists id; by apply matchAny_spec.
Qed.

Lemma enabled_spec : Enabled a = false ↔ no_credentials cfg.
Proof.
  destruct authenticator_built as [B1 B2 B3 B4 B5 B6 _ _ _ B7 B8 _ (E1 & E2 & E3)].
  assert (∀ (l : list string), nonempty l = false ↔ l = []) as Hne by (by intros []).
  assert (∀ m : gmap string (list string), (∀ id, m !! id ≠ Some []) → negb (bool_decide (m = ∅)) = false ↔ ∀ id h, h ∉ at_tenant m id) as Hm.
  { intros m Hent. rewrite negb_false_iff bool_decide_eq_true. split; [intros -> id h; unfold at_tenant; rewrite lookup_empty; apply not_elem_of_nil|].
    intros Hn. apply map_empty. intros id. destruct (m !! id) as [[|h toks]|] eqn:Hl; [by destruct (Hent id)| |done].
    destruct (Hn id h). unfold at_tenant. rewrite Hl. by left. }
  unfold Enabled, no_credentials. rewrite !orb_false_iff !Hne (Hm _ E1) (Hm _ E2) (Hm _ E3) B7 B8.
  assert (∀ l : list string, l = [] ↔ ∀ h, h ∉ l) as Hnil.
  { intros l. split; [intros ->; apply not_elem_of_nil|]. destruct l as [|h l]; [done|]. intros Hn. destruct (Hn h). by left. }
  rewrite !Hnil B1 B2 B3. setoid_rewrite B4. setoid_rewrite B5. setoid_rewrite B6. setoid_rewrite toBytes_elem. setoid_rewrite paired_listed.
  destruct (cf_OIDC cfg); cbn; unfold operator_token, binds; [naive_solver|]. split.
  - intros (((((((H1 & H2) & H3) & H4) & H5) & H6) & _) & _). split; [done|]. intros t. split.
    + intros (t' & Ht & [?|[?|?]]); [apply (H1 (hashToken t'))|apply (H2 (hashToken t'))|apply (H3 (hashToken t'))]; eauto.
    + intros id (t' & Ht & [?|[?|?]]); [apply (H4 id (hashToken t'))|apply (H5 id (hashToken t'))|apply (H6 id (hashToken t'))]; eauto.
  - intros [_ Hn]. split_and!; try done.
    1-3: intros h (t & Ht & ->); destruct (Hn t) as [Ho _]; apply Ho; exists t; tauto.
    all: intros id h (t & Ht & ->); destruct (Hn t) as [_ Ho]; apply (Ho id); exists t; tauto.
Qed.
End configured.

(** ** Ingest *)

(** C11. Ingest writes only where the presented token may. However an OTLP call is composed,
    an engine or a reconciler it changed belongs to a tenant for which the configuration
    grants the presented token the ingest surface, unless ingest is authenticated by mutual
    TLS or nothing authenticates; and under derive-only tenancy a token bound to a single
    tenant, in whatever roles, writes to that tenant and no other, whatever the headers and
    the resource attributes say. *)
Theorem ingest_is_authorized {W : Type} `{!Host} `{!Appender W} (engineFor : string → gmap string (Engine W Recon) → bool + Engine W Recon)
    (acceptUnknown : bool) (idVerify : string → option (gmap string string)) (cfg : Config) (a : Authenticator) (md : Metadata)
    (now : Time) (rls : list ResourceLogs) (sv : Server W) (id : string)
    (Hauth : authenticator idVerify cfg = Some a)
    (Hchanged : let sv' := (serve_export engineFor acceptUnknown cfg a md now rls sv).1 in
       sv_engines sv' !! id ≠ sv_engines sv !! id ∨ sv_reconcilers sv' !! id ≠ sv_reconcilers sv !! id) :
  (cf_IngestMTLSOnly cfg = true ∨ no_credentials cfg ∨
    ∃ h, head (md_authorization md) = Some h ∧ bearer h ≠ ""%string ∧ grants cfg (bearer h) id surfaceIngest) ∧
  (cf_DeriveOnly cfg = true → ∀ h t, head (md_authorization md) = Some h → bearer h ≠ ""%string →
    ¬ operator_token cfg (bearer h) → binds cfg (bearer h) t → (∀ t', binds cfg (bearer h) t' → t' = t) → id = t).
Proof.
  pose proof (authenticator_built _ _ _ Hauth) as [_ _ _ _ _ _ Bd Bm _ _ _ _ _]. unfold serve_export in Hchanged. destruct (checkContext md a); cbn [negb] in Hchanged; [|by destruct Hchanged].
  unfold resolveTenant in Hchanged. set (resolved := if cf_DeriveOnly cfg then _ else _) in *.
  destruct resolved as [[base locked]|] eqn:Hr; [|by destruct Hchanged].
  assert (sv_engines (Export engineFor (Some (λ id, AllowedForTenantGRPC md id a)) acceptUnknown now (Some (base, locked)) rls sv).1.1 !! id ≠ sv_engines sv !! id ∨
    sv_reconcilers (Export engineFor (Some (λ id, AllowedForTenantGRPC md id a)) acceptUnknown now (Some (base, locked)) rls sv).1.1 !! id ≠ sv_reconcilers sv !! id) as Hc.
  { destruct (Export _ _ _ _ _ _ _) as [[sv' resp] counts]. exact Hchanged. }
  apply export_confined in Hc as (Ha & Hlock & _). split.
  - unfold AllowedForTenantGRPC in Ha. rewrite Bm in Ha. destruct (cf_IngestMTLSOnly cfg); [by left|]. right.
    destruct (Enabled a) eqn:He; [|left; by apply (enabled_spec _ _ _ Hauth)]. right. cbn [negb] in Ha. destruct (md_authorization md) as [|h hs]; [done|].
    exists h. split; [done|]. unfold headerAllowedForTenant in Ha. apply andb_true_iff in Ha as [Hb%negb_true_iff%bool_decide_eq_false Hg]. split; [done|]. by eapply allowed_grants.
  - intros Hd h t Hh Hb Hop Ht Hun. unfold resolved in Hr. rewrite Hd in Hr.
    assert (TenantForBearerGRPC md a = Some t) as Htb.
    { unfold TenantForBearerGRPC. destruct (md_authorization md); [done|]. injection Hh as ->. by apply (derived_spec _ _ _ Hauth). }
    assert (Enabled a = true) as He by (destruct (Enabled a) eqn:He; [done|]; apply (enabled_spec _ _ _ Hauth) in He as [_ Hn]; by destruct (Hn (bearer h)) as [_ []%(λ H, H t Ht)]).
    unfold EffectiveTenantGRPC in Hr. rewrite Bd Hd He Htb in Hr. injection Hr as <- <-. by apply Hlock.
Qed.

(** ** Reads *)

(** The request may read a tenant; it may write; it may read every tenant's series. *)
Definition readable (idVerify : string → option (gmap string string)) (cfg : Config) (r : Request) (id : string) : Prop :=
  no_credentials cfg ∨ (bearer (rq_Authorization r) ≠ ""%string ∧ grants cfg (bearer (rq_Authorization r)) id surfaceRead) ∨
  ∃ oc role, cf_OIDC cfg = Some oc ∧ Verify oc idVerify (bearer (rq_Authorization r)) = Some (id, role) ∧ role ≠ "ingest"%string.
Definition may_write (idVerify : string → option (gmap string string)) (cfg : Config) (r : Request) : Prop :=
  (no_credentials cfg ∧ cf_AllowUnauthenticatedWrites cfg = true) ∨ (bearer (rq_Authorization r) ≠ ""%string ∧ full_token cfg (bearer (rq_Authorization r))) ∨
  ∃ oc id, cf_OIDC cfg = Some oc ∧ Verify oc idVerify (bearer (rq_Authorization r)) = Some (id, "full"%string).
Definition reads_every_tenant (cfg : Config) (r : Request) : Prop :=
  no_credentials cfg ∨ ∃ t', hashToken t' = hashToken (bearer (rq_Authorization r)) ∧ (listed t' (cf_AuthTokens cfg) ∨ listed t' (cf_ReadTokens cfg)).

Lemma verify_nonempty oc idVerify t id role : Verify oc idVerify t = Some (id, role) → id ≠ ""%string.
Proof.
  unfold Verify. destruct (idVerify t); [|done]. case_bool_decide; [done|]. destruct (Sanitize _); [|done]. case_bool_decide as Hne; [done|].
  case_bool_decide; [by intros [= <- _]|]. case_bool_decide; [by intros [= <- _]|done].
Qed.

Section reads.
Context (idVerify : string → option (gmap string string)) (cfg : Config) (a : Authenticator) (r : Request).
Hypothesis Hauth : authenticator idVerify cfg = Some a.

(** What it takes to pass the middleware. *)
Lemma passed cx : HTTPMiddleware (public_paths cfg) r no_ctx a = Next cx →
  (no_credentials cfg ∧ cx = mkCtx (Some (cf_AllowUnauthenticatedWrites cfg)) None) ∨
  (¬ no_credentials cfg ∧ rq_Path r ∈ public_paths cfg ∧ cx = no_ctx) ∨
  (¬ no_credentials cfg ∧ validHeader (rq_Authorization r) surfaceRead a = true ∧ cx = mkCtx (Some (canWriteHeader (rq_Authorization r) a)) None ∧
    ∀ id, EffectiveTenantHTTP r no_ctx a = Some id → rq_Path r = "/metrics"%string ∨ grants cfg (bearer (rq_Authorization r)) id surfaceRead) ∨
  (¬ no_credentials cfg ∧ ∃ oc id role, cf_OIDC cfg = Some oc ∧ Verify oc idVerify (bearer (rq_Authorization r)) = Some (id, role) ∧ role ≠ "ingest"%string ∧
    cx = mkCtx (Some (bool_decide (role = "full"%string))) (Some id)).
Proof.
  pose proof (authenticator_built _ _ _ Hauth) as [_ _ _ _ _ _ _ _ Bw Bo _ Be _]. pose proof (enabled_spec _ _ _ Hauth) as Hen.
  unfold HTTPMiddleware, UnauthenticatedWritesAllowed. destruct (Enabled a) eqn:He; cbn [negb].
  - assert (¬ no_credentials cfg) as Hn by (by intros ?%Hen). case_bool_decide as Hp; [intros [= <-]; right; by left|].
    destruct (validHeader _ _ _) eqn:Hv.
    + assert (∀ b, Next (WithWritable (canWriteHeader (rq_Authorization r) a) no_ctx) = Next b → b = mkCtx (Some (canWriteHeader (rq_Authorization r) a)) None) as Hcx by (by intros b [= <-]).
      right. right. left. split; [done|]. destruct (EffectiveTenantHTTP r no_ctx a) as [id|].
      * destruct (_ && _) eqn:Hg; [done|]. split; [done|]. split; [by apply Hcx|]. intros id' [= <-].
        apply andb_false_iff in Hg as [Hx%negb_false_iff%bool_decide_eq_true|Hx%negb_false_iff]; [left; rewrite Be in Hx; set_solver|right]. by eapply allowed_grants.
      * split; [done|]. split; [by apply Hcx|done].
    + rewrite Bo. destruct (cf_OIDC cfg) as [oc|]; cbn [fmap option_fmap option_map]; [|done]. destruct (Verify oc idVerify _) as [[id role]|] eqn:Hver; [|done].
      case_bool_decide; [done|]. intros [= <-]. right. right. right. split; [done|]. by exists oc, id, role.
  - pose proof (proj1 Hen eq_refl). rewrite Bw andb_true_r. intros [= <-]. left. done.
Qed.

(** A routed tenant is one the request may read, where the router resolves as the middleware does. *)
Lemma routed_readable resolve cx id : HTTPMiddleware (public_paths cfg) r no_ctx a = Next cx → rq_Path r ∉ ["/healthz"; "/readyz"; "/metrics"]%string →
  (resolve = if claimed cfg then EffectiveTenantHTTP r cx a else FromHTTP (rq_OrgID r)) → resolve = Some id → readable idVerify cfg r id.
Proof.
  pose proof (authenticator_built _ _ _ Hauth) as [_ _ _ _ _ _ Bd _ _ _ _ _ _]. intros Hm Hpath -> Hres.
  apply passed in Hm as [[Hn _]|[(_ & Hp & _)|[(_ & Hv & -> & Hg)|(_ & oc & id' & role & Ho & Hver & Hrole & ->)]]].
  - by left.
  - destruct Hpath. unfold public_paths in Hp. destruct (cf_MetricsPublic cfg); set_solver.
  - right. left. unfold validHeader in Hv. apply andb_true_iff in Hv as [Hb%negb_true_iff%bool_decide_eq_false _]. split; [done|].
    destruct (Hg id) as [Hx|]; [| |done].
    + unfold claimed in Hres. destruct (cf_DeriveOnly cfg) eqn:Hd; cbn [orb] in Hres; [exact Hres|].
      destruct (cf_OIDC cfg); [exact Hres|]. unfold EffectiveTenantHTTP. cbn [cx_resolvedTenant no_ctx]. rewrite Bd. done.
    + destruct Hpath. rewrite Hx. set_solver.
  - right. right. exists oc, role. split; [done|]. split; [|done]. unfold claimed in Hres. rewrite Ho orb_true_r in Hres.
    unfold EffectiveTenantHTTP in Hres. cbn [cx_resolvedTenant] in Hres. pose proof (verify_nonempty _ _ _ _ _ Hver) as Hne. destruct id' as [|c s]; [done|]. by injection Hres as <-.
Qed.

Lemma writes_allowed cx : HTTPMiddleware (public_paths cfg) r no_ctx a = Next cx → CanWrite cx = true → may_write idVerify cfg r.
Proof.
  pose proof (authenticator_built _ _ _ Hauth) as [Bt _ _ Bs _ _ _ _ _ _ _ _ _].
  intros [[Hn ->]|[(_ & _ & ->)|[(_ & _ & -> & _)|(_ & oc & id & role & Ho & Hver & _ & ->)]]]%passed; unfold CanWrite; cbn; intros Hw; [by left|done| |].
  - right. left. unfold canWriteHeader in Hw. apply andb_true_iff in Hw as [Hb%negb_true_iff%bool_decide_eq_false Hw]. split; [done|].
    apply orb_true_iff in Hw as [Hw%matchAny_spec|[id Hw]%any_tenant_spec].
    + apply (in_list _ _ _ Bt) in Hw as (t' & Ht & Hl). exists t'. split; [done|by left].
    + apply (in_pairs _ id _ _ (Bs id)) in Hw as (t' & Ht & Hl). exists t'. split; [done|]. right. by exists id.
  - apply bool_decide_eq_true in Hw as ->. right. right. by exists oc, id.
Qed.

Lemma scope_all cx id : MetricsScope r cx a = (id, true) → reads_every_tenant cfg r.
Proof.
  pose proof (authenticator_built _ _ _ Hauth) as [Bt Br _ _ _ _ _ _ _ _ _ _ _].
  unfold MetricsScope. destruct (Enabled a) eqn:He; cbn [negb]; [|intros _; left; by apply (enabled_spec _ _ _ Hauth)].
  assert (∀ i : string, (i, false) ≠ (id, true)) as Hd by done. intros Hs. right.
  assert (matchAny (hashToken (bearer (rq_Authorization r))) (a_tokens a) || matchAny (hashToken (bearer (rq_Authorization r))) (a_readTokens a) = true) as Hm.
  { destruct (cx_resolvedTenant cx) as [[|c s]|]; [|done|]; (case_bool_decide; [done|]; destruct (_ || _); [done|]; by destruct (TenantForBearer _ _)). }
  apply orb_true_iff in Hm as [Hm%matchAny_spec|Hm%matchAny_spec]; [apply (in_list _ _ _ Bt) in Hm|apply (in_list _ _ _ Br) in Hm]; destruct Hm as (t' & ? & ?); exists t'; tauto.
Qed.

(** A bearer that is valid for reading and bound to one tenant may read that tenant. *)
Lemma bound_reader id : validHeader (rq_Authorization r) surfaceRead a = true → TenantForBearer (rq_Authorization r) a = Some id →
  grants cfg (bearer (rq_Authorization r)) id surfaceRead.
Proof.
  unfold validHeader. intros [_ [id' (t' & Ht & Hg)]%(valid_grants _ _ _ Hauth)]%andb_true_iff (Hb & Hop & _ & Hun)%(derived_spec _ _ _ Hauth).
  cbn [role_tokens role_pairs] in Hg. exists t'. split; [done|]. cbn [role_tokens role_pairs].
  destruct Hg as [?|[?|[?|?]]]; [left; done|right; by left| |].
  - rewrite -(Hun id'); [tauto|]. exists t'. tauto.
  - rewrite -(Hun id'); [tauto|]. exists t'. tauto.
Qed.

Lemma scope_one cx id : HTTPMiddleware (public_paths cfg) r no_ctx a = Next cx → MetricsScope r cx a = (id, false) → rq_Path r = "/metrics"%string →
  id = ""%string ∨ readable idVerify cfg r id ∨ cf_MetricsPublic cfg = true ∧ binds cfg (bearer (rq_Authorization r)) id.
Proof.
  intros Hm Hs Hpath. unfold MetricsScope in Hs. destruct (Enabled a) eqn:He; cbn [negb] in Hs; [|done].
  assert (cx_resolvedTenant cx = None → id = ""%string ∨ TenantForBearer (rq_Authorization r) a = Some id) as Hnone.
  { intros Hc. rewrite Hc in Hs. case_bool_decide; [injection Hs as <-; by left|]. destruct (_ || _); [done|].
    destruct (TenantForBearer _ _); [|injection Hs as <-; by left]. injection Hs as ->. by right. }
  apply passed in Hm as [[Hn ->]|[(_ & Hp & ->)|[(_ & Hv & -> & _)|(_ & oc & id' & role & Ho & Hver & Hrole & ->)]]].
  - right. left. by left.
  - destruct Hnone as [->|(_ & _ & Hbind & _)%(derived_spec _ _ _ Hauth)]; [done|by left|]. right. right. split; [|done].
    rewrite Hpath in Hp. unfold public_paths in Hp. destruct (cf_MetricsPublic cfg); [done|]. set_solver.
  - destruct Hnone as [->|Htb]; [done|by left|]. right. left. right. left. split; [|by apply bound_reader].
    by apply (derived_spec _ _ _ Hauth) in Htb as [? _].
  - right. left. right. right. exists oc, role. split; [done|]. split; [|done]. cbn [cx_resolvedTenant] in Hs.
    pose proof (verify_nonempty _ _ _ _ _ Hver) as Hne. destruct id' as [|c s]; [done|]. by injection Hs as <-.
Qed.
End reads.

(** ** The routers *)

Section routed.
Context {D : Type}.
Implicit Types hs : gmap string (Stack D).

(** The cached handlers are bound to the stacks that are open. *)
Definition coherent (reg : Registry D) hs : Prop := ∀ id st, hs !! id = Some st → Peek id reg = Some st.
Record caches_coherent (reg : Registry D) (ch : Caches D) : Prop := {
  cc_graphql : coherent reg (ch_graphql ch);
  cc_mcp : coherent reg (ch_mcp ch);
  cc_debug : coherent reg (ch_debug ch);
}.

Lemma route_coherent resolve build r cx reg hs hs' ans : coherent reg hs → route (D:=D) resolve build r cx reg hs = (hs', ans) →
  coherent reg hs' ∧ match ans with Handled id st cx' => resolve r cx = Some id ∧ Peek id reg = Some st ∧ cx' = cx | _ => True end.
Proof.
  intros Hc. unfold route. destruct (resolve r cx) as [id|]; [|by intros [= <- <-]]. unfold handlerFor. destruct (hs !! id) as [st|] eqn:Hh.
  - intros [= <- <-]. split; [done|]. split; [done|]. split; [by apply Hc|done].
  - destruct (Peek id reg) as [st|] eqn:Hp; [|by intros [= <- <-]]. destruct (build st); intros [= <- <-]; [|done].
    split; [|done]. intros id' st' [[<- <-]|[_ ?]]%lookup_insert_Some; [done|by apply Hc].
Qed.

End routed.
