(* ===== verification/AuthExamples.v ===== *)
(** * Authentication on concrete requests

    Two tenants and their tokens: the properties of authentication are instantiated, and
    four behaviours are run that differ from what the comments of the source say. *)
From S2P Require Import Prelude GoStd Values Entities Events Observations Projection ProjectionInv Engine EngineInv EngineExamples Keys Store Boot Tenant Registry.
From S2P Require Import Wire Convert Embedded Receiver IngestSpec IngestExamples Auth Serving AuthSpec.
Open Scope Z_scope.
#[local] Existing Instance demo_host.

Definition no_identity (t : string) : option (gmap string string) := None.
Definition base_config : Config := mkConfig [] [] [] ["acme:k1"%string] [] [] false false false None true false.
Definition the_auth (cfg : Config) : Authenticator := default (NewWithRoles [] [] [] ∅) (authenticator no_identity cfg).

(** ** Ingest *)

Definition derived : Config := mkConfig [] [] [] ["acme:k1"%string] [] [] true false false None false false.
Definition spoofed : Metadata := mkMetadata ["Bearer k1"%string] ["globex"%string].
#[local] Abbreviation spoofed_export := (serve_export full_disk true derived (the_auth derived) spoofed 5 [misaddressed] no_server).1.

Lemma acme_changed : bool_decide (is_Some (sv_reconcilers spoofed_export !! "acme"%string)) = true.
Proof. vm_compute. reflexivity. Qed.

Lemma ingest_is_authorized_witness :
  authenticator no_identity derived = Some (the_auth derived) ∧
  (sv_engines spoofed_export !! "acme"%string ≠ sv_engines no_server !! "acme"%string ∨
   sv_reconcilers spoofed_export !! "acme"%string ≠ sv_reconcilers no_server !! "acme"%string) ∧
  (cf_IngestMTLSOnly derived = true ∨ no_credentials derived ∨
    ∃ h, head (md_authorization spoofed) = Some h ∧ bearer h ≠ ""%string ∧ grants derived (bearer h) "acme" surfaceIngest).
Proof.
  assert (authenticator no_identity derived = Some (the_auth derived)) as Ha by (vm_compute; reflexivity).
  assert (sv_reconcilers spoofed_export !! "acme"%string ≠ sv_reconcilers no_server !! "acme"%string) as Hc.
  { pose proof acme_changed as [x Hx]%bool_decide_eq_true. rewrite Hx. done. }
  split; [exact Ha|]. split; [right; exact Hc|].
  exact (proj1 (ingest_is_authorized full_disk true no_identity derived (the_auth derived) spoofed 5 [misaddressed] no_server "acme" Ha (or_intror Hc))).
Defined.

(** ** Reads *)

#[local] Abbreviation Db := (gmap string string).
Definition stack_of (id : string) : Stack Db := mkStack id (mkStore ∅ false false 0 0 0 0 0 0) Projection.New "".
Definition two_tenants : Registry Db := upd_stacks {["acme" := stack_of "acme"; "globex" := stack_of "globex"]}%string (new_registry ∅ false (mkLimits true [] 0)).
Definition no_handlers : Caches Db := mkCaches ∅ ∅ ∅.
Lemma no_handlers_coherent reg : caches_coherent reg no_handlers.
Proof. by split; intros id st; rewrite lookup_empty. Qed.

Definition ask (path org query : string) : Request := mkRequest path "Bearer k1" org query.
#[local] Abbreviation page cfg r := (serve_http cfg (the_auth cfg) (λ _, true) r two_tenants no_handlers).2.


(** ** Behaviours to know about *)

(** The debug UI's tenant switch escapes the authorization. Without claim-derived tenancy
    the middleware authorizes a request for the tenant of its header, and the debug router
    serves the one of its query parameter: the token of one tenant reads another's graph. *)
Theorem debug_query_escapes :
  (∃ st cx, page base_config (ask "/" "acme" "globex") = Debug (Handled "globex" st cx)) ∧
  ¬ readable no_identity base_config (ask "/" "acme" "globex") "globex".
Proof.
  split; [vm_compute; by do 2 eexists|]. assert (authenticator no_identity base_config = Some (the_auth base_config)) as Ha by (vm_compute; reflexivity).
  intros [Hn|[[_ Hg]|(oc & role & Ho & _)]]; [| |discriminate Ho].
  - apply (enabled_spec _ _ _ Ha) in Hn. vm_compute in Hn. discriminate Hn.
  - apply (allowed_grants _ _ _ Ha) in Hg. vm_compute in Hg. discriminate Hg.
Qed.

(** One token, full for a tenant and read-only for another. *)
Definition shared : Config := mkConfig [] [] [] ["acme:k1"%string] ["globex:k1"%string] [] false false false None false false.

(** The write decision does not look at the tenant: a token that is full for one tenant
    and read-only for another may annotate in both. *)
Theorem read_token_writes_elsewhere :
  (∃ st cx, page shared (ask "/mcp" "globex" "") = Data (Handled "globex" st cx) ∧ CanWrite cx = true) ∧
  ¬ ∃ t', hashToken t' = hashToken "k1" ∧ (listed t' (cf_AuthTokens shared) ∨ paired "globex" t' (cf_TenantTokens shared)).
Proof.
  split; [vm_compute; do 2 eexists; by split|]. assert (authenticator no_identity shared = Some (the_auth shared)) as Ha by (vm_compute; reflexivity).
  intros (t' & Ht & [[_ (raw & Hin & _)]|Hp]); [by apply elem_of_nil in Hin|].
  pose proof (bu_scoped _ _ _ (authenticator_built _ _ _ Ha) "globex") as Hs.
  assert (hashToken "k1" ∈ at_tenant (a_scoped (the_auth shared)) "globex") as Hin by exact (proj2 (in_pairs _ _ _ "k1" Hs) (ex_intro _ t' (conj Ht Hp))).
  apply matchAny_spec in Hin. vm_compute in Hin. discriminate Hin.
Qed.

(** A token bound to two tenants, and a scrape of one series per tenant and one of the server. *)
Definition both_tenants : Config := mkConfig [] [] [] ["acme:k1"; "globex:k1"]%string [] [] false false false None false false.
Definition series : list MetricFamily :=
  [mkMetricFamily "toise_open_tenants" [([], f64_one)]; mkMetricFamily "toise_records" [([(tenantLabel, "acme"%string)], f64_one)]].

(** An unresolved scope is not an empty one. The comments of the scope say that the empty
    tenant matches no series; it matches those without a tenant label, the server-wide
    series a scoped caller must not see. *)
Theorem empty_scope_shows_server_wide :
  page both_tenants (ask "/metrics" "" "") = Scrape (""%string, false) ∧
  "toise_open_tenants"%string ∈ mf_Name <$> scrape series (""%string, false) ∧
  "toise_open_tenants"%string ∉ mf_Name <$> scrape series ("acme"%string, false).
Proof. split; [vm_compute; reflexivity|]. split; by_decide. Qed.

(** An operator's token, and a scrape that is public for the length of an upgrade. *)
Definition upgrading : Config := mkConfig ["op"%string] [] [] [] [] [] false false false None false true.

(** A public scrape is not the unfiltered one. The option that keeps the scrape outside
    authentication leaves its filter on, so a scrape without a token, which it is for, is
    answered without the series of any tenant. *)
Theorem public_scrape_is_filtered :
  (serve_http upgrading (the_auth upgrading) (λ _, true) (mkRequest "/metrics" "" "" "") two_tenants no_handlers).2 = Scrape (""%string, false) ∧
  "toise_records"%string ∉ mf_Name <$> scrape series (""%string, false).
Proof. split; [vm_compute; reflexivity|]. by_decide. Qed.
