(* ===== verification/Traverse.v ===== *)
(** * The traversal tools

    src/internal/mcp/traverse.go (find_path), impact.go (impact_of), canonical.go (the
    identity block of an answer), with the rendering and bounds they use from convert.go
    and tools.go. A tool answers on a projection, the live one or the one of an instant
    ([Projection.At]); the block that says how fresh the graph is is left out. *)
From S2P Require Import Prelude GoStd Values Vocabulary Entities Events DisplayNames Observations Aliases Projection Canonical.
Open Scope Z_scope.

(** ** Rendering *)

Record Attribute := mkAttribute { at_Key : string; at_Value : string; at_Type : string }.

Definition valueString (v : Value) : string * string :=
  (Display v, match v with
    | KindInt _ => "int" | KindDouble _ => "double" | KindBool _ => "bool"
    | KindArray _ => "array" | KindKvlist _ => "kvlist" | _ => "string" end)%string.

Definition attrsOut (kvs : list KeyValue) : list Attribute :=
  (λ kv, mkAttribute (Key kv) (valueString (Val kv)).1 (valueString (Val kv)).2) <$> kvs.

Definition label (e : Entity) : string :=
  e_Type e +++ (if bool_decide (LabelName e = "")%string then "" else " " +++ LabelName e) +++
  str_concat ((λ kv, " " +++ Key kv +++ "=" +++ (valueString (Val kv)).1) <$> e_Identity e).

(** The entity as an answer shows it; a list that is not rendered is [None]. *)
Record EntityOut := mkEntityOut {
  eo_ID : string;
  eo_IdentityFingerprint : string;
  eo_Type : string;
  eo_DisplayName : string;
  eo_Label : string;
  eo_Identity : option (list Attribute);
  eo_Attributes : option (list Attribute);
  eo_Deleted : bool;
}.

Definition entityOutV (e : Entity) (deleted compact : bool) : EntityOut :=
  mkEntityOut (e_ID e) (IdentityHash e) (e_Type e) (DisplayName e) (label e)
    (if compact then None else Some (attrsOut (e_Identity e)))
    (if compact then None else Some (attrsOut (e_Attributes e))) deleted.
Definition entityOut (e : Entity) (deleted : bool) : EntityOut := entityOutV e deleted false.

(** [ent, _, _ := g.GetEntity(id)]: the zero entity when there is none. *)
Definition entity_of (g : Graph) (id : EntityID) : Entity := default zero_Entity (GetEntity g id).1.
(** There, and not deleted. *)
Definition is_live (g : Graph) (id : EntityID) : bool :=
  match GetEntity g id with (Some _, false) => true | _ => false end.

(** ** Bounds and counts *)

Definition defaultLimit : Z := 50.
Definition maxLimit : Z := 200.
Definition clampLimit (limit : Z) : Z :=
  if limit <=? 0 then defaultLimit else if maxLimit <? limit then maxLimit else limit.

Record TypeCount := mkTypeCount { tc_Type : string; tc_Count : Z }.

(** The largest count first, then by type. *)
Definition count_le (x y : TypeCount) : Prop :=
  tc_Count y < tc_Count x ∨ (tc_Count x = tc_Count y ∧ str_le (tc_Type x) (tc_Type y)).
#[export] Instance count_le_dec : RelDecision count_le.
Proof. intros x y. unfold count_le. apply _. Defined.
Definition sortedCounts (m : gmap string Z) : list TypeCount :=
  merge_sort count_le ((λ kv, mkTypeCount kv.1 kv.2) <$> map_to_list m).

(** [counts[t]++]. *)
Definition bump (t : string) (m : gmap string Z) : gmap string Z := <[t := default 0 (m !! t) + 1]> m.

(** [sort.SliceStable]: an element goes before the equal ones that came after it. *)
Fixpoint insert_stable {A} (le : A → A → bool) (x : A) (l : list A) : list A :=
  match l with
  | [] => [x]
  | y :: l' => if le x y then x :: l else y :: insert_stable le x l'
  end.
Definition sort_stable {A} (le : A → A → bool) (l : list A) : list A := foldr (insert_stable le) [] l.

(** What a tool refuses. *)
Inductive ToolError :=
| EntityIDRequired
| EndpointsRequired
| NoLiveEntity (handle : string).

Definition maxPathDepth : Z := 10.
Definition clampDepth (d : Z) : Z := if (d <=? 0) || (maxPathDepth <? d) then maxPathDepth else d.

(** ** Steps *)

Record edge := mkEdge { ed_rel : Relation; ed_other : EntityID; ed_direction : string }.
Definition zero_edge : edge := mkEdge zero_Relation "" "".

(** The far end; a self-loop stays outgoing. *)
Definition edge_from (id : EntityID) (r : Relation) : edge :=
  if bool_decide (r_To r = id) && negb (bool_decide (r_From r = id))
  then mkEdge r (r_From r) "incoming" else mkEdge r (r_To r) "outgoing".

Definition edgesOf (g : Graph) (id : EntityID) (relType : string) : list edge :=
  base.filter (λ e, is_live g (ed_other e) = true) (edge_from id <$> RelationsTouching g id relType).

(** ** The identity block *)

(** The walk of the overlay, with fuel for every entity that has an edge. *)
Definition walk (g : Graph) (threshold : float64) (root : EntityID) : list EntityID * list Link :=
  Walk g (S (S (size (projection_nodes g)))) root threshold.
Definition canonicalMemberIDs (g : Graph) (threshold : float64) (root : EntityID) : list EntityID := (walk g threshold root).1.

Record CanonicalMember := mkCanonicalMember { cm_ID : string; cm_Type : string; cm_Label : string; cm_State : string }.
Record InertBelief := mkInertBelief { ib_From : string; ib_To : string; ib_Basis : string; ib_Reason : string }.
Record CanonicalGroup := mkCanonicalGroup { cg_Aliases : list CanonicalMember; cg_Links : list Link; cg_Inert : list InertBelief }.

(** Why a belief cannot be used: the first confidence attribute says. *)
Definition inertReason (r : Relation) : string :=
  match find (λ kv, bool_decide (Key kv = ConfidenceKey)) (r_Attributes r) with
  | Some kv =>
    match Val kv with
    | KindDouble _ | KindInt _ => "confidence_out_of_range"
    | _ => "confidence_not_numeric"
    end
  | None => "no_confidence"
  end.

Definition inert_le (x y : InertBelief) : Prop :=
  if bool_decide (ib_From x = ib_From y) then str_le (ib_To x) (ib_To y) else str_le (ib_From x) (ib_From y).
#[export] Instance inert_le_dec : RelDecision inert_le.
Proof. intros x y. unfold inert_le. destruct (bool_decide _); apply _. Defined.

Definition inertBeliefs (g : Graph) (root : EntityID) : list InertBelief :=
  merge_sort inert_le
    ((λ r, mkInertBelief (r_From r) (r_To r) (Basis r) (inertReason r)) <$>
     base.filter (λ r, (Confidence r).2 = false) (RelationsTouching g root RelSameAs)).

Definition member_out (g : Graph) (id : EntityID) : CanonicalMember :=
  match GetEntity g id with
  | (Some e, false) => mkCanonicalMember id (e_Type e) (label e) "live"
  | (Some _, true) => mkCanonicalMember id "" "" "deleted"
  | (None, _) => mkCanonicalMember id "" "" "unresolvable"
  end.

Definition canonicalGroup (g : Graph) (threshold : float64) (root : EntityID) : option CanonicalGroup :=
  let '(members, links) := walk g threshold root in
  let inert := inertBeliefs g root in
  let aliases := sort_by cm_ID (member_out g <$> base.filter (λ id, id ≠ root) members) in
  if (length members <=? 1)%nat || match aliases with [] => true | _ => false end then
    match inert with [] => None | _ => Some (mkCanonicalGroup [] [] inert) end
  else Some (mkCanonicalGroup aliases links inert).

(** ** impact_of *)

Record ImpactOfInput := mkImpactOfInput { ii_EntityID : string; ii_MaxDepth : Z; ii_Limit : Z }.
Record ImpactedEntity := mkImpacted { im_Entity : EntityOut; im_Depth : Z; im_Via : string }.
Record ImpactOfOutput := mkImpactOfOutput {
  io_Root : EntityOut;
  io_Impacted : list ImpactedEntity;
  io_Total : Z;
  io_Truncated : bool;
  io_ByType : list TypeCount;
  io_Aliases : Z;
  io_Summary : string;
}.

Definition impactPropagates (e : edge) (failed : EntityID) : bool :=
  match ImpactFlowOf (r_Type (ed_rel e)) with
  | ImpactToFrom => bool_decide (r_To (ed_rel e) = failed)
  | ImpactFromTo => bool_decide (r_From (ed_rel e) = failed)
  | ImpactNone => false
  | ImpactBoth => true
  end.

(** What the loops of impact_of change. *)
Record Blast := mkBlast {
  bl_visited : gset string;
  bl_next : list EntityID;
  bl_impacted : list ImpactedEntity;
  bl_counts : gmap string Z;
}.

Definition blast_edge (g : Graph) (d : Z) (cur : EntityID) (b : Blast) (e : edge) : Blast :=
  if negb (impactPropagates e cur) then b else
  if bool_decide (ed_other e ∈ bl_visited b) then b else
  let ent := entity_of g (ed_other e) in
  mkBlast ({[ed_other e]} ∪ bl_visited b) (bl_next b ++ [ed_other e])
    (bl_impacted b ++ [mkImpacted (entityOut ent false) d (r_Type (ed_rel e))]) (bump (e_Type ent) (bl_counts b)).
Definition blast_entity (g : Graph) (d : Z) (b : Blast) (cur : EntityID) : Blast :=
  foldl (blast_edge g d cur) b (edgesOf g cur "").

(** The rounds left, the round, and the frontier in [bl_next]. *)
Fixpoint blast_rounds (g : Graph) (n : nat) (d : Z) (b : Blast) : Blast :=
  match n, bl_next b with
  | O, _ | _, [] => b
  | S n, frontier =>
    blast_rounds g n (d + 1) (foldl (blast_entity g d) (mkBlast (bl_visited b) [] (bl_impacted b) (bl_counts b)) frontier)
  end.

(** Nearest first, then by label. *)
Definition impacted_le (x y : ImpactedEntity) : bool :=
  if im_Depth x =? im_Depth y then bool_decide (str_le (eo_Label (im_Entity x)) (eo_Label (im_Entity y))) else im_Depth x <? im_Depth y.
Definition sortImpacted (l : list ImpactedEntity) : list ImpactedEntity := sort_stable impacted_le l.

Fixpoint join (sep : string) (l : list string) : string :=
  match l with [] => "" | [x] => x | x :: l => x +++ sep +++ join sep l end.
Definition impactSummary (root : Entity) (total : Z) (byType : list TypeCount) : string :=
  if total =? 0 then "Nothing depends on " +++ label root +++ ": its failure propagates to no other entity within the explored depth."
  else "A failure of " +++ label root +++ " impacts " +++ itoa total +++ " entities: " +++
    join ", " ((λ tc, itoa (tc_Count tc) +++ " " +++ tc_Type tc) <$> byType) +++ ".".

Definition blast (g : Graph) (threshold : float64) (root : EntityID) (depth : Z) : Blast :=
  let group := canonicalMemberIDs g threshold root in
  blast_rounds g (Z.to_nat depth) 1 (mkBlast (list_to_set group) group [] ∅).

Definition impactOf (g : Graph) (threshold : float64) (i : ImpactOfInput) : ToolError + ImpactOfOutput :=
  if bool_decide (ii_EntityID i = "") then inl EntityIDRequired else
  let depth := clampDepth (ii_MaxDepth i) in
  let limit := clampLimit (ii_Limit i) in
  match ResolveHandle g (ii_EntityID i) with
  | None => inl (NoLiveEntity (ii_EntityID i))
  | Some rootID =>
    if negb (is_live g rootID) then inl (NoLiveEntity (ii_EntityID i)) else
    let root := entity_of g rootID in
    let group := canonicalMemberIDs g threshold rootID in
    let b := blast g threshold rootID depth in
    let impacted := sortImpacted (bl_impacted b) in
    let total := Z.of_nat (length impacted) in
    let byType := sortedCounts (bl_counts b) in
    inr (mkImpactOfOutput (entityOut root false) (take (Z.to_nat limit) impacted) total (limit <? total) byType
           (Z.of_nat (length group) - 1) (impactSummary root total byType))
  end.

(** ** find_path *)

Record FindPathInput := mkFindPathInput { fi_FromID : string; fi_ToID : string; fi_RelationType : string; fi_MaxDepth : Z }.
Record PathHop := mkPathHop { ph_Entity : EntityOut; ph_ViaRelation : string; ph_Direction : string }.
Record FindPathOutput := mkFindPathOutput {
  fo_Reachable : bool;
  fo_Hops : Z;
  fo_MaxDepth : Z;
  fo_Path : list PathHop;
  fo_Convergences : list EntityOut;
  fo_ConvergenceTotal : Z;
  fo_ConvergenceNote : string;
}.
Definition maxConvergences : nat := 10.

Record cameFrom := mkCameFrom { cf_prev : EntityID; cf_via : edge }.
Record pathWalk := mkPathWalk { pw_parents : gmap string cameFrom; pw_terminals : gset string; pw_found : bool }.

Section walk.
Context (g : Graph) (threshold : float64) (relType : string) (start goal : EntityID).

(** An entity that may only be left by an edge of its own. *)
Definition terminal_at (cur : EntityID) : bool :=
  negb (bool_decide (cur = start)) && match (GetEntity g cur).1 with Some ent => IsTerminalEntityType (e_Type ent) | None => false end.
(** The type the walk reached an entity by, where it may not leave by the same. *)
Definition arrived_by (w : pathWalk) (cur : EntityID) : string :=
  if bool_decide (cur = start) then "" else
  match (GetEntity g cur).1 with
  | Some ent =>
    if CrossingNeedsADifferentRelation (e_Type ent)
    then match pw_parents w !! cur with Some c => r_Type (ed_rel (cf_via c)) | None => "" end else ""
  | None => ""
  end.

Definition refuse (cur : EntityID) (w : pathWalk) : pathWalk := mkPathWalk (pw_parents w) ({[cur]} ∪ pw_terminals w) (pw_found w).

(** The edges of [cur] in turn, until the goal; what is reached joins [next]. *)
Fixpoint follow_edges (cur : EntityID) (terminal : bool) (arrivedBy : string) (es : list edge) (w : pathWalk) (next : list EntityID)
    : pathWalk * list EntityID :=
  match es with
  | [] => (w, next)
  | e :: es =>
    if terminal && negb (bool_decide (ed_direction e = "outgoing")) then follow_edges cur terminal arrivedBy es (refuse cur w) next
    else if negb (bool_decide (arrivedBy = "")) && bool_decide (r_Type (ed_rel e) = arrivedBy) then follow_edges cur terminal arrivedBy es (refuse cur w) next
    else if bool_decide (r_Type (ed_rel e) = RelSameAs) && negb (believed threshold (ed_rel e)) then follow_edges cur terminal arrivedBy es w next
    else if bool_decide (is_Some (pw_parents w !! ed_other e)) then follow_edges cur terminal arrivedBy es w next
    else
      let parents := <[ed_other e := mkCameFrom cur e]> (pw_parents w) in
      if bool_decide (ed_other e = goal) then (mkPathWalk parents (pw_terminals w) true, next)
      else follow_edges cur terminal arrivedBy es (mkPathWalk parents (pw_terminals w) (pw_found w)) (next ++ [ed_other e])
  end.

Fixpoint follow_frontier (frontier : list EntityID) (w : pathWalk) (next : list EntityID) : pathWalk * list EntityID :=
  match frontier with
  | [] => (w, next)
  | cur :: frontier =>
    let '(w, next) := follow_edges cur (terminal_at cur) (arrived_by w cur) (edgesOf g cur relType) w next in
    if pw_found w then (w, next) else follow_frontier frontier w next
  end.

Fixpoint walk_rounds (depth : nat) (frontier : list EntityID) (w : pathWalk) : pathWalk :=
  match depth, frontier with
  | O, _ | _, [] => w
  | S depth, _ =>
    if pw_found w then w else
    let '(w, next) := follow_frontier frontier w [] in walk_rounds depth next w
  end.

Definition walkPaths (depth : Z) : pathWalk :=
  walk_rounds (Z.to_nat depth) [start] (mkPathWalk {[start := mkCameFrom "" zero_edge]} ∅ (bool_decide (start = goal))).

(** Up the parents from [cur] to the start. *)
Fixpoint climb (fuel : nat) (parents : gmap string cameFrom) (cur : EntityID) : list PathHop :=
  let p := default (mkCameFrom "" zero_edge) (parents !! cur) in
  if bool_decide (cur = start) then [mkPathHop (entityOut (entity_of g cur) false) "" ""] else
  mkPathHop (entityOut (entity_of g cur) false) (r_Type (ed_rel (cf_via p))) (ed_direction (cf_via p)) ::
  match fuel with O => [] | S fuel => climb fuel parents (cf_prev p) end.
End walk.

Definition convergenceEntities (g : Graph) (ids : list EntityID) : list EntityOut * Z :=
  let listed := sort_by eo_IdentityFingerprint ((λ id, entityOut (entity_of g id) false) <$> base.filter (λ id, is_live g id = true) ids) in
  (take maxConvergences listed, Z.of_nat (length listed)).

Definition plural (one many : string) (n : Z) : string := if n =? 1 then one else many.
Definition convergenceNote (n : Z) : string :=
  let subject := if 1 <? n then "these destinations" else "this destination" in
  "no path within max_depth, but both ends depend on " +++ itoa n +++ " shared terminal " +++ plural "entity" "entities" n +++
  ". They were reached from both sides and NOT crossed: dialing " +++ subject +++
  " is not evidence that the two ends communicate with each other, and treating it as a hop is how a convergence gets reported as a route. " +++
  "Call get_neighbors on one to see who else dials it.".

Definition findPath (g : Graph) (threshold : float64) (i : FindPathInput) : ToolError + FindPathOutput :=
  if bool_decide (fi_FromID i = "") || bool_decide (fi_ToID i = "") then inl EndpointsRequired else
  let depth := clampDepth (fi_MaxDepth i) in
  match ResolveHandle g (fi_FromID i), ResolveHandle g (fi_ToID i) with
  | None, _ => inl (NoLiveEntity (fi_FromID i))
  | Some from, to =>
    if negb (is_live g from) then inl (NoLiveEntity (fi_FromID i)) else
    match to with
    | None => inl (NoLiveEntity (fi_ToID i))
    | Some to =>
      if negb (is_live g to) then inl (NoLiveEntity (fi_ToID i)) else
      let w := walkPaths g threshold (fi_RelationType i) from to depth in
      if pw_found w then
        let hops := reverse (climb g from (Z.to_nat depth) (pw_parents w) to) in
        inr (mkFindPathOutput true (Z.of_nat (length hops) - 1) depth hops [] 0 "")
      else
        let shared := if bool_decide (pw_terminals w = ∅) then [] else
          elements (pw_terminals w ∩ pw_terminals (walkPaths g threshold (fi_RelationType i) to from depth)) in
        match shared with
        | [] => inr (mkFindPathOutput false 0 depth [] [] 0 "")
        | _ => let '(listed, total) := convergenceEntities g shared in
               inr (mkFindPathOutput false 0 depth [] listed total (convergenceNote total))
        end
    end
  end.
