(* ===== verification/TraverseSpec.v ===== *)
(** * What the traversal tools answer

    Impact analysis is reachability over the propagation relation with exact distances;
    a path found is a lawful one, a shortest where no waypoint needs a change of
    relation, and the overlay's group is what the answer calls aliases. *)
From S2P Require Import Prelude GoStd Values Vocabulary Entities Events DisplayNames Observations Aliases Projection ProjectionInv ProjectionSpec Canonical Traverse.
Open Scope Z_scope.

(** ** Lists *)

(** The first element of each key that is not known yet. *)
Fixpoint discover {A} (key : A → string) (seen : gset string) (l : list A) : list A :=
  match l with
  | [] => []
  | x :: l => if bool_decide (key x ∈ seen) then discover key seen l else x :: discover key ({[key x]} ∪ seen) l
  end.

Lemma discover_keys {A} (key : A → string) l : ∀ seen k, k ∈ key <$> discover key seen l ↔ k ∈ key <$> l ∧ k ∉ seen.
Proof.
  induction l as [|x l IH]; intros seen k; simpl; [set_solver|]. case_bool_decide as Hx.
  - rewrite IH. set_solver.
  - rewrite fmap_cons !elem_of_cons IH elem_of_union elem_of_singleton. destruct (decide (k = key x)); naive_solver.
Qed.

Lemma discover_NoDup {A} (key : A → string) l : ∀ seen, NoDup (key <$> discover key seen l).
Proof.
  induction l as [|x l IH]; intros seen; simpl; [constructor|]. case_bool_decide; [done|].
  rewrite fmap_cons. apply NoDup_cons. split; [|done]. rewrite discover_keys. set_solver.
Qed.

Lemma discover_elem {A} (key : A → string) l : ∀ seen x, x ∈ discover key seen l → x ∈ l ∧ key x ∉ seen.
Proof.
  induction l as [|y l IH]; intros seen x; simpl; [by intros ?%elem_of_nil|]. case_bool_decide; [intros []%IH; set_solver|].
  intros [->|[]%IH]%elem_of_cons; set_solver.
Qed.

Lemma discover_app {A} (key : A → string) l1 l2 : ∀ seen,
  discover key seen (l1 ++ l2) = (discover key seen l1 ++ discover key (list_to_set (key <$> discover key seen l1) ∪ seen) l2)%list.
Proof.
  induction l1 as [|x l1 IH]; intros seen; simpl; [by rewrite left_id_L|]. case_bool_decide; [done|].
  rewrite IH. simpl. do 2 f_equal. f_equal. set_solver.
Qed.

Section stable.
Context {A : Type} (le : A → A → bool).
Hypothesis Htot : ∀ x y, le x y = true ∨ le y x = true.
Hypothesis Htrans : ∀ x y z, le x y = true → le y z = true → le x z = true.

Lemma insert_stable_perm x l : insert_stable le x l ≡ₚ x :: l.
Proof. induction l as [|y l IH]; [done|]. simpl. destruct (le x y); [done|]. rewrite IH. apply perm_swap. Qed.
Lemma sort_stable_perm l : sort_stable le l ≡ₚ l.
Proof. induction l as [|x l IH]; [done|]. change (insert_stable le x (sort_stable le l) ≡ₚ x :: l). by rewrite insert_stable_perm IH. Qed.

Lemma insert_stable_sorted x l : StronglySorted (λ x y, le x y = true) l → StronglySorted (λ x y, le x y = true) (insert_stable le x l).
Proof.
  induction 1 as [|y l Hs IH Hy]; [by repeat constructor|]. simpl. destruct (le x y) eqn:Hxy.
  - constructor; [by constructor|]. constructor; [done|]. eapply Forall_impl; [exact Hy|]. intros z. by apply Htrans.
  - constructor; [done|]. rewrite insert_stable_perm. constructor; [|done]. by destruct (Htot x y) as [|]; [congruence|].
Qed.
Lemma sort_stable_sorted l : StronglySorted (λ x y, le x y = true) (sort_stable le l).
Proof. induction l as [|x l IH]; [constructor|]. by apply insert_stable_sorted. Qed.
End stable.

(** ** Counts *)

Definition counts_of (l : list string) : gmap string Z := foldl (λ m t, bump t m) ∅ l.
Definition occurrences (t : string) (l : list string) : Z := Z.of_nat (length (base.filter (λ t', t' = t) l)).

Lemma counts_of_snoc l t : counts_of (l ++ [t]) = bump t (counts_of l).
Proof. unfold counts_of. by rewrite foldl_app. Qed.

Lemma counts_of_spec l t c : counts_of l !! t = Some c ↔ 0 < c ∧ c = occurrences t l.
Proof.
  unfold occurrences. revert t c. induction l as [|x l IH] using rev_ind; intros t c; [split; [done|simpl; lia]|].
  rewrite counts_of_snoc list.filter_app length_app. unfold bump. destruct (decide (x = t)) as [->|Hne].
  - rewrite lookup_insert_eq filter_cons_True // /=. pose proof (IH t) as Ht. destruct (counts_of l !! t) as [n|]; simpl.
    + destruct (proj1 (Ht n) eq_refl) as [? ->]. split; [intros [= <-]|intros [_ ->]; f_equal]; lia.
    + pose proof (proj2 (Ht (Z.of_nat (length (base.filter (λ t', t' = t) l))))) as Hnone.
      assert (length (base.filter (λ t', t' = t) l) = 0%nat) as ->.
      { destruct (decide (length (base.filter (λ t', t' = t) l) = 0%nat)); [done|]. exfalso. discriminate Hnone. lia. }
      split; [intros [= <-]; lia|intros [_ ->]; done].
  - rewrite lookup_insert_ne // filter_cons_False // /= Nat.add_0_r. apply IH.
Qed.

Lemma occurrences_perm t l l' : l ≡ₚ l' → occurrences t l = occurrences t l'.
Proof. intros H. unfold occurrences. by rewrite (filter_Permutation _ _ _ H). Qed.

#[export] Instance count_le_total : Total count_le.
Proof.
  intros x y. unfold count_le. destruct (Z.lt_trichotomy (tc_Count x) (tc_Count y)) as [?|[He|?]]; [by right; left| |by left; left].
  destruct (total str_le (tc_Type x) (tc_Type y)); [left|right]; by right.
Qed.
#[export] Instance count_le_trans : Transitive count_le.
Proof. intros x y z [|[]] [|[]]; unfold count_le; try (left; lia). right. split; [lia|]. by etrans. Qed.

Lemma sortedCounts_spec m : StronglySorted count_le (sortedCounts m) ∧ ∀ t c, mkTypeCount t c ∈ sortedCounts m ↔ m !! t = Some c.
Proof.
  unfold sortedCounts. split; [apply StronglySorted_merge_sort; apply _|]. intros t c. rewrite merge_sort_Permutation list_elem_of_fmap. split.
  - intros ([t' c'] & [= -> ->] & H). by apply elem_of_map_to_list.
  - intros H. exists (t, c). split; [done|]. by apply elem_of_map_to_list.
Qed.

(** ** Steps *)

Lemma is_live_spec g id : is_live g id = true ↔ is_Some (live g !! id).
Proof.
  rewrite live_lookup_eq. unfold is_live, GetEntity, is_deleted. destruct (g_entities g !! id); repeat case_bool_decide; simpl; naive_solver.
Qed.
Lemma entity_of_live g id e : live g !! id = Some e → entity_of g id = e.
Proof. intros [He _]%live_lookup. unfold entity_of, GetEntity. by rewrite /= He. Qed.

Lemma edges_elem g id relType e : wf g → e ∈ edgesOf g id relType ↔
  ∃ r, g_relations g !! r_ID r = Some r ∧ (r_From r = id ∨ r_To r = id) ∧ filter_ok relType (r_Type r) = true ∧
    e = edge_from id r ∧ is_Some (live g !! ed_other e).
Proof.
  intros Hwf. unfold edgesOf. rewrite list_elem_of_filter is_live_spec list_elem_of_fmap. setoid_rewrite touching_elem; [|done]. naive_solver.
Qed.

(** ** Impact *)

(** In which way a relation carries a failure. *)
Definition flows (f : ImpactFlow) (r : Relation) (a b : EntityID) : Prop :=
  match f with
  | ImpactToFrom => r_To r = a ∧ r_From r = b
  | ImpactFromTo => r_From r = a ∧ r_To r = b
  | ImpactBoth => (r_From r = a ∧ r_To r = b) ∨ (r_To r = a ∧ r_From r = b)
  | ImpactNone => False
  end.
(** A failure of [a] reaches the live entity [b] over [r]. *)
Definition impact_step (g : Graph) (a : EntityID) (r : Relation) (b : EntityID) : Prop :=
  g_relations g !! r_ID r = Some r ∧ is_Some (live g !! b) ∧ flows (ImpactFlowOf (r_Type r)) r a b.

Lemma edge_from_rel id r : ed_rel (edge_from id r) = r.
Proof. unfold edge_from. by destruct (_ && _). Qed.

Lemma propagates_spec g a b r : wf g →
  (∃ e, e ∈ edgesOf g a "" ∧ impactPropagates e a = true ∧ ed_other e = b ∧ ed_rel e = r) ↔ impact_step g a r b.
Proof.
  intros Hwf. unfold impact_step. setoid_rewrite edges_elem; [|done]. unfold impactPropagates. split.
  - intros (e & (r' & Hr & Hends & _ & -> & Hl) & Hp & Ho & Hrel). rewrite edge_from_rel in Hrel, Hp. subst r'. rewrite Ho in Hl.
    split; [exact Hr|]. split; [exact Hl|]. clear -Ho Hends Hp. unfold flows, edge_from in *. destruct (ImpactFlowOf _); [|apply bool_decide_eq_true in Hp..|done];
      do 2 case_bool_decide; simpl in *; naive_solver.
  - intros (Hr & Hl & Hf). assert (r_From r = a ∨ r_To r = a) as Hends by (clear -Hf; unfold flows in Hf; destruct (ImpactFlowOf _); tauto).
    assert (ed_other (edge_from a r) = b) as Ho.
    { clear -Hf. unfold flows, edge_from in *. destruct (ImpactFlowOf _); do 2 case_bool_decide; simpl in *; naive_solver. }
    exists (edge_from a r). split; [|split; [|exact (conj Ho (edge_from_rel a r))]].
    + exists r. rewrite Ho. exact (conj Hr (conj Hends (conj eq_refl (conj eq_refl Hl)))).
    + rewrite edge_from_rel. clear -Hf. unfold flows in Hf. destruct (ImpactFlowOf _); rewrite ?bool_decide_eq_true; tauto.
Qed.

Section impact.
Context (g : Graph) (Hwf : wf g) (group : list EntityID).

(** Reached from the group in exactly so many steps, and at the earliest. *)
Definition away (n : nat) (b : EntityID) : Prop := ∃ m, m ∈ group ∧ nsteps (λ a b, ∃ r, impact_step g a r b) n m b.
Definition first_at (n : nat) (b : EntityID) : Prop := away n b ∧ ∀ k, (k < n)%nat → ¬ away k b.

Lemma away_S n b : away (S n) b ↔ ∃ a r, away n a ∧ impact_step g a r b.
Proof.
  unfold away. split.
  - intros (m & Hm & (a & Ha & r & Hr)%nsteps_inv_r). exists a, r. eauto.
  - intros (a & r & (m & Hm & Ha) & Hr). exists m. split; [done|]. eapply nsteps_r; eauto.
Qed.

Lemma away_live n b : away (S n) b → is_Some (live g !! b).
Proof. intros (a & r & _ & _ & Hl & _)%away_S. done. Qed.

(** One step to an entity first reached at a distance starts from one first reached just before. *)
Lemma first_S n b a r : first_at (S n) b → away n a → impact_step g a r b → first_at n a.
Proof. intros [_ Hmin] Ha Hr. split; [done|]. intros k Hk Hka. apply (Hmin (S k)); [lia|]. apply away_S. eauto. Qed.

(** The propagating edges out of a list of entities, in order. *)
Definition spread (frontier : list EntityID) : list edge :=
  frontier ≫= λ cur, base.filter (λ e, impactPropagates e cur = true) (edgesOf g cur "").

Lemma spread_elem frontier b r : (∃ e, e ∈ spread frontier ∧ ed_other e = b ∧ ed_rel e = r) ↔ ∃ a, a ∈ frontier ∧ impact_step g a r b.
Proof.
  setoid_rewrite <- propagates_spec; [|done]. unfold spread. split.
  - intros (e & (a & [? ?]%list_elem_of_filter & ?)%list_elem_of_bind & ? & ?). exists a. split; [done|]. by exists e.
  - intros (a & ? & e & ? & ? & ? & ?). exists e. split; [|done]. apply list_elem_of_bind. exists a. by rewrite list_elem_of_filter.
Qed.

Definition impacted_by (d : Z) (e : edge) : ImpactedEntity := mkImpacted (entityOut (entity_of g (ed_other e)) false) d (r_Type (ed_rel e)).
Definition blast_add (d : Z) (b : Blast) (l : list edge) : Blast :=
  let D := discover ed_other (bl_visited b) l in
  mkBlast (list_to_set (ed_other <$> D) ∪ bl_visited b) (bl_next b ++ (ed_other <$> D)) (bl_impacted b ++ (impacted_by d <$> D))
    (foldl (λ m e, bump (e_Type (entity_of g (ed_other e))) m) (bl_counts b) D).

Lemma blast_edges d cur es : ∀ b,
  foldl (blast_edge g d cur) b es = blast_add d b (base.filter (λ e, impactPropagates e cur = true) es).
Proof.
  induction es as [|e es IH]; intros [V N I C].
  - unfold blast_add. simpl. rewrite !app_nil_r. f_equal. set_solver.
  - simpl. rewrite IH. unfold blast_edge. destruct (impactPropagates e cur) eqn:Hp; [rewrite filter_cons_True //|rewrite filter_cons_False ?Hp //].
    unfold blast_add. simpl. case_bool_decide as Hv; [done|]. simpl. rewrite -!(assoc_L app). f_equal. set_solver.
Qed.

Lemma blast_frontier d frontier : ∀ b, foldl (blast_entity g d) b frontier = blast_add d b (spread frontier).
Proof.
  induction frontier as [|cur frontier IH]; intros b; [destruct b; unfold blast_add; simpl; rewrite !app_nil_r; f_equal; set_solver|].
  simpl. rewrite IH. unfold blast_entity. rewrite blast_edges. unfold blast_add. simpl.
  rewrite discover_app !fmap_app foldl_app -!(assoc_L app). f_equal. set_solver.
Qed.

(** An entry of the blast radius: a live entity at its distance, and the type of the last step. *)
Definition entry (i : ImpactedEntity) : Prop :=
  ∃ n x e a r, live g !! x = Some e ∧ im_Entity i = entityOut e false ∧ im_Depth i = Z.of_nat (S n) ∧ im_Via i = r_Type r ∧
    first_at (S n) x ∧ first_at n a ∧ impact_step g a r x.
Definition im_ID (i : ImpactedEntity) : string := eo_ID (im_Entity i).
Definition im_Type (i : ImpactedEntity) : string := eo_Type (im_Entity i).

(** The state after so many rounds. *)
Record blasted (d : nat) (b : Blast) : Prop := {
  ba_visited : ∀ x, x ∈ bl_visited b ↔ ∃ n, (n ≤ d)%nat ∧ away n x;
  ba_next : ∀ x, x ∈ bl_next b ↔ first_at d x;
  ba_entry : ∀ i, i ∈ bl_impacted b → entry i ∧ im_Depth i <= Z.of_nat d;
  ba_all : ∀ n x, (S n ≤ d)%nat → first_at (S n) x → x ∈ im_ID <$> bl_impacted b;
  ba_once : NoDup (im_ID <$> bl_impacted b);
  ba_known : ∀ x, x ∈ im_ID <$> bl_impacted b → x ∈ bl_visited b;
  ba_counts : bl_counts b = counts_of (im_Type <$> bl_impacted b);
}.

Lemma away_0 x : away 0 x ↔ x ∈ group.
Proof. unfold away. split; [intros (m & Hm & H); inversion H; by subst|]. intros H. exists x. split; [done|constructor]. Qed.

Lemma blasted_0 : blasted 0 (mkBlast (list_to_set group) group [] ∅).
Proof.
  split; simpl.
  - intros x. rewrite elem_of_list_to_set -away_0. split; [intros H; by exists 0%nat|intros (n & Hn & H); by assert (n = 0)%nat as -> by lia].
  - intros x. rewrite -away_0. split; [intros H; split; [done|lia]|by intros [? _]].
  - by intros i ?%elem_of_nil.
  - lia.
  - constructor.
  - by intros x ?%elem_of_nil.
  - done.
Qed.

Lemma impacted_id d e : is_Some (live g !! ed_other e) → im_ID (impacted_by d e) = ed_other e.
Proof. intros [x Hx]. unfold im_ID, impacted_by. simpl. rewrite (entity_of_live _ _ _ Hx). apply live_lookup in Hx as [Hx _]. apply (wf_ids g (wf_E _ Hwf) _ _ Hx). Qed.

Lemma impacted_ids d (D : list edge) : (∀ e, e ∈ D → is_Some (live g !! ed_other e)) → im_ID <$> (impacted_by d <$> D) = ed_other <$> D.
Proof. intros H. rewrite -list_fmap_compose. apply list_fmap_ext. intros i e He. apply impacted_id, H. by eapply list_elem_of_lookup_2. Qed.

Lemma counts_add (D : list edge) d : ∀ l, foldl (λ m e, bump (e_Type (entity_of g (ed_other e))) m) (counts_of l) D = counts_of (l ++ (im_Type <$> (impacted_by d <$> D))).
Proof.
  induction D as [|e D IH]; intros l; simpl; [by rewrite app_nil_r|]. rewrite -counts_of_snoc IH -(assoc_L app). done.
Qed.

(** What one round discovers. *)
Lemma round_edge d b e : blasted d b → e ∈ discover ed_other (bl_visited b) (spread (bl_next b)) →
  is_Some (live g !! ed_other e) ∧ first_at (S d) (ed_other e) ∧ ∃ a, first_at d a ∧ impact_step g a (ed_rel e) (ed_other e).
Proof.
  intros [V F _ _ _ _ _] [He Hn]%discover_elem. destruct (proj1 (spread_elem (bl_next b) (ed_other e) (ed_rel e))) as (a & Ha & Hs); [by exists e|].
  split; [by destruct Hs as (_ & ? & _)|]. apply F in Ha. split; [|by exists a]. split.
  - apply away_S. exists a, (ed_rel e). by destruct Ha.
  - intros k Hk Hka. apply Hn, V. exists k. split; [lia|done].
Qed.

Lemma round_all d b x : blasted d b → first_at (S d) x → x ∈ ed_other <$> discover ed_other (bl_visited b) (spread (bl_next b)).
Proof.
  intros [V F _ _ _ _ _] Hx. apply discover_keys. split.
  - destruct (Hx) as [(a & r & Ha & Hs)%away_S _]. destruct (proj2 (spread_elem (bl_next b) x r)) as (e & He & <- & _).
    { exists a. split; [|done]. apply F. by eapply first_S. }
    by apply list_elem_of_fmap_2.
  - intros (n & Hn & Ha)%V. destruct Hx as [_ Hmin]. apply (Hmin n); [lia|done].
Qed.

Lemma blasted_S d b : blasted d b →
  blasted (S d) (foldl (blast_entity g (Z.of_nat (S d))) (mkBlast (bl_visited b) [] (bl_impacted b) (bl_counts b)) (bl_next b)).
Proof.
  intros Hb. rewrite blast_frontier. unfold blast_add. cbn [bl_visited bl_next bl_impacted bl_counts]. rewrite app_nil_l.
  set (D := discover ed_other (bl_visited b) (spread (bl_next b))).
  assert (∀ e, e ∈ D → is_Some (live g !! ed_other e)) as Hlive by (intros e He; by apply (round_edge d b)).
  assert (∀ x, x ∈ ed_other <$> D ↔ first_at (S d) x) as HD.
  { intros x. split; [|by apply round_all]. intros (e & -> & He)%list_elem_of_fmap. by apply (round_edge d b). }
  pose proof Hb as [V F E A O K C]. split; cbn [bl_visited bl_next bl_impacted bl_counts].
  - intros x. rewrite elem_of_union elem_of_list_to_set HD V. split.
    + intros [[? _]|(n & ? & ?)]; [by exists (S d)|]. exists n. split; [lia|done].
    + intros (n & Hn & Ha). destruct (decide (x ∈ bl_visited b)) as [?%V|Hnone]; [by right|].
      left. assert (∀ k, (k ≤ d)%nat → ¬ away k x) as Hk by (intros k Hk Hak; apply Hnone, V; eauto).
      split; [|intros k ?; apply Hk; lia]. destruct (decide (n = S d)) as [->|]; [done|]. destruct (Hk n); [lia|done].
  - done.
  - intros i [[Hi Hd]%E|(e & -> & He)%list_elem_of_fmap]%elem_of_app; [split; [done|lia]|]. split; [|simpl; lia].
    destruct (round_edge d b e Hb He) as ([x Hx] & Hf & a & Ha & Hs). exists d, (ed_other e), x, a, (ed_rel e). unfold impacted_by. simpl.
    rewrite (entity_of_live _ _ _ Hx). done.
  - intros n x Hn Hf. rewrite fmap_app elem_of_app (impacted_ids _ _ Hlive) HD. destruct (decide (n = d)) as [->|]; [by right|left].
    apply (A n); [lia|done].
  - rewrite fmap_app (impacted_ids _ _ Hlive). apply NoDup_app. split_and!; [done| |apply discover_NoDup].
    intros x Hx%K (_ & Hn)%discover_keys. done.
  - intros x. rewrite fmap_app elem_of_app (impacted_ids _ _ Hlive) elem_of_union elem_of_list_to_set. intros [?%K|?]; [by right|by left].
  - by rewrite C (counts_add _ (Z.of_nat (S d))) fmap_app.
Qed.

Lemma blasted_stop d j b : blasted d b → bl_next b = [] → (d ≤ j)%nat → blasted j b.
Proof.
  intros Hb Hn Hj. assert (∀ j x, (d ≤ j)%nat → ¬ first_at j x) as Hnone.
  { intros k x Hk. revert x. induction Hk as [|k Hk IH]; intros x Hx.
    - apply (ba_next _ _ Hb) in Hx. rewrite Hn in Hx. by apply elem_of_nil in Hx.
    - destruct (Hx) as [(a & r & Ha & Hs)%away_S _]. apply (IH a). by eapply first_S. }
  assert (∀ n x, away n x → ∃ k, (k ≤ d)%nat ∧ away k x) as Hnear.
  { intros n x. induction n as [n IH] using lt_wf_ind. intros Ha. destruct (decide (n ≤ d)%nat); [by exists n|].
    destruct (decide (x ∈ bl_visited b)) as [Hv|Hv]; [by apply (ba_visited _ _ Hb)|]. exfalso. apply (Hnone n x); [lia|]. split; [done|].
    intros k Hk Hka. apply Hv, (ba_visited _ _ Hb). by apply (IH k). }
  destruct Hb as [V F E A O K C]. split; try done.
  - intros x. rewrite V. split; [intros (n & ? & ?); exists n; split; [lia|done]|]. intros (n & _ & Ha). by apply (Hnear n).
  - intros x. rewrite Hn. split; [by intros ?%elem_of_nil|]. intros Hx. by destruct (Hnone j x).
  - intros i [Hi Hd]%E. split; [done|lia].
  - intros n x Hnj Hx. destruct (decide (S n ≤ d)%nat); [by apply (A n)|]. destruct (Hnone (S n) x); [lia|done].
Qed.

Lemma blast_rounds_spec k : ∀ d b, blasted d b → blasted (d + k) (blast_rounds g k (Z.of_nat (S d)) b).
Proof.
  induction k as [|k IH]; intros d b Hb; simpl blast_rounds; [by rewrite Nat.add_0_r|].
  destruct (bl_next b) as [|x l] eqn:Hn; [apply (blasted_stop d); [done..|lia]|]. rewrite -Nat.add_succ_comm.
  replace (Z.of_nat (S d) + 1) with (Z.of_nat (S (S d))) by lia. apply IH. pose proof (blasted_S d b Hb) as H. by rewrite Hn in H.
Qed.
End impact.

Lemma impacted_le_spec x y : impacted_le x y = true ↔
  im_Depth x < im_Depth y ∨ im_Depth x = im_Depth y ∧ str_le (eo_Label (im_Entity x)) (eo_Label (im_Entity y)).
Proof.
  unfold impacted_le. destruct (Z.eqb_spec (im_Depth x) (im_Depth y)); rewrite ?bool_decide_eq_true ?Z.ltb_lt; split; try tauto; intros [|[]]; done || lia.
Qed.
Lemma impacted_le_total x y : impacted_le x y = true ∨ impacted_le y x = true.
Proof.
  rewrite !impacted_le_spec. destruct (total str_le (eo_Label (im_Entity x)) (eo_Label (im_Entity y)));
    destruct (Z.lt_trichotomy (im_Depth x) (im_Depth y)) as [|[|]]; auto.
Qed.
Lemma impacted_le_trans x y z : impacted_le x y = true → impacted_le y z = true → impacted_le x z = true.
Proof. rewrite !impacted_le_spec. intros [|[? ?]] [|[? ?]]; [left; lia..|right]. split; [lia|by etrans]. Qed.

(** The canonical group of an entity, and what a tool takes for a live entity's handle. *)
Definition in_group (g : Graph) (threshold : float64) (root x : EntityID) : Prop := rtc (alias_edge g threshold) root x.
Lemma members_group g threshold root : wf g →
  NoDup (canonicalMemberIDs g threshold root) ∧ ∀ x, x ∈ canonicalMemberIDs g threshold root ↔ in_group g threshold root x.
Proof. intros Hwf. unfold canonicalMemberIDs, walk, in_group. apply (@walk_members Graph projection_walk projection_walk_laws g threshold Hwf root (S (size (projection_nodes g)))), Nat.lt_succ_diag_r. Qed.
Definition live_handle (g : Graph) (handle : string) (root : EntityID) (e : Entity) : Prop :=
  ResolveHandle g handle = Some root ∧ live g !! root = Some e.

Lemma blast_exact g threshold root (depth : Z) : wf g → blasted g (canonicalMemberIDs g threshold root) (Z.to_nat depth) (blast g threshold root depth).
Proof. intros Hwf. apply (blast_rounds_spec g Hwf _ (Z.to_nat depth) 0). by apply blasted_0. Qed.

Lemma clampLimit_pos l : 0 < clampLimit l ≤ maxLimit.
Proof. unfold clampLimit, defaultLimit, maxLimit. destruct (Z.leb_spec l 0); [lia|]. destruct (Z.ltb_spec 200 l); lia. Qed.
Lemma clampDepth_range d : 0 < clampDepth d ≤ maxPathDepth.
Proof. unfold clampDepth, maxPathDepth. destruct (Z.leb_spec d 0); simpl; [lia|]. destruct (Z.ltb_spec 10 d); lia. Qed.

(** C20. impact_of answers exactly the blast radius. It refuses a missing id and a handle of
    no live entity, and nothing else. Otherwise the origin is the canonical group of the
    entity; the answer lists, each once, the live entities outside the group that a failure
    reaches in at most the clamped depth, at their least number of propagation steps and
    with the type of a last step of such a path; nearest first and then by label, cut to the
    clamped limit, with the total, the flag and the counts per type of the whole. *)
Theorem impact_is_exact (g : Graph) (threshold : float64) (i : ImpactOfInput) (Hwf : wf g) :
  match impactOf g threshold i with
  | inl EntityIDRequired => ii_EntityID i = ""%string
  | inl (NoLiveEntity h) => h = ii_EntityID i ∧ ¬ ∃ root e, live_handle g h root e
  | inl EndpointsRequired => False
  | inr out => ∃ root e group all,
    live_handle g (ii_EntityID i) root e ∧ io_Root out = entityOut e false ∧
    NoDup group ∧ (∀ x, x ∈ group ↔ in_group g threshold root x) ∧ io_Aliases out = Z.of_nat (length group) - 1 ∧
    NoDup (im_ID <$> all) ∧ StronglySorted (λ x y, impacted_le x y = true) all ∧
    (∀ j, j ∈ all → entry g group j ∧ im_Depth j <= clampDepth (ii_MaxDepth i)) ∧
    (∀ n x, Z.of_nat (S n) <= clampDepth (ii_MaxDepth i) → first_at g group (S n) x → x ∈ im_ID <$> all) ∧
    io_Impacted out = take (Z.to_nat (clampLimit (ii_Limit i))) all ∧ io_Total out = Z.of_nat (length all) ∧
    (io_Truncated out = true ↔ (length (io_Impacted out) < length all)%nat) ∧
    StronglySorted count_le (io_ByType out) ∧
    ∀ t c, mkTypeCount t c ∈ io_ByType out ↔ 0 < c ∧ c = occurrences t (im_Type <$> all)
  end.
Proof.
  unfold impactOf. case_bool_decide as He; [done|]. destruct (ResolveHandle g (ii_EntityID i)) as [root|] eqn:Hres;
    [|split; [done|]; intros (? & ? & Hh & _); by rewrite Hres in Hh].
  destruct (is_live g root) eqn:Hl; cbn [negb];
    [|split; [done|]; intros (r & e & Hh & Hle); rewrite Hres in Hh; injection Hh as ->; assert (is_live g r = true) as Ht by (apply is_live_spec; by rewrite Hle); by rewrite Hl in Ht].
  apply is_live_spec in Hl as [e Hle]. destruct (members_group g threshold root Hwf) as [Hnd Hgroup].
  pose proof (blast_exact g threshold root (clampDepth (ii_MaxDepth i)) Hwf) as [V F E A O K C].
  pose proof (clampDepth_range (ii_MaxDepth i)) as Hd. pose proof (clampLimit_pos (ii_Limit i)) as Hlim.
  set (b := blast _ _ _ _) in *. pose proof (sort_stable_perm impacted_le (bl_impacted b)) as Hp. fold (sortImpacted (bl_impacted b)) in Hp.
  exists root, e, (canonicalMemberIDs g threshold root), (sortImpacted (bl_impacted b)). cbn [io_Root io_Impacted io_Total io_Truncated io_ByType io_Aliases].
  rewrite (entity_of_live _ _ _ Hle). do 2 (split; [done|]). split; [exact Hnd|]. split; [exact Hgroup|]. split; [done|]. split; [by rewrite Hp|].
  split; [apply sort_stable_sorted; [apply impacted_le_total|apply impacted_le_trans]|].
  split; [intros j Hj; rewrite Hp in Hj; apply E in Hj as [? ?]; split; [done|lia]|].
  split; [intros n x Hn Hx; rewrite Hp; apply (A n); [lia|done]|]. do 2 (split; [done|]).
  split; [rewrite length_take Z.ltb_lt; lia|]. destruct (sortedCounts_spec (bl_counts b)) as [Hs Hc]. split; [exact Hs|].
  intros t c. rewrite Hc C counts_of_spec (occurrences_perm t (im_Type <$> sortImpacted _) (im_Type <$> bl_impacted b)); [done|by rewrite Hp].
Qed.
