(* ===== verification/PathSpec.v ===== *)
(** * What find_path answers

    A path found is a lawful one, no longer than any lawful path whose waypoints may be
    left by any type; when there is none within the depth the answer says so, and what it
    lists as convergences is reached from both ends. *)
From S2P Require Import Prelude GoStd Values Vocabulary Entities Events DisplayNames Observations Aliases Projection ProjectionInv ProjectionSpec Canonical Traverse TraverseSpec.
Open Scope Z_scope.

Definition terminal_type (g : Graph) (x : EntityID) : bool :=
  match (GetEntity g x).1 with Some e => IsTerminalEntityType (e_Type e) | None => false end.
Definition crossing_type (g : Graph) (x : EntityID) : bool :=
  match (GetEntity g x).1 with Some e => CrossingNeedsADifferentRelation (e_Type e) | None => false end.

Section lawful.
Context (g : Graph) (threshold : float64) (relType : string) (start : EntityID).

(** A path may leave [cur], where it arrived by [a], along [e]: a terminal only by its own
    edge, a crossing only by another type, and an alias only when believed. *)
Definition leaves (cur : EntityID) (a : string) (e : edge) : Prop :=
  (cur ≠ start → (terminal_type g cur = true → ed_direction e = "outgoing"%string) ∧
                 (crossing_type g cur = true → a ≠ ""%string → r_Type (ed_rel e) ≠ a)) ∧
  (r_Type (ed_rel e) = RelSameAs → believed threshold (ed_rel e) = true).

(** From [cur], arrived at by [a], the edges lead to [x]. *)
Fixpoint lawful (cur : EntityID) (a : string) (es : list edge) (x : EntityID) : Prop :=
  match es with
  | [] => cur = x
  | e :: es => e ∈ edgesOf g cur relType ∧ leaves cur a e ∧ lawful (ed_other e) (r_Type (ed_rel e)) es x
  end.
(** Its waypoints may be left by the type they were reached by. *)
Fixpoint plain (cur : EntityID) (es : list edge) : Prop :=
  match es with
  | [] => True
  | e :: es => (cur = start ∨ crossing_type g cur = false) ∧ plain (ed_other e) es
  end.

#[export] Instance edge_eq_dec : EqDecision edge.
Proof. solve_decision. Defined.
#[export] Instance leaves_dec cur a e : Decision (leaves cur a e).
Proof. unfold leaves. apply _. Defined.
#[export] Instance lawful_dec : ∀ es cur a x, Decision (lawful cur a es x).
Proof. induction es as [|e es IH]; intros cur a x; simpl; apply _. Defined.

Definition arrival (a : string) (es : list edge) : string := foldl (λ _ e, r_Type (ed_rel e)) a es.

Lemma lawful_snoc es : ∀ cur a x e, lawful cur a es x → e ∈ edgesOf g x relType → leaves x (arrival a es) e → lawful cur a (es ++ [e]) (ed_other e).
Proof.
  induction es as [|e' es IH]; intros cur a x e Hl He Hv; simpl in *; [by subst|].
  destruct Hl as (? & ? & ?). split_and!; [done..|]. by apply (IH _ _ x).
Qed.

(** Reached by a plain path of so many edges. *)
Inductive plain_to : nat → EntityID → Prop :=
| plain_start : plain_to 0 start
| plain_step j x e : plain_to j x → (x = start ∨ crossing_type g x = false) → e ∈ edgesOf g x relType → leaves x "" e → plain_to (S j) (ed_other e).

Lemma leaves_plain x a b e : x = start ∨ crossing_type g x = false → leaves x a e → leaves x b e.
Proof. intros Hx [H1 H2]. split; [|done]. intros Hne. destruct (H1 Hne) as [Ht Hc]. split; [done|]. intros Hcr. destruct Hx; congruence. Qed.

Lemma lawful_plain_to es : ∀ j cur a x, plain_to j cur → lawful cur a es x → plain cur es → plain_to (j + length es) x.
Proof.
  induction es as [|e es IH]; intros j cur a x Hj Hl Hp; simpl in *; [by rewrite Nat.add_0_r -Hl|].
  destruct Hl as (He & Hv & Hl), Hp as [Hc Hp]. rewrite Nat.add_succ_r -Nat.add_succ_l. eapply IH; [|exact Hl|exact Hp].
  eapply plain_step; [exact Hj|done|done|by eapply leaves_plain].
Qed.

(** ** The parents of a walk *)

Definition arr (parents : gmap string cameFrom) (x : EntityID) : string :=
  match parents !! x with Some c => r_Type (ed_rel (cf_via c)) | None => "" end.

(** The parents lead from the start to an entity along these edges. *)
Inductive trail (parents : gmap string cameFrom) : list edge → EntityID → Prop :=
| trail_start : trail parents [] start
| trail_step es x c : x ≠ start → parents !! x = Some c → ed_other (cf_via c) = x → cf_via c ∈ edgesOf g (cf_prev c) relType →
    leaves (cf_prev c) (arr parents (cf_prev c)) (cf_via c) → trail parents es (cf_prev c) → trail parents (es ++ [cf_via c]) x.

Definition rooted (parents : gmap string cameFrom) : Prop := parents !! start = Some (mkCameFrom "" zero_edge).

Lemma trail_known parents es x : rooted parents → trail parents es x → is_Some (parents !! x).
Proof. intros Hr. destruct 1; [by rewrite Hr|eauto]. Qed.

Lemma trail_mono parents parents' es x : rooted parents → parents ⊆ parents' → trail parents es x → trail parents' es x.
Proof.
  intros Hr Hsub. induction 1 as [|es x c Hx Hc Ho He Hl Ht IH]; [constructor|]. destruct (trail_known _ _ _ Hr Ht) as [c' Hc'].
  apply trail_step; try done; [by eapply lookup_weaken|]. unfold arr in *. rewrite Hc' in Hl. by rewrite (lookup_weaken _ _ _ _ Hc' Hsub).
Qed.

Lemma trail_lawful parents es x : rooted parents → trail parents es x → lawful start "" es x ∧ arrival "" es = arr parents x.
Proof.
  intros Hr. induction 1 as [|es x c Hx Hc Ho He Hl Ht IH]; [split; [done|]; by rewrite /arr Hr|]. destruct IH as [IH Ha]. split.
  - rewrite -Ho. apply (lawful_snoc _ _ _ (cf_prev c)); [done..|by rewrite Ha].
  - unfold arrival. rewrite foldl_app /=. by rewrite /arr Hc.
Qed.

Lemma trail_det parents es x : trail parents es x → ∀ es', trail parents es' x → es = es'.
Proof.
  induction 1 as [|es x c Hx Hc Ho He Hl Ht IH]; intros es' H'; inversion H'; subst; try done. simplify_eq. f_equal. by apply IH.
Qed.

(** The entities on a trail, and that none is passed twice. *)
Definition stops (es : list edge) : list EntityID := start :: (ed_other <$> es).
Lemma trail_prefix parents es x : trail parents es x → ∀ y, y ∈ stops es → ∃ es1, trail parents es1 y ∧ (length es1 ≤ length es)%nat.
Proof.
  induction 1 as [|es x c Hx Hc Ho He Hl Ht IH]; intros y Hy.
  - apply list_elem_of_singleton in Hy as ->. exists []. split; [constructor|done].
  - unfold stops in *. rewrite fmap_app elem_of_cons elem_of_app list_elem_of_singleton in Hy. rewrite length_app /=.
    destruct Hy as [Hy|[Hy|Hy]].
    + destruct (IH y) as (es1 & ? & ?); [apply elem_of_cons; by left|]. exists es1. split; [done|lia].
    + destruct (IH y) as (es1 & ? & ?); [apply elem_of_cons; by right|]. exists es1. split; [done|lia].
    + subst y. rewrite Ho. exists (es ++ [cf_via c])%list. split; [by apply trail_step|]. rewrite length_app /=. lia.
Qed.
Lemma trail_NoDup parents es x : trail parents es x → NoDup (stops es).
Proof.
  intros Ht. pose proof Ht as Hall. induction Ht as [|es x c Hx Hc Ho He Hl Ht IH]; [apply NoDup_singleton|].
  assert (stops (es ++ [cf_via c]) = stops es ++ [x])%list as -> by (unfold stops; rewrite fmap_app /= Ho //).
  apply NoDup_app. split_and!; [by apply IH| |apply NoDup_singleton]. intros y Hy ->%list_elem_of_singleton.
  destruct (trail_prefix _ _ _ Ht x Hy) as (es1 & H1 & Hlen). pose proof (trail_det _ _ _ Hall _ H1) as <-. rewrite length_app /= in Hlen. lia.
Qed.

(** Climbing the parents gives the trail back. *)
Definition hop_of (e : edge) : PathHop := mkPathHop (entityOut (entity_of g (ed_other e)) false) (r_Type (ed_rel e)) (ed_direction e).
Lemma climb_trail parents es x : trail parents es x → ∀ fuel, (length es ≤ fuel)%nat →
  reverse (climb g start fuel parents x) = mkPathHop (entityOut (entity_of g start) false) "" "" :: (hop_of <$> es).
Proof.
  induction 1 as [|es x c Hx Hc Ho He Hl Ht IH]; intros fuel Hf.
  - destruct fuel; simpl; rewrite bool_decide_eq_true_2 //.
  - rewrite length_app /= in Hf. destruct fuel as [|fuel]; [lia|]. simpl. rewrite bool_decide_eq_false_2 // Hc /= reverse_cons IH; [|lia].
    rewrite fmap_app /=. unfold hop_of. by rewrite Ho.
Qed.
End lawful.

(** ** One entity's edges *)

Section walk.
Context (g : Graph) (threshold : float64) (relType : string) (start goal : EntityID).
#[local] Abbreviation leaves := (leaves g threshold start).
#[local] Abbreviation trail := (trail g threshold relType start).
#[local] Abbreviation rooted := (rooted start).

(** Where an edge may be refused. *)
Definition stopping (x : EntityID) : Prop := x ≠ start ∧ (terminal_type g x = true ∨ crossing_type g x = true).

Lemma terminal_at_spec x : terminal_at g start x = true ↔ x ≠ start ∧ terminal_type g x = true.
Proof. unfold terminal_at, terminal_type. rewrite andb_true_iff negb_true_iff bool_decide_eq_false. destruct (GetEntity g x).1; naive_solver. Qed.
Lemma arrived_by_spec w x t : arrived_by g start w x = t → t ≠ ""%string → x ≠ start ∧ crossing_type g x = true ∧ arr (pw_parents w) x = t.
Proof. unfold arrived_by, crossing_type, arr. case_bool_decide; [by intros <-|]. destruct (GetEntity g x).1; [|by intros <-]. destruct (CrossingNeedsADifferentRelation _); [done|by intros <-]. Qed.
Lemma arrived_by_crossing w x : x ≠ start → crossing_type g x = true → arrived_by g start w x = arr (pw_parents w) x.
Proof. unfold arrived_by, crossing_type, arr. intros Hx. rewrite bool_decide_eq_false_2 //. destruct (GetEntity g x).1; [|done]. by intros ->. Qed.

(** An edge is refused, with or without a trace, or the entity may be left by it. *)
Lemma edge_cases w0 cur e w : let term := terminal_at g start cur in let ab := arrived_by g start w0 cur in
  (∃ w', pw_parents w' = pw_parents w ∧ pw_found w' = pw_found w ∧ (∀ x, x ∈ pw_terminals w' → x ∈ pw_terminals w ∨ (x = cur ∧ stopping x)) ∧
     (∀ es next, follow_edges threshold goal cur term ab (e :: es) w next = follow_edges threshold goal cur term ab es w' next) ∧
     ¬ leaves cur (arr (pw_parents w0) cur) e) ∨
  (leaves cur (arr (pw_parents w0) cur) e ∧
   ∀ es next, follow_edges threshold goal cur term ab (e :: es) w next =
     if bool_decide (is_Some (pw_parents w !! ed_other e)) then follow_edges threshold goal cur term ab es w next
     else let parents := <[ed_other e := mkCameFrom cur e]> (pw_parents w) in
       if bool_decide (ed_other e = goal) then (mkPathWalk parents (pw_terminals w) true, next)
       else follow_edges threshold goal cur term ab es (mkPathWalk parents (pw_terminals w) (pw_found w)) (next ++ [ed_other e])).
Proof.
  cbn zeta. pose proof (terminal_at_spec cur) as Ht. pose proof (arrived_by_spec w0 cur _ eq_refl) as Ha. pose proof (arrived_by_crossing w0 cur) as Hc.
  set (term := terminal_at g start cur) in *. set (ab := arrived_by g start w0 cur) in *.
  destruct (term && negb (bool_decide (ed_direction e = "outgoing"%string))) eqn:H1.
  { left. exists (refuse cur w). apply andb_true_iff in H1 as [Htm Hd]. pose proof Htm as [? ?]%Ht. split_and!; [done|done| | |].
    - intros x. unfold refuse. simpl. rewrite elem_of_union elem_of_singleton. intros [->|?]; [|by left]. right. split; [done|]. split; [done|by left].
    - intros es next. simpl. by rewrite Htm Hd.
    - intros [Hx _]. destruct Hx as [Hx _]; [done|]. apply negb_true_iff, bool_decide_eq_false in Hd. by apply Hd, Hx. }
  destruct (negb (bool_decide (ab = ""%string)) && bool_decide (r_Type (ed_rel e) = ab)) eqn:H2.
  { left. exists (refuse cur w). pose proof H2 as [Hab%negb_true_iff%bool_decide_eq_false Hty%bool_decide_eq_true]%andb_true_iff.
    destruct (Ha Hab) as (? & ? & Harr). split_and!; [done|done| | |].
    - intros x. unfold refuse. simpl. rewrite elem_of_union elem_of_singleton. intros [->|?]; [|by left]. right. split; [done|]. split; [done|by right].
    - intros es next. simpl. by rewrite H1 H2.
    - intros [Hx _]. destruct Hx as [_ Hx]; [done|]. rewrite Harr in Hx. by apply Hx. }
  destruct (bool_decide (r_Type (ed_rel e) = RelSameAs) && negb (believed threshold (ed_rel e))) eqn:H3.
  { left. exists w. split_and!; [done|done|by left| |].
    - intros es next. simpl. by rewrite H1 H2 H3.
    - intros [_ Hx]. apply andb_true_iff in H3 as [Hs%bool_decide_eq_true Hb%negb_true_iff]. rewrite Hx in Hb; done. }
  right. split; [|intros es next; simpl; by rewrite H1 H2 H3]. split.
  - intros Hne. split.
    + intros Htm. assert (term = true) as Htt by (by apply Ht). rewrite Htt /= in H1. by apply negb_false_iff, bool_decide_eq_true in H1.
    + intros Hcr Hn He. rewrite -(Hc Hne Hcr) in Hn He. fold ab in Hn, He. rewrite bool_decide_eq_false_2 // bool_decide_eq_true_2 // in H2.
  - intros Hs. rewrite bool_decide_eq_true_2 //= in H3. by apply negb_false_iff in H3.
Qed.

(** What following some edges out of known entities does, up to the discovery of the goal. *)
Record followed (todo : EntityID → edge → Prop) (w : pathWalk) (next : list EntityID) (w' : pathWalk) (next' : list EntityID) : Prop := {
  fw_sub : pw_parents w ⊆ pw_parents w';
  fw_new : ∀ x c, pw_parents w' !! x = Some c → pw_parents w !! x = None →
    todo (cf_prev c) (cf_via c) ∧ ed_other (cf_via c) = x ∧ leaves (cf_prev c) (arr (pw_parents w) (cf_prev c)) (cf_via c);
  fw_next : pw_found w' = false → ∀ x, x ∈ next' ↔ x ∈ next ∨ (is_Some (pw_parents w' !! x) ∧ pw_parents w !! x = None);
  fw_closed : pw_found w' = false → ∀ cur e, todo cur e → leaves cur (arr (pw_parents w) cur) e → is_Some (pw_parents w' !! ed_other e);
  fw_found : pw_found w' = true ↔ is_Some (pw_parents w' !! goal);
  fw_terms : ∀ x, x ∈ pw_terminals w' → x ∈ pw_terminals w ∨ (stopping x ∧ ∃ e, todo x e);
}.
(** A walk that goes on. *)
Definition going (w : pathWalk) : Prop := pw_found w = false ∧ pw_parents w !! goal = None.

Lemma followed_ext (todo todo' : EntityID → edge → Prop) w next w' next' : (∀ c e, todo c e ↔ todo' c e) → followed todo w next w' next' → followed todo' w next w' next'.
Proof.
  intros H [S N X C F T]. split; try done.
  - intros x c H1 H2. destruct (N x c H1 H2) as (? & ? & ?). split; [by apply H|done].
  - intros Hf cur e Ht. apply (C Hf cur e). by apply H.
  - intros x [?|[? [e ?%H]]]%T; [by left|right]. split; [done|by exists e].
Qed.

Lemma followed_nil (todo : EntityID → edge → Prop) w next : going w → (∀ c e, ¬ todo c e) → followed todo w next w next.
Proof.
  intros [Hf Hg] H. split; [done|intros x c H1 H2; by rewrite H1 in H2| |by intros _ c e ?%H| |by left].
  - intros _ x. split; [by left|]. intros [?|[[c Hc] Hn]]; [done|by rewrite Hc in Hn].
  - rewrite Hf Hg. split; [done|by intros []].
Qed.

Lemma arr_sub (P Q : gmap string cameFrom) x : is_Some (P !! x) → P ⊆ Q → arr Q x = arr P x.
Proof. intros [c Hc] Hs. by rewrite /arr Hc (lookup_weaken _ _ _ _ Hc Hs). Qed.

Lemma followed_trans (todo1 todo2 : EntityID → edge → Prop) w next w1 next1 w2 next2 :
  (∀ c e, todo1 c e ∨ todo2 c e → is_Some (pw_parents w !! c)) →
  followed todo1 w next w1 next1 → pw_found w1 = false → followed todo2 w1 next1 w2 next2 →
  followed (λ c e, todo1 c e ∨ todo2 c e) w next w2 next2.
Proof.
  intros Hk [S1 N1 X1 C1 F1 T1] Hf [S2 N2 X2 C2 F2 T2]. assert (∀ c e, todo2 c e → arr (pw_parents w1) c = arr (pw_parents w) c) as Harr.
  { intros c e H. apply arr_sub; [|done]. apply (Hk c e). by right. }
  split.
  - by etrans.
  - intros x c H2 H0. destruct (pw_parents w1 !! x) as [c1|] eqn:H1.
    + pose proof (lookup_weaken _ _ _ _ H1 S2) as H3. rewrite H2 in H3. injection H3 as ->. destruct (N1 x c1 H1 H0) as (? & ? & ?). split; [by left|done].
    + destruct (N2 x c H2 H1) as (Ht & ? & Hl). rewrite (Harr _ _ Ht) in Hl. split; [by right|done].
  - intros Hf2 x. rewrite (X2 Hf2) (X1 Hf). destruct (pw_parents w1 !! x) as [c1|] eqn:H1.
    + rewrite (lookup_weaken _ _ _ _ H1 S2). split; [intros [[?|[_ ?]]|[_ ?]]; [by left|by right; split; [eauto|]|done]|]. intros [?|[_ ?]]; [by left; left|left; right; eauto].
    + split; [intros [[?|[[] _]]|[? _]]; [by left|done|right]|intros [?|[? ?]]; [by left; left|by right]]. split; [done|].
      destruct (pw_parents w !! x) as [c|] eqn:H0; [|done]. by rewrite (lookup_weaken _ _ _ _ H0 S1) in H1.
  - intros Hf2 c e [Ht|Ht] Hl.
    + destruct (C1 Hf c e Ht Hl) as [c1 H1]. rewrite (lookup_weaken _ _ _ _ H1 S2). eauto.
    + apply (C2 Hf2 c e Ht). by rewrite (Harr _ _ Ht).
  - done.
  - intros x [[?|[? [e ?]]]%T1|[? [e ?]]]%T2; [by left|right; eauto|right; eauto].
Qed.

(** Recording one more entity. *)
Lemma followed_one w (next next' : list EntityID) cur e (goes : bool) : going w → pw_parents w !! ed_other e = None → leaves cur (arr (pw_parents w) cur) e →
  (goes = true ↔ ed_other e = goal) → (goes = false → next' = (next ++ [ed_other e])%list) →
  followed (λ c e', c = cur ∧ e' = e) w next (mkPathWalk (<[ed_other e := mkCameFrom cur e]> (pw_parents w)) (pw_terminals w) goes) next'.
Proof.
  intros [Hf Hg] Hnew Hl Hgoes Hnext. split; cbn [pw_parents pw_terminals pw_found].
  - by apply insert_subseteq.
  - intros x c [[<- <-]|[_ Hx]]%lookup_insert_Some Hx0; [done|by rewrite Hx in Hx0].
  - intros Hg' x. rewrite (Hnext Hg') elem_of_app list_elem_of_singleton. destruct (decide (x = ed_other e)) as [->|Hne].
    + rewrite lookup_insert_eq. naive_solver.
    + rewrite lookup_insert_ne //. split; [naive_solver|]. intros [?|[Hx Hx']]; [by left|]. rewrite Hx' in Hx. by destruct Hx.
  - intros _ c e' [-> ->] _. rewrite lookup_insert_eq. eauto.
  - rewrite Hgoes. destruct (decide (ed_other e = goal)) as [<-|Hne]; [rewrite lookup_insert_eq|rewrite lookup_insert_ne // Hg]; split; eauto; [done|by intros []].
  - by left.
Qed.

(** Nothing to record: the edge is refused, or leads to a known entity. *)
Lemma followed_skip w w1 next cur e : going w → pw_parents w1 = pw_parents w → pw_found w1 = pw_found w →
  (∀ x, x ∈ pw_terminals w1 → x ∈ pw_terminals w ∨ (x = cur ∧ stopping x)) →
  (leaves cur (arr (pw_parents w) cur) e → is_Some (pw_parents w !! ed_other e)) →
  followed (λ c e', c = cur ∧ e' = e) w next w1 next.
Proof.
  intros [Hf Hg] Hp Hf1 Ht Hl. split; rewrite ?Hp.
  - done.
  - intros x c H1 H2. by rewrite H1 in H2.
  - intros _ x. split; [by left|]. intros [?|[[c Hc] Hn]]; [done|by rewrite Hc in Hn].
  - by intros _ c e' [-> ->].
  - rewrite Hf1 Hf Hg. split; [done|by intros []].
  - intros x [?|[-> ?]]%Ht; [by left|right]. split; [done|by exists e].
Qed.

Lemma followed_more (todo todo' : EntityID → edge → Prop) w next w' next' : pw_found w' = true → (∀ c e, todo c e → todo' c e) →
  followed todo w next w' next' → followed todo' w next w' next'.
Proof.
  intros Hf H [S N X C F T]. split; try done; try (by rewrite Hf).
  - intros x c H1 H2. destruct (N x c H1 H2) as (? & ? & ?). split; [by apply H|done].
  - intros x [?|[? [e ?%H]]]%T; [by left|right]. split; [done|by exists e].
Qed.

Lemma followed_going (todo : EntityID → edge → Prop) w next w' next' : followed todo w next w' next' → pw_found w' = false → going w'.
Proof. intros [S N X C F T] Hf. split; [done|]. destruct (pw_parents w' !! goal) eqn:Hg; [|done]. by rewrite (proj2 F) in Hf. Qed.

Lemma follow_edges_followed w0 cur es : is_Some (pw_parents w0 !! cur) → ∀ w next, going w → pw_parents w0 ⊆ pw_parents w →
  let '(w', next') := follow_edges threshold goal cur (terminal_at g start cur) (arrived_by g start w0 cur) es w next in
  followed (λ c e, c = cur ∧ e ∈ es) w next w' next'.
Proof.
  intros Hcur. induction es as [|e es IH]; intros w next Hw Hsub; [apply followed_nil; [done|by intros c e [_ ?%elem_of_nil]]|].
  pose proof (arr_sub _ _ cur Hcur Hsub) as Harr.
  assert (∀ w1 next1, followed (λ c e', c = cur ∧ e' = e) w next w1 next1 → pw_found w1 = false →
    let '(w', next') := follow_edges threshold goal cur (terminal_at g start cur) (arrived_by g start w0 cur) es w1 next1 in
    followed (λ c e', c = cur ∧ e' ∈ e :: es) w next w' next') as Hgo.
  { intros w1 next1 H1 Hf1. specialize (IH w1 next1 (followed_going _ _ _ _ _ H1 Hf1)).
    destruct (follow_edges _ _ _ _ _ es w1 next1) as [w' next']. eapply followed_ext; [|refine (followed_trans _ _ _ _ _ _ _ _ _ H1 Hf1 (IH _))].
    - intros c e'. cbn. rewrite elem_of_cons. tauto.
    - intros c e' Hc. assert (c = cur) as -> by tauto. destruct Hcur as [c0 H0]. rewrite (lookup_weaken _ _ _ _ H0 Hsub). eauto.
    - etrans; [done|apply (fw_sub _ _ _ _ _ H1)]. }
  destruct (edge_cases w0 cur e w) as [(w1 & Hp & Hf & Ht & Hstep & Hno)|[Hl Hstep]]; rewrite Hstep.
  - apply Hgo; [|by rewrite Hf; apply Hw]. apply followed_skip; try done. by rewrite Harr.
  - case_bool_decide as Hs; [apply Hgo; [|apply Hw]; by apply followed_skip; [done..|by left|]|]. rewrite -eq_None_not_Some in Hs. cbv zeta.
    rewrite -Harr in Hl. case_bool_decide as Hg.
    + apply (followed_more (λ c e', c = cur ∧ e' = e)); [done|intros c e' [-> ->]; split; [done|apply elem_of_cons; by left]|].
      by apply followed_one.
    + apply Hgo; [|apply Hw]. destruct Hw as [Hf Hgl]. rewrite Hf. by apply followed_one.
Qed.

Lemma follow_frontier_followed frontier : ∀ w next, going w → (∀ c, c ∈ frontier → is_Some (pw_parents w !! c)) →
  let '(w', next') := follow_frontier g threshold relType start goal frontier w next in
  followed (λ c e, c ∈ frontier ∧ e ∈ edgesOf g c relType) w next w' next'.
Proof.
  induction frontier as [|cur frontier IH]; intros w next Hw Hk; simpl; [apply followed_nil; [done|by intros c e [?%elem_of_nil _]]|].
  assert (is_Some (pw_parents w !! cur)) as Hcur by (apply Hk; apply elem_of_cons; by left).
  pose proof (follow_edges_followed w cur (edgesOf g cur relType) Hcur w next Hw (reflexivity _)) as H1.
  destruct (follow_edges _ _ _ _ _ _ w next) as [w1 next1]. destruct (pw_found w1) eqn:Hf1.
  - apply (followed_more _ _ _ _ _ _ Hf1) with (2 := H1). intros c e [-> ?]. split; [apply elem_of_cons; by left|done].
  - specialize (IH w1 next1 (followed_going _ _ _ _ _ H1 Hf1)). destruct (follow_frontier _ _ _ _ _ frontier w1 next1) as [w' next'].
    eapply followed_ext; [|refine (followed_trans _ _ _ _ _ _ _ _ _ H1 Hf1 (IH _))].
    + intros c e. cbn. rewrite elem_of_cons. naive_solver.
    + intros c e [[-> _]|[? _]]; apply Hk; apply elem_of_cons; [by left|by right].
    + intros c Hc. destruct (Hk c) as [c0 H0]; [apply elem_of_cons; by right|]. rewrite (lookup_weaken _ _ _ _ H0 (fw_sub _ _ _ _ _ H1)). eauto.
Qed.

(** ** The rounds *)

#[local] Abbreviation plain_to := (plain_to g threshold relType start).

(** After [k] rounds that did not find the goal. *)
Record explored (k : nat) (w : pathWalk) (frontier : list EntityID) : Prop := {
  ex_going : going w;
  ex_rooted : rooted (pw_parents w);
  ex_trail : ∀ x, is_Some (pw_parents w !! x) → ∃ es, trail (pw_parents w) es x ∧ (length es ≤ k)%nat;
  ex_frontier : ∀ x, x ∈ frontier → ∃ es, trail (pw_parents w) es x ∧ length es = k;
  ex_closed : ∀ x e, is_Some (pw_parents w !! x) → x ∉ frontier → e ∈ edgesOf g x relType → leaves x (arr (pw_parents w) x) e → is_Some (pw_parents w !! ed_other e);
  ex_plain : ∀ j x, (j ≤ k)%nat → plain_to j x → is_Some (pw_parents w !! x);
  ex_terms : ∀ x, x ∈ pw_terminals w → stopping x ∧ ∃ es, trail (pw_parents w) es x ∧ (length es < k)%nat;
}.

Definition first_walk : pathWalk := mkPathWalk {[start := mkCameFrom "" zero_edge]} ∅ (bool_decide (start = goal)).
Lemma explored_0 : start ≠ goal → explored 0 first_walk [start].
Proof.
  intros Hne. split; cbn [first_walk pw_parents pw_terminals pw_found].
  - split; [by apply bool_decide_eq_false_2|by rewrite lookup_singleton_ne].
  - apply lookup_singleton_eq.
  - intros x [c [<- _]%lookup_singleton_Some]. exists []. split; [constructor|done].
  - intros x ->%list_elem_of_singleton. exists []. split; [constructor|done].
  - intros x e [c [<- _]%lookup_singleton_Some] []. apply list_elem_of_singleton. done.
  - intros j x Hj H. assert (j = 0%nat) as -> by lia. inversion H. subst. rewrite lookup_singleton_eq. eauto.
  - by intros x ?%elem_of_empty.
Qed.

Section round.
Context (k : nat) (w w' : pathWalk) (frontier next : list EntityID).
Hypothesis Hex : explored k w frontier.
Hypothesis Hfw : followed (λ c e, c ∈ frontier ∧ e ∈ edgesOf g c relType) w [] w' next.

Lemma round_old x es : trail (pw_parents w) es x → trail (pw_parents w') es x.
Proof. apply trail_mono; [apply (ex_rooted _ _ _ Hex)|apply (fw_sub _ _ _ _ _ Hfw)]. Qed.

Lemma round_new x : is_Some (pw_parents w' !! x) → pw_parents w !! x = None → ∃ es, trail (pw_parents w') es x ∧ length es = S k.
Proof.
  intros [c Hc] Hn. destruct (fw_new _ _ _ _ _ Hfw x c Hc Hn) as ([Hf He] & Ho & Hl).
  destruct (ex_frontier _ _ _ Hex _ Hf) as (es & Ht & Hlen). exists (es ++ [cf_via c])%list. split; [|rewrite length_app /=; lia].
  apply trail_step; try done.
  - intros ->. by rewrite (ex_rooted _ _ _ Hex) in Hn.
  - rewrite (arr_sub (pw_parents w)); [done| |apply (fw_sub _ _ _ _ _ Hfw)]. eapply trail_known; [apply (ex_rooted _ _ _ Hex)|done].
  - by apply round_old.
Qed.

Lemma known_mono x : is_Some (pw_parents w !! x) → is_Some (pw_parents w' !! x).
Proof. intros [c Hc]. exists c. apply (lookup_weaken _ _ _ _ Hc), (fw_sub _ _ _ _ _ Hfw). Qed.

Lemma round_terms x : x ∈ pw_terminals w' → stopping x ∧ ∃ es, trail (pw_parents w') es x ∧ (length es < S k)%nat.
Proof.
  intros [Hx|[Hs (e & Hx & _)]]%(fw_terms _ _ _ _ _ Hfw).
  - destruct (ex_terms _ _ _ Hex x Hx) as (? & es & ? & ?). split; [done|]. exists es. split; [by apply round_old|lia].
  - split; [done|]. destruct (ex_frontier _ _ _ Hex x Hx) as (es & ? & ?). exists es. split; [by apply round_old|lia].
Qed.
Lemma round_rooted : rooted (pw_parents w').
Proof. eapply lookup_weaken; [apply (ex_rooted _ _ _ Hex)|apply (fw_sub _ _ _ _ _ Hfw)]. Qed.

Lemma explored_S : pw_found w' = false → explored (S k) w' next.
Proof.
  intros Hf. split.
  - by eapply followed_going.
  - exact round_rooted.
  - intros x Hx. destruct (pw_parents w !! x) as [c|] eqn:Hc.
    + destruct (ex_trail _ _ _ Hex x) as (es & ? & ?); [eauto|]. exists es. split; [by apply round_old|lia].
    + destruct (round_new x Hx Hc) as (es & ? & ?). exists es. split; [done|lia].
  - intros x Hx%(fw_next _ _ _ _ _ Hfw Hf). destruct Hx as [?%elem_of_nil|[? ?]]; [done|]. by apply round_new.
  - intros x e Hx Hn He Hl. assert (is_Some (pw_parents w !! x)) as Hx0.
    { destruct (pw_parents w !! x) eqn:Hc; [eauto|]. destruct Hn. apply (fw_next _ _ _ _ _ Hfw Hf). by right. }
    rewrite (arr_sub (pw_parents w)) in Hl; [|done|apply (fw_sub _ _ _ _ _ Hfw)].
    destruct (decide (x ∈ frontier)); [by apply (fw_closed _ _ _ _ _ Hfw Hf x e)|]. apply known_mono. by apply (ex_closed _ _ _ Hex x e).
  - intros j x Hj Hp. destruct (decide (j ≤ k)%nat) as [|Hjk]; [apply known_mono; by apply (ex_plain _ _ _ Hex j)|]. inversion Hp as [|j' y e Hy Hc He Hl]; subst; [lia|].
    assert (is_Some (pw_parents w !! y)) as Hy0 by (apply (ex_plain _ _ _ Hex j'); [lia|done]). apply (leaves_plain _ _ _ _ _ (arr (pw_parents w) y)) in Hl; [|done].
    destruct (decide (y ∈ frontier)); [by apply (fw_closed _ _ _ _ _ Hfw Hf y e)|]. apply known_mono. by apply (ex_closed _ _ _ Hex y e).
  - exact round_terms.
Qed.

(** The goal is found at the least length of a plain path. *)
Lemma found_now : pw_found w' = true → ∃ es, trail (pw_parents w') es goal ∧ length es = S k ∧ ∀ j, plain_to j goal → (S k ≤ j)%nat.
Proof.
  intros Hf. apply (fw_found _ _ _ _ _ Hfw) in Hf. destruct (ex_going _ _ _ Hex) as [_ Hg]. destruct (round_new goal Hf Hg) as (es & ? & ?).
  exists es. split_and!; [done|done|]. intros j Hj. destruct (decide (j ≤ k)%nat) as [Hk|]; [|lia].
  apply (ex_plain _ _ _ Hex j goal Hk) in Hj. rewrite Hg in Hj. by destruct Hj.
Qed.
End round.

(** An exhausted frontier leaves nothing to reach. *)
Lemma explored_stop k j w : explored k w [] → (k ≤ j)%nat → explored j w [].
Proof.
  intros [G R T F C P X] Hj. split; try done.
  - intros x (es & ? & ?)%T. exists es. split; [done|lia].
  - by intros x ?%elem_of_nil.
  - intros i x _ Hp. induction Hp as [|i x e Hp IH Hc He Hl]; [by rewrite R|]. apply (C x e IH); [by intros ?%elem_of_nil|done|].
    by eapply leaves_plain.
  - intros x (? & es & ? & ?)%X. split; [done|]. exists es. split; [done|lia].
Qed.

(** What a walk that ended within [n] rounds tells. *)
Record walked_to (n : nat) (w : pathWalk) : Prop := {
  wt_rooted : rooted (pw_parents w);
  wt_terms : ∀ x, x ∈ pw_terminals w → stopping x ∧ ∃ es, trail (pw_parents w) es x ∧ (length es < n)%nat;
  wt_found : pw_found w = true → ∃ es, trail (pw_parents w) es goal ∧ (length es ≤ n)%nat ∧ ∀ j, plain_to j goal → (length es ≤ j)%nat;
  wt_none : pw_found w = false → ∀ j, (j ≤ n)%nat → ¬ plain_to j goal;
}.

Lemma explored_walked k w frontier : explored k w frontier → walked_to k w.
Proof.
  intros [[Hf Hg] R T F C P X]. split; [done..| |]; [by rewrite Hf|]. intros _ j Hj Hp. apply P in Hp; [|done]. rewrite Hg in Hp. by destruct Hp.
Qed.

Lemma walk_rounds_spec n : ∀ k w frontier, explored k w frontier → walked_to (k + n) (walk_rounds g threshold relType start goal n frontier w).
Proof.
  induction n as [|n IH]; intros k w frontier Hex; simpl; pose proof (ex_going _ _ _ Hex) as [Hf Hg].
  - rewrite Nat.add_0_r. by eapply explored_walked.
  - destruct frontier as [|x l]; [eapply explored_walked, explored_stop; [done|lia]|]. rewrite Hf.
    pose proof (follow_frontier_followed (x :: l) w [] (ex_going _ _ _ Hex)) as Hfw.
    change (let '(w0, next) := follow_edges threshold goal x _ _ _ w [] in _) with (follow_frontier g threshold relType start goal (x :: l) w []).
    destruct (follow_frontier _ _ _ _ _ (x :: l) w []) as [w1 next].
    assert (followed (λ c e, c ∈ x :: l ∧ e ∈ edgesOf g c relType) w [] w1 next) as Hfw1.
    { apply Hfw. intros c Hc. destruct (ex_frontier _ _ _ Hex c Hc) as (es & Ht & _). eapply trail_known; [apply (ex_rooted _ _ _ Hex)|done]. }
    rewrite Nat.add_succ_r -Nat.add_succ_l. destruct (pw_found w1) eqn:Hf1; [|apply IH; by eapply explored_S].
    assert (walk_rounds g threshold relType start goal n next w1 = w1) as -> by (destruct n, next; simpl; rewrite ?Hf1 //).
    destruct (found_now _ _ _ _ _ Hex Hfw1 Hf1) as (es & Ht & Hlen & Hmin). split.
    + by eapply round_rooted.
    + intros y Hy. destruct (round_terms _ _ _ _ _ Hex Hfw1 y Hy) as (? & es' & ? & ?). split; [done|]. exists es'. split; [done|lia].
    + intros _. exists es. rewrite Hlen. split_and!; [done|lia|done].
    + by rewrite Hf1.
Qed.

(** The whole walk. *)
Lemma walkPaths_spec (depth : Z) : walked_to (Z.to_nat depth) (walkPaths g threshold relType start goal depth).
Proof.
  unfold walkPaths. fold first_walk. destruct (decide (start = goal)) as [Heq|Hne].
  - assert (∀ n frontier, walk_rounds g threshold relType start goal n frontier first_walk = first_walk) as ->.
    { intros [|n] [|x l]; simpl; try done. by rewrite bool_decide_eq_true_2. }
    split; cbn [first_walk pw_parents pw_terminals pw_found]; [apply lookup_singleton_eq|by intros x ?%elem_of_empty| |by rewrite bool_decide_eq_true_2].
    intros _. exists []. rewrite -Heq. split_and!; [constructor|simpl; lia..].
  - apply (walk_rounds_spec (Z.to_nat depth) 0). by apply explored_0.
Qed.
End walk.

(** A refused edge's entity is reached lawfully. *)
Lemma terminals_reached g threshold relType start goal depth x : x ∈ pw_terminals (walkPaths g threshold relType start goal depth) →
  (terminal_type g x = true ∨ crossing_type g x = true) ∧
  ∃ es, lawful g threshold relType start start "" es x ∧ Z.of_nat (length es) < depth.
Proof.
  intros Hx. pose proof (walkPaths_spec g threshold relType start goal depth) as [Hr Ht _ _].
  destruct (Ht x Hx) as ([_ Hs] & es & Htr & Hlen). split; [done|]. exists es. split; [by apply (trail_lawful _ _ _ _ _ _ _ Hr)|lia].
Qed.

(** An entity both ends reach, where each was refused an edge. *)
Definition meeting (g : Graph) (threshold : float64) (relType : string) (from to : EntityID) (depth : Z) (x : EntityID) : Prop :=
  (terminal_type g x = true ∨ crossing_type g x = true) ∧
  (∃ es, lawful g threshold relType from from "" es x ∧ Z.of_nat (length es) < depth) ∧
  ∃ es, lawful g threshold relType to to "" es x ∧ Z.of_nat (length es) < depth.

(** What the answer shows of a path. *)
Definition path_of (g : Graph) (from : EntityID) (es : list edge) : list PathHop :=
  mkPathHop (entityOut (entity_of g from) false) "" "" :: (hop_of g <$> es).

Lemma convergences_spec g ids : let '(listed, total) := convergenceEntities g ids in
  ∃ all, StronglySorted (key_le eo_IdentityFingerprint) all ∧ listed = take maxConvergences all ∧ total = Z.of_nat (length all) ∧
    ∀ c, c ∈ all ↔ ∃ x e, x ∈ ids ∧ live g !! x = Some e ∧ c = entityOut e false.
Proof.
  unfold convergenceEntities. eexists. split; [apply sort_by_sorted|]. do 2 (split; [reflexivity|]). intros c. rewrite sort_by_elem list_elem_of_fmap. split.
  - intros (x & -> & [[e He]%is_live_spec Hx]%list_elem_of_filter). exists x, e. by rewrite (entity_of_live _ _ _ He).
  - intros (x & e & Hx & He & ->). exists x. rewrite (entity_of_live _ _ _ He). split; [done|]. apply list_elem_of_filter. split; [|done]. apply is_live_spec. eauto.
Qed.

(** The answer for two live entities. *)
Lemma found_path g threshold relType from to depth : let w := walkPaths g threshold relType from to depth in pw_found w = true → 0 < depth →
  ∃ es, lawful g threshold relType from from "" es to ∧ NoDup (stops from es) ∧ Z.of_nat (length es) <= depth ∧
    reverse (climb g from (Z.to_nat depth) (pw_parents w) to) = path_of g from es ∧
    ∀ es', lawful g threshold relType from from "" es' to → plain g from from es' → (length es ≤ length es')%nat.
Proof.
  cbn zeta. intros Hf Hd. pose proof (walkPaths_spec g threshold relType from to depth) as [Hr _ Hfound _].
  destruct (Hfound Hf) as (es & Ht & Hlen & Hmin). exists es. split_and!.
  - by apply (trail_lawful _ _ _ _ _ _ _ Hr).
  - by eapply trail_NoDup.
  - lia.
  - by apply (climb_trail _ _ _ _ _ _ _ Ht).
  - intros es' Hl Hp. apply Hmin. apply (lawful_plain_to _ _ _ _ es' 0 from "" to); [constructor|done|done].
Qed.

Lemma no_path g threshold relType from to depth : pw_found (walkPaths g threshold relType from to depth) = false →
  ∀ es, lawful g threshold relType from from "" es to → plain g from from es → 0 < depth → depth < Z.of_nat (length es).
Proof.
  intros Hf es Hl Hp Hd. pose proof (walkPaths_spec g threshold relType from to depth) as [_ _ _ Hnone].
  destruct (Z.lt_ge_cases depth (Z.of_nat (length es))) as [|Hle]; [done|]. exfalso. apply (Hnone Hf (length es)); [lia|].
  by apply (lawful_plain_to _ _ _ _ es 0 from "" to); [constructor|..].
Qed.

(** C21. find_path answers lawfully, and with a shortest path where that can be said by
    length alone. It refuses a missing end and a handle of no live entity, and nothing else.
    A path it shows leads from one end to the other over edges of the graph of the wanted
    type between live entities, of at most the clamped depth, without passing an entity
    twice: it leaves a terminal only by an edge of its own, an interface or a neighbor only
    by another type than it arrived by, and crosses an alias only when believed; and it is no longer
    than any such path whose waypoints are neither interfaces nor neighbors. When it says
    unreachable, no such path fits the depth; what it lists as convergences are live
    entities that both ends reach lawfully and that may not be freely crossed. *)
Theorem find_path_is_lawful (g : Graph) (threshold : float64) (i : FindPathInput) :
  match findPath g threshold i with
  | inl EndpointsRequired => fi_FromID i = ""%string ∨ fi_ToID i = ""%string
  | inl (NoLiveEntity h) => (h = fi_FromID i ∨ h = fi_ToID i) ∧ ¬ ∃ x e, live_handle g h x e
  | inl EntityIDRequired => False
  | inr out => ∃ from to e e',
    live_handle g (fi_FromID i) from e ∧ live_handle g (fi_ToID i) to e' ∧ fo_MaxDepth out = clampDepth (fi_MaxDepth i) ∧
    if fo_Reachable out then ∃ es,
      lawful g threshold (fi_RelationType i) from from "" es to ∧ NoDup (stops from es) ∧
      fo_Path out = path_of g from es ∧ fo_Hops out = Z.of_nat (length es) ∧ fo_Hops out <= fo_MaxDepth out ∧
      ∀ es', lawful g threshold (fi_RelationType i) from from "" es' to → plain g from from es' → (length es ≤ length es')%nat
    else
      (∀ es, lawful g threshold (fi_RelationType i) from from "" es to → plain g from from es → fo_MaxDepth out < Z.of_nat (length es)) ∧
      ∃ all, fo_Convergences out = take maxConvergences all ∧ fo_ConvergenceTotal out = Z.of_nat (length all) ∧
        StronglySorted (key_le eo_IdentityFingerprint) all ∧
        ∀ c, c ∈ all → ∃ x e, live g !! x = Some e ∧ c = entityOut e false ∧ meeting g threshold (fi_RelationType i) from to (fo_MaxDepth out) x
  end.
Proof.
  assert (∀ h x, ResolveHandle g h = Some x → is_live g x = false → ¬ ∃ x e, live_handle g h x e) as Hdead.
  { intros h x Hx Hl (x' & e & Hx' & He). rewrite Hx in Hx'. injection Hx' as <-. assert (is_live g x = true) as Ht by (apply is_live_spec; by rewrite He). congruence. }
  unfold findPath. destruct (bool_decide (fi_FromID i = "") || bool_decide (fi_ToID i = "")) eqn:He; [by apply orb_true_iff in He as [?%bool_decide_eq_true|?%bool_decide_eq_true]; [left|right]|].
  destruct (ResolveHandle g (fi_FromID i)) as [from|] eqn:Hfrom; [|split; [by left|]; intros (x & e & Hx & _); congruence].
  destruct (is_live g from) eqn:Hlf; cbn [negb]; [|split; [by left|]; by eapply Hdead].
  destruct (ResolveHandle g (fi_ToID i)) as [to|] eqn:Hto; [|split; [by right|]; intros (x & e & Hx & _); congruence].
  destruct (is_live g to) eqn:Hlt; cbn [negb]; [|split; [by right|]; by eapply Hdead].
  apply is_live_spec in Hlf as [e Hlf], Hlt as [e' Hlt]. pose proof (clampDepth_range (fi_MaxDepth i)) as [Hd _].
  destruct (pw_found _) eqn:Hf.
  - exists from, to, e, e'. do 3 (split; [done|]). cbn [fo_Reachable fo_Path fo_Hops fo_MaxDepth].
    destruct (found_path _ _ _ _ _ _ Hf Hd) as (es & Hl & Hn & Hlen & Hclimb & Hmin). exists es. rewrite Hclimb /path_of /= length_fmap. split_and!; try done; lia.
  - pose proof (no_path _ _ _ _ _ _ Hf) as Hno. set (depth := clampDepth (fi_MaxDepth i)) in *.
    set (shared := if bool_decide (pw_terminals (walkPaths g threshold (fi_RelationType i) from to depth) = ∅) then [] else _).
    assert (∀ x, x ∈ shared → meeting g threshold (fi_RelationType i) from to depth x) as Hshared.
    { intros x Hx. unfold shared in Hx. case_bool_decide; [by apply elem_of_nil in Hx|].
      apply elem_of_elements, elem_of_intersection in Hx as [[? ?]%terminals_reached [_ ?]%terminals_reached]. done. }
    pose proof (convergences_spec g shared) as Hcv. destruct (convergenceEntities g shared) as [listed total] eqn:Hc.
    destruct Hcv as (all & Hsort & -> & -> & Hall). clearbody shared.
    destruct shared as [|x0 shared]; exists from, to, e, e'; do 3 (split; [done|]); cbn [fo_Reachable fo_MaxDepth fo_Convergences fo_ConvergenceTotal];
      (split; [intros es Hl Hp; by apply Hno|]).
    + exists []. split_and!; [done|done|constructor|by intros c ?%elem_of_nil].
    + exists all. split_and!; [done..|]. intros c (x & ex & Hx & Hlx & ->)%Hall. exists x, ex. split_and!; [done|done|by apply Hshared].
Qed.
