(* ===== verification/Diff.v ===== *)
(** * The difference between two instants: internal/mcp/diff.go

    graph_diff folds the events of a window into one record per entity and per relation,
    and sorts the records into buckets. The window is read from the time index of the
    store, skipping heartbeats by the tag of their entry. The parsing of the two instants,
    the retention warning and the freshness block are left out. *)
From S2P Require Import Prelude GoStd Values Vocabulary Entities Events Keys Store Traverse.
Open Scope Z_scope.

(** ** The folds *)

Record entityFold := mkEntityFold {
  ef_createdFirst : bool;
  ef_lastLifecycle : ChangeType;
  ef_changedKeys : gset string;
  ef_stateChanged : bool;
  ef_ent : Entity;
  ef_deleteReason : string;
  ef_deleteSource : DeleteSource;
  ef_seq : nat;
}.
Record relationFold := mkRelationFold {
  rf_addedFirst : bool;
  rf_lastLifecycle : ChangeType;
  rf_attrChanged : bool;
  rf_rel : Relation;
  rf_seq : nat;
}.

Definition new_entityFold (ee : EntityEvent) (seq : nat) : entityFold :=
  mkEntityFold (bool_decide (ee_ChangeType ee = EntityCreated)) ChangeUnspecified ∅ false zero_Entity "" DeleteSourceUnknown seq.
Definition fold_entity (f : entityFold) (ee : EntityEvent) : entityFold :=
  match ee_ChangeType ee with
  | EntityCreated =>
    mkEntityFold (ef_createdFirst f) EntityCreated (ef_changedKeys f) (ef_stateChanged f) (ee_Entity ee) (ef_deleteReason f) (ef_deleteSource f) (ef_seq f)
  | EntityDeleted =>
    mkEntityFold (ef_createdFirst f) EntityDeleted (ef_changedKeys f) (ef_stateChanged f) (ee_Entity ee) (ee_DeleteReason ee) (ee_DeleteSource ee) (ef_seq f)
  | EntityAttributeUpdated =>
    mkEntityFold (ef_createdFirst f) (ef_lastLifecycle f) (list_to_set (ee_ChangedKeys ee) ∪ ef_changedKeys f) (ef_stateChanged f) (ee_Entity ee) (ef_deleteReason f) (ef_deleteSource f) (ef_seq f)
  | EntityStateChanged =>
    mkEntityFold (ef_createdFirst f) (ef_lastLifecycle f) (list_to_set (ee_ChangedKeys ee) ∪ ef_changedKeys f) true (ee_Entity ee) (ef_deleteReason f) (ef_deleteSource f) (ef_seq f)
  | _ =>
    mkEntityFold (ef_createdFirst f) (ef_lastLifecycle f) (ef_changedKeys f) (ef_stateChanged f) (ee_Entity ee) (ef_deleteReason f) (ef_deleteSource f) (ef_seq f)
  end.

Definition new_relationFold (re : RelationEvent) (seq : nat) : relationFold :=
  mkRelationFold (bool_decide (re_ChangeType re = RelationAdded)) ChangeUnspecified false zero_Relation seq.
Definition fold_relation (f : relationFold) (re : RelationEvent) : relationFold :=
  match re_ChangeType re with
  | RelationAdded => mkRelationFold (rf_addedFirst f) RelationAdded (rf_attrChanged f) (re_Relation re) (rf_seq f)
  | RelationRemoved => mkRelationFold (rf_addedFirst f) RelationRemoved (rf_attrChanged f) (re_Relation re) (rf_seq f)
  | RelationAttributeChanged => mkRelationFold (rf_addedFirst f) (rf_lastLifecycle f) true (re_Relation re) (rf_seq f)
  | _ => mkRelationFold (rf_addedFirst f) (rf_lastLifecycle f) (rf_attrChanged f) (re_Relation re) (rf_seq f)
  end.

(** The record of a key, made at its first event, after one more. *)
Definition upsert {F Ev} (key : Ev → string) (new : Ev → nat → F) (step : F → Ev → F) (m : gmap string F) (ev : Ev) : gmap string F :=
  <[key ev := step (default (new ev (size m)) (m !! key ev)) ev]> m.
Definition entity_key (ee : EntityEvent) : string := e_ID (ee_Entity ee).
Definition relation_key (re : RelationEvent) : string := r_ID (re_Relation re).

Definition fold_event (ms : gmap string entityFold * gmap string relationFold) (ev : Event) : gmap string entityFold * gmap string relationFold :=
  match ev_Entity ev, ev_Relation ev with
  | Some ee, _ => (upsert entity_key new_entityFold fold_entity ms.1 ee, ms.2)
  | None, Some re => (ms.1, upsert relation_key new_relationFold fold_relation ms.2 re)
  | None, None => ms
  end.

(** ** The buckets *)

Inductive Bucket := BCreated | BDeleted | BChanged | BTransient.
#[export] Instance Bucket_eq_dec : EqDecision Bucket.
Proof. solve_decision. Defined.

(** In which bucket, by presence at the end and the first event; changes count only
    where the thing was there at both ends. *)
Definition bucket_of (createdFirst presentAtEnd changed : bool) : option Bucket :=
  if createdFirst && presentAtEnd then Some BCreated
  else if createdFirst && negb presentAtEnd then Some BTransient
  else if negb presentAtEnd then Some BDeleted
  else if changed then Some BChanged else None.
Definition entity_bucket (f : entityFold) : option Bucket :=
  bucket_of (ef_createdFirst f) (negb (bool_decide (ef_lastLifecycle f = EntityDeleted))) (negb (bool_decide (ef_changedKeys f = ∅))).
Definition relation_bucket (f : relationFold) : option Bucket :=
  bucket_of (rf_addedFirst f) (negb (bool_decide (rf_lastLifecycle f = RelationRemoved))) (rf_attrChanged f).

(** The records of a bucket in the order of their first event. *)
Definition seq_le {F} (seq : F → nat) (x y : F) : Prop := (seq x <= seq y)%nat.
#[export] Instance seq_le_dec {F} (seq : F → nat) : RelDecision (seq_le seq).
Proof. intros x y. unfold seq_le. apply _. Defined.
Definition folds_of {F} (seq : F → nat) (bucket : F → option Bucket) (b : Bucket) (m : gmap string F) : list F :=
  merge_sort (seq_le seq) (base.filter (λ f, bucket f = Some b) (map_to_list m).*2).

(** ** The answer *)

Record RelationOut := mkRelationOut {
  ro_ID : string; ro_Type : string; ro_FromID : string; ro_ToID : string; ro_Structural : bool; ro_Attributes : list Attribute }.
Definition relationOut (r : Relation) : RelationOut :=
  mkRelationOut (r_ID r) (r_Type r) (r_From r) (r_To r) (r_Structural r) (attrsOut (r_Attributes r)).

Record DeletedEntity := mkDeletedEntity { de_Entity : EntityOut; de_DeleteReason : string; de_DeleteSource : DeleteSource }.
Record EntityDiff := mkEntityDiff { df_Entity : EntityOut; df_ChangedKeys : list string; df_StateChanged : bool }.
Record DiffTotals := mkDiffTotals {
  dt_EntitiesCreated : nat; dt_EntitiesDeleted : nat; dt_EntitiesChanged : nat; dt_EntitiesTransient : nat;
  dt_RelationsAdded : nat; dt_RelationsRemoved : nat; dt_RelationsChanged : nat; dt_RelationsTransient : nat }.
Record GraphDiffOutput := mkGraphDiffOutput {
  gd_Summary : string;
  gd_EntitiesCreated : list EntityOut;
  gd_EntitiesDeleted : list DeletedEntity;
  gd_EntitiesChanged : list EntityDiff;
  gd_EntitiesTransient : list DeletedEntity;
  gd_RelationsAdded : list RelationOut;
  gd_RelationsRemoved : list RelationOut;
  gd_RelationsChanged : list RelationOut;
  gd_RelationsTransient : list RelationOut;
  gd_Totals : DiffTotals;
  gd_Truncated : bool;
}.

Definition deletedOut (f : entityFold) : DeletedEntity := mkDeletedEntity (entityOut (ef_ent f) true) (ef_deleteReason f) (ef_deleteSource f).
Definition diffOut (f : entityFold) : EntityDiff :=
  mkEntityDiff (entityOut (ef_ent f) false) (sort_by id (elements (ef_changedKeys f))) (ef_stateChanged f).

Definition counted (n : nat) (what : string) : list string := if (0 <? n)%nat then [itoa (Z.of_nat n) +++ " " +++ what] else [].
Definition diffSummary (t : DiffTotals) : string :=
  match app (counted (dt_EntitiesCreated t) "entities created") (app (counted (dt_EntitiesDeleted t) "entities deleted")
       (app (counted (dt_EntitiesChanged t) "entities changed") (app (counted (dt_EntitiesTransient t) "entities transient (appeared and disappeared)")
       (app (counted (dt_RelationsAdded t) "relations added") (app (counted (dt_RelationsRemoved t) "relations removed")
       (app (counted (dt_RelationsChanged t) "relations changed") (counted (dt_RelationsTransient t) "relations transient"))))))) with
  | [] => "No net change between the two instants."
  | parts => "Net difference: " +++ join ", " parts +++ "."
  end.

Definition diff_of (limit : nat) (entities : gmap string entityFold) (relations : gmap string relationFold) : GraphDiffOutput :=
  let ents b := folds_of ef_seq entity_bucket b entities in
  let rels b := folds_of rf_seq relation_bucket b relations in
  let totals := mkDiffTotals (length (ents BCreated)) (length (ents BDeleted)) (length (ents BChanged)) (length (ents BTransient))
    (length (rels BCreated)) (length (rels BDeleted)) (length (rels BChanged)) (length (rels BTransient)) in
  let cut n := (limit <? n)%nat in
  mkGraphDiffOutput (diffSummary totals)
    ((λ f, entityOut (ef_ent f) false) <$> take limit (ents BCreated)) (deletedOut <$> take limit (ents BDeleted))
    (diffOut <$> take limit (ents BChanged)) (deletedOut <$> take limit (ents BTransient))
    ((relationOut ∘ rf_rel) <$> take limit (rels BCreated)) ((relationOut ∘ rf_rel) <$> take limit (rels BDeleted))
    ((relationOut ∘ rf_rel) <$> take limit (rels BChanged)) ((relationOut ∘ rf_rel) <$> take limit (rels BTransient))
    totals
    (cut (dt_EntitiesCreated totals) || cut (dt_EntitiesDeleted totals) || cut (dt_EntitiesChanged totals) || cut (dt_EntitiesTransient totals) ||
     cut (dt_RelationsAdded totals) || cut (dt_RelationsRemoved totals) || cut (dt_RelationsChanged totals) || cut (dt_RelationsTransient totals)).

(** ** The window *)

Definition is_beat (ev : Event) : bool :=
  match ev_Entity ev with Some ee => bool_decide (ee_ChangeType ee = EntityUnchanged) | None => false end.

(** The events behind the entries, but for the heartbeats; a failure stops the scan. *)
Fixpoint keep_events (resolve : Z → StoreError + option Event) (es : list TimeIndexEntry) : StoreError + list Event :=
  match es with
  | [] => inr []
  | e :: es =>
    if ti_Tagged e && bool_decide (ti_ChangeType e = EntityUnchanged) then keep_events resolve es else
    match resolve (ti_Seq e) with
    | inl err => inl err
    | inr None => keep_events resolve es
    | inr (Some ev) =>
      if negb (ti_Tagged e) && is_beat ev then keep_events resolve es
      else match keep_events resolve es with inl err => inl err | inr evs => inr (ev :: evs) end
    end
  end.

Section diff.
Context {D : Type} `{!Pebble D} `{!Proto}.

Definition graphDiff (ctx : nat → option string) (from to : Time) (limit : Z) (s : Store D) : StoreError + GraphDiffOutput :=
  let '(entries, err) := ScanTimeIndex ctx from to false s in
  match keep_events (λ seq, Resolve seq s) entries, err with
  | inl err, _ | inr _, Some err => inl err
  | inr evs, None =>
    let '(entities, relations) := foldl fold_event (∅, ∅) evs in
    inr (diff_of (Z.to_nat (clampLimit limit)) entities relations)
  end.
End diff.
