(* ===== verification/DiffSpec.v ===== *)
(** * A diff compares two instants

    The folds of graph_diff over the events of a window against the graphs replayed up to
    its start and up to its end: the buckets are the differences between the two. *)
From S2P Require Import Prelude GoStd Values Vocabulary Entities Events Projection ProjectionInv Engine EngineInv Keys Store StoreInv StoreSpec StoreReads LogState Traverse TraverseSpec Diff.
Open Scope Z_scope.

(** ** Records per key *)

Lemma StronglySorted_NoDup_nat {A} (f : A → nat) (l : list A) : StronglySorted (λ x y, (f x < f y)%nat) l → NoDup l.
Proof.
  induction 1 as [|x l Hs IH Hall]; constructor; [|done]. intros Hx. rewrite Forall_forall in Hall. pose proof (Hall x Hx). lia.
Qed.

Lemma StronglySorted_weaken {A} (R R' : relation A) (l : list A) : (∀ x y, R x y → R' x y) → StronglySorted R l → StronglySorted R' l.
Proof. intros HR. induction 1 as [|x l Hs IH Hall]; constructor; [done|]. eapply Forall_impl; [done|]. intros y. apply HR. Qed.

Section folds.
Context {F Ev : Type} (key : Ev → string) (new : Ev → nat → F) (step : F → Ev → F).

Definition fold_all (L : list Ev) : gmap string F := foldl (upsert key new step) ∅ L.
(** The keys in the order of their first event, and the events of a key. *)
Definition seen (L : list Ev) : list string := discover id ∅ (key <$> L).
Definition of_key (k : string) (L : list Ev) : list Ev := base.filter (λ ev, key ev = k) L.
Definition summary (n : nat) (S : list Ev) : option F := match S with [] => None | ev :: _ => Some (foldl step (new ev n) S) end.

Lemma seen_elem L k : k ∈ seen L ↔ of_key k L ≠ [].
Proof.
  unfold seen. rewrite -{1}(list_fmap_id (discover id ∅ (key <$> L))) (discover_keys id) list_fmap_id list_elem_of_fmap. unfold of_key. split.
  - intros [(ev & -> & Hev) _] Hn. assert (ev ∈ base.filter (λ ev', key ev' = key ev) L) as Hin by (by apply list_elem_of_filter). rewrite Hn in Hin. by apply elem_of_nil in Hin.
  - intros Hn. split; [|set_solver]. destruct (base.filter _ L) as [|ev l] eqn:E; [done|]. assert (ev ∈ base.filter (λ ev, key ev = k) L) as Hev by (rewrite E; by left).
    apply list_elem_of_filter in Hev as [<- ?]. by exists ev.
Qed.
Lemma seen_NoDup L : NoDup (seen L).
Proof. unfold seen. rewrite -(list_fmap_id (discover id ∅ (key <$> L))). apply discover_NoDup. Qed.

Lemma of_key_snoc k L ev : of_key k (L ++ [ev])%list = if decide (key ev = k) then (of_key k L ++ [ev])%list else of_key k L.
Proof. unfold of_key. rewrite list.filter_app. case_decide; [by rewrite filter_cons_True|by rewrite filter_cons_False // app_nil_r]. Qed.

Lemma seen_snoc L ev : seen (L ++ [ev])%list = if decide (key ev ∈ seen L) then seen L else (seen L ++ [key ev])%list.
Proof.
  unfold seen. rewrite fmap_app discover_app list_fmap_id. cbn [discover fmap list_fmap]. rewrite right_id_L.
  case_decide as Hk; [rewrite bool_decide_eq_true_2 ?app_nil_r //; by apply elem_of_list_to_set|].
  rewrite bool_decide_eq_false_2 //. by rewrite elem_of_list_to_set.
Qed.

Lemma summary_snoc n S ev : S ≠ [] → summary n (S ++ [ev])%list = (λ f, step f ev) <$> summary n S.
Proof. destruct S as [|e S]; [done|]. intros _. by rewrite /= foldl_app. Qed.

Lemma fold_all_spec L : size (fold_all L) = length (seen L) ∧ (∀ i k, seen L !! i = Some k → fold_all L !! k = summary i (of_key k L)) ∧
  ∀ k, is_Some (fold_all L !! k) → k ∈ seen L.
Proof.
  induction L as [|ev L (Hsz & Hat & Hin)] using rev_ind; [split_and!; [done|done|by intros k []]|].
  assert (fold_all (L ++ [ev])%list = upsert key new step (fold_all L) ev) as -> by (unfold fold_all; by rewrite foldl_app). unfold upsert.
  rewrite seen_snoc. setoid_rewrite of_key_snoc. case_decide as Hk.
  - assert (is_Some (fold_all L !! key ev)) as [f Hf].
    { apply list_elem_of_lookup_1 in Hk as [i Hi]. rewrite (Hat i _ Hi). assert (of_key (key ev) L ≠ []) as Hn by (apply seen_elem; by eapply list_elem_of_lookup_2). by destruct (of_key (key ev) L). }
    rewrite Hf /=. split_and!.
    + rewrite map_size_insert_Some //.
    + intros i k Hi. destruct (decide (key ev = k)) as [<-|Hne]; [rewrite lookup_insert_eq|by rewrite lookup_insert_ne // (Hat i)].
      rewrite summary_snoc; [|by apply seen_elem]. by rewrite -(Hat i _ Hi) Hf.
    + intros k Hk'. destruct (decide (key ev = k)) as [<-|Hne]; [done|]. apply Hin. by rewrite lookup_insert_ne in Hk'.
  - assert (fold_all L !! key ev = None) as Hf by (destruct (fold_all L !! key ev) eqn:E; [destruct Hk; apply Hin; by rewrite E|done]).
    assert (of_key (key ev) L = []) as Hnil by (destruct (of_key (key ev) L) eqn:E; [done|]; destruct Hk; apply seen_elem; by rewrite E).
    rewrite Hf /=. split_and!.
    + rewrite map_size_insert_None // length_app /= Hsz. lia.
    + intros i k [Hi|[Hi Hs]]%lookup_app_Some.
      * assert (key ev ≠ k) as Hne by (intros <-; by apply Hk, (list_elem_of_lookup_2 _ i)). rewrite decide_False // lookup_insert_ne //. by apply Hat.
      * apply list_lookup_singleton_Some in Hs as [Hi0 <-]. rewrite decide_True // Hnil lookup_insert_eq Hsz /=. by replace i with (length (seen L)) by lia.
    + intros k [f Hk']. apply elem_of_app. destruct (decide (key ev = k)) as [<-|Hne]; [right; by apply list_elem_of_singleton|left]. rewrite lookup_insert_ne // in Hk'. apply Hin. eauto.
Qed.

(** The position of a record. *)
Context (seq : F → nat).
Hypothesis Hnew : ∀ ev n, seq (new ev n) = n.
Hypothesis Hstep : ∀ f ev, seq (step f ev) = seq f.

Lemma summary_seq n S f : summary n S = Some f → seq f = n.
Proof.
  destruct S as [|ev S]; [done|]. intros [= <-]. simpl. rewrite -{2}(Hnew ev n) -(Hstep (new ev n) ev). generalize (step (new ev n) ev). induction S as [|e S IH]; intros f; simpl; [done|].
  by rewrite IH Hstep.
Qed.

Lemma record_at L k f : fold_all L !! k = Some f ↔ seen L !! seq f = Some k ∧ summary (seq f) (of_key k L) = Some f.
Proof.
  destruct (fold_all_spec L) as (_ & Hat & Hin). split.
  - intros Hf. destruct (list_elem_of_lookup_1 (seen L) k) as [i Hi]; [apply Hin; eauto|]. pose proof (Hat i k Hi) as Hs. rewrite Hf in Hs. symmetry in Hs.
    by rewrite (summary_seq _ _ _ Hs).
  - intros [Hi <-]. by apply Hat.
Qed.

(** The keys of a bucket, in order. *)
Lemma ranked (g : string → option F) ks : ∀ n, (∀ i k f, ks !! i = Some k → g k = Some f → seq f = (n + i)%nat) →
  StronglySorted (λ x y, (seq x < seq y)%nat) (omap g ks).
Proof.
  induction ks as [|k ks IH]; intros n Hg; simpl; [constructor|].
  assert (StronglySorted (λ x y, (seq x < seq y)%nat) (omap g ks)) as Hs by (apply (IH (S n)); intros i k' f Hi Hf; rewrite (Hg (S i) k' f Hi Hf); lia).
  destruct (g k) as [f|] eqn:Hf; [|done]. constructor; [done|]. apply Forall_forall. intros f' (k' & Hk' & Hf')%list_elem_of_omap.
  apply list_elem_of_lookup_1 in Hk' as [i Hi]. rewrite (Hg 0%nat k f eq_refl Hf) (Hg (S i) k' f' Hi Hf'). lia.
Qed.

Lemma folds_in_order (bucket : F → option Bucket) b L :
  folds_of seq bucket b (fold_all L) = omap (λ k, f ← fold_all L !! k; if bool_decide (bucket f = Some b) then Some f else None) (seen L).
Proof.
  set (g := λ k, _). assert (∀ i k f, seen L !! i = Some k → g k = Some f → seq f = (0 + i)%nat) as Hg.
  { intros i k f Hi Hf. unfold g in Hf. destruct (fold_all L !! k) as [f'|] eqn:Hk; [|done]. simpl in Hf. case_bool_decide; [|done]. injection Hf as ->.
    apply record_at in Hk as [Hi' _]. by apply (NoDup_lookup (seen L) _ _ k); [apply seen_NoDup|..]. }
  assert (∀ f, f ∈ base.filter (λ f, bucket f = Some b) (map_to_list (fold_all L)).*2 ↔ f ∈ omap g (seen L)) as Hin.
  { intros f. rewrite list_elem_of_filter elem_of_values list_elem_of_omap. unfold g. split.
    - intros [Hb [k Hk]]. exists k. split; [apply (fold_all_spec L); eauto|]. by rewrite Hk /= bool_decide_eq_true_2.
    - intros (k & Hk & Hf). destruct (fold_all L !! k) as [f'|] eqn:E; [|done]. simpl in Hf. case_bool_decide; [|done]. injection Hf as ->. eauto. }
  unfold folds_of. apply (StronglySorted_unique_strong (seq_le seq)).
  - intros f1 f2 Hf1 (k2 & Hk2 & H2)%list_elem_of_omap Ha Hb. rewrite merge_sort_Permutation Hin in Hf1. apply list_elem_of_omap in Hf1 as (k1 & Hk1 & H1).
    apply list_elem_of_lookup_1 in Hk1 as [i1 Hi1], Hk2 as [i2 Hi2]. unfold seq_le in Ha, Hb. rewrite (Hg _ _ _ Hi1 H1) (Hg _ _ _ Hi2 H2) in Ha Hb.
    assert (i1 = i2) as -> by lia. congruence.
  - apply StronglySorted_merge_sort; [intros x y z; unfold seq_le; lia|intros x y; unfold seq_le; lia].
  - apply (StronglySorted_weaken (λ x y, (seq x < seq y)%nat)); [intros x y; unfold seq_le; lia|by eapply ranked].
  - rewrite merge_sort_Permutation. apply NoDup_Permutation; [apply NoDup_filter, (NoDup_fmap_2_strong snd)| |exact Hin].
    + intros [k1 f1] [k2 f2] [H1 _]%elem_of_map_to_list%record_at [H2 _]%elem_of_map_to_list%record_at Heq. simpl in *. subst. congruence.
    + apply NoDup_map_to_list.
    + apply (StronglySorted_NoDup_nat seq). by eapply ranked.
Qed.
End folds.

(** ** Lifecycles *)

(** What an event does to the presence of its thing: it appears, it goes, or it stays. *)
Definition ee_effect (ee : EntityEvent) : option bool :=
  match ee_ChangeType ee with EntityCreated => Some true | EntityDeleted => Some false | _ => None end.
Definition re_effect (re : RelationEvent) : option bool :=
  match re_ChangeType re with RelationAdded => Some true | RelationRemoved => Some false | _ => None end.
Definition ev_effect (ev : Event) : option bool :=
  match ev_Entity ev, ev_Relation ev with
  | Some ee, _ => ee_effect ee
  | None, Some re => re_effect re
  | None, None => None
  end.

(** Whether a thing is there after its events, if each was possible: only what is absent
    appears, and only what is there goes or changes. *)
Fixpoint presence {A} (eff : A → option bool) (p : bool) (l : list A) : option bool :=
  match l with
  | [] => Some p
  | x :: l =>
    match eff x with
    | Some true => if p then None else presence eff true l
    | Some false => if p then presence eff false l else None
    | None => if p then presence eff true l else None
    end
  end.

Lemma presence_app {A} (eff : A → option bool) l1 l2 : ∀ p, presence eff p (l1 ++ l2)%list = presence eff p l1 ≫= λ q, presence eff q l2.
Proof. induction l1 as [|x l1 IH]; intros p; [reflexivity|]. simpl. destruct (eff x) as [[|]|], p; reflexivity || apply IH. Qed.

(** Leaving out events that only restate. *)
Lemma presence_skip {A} (eff : A → option bool) (P : A → Prop) `{!∀ x, Decision (P x)} l : (∀ x, ¬ P x → eff x = None) →
  ∀ p q, presence eff p l = Some q → presence eff p (base.filter P l) = Some q.
Proof.
  intros Hn. induction l as [|x l IH]; intros p q; [done|]. simpl presence. destruct (decide (P x)) as [Hx|Hx].
  - rewrite filter_cons_True //=. destruct (eff x) as [[|]|], p; simpl; auto.
  - rewrite filter_cons_False // (Hn x Hx). destruct p; [apply IH|done].
Qed.

Lemma presence_map {A B} (eff : A → option bool) (eff' : B → option bool) (f : B → option A) (l : list B) : (∀ y x, f y = Some x → eff' y = eff x) →
  (∀ y, y ∈ l → is_Some (f y)) → ∀ p, presence eff' p l = presence eff p (omap f l).
Proof.
  intros He. induction l as [|y l IH]; intros Hl p; [done|]. simpl. destruct (Hl y) as [x Hx]; [by left|]. rewrite Hx (He y x Hx). simpl.
  destruct (eff x) as [[|]|], p; try done; apply IH; intros z Hz; apply Hl; by right.
Qed.

Definition lawful_history (E : list Event) : Prop := ∀ t, is_Some (presence ev_effect false (story t E)).

Lemma final_presence t S q : Forall (λ ev, thing ev = Some t) S → presence ev_effect false S = Some q → (is_Some (final S) ↔ q = true).
Proof.
  revert q. induction S as [|ev S IH] using rev_ind; intros q Ht; [intros [= <-]; split; [by intros []|done]|].
  apply Forall_app in Ht as [Ht Hev]. rewrite Forall_singleton in Hev. rewrite presence_app. destruct (presence ev_effect false S) as [p|] eqn:Hp; [|done]. simpl.
  unfold final. rewrite last_snoc /=. unfold ev_effect, thing, state_of in *. destruct (ev_Entity ev) as [ee|]; [|destruct (ev_Relation ev) as [re|]; [|done]].
  - unfold ee_effect. destruct (ee_ChangeType ee), p; simpl; try done; intros [= <-]; split; try done; eauto; by intros [].
  - unfold re_effect. destruct (re_ChangeType re), p; simpl; try done; intros [= <-]; split; try done; eauto; by intros [].
Qed.

Section start.
Context {F Ev : Type} (eff : Ev → option bool) (new : Ev → nat → F) (step : F → Ev → F) (first present : F → bool).
Hypothesis Hnew : ∀ ev n, first (new ev n) = bool_decide (eff ev = Some true) ∧ present (new ev n) = true.
Hypothesis Hstep : ∀ f ev, first (step f ev) = first f ∧ present (step f ev) = match eff ev with Some b => b | None => present f end.

(** The record of a key says whether it was there before and is there after. *)
Lemma summary_presence n S p q f : summary new step n S = Some f → presence eff p S = Some q → first f = negb p ∧ present f = q.
Proof.
  destruct S as [|ev S]; [done|]. intros [= <-]. simpl presence.
  assert (∀ S f p q, present f = p → presence eff p S = Some q → first (foldl step f S) = first f ∧ present (foldl step f S) = q) as Hgo.
  { clear -Hstep. induction S as [|e S IH]; intros f p q Hf; simpl; [intros [= <-]; done|]. destruct (Hstep f e) as [H1 H2]. rewrite -H1.
    destruct (eff e) as [[|]|], p; try done; apply IH; by rewrite H2. }
  intros Hq. pose proof (Hstep (new ev n) ev) as [H1 H2]. pose proof (Hnew ev n) as [H3 H4]. revert H2 H3 Hq.
  destruct (eff ev) as [[|]|], p; intros H2 H3 Hq; try done; rewrite ?H4 in H2; (edestruct Hgo as [E1 E2]; [exact H2|exact Hq|]); rewrite E1 E2 H1 H3; done.
Qed.
End start.

(** ** What a record holds *)

(** The keys an event reports as changed. *)
Definition names (ee : EntityEvent) : list string :=
  match ee_ChangeType ee with EntityAttributeUpdated | EntityStateChanged => ee_ChangedKeys ee | _ => [] end.

Lemma exists_later {A} (P : A → Prop) l x : (∃ y, y ∈ (l ++ [x])%list ∧ P y) ↔ (∃ y, y ∈ l ∧ P y) ∨ P x.
Proof. setoid_rewrite elem_of_app. setoid_rewrite list_elem_of_singleton. naive_solver. Qed.

Record entity_facts (S : list EntityEvent) (f : entityFold) : Prop := {
  en_last : ∃ ee, last S = Some ee ∧ ef_ent f = ee_Entity ee ∧
    (ee_ChangeType ee = EntityDeleted → ef_deleteReason f = ee_DeleteReason ee ∧ ef_deleteSource f = ee_DeleteSource ee);
  en_keys : ∀ k, k ∈ ef_changedKeys f ↔ ∃ ee, ee ∈ S ∧ k ∈ names ee;
  en_state : ef_stateChanged f = true ↔ ∃ ee, ee ∈ S ∧ ee_ChangeType ee = EntityStateChanged;
}.
Lemma entity_step S f ee : S = [] ∧ ef_changedKeys f = ∅ ∧ ef_stateChanged f = false ∨ entity_facts S f → entity_facts (S ++ [ee]) (fold_entity f ee).
Proof.
  intros Hf. assert ((∀ k, k ∈ ef_changedKeys f ↔ ∃ ee, ee ∈ S ∧ k ∈ names ee) ∧ (ef_stateChanged f = true ↔ ∃ ee, ee ∈ S ∧ ee_ChangeType ee = EntityStateChanged)) as [Hk Hs].
  { destruct Hf as [(-> & -> & ->)|[_ ? ?]]; [|done]. split; [intros k; split; [set_solver|by intros (? & ?%elem_of_nil & _)]|split; [done|by intros (? & ?%elem_of_nil & _)]]. }
  split.
  - exists ee. rewrite last_snoc. split; [done|]. unfold fold_entity. by destruct (ee_ChangeType ee).
  - intros k. rewrite (exists_later (λ ee, k ∈ names ee)) -Hk. unfold fold_entity, names. destruct (ee_ChangeType ee); cbn [ef_changedKeys]; set_solver.
  - rewrite (exists_later (λ ee, ee_ChangeType ee = EntityStateChanged)) -Hs. unfold fold_entity. destruct (ee_ChangeType ee); cbn [ef_stateChanged]; naive_solver.
Qed.
Lemma entity_summary n S f : summary new_entityFold fold_entity n S = Some f → entity_facts S f.
Proof.
  revert f. induction S as [|ee S IH] using rev_ind; intros f; [done|]. destruct (decide (S = [])) as [->|Hne].
  - intros [= <-]. apply (entity_step [] (new_entityFold ee n) ee). left. done.
  - rewrite summary_snoc //. intros (f0 & H0 & ->)%fmap_Some. apply entity_step. right. by apply IH.
Qed.

Record relation_facts (S : list RelationEvent) (f : relationFold) : Prop := {
  rn_last : ∃ re, last S = Some re ∧ rf_rel f = re_Relation re;
  rn_attr : rf_attrChanged f = true ↔ ∃ re, re ∈ S ∧ re_ChangeType re = RelationAttributeChanged;
}.
Lemma relation_step S f re : S = [] ∧ rf_attrChanged f = false ∨ relation_facts S f → relation_facts (S ++ [re]) (fold_relation f re).
Proof.
  intros Hf. assert (rf_attrChanged f = true ↔ ∃ re, re ∈ S ∧ re_ChangeType re = RelationAttributeChanged) as Hs.
  { destruct Hf as [(-> & ->)|[_ ?]]; [|done]. split; [done|by intros (? & ?%elem_of_nil & _)]. }
  split.
  - exists re. rewrite last_snoc. split; [done|]. unfold fold_relation. by destruct (re_ChangeType re).
  - rewrite (exists_later (λ re, re_ChangeType re = RelationAttributeChanged)) -Hs. unfold fold_relation. destruct (re_ChangeType re); cbn [rf_attrChanged]; naive_solver.
Qed.
Lemma relation_summary n S f : summary new_relationFold fold_relation n S = Some f → relation_facts S f.
Proof.
  revert f. induction S as [|re S IH] using rev_ind; intros f; [done|]. destruct (decide (S = [])) as [->|Hne].
  - intros [= <-]. apply (relation_step [] (new_relationFold re n) re). left. done.
  - rewrite summary_snoc //. intros (f0 & H0 & ->)%fmap_Some. apply relation_step. right. by apply IH.
Qed.

Definition ef_present (f : entityFold) : bool := negb (bool_decide (ef_lastLifecycle f = EntityDeleted)).
Definition rf_present (f : relationFold) : bool := negb (bool_decide (rf_lastLifecycle f = RelationRemoved)).
Lemma entity_present n S p q f : summary new_entityFold fold_entity n S = Some f → presence ee_effect p S = Some q →
  ef_createdFirst f = negb p ∧ ef_present f = q.
Proof.
  apply (summary_presence ee_effect new_entityFold fold_entity ef_createdFirst ef_present).
  - intros ee m. split; [|done]. unfold new_entityFold, ee_effect. by destruct (ee_ChangeType ee).
  - intros f0 ee. unfold ef_present, fold_entity, ee_effect. by destruct (ee_ChangeType ee).
Qed.
Lemma relation_present n S p q f : summary new_relationFold fold_relation n S = Some f → presence re_effect p S = Some q →
  rf_addedFirst f = negb p ∧ rf_present f = q.
Proof.
  apply (summary_presence re_effect new_relationFold fold_relation rf_addedFirst rf_present).
  - intros re m. split; [|done]. unfold new_relationFold, re_effect. by destruct (re_ChangeType re).
  - intros f0 re. unfold rf_present, fold_relation, re_effect. by destruct (re_ChangeType re).
Qed.
Lemma entity_seq n S f : summary new_entityFold fold_entity n S = Some f → ef_seq f = n.
Proof. apply (summary_seq new_entityFold fold_entity ef_seq); [done|]. intros f0 ee. unfold fold_entity. by destruct (ee_ChangeType ee). Qed.

(** ** Events apart *)

Definition ents (E : list Event) : list EntityEvent := omap ev_Entity E.
Definition rel_part (ev : Event) : option RelationEvent := match ev_Entity ev with None => ev_Relation ev | Some _ => None end.
Definition rels (E : list Event) : list RelationEvent := omap rel_part E.

Lemma fold_events evs : ∀ m1 m2, foldl fold_event (m1, m2) evs =
  (foldl (upsert entity_key new_entityFold fold_entity) m1 (ents evs), foldl (upsert relation_key new_relationFold fold_relation) m2 (rels evs)).
Proof.
  induction evs as [|ev evs IH]; intros m1 m2; [done|]. simpl. unfold fold_event at 2, rel_part. destruct (ev_Entity ev) as [ee|]; simpl; [apply IH|].
  destruct (ev_Relation ev) as [re|]; simpl; apply IH.
Qed.

Lemma omap_filter {A B} (f : A → option B) (P : A → Prop) (Q : B → Prop) `{!∀ x, Decision (P x)} `{!∀ x, Decision (Q x)} (l : list A) :
  (∀ x y, f x = Some y → (P x ↔ Q y)) → (∀ x, f x = None → ¬ P x) → base.filter Q (omap f l) = omap f (base.filter P l).
Proof.
  intros H1 H2. induction l as [|x l IH]; [done|]. rewrite filter_cons /=. destruct (f x) as [y|] eqn:E; simpl.
  - rewrite filter_cons. destruct (decide (Q y)) as [Hq|Hq]; (destruct (decide (P x)) as [Hp|Hp]; [|try by (destruct Hp; apply (H1 x y E))]); simpl; rewrite ?E ?IH; try done.
    by destruct Hq; apply (H1 x y E).
  - destruct (decide (P x)) as [Hp|Hp]; [by destruct (H2 x E)|done].
Qed.
Lemma of_key_ents id E : of_key entity_key id (ents E) = omap ev_Entity (story (false, id) E).
Proof.
  apply omap_filter; unfold thing, entity_key.
  - intros ev ee ->. naive_solver.
  - intros ev ->. by destruct (ev_Relation ev).
Qed.
Lemma of_key_rels id E : of_key relation_key id (rels E) = omap rel_part (story (true, id) E).
Proof.
  apply omap_filter; unfold thing, rel_part, relation_key.
  - intros ev re. destruct (ev_Entity ev); [done|]. intros ->. naive_solver.
  - intros ev. destruct (ev_Entity ev); [intros _; done|]. by intros ->.
Qed.

Lemma presence_ents p id E : presence ee_effect p (of_key entity_key id (ents E)) = presence ev_effect p (story (false, id) E).
Proof.
  rewrite of_key_ents. symmetry. apply presence_map.
  - intros ev ee H. unfold ev_effect. by rewrite H.
  - intros ev [H _]%list_elem_of_filter. unfold thing in H. destruct (ev_Entity ev); [eauto|]. by destruct (ev_Relation ev).
Qed.
Lemma presence_rels p id E : presence re_effect p (of_key relation_key id (rels E)) = presence ev_effect p (story (true, id) E).
Proof.
  rewrite of_key_rels. symmetry. apply presence_map.
  - intros ev re H. unfold ev_effect, rel_part in *. destruct (ev_Entity ev); [done|]. by rewrite H.
  - intros ev [H _]%list_elem_of_filter. unfold thing, rel_part in *. destruct (ev_Entity ev); [done|]. by destruct (ev_Relation ev).
Qed.

(** ** Last words *)

Lemma last_filter_split {A} (P : A → Prop) `{!∀ x, Decision (P x)} (l : list A) c : last (base.filter P l) = Some c →
  ∃ l1 l2, l = (l1 ++ c :: l2)%list ∧ Forall (λ x, ¬ P x) l2.
Proof.
  induction l as [|x l IH] using rev_ind; [done|]. rewrite list.filter_app. destruct (decide (P x)) as [Hx|Hx].
  - rewrite filter_cons_True // last_snoc. intros [= <-]. by exists l, [].
  - rewrite filter_cons_False // app_nil_r. intros (l1 & l2 & -> & Hl)%IH. exists l1, (l2 ++ [x])%list. rewrite -(assoc_L app). split; [done|].
    apply Forall_app. split; [done|]. by apply Forall_singleton.
Qed.

Section steady.
Context (same : relation Entity) `{!Equivalence same}.

(** After the last other event, heartbeats only restate it. *)
Lemma steady_final S1 c B p : steady same (S1 ++ c :: B)%list → Forall is_heartbeat B → state_of c = Some p →
  ∃ q, final (S1 ++ c :: B)%list = Some q ∧ same_state same p q.
Proof.
  intros Hs HB Hp. induction B as [|b B IH] using rev_ind.
  - exists p. split; [|reflexivity]. unfold final. by rewrite last_snoc.
  - apply Forall_app in HB as [HB Hb]. rewrite Forall_singleton in Hb.
    assert (S1 ++ c :: B ++ [b] = (S1 ++ c :: B) ++ [b])%list as E by (by rewrite -(assoc_L app)). rewrite E in Hs |- *.
    destruct IH as (q & Hq & Hpq); [by eapply steady_prefix|done|]. unfold final in Hq. destruct (last (S1 ++ c :: B)%list) as [d|] eqn:Hd; [|done]. simpl in Hq.
    destruct (Hs (S1 ++ c :: B)%list b [] d eq_refl Hb Hd) as (q' & r & Hq' & Hr & Hqr). exists r. unfold final. rewrite last_snoc. split; [done|].
    rewrite Hq in Hq'. injection Hq' as <-. etrans; [exact Hpq|exact Hqr].
Qed.
End steady.

Definition beatless (E : list Event) : list Event := base.filter (λ ev, is_beat ev = false) E.
Lemma beat_spec ev : is_beat ev = true ↔ is_heartbeat ev.
Proof. unfold is_beat, is_heartbeat. destruct (ev_Entity ev); [by rewrite bool_decide_eq_true|done]. Qed.
Lemma story_beatless t E : story t (beatless E) = beatless (story t E).
Proof.
  unfold story, beatless. induction E as [|ev E IH]; [done|]. rewrite !filter_cons. repeat case_decide; rewrite ?filter_cons; repeat case_decide; try done; by rewrite IH.
Qed.

(** ** Buckets *)

(** What a bucket means of a thing: whether it was there, is there, and what the window
    said of it. *)
Definition in_bucket (b : Bucket) (was there touched changed : Prop) : Prop :=
  match b with
  | BCreated => ¬ was ∧ there
  | BDeleted => was ∧ ¬ there
  | BTransient => ¬ was ∧ ¬ there ∧ touched
  | BChanged => was ∧ there ∧ changed
  end.

Lemma bucket_of_spec (cf pr ch : bool) b (was there touched changed : Prop) : (cf = true ↔ ¬ was) → (pr = true ↔ there) → (ch = true ↔ changed) → touched →
  (cf = false → was) → (bucket_of cf pr ch = Some b ↔ in_bucket b was there touched changed).
Proof.
  intros Hc Hp Hch Ht Hw. unfold bucket_of. destruct cf, pr, ch; cbn [andb negb]; destruct b; cbn [in_bucket];
    (split; [try discriminate; intros _|intros Hin; try reflexivity; exfalso]); naive_solver.
Qed.

Record listing {X} (ident : X → string) (order : list string) (P : string → Prop) (Q : X → Prop) (l : list X) : Prop := {
  ls_order : ident <$> l `sublist_of` order;
  ls_exact : ∀ id, id ∈ ident <$> l ↔ P id;
  ls_shown : ∀ x, x ∈ l → Q x;
}.

Lemma omap_sublist {F} (h : F → string) (g : string → option F) ks : (∀ k f, k ∈ ks → g k = Some f → h f = k) → h <$> omap g ks `sublist_of` ks.
Proof.
  induction ks as [|k ks IH]; intros Hg; [constructor|]. simpl. assert (h <$> omap g ks `sublist_of` ks) by (apply IH; intros k' f Hk; apply Hg; by right).
  destruct (g k) as [f|] eqn:E; [|by constructor]. rewrite fmap_cons (Hg k f) //; [by constructor|by left].
Qed.

Lemma folds_listing {F Ev X} (key : Ev → string) (new : Ev → nat → F) (step : F → Ev → F) (seq : F → nat)
    (Hnew : ∀ ev n, seq (new ev n) = n) (Hstep : ∀ f ev, seq (step f ev) = seq f)
    (bucket : F → option Bucket) (b : Bucket) (L : list Ev) (out : F → X) (ident : X → string) (P : string → Prop) (Q : X → Prop) :
  (∀ k n f, summary new step n (of_key key k L) = Some f → ident (out f) = k ∧ (bucket f = Some b ↔ P k) ∧ (bucket f = Some b → Q (out f))) →
  (∀ k, P k → k ∈ seen key L) →
  listing ident (seen key L) P Q (out <$> folds_of seq bucket b (fold_all key new step L)).
Proof.
  intros Hf Hk. rewrite (folds_in_order key new step seq Hnew Hstep). set (g := λ k, _).
  assert (∀ k f, g k = Some f → ident (out f) = k ∧ (bucket f = Some b ↔ P k) ∧ Q (out f) ∧ bucket f = Some b) as Hg.
  { intros k f H. unfold g in H. destruct (fold_all key new step L !! k) as [f'|] eqn:E; [|done]. simpl in H. case_bool_decide as Hb; [|done]. injection H as ->.
    apply (record_at key new step seq Hnew Hstep) in E as [_ Hs]. destruct (Hf _ _ _ Hs) as (? & ? & ?). auto. }
  split.
  - rewrite -list_fmap_compose. apply omap_sublist. intros k f _ H. by apply Hg.
  - intros id. rewrite list_elem_of_fmap. setoid_rewrite list_elem_of_fmap. setoid_rewrite list_elem_of_omap. split.
    + intros (x & -> & f & -> & k & _ & H). destruct (Hg k f H) as (-> & Hb & _ & Hb'). by apply Hb.
    + intros Hp. pose proof (Hk id Hp) as Hin. pose proof Hin as [i Hi]%list_elem_of_lookup_1. destruct (fold_all_spec key new step L) as (_ & Hat & _).
      destruct (summary new step i (of_key key id L)) as [f|] eqn:Hs; [|by apply seen_elem in Hin; destruct (of_key key id L)].
      destruct (Hf id i f Hs) as (Hid & Hb & _). exists (out f). split; [done|]. exists f. split; [done|]. exists id. split; [done|].
      assert (bucket f = Some b) as Hbk by (by apply Hb). unfold g. by rewrite (Hat i id Hi) Hs /= bool_decide_eq_true_2.
  - intros x (f & -> & (k & _ & H)%list_elem_of_omap)%list_elem_of_fmap. by apply (Hg k f H).
Qed.

(** ** The history of a window *)

Section window.
Context (same : relation Entity) `{!Equivalence same} (E1 E2 : list Event) (g0 g1 : Graph).
Hypothesis Hsteady : ∀ t, steady same (story t (E1 ++ E2)%list).
Hypothesis Hlaw : lawful_history (E1 ++ E2)%list.
Hypothesis H0 : tells same E1 g0.
Hypothesis H1 : tells same (E1 ++ E2)%list g1.

(** Present before and after, by the lifecycle of the thing. *)
Lemma window_presence t : ∃ p q, (is_Some (final (story t E1)) ↔ p = true) ∧ (is_Some (final (story t (E1 ++ E2)%list)) ↔ q = true) ∧
  presence ev_effect p (story t (beatless E2)) = Some q.
Proof.
  destruct (Hlaw t) as [q Hq]. assert (∀ E, Forall (λ ev, thing ev = Some t) (story t E)) as Ht by (intros E; apply Forall_forall; by intros ev [? _]%list_elem_of_filter).
  pose proof Hq as Hq'. rewrite story_app presence_app in Hq'. destruct (presence ev_effect false (story t E1)) as [p|] eqn:Hp; [|done]. simpl in Hq'.
  exists p, q. split; [by apply (final_presence t)|]. split; [by apply (final_presence t)|]. rewrite story_beatless. apply presence_skip; [|done].
  intros ev Hb%not_false_iff_true%beat_spec. unfold is_heartbeat, ev_effect, ee_effect in *. destruct (ev_Entity ev); [|done]. by rewrite Hb.
Qed.

Lemma entity_alive E g id : tells same E g → (is_Some (live g !! id) ↔ is_Some (final (story (false, id) E))).
Proof.
  intros [Hl _ _]. pose proof (Hl id) as H. unfold final_entity in H. split.
  - intros [e He]. rewrite He in H. destruct (final (story (false, id) E)); [eauto|by inversion H].
  - unfold final in *. intros [x Hx]. rewrite Hx in H. destruct (last (story (false, id) E)) as [ev|] eqn:Hlast; [|done]. simpl in Hx.
    assert (ev ∈ story (false, id) E) as [Ht _]%list_elem_of_filter by (by apply last_Some_elem_of). unfold thing, state_of in *.
    destruct (ev_Entity ev); [|by destruct (ev_Relation ev)]. case_bool_decide; [done|]. injection Hx as <-. inversion H. eauto.
Qed.
Lemma relation_alive E g id : tells same E g → (is_Some (g_relations g !! id) ↔ is_Some (final (story (true, id) E))).
Proof.
  intros [_ Hr _]. rewrite Hr. unfold final_relation, final. split; [destruct (last _ ≫= _); [eauto|by intros []]|]. intros [x Hx]. rewrite Hx.
  destruct (last (story (true, id) E)) as [ev|] eqn:Hlast; [|done]. simpl in Hx.
  assert (ev ∈ story (true, id) E) as [Ht _]%list_elem_of_filter by (by apply last_Some_elem_of). unfold thing, state_of in *.
  destruct (ev_Entity ev); [done|]. destruct (ev_Relation ev); [|done]. case_bool_decide; [done|]. injection Hx as <-. eauto.
Qed.

Lemma presence_last {A} (eff : A → option bool) p S x q : presence eff p S = Some q → last S = Some x → q = default true (eff x).
Proof.
  intros Hq [S' ->]%last_Some. rewrite presence_app in Hq. destruct (presence eff p S') as [r|]; [|done]. simpl in Hq.
  destruct (eff x) as [[|]|], r; simpl in *; congruence.
Qed.
Lemma last_omap {A B} (f : A → option B) (l : list A) y : (∀ x, x ∈ l → is_Some (f x)) → last (omap f l) = Some y → ∃ x, last l = Some x ∧ f x = Some y.
Proof.
  induction l as [|x l _] using rev_ind; [done|]. intros Hf. destruct (Hf x) as [z Hz]; [apply elem_of_app; right; by apply list_elem_of_singleton|].
  rewrite omap_app last_snoc /= Hz last_snoc. intros [= ->]. eauto.
Qed.

(** The record of an entity in the window. *)
Lemma entity_window id n f : summary new_entityFold fold_entity n (of_key entity_key id (ents (beatless E2))) = Some f →
  (ef_createdFirst f = true ↔ live g0 !! id = None) ∧ (ef_present f = true ↔ is_Some (live g1 !! id)) ∧ e_ID (ef_ent f) = id ∧
  (∃ ee, last (of_key entity_key id (ents (beatless E2))) = Some ee ∧ ef_ent f = ee_Entity ee ∧
     (ef_present f = false → ee_ChangeType ee = EntityDeleted ∧ ef_deleteReason f = ee_DeleteReason ee ∧ ef_deleteSource f = ee_DeleteSource ee)) ∧
  (ef_present f = true → ∃ e, live g1 !! id = Some e ∧ same (ef_ent f) e).
Proof.
  intros Hf. destruct (window_presence (false, id)) as (p & q & Hp & Hq & Hpq). rewrite -presence_ents in Hpq.
  destruct (entity_present _ _ _ _ _ Hf Hpq) as [Hc Hpr]. pose proof (entity_summary _ _ _ Hf) as [(ee & Hlast & Hent & Hdel) _ _].
  pose proof (presence_last _ _ _ _ _ Hpq Hlast) as Hq'. rewrite -(entity_alive E1 g0 id H0) in Hp. rewrite -(entity_alive _ g1 id H1) in Hq.
  assert (e_ID (ef_ent f) = id) as Hid.
  { assert (ee ∈ of_key entity_key id (ents (beatless E2))) as [? _]%list_elem_of_filter by (by apply last_Some_elem_of). by rewrite Hent. }
  split; [rewrite Hc eq_None_not_Some; destruct p; simpl; naive_solver|]. split; [rewrite Hpr Hq; done|]. split; [done|]. split.
  - exists ee. split; [done|]. split; [done|]. rewrite Hpr. intros ->. unfold ee_effect in Hq'. destruct (ee_ChangeType ee) eqn:Hct; try discriminate Hq'. split; [done|]. by apply Hdel.
  - rewrite Hpr. intros ->. assert (ee_ChangeType ee ≠ EntityDeleted) as Hne by (intros Hd; unfold ee_effect in Hq'; by rewrite Hd in Hq').
    rewrite of_key_ents story_beatless in Hlast. apply last_omap in Hlast as (ev & Hev & Hee).
    2:{ intros ev [_ [Ht _]%list_elem_of_filter]%list_elem_of_filter. unfold thing in Ht. destruct (ev_Entity ev); [eauto|by destruct (ev_Relation ev)]. }
    apply last_filter_split in Hev as (l1 & l2 & Hst & Hb). pose proof (Hsteady (false, id)) as Hs. rewrite story_app Hst (assoc_L app) in Hs.
    destruct (steady_final same (story (false, id) E1 ++ l1)%list ev l2 (inl (ee_Entity ee)) Hs) as (r & Hr & Hsame).
    { eapply Forall_impl; [exact Hb|]. intros x Hx. cbn in Hx. apply beat_spec. by destruct (is_beat x). }
    { unfold state_of. by rewrite Hee bool_decide_eq_false_2. }
    pose proof (tl_live _ _ _ H1 id) as Hl. unfold final_entity in Hl. rewrite story_app Hst (assoc_L app) Hr in Hl. destruct r as [e|]; [|done].
    inversion Hl as [x y Hxy Hx Hy|]; subst. exists x. split; [done|]. rewrite Hent. simpl in Hsame. etrans; [exact Hsame|by symmetry].
Qed.

(** The record of a relation. *)
Lemma relation_window id n f : summary new_relationFold fold_relation n (of_key relation_key id (rels (beatless E2))) = Some f →
  (rf_addedFirst f = true ↔ g_relations g0 !! id = None) ∧ (rf_present f = true ↔ is_Some (g_relations g1 !! id)) ∧ r_ID (rf_rel f) = id ∧
  (∃ re, last (of_key relation_key id (rels (beatless E2))) = Some re ∧ rf_rel f = re_Relation re) ∧
  (rf_present f = true → g_relations g1 !! id = Some (rf_rel f)).
Proof.
  intros Hf. destruct (window_presence (true, id)) as (p & q & Hp & Hq & Hpq). rewrite -presence_rels in Hpq.
  destruct (relation_present _ _ _ _ _ Hf Hpq) as [Hc Hpr]. pose proof (relation_summary _ _ _ Hf) as [(re & Hlast & Hrel) _].
  pose proof (presence_last _ _ _ _ _ Hpq Hlast) as Hq'. rewrite -(relation_alive E1 g0 id H0) in Hp. rewrite -(relation_alive _ g1 id H1) in Hq.
  assert (r_ID (rf_rel f) = id) as Hid.
  { assert (re ∈ of_key relation_key id (rels (beatless E2))) as [? _]%list_elem_of_filter by (by apply last_Some_elem_of). by rewrite Hrel. }
  split; [rewrite Hc eq_None_not_Some; destruct p; simpl; naive_solver|]. split; [rewrite Hpr Hq; done|]. split; [done|]. split; [by exists re|].
  rewrite Hpr. intros ->. assert (re_ChangeType re ≠ RelationRemoved) as Hne by (intros Hd; unfold re_effect in Hq'; by rewrite Hd in Hq').
  rewrite of_key_rels story_beatless in Hlast. apply last_omap in Hlast as (ev & Hev & Hre).
  2:{ intros ev [_ [Ht _]%list_elem_of_filter]%list_elem_of_filter. unfold thing, rel_part in *. destruct (ev_Entity ev); [done|by destruct (ev_Relation ev)]. }
  apply last_filter_split in Hev as (l1 & l2 & Hst & Hb). destruct l2 as [|b l2].
  2:{ exfalso. apply Forall_cons in Hb as [Hb _]. assert (b ∈ story (true, id) E2) as [Ht _]%list_elem_of_filter by (rewrite Hst; set_solver).
      unfold thing, is_beat in *. by destruct (ev_Entity b). }
  rewrite (tl_relations _ _ _ H1 id). unfold final_relation, final. rewrite story_app Hst (assoc_L app) last_snoc /=. unfold state_of, rel_part in *.
  destruct (ev_Entity ev); [done|]. rewrite Hre bool_decide_eq_false_2 //. by rewrite Hrel.
Qed.

(** ** The buckets of a window *)

Definition entity_order : list string := seen entity_key (ents (beatless E2)).
Definition relation_order : list string := seen relation_key (rels (beatless E2)).

(** The entities and the relations of a bucket. *)
Definition entities_in (b : Bucket) (id : string) : Prop :=
  in_bucket b (is_Some (live g0 !! id)) (is_Some (live g1 !! id)) (id ∈ entity_order)
    (∃ ee, ee ∈ ents E2 ∧ entity_key ee = id ∧ names ee ≠ []).
Definition relations_in (b : Bucket) (id : string) : Prop :=
  in_bucket b (is_Some (g_relations g0 !! id)) (is_Some (g_relations g1 !! id)) (id ∈ relation_order)
    (∃ re, re ∈ rels E2 ∧ relation_key re = id ∧ re_ChangeType re = RelationAttributeChanged).

(** What is shown of them. *)
Definition shows_live (x : EntityOut) : Prop := ∃ e e', live g1 !! eo_ID x = Some e' ∧ same e e' ∧ x = entityOut e false.
Definition shows_changes (x : EntityDiff) : Prop :=
  shows_live (df_Entity x) ∧ StronglySorted (key_le id) (df_ChangedKeys x) ∧
  (∀ k, k ∈ df_ChangedKeys x ↔ ∃ ee, ee ∈ ents E2 ∧ entity_key ee = eo_ID (df_Entity x) ∧ k ∈ names ee) ∧
  (df_StateChanged x = true ↔ ∃ ee, ee ∈ ents E2 ∧ entity_key ee = eo_ID (df_Entity x) ∧ ee_ChangeType ee = EntityStateChanged).
Definition shows_deletion (x : DeletedEntity) : Prop :=
  ∃ ee, last (of_key entity_key (eo_ID (de_Entity x)) (ents (beatless E2))) = Some ee ∧ ee_ChangeType ee = EntityDeleted ∧
    x = mkDeletedEntity (entityOut (ee_Entity ee) true) (ee_DeleteReason ee) (ee_DeleteSource ee).
Definition shows_relation (x : RelationOut) : Prop := ∃ r, g_relations g1 !! ro_ID x = Some r ∧ x = relationOut r.
Definition shows_removal (x : RelationOut) : Prop :=
  ∃ re, last (of_key relation_key (ro_ID x) (rels (beatless E2))) = Some re ∧ x = relationOut (re_Relation re).

Lemma of_key_events id (P : EntityEvent → Prop) : (∀ ee, P ee → ee_ChangeType ee ≠ EntityUnchanged) →
  (∃ ee, ee ∈ of_key entity_key id (ents (beatless E2)) ∧ P ee) ↔ ∃ ee, ee ∈ ents E2 ∧ entity_key ee = id ∧ P ee.
Proof.
  intros HP. unfold of_key, ents, beatless. setoid_rewrite list_elem_of_filter. setoid_rewrite list_elem_of_omap. setoid_rewrite list_elem_of_filter. split.
  - intros (ee & (Hk & ev & (_ & Hev) & He) & Hp). exists ee. split; [by exists ev|done].
  - intros (ee & (ev & Hev & He) & Hk & Hp). exists ee. split; [|done]. split; [done|]. exists ev. split; [|done]. split; [|done].
    unfold is_beat. rewrite He. apply bool_decide_eq_false_2. by apply HP.
Qed.
Lemma of_key_relations id (P : RelationEvent → Prop) :
  (∃ re, re ∈ of_key relation_key id (rels (beatless E2)) ∧ P re) ↔ ∃ re, re ∈ rels E2 ∧ relation_key re = id ∧ P re.
Proof.
  unfold of_key, rels, beatless. setoid_rewrite list_elem_of_filter. setoid_rewrite list_elem_of_omap. setoid_rewrite list_elem_of_filter. split.
  - intros (re & (Hk & ev & (_ & Hev) & He) & Hp). exists re. split; [by exists ev|done].
  - intros (re & (ev & Hev & He) & Hk & Hp). exists re. split; [|done]. split; [done|]. exists ev. split; [|done]. split; [|done].
    unfold rel_part in He. unfold is_beat. by destruct (ev_Entity ev).
Qed.

Lemma names_beat ee : names ee ≠ [] → ee_ChangeType ee ≠ EntityUnchanged.
Proof. unfold names. by destruct (ee_ChangeType ee). Qed.

(** A thing whose presence changed was named in the window. *)
Lemma entity_named b id : entities_in b id → id ∈ entity_order.
Proof.
  unfold entities_in, entity_order. intros Hin. apply seen_elem. intros Hnil. destruct (window_presence (false, id)) as (p & q & Hp & Hq & Hpq).
  rewrite -presence_ents Hnil in Hpq. injection Hpq as ->. rewrite -(entity_alive E1 g0 id H0) in Hp. rewrite -(entity_alive _ g1 id H1) in Hq.
  destruct b; cbn [in_bucket] in Hin; [by destruct Hin; naive_solver..| |].
  - destruct Hin as (_ & _ & ee & Hee & Hk & Hn). destruct (proj2 (of_key_events id (λ ee, names ee ≠ []) names_beat)) as (ee' & Hin & _); [eauto|].
    rewrite Hnil in Hin. by apply elem_of_nil in Hin.
  - destruct Hin as (_ & _ & Hin). by apply seen_elem in Hin.
Qed.
Lemma relation_named b id : relations_in b id → id ∈ relation_order.
Proof.
  unfold relations_in, relation_order. intros Hin. apply seen_elem. intros Hnil. destruct (window_presence (true, id)) as (p & q & Hp & Hq & Hpq).
  rewrite -presence_rels Hnil in Hpq. injection Hpq as ->. rewrite -(relation_alive E1 g0 id H0) in Hp. rewrite -(relation_alive _ g1 id H1) in Hq.
  destruct b; cbn [in_bucket] in Hin; [by destruct Hin; naive_solver..| |].
  - destruct Hin as (_ & _ & re & Hre & Hk & Hn). destruct (proj2 (of_key_relations id (λ re, re_ChangeType re = RelationAttributeChanged))) as (re' & Hin & _); [eauto|].
    rewrite Hnil in Hin. by apply elem_of_nil in Hin.
  - destruct Hin as (_ & _ & Hin). by apply seen_elem in Hin.
Qed.

Lemma entity_bucket_spec b id n f : summary new_entityFold fold_entity n (of_key entity_key id (ents (beatless E2))) = Some f →
  (entity_bucket f = Some b ↔ entities_in b id).
Proof.
  intros Hf. destruct (entity_window id n f Hf) as (Hc & Hp & Hid & _). pose proof (entity_summary _ _ _ Hf) as [_ Hk _].
  apply (bucket_of_spec (ef_createdFirst f) (ef_present f)).
  - by rewrite Hc eq_None_not_Some.
  - done.
  - rewrite negb_true_iff bool_decide_eq_false -(of_key_events id (λ ee, names ee ≠ []) names_beat). split.
    + intros [k (ee & Hee & Hn)%Hk]%set_choose_L. exists ee. split; [done|]. intros E. rewrite E in Hn. by apply elem_of_nil in Hn.
    + intros (ee & Hee & Hn) E. destruct (names ee) as [|k l] eqn:En; [done|]. assert (k ∈ ef_changedKeys f) as Hin by (apply Hk; exists ee; split; [done|rewrite En; by left]). set_solver.
  - apply seen_elem. intros E. by rewrite E in Hf.
  - intros Hcf. destruct (live g0 !! id) eqn:E; [eauto|]. by rewrite (proj2 Hc) in Hcf.
Qed.
Lemma relation_bucket_spec b id n f : summary new_relationFold fold_relation n (of_key relation_key id (rels (beatless E2))) = Some f →
  (relation_bucket f = Some b ↔ relations_in b id).
Proof.
  intros Hf. destruct (relation_window id n f Hf) as (Hc & Hp & Hid & _). pose proof (relation_summary _ _ _ Hf) as [_ Hk].
  apply (bucket_of_spec (rf_addedFirst f) (rf_present f)).
  - by rewrite Hc eq_None_not_Some.
  - done.
  - by rewrite Hk (of_key_relations id (λ re, re_ChangeType re = RelationAttributeChanged)).
  - apply seen_elem. intros E. by rewrite E in Hf.
  - intros Hcf. destruct (g_relations g0 !! id) eqn:E; [eauto|]. by rewrite (proj2 Hc) in Hcf.
Qed.

Lemma entityOut_ID e b : eo_ID (entityOut e b) = e_ID e.
Proof. done. Qed.

(** What is shown of a record of a bucket. *)
Lemma entity_shown b id n f : summary new_entityFold fold_entity n (of_key entity_key id (ents (beatless E2))) = Some f → entity_bucket f = Some b →
  match b with
  | BCreated => shows_live (entityOut (ef_ent f) false)
  | BChanged => shows_changes (diffOut f)
  | BDeleted | BTransient => shows_deletion (deletedOut f)
  end.
Proof.
  intros Hf Hb. destruct (entity_window id n f Hf) as (_ & _ & Hid & (ee & Hlast & Hent & Hdel) & Hlive). pose proof (entity_summary _ _ _ Hf) as [_ Hk Hs].
  assert (ef_present f = true → shows_live (entityOut (ef_ent f) false)) as Hl.
  { intros (e & He & Hsame)%Hlive. exists (ef_ent f), e. by rewrite entityOut_ID Hid. }
  assert (ef_present f = false → shows_deletion (deletedOut f)) as Hd.
  { intros (Hct & Hr & Hsrc)%Hdel. exists ee. split; [by rewrite entityOut_ID Hid|]. split; [done|]. unfold deletedOut. by rewrite Hent Hr Hsrc. }
  unfold entity_bucket, bucket_of in Hb. fold (ef_present f) in Hb.
  destruct (ef_createdFirst f), (ef_present f) eqn:E, (negb (bool_decide (ef_changedKeys f = ∅))); simpl in Hb; try discriminate Hb; injection Hb as <-; auto.
  unfold shows_changes, diffOut. cbn [df_Entity df_ChangedKeys df_StateChanged]. rewrite entityOut_ID Hid. split; [by apply Hl|]. split; [apply sort_by_sorted|]. split.
  - intros k. rewrite sort_by_elem elem_of_elements Hk. apply (of_key_events id (λ ee, k ∈ names ee)). intros ee' Hin. apply names_beat. intros E0. rewrite E0 in Hin. by apply elem_of_nil in Hin.
  - rewrite Hs. apply (of_key_events id (λ ee, ee_ChangeType ee = EntityStateChanged)). by intros ee' ->.
Qed.
Lemma relation_shown b id n f : summary new_relationFold fold_relation n (of_key relation_key id (rels (beatless E2))) = Some f → relation_bucket f = Some b →
  match b with
  | BCreated | BChanged => shows_relation (relationOut (rf_rel f))
  | BDeleted | BTransient => shows_removal (relationOut (rf_rel f))
  end.
Proof.
  intros Hf Hb. destruct (relation_window id n f Hf) as (_ & _ & Hid & (re & Hlast & Hrel) & Hlive).
  assert (rf_present f = true → shows_relation (relationOut (rf_rel f))) as Hl.
  { intros Hg%Hlive. exists (rf_rel f). by rewrite /= Hid. }
  assert (shows_removal (relationOut (rf_rel f))) as Hd.
  { exists re. split; [by rewrite /= Hid|]. by rewrite Hrel. }
  unfold relation_bucket, bucket_of in Hb. fold (rf_present f) in Hb.
  destruct (rf_addedFirst f), (rf_present f) eqn:E, (rf_attrChanged f); simpl in Hb; try discriminate Hb; injection Hb as <-; auto.
Qed.

(** The records of a bucket are the things of it. *)
Lemma entity_listing {X} b (out : entityFold → X) (ident : X → string) (Q : X → Prop) : (∀ f, ident (out f) = e_ID (ef_ent f)) →
  (∀ id n f, summary new_entityFold fold_entity n (of_key entity_key id (ents (beatless E2))) = Some f → entity_bucket f = Some b → Q (out f)) →
  listing ident entity_order (entities_in b) Q (out <$> folds_of ef_seq entity_bucket b (fold_all entity_key new_entityFold fold_entity (ents (beatless E2)))).
Proof.
  intros Hi HQ. apply folds_listing; [done|intros f ee; unfold fold_entity; by destruct (ee_ChangeType ee)| |apply entity_named].
  intros id n f Hf. rewrite Hi. split; [by destruct (entity_window id n f Hf) as (_ & _ & ? & _)|]. split; [by eapply entity_bucket_spec|by eapply HQ].
Qed.
Lemma relation_listing b (Q : RelationOut → Prop) :
  (∀ id n f, summary new_relationFold fold_relation n (of_key relation_key id (rels (beatless E2))) = Some f → relation_bucket f = Some b → Q (relationOut (rf_rel f))) →
  listing ro_ID relation_order (relations_in b) Q ((relationOut ∘ rf_rel) <$> folds_of rf_seq relation_bucket b (fold_all relation_key new_relationFold fold_relation (rels (beatless E2)))).
Proof.
  intros HQ. apply folds_listing; [done|intros f re; unfold fold_relation; by destruct (re_ChangeType re)| |apply relation_named].
  intros id n f Hf. split; [by destruct (relation_window id n f Hf) as (_ & _ & ? & _)|]. split; [by eapply relation_bucket_spec|by eapply HQ].
Qed.

(** ** The answer *)

(** A list of the answer: the first of a listing, and how many there are. *)
Definition page {X} (limit : nat) (ident : X → string) (order : list string) (P : string → Prop) (Q : X → Prop) (shown : list X) (total : nat) : Prop :=
  ∃ l, listing ident order P Q l ∧ shown = take limit l ∧ total = length l.
Definition all_totals (t : DiffTotals) : list nat :=
  [dt_EntitiesCreated t; dt_EntitiesDeleted t; dt_EntitiesChanged t; dt_EntitiesTransient t;
   dt_RelationsAdded t; dt_RelationsRemoved t; dt_RelationsChanged t; dt_RelationsTransient t].

Record compares (limit : nat) (out : GraphDiffOutput) : Prop := {
  cp_created : page limit eo_ID entity_order (entities_in BCreated) shows_live (gd_EntitiesCreated out) (dt_EntitiesCreated (gd_Totals out));
  cp_deleted : page limit (eo_ID ∘ de_Entity) entity_order (entities_in BDeleted) shows_deletion (gd_EntitiesDeleted out) (dt_EntitiesDeleted (gd_Totals out));
  cp_changed : page limit (eo_ID ∘ df_Entity) entity_order (entities_in BChanged) shows_changes (gd_EntitiesChanged out) (dt_EntitiesChanged (gd_Totals out));
  cp_transient : page limit (eo_ID ∘ de_Entity) entity_order (entities_in BTransient) shows_deletion (gd_EntitiesTransient out) (dt_EntitiesTransient (gd_Totals out));
  cp_added : page limit ro_ID relation_order (relations_in BCreated) shows_relation (gd_RelationsAdded out) (dt_RelationsAdded (gd_Totals out));
  cp_removed : page limit ro_ID relation_order (relations_in BDeleted) shows_removal (gd_RelationsRemoved out) (dt_RelationsRemoved (gd_Totals out));
  cp_altered : page limit ro_ID relation_order (relations_in BChanged) shows_relation (gd_RelationsChanged out) (dt_RelationsChanged (gd_Totals out));
  cp_passing : page limit ro_ID relation_order (relations_in BTransient) shows_removal (gd_RelationsTransient out) (dt_RelationsTransient (gd_Totals out));
  cp_truncated : gd_Truncated out = true ↔ Exists (λ n, (limit < n)%nat) (all_totals (gd_Totals out));
  cp_quiet : gd_Summary out = "No net change between the two instants."%string ↔ Forall (λ n, n = 0%nat) (all_totals (gd_Totals out));
}.

Lemma page_of {F X} limit (out : F → X) ident order P Q (l : list F) : listing ident order P Q (out <$> l) →
  page limit ident order P Q (out <$> take limit l) (length l).
Proof. intros Hl. exists (out <$> l). by rewrite fmap_take length_fmap. Qed.

Lemma truncated_spec limit l : foldl (λ b n, b || (limit <? n)%nat) false l = true ↔ Exists (λ n, (limit < n)%nat) l.
Proof.
  induction l as [|n l IH] using rev_ind; [split; [done|by intros []%Exists_nil]|]. by rewrite foldl_app /= orb_true_iff IH Exists_app Exists_cons Exists_nil Nat.ltb_lt right_id.
Qed.

Lemma quiet_spec t : diffSummary t = "No net change between the two instants."%string ↔ Forall (λ n, n = 0%nat) (all_totals t).
Proof.
  assert (∀ n w, counted n w = [] ↔ n = 0%nat) as Hc by (intros n w; unfold counted; destruct (Nat.ltb_spec 0 n); split; [done|lia|lia|done]).
  unfold all_totals. rewrite !Forall_cons Forall_nil -!(Hc _ ""%string). unfold diffSummary.
  match goal with |- context [match ?l with [] => _ | _ => _ end] => destruct l as [|w ws] eqn:E end.
  - split; [intros _|done]. do 7 (apply app_eq_nil in E as [?%Hc E]). apply Hc in E. rewrite !Hc. lia.
  - split; [by intros ?|]. rewrite !Hc. intros (? & ? & ? & ? & ? & ? & ? & ? & _).
    repeat match goal with H : _ = 0%nat |- _ => rewrite H in E; clear H end. discriminate E.
Qed.

Lemma diff_compares limit : let '(m1, m2) := foldl fold_event (∅, ∅) (beatless E2) in compares limit (diff_of limit m1 m2).
Proof.
  rewrite fold_events. split.
  1-4: apply page_of, entity_listing; [done|intros id n f Hf Hb; by apply (entity_shown _ id n f Hf) in Hb].
  1-4: apply page_of, relation_listing; intros id n f Hf Hb; by apply (relation_shown _ id n f Hf) in Hb.
  - exact (truncated_spec limit (all_totals (gd_Totals (diff_of limit _ _)))).
  - apply quiet_spec.
Qed.
End window.

(** ** The window of the store *)

Lemma time_order_trans x y z : time_order x y → time_order y z → time_order x z.
Proof. unfold time_order. lia. Qed.

Section split.
Context `{Pr : !Proto} `{!ProtoLaws}.

(** Two windows that meet are one. *)
Lemma by_time_split m L a b c : represents m L → u64 a <= u64 b <= u64 c → by_time a c L = (by_time a b L ++ by_time b c L)%list.
Proof.
  intros HR Hle. apply (StronglySorted_unique_strong time_order).
  - intros x y [_ Hx]%by_time_elem Hy H1 H2. unfold time_order in *. lia.
  - by eapply by_time_sorted.
  - apply StronglySorted_append; [by eapply by_time_sorted..|]. intros x y [[_ Hx] _]%by_time_elem [[Hy _] _]%by_time_elem. left. lia.
  - assert (∀ s e, NoDup (by_time s e L)) as Hw by (intros s e; exact (NoDup_fmap_1 _ _ (time_keys_NoDup m L s e HR))).
    apply NoDup_Permutation; [apply Hw|apply NoDup_app; split_and!; [apply Hw| |apply Hw]|].
    + intros x [[_ H1] _]%by_time_elem [[H2 _] _]%by_time_elem. lia.
    + intros x. rewrite elem_of_app !by_time_elem. unfold in_window. split; [|intros [[? ?]|[? ?]]; split; [lia|done|lia|done]].
      intros [Hx ?]. destruct (decide (u64 (ev_nano x.2) < u64 b)); [left|right]; (split; [lia|done]).
Qed.

End split.

Lemma ev_ct_beat ev : known_kind ev → (ev_ct ev = EntityUnchanged ↔ is_beat ev = true).
Proof.
  unfold known_kind, ev_ct, is_beat. destruct (ev_Entity ev); [by rewrite bool_decide_eq_true|]. destruct (ev_Relation ev) as [re|]; [|done].
  intros [H _]. split; [|done]. intros E. by rewrite E in H.
Qed.

Section store.
Context {D : Type} `{!Pebble D} `{!PebbleLaws D} `{!Proto} `{!ProtoLaws}.

(** The events of the window but for its heartbeats. *)
Lemma keep_window (s : Store D) L F : store_ok s L → (∀ x, x ∈ F → x ∈ L) → Forall known_kind F.*2 →
  match keep_events (λ seq, Resolve seq s) ((λ x, mkTimeIndexEntry x.1 (ev_ct x.2) (ev_structural x.2) true) <$> F) with
  | inr evs => evs = beatless F.*2
  | inl err => is_io err = true
  end.
Proof.
  intros Hok. pose proof (so_log s L Hok) as HR. induction F as [|[n ev] F IH]; intros Hin Hk; [done|]. rewrite !fmap_cons in Hk |- *.
  apply Forall_cons in Hk as [Hev Hk]. specialize (IH (λ x Hx, Hin x (list_elem_of_further _ _ _ Hx)) Hk). cbn [keep_events ti_Tagged ti_ChangeType ti_Seq fst snd andb negb].
  assert ((n, ev) ∈ L) as HL by (apply Hin; by left). unfold beatless in *. rewrite filter_cons.
  case_bool_decide as Hb; rewrite ev_ct_beat // in Hb; [by rewrite decide_False // Hb|]. rewrite decide_True; [|by destruct (is_beat ev)].
  pose proof (resolve_one (s_db s) L n HR) as H1. unfold Resolve. destruct (resolveSeq (s_db s) n) as [err|[ev'|]]; [done| |by destruct (H1 ev)].
  assert (ev' = ev) as -> by (eapply (represents_fun _ L n); [done|apply H1; by eapply rp_range|done]). fold (@Resolve D _ _) in *.
  destruct (keep_events _ _) as [err|evs]; [done|]. by rewrite IH.
Qed.

(** Whatever the entries, only the database fails. *)
Lemma keep_io (s : Store D) L es err : store_ok s L → keep_events (λ seq, Resolve seq s) es = inl err → is_io err = true.
Proof.
  intros Hok. induction es as [|e es IH]; [done|]. cbn [keep_events]. case_match; [done|].
  pose proof (resolve_one (s_db s) L (ti_Seq e) (so_log s L Hok)) as Hone. unfold Resolve in *. destruct (resolveSeq _ _) as [err'|[ev|]]; [by intros [= <-]| |done].
  case_match; [done|]. destruct (keep_events _ es) as [err'|]; [|done]. intros [= ->]. by apply IH.
Qed.

Context (same : relation Entity) `{!Equivalence same}.

(** C19. A diff compares two instants. For a log whose stories up to the end are lawful (a
    thing appears only when absent, and changes or goes only when present, and a heartbeat
    restates), graph_diff fails only as the database or the caller's context does, or
    answers the comparison of the graph replayed to the start with the graph replayed to
    the end: created, deleted, changed and transient lists hold exactly the entities and
    relations absent then and present now, present then and absent now, present at both
    with a reported change, and absent at both yet named in between; each is in the order
    in which its things were first named, shows the state at the end (or the last one
    told, with the reason of the deletion), is cut at the limit after its total is counted, and the summary
    says no net change just when all totals are zero. *)
Theorem diff_compares_instants (ctx : nat → option string) (from to now : Time) (limit : Z) (s : Store D) (L : list (Z * Event))
    (Hok : store_ok s L) (Hidx : indexed_log L) (Hcts : ∀ n ev, (n, ev) ∈ L → ct_canonical (ev_ct ev) ∧ 0 <= ct_int (ev_ct ev) < 128)
    (Hle : u64 (unix_nano from) <= u64 (unix_nano to))
    (Hk : Forall known_kind (by_time 0 (unix_nano to) L).*2)
    (Hsteady : ∀ t, steady same (story t (by_time 0 (unix_nano to) L).*2))
    (Hlaw : lawful_history (by_time 0 (unix_nano to) L).*2) :
  let before := Replay now (by_time 0 (unix_nano from) L).*2 New in
  let after := Replay now (by_time 0 (unix_nano to) L).*2 New in
  match graphDiff ctx from to limit s with
  | inr out => compares same (by_time (unix_nano from) (unix_nano to) L).*2 before after (Z.to_nat (clampLimit limit)) out
  | inl err => is_io err = true
  end.
Proof.
  intros before after. unfold graphDiff. pose proof (scan_time_index_log ctx from to false s L Hok Hidx Hcts) as Hscan.
  destruct (ScanTimeIndex ctx from to false s) as [entries err].
  pose proof (so_log s L Hok) as HR. assert (u64 0 <= u64 (unix_nano from) <= u64 (unix_nano to)) as Hord by (split; [apply Z.mod_pos_bound; lia|done]).
  pose proof (by_time_split _ L _ _ _ HR Hord) as Hsplit. subst before after. rewrite Hsplit fmap_app in Hk Hsteady Hlaw |- *.
  apply Forall_app in Hk as [Hk1 Hk2].
  set (E1 := (by_time 0 (unix_nano from) L).*2) in *. set (E2 := (by_time (unix_nano from) (unix_nano to) L).*2) in *.
  assert (tells same E1 (Replay now E1 New)) as HT0.
  { apply replay_tells; [done|done|]. intros t. specialize (Hsteady t). rewrite story_app in Hsteady. by eapply steady_prefix. }
  assert (tells same (E1 ++ E2)%list (Replay now (E1 ++ E2)%list New)) as HT1 by (apply replay_tells; [done|by apply Forall_app|done]).
  destruct err as [e|].
  - destruct (keep_events _ entries) as [e'|] eqn:Hkeep; [by eapply keep_io|done].
  - subst entries.
    pose proof (keep_window s L (by_time (unix_nano from) (unix_nano to) L) Hok (λ x Hx, proj2 (proj1 (by_time_elem _ _ _ _) Hx)) Hk2) as Hkeep.
    cbn [id] in *. destruct (keep_events _ _) as [e|evs]; [done|]. subst evs.
    pose proof (diff_compares same E1 E2 _ _ Hsteady Hlaw HT0 HT1 (Z.to_nat (clampLimit limit))) as Hd.
    fold E2. destruct (foldl fold_event _ _). exact Hd.
Qed.
End store.
