(* ===== verification/Sink.v ===== *)
(** * The shared object store: internal/logship/sink.go

    Log segments and operator annotations go to one object store, through the interface
    [Sink] that the code names [logship.Sink] and [annotations.ObjectStore]: named objects
    written whole, read by name and listed by prefix. The string functions of Go that take
    names apart are here too. *)
From S2P Require Import Prelude GoStd Values Entities Events Keys.
Open Scope Z_scope.

(** ** strings *)

Definition hasPrefix (p s : string) : bool := bool_decide (str_take (String.length p) s = p).
Definition hasSuffix (x s : string) : bool :=
  (String.length x <=? String.length s)%nat && bool_decide (str_drop (String.length s - String.length x) s = x).
Definition trimPrefix (p s : string) : string := if hasPrefix p s then str_drop (String.length p) s else s.
Definition trimSuffix (x s : string) : string :=
  if hasSuffix x s then str_take (String.length s - String.length x) s else s.

(** What follows the last [c], if there is one. *)
Fixpoint after_last (c : ascii) (s : string) : option string :=
  match s with
  | EmptyString => None
  | String d s =>
    match after_last c s with
    | Some t => Some t
    | None => if Ascii.eqb d c then Some s else None
    end
  end.

(** [encoding/hex]: the digits of either case. *)
Definition hex_value (c : ascii) : option N :=
  let n := N_of_ascii c in
  if (48 <=? n)%N && (n <=? 57)%N then Some (n - 48)%N
  else if (97 <=? n)%N && (n <=? 102)%N then Some (n - 87)%N
  else if (65 <=? n)%N && (n <=? 70)%N then Some (n - 55)%N
  else None.

(** [strconv.ParseUint(s, 16, 64)]: digits, at least one, of a value in range. *)
Fixpoint parse_hex_go (acc : Z) (s : string) : option Z :=
  match s with
  | EmptyString => Some acc
  | String c s => match hex_value c with Some d => parse_hex_go (acc * 16 + Z.of_N d) s | None => None end
  end.
Definition ParseUint16 (s : string) : option Z :=
  match s with
  | EmptyString => None
  | _ => match parse_hex_go 0 s with Some n => if n <? 18446744073709551616 then Some n else None | None => None end
  end.

(** [hex.DecodeString]. *)
Fixpoint hex_decode (s : string) : option string :=
  match s with
  | EmptyString => Some ""
  | String a (String b s) =>
    match hex_value a, hex_value b, hex_decode s with
    | Some x, Some y, Some t => Some (String (ascii_of_N (x * 16 + y)) t)
    | _, _, _ => None
    end
  | _ => None
  end.

(** [fmt.Sprintf("%016x", n)]. *)
Definition hex16 (n : Z) : string := hex_encode (encodeU64 n).

(** ** The store *)

(** Operations on objects with payload [V]: an answer, or the message of a failure, the
    caller's cancelled context being one. *)
Class Sink (V R : Type) := {
  sk_put : string → V → R → R * option string;
  sk_get : string → R → string + V;
  sk_list : string → R → string + list string;
}.

(** What its comments promise: an object is read as it was written, a list holds the
    names under the prefix in lexical order, and a put is atomic; one that fails may have
    landed. *)
Class SinkLaws (V R : Type) `{!Sink V R} := {
  objects : R → gmap string V;
  sk_get_sound : ∀ n r v, sk_get n r = inr v → objects r !! n = Some v;
  sk_list_sound : ∀ p r l, sk_list p r = inr l → l = base.filter (λ n, hasPrefix p n = true) (sorted_keys (objects r));
  sk_put_ok : ∀ n v r r', sk_put n v r = (r', None) → objects r' = <[n := v]> (objects r);
  sk_put_failed : ∀ n v r r' msg, sk_put n v r = (r', Some msg) → objects r' = objects r ∨ objects r' = <[n := v]> (objects r);
}.
#[export] Hint Mode SinkLaws - ! - : typeclass_instances.

(** ** Lemmas on names *)

Lemma str_take_0 s : str_take 0 s = ""%string.
Proof. by destruct s. Qed.
Lemma str_take_drop n s : str_take n s +++ str_drop n s = s.
Proof. revert n. induction s as [|c s IH]; intros [|n]; simpl; try done. by rewrite IH. Qed.
Lemma str_take_all s : str_take (String.length s) s = s.
Proof. induction s as [|c s IH]; simpl; [done|]. by rewrite IH. Qed.

Lemma hasPrefix_spec p s : hasPrefix p s = true ↔ ∃ t, s = p +++ t.
Proof.
  unfold hasPrefix. rewrite bool_decide_eq_true. split; [|intros [t ->]; apply str_take_app].
  intros E. exists (str_drop (String.length p) s). transitivity (str_take (String.length p) s +++ str_drop (String.length p) s); [by rewrite str_take_drop|by rewrite E].
Qed.
Lemma hasSuffix_spec x s : hasSuffix x s = true ↔ ∃ t, s = t +++ x.
Proof.
  unfold hasSuffix. rewrite andb_true_iff Nat.leb_le bool_decide_eq_true. split.
  - intros [_ E]. exists (str_take (String.length s - String.length x) s).
    transitivity (str_take (String.length s - String.length x) s +++ str_drop (String.length s - String.length x) s); [by rewrite str_take_drop|by rewrite E].
  - intros [t ->]. rewrite string_length_app. replace (String.length t + String.length x - String.length x)%nat with (String.length t) by lia.
    split; [lia|apply str_drop_app].
Qed.
Lemma trimPrefix_app p t : trimPrefix p (p +++ t) = t.
Proof. unfold trimPrefix. rewrite (proj2 (hasPrefix_spec _ _)); [apply str_drop_app|by exists t]. Qed.
Lemma trimSuffix_app x t : trimSuffix x (t +++ x) = t.
Proof.
  unfold trimSuffix. rewrite (proj2 (hasSuffix_spec _ _)); [|by exists t]. rewrite string_length_app.
  replace (String.length t + String.length x - String.length x)%nat with (String.length t) by lia. apply str_take_app.
Qed.

Definition lacks (c : ascii) (s : string) : Prop := str_forall (λ d, negb (Ascii.eqb d c)) s = true.
Lemma lacks_app c a b : lacks c (a +++ b) ↔ lacks c a ∧ lacks c b.
Proof. unfold lacks. rewrite str_forall_app. apply andb_true_iff. Qed.
Lemma after_last_none c s : lacks c s → after_last c s = None.
Proof.
  induction s as [|d s IH]; [done|]. unfold lacks. simpl. rewrite andb_true_iff. intros [Hd Hs]. rewrite IH //. by destruct (Ascii.eqb d c).
Qed.
Lemma after_last_app c a b : lacks c b → after_last c (a +++ String c b) = Some b.
Proof.
  intros Hb. induction a as [|d a IH]; simpl; [by rewrite after_last_none // Ascii.eqb_refl|by rewrite IH].
Qed.

Lemma hex_value_digit n : (n < 16)%N → hex_value (hex_digit n) = Some n.
Proof.
  intros Hn. assert (Forall (λ n, hex_value (hex_digit n) = Some n) (N.of_nat <$> seq 0 16)) as Hall by (apply (bool_decide_unpack _); vm_compute; exact I).
  rewrite Forall_forall in Hall. apply Hall, list_elem_of_fmap. exists (N.to_nat n). split; [lia|]. apply elem_of_seq. lia.
Qed.
Lemma ascii_split c : (N_of_ascii c / 16 < 16)%N ∧ (N_of_ascii c mod 16 < 16)%N.
Proof. pose proof (N_ascii_bounded c). split; [apply N.Div0.div_lt_upper_bound; lia|by apply N.mod_lt]. Qed.

Lemma hex_encode_cons c s : hex_encode (String c s) = String (hex_digit (N_of_ascii c / 16)) (String (hex_digit (N_of_ascii c mod 16)) (hex_encode s)).
Proof. done. Qed.

Lemma hex_decode_encode s : hex_decode (hex_encode s) = Some s.
Proof.
  induction s as [|c s IH]; [done|]. rewrite hex_encode_cons. cbn [hex_decode]. destruct (ascii_split c) as [H1 H2].
  rewrite !hex_value_digit // IH. f_equal. f_equal. rewrite -{3}(ascii_N_embedding c). f_equal.
  rewrite {3}(N.Div0.div_mod (N_of_ascii c) 16). lia.
Qed.
Lemma hex_encode_inj s t : hex_encode s = hex_encode t → s = t.
Proof. intros E. pose proof (hex_decode_encode s) as H. rewrite E hex_decode_encode in H. by injection H. Qed.

(** Hexadecimal digits hold no separator. *)
Lemma hex_encode_lacks c s : hex_value c = None → lacks c (hex_encode s).
Proof.
  intros Hc. induction s as [|d s IH]; [done|]. rewrite hex_encode_cons. unfold lacks in *. cbn [str_forall]. destruct (ascii_split d) as [H1 H2].
  assert (∀ n, (n < 16)%N → Ascii.eqb (hex_digit n) c = false) as Hn.
  { intros n Hn. apply Ascii.eqb_neq. intros E. pose proof (hex_value_digit n Hn) as H. rewrite E Hc in H. done. }
  by rewrite !Hn.
Qed.

Lemma parse_hex_encode s : ∀ acc, parse_hex_go acc (hex_encode s) = Some (be_value (list_of_string s) acc).
Proof.
  induction s as [|c s IH]; intros acc; [done|]. rewrite hex_encode_cons. cbn [parse_hex_go]. destruct (ascii_split c) as [H1 H2].
  rewrite !hex_value_digit // IH. f_equal. cbn [list_of_string be_value]. f_equal.
  pose proof (N.Div0.div_mod (N_of_ascii c) 16). lia.
Qed.
Lemma hex16_parse n : 0 <= n < 18446744073709551616 → ParseUint16 (hex16 n) = Some n.
Proof.
  intros Hn. unfold ParseUint16, hex16. pose proof (parse_hex_encode (encodeU64 n) 0) as Hp. fold (decodeU64 (encodeU64 n)) in Hp.
  rewrite decode_encode in Hp. assert (String.length (hex_encode (encodeU64 n)) = 16%nat) as Hl by (by rewrite hex_encode_length encodeU64_length).
  destruct (hex_encode (encodeU64 n)) as [|c s]; [done|]. rewrite Hp. unfold u64. rewrite Z.mod_small; [|lia]. by rewrite (proj2 (Z.ltb_lt _ _)); [|lia].
Qed.
