(* ===== verification/Logship.v ===== *)
(** * Shipping the log off the node: internal/logship/shipper.go

    A tenant's log is exported to the shared store as immutable segments, each the events
    of a range of sequence numbers; the cursor is what the store holds. A restore replays
    the segments of a tenant into an empty store, as [restoreTenantLog] of
    cmd/toise-server/main.go does. The mutex around the cursor is left out: the ticker
    ships one tenant at a time. *)
From S2P Require Import Prelude GoStd Values Vocabulary Entities Events Projection Keys Store Retention Tenant Sink.
Open Scope Z_scope.

Definition segExt : string := ".seg".

(** What fails, in the order it can. *)
Inductive ShipError :=
| ESinkList (msg : string)
| ESinkPut (msg : string)
| ESinkGet (msg : string)
| EScan (err : StoreError)
| EEncode (err : StoreError)
| EUnparseable (name : string)
| EOverlap (name : string) (from next : Z)
| EGap (name : string) (from next : Z)
| ETruncatedLength (name : string)
| ETruncatedRecord (name : string)
| EUnmarshal (name msg : string).

(** ** Segments *)

Definition segmentName (tenant : string) (from to : Z) : string :=
  tenant +++ "/" +++ hex16 from +++ "-" +++ hex16 to +++ segExt.

Definition parseSegmentName (name : string) : option (Z * Z) :=
  let base := trimSuffix segExt (default name (after_last "/" name)) in
  let '(a, b, ok) := cut_at "-" base in
  if negb ok then None else
  match ParseUint16 a, ParseUint16 b with Some f, Some t => Some (f, t) | _, _ => None end.
(** The range of a name that has one, zeros otherwise. *)
Definition from_of (name : string) : Z := match parseSegmentName name with Some (f, _) => f | None => 0 end.
Definition from_le (x y : string) : Prop := from_of x <= from_of y.
#[export] Instance from_le_dec : RelDecision from_le.
Proof. intros x y. unfold from_le. apply _. Defined.

Section segments.
Context `{!Proto}.

(** The frames are those of the snapshot. *)
Definition encodeSegment (events : list Event) : StoreError + string := marshal_events 0 events.

(** Each turn consumes a length prefix, so the length bounds the turns. *)
Fixpoint decode_frames (fuel : nat) (name : string) (data : string) : ShipError + list Event :=
  match fuel, data with
  | _, EmptyString => inr []
  | O, _ => inl (ETruncatedLength name)
  | S fuel, _ =>
    if (String.length data <? 4)%nat then inl (ETruncatedLength name) else
    let n := decodeU64 (str_take 4 data) in
    let data := str_drop 4 data in
    if Z.of_nat (String.length data) <? n then inl (ETruncatedRecord name) else
    match proto_unmarshal (str_take (Z.to_nat n) data) with
    | inl msg => inl (EUnmarshal name msg)
    | inr pe =>
      match decode_frames fuel name (str_drop (Z.to_nat n) data) with
      | inl err => inl err
      | inr events => inr (EventFromProto (Some pe) :: events)
      end
    end
  end.
Definition decodeSegment (name data : string) : ShipError + list Event := decode_frames (String.length data) name data.
End segments.

(** ** The shipper *)

Record Shipper (R : Type) := mkShipper { sh_sink : R; sh_cursor : gmap string Z }.
Arguments mkShipper {_} _ _.
Arguments sh_sink {_} _.
Arguments sh_cursor {_} _.

Section shipper.
Context {R : Type} `{!Sink string R} `{!Proto}.

Definition New_shipper (sink : R) : Shipper R := mkShipper sink ∅.
Definition set_cursor (tenant : string) (n : Z) (sh : Shipper R) : Shipper R := mkShipper (sh_sink sh) (<[tenant := n]> (sh_cursor sh)).

Definition segments (tenant : string) (r : R) : ShipError + list string :=
  match sk_list (tenant +++ "/") r with
  | inl msg => inl (ESinkList msg)
  | inr names => inr (base.filter (λ n, hasSuffix segExt n = true) names)
  end.

Definition to_of (name : string) : Z := match parseSegmentName name with Some (_, t) => t | None => 0 end.
Definition lastShipped (tenant : string) (sh : Shipper R) : Shipper R * (ShipError + Z) :=
  match sh_cursor sh !! tenant with
  | Some v => (sh, inr v)
  | None =>
    match segments tenant (sh_sink sh) with
    | inl err => (sh, inl err)
    | inr names =>
      let maxSeq := foldl (λ m name, if m <? to_of name then to_of name else m) 0 names in
      (set_cursor tenant maxSeq sh, inr maxSeq)
    end
  end.

(** The scan stops at the first event past [current]. *)
Fixpoint scan_until (current : Z) (l : list (Z * Event)) (err : option StoreError) : list Event * option StoreError :=
  match l with
  | [] => ([], err)
  | (seq, ev) :: l =>
    if current <? seq then ([], None) else let '(evs, e) := scan_until current l err in (ev :: evs, e)
  end.

Context {D : Type} `{!Pebble D}.

(** [src] is the source when its sequence is read, [src'] when it is scanned. *)
Definition Ship (tenant : string) (src src' : Store D) (sh : Shipper R) : Shipper R * (ShipError + nat) :=
  let '(sh, from) := lastShipped tenant sh in
  match from with
  | inl err => (sh, inl err)
  | inr from =>
    let current := Sequence src in
    if current <=? from then (sh, inr 0%nat) else
    let '(l, err) := ScanFrom from src' in
    match scan_until current l err with
    | (_, Some err) => (sh, inl (EScan err))
    | ([], None) => (sh, inr 0%nat)
    | (events, None) =>
      match encodeSegment events with
      | inl err => (sh, inl (EEncode err))
      | inr seg =>
        let '(sink, err) := sk_put (segmentName tenant from current) seg (sh_sink sh) in
        match err with
        | Some msg => (mkShipper sink (delete tenant (sh_cursor sh)), inl (ESinkPut msg))
        | None => (mkShipper sink (<[tenant := current]> (sh_cursor sh)), inr (length events))
        end
      end
    end
  end.

(** ** Replay *)

(** The callback over the events, until it fails. *)
Fixpoint apply_events {A E} (apply : Event → A → A * option E) (events : list Event) (a : A) : A * option E :=
  match events with
  | [] => (a, None)
  | ev :: events => match apply ev a with (a, Some e) => (a, Some e) | (a, None) => apply_events apply events a end
  end.

Fixpoint replay_segments {A E} (apply : Event → A → A * option E) (r : R) (next : Z) (names : list string) (a : A) : A * option (ShipError + E) :=
  match names with
  | [] => (a, None)
  | name :: names =>
    match parseSegmentName name with
    | None => (a, Some (inl (EUnparseable name)))
    | Some (from, to) =>
      if negb (from =? next) then (a, Some (inl (if from <? next then EOverlap name from next else EGap name from next))) else
      match sk_get name r with
      | inl msg => (a, Some (inl (ESinkGet msg)))
      | inr data =>
        match decodeSegment name data with
        | inl err => (a, Some (inl err))
        | inr events =>
          match apply_events apply events a with
          | (a, Some e) => (a, Some (inr e))
          | (a, None) => replay_segments apply r to names a
          end
        end
      end
    end
  end.

(** The segments in the order of their ranges; the code's sort leaves the order of equal
    starts open, here they keep the order of their names. *)
Definition Replay_log {A E} (tenant : string) (apply : Event → A → A * option E) (a : A) (sh : Shipper R) : A * option (ShipError + E) :=
  match segments tenant (sh_sink sh) with
  | inl err => (a, Some (inl err))
  | inr names => replay_segments apply (sh_sink sh) 0 (merge_sort from_le names) a
  end.

Definition tenant_part (name : string) : option string :=
  if negb (hasSuffix segExt name) then None else
  match index_byte "/" name with Some (S i) => Some (str_take (S i) name) | _ => None end.
Definition Tenants (sh : Shipper R) : ShipError + list string :=
  match sk_list "" (sh_sink sh) with
  | inl msg => inl (ESinkList msg)
  | inr names => inr (sort_by id (elements (list_to_set (C := gset string) (omap tenant_part names))))
  end.

(** ** Restoring *)

Inductive RestoreError :=
| ROpen (err : StoreError)
| RNotEmpty (n : Z)
| RReplay (err : ShipError)
| RAppend (err : StoreError)
| RTenant
| RNoSegments.

Definition batchSize : nat := 1000.

(** The batch and the store behind it. *)
Definition flush (b : list Event * Store D) : (list Event * Store D) * option StoreError :=
  match b.1 with
  | [] => (b, None)
  | _ =>
    match Append b.1 b.2 with
    | (s, inl err) => ((b.1, s), Some err)
    | (s, inr _) => (([], s), None)
    end
  end.
Definition restore_event (ev : Event) (b : list Event * Store D) : (list Event * Store D) * option StoreError :=
  let b := ((b.1 ++ [ev])%list, b.2) in
  if (batchSize <=? length b.1)%nat then flush b else (b, None).

(** Into the store opened on [d], what it is left as. *)
Definition restoreTenantLog (id : string) (d : D) (sh : Shipper R) : RestoreError + Store D * option RestoreError :=
  match open true false d with
  | inl err => inl (ROpen err)
  | inr st =>
    if 0 <? Sequence st then inr (st, Some (RNotEmpty (Sequence st))) else
    match Replay_log id restore_event ([], st) sh with
    | (b, Some (inl err)) => inr (b.2, Some (RReplay err))
    | (b, Some (inr err)) => inr (b.2, Some (RAppend err))
    | (b, None) => match flush b with (b, Some err) => inr (b.2, Some (RAppend err)) | (b, None) => inr (b.2, None) end
    end
  end.

(** The tenants of a restore: the one asked for, or those that have segments. *)
Definition restore_tenants (only : string) (sh : Shipper R) : RestoreError + list string :=
  if negb (bool_decide (only = "")) then
    match Sanitize only with Some id => inr [id] | None => inl RTenant end
  else
    match Tenants sh with
    | inl err => inl (RReplay err)
    | inr [] => inl RNoSegments
    | inr ids => inr ids
    end.
End shipper.
