(* ===== verification/LogshipSpec.v ===== *)
(** * A log shipped is a log kept

    The segments of a tenant as a chain of ranges from the start of its log, what a
    shipment adds to it, and what a restore makes of it. *)
From S2P Require Import Prelude GoStd Values Vocabulary Entities Events Projection Keys Store Retention StoreInv StoreSpec StoreReads StoreSnapshot Boot Tenant Sink Logship.
Open Scope Z_scope.

(** ** Names *)

Lemma cut_at_app c a b : lacks c a → cut_at c (a +++ String c b) = (a, b, true).
Proof.
  unfold lacks. induction a as [|d a IH]; simpl; [by rewrite Ascii.eqb_refl|]. rewrite andb_true_iff. intros [Hd Ha].
  rewrite Ascii.eqb_sym. destruct (Ascii.eqb d c); [done|]. by rewrite IH.
Qed.
Definition in_u64 (n : Z) : Prop := 0 <= n < max_seq.

Lemma parse_segmentName tenant f t : in_u64 f → in_u64 t → parseSegmentName (segmentName tenant f t) = Some (f, t).
Proof.
  intros Hf Ht. unfold parseSegmentName, segmentName.
  assert (after_last "/" (tenant +++ "/" +++ hex16 f +++ "-" +++ hex16 t +++ segExt) = Some (hex16 f +++ "-" +++ hex16 t +++ segExt)) as ->.
  { apply after_last_app. rewrite !lacks_app. split_and!; [by apply hex_encode_lacks|done|by apply hex_encode_lacks|done]. }
  cbn [default]. rewrite !string_app_assoc trimSuffix_app -string_app_assoc.
  change ("-" +++ hex16 t) with (String "-" (hex16 t)). rewrite cut_at_app; [|by apply hex_encode_lacks]. cbn [negb].
  by rewrite !hex16_parse.
Qed.
Lemma segmentName_of tenant f t : hasPrefix (tenant +++ "/") (segmentName tenant f t) = true ∧ hasSuffix segExt (segmentName tenant f t) = true.
Proof.
  unfold segmentName. split.
  - apply hasPrefix_spec. exists (hex16 f +++ "-" +++ hex16 t +++ segExt). by rewrite -!string_app_assoc.
  - apply hasSuffix_spec. exists (tenant +++ "/" +++ hex16 f +++ "-" +++ hex16 t). by rewrite -!string_app_assoc.
Qed.

(** ** Segments *)

Section codec.
Context `{!Proto} `{!ProtoLaws}.

(** Messages are far under the four gigabytes a length prefix holds. *)
Definition frameable (ev : Event) : Prop := ∀ b, proto_marshal (Event_ToProto ev) = inr b → Z.of_nat (String.length b) < max_u32.

Lemma decode_frame fuel name b pe rest : Z.of_nat (String.length b) < max_u32 → proto_unmarshal b = inr pe →
  (String.length (framed b +++ rest) <= fuel)%nat → ∃ fuel', (String.length rest <= fuel')%nat ∧
  decode_frames fuel name (framed b +++ rest) =
    match decode_frames fuel' name rest with inl err => inl err | inr events => inr (EventFromProto (Some pe) :: events) end.
Proof.
  unfold framed. rewrite -string_app_assoc !string_length_app encodeU32_length. intros Hlen Hp Hfuel.
  destruct fuel as [|fuel]; [lia|]. exists fuel. split; [lia|].
  assert (decodeU64 (encodeU32 (Z.of_nat (String.length b))) = Z.of_nat (String.length b)) as Hd by (apply decode_encodeU32; lia).
  destruct (encodeU32 (Z.of_nat (String.length b)) +++ b +++ rest) as [|c r] eqn:E.
  { apply (f_equal String.length) in E. rewrite string_length_app encodeU32_length in E. done. }
  cbn [decode_frames]. rewrite -E take_u32 drop_u32 Hd. rewrite (proj2 (Nat.ltb_ge _ _)); [|rewrite string_length_app encodeU32_length; lia].
  rewrite (proj2 (Z.ltb_ge _ _)); [|rewrite string_length_app; lia]. by rewrite Nat2Z.id str_take_app str_drop_app Hp.
Qed.

Lemma decode_marshalled name events : ∀ i fuel seg, marshal_events i events = inr seg → Forall event_storable events → Forall frameable events →
  (String.length seg <= fuel)%nat → decode_frames fuel name seg = inr events.
Proof.
  induction events as [|ev events IH]; intros i fuel seg Hm Hst Hfr Hfuel; cbn [marshal_events] in Hm.
  { injection Hm as <-. by destruct fuel. }
  apply Forall_cons in Hst as [Hev Hst]. apply Forall_cons in Hfr as [Hfe Hfr]. destruct (proto_marshal (Event_ToProto ev)) as [msg|b] eqn:Hb; [done|].
  destruct (marshal_events (S i) events) as [err|rest] eqn:Hr; [done|]. apply (inj inr) in Hm as <-.
  destruct (decode_frame fuel name b (Event_ToProto ev) rest (Hfe b Hb)) as (fuel' & Hf & ->); [by apply unmarshal_marshal|done|].
  rewrite (IH _ _ _ Hr Hst Hfr Hf). by rewrite event_decode.
Qed.
Lemma decode_segment name events seg : encodeSegment events = inr seg → Forall event_storable events → Forall frameable events →
  decodeSegment name seg = inr events.
Proof. intros. by eapply decode_marshalled. Qed.
End codec.

(** ** Chains *)

(** A segment with the numbers of its events. *)
Record Seg := mkSeg { sg_from : Z; sg_to : Z; sg_events : list (Z * Event) }.
Definition seg_name (tenant : string) (s : Seg) : string := segmentName tenant (sg_from s) (sg_to s).
Definition events_of (segs : list Seg) : list (Z * Event) := mjoin (sg_events <$> segs).

(** Ranges end to end, each with events of its range in order. *)
Fixpoint chain (from : Z) (segs : list Seg) (to : Z) : Prop :=
  match segs with
  | [] => from = to
  | s :: segs =>
    sg_from s = from ∧ from < sg_to s ∧ StronglySorted seq_lt (sg_events s) ∧ (∀ x, x ∈ sg_events s → from < x.1 <= sg_to s) ∧ chain (sg_to s) segs to
  end.

Lemma chain_le from segs to : chain from segs to → from <= to.
Proof. revert from. induction segs as [|s segs IH]; intros from; simpl; [lia|]. intros (_ & ? & _ & _ & H%IH). lia. Qed.
Lemma chain_snoc from segs to s : chain from segs to → sg_from s = to → to < sg_to s → StronglySorted seq_lt (sg_events s) →
  (∀ x, x ∈ sg_events s → to < x.1 <= sg_to s) → chain from (segs ++ [s]) (sg_to s).
Proof.
  revert from. induction segs as [|s' segs IH]; intros from; simpl; [by intros -> -> ? ? ?; split_and!|].
  intros (? & ? & ? & ? & H) ? ? ? ?. split_and!; try done. by apply IH.
Qed.
Lemma chain_range from segs to s : chain from segs to → s ∈ segs → from <= sg_from s < sg_to s ∧ sg_to s <= to.
Proof.
  revert from. induction segs as [|s' segs IH]; intros from; [by intros _ ?%elem_of_nil|]. simpl. intros (<- & ? & _ & _ & Hc) [->|Hs]%elem_of_cons.
  - apply chain_le in Hc. lia.
  - pose proof (IH _ Hc Hs). lia.
Qed.
Lemma chain_sorted from segs to : chain from segs to → StronglySorted Z.lt (sg_from <$> segs).
Proof.
  revert from. induction segs as [|s segs IH]; intros from; [constructor|]. simpl. intros (<- & ? & _ & _ & Hc). constructor; [by eapply IH|].
  apply Forall_forall. intros f (s' & -> & Hs')%list_elem_of_fmap. pose proof (chain_range _ _ _ _ Hc Hs'). lia.
Qed.
Lemma chain_events from segs to : chain from segs to → StronglySorted seq_lt (events_of segs) ∧ ∀ x, x ∈ events_of segs → from < x.1 <= to.
Proof.
  unfold events_of. revert from. induction segs as [|s segs IH]; intros from; simpl; [split; [constructor|by intros x ?%elem_of_nil]|].
  intros (<- & Hlt & Hs & Hr & Hc). destruct (IH _ Hc) as [H1 H2]. pose proof (chain_le _ _ _ Hc). split.
  - apply StronglySorted_append; [done|done|]. intros x y Hx Hy. unfold seq_lt. pose proof (Hr x Hx). pose proof (H2 y Hy). lia.
  - intros x [Hx|Hx]%elem_of_app; [pose proof (Hr x Hx)|pose proof (H2 x Hx)]; lia.
Qed.

(** ** What the store holds of a tenant *)

Section tenant.
Context {R : Type} `{!Sink string R} `{!SinkLaws string R} `{!Proto} `{!ProtoLaws} (tenant : string).

Definition mine (name : string) : Prop := hasPrefix (tenant +++ "/") name = true ∧ hasSuffix segExt name = true.

Record shipped (m : gmap string string) (top : Z) (segs : list Seg) : Prop := {
  shp_chain : chain 0 segs top;
  shp_top : top < max_seq;
  shp_stored : ∀ s, s ∈ segs → ∃ data, m !! seg_name tenant s = Some data ∧ decodeSegment (seg_name tenant s) data = inr (sg_events s).*2;
  shp_known : ∀ name, mine name → is_Some (m !! name) → ∃ s, s ∈ segs ∧ name = seg_name tenant s;
}.

Lemma shipped_range m top segs s : shipped m top segs → s ∈ segs → in_u64 (sg_from s) ∧ in_u64 (sg_to s).
Proof. intros Hsh Hs. pose proof (chain_range _ _ _ _ (shp_chain _ _ _ Hsh) Hs). pose proof (shp_top _ _ _ Hsh). unfold in_u64. lia. Qed.
Lemma shipped_parse m top segs s : shipped m top segs → s ∈ segs → parseSegmentName (seg_name tenant s) = Some (sg_from s, sg_to s).
Proof. intros Hsh Hs. destruct (shipped_range _ _ _ _ Hsh Hs). by apply parse_segmentName. Qed.
Lemma shipped_from m top segs s : shipped m top segs → s ∈ segs → from_of (seg_name tenant s) = sg_from s ∧ to_of (seg_name tenant s) = sg_to s.
Proof. intros Hsh Hs. unfold from_of, to_of. by rewrite (shipped_parse _ _ _ _ Hsh Hs). Qed.

Lemma seg_names_sorted m top segs : shipped m top segs → StronglySorted Z.lt (from_of <$> (seg_name tenant <$> segs)).
Proof.
  intros Hsh. assert (from_of <$> (seg_name tenant <$> segs) = sg_from <$> segs) as ->; [|eapply chain_sorted, (shp_chain _ _ _ Hsh)].
  rewrite -list_fmap_compose. apply list_fmap_ext. intros i s Hs%list_elem_of_lookup_2. by apply (shipped_from _ _ _ _ Hsh Hs).
Qed.
Lemma seg_names_NoDup m top segs : shipped m top segs → NoDup (seg_name tenant <$> segs).
Proof. intros Hsh. eapply StronglySorted_NoDup_by, seg_names_sorted, Hsh. Qed.

Lemma segments_spec r top segs : shipped (objects r) top segs →
  match segments tenant r with
  | inl err => ∃ msg, err = ESinkList msg
  | inr names => names ≡ₚ seg_name tenant <$> segs
  end.
Proof.
  intros Hsh. unfold segments. destruct (sk_list (tenant +++ "/") r) as [msg|l] eqn:Hl; [by exists msg|]. apply sk_list_sound in Hl as ->.
  apply NoDup_Permutation; [apply NoDup_filter, NoDup_filter, sorted_keys_NoDup|by eapply seg_names_NoDup|].
  intros name. rewrite !list_elem_of_filter elem_of_sorted_keys list_elem_of_fmap. split.
  - intros (Hs & Hp & Hin). destruct (shp_known _ _ _ Hsh name) as (s & Hseg & ->); [done|done|]. by exists s.
  - intros (s & -> & Hs). destruct (shp_stored _ _ _ Hsh s Hs) as (data & Hd & _). destruct (segmentName_of tenant (sg_from s) (sg_to s)).
    unfold seg_name in *. rewrite Hd. eauto.
Qed.

Lemma max_fold (f : string → Z) l : ∀ a, let m := foldl (λ m n, if m <? f n then f n else m) a l in
  a <= m ∧ (∀ n, n ∈ l → f n <= m) ∧ (m = a ∨ ∃ n, n ∈ l ∧ m = f n).
Proof.
  induction l as [|n l IH]; intros a; simpl; [split_and!; [lia|by intros ? ?%elem_of_nil|by left]|].
  destruct (IH (if a <? f n then f n else a)) as (H1 & H2 & H3). cbv zeta in *. destruct (Z.ltb_spec a (f n)); split_and!; try lia.
  - intros n' [->|Hn]%elem_of_cons; [done|auto].
  - right. destruct H3 as [->|(n' & Hn & ->)]; [exists n|exists n']; set_solver.
  - intros n' [->|Hn]%elem_of_cons; [lia|auto].
  - destruct H3 as [->|(n' & Hn & ->)]; [by left|right; exists n'; set_solver].
Qed.

(** The cursor, cached or not, is the end of the chain. *)
Definition at_end (sh : Shipper R) (top : Z) : Prop := ∀ n, sh_cursor sh !! tenant = Some n → n = top.

Lemma chain_end from segs to : chain from segs to → from = to ∧ segs = [] ∨ ∃ s, s ∈ segs ∧ sg_to s = to.
Proof.
  revert from. induction segs as [|s segs IH]; intros from; simpl; [by left|]. intros (_ & _ & _ & _ & Hc). right.
  destruct (IH _ Hc) as [[E ->]|(s' & ? & ?)]; [exists s|exists s']; set_solver.
Qed.

Lemma last_shipped_spec sh top segs : shipped (objects (sh_sink sh)) top segs → at_end sh top →
  let '(sh', r) := lastShipped tenant sh in
  sh_sink sh' = sh_sink sh ∧ at_end sh' top ∧ match r with inr n => n = top ∧ sh_cursor sh' !! tenant = Some top | inl err => ∃ msg, err = ESinkList msg end.
Proof.
  intros Hsh Hend. unfold lastShipped. destruct (sh_cursor sh !! tenant) as [v|] eqn:Hv; [pose proof (Hend v Hv) as ->; by split_and!|].
  pose proof (segments_spec _ _ _ Hsh) as Hseg. destruct (segments tenant (sh_sink sh)) as [err|names]; [done|].
  destruct (max_fold to_of names 0) as (Hpos & Hle & Hin). set (m := foldl _ _ _) in *. assert (m = top) as ->.
  { assert (∀ n, n ∈ names → ∃ s, s ∈ segs ∧ to_of n = sg_to s) as Hto.
    { intros n. rewrite Hseg list_elem_of_fmap. intros (s & -> & Hs). exists s. split; [done|]. by apply (shipped_from _ _ _ _ Hsh Hs). }
    pose proof (shp_chain _ _ _ Hsh) as Hc. apply Z.le_antisymm.
    - destruct Hin as [E|(n & Hn & E)]; [apply chain_le in Hc; lia|]. rewrite E. destruct (Hto n Hn) as (s & Hs & ->). apply (chain_range _ _ _ _ Hc Hs).
    - destruct (chain_end _ _ _ Hc) as [[<- _]|(s & Hs & <-)]; [done|]. rewrite -(proj2 (shipped_from _ _ _ _ Hsh Hs)). apply Hle.
      rewrite Hseg. by apply list_elem_of_fmap_2. }
  cbn [sh_sink sh_cursor set_cursor]. unfold at_end. cbn [sh_cursor set_cursor]. rewrite lookup_insert_eq. split_and!; [done|by intros n [= <-]|done|done].
Qed.

(** ** One shipment *)

Context {D : Type} `{!Pebble D} `{!PebbleLaws D}.

(** A scan that fails has seen the first events of the tail. *)
Lemma scan_prefix (s : Store D) L after l err : store_ok s L → 0 <= after <= s_seq s → s_seq s + 1 < max_seq →
  ScanFrom after s = (l, err) → l `prefix_of` past after L ∧ (err = None → l = past after L).
Proof.
  intros Hok Ha Hroom Hscan. destruct err as [e|]; [|rewrite (scan_tail_complete after s L l) //]. split; [|done].
  unfold ScanFrom, scan_db in Hscan. rewrite u64_id in Hscan; [|unfold max_seq in *; lia].
  assert (Forall2 (stored_as (contents (s_db s))) (range_of (contents (s_db s)) (primaryKey (after + 1)) (prefixUpperBound primaryPrefix)) (past after L)) as HF.
  { apply (range_represents _ L _ (λ n, after < n)); [apply Hok|apply primary_range|]. intros n ev Hin.
    pose proof (represents_range _ _ _ _ (so_log s L Hok) Hin) as Hn. unfold in_range.
    pose proof (proj2 (in_prefix_range primaryPrefix (primaryKey n)) ltac:(by exists (encodeU64 n))) as [_ Hu]%andb_true_iff.
    rewrite andb_true_iff. rewrite bool_decide_eq_true primaryKey_le Hn u64_id; [|unfold max_seq in *; lia]. split; [lia|]. split; [lia|done]. }
  destruct (pb_iter _ _ _) as [kvs msg] eqn:Hit. assert (∃ l', Forall2 (stored_as (contents (s_db s))) kvs l' ∧ l' `prefix_of` past after L) as (l' & Hl' & Hpre).
  { destruct msg as [msg|]; [apply iter_prefix in Hit as [k E]|apply iter_sound in Hit as E; exists (past after L); by rewrite E].
    rewrite E in HF. apply Forall2_app_inv_l in HF as (l1 & l2 & H1 & _ & ->). exists l1. split; [done|]. by exists l2. }
  destruct (stored_decodes _ _ _ Hl') as (r & Hr & Hv).
  { intros n ev Hin. eapply represents_range; [apply Hok|]. assert ((n, ev) ∈ past after L) as [_ ?]%list_elem_of_filter by (by eapply elem_of_prefix). done. }
  rewrite Hr in Hscan. injection Hscan as <- _. by rewrite Hv.
Qed.

Lemma scan_until_spec current P : ∀ l err evs, StronglySorted seq_lt P → l `prefix_of` P → (err = None → l = P) → scan_until current l err = (evs, None) →
  evs = (upto current P).*2.
Proof.
  induction P as [|x P IH]; intros l err evs Hs Hp He Hsc.
  - apply prefix_nil_inv in Hp as ->. simpl in Hsc. by injection Hsc as <- _.
  - apply StronglySorted_inv in Hs as [Hs Hall]. destruct l as [|y l]; simpl in Hsc; [by injection Hsc as <- ->; specialize (He eq_refl)|].
    pose proof (prefix_cons_inv_1 _ _ _ _ Hp) as ->. pose proof (prefix_cons_inv_2 _ _ _ _ Hp) as Hp'. destruct x as [n ev]. unfold upto. rewrite filter_cons /=.
    destruct (Z.ltb_spec current n).
    + rewrite decide_False; [|simpl; lia]. injection Hsc as <-. rewrite filter_none; [done|]. intros z Hz. rewrite Forall_forall in Hall. pose proof (Hall z Hz). unfold seq_lt in *. simpl in *. lia.
    + rewrite decide_True; [|simpl; lia]. destruct (scan_until current l err) as [evs' e] eqn:E. injection Hsc as <- ->. cbn [fmap list_fmap snd]. f_equal.
      eapply IH; [done|done| |exact E]. intros H'. specialize (He H'). by injection He.
Qed.

(** What a shipment from [top] to [current] takes of the log. *)
Definition shipment (top current : Z) (L : list (Z * Event)) : Seg := mkSeg top current (upto current (past top L)).

Lemma put_segment m top current segs L data evs : shipped m top segs → top < current < max_seq → StronglySorted seq_lt L →
  evs = (upto current (past top L)).*2 → decodeSegment (segmentName tenant top current) data = inr evs →
  shipped (<[segmentName tenant top current := data]> m) current (segs ++ [shipment top current L])%list.
Proof.
  intros Hsh Hcur Hs -> Hd. pose proof (chain_le _ _ _ (shp_chain _ _ _ Hsh)). split.
  - apply (chain_snoc _ _ top); [apply Hsh|done|simpl; lia|simpl; by apply seq_filter, seq_filter|].
    intros x. simpl. unfold upto, past. rewrite !list_elem_of_filter. simpl. lia.
  - lia.
  - intros s [Hin|Hin]%elem_of_app.
    + destruct (shp_stored _ _ _ Hsh s Hin) as (data' & Hdata & Hdec). exists data'. rewrite lookup_insert_ne; [done|].
      intros E. pose proof (shipped_parse _ _ _ _ Hsh Hin) as Hp. rewrite -E parse_segmentName in Hp; [|unfold in_u64; lia..]. injection Hp as Hf Ht.
      pose proof (chain_range _ _ _ _ (shp_chain _ _ _ Hsh) Hin). lia.
    + apply list_elem_of_singleton in Hin as ->. exists data. by rewrite lookup_insert_eq.
  - intros name Hm. destruct (decide (segmentName tenant top current = name)) as [<-|Hne].
    + intros _. exists (shipment top current L). split; [apply elem_of_app; right; by apply list_elem_of_singleton|done].
    + rewrite lookup_insert_ne //. intros (s & Hin & ->)%(shp_known _ _ _ Hsh); [|done]. exists s. split; [apply elem_of_app; by left|done].
Qed.

Lemma shipped_ext m m' top segs : (∀ name, mine name → m' !! name = m !! name) → shipped m top segs → shipped m' top segs.
Proof.
  intros E [H1 H2 H3 H4]. split; [done|done| |].
  - intros s Hs. rewrite E; [auto|]. apply segmentName_of.
  - intros name Hm. rewrite E //. auto.
Qed.

(** Nothing of the log up to [n] is missing from the segments. *)
Definition covered (n top : Z) (L : list (Z * Event)) : Prop := ∀ x, x ∈ L → x.1 <= n → x.1 <= top.

Lemma ship_spec (src src' : Store D) sh top segs L : shipped (objects (sh_sink sh)) top segs → at_end sh top →
  store_ok src' L → Forall event_storable L.*2 → Forall frameable L.*2 → 0 <= s_seq src <= s_seq src' → top <= s_seq src' → s_seq src' + 1 < max_seq →
  let '(sh', r) := Ship tenant src src' sh in
  (∀ name, ¬ mine name → objects (sh_sink sh') !! name = objects (sh_sink sh) !! name) ∧
  ∃ top' segs', shipped (objects (sh_sink sh')) top' segs' ∧ at_end sh' top' ∧
    ((top', segs') = (top, segs) ∨ top < s_seq src ∧ (top', segs') = (s_seq src, segs ++ [shipment top (s_seq src) L])%list) ∧
    match r with inr n => covered (s_seq src) top' L ∧ length (events_of segs') = (length (events_of segs) + n)%nat | inl _ => True end.
Proof.
  intros Hsh Hend Hok Hst Hfr Hseq Htop Hroom. unfold Ship. pose proof (last_shipped_spec sh top segs Hsh Hend) as Hlast.
  destruct (lastShipped tenant sh) as [sh1 [err|from]]; destruct Hlast as (E1 & Hend1 & Hfrom).
  { rewrite E1. split; [done|]. exists top, segs. split_and!; [done|done|by left|done]. }
  destruct Hfrom as [-> Hcur]. unfold Sequence. pose proof (chain_le _ _ _ (shp_chain _ _ _ Hsh)) as Hpos.
  destruct (Z.leb_spec (s_seq src) top) as [Hle|Hlt].
  { rewrite E1. split; [done|]. exists top, segs. split_and!; [done|done|by left|intros x _ ?; lia|lia]. }
  destruct (ScanFrom top src') as [l err] eqn:Hscan. destruct (scan_prefix src' L top l err) as [Hpre Hall]; [done|lia|done|done|].
  pose proof (rp_sorted _ _ (so_log _ _ Hok)) as Hsorted.
  destruct (scan_until (s_seq src) l err) as [events [e|]] eqn:Hu.
  { destruct events; rewrite E1; (split; [done|]; exists top, segs; split_and!; [done|done|by left|done]). }
  pose proof (scan_until_spec _ (past top L) _ _ _ (seq_filter _ _ Hsorted) Hpre Hall Hu) as Hev.
  destruct events as [|ev events].
  { rewrite E1. split; [done|]. exists top, segs. split_and!; [done|done|by left| |lia]. intros x Hx Hx'. destruct (Z.le_gt_cases x.1 top) as [|Hgt]; [done|].
    assert (x ∈ upto (s_seq src) (past top L)) as Hin by (unfold upto, past; rewrite !list_elem_of_filter; split_and!; [done|lia|done]).
    symmetry in Hev. apply fmap_nil_inv in Hev. rewrite Hev in Hin. by apply elem_of_nil in Hin. }
  remember (ev :: events) as evs. destruct (encodeSegment evs) as [err1|seg] eqn:Henc.
  { rewrite E1. split; [done|]. exists top, segs. split_and!; [done|done|by left|done]. }
  assert (∀ P : Event → Prop, Forall P L.*2 → Forall P evs) as HP.
  { intros P HL. rewrite Hev. apply Forall_forall. intros x (y & -> & [_ [_ Hy]%list_elem_of_filter]%list_elem_of_filter)%list_elem_of_fmap.
    rewrite Forall_forall in HL. apply HL. by apply list_elem_of_fmap_2. }
  assert (shipped (<[segmentName tenant top (s_seq src) := seg]> (objects (sh_sink sh))) (s_seq src) (segs ++ [shipment top (s_seq src) L])%list) as Hnew.
  { apply (put_segment _ _ _ _ _ _ evs); [done|pose proof (so_seq _ _ Hok); lia|done|done|]. by apply decode_segment; [|apply HP..]. }
  assert (∀ (m : gmap string string) name, ¬ mine name → <[segmentName tenant top (s_seq src) := seg]> m !! name = m !! name) as Hother.
  { intros m name Hn. apply lookup_insert_ne. intros <-. apply Hn. apply segmentName_of. }
  assert (length (events_of (segs ++ [shipment top (s_seq src) L])%list) = (length (events_of segs) + length evs)%nat) as Hlen.
  { unfold events_of. rewrite fmap_app join_app length_app. f_equal. cbn. rewrite app_nil_r Hev length_fmap. done. }
  destruct (sk_put _ _ _) as [sink [msg|]] eqn:Hput; rewrite E1 in Hput; cbn [sh_sink sh_cursor].
  - apply sk_put_failed in Hput as [E|E]; rewrite E; (split; [by auto|]).
    + exists top, segs. split_and!; [done| |by left|done]. intros n. cbn [sh_cursor]. by rewrite lookup_delete_eq.
    + exists (s_seq src), (segs ++ [shipment top (s_seq src) L])%list. split_and!; [done| |by right|done]. intros n. cbn [sh_cursor]. by rewrite lookup_delete_eq.
  - apply sk_put_ok in Hput as E. rewrite E. split; [by auto|]. exists (s_seq src), (segs ++ [shipment top (s_seq src) L])%list. split_and!; [done| |by right|by intros x _ ?|done].
    intros n. cbn [sh_cursor]. rewrite lookup_insert_eq. by intros [= <-].
Qed.

(** ** Replay *)

Lemma apply_events_app {A E} (apply : Event → A → A * option E) l1 l2 a :
  apply_events apply (l1 ++ l2)%list a = match apply_events apply l1 a with (a, None) => apply_events apply l2 a | r => r end.
Proof. revert a. induction l1 as [|ev l1 IH]; intros a; simpl; [done|]. by destruct (apply ev a) as [a' [e|]]. Qed.

Lemma replay_chain {A E} (apply : Event → A → A * option E) m top segs r (Hr : objects r = m) : ∀ rest from a, shipped m top segs → chain from rest top → (∀ s, s ∈ rest → s ∈ segs) →
  match replay_segments apply r from (seg_name tenant <$> rest) a with
  | (a', Some (inl e)) => (∃ msg, e = ESinkGet msg) ∧ ∃ l1 l2, (events_of rest).*2 = (l1 ++ l2)%list ∧ apply_events apply l1 a = (a', None)
  | (a', Some (inr e)) => apply_events apply (events_of rest).*2 a = (a', Some e)
  | (a', None) => apply_events apply (events_of rest).*2 a = (a', None)
  end.
Proof.
  induction rest as [|s rest IH]; intros from a Hsh Hc Hin; [done|]. rewrite fmap_cons. cbn [replay_segments chain] in *. destruct Hc as (Hf & _ & _ & _ & Hc).
  rewrite (shipped_parse _ _ _ s Hsh); [|apply Hin; left]. rewrite Hf Z.eqb_refl. cbn [negb].
  destruct (shp_stored _ _ _ Hsh s) as (data & Hd & Hdec); [apply Hin; left|].
  destruct (sk_get _ r) as [msg|data'] eqn:Hg; [split; [by exists msg|by exists [], (events_of (s :: rest)).*2]|]. apply sk_get_sound in Hg. rewrite Hr Hd in Hg. injection Hg as <-. rewrite Hdec.
  assert (events_of (s :: rest) = (sg_events s ++ events_of rest)%list) as -> by done. rewrite fmap_app apply_events_app.
  destruct (apply_events apply (sg_events s).*2 a) as [a' [e|]] eqn:Ha; [done|]. specialize (IH (sg_to s) a' Hsh Hc (λ s' Hs', Hin s' (list_elem_of_further _ _ _ Hs'))).
  destruct (replay_segments _ _ _ _ a') as [a1 [[e|e]|]]; [|done|done]. destruct IH as (Hmsg & l1 & l2 & E1 & E2). split; [done|].
  exists ((sg_events s).*2 ++ l1)%list, l2. rewrite E1 -(assoc_L app) apply_events_app Ha. done.
Qed.

Lemma segments_sorted m top segs names : shipped m top segs → names ≡ₚ seg_name tenant <$> segs → merge_sort from_le names = seg_name tenant <$> segs.
Proof.
  intros Hsh Hp. pose proof (seg_names_sorted _ _ _ Hsh) as Hs. assert (NoDup (from_of <$> (seg_name tenant <$> segs))) as Hnd.
  { apply (StronglySorted_NoDup_by id). by rewrite list_fmap_id. }
  apply (StronglySorted_unique_strong from_le).
  - intros x y Hx Hy H1 H2. rewrite merge_sort_Permutation Hp in Hx. unfold from_le in *. apply list_elem_of_lookup_1 in Hx as [i Hi], Hy as [j Hj].
    assert (i = j) as ->; [|congruence]. apply (NoDup_lookup (from_of <$> (seg_name tenant <$> segs)) _ _ (from_of x) Hnd); rewrite list_lookup_fmap ?Hi ?Hj //=. f_equal. lia.
  - apply StronglySorted_merge_sort; [intros x y z; unfold from_le; lia|intros x y; unfold from_le; lia].
  - clear -Hs. induction (seg_name tenant <$> segs) as [|x l IH]; [constructor|]. apply StronglySorted_inv in Hs as [Hs Hall]. constructor; [by apply IH|].
    rewrite Forall_forall in Hall. apply Forall_forall. intros y Hy. unfold from_le. specialize (Hall (from_of y) (list_elem_of_fmap_2 _ _ _ Hy)). lia.
  - by rewrite merge_sort_Permutation.
Qed.

Definition is_sink (err : ShipError) : bool := match err with ESinkList _ | ESinkGet _ | ESinkPut _ => true | _ => false end.

Lemma replay_spec {A E} (apply : Event → A → A * option E) a sh top segs : shipped (objects (sh_sink sh)) top segs →
  match Replay_log tenant apply a sh with
  | (a', Some (inl e)) => is_sink e = true ∧ ∃ l1 l2, (events_of segs).*2 = (l1 ++ l2)%list ∧ apply_events apply l1 a = (a', None)
  | (a', Some (inr e)) => apply_events apply (events_of segs).*2 a = (a', Some e)
  | (a', None) => apply_events apply (events_of segs).*2 a = (a', None)
  end.
Proof.
  intros Hsh. unfold Replay_log. pose proof (segments_spec _ _ _ Hsh) as Hseg. destruct (segments tenant (sh_sink sh)) as [err|names].
  { destruct Hseg as [msg ->]. split; [done|]. by exists [], (events_of segs).*2. }
  rewrite (segments_sorted _ _ _ _ Hsh Hseg). pose proof (replay_chain apply _ top segs (sh_sink sh) eq_refl segs 0 a Hsh (shp_chain _ _ _ Hsh) (λ s Hs, Hs)) as Hr.
  destruct (replay_segments _ _ _ _ _) as [a' [[e|e]|]]; [|done|done]. by destruct Hr as [[msg ->] Hr].
Qed.

(** ** Restoring *)

(** A store holding the events numbered from one, as some appends stamped them. *)
Definition renumbered (events : list Event) (L : list (Z * Event)) : Prop :=
  ∃ stamped, L = numbered 0 stamped ∧ Forall2 (λ ev ev', ∃ c, ev' = stamp_commit c ev) events stamped.

Definition from_below (err : RestoreError) : bool :=
  match err with
  | ROpen (ERead _ | ECommit _) | RAppend (ERead _ | ECommit _ | EMarshal _ _) => true
  | RReplay err => is_sink err
  | _ => false
  end.

(** An event the log accepted once: well formed, and its stored form lossless. *)
Definition sound_event (ev : Event) : Prop := event_storable ev ∧ Event_ValidateShape ev = None.

Lemma stage_fails c : ∀ evs i n err, stage_events true c i n evs = inl err → Forall sound_event evs → ∃ j msg, err = EMarshal j msg.
Proof.
  induction evs as [|ev evs IH]; intros i n err Hst Hev; cbn [stage_events] in Hst; [done|]. apply Forall_cons in Hev as [[_ Hv] Hev]. rewrite Hv in Hst.
  destruct (proto_marshal _) as [msg|data]; [injection Hst as <-; eauto|].
  assert (is_Some (indexEvent (stamp_commit c ev) (u64 (n + 1)))) as [ws Hi].
  { unfold Event_ValidateShape, validateEnvelope in Hv. unfold indexEvent, stamp_commit. destruct (ev_Entity ev), (ev_Relation ev); eauto; done. }
  rewrite Hi in Hst. destruct (stage_events _ _ _ _ evs) as [e|[[? ?] ?]] eqn:Hrec; [|done]. injection Hst as <-. by eapply IH.
Qed.
Lemma append_fails evs (s s' : Store D) r : s_AcceptUnknownTypes s = true → Append evs s = (s', r) → Forall sound_event evs →
  s_AcceptUnknownTypes s' = true ∧ match r with inl err => from_below (RAppend err) = true | inr _ => True end.
Proof.
  intros Hacc Happ Hev. unfold Append in Happ. destruct evs as [|ev evs]; [by injection Happ as <- <-|]. remember (ev :: evs) as l. rewrite Hacc in Happ.
  destruct (stage_events _ _ _ _ l) as [err|[[seq ws] evs']] eqn:Hst.
  - injection Happ as <- <-. split; [done|]. destruct (stage_fails _ _ _ _ _ Hst Hev) as (j & msg & ->). done.
  - destruct (pb_commit _ _) as [d [msg|]]; injection Happ as <- <-; done.
Qed.

(** The batch and the store behind it, after the events [seen]. *)
Inductive restoring (seen : list Event) (b : list Event * Store D) : Prop :=
| Restoring (flushed stamped : list Event) (Hseen : seen = (flushed ++ b.1)%list) (Hlog : store_ok b.2 (numbered 0 stamped))
    (Hseq : s_seq b.2 = Z.of_nat (length stamped)) (Hev : Forall2 (λ ev ev', ∃ c, ev' = stamp_commit c ev) flushed stamped)
    (Hacc : s_AcceptUnknownTypes b.2 = true).

Lemma flush_restores seen b : restoring seen b → Forall sound_event seen → Z.of_nat (length seen) < max_seq →
  match flush b with
  | (b', None) => restoring seen b' ∧ b'.1 = []
  | (b', Some err) => restoring seen b' ∧ from_below (RAppend err) = true
  end.
Proof.
  intros [flushed stamped Hseen Hlog Hseq Hev Hacc] Hsound Hroom. unfold flush. destruct b as [l st]. cbn [fst snd] in *. destruct l as [|ev batch] eqn:Hb.
  { split; [|done]. by exists flushed stamped. }
  rewrite -Hb. rewrite -Hb in Hseen. clear Hb. pose proof Hsound as Hl. rewrite Hseen in Hl. apply Forall_app in Hl as [_ Hl]. pose proof (f_equal length Hseen) as Hlen. rewrite length_app in Hlen.
  pose proof (Forall2_length _ _ _ Hev) as Hfl. destruct (Append l st) as [st' r] eqn:Happ. destruct (append_fails _ _ _ _ Hacc Happ Hl) as [Hacc' Hr].
  pose proof (append_log st (numbered 0 stamped) l st' r Hlog) as Ha.
  specialize (Ha ltac:(eapply Forall_impl; [exact Hl|]; intros x [? _]; done) ltac:(lia) Happ). destruct r as [err|evs'].
  - split; [|done]. destruct Ha as [Ha1 Ha2]. exists flushed stamped; cbn [fst snd]; [done|done|congruence|done|done].
  - destruct Ha as (Ha1 & Ha2 & Ha3 & _). split; [|done]. exists (flushed ++ l)%list (stamped ++ evs')%list; cbn [fst snd].
    + by rewrite app_nil_r.
    + assert (numbered 0 (stamped ++ evs') = numbered 0 stamped ++ numbered (s_seq st) evs')%list as ->; [|done].
      rewrite Hseq. unfold numbered. rewrite imap_app. f_equal. apply imap_ext. intros i x _. simpl. f_equal. lia.
    + rewrite Ha2 Hseq length_app Ha3 length_fmap. lia.
    + apply Forall2_app; [done|]. rewrite Ha3. apply Forall2_fmap_r, Forall_Forall2_diag, Forall_forall. intros x _. by exists (s_seq st + 1).
    + done.
Qed.

Lemma restore_events evs : ∀ seen b, restoring seen b → Forall sound_event (seen ++ evs)%list → Z.of_nat (length (seen ++ evs)) < max_seq →
  match apply_events restore_event evs b with
  | (b', None) => restoring (seen ++ evs)%list b'
  | (b', Some err) => from_below (RAppend err) = true ∧ ∃ seen' rest, (seen ++ evs = seen' ++ rest)%list ∧ restoring seen' b'
  end.
Proof.
  induction evs as [|ev evs IH]; intros seen b Hb Hsound Hroom; cbn [apply_events]; [by rewrite app_nil_r|].
  assert (seen ++ ev :: evs = (seen ++ [ev]) ++ evs)%list as E by (by rewrite -(assoc_L app)). rewrite E in Hsound, Hroom |- *.
  assert (restoring (seen ++ [ev]) ((b.1 ++ [ev])%list, b.2)) as Hb'.
  { destruct Hb as [flushed stamped Hseen Hlog Hseq Hev Hacc]. exists flushed stamped; cbn [fst snd]; [by rewrite Hseen -(assoc_L app)|done..]. }
  unfold restore_event at 1. cbv zeta. destruct (batchSize <=? _)%nat; [|by apply IH].
  pose proof (flush_restores _ _ Hb') as Hf. apply Forall_app in Hsound as Hsound'. destruct Hsound' as [Hs1 _]. specialize (Hf Hs1). rewrite length_app in Hroom.
  specialize (Hf ltac:(lia)). destruct (flush _) as [b1 [err|]]; [|apply IH; [by destruct Hf|done|by rewrite length_app]].
  destruct Hf as [Hf1 Hf2]. split; [done|]. by exists (seen ++ [ev])%list, evs.
Qed.

Lemma sorted_length l lo hi : StronglySorted seq_lt l → (∀ x, x ∈ l → lo < x.1 <= hi) → lo <= hi → Z.of_nat (length l) <= hi - lo.
Proof.
  intros Hs. revert lo. induction Hs as [|x l Hs IH Hall]; intros lo Hr Hle; simpl; [lia|]. pose proof (Hr x ltac:(left)).
  assert (Z.of_nat (length l) <= hi - x.1); [|lia]. apply IH; [|lia]. intros y Hy. rewrite Forall_forall in Hall. pose proof (Hall y Hy). pose proof (Hr y ltac:(by right)). unfold seq_lt in *. lia.
Qed.

Lemma empty_log (d : D) acc : contents d = ∅ → store_ok (mkStore d acc false 0 0 0 0 0 0) [].
Proof.
  intros E. split; cbn [s_db s_seq]; rewrite ?E.
  - split; [constructor|set_solver|intros k v; by rewrite lookup_empty|set_solver|]. intros k v _. rewrite lookup_empty. set_solver.
  - unfold max_seq. lia.
  - set_solver.
  - right. by rewrite lookup_empty.
  - intros v. by rewrite lookup_empty.
  - intros v. by rewrite lookup_empty.
Qed.

(** A restore into an empty store: the events of the segments, or what failed below and
    the events before. *)
Lemma restore_spec (d : D) sh top segs : shipped (objects (sh_sink sh)) top segs → contents d = ∅ → Forall sound_event (events_of segs).*2 →
  match restoreTenantLog tenant d sh with
  | inl err => from_below err = true
  | inr (st, None) => ∃ L, store_ok st L ∧ s_seq st = Z.of_nat (length L) ∧ renumbered (events_of segs).*2 L
  | inr (st, Some err) => from_below err = true ∧ ∃ L done rest, store_ok st L ∧ (events_of segs).*2 = (done ++ rest)%list ∧ renumbered done L
  end.
Proof.
  intros Hsh Hd Hsound. unfold restoreTenantLog. pose proof (reopen_log true false _ [] (empty_log d true Hd)) as Hopen. cbn [s_db] in Hopen.
  destruct (open true false d) as [err|st] eqn:Hop; [by destruct err|]. cbn [s_seq] in Hopen. destruct Hopen as [Hok Hseq]. unfold Sequence. rewrite Hseq. cbn [Z.ltb Z.compare].
  assert (s_AcceptUnknownTypes st = true) as Hacc.
  { unfold open in Hop. destruct (checkFormat _ _) as [? [?|]]; [done|]. destruct (recoverSeq _) as [|[[? ?] ?]]; [done|]. by injection Hop as <-. }
  assert (restoring [] ([], st)) as Hst0 by (by exists [] []).
  destruct (chain_events _ _ _ (shp_chain _ _ _ Hsh)) as [Hs Hr]. pose proof (sorted_length _ _ _ Hs Hr (chain_le _ _ _ (shp_chain _ _ _ Hsh))) as Hlen.
  set (evs := (events_of segs).*2) in *. assert (Z.of_nat (length evs) < max_seq) as Hroom by (unfold evs; rewrite length_fmap; pose proof (shp_top _ _ _ Hsh); lia).
  assert (∀ l, (∃ l', evs = l ++ l')%list → Forall sound_event l ∧ Z.of_nat (length l) < max_seq) as Hpart.
  { intros l [l' E]. rewrite E in Hsound, Hroom. apply Forall_app in Hsound as [? _]. rewrite length_app in Hroom. split; [done|lia]. }
  assert (∀ seen rest b, evs = (seen ++ rest)%list → restoring seen b →
    ∃ L done rest, store_ok b.2 L ∧ evs = (done ++ rest)%list ∧ renumbered done L) as Hleft.
  { intros seen rest b E [flushed stamped -> Hlog _ Hev _]. exists (numbered 0 stamped), flushed, (b.1 ++ rest)%list. rewrite E -(assoc_L app). split_and!; [done|done|by exists stamped]. }
  pose proof (replay_spec restore_event ([], st) sh top segs Hsh) as Hrep. fold evs in Hrep.
  destruct (Replay_log tenant restore_event ([], st) sh) as [b [[e|e]|]] eqn:Hrl.
  - destruct Hrep as (Hsink & l1 & l2 & E & Hap). split; [done|]. destruct (Hpart l1 ltac:(by exists l2)) as [Hs1 Hl1].
    pose proof (restore_events l1 [] ([], st) Hst0 Hs1 Hl1) as Hev. rewrite Hap in Hev. by eapply (Hleft l1).
  - pose proof (restore_events evs [] ([], st) Hst0 Hsound Hroom) as Hev. rewrite Hrep in Hev. destruct Hev as (Hbelow & seen & rest & E & Hb). split; [done|]. by eapply (Hleft seen).
  - pose proof (restore_events evs [] ([], st) Hst0 Hsound Hroom) as Hev. rewrite Hrep in Hev. pose proof (flush_restores _ _ Hev Hsound Hroom) as Hf. simpl in Hf.
    destruct (flush b) as [b' [err|]]; destruct Hf as [Hf1 Hf2].
    + split; [done|]. apply (Hleft evs []); [by rewrite app_nil_r|done].
    + destruct Hf1 as [flushed stamped E Hlog Hsq Hst Hacc']. rewrite Hf2 app_nil_r in E. exists (numbered 0 stamped). split; [done|]. split.
      * rewrite Hsq. unfold numbered. by rewrite length_imap.
      * exists stamped. by rewrite E.
Qed.

(** ** The life of a tenant's log *)

(** The store with its log, all that was ever appended, the shipper, and the sequence that
    the last shipment to report success had in view. *)
Record World := mkWorld {
  w_store : Store D;
  w_log : list (Z * Event);
  w_all : list (Z * Event);
  w_ship : Shipper R;
  w_seen : Z;
}.

Inductive lives : World → World → Prop :=
| Appends w evs s r : Forall sound_event evs → s_seq (w_store w) + Z.of_nat (length evs) + 1 < max_seq → Append evs (w_store w) = (s, r) →
    let new := match r with inr stamped => numbered (s_seq (w_store w)) stamped | inl _ => [] end in
    lives w (mkWorld s (w_log w ++ new) (w_all w ++ new) (w_ship w) (w_seen w))
| Retains w s L : store_ok s L → s_seq s = s_seq (w_store w) → L `sublist_of` w_log w →
    lives w (mkWorld s L (w_all w) (w_ship w) (w_seen w))
| Ships w src sh r : 0 <= s_seq src <= s_seq (w_store w) → Ship tenant src (w_store w) (w_ship w) = (sh, r) →
    lives w (mkWorld (w_store w) (w_log w) (w_all w) sh (match r with inr _ => s_seq src | inl _ => w_seen w end))
| Restarts w sink cursor : (∀ name, mine name → objects sink !! name = objects (sh_sink (w_ship w)) !! name) →
    cursor = sh_cursor (w_ship w) ∨ cursor = ∅ →
    lives w (mkWorld (w_store w) (w_log w) (w_all w) (mkShipper sink cursor) (w_seen w)).

Definition unborn (w : World) : Prop :=
  store_ok (w_store w) [] ∧ s_seq (w_store w) = 0 ∧ w_log w = [] ∧ w_all w = [] ∧ sh_cursor (w_ship w) = ∅ ∧ w_seen w = 0 ∧
  ∀ name, mine name → objects (sh_sink (w_ship w)) !! name = None.

(** A log and the part of it that is shipped. *)
Record kept (w : World) (top : Z) (segs : list Seg) : Prop := {
  kp_store : store_ok (w_store w) (w_log w);
  kp_room : s_seq (w_store w) + 1 < max_seq;
  kp_log : w_log w `sublist_of` w_all w;
  kp_all : (w_all w).*1 = seqZ 1 (s_seq (w_store w));
  kp_sound : Forall sound_event (w_all w).*2;
  kp_shipped : shipped (objects (sh_sink (w_ship w))) top segs;
  kp_end : at_end (w_ship w) top;
  kp_top : top <= s_seq (w_store w);
  kp_past : ∀ x, x ∈ events_of segs → x ∈ w_all w;
  kp_present : ∀ x, x ∈ w_log w → x.1 <= top → x ∈ events_of segs;
  kp_seen : w_seen w <= s_seq (w_store w) ∧ covered (w_seen w) top (w_log w);
}.

Lemma stamp_sound c ev : sound_event ev → sound_event (stamp_commit c ev).
Proof. intros [H1 H2]. split; [by apply stamp_storable|]. by destruct ev as [[[]|] [[]|]]. Qed.

Lemma unborn_kept w : unborn w → kept w 0 [].
Proof.
  destruct w as [st log all ship seen]. intros (Hok & Hseq & El & Ea & Ec & Es & Hnone). cbn [w_store w_log w_all w_ship w_seen] in *. subst log all seen.
  split; cbn [w_store w_log w_all w_ship w_seen]; rewrite ?Hseq //; try by intros ? ?%elem_of_nil.
  - split; [done|unfold max_seq; lia|by intros ? ?%elem_of_nil|]. intros name Hm. by rewrite Hnone // is_Some_alt.
  - intros n. by rewrite Ec lookup_empty.
  - split; [lia|by intros ? ?%elem_of_nil].
Qed.

Hypothesis Hframes : ∀ ev, frameable ev.

Lemma numbered_fst n evs : (numbered n evs).*1 = seqZ (n + 1) (Z.of_nat (length evs)).
Proof.
  revert n. induction evs as [|ev evs IH]; intros n; [done|]. rewrite numbered_cons fmap_cons IH. cbn [length fst]. rewrite (seqZ_cons (n + 1)); [|lia].
  f_equal. f_equal; lia.
Qed.

Lemma append_kept w evs s r top segs : kept w top segs → Forall sound_event evs → s_seq (w_store w) + Z.of_nat (length evs) + 1 < max_seq → Append evs (w_store w) = (s, r) →
  let new := match r with inr stamped => numbered (s_seq (w_store w)) stamped | inl _ => [] end in
  kept (mkWorld s (w_log w ++ new) (w_all w ++ new) (w_ship w) (w_seen w)) top segs.
Proof.
  intros [K1 K2 K3 K4 K5 K6 K7 K8 K9 K10 [K11 K12]] Hev Hroom Happ. pose proof (append_log _ _ _ _ _ K1 ltac:(eapply Forall_impl; [exact Hev|]; by intros x []) ltac:(lia) Happ) as Ha.
  destruct r as [err|stamped]; cbv zeta.
  - destruct Ha as [Ha1 Ha2]. rewrite !app_nil_r. split; cbn [w_store w_log w_all w_ship w_seen]; rewrite ?Ha2 //.
  - destruct Ha as (Ha1 & Ha2 & -> & _). assert (length (stamp_commit (s_seq (w_store w) + 1) <$> evs) = length evs) as El by apply length_fmap.
    assert (∀ x, x ∈ numbered (s_seq (w_store w)) (stamp_commit (s_seq (w_store w) + 1) <$> evs) → s_seq (w_store w) < x.1) as Hnew by (intros [k x] Hx%elem_of_numbered; simpl; lia).
    split; cbn [w_store w_log w_all w_ship w_seen]; try done.
    + lia.
    + by apply sublist_app.
    + rewrite fmap_app K4 numbered_fst El Ha2. rewrite seqZ_app; [by rewrite (Z.add_comm 1)|pose proof (so_seq _ _ K1); lia|lia].
    + rewrite fmap_app numbered_snd. apply Forall_app. split; [done|]. apply Forall_fmap. eapply Forall_impl; [exact Hev|]. intros x. apply stamp_sound.
    + lia.
    + intros x Hx. apply elem_of_app. left. auto.
    + intros x [Hx|Hx%Hnew]%elem_of_app ?; [auto|lia].
    + split; [lia|]. intros x [Hx|Hx%Hnew]%elem_of_app ?; [auto|lia].
Qed.

Lemma events_of_snoc segs s : events_of (segs ++ [s])%list = (events_of segs ++ sg_events s)%list.
Proof. unfold events_of. rewrite fmap_app join_app. cbn. by rewrite app_nil_r. Qed.

Lemma ship_kept w src sh r top segs : kept w top segs → 0 <= s_seq src <= s_seq (w_store w) → Ship tenant src (w_store w) (w_ship w) = (sh, r) →
  ∃ top' segs', kept (mkWorld (w_store w) (w_log w) (w_all w) sh (match r with inr _ => s_seq src | inl _ => w_seen w end)) top' segs'.
Proof.
  intros [K1 K2 K3 K4 K5 K6 K7 K8 K9 K10 [K11 K12]] Hsrc Hship.
  assert (Forall sound_event (w_log w).*2) as Hsound.
  { apply Forall_forall. intros ev (x & -> & Hx)%list_elem_of_fmap. rewrite Forall_forall in K5. apply K5, list_elem_of_fmap_2. by eapply elem_of_sublist. }
  pose proof (ship_spec src (w_store w) (w_ship w) top segs (w_log w) K6 K7 K1 ltac:(eapply Forall_impl; [exact Hsound|]; by intros x [])
    ltac:(apply Forall_forall; intros x _; apply Hframes) Hsrc K8 K2) as Hspec.
  rewrite Hship in Hspec. destruct Hspec as (_ & top' & segs' & Hsh' & Hend' & H3 & H4). exists top', segs'.
  assert (covered (w_seen w) top' (w_log w) ∧ top <= top' ∧ top' <= s_seq (w_store w) ∧ (∀ x, x ∈ events_of segs' → x ∈ w_all w) ∧
    ∀ x, x ∈ w_log w → x.1 <= top' → x ∈ events_of segs') as (Hc & Hle & Htop & Hpast & Hpres).
  { destruct H3 as [[= -> ->]|[Hlt [= -> ->]]]; [by split_and!|]. split_and!; [|lia|lia| |].
    - intros x Hx Hn. specialize (K12 x Hx Hn). lia.
    - intros x. rewrite events_of_snoc elem_of_app. intros [Hx|Hx]; [auto|]. simpl in Hx. unfold upto, past in Hx. rewrite !list_elem_of_filter in Hx. eapply elem_of_sublist; [|done]. tauto.
    - intros x Hx Hn. rewrite events_of_snoc elem_of_app. destruct (decide (x.1 <= top)); [left; auto|right]. simpl. unfold upto, past. rewrite !list_elem_of_filter. split_and!; [done|lia|done]. }
  split; cbn [w_store w_log w_all w_ship w_seen]; try done. destruct r as [err|n]; [done|]. split; [lia|]. apply H4.
Qed.

Lemma lives_kept w w' top segs : kept w top segs → lives w w' → ∃ top' segs', kept w' top' segs'.
Proof.
  intros Hk Hl. destruct Hl as [w evs s r Hev Hroom Happ|w s L Hok Hseq Hsub|w src sh r Hsrc Hship|w sink cursor Hsink Hcur].
  - exists top, segs. by eapply append_kept.
  - destruct Hk as [K1 K2 K3 K4 K5 K6 K7 K8 K9 K10 [K11 K12]]. exists top, segs. split; cbn [w_store w_log w_all w_ship w_seen]; rewrite ?Hseq //.
    + by etrans.
    + intros x Hx. apply K10. by eapply elem_of_sublist.
    + split; [done|]. intros x Hx. apply K12. by eapply elem_of_sublist.
  - by eapply ship_kept.
  - destruct Hk as [K1 K2 K3 K4 K5 K6 K7 K8 K9 K10 K11]. exists top, segs. split; cbn [w_store w_log w_all w_ship w_seen sh_sink sh_cursor]; try done.
    + eapply shipped_ext; [|exact K6]. done.
    + intros n. cbn [sh_cursor]. destruct Hcur as [->| ->]; [apply K7|by rewrite lookup_empty].
Qed.

Lemma reachable_kept w0 w : unborn w0 → rtc lives w0 w → ∃ top segs, kept w top segs.
Proof.
  intros Hborn Hr. assert (∃ top segs, kept w0 top segs) as Hk by (exists 0, []; by apply unborn_kept). clear Hborn. revert Hk. induction Hr as [|w1 w2 w3 Hl _ IH]; [done|].
  intros (top & segs & Hk). apply IH. by eapply lives_kept.
Qed.

Lemma seq_lt_NoDup (l : list (Z * Event)) : StronglySorted seq_lt l → NoDup l.
Proof. intros Hs. apply (StronglySorted_NoDup_by fst), seq_sorted_map; [done|]. by intros x y _ _. Qed.
Lemma prefix_seqZ l m n : l `prefix_of` seqZ m n → l = seqZ m (Z.of_nat (length l)).
Proof.
  intros [k E]. apply list_eq_same_length with (length l); [rewrite ?length_seqZ; lia|rewrite ?length_seqZ; lia|]. intros i x y Hi Hx Hy.
  assert (seqZ m n !! i = Some x) as Hz by (rewrite E; by apply lookup_app_l_Some). apply lookup_seqZ in Hz as [-> _]. by apply lookup_seqZ in Hy as [-> _].
Qed.

Lemma sorted_members (l1 l2 : list (Z * Event)) : StronglySorted seq_lt l1 → StronglySorted seq_lt l2 → (∀ x, x ∈ l1 ↔ x ∈ l2) → l1 = l2.
Proof.
  intros H1 H2 Hin. apply (StronglySorted_unique_strong seq_lt); [|done|done|].
  - intros x y _ _ Hx Hy. unfold seq_lt in *. lia.
  - apply NoDup_Permutation; [by eapply seq_lt_NoDup|by eapply seq_lt_NoDup|done].
Qed.

(** C14. What was shipped can be restored. Whatever happened to a tenant's log and its
    shipper since both were empty (appends, retention that removes events, shipments that
    fail or land without saying so, restarts that forget the cursor, other writers of the
    sink), a restore of the tenant into an empty store fails only as the sink or the
    database does, leaving the events before, or rebuilds a log: events that were appended,
    in their order, among them every event still in the log that a successful shipment had
    in view. When nothing was ever removed it is the log up to a sequence, number by
    number; only the stamp that groups the events of an append is new. *)
Theorem shipped_log_restores (w0 w : World) (d : D) (Hborn : unborn w0) (Hlives : rtc lives w0 w) (Hempty : contents d = ∅) :
  ∃ top E, StronglySorted seq_lt E ∧ (∀ x, x ∈ E → x ∈ w_all w) ∧ (∀ x, x ∈ w_log w → x.1 <= w_seen w → x ∈ E) ∧
    (w_log w = w_all w → E = upto top (w_log w)) ∧
  match restoreTenantLog tenant d (New_shipper (sh_sink (w_ship w))) with
  | inl err => from_below err = true
  | inr (st, None) => ∃ L, store_ok st L ∧ renumbered E.*2 L ∧ (w_log w = w_all w → L.*1 = E.*1)
  | inr (st, Some err) => from_below err = true ∧ ∃ L done rest, store_ok st L ∧ E.*2 = (done ++ rest)%list ∧ renumbered done L
  end.
Proof.
  destruct (reachable_kept w0 w Hborn Hlives) as (top & segs & [K1 K2 K3 K4 K5 K6 K7 K8 K9 K10 [K11 K12]]).
  destruct (chain_events _ _ _ (shp_chain _ _ _ K6)) as [Hs Hr]. exists top, (events_of segs).
  assert (w_log w = w_all w → events_of segs = upto top (w_log w)) as Hexact.
  { intros E. apply sorted_members; [done|apply seq_filter, (rp_sorted _ _ (so_log _ _ K1))|]. intros x. unfold upto. rewrite list_elem_of_filter. split.
    - intros Hx. split; [apply (Hr x Hx)|]. rewrite E. auto.
    - intros [Hx Hin]. auto. }
  split_and!; [done|done|intros x Hx Hn; auto|done|].
  assert (Forall sound_event (events_of segs).*2) as Hsound.
  { apply Forall_forall. intros ev (x & -> & Hx)%list_elem_of_fmap. rewrite Forall_forall in K5. apply K5, list_elem_of_fmap_2. auto. }
  pose proof (restore_spec d (New_shipper (sh_sink (w_ship w))) top segs K6 Hempty Hsound) as Hres.
  destruct (restoreTenantLog _ _ _) as [err|[st [err|]]]; [done|done|]. destruct Hres as (L & Hst0 & _ & Hren). exists L. split_and!; [done|done|].
  intros E. destruct Hren as (stamped & -> & Hst). apply Forall2_length in Hst. rewrite length_fmap in Hst. rewrite numbered_fst -Hst.
  assert ((events_of segs).*1 `prefix_of` seqZ 1 (s_seq (w_store w))) as ->%prefix_seqZ; [|by rewrite length_fmap].
  rewrite (Hexact E) -K4 -E. exists ((past top (w_log w)).*1). rewrite -fmap_app. f_equal. apply sorted_split, (rp_sorted _ _ (so_log _ _ K1)).
Qed.
End tenant.
