(* ===== verification/LogshipExamples.v ===== *)
(** * Log shipping on concrete runs

    A sink in memory, the witness of recovery, and a recovered node whose changes are not
    shipped. *)
From S2P Require Import Prelude GoStd Values Vocabulary Entities Events Projection ProjectionInv ProjectionSpec Engine EngineInv EngineExamples.
From S2P Require Import Keys Store Retention StoreInv StoreSpec StoreReads LogState Boot EngineStore StoreExamples Sink Logship StoreSnapshot LogshipSpec.
Open Scope Z_scope.

(** ** A sink in memory *)

#[export] Instance mem_sink {V} : Sink V (gmap string V) := {|
  sk_put n v r := (<[n := v]> r, None);
  sk_get n r := match r !! n with Some v => inr v | None => inl "no such object"%string end;
  sk_list p r := inr (base.filter (λ n, hasPrefix p n = true) (sorted_keys r));
|}.
#[export] Program Instance mem_sink_laws {V} : SinkLaws V (gmap string V) := {| objects r := r |}.
Next Obligation. intros V n r v. unfold sk_get, mem_sink. destruct (r !! n); [by intros [= ->]|done]. Qed.
Solve Obligations with naive_solver.

(** ** A host that ages *)

Definition aged : list Event := [said 10 EntityCreated host_a; said 20 EntityUnchanged host_a; said 30 EntityUnchanged host_a; said 40 EntityUnchanged host_a].
Definition gone : Event := said 50 EntityDeleted host_a.
Definition arrived : Event := said 60 EntityCreated host_b.

#[local] Instance aged_codec : Proto := table_codec (Event_ToProto <$> ((stamp_commit 1 <$> aged) ++ [stamp_commit 4 gone; stamp_commit 5 arrived; stamp_commit 1 arrived])%list).
#[local] Instance aged_codec_laws : ProtoLaws := table_codec_laws _.

Lemma table_frames table : ∀ ev, @frameable (table_codec table) ev.
Proof.
  intros ev b. unfold proto_marshal, table_codec. destruct (list_find _ table) as [[i m]|]; [|done]. case_match; [|done]. by intros [= <-].
Qed.

Definition born_store : Store (gmap string string) := fresh ∅.
Definition aged_store : Store (gmap string string) := (Append aged born_store).1.
Definition born : World := mkWorld born_store [] [] (New_shipper (∅ : gmap string string)) 0.
Definition aged_log : list (Z * Event) := numbered 0 (stamp_commit 1 <$> aged).
Definition shipped_aged : Shipper (gmap string string) := (Ship "acme" aged_store aged_store (New_shipper ∅)).1.
Definition grown : World := mkWorld aged_store aged_log aged_log shipped_aged (s_seq aged_store).

Lemma born_unborn : unborn "acme" born.
Proof. split; [exact empty_store_ok|]. split_and!; [done..|]. intros name _. exact (lookup_empty name). Qed.

Lemma aged_sound : Forall sound_event aged.
Proof. repeat (apply Forall_cons; split; [split; [apply (bool_decide_unpack _); vm_compute; exact I|vm_compute; reflexivity]|]). exact (Forall_nil_2 _). Qed.

Lemma aged_append : Append aged born_store = (aged_store, inr (stamp_commit 1 <$> aged)).
Proof. assert ((Append aged born_store).2 = inr (stamp_commit 1 <$> aged)) as E by (vm_compute; reflexivity). unfold aged_store. rewrite -E. by destruct (Append aged born_store). Qed.
Lemma aged_ship : Ship "acme" aged_store aged_store (New_shipper ∅) = (shipped_aged, inr 4%nat).
Proof. assert ((Ship "acme" aged_store aged_store (New_shipper ∅)).2 = inr 4%nat) as E by (vm_compute; reflexivity). unfold shipped_aged. rewrite -E. by destruct (Ship "acme" aged_store aged_store (New_shipper ∅)). Qed.

Lemma born_grown : rtc (lives "acme") born grown.
Proof.
  eapply rtc_l; [apply (Appends "acme" born aged aged_store (inr (stamp_commit 1 <$> aged)) aged_sound); [vm_compute; reflexivity|exact aged_append]|]. cbn [w_store w_log w_all w_ship w_seen born app].
  eapply rtc_l; [|apply rtc_refl].
  apply (Ships "acme" (mkWorld aged_store aged_log aged_log (New_shipper ∅) 0) aged_store shipped_aged (inr 4%nat)); [|exact aged_ship].
  split; apply (bool_decide_unpack _); vm_compute; exact I.
Qed.

(** The store rebuilt from a sink. *)
Definition rebuilt (r : gmap string string) : Store (gmap string string) :=
  match restoreTenantLog "acme" (∅ : gmap string string) (New_shipper r) with inr (st, None) => st | _ => fresh ∅ end.

Lemma rebuilt_whole (r : gmap string string) :
  match restoreTenantLog "acme" (∅ : gmap string string) (New_shipper r) with inr (_, None) => true | _ => false end = true →
  restoreTenantLog "acme" (∅ : gmap string string) (New_shipper r) = inr (rebuilt r, None).
Proof. unfold rebuilt. by destruct (restoreTenantLog _ _ _) as [|[st [err|]]]. Qed.

Lemma shipped_log_restores_witness :
  restoreTenantLog "acme" (∅ : gmap string string) (New_shipper (sh_sink shipped_aged)) = inr (rebuilt (sh_sink shipped_aged), None) ∧
  Scan (rebuilt (sh_sink shipped_aged)) = (aged_log, None) ∧
  s_seq aged_store = 4 ∧ ∃ top E, (∀ x, x ∈ aged_log → x.1 <= s_seq aged_store → x ∈ E) ∧ E = upto top aged_log.
Proof.
  split; [apply rebuilt_whole; vm_compute; reflexivity|]. split; [vm_compute; reflexivity|]. split; [vm_compute; reflexivity|].
  destruct (shipped_log_restores "acme" (table_frames _) born grown ∅ born_unborn born_grown eq_refl) as (top & E & _ & _ & Hin & Hall & _).
  exists top, E. split; [exact Hin|exact (Hall eq_refl)].
Defined.

(** ** A recovered node *)

(** The store after coalescing, the sink it ships to from then on, and the node rebuilt
    from that sink, at two later moments. *)
Definition thinned : Store (gmap string string) := (CoalesceHeartbeats aged_store).1.
Definition target : gmap string string := sh_sink (Ship "acme" thinned thinned (New_shipper ∅)).1.
Definition node : Store (gmap string string) := (Append [gone] (rebuilt target)).1.
Definition later_node : Store (gmap string string) := (Append [arrived] node).1.
Definition next_ship : Shipper (gmap string string) * (ShipError + nat) := Ship "acme" node node (New_shipper target).
Definition last_ship : Shipper (gmap string string) * (ShipError + nat) := Ship "acme" later_node later_node next_ship.1.
Definition live_of (st : Store (gmap string string)) : gmap string Entity := live (Replay 0 (Scan st).1.*2 New).

(** A recovered node does not ship its first changes. Shipping begun on a log with
    gaps numbers its segments by the old sequence, a restore numbers its events anew from
    one, and the rebuilt node that ships to the same target takes the target's highest
    number for its cursor: until its own sequence passes it, each shipment reports success
    and writes nothing, and the next one starts past the events it skipped. The chain of
    the target has no gap, so a second recovery raises no error and rebuilds a graph
    without them: here a host that was deleted is there again. *)
Theorem recovered_node_skips :
  next_ship.2 = inr 0%nat ∧ last_ship.2 = inr 1%nat ∧ live_of later_node !! "A"%string = None ∧
  restoreTenantLog "acme" (∅ : gmap string string) (New_shipper (sh_sink last_ship.1)) = inr (rebuilt (sh_sink last_ship.1), None) ∧
  is_Some (live_of (rebuilt (sh_sink last_ship.1)) !! "A"%string).
Proof.
  split; [vm_compute; reflexivity|]. split; [vm_compute; reflexivity|]. split; [vm_compute; reflexivity|].
  split; [apply rebuilt_whole; vm_compute; reflexivity|]. eexists. vm_compute. reflexivity.
Qed.
