(* ===== verification/Annotations.v ===== *)
(** * Operator annotations: internal/annotations/annotations.go, sync.go

    Notes on entities, kept beside the event log in a sidecar database of rows and shared
    between nodes through the object store. A row is kept as the annotation its JSON text
    decodes to: what encoding/json changes on the way (invalid UTF-8, keys that become
    equal) is part of [marshal]. *)
From S2P Require Import Prelude GoStd Values Entities Events Sink.
Open Scope Z_scope.

Record Annotation := mkAnnotation {
  an_Values : gmap string string;
  an_Author : string;
  an_UpdatedAt : Time;
}.
#[export] Instance Annotation_eq_dec : EqDecision Annotation.
Proof. solve_decision. Defined.

(** ** JSON *)

(** A string as encoding/json writes and reads it back: each byte that is not part of a
    well-formed sequence becomes U+FFFD. *)
Fixpoint clean (fuel : nat) (l : list ascii) : list ascii :=
  match fuel, l with
  | S fuel, c :: rest =>
    if (N_of_ascii c <? 128)%N then c :: clean fuel rest
    else match Json.utf8_len l with
      | O => [ascii_of_N 239; ascii_of_N 191; ascii_of_N 189] ++ clean fuel rest
      | n => take n l ++ clean fuel (drop n l)
      end
  | _, _ => []
  end%list.
Definition json_text (s : string) : string := let l := list_of_string s in string_of_list (clean (length l) l).

(** Keys are written in order; of those that read back equal the last stays. *)
Definition read_back (a : Annotation) : Annotation :=
  mkAnnotation (Json.go_map ((λ k, (json_text k, json_text (default ""%string (an_Values a !! k)))) <$> sorted_keys (an_Values a)))
    (json_text (an_Author a)) (an_UpdatedAt a).

(** The years 0 to 9999, the only ones the JSON form of an instant has. *)
Definition day : Z := 86400 * second.
Definition time_marshals (t : Time) : bool := (- (366 * day) <=? t) && (t <? 3652059 * day).
Definition marshal (a : Annotation) : option Annotation := if time_marshals (an_UpdatedAt a) then Some (read_back a) else None.

(** What a row's text decodes to. *)
Inductive Row := Good (a : Annotation) | Bad (msg : string).
Definition unmarshal (r : Row) : string + Annotation := match r with Good a => inr a | Bad msg => inl msg end.

(** ** The sidecar *)

(** The database under a tenant's annotations: reads, an iterator over all of it, and two
    synced writes. *)
Class Sidecar (D : Type) := {
  sc_get : string → D → string + option Row;
  sc_iter : D → string + list (string * Row) * option string;
  sc_set : string → Row → D → D * option string;
  sc_delete : string → D → D * option string;
}.
(** As for the event log: reads without an error are exact, a write is done or not done. *)
Class SidecarLaws (D : Type) `{!Sidecar D} := {
  rows : D → gmap string Row;
  sc_get_sound : ∀ k d v, sc_get k d = inr v → v = rows d !! k;
  sc_iter_sound : ∀ d l, sc_iter d = inr (l, None) → l = sort_by fst (map_to_list (rows d));
  sc_iter_part : ∀ d l err, sc_iter d = inr (l, err) → l `prefix_of` sort_by fst (map_to_list (rows d));
  sc_set_ok : ∀ k r d d', sc_set k r d = (d', None) → rows d' = <[k := r]> (rows d);
  sc_set_failed : ∀ k r d d' msg, sc_set k r d = (d', Some msg) → rows d' = rows d;
  sc_delete_ok : ∀ k d d', sc_delete k d = (d', None) → rows d' = delete k (rows d);
  sc_delete_failed : ∀ k d d' msg, sc_delete k d = (d', Some msg) → rows d' = rows d;
}.

Inductive AnnError :=
| AReading (key msg : string)
| ADecoding (key msg : string)
| AEncoding (key : string)
| AWriting (key msg : string)
| ADeleting (key msg : string)
| AIterating (msg : string)
| AListing (msg : string)
| ASharedReading (name msg : string)
| ASharedDecoding (name msg : string)
| APushing (key msg : string).

Section sidecar.
Context {D : Type} `{!Sidecar D}.

Definition rawGet (id : string) (d : D) : AnnError + option Annotation :=
  match sc_get id d with
  | inl msg => inl (AReading id msg)
  | inr None => inr None
  | inr (Some row) => match unmarshal row with inl msg => inl (ADecoding id msg) | inr a => inr (Some a) end
  end.
(** A tombstone reads as absence. *)
Definition Get (id : string) (d : D) : AnnError + option Annotation :=
  match rawGet id d with
  | inr (Some a) => if bool_decide (an_Values a = ∅) then inr None else inr (Some a)
  | r => r
  end.

Definition Apply_row (id : string) (a : Annotation) (d : D) : D * option AnnError :=
  match marshal a with
  | None => (d, Some (AEncoding id))
  | Some row => let '(d, err) := sc_set id (Good row) d in (d, AWriting id <$> err)
  end.

(** Write first, then delete. *)
Definition migrate (key legacyKey : string) (a : Annotation) (d : D) : D * option AnnError :=
  match marshal a with
  | None => (d, Some (AEncoding key))
  | Some row =>
    match sc_set key (Good row) d with
    | (d, Some msg) => (d, Some (AWriting key msg))
    | (d, None) => let '(d, err) := sc_delete legacyKey d in (d, ADeleting legacyKey <$> err)
    end
  end.

Definition GetAt (key legacyKey : string) (d : D) : D * (AnnError + option Annotation) :=
  match Get key d with
  | inl err => (d, inl err)
  | inr (Some a) => (d, inr (Some a))
  | inr None =>
    if bool_decide (legacyKey = ""%string) || bool_decide (legacyKey = key) then (d, inr None) else
    match Get legacyKey d with
    | inl err => (d, inl err)
    | inr None => (d, inr None)
    | inr (Some old) => ((migrate key legacyKey old d).1, inr (Some old))
    end
  end.

(** The loop over the new values: an empty one removes its key. *)
Definition merge_values (values cur : gmap string string) : gmap string string :=
  map_fold (λ k v cur, if bool_decide (v = ""%string) then delete k cur else <[k := v]> cur) cur values.

Definition Set_values (id : string) (values : gmap string string) (author : string) (now : Time) (d : D) : D * (AnnError + Annotation) :=
  match Get id d with
  | inl err => (d, inl err)
  | inr cur =>
    let cur := mkAnnotation (merge_values values (match cur with Some a => an_Values a | None => ∅ end)) author now in
    match Apply_row id cur d with (d, Some err) => (d, inl err) | (d, None) => (d, inr cur) end
  end.

Definition SetAt (key legacyKey : string) (values : gmap string string) (author : string) (now : Time) (d : D) : D * (AnnError + Annotation) :=
  if negb (bool_decide (legacyKey = ""%string)) && negb (bool_decide (legacyKey = key)) then
    match GetAt key legacyKey d with
    | (d, inl err) => (d, inl err)
    | (d, inr _) => Set_values key values author now d
    end
  else Set_values key values author now d.

(** The rows a visit sees, up to the first that does not decode. *)
Fixpoint decode_rows (l : list (string * Row)) : list (string * Annotation) * option AnnError :=
  match l with
  | [] => ([], None)
  | (k, row) :: l =>
    match unmarshal row with
    | inl msg => ([], Some (ADecoding k msg))
    | inr a => let '(l, err) := decode_rows l in ((k, a) :: l, err)
    end
  end.
Definition Scan_rows (d : D) : list (string * Annotation) * option AnnError :=
  match sc_iter d with
  | inl msg => ([], Some (AIterating msg))
  | inr (l, err) => let '(l, e) := decode_rows l in (l, match e with Some _ => e | None => AIterating <$> err end)
  end.
Definition Count (d : D) : AnnError + nat :=
  match Scan_rows d with (l, None) => inr (length l) | (_, Some err) => inl err end.
Definition Delete_row (id : string) (d : D) : D * option AnnError := let '(d, err) := sc_delete id d in (d, ADeleting id <$> err).

(** ** Sharing *)

Definition nameFor (prefix key : string) : string := prefix +++ "/" +++ hex_encode key +++ ".ann".
Definition keyFromName (prefix name : string) : option string :=
  let rest := trimSuffix ".ann" (trimPrefix (prefix +++ "/") name) in
  if bool_decide (rest = name) || contains_byte "/" rest then None else hex_decode rest.

Context {R : Type} `{!Sink Row R}.

(** The remote rows seen so far, and how many of them won. *)
Fixpoint pull (prefix : string) (r : R) (names : list string) (seen : gmap string Annotation) (pulled : nat) (d : D)
    : D * gmap string Annotation * nat * option AnnError :=
  match names with
  | [] => (d, seen, pulled, None)
  | name :: names =>
    match keyFromName prefix name with
    | None => pull prefix r names seen pulled d
    | Some key =>
      match sk_get name r with
      | inl msg => (d, seen, pulled, Some (ASharedReading name msg))
      | inr row =>
        match unmarshal row with
        | inl msg => (d, seen, pulled, Some (ASharedDecoding name msg))
        | inr ra =>
          let seen := <[key := ra]> seen in
          match rawGet key d with
          | inl err => (d, seen, pulled, Some err)
          | inr la =>
            if match la with None => true | Some la => after (an_UpdatedAt ra) (an_UpdatedAt la) end then
              match Apply_row key ra d with
              | (d, Some err) => (d, seen, pulled, Some err)
              | (d, None) => pull prefix r names seen (S pulled) d
              end
            else pull prefix r names seen pulled d
          end
        end
      end
    end
  end.

Fixpoint push (prefix : string) (seen : gmap string Annotation) (l : list (string * Annotation)) (pushed : nat) (r : R) : R * nat * option AnnError :=
  match l with
  | [] => (r, pushed, None)
  | (key, la) :: l =>
    if match seen !! key with Some ra => negb (after (an_UpdatedAt la) (an_UpdatedAt ra)) | None => false end then push prefix seen l pushed r
    else match marshal la with
    | None => (r, pushed, Some (AEncoding key))
    | Some row =>
      match sk_put (nameFor prefix key) (Good row) r with
      | (r, Some msg) => (r, pushed, Some (APushing key msg))
      | (r, None) => push prefix seen l (S pushed) r
      end
    end
  end.

Record Synced := mkSynced { sy_pushed : nat; sy_pulled : nat; sy_err : option AnnError }.
Definition SyncOnce (prefix : string) (d : D) (r : R) : D * R * Synced :=
  match sk_list prefix r with
  | inl msg => (d, r, mkSynced 0 0 (Some (AListing msg)))
  | inr names =>
    match pull prefix r names ∅ 0 d with
    | (d, _, pulled, Some err) => (d, r, mkSynced 0 pulled (Some err))
    | (d, seen, pulled, None) =>
      let '(l, err) := Scan_rows d in
      match push prefix seen l 0 r with
      | (r, pushed, Some e) => (d, r, mkSynced pushed pulled (Some e))
      | (r, pushed, None) => (d, r, mkSynced pushed pulled err)
      end
    end
  end.
End sidecar.
