(* ===== verification/AnnotationsSpec.v ===== *)
(** * Properties of the annotations

    The sidecar's rows against two pure functions, the merge of a write and the newest of
    two rows: what a read and a write do to an entity's note while it moves from its old
    key to its fingerprint, what one pass of the sync does to each key, and that passes
    over any number of nodes converge. *)
From S2P Require Import Prelude GoStd Values Entities Events Keys Sink Annotations.
Open Scope Z_scope.

(** ** Text *)

Lemma utf8_len_app l x n : Json.utf8_len l = S n → Json.utf8_len (take (S n) l ++ x)%list = S n.
Proof.
  destruct l as [|a [|b [|c [|d l]]]]; cbn [Json.utf8_len]; try done; repeat case_match; intros [= <-]; cbn [take app];
    destruct x as [|x1 [|x2 x]]; cbn [Json.utf8_len]; simplify_eq/=; by repeat match goal with E : _ = _ |- _ => rewrite E; clear E end.
Qed.
Lemma utf8_len_take l n : Json.utf8_len l = S n → length (take (S n) l) = S n.
Proof. destruct l as [|a [|b [|c [|d l]]]]; cbn [Json.utf8_len]; try done; repeat case_match; by intros [= <-]. Qed.

Lemma clean_clean n : ∀ l m, (length l <= n)%nat → (length (clean n l) <= m)%nat → clean m (clean n l) = clean n l.
Proof.
  induction n as [|n IH]; intros l m Hl Hm; [by destruct m|]. destruct l as [|c l]; [by destruct m|]. simpl in Hl.
  cbn [clean] in *. destruct (N_of_ascii c <? 128)%N eqn:Hc.
  { destruct m as [|m]; [simpl in Hm; lia|]. cbn [clean]. rewrite Hc. f_equal. apply IH; simpl in Hm; lia. }
  destruct (Json.utf8_len (c :: l)) as [|k] eqn:Hk.
  - destruct m as [|m]; [simpl in Hm; lia|]. cbn [app clean]. set (x := clean n l) in *.
    change (N_of_ascii (ascii_of_N 239) <? 128)%N with false. cbv iota.
    pose proof (utf8_len_app [ascii_of_N 239; ascii_of_N 191; ascii_of_N 189] x 2 eq_refl) as E. cbn [take app] in E. rewrite E. cbn [take drop app].
    do 3 f_equal. apply IH; [lia|]. fold x. rewrite /= in Hm. lia.
  - pose proof (utf8_len_take _ _ Hk) as Ht. set (x := clean n (drop (S k) (c :: l))) in *. cbn [take app] in *.
    destruct m as [|m]; [simpl in Hm; lia|]. cbn [clean]. rewrite Hc.
    pose proof (utf8_len_app _ x _ Hk) as E. cbn [take app] in E. rewrite E.
    rewrite !app_comm_cons take_app_length' // drop_app_length' //. f_equal. apply IH.
    + rewrite length_drop. simpl. lia.
    + fold x. rewrite /= length_app in Hm. simpl in Ht. lia.
Qed.
Lemma json_text_idem s : json_text (json_text s) = json_text s.
Proof.
  unfold json_text. rewrite list_of_string_of_list. f_equal. by apply clean_clean.
Qed.

(** What decoding produces: text that is written back as it is. *)
Definition legible (a : Annotation) : Prop :=
  (∀ k v, an_Values a !! k = Some v → json_text k = k ∧ json_text v = v) ∧ json_text (an_Author a) = an_Author a.
Definition decoded (m : gmap string Row) : Prop := ∀ k a, m !! k = Some (Good a) → legible a.

Lemma go_map_lookup {A} (l : list (string * A)) k v : Json.go_map l !! k = Some v → (k, v) ∈ l.
Proof. unfold Json.go_map. intros H%elem_of_list_to_map_2. by rewrite ->elem_of_reverse in H. Qed.
Lemma go_map_empty {A} (l : list (string * A)) : Json.go_map l = ∅ → l = [].
Proof. unfold Json.go_map. destruct l as [|[k v] l]; [done|]. rewrite reverse_cons. intros H%(f_equal (lookup k)).
  rewrite lookup_empty in H. apply not_elem_of_list_to_map in H. destruct H. rewrite fmap_app. set_solver. Qed.
Lemma go_map_sorted (m : gmap string string) : Json.go_map ((λ k, (k, default ""%string (m !! k))) <$> sorted_keys m) = m.
Proof.
  set (l := (λ k, (k, default ""%string (m !! k))) <$> sorted_keys m). apply map_eq. intros k. destruct (m !! k) as [v|] eqn:Hk.
  - unfold Json.go_map. apply elem_of_list_to_map.
    + rewrite fmap_reverse reverse_Permutation. unfold l. rewrite -list_fmap_compose. apply (NoDup_fmap_2 _ _ (sorted_keys_NoDup m)).
    + apply elem_of_reverse. unfold l. apply list_elem_of_fmap. exists k. rewrite Hk. split; [done|]. apply elem_of_sorted_keys. by exists v.
  - destruct (Json.go_map l !! k) as [v|] eqn:Hl; [|done]. apply go_map_lookup in Hl. unfold l in Hl.
    apply list_elem_of_fmap in Hl as (k' & [= -> ->] & [w Hw]%elem_of_sorted_keys). congruence.
Qed.

Lemma legible_read_back a : legible a → read_back a = a.
Proof.
  intros [Hv Ha]. destruct a as [m au t]. unfold read_back. cbn [an_Values an_Author an_UpdatedAt] in *. f_equal; [|done].
  transitivity (Json.go_map ((λ k, (k, default ""%string (m !! k))) <$> sorted_keys m)); [|apply go_map_sorted]. f_equal.
  apply list_fmap_ext. intros i k [v Hk]%list_elem_of_lookup_2%elem_of_sorted_keys. rewrite Hk /=. by destruct (Hv k v Hk) as [-> ->].
Qed.
Lemma read_back_legible a : legible (read_back a).
Proof.
  split; [|apply json_text_idem]. intros k v Hk. cbn [read_back an_Values] in Hk.
  apply go_map_lookup, list_elem_of_fmap in Hk as (k' & [= -> ->] & _). by rewrite !json_text_idem.
Qed.
Lemma read_back_empty a : an_Values (read_back a) = ∅ ↔ an_Values a = ∅.
Proof.
  cbn [read_back an_Values]. split.
  - intros H%go_map_empty. apply fmap_nil_inv in H. apply map_eq. intros k. rewrite lookup_empty. destruct (an_Values a !! k) as [v|] eqn:Hk; [|done].
    assert (k ∈ sorted_keys (an_Values a)) as Hin by (apply elem_of_sorted_keys; by exists v). rewrite H in Hin. by apply not_elem_of_nil in Hin.
  - by intros ->.
Qed.
Lemma marshal_legible a row : marshal a = Some row → legible row.
Proof. unfold marshal. case_match; [intros [= <-]; apply read_back_legible|done]. Qed.
Lemma marshal_same a row : legible a → marshal a = Some row → row = a.
Proof. intros Ha. unfold marshal. case_match; [intros [= <-]; by apply legible_read_back|done]. Qed.
#[export] Hint Resolve read_back_legible marshal_legible : toise.

Lemma merge_values_lookup (values cur : gmap string string) k :
  merge_values values cur !! k = match values !! k with Some v => if bool_decide (v = ""%string) then None else Some v | None => cur !! k end.
Proof.
  unfold merge_values. apply (map_fold_weak_ind (λ r values, r !! k = match values !! k with Some v => if bool_decide (v = ""%string) then None else Some v | None => cur !! k end)).
  - by rewrite lookup_empty.
  - intros i v m r Hi IH. destruct (decide (i = k)) as [<-|Hne].
    + rewrite lookup_insert_eq. case_bool_decide; [apply lookup_delete_eq|apply lookup_insert_eq].
    + rewrite (lookup_insert_ne m) //. case_bool_decide; [by rewrite lookup_delete_ne|by rewrite lookup_insert_ne].
Qed.

(** ** Reads and writes of one entity's note *)

(** What a row reads as: a tombstone is no note. *)
Definition note (r : option Row) : option Annotation :=
  match r with Some (Good a) => if bool_decide (an_Values a = ∅) then None else Some a | _ => None end.
Definition has_legacy (key legacyKey : string) : bool := negb (bool_decide (legacyKey = ""%string)) && negb (bool_decide (legacyKey = key)).
(** The note of an entity: under its fingerprint, or else under its old key. *)
Definition view (key legacyKey : string) (m : gmap string Row) : option Annotation :=
  match note (m !! key) with Some a => Some a | None => if has_legacy key legacyKey then note (m !! legacyKey) else None end.

Section sidecar.
Context {D : Type} `{!Sidecar D, !SidecarLaws D}.
Implicit Types d : D.

Lemma rawGet_sound id d a : rawGet id d = inr a → rows d !! id = Good <$> a.
Proof.
  unfold rawGet. destruct (sc_get id d) as [msg|r] eqn:E; [done|]. apply sc_get_sound in E as <-.
  destruct r as [[b|msg]|]; simpl; [by intros [= <-]|done|by intros [= <-]].
Qed.
Lemma Get_sound id d a : Get id d = inr a → a = note (rows d !! id).
Proof.
  unfold Get. destruct (rawGet id d) as [err|r] eqn:E; [done|]. rewrite (rawGet_sound _ _ _ E).
  destruct r as [b|]; simpl; [case_bool_decide|]; by intros [= <-].
Qed.
Lemma Apply_row_spec id a d d' err : Apply_row id a d = (d', err) →
  match err with
  | None => ∃ row, marshal a = Some row ∧ rows d' = <[id := Good row]> (rows d)
  | Some _ => rows d' = rows d
  end.
Proof.
  unfold Apply_row. destruct (marshal a) as [row|]; [|by intros [= <- <-]].
  destruct (sc_set id (Good row) d) as [d1 [msg|]] eqn:E; intros [= <- <-]; simpl; [by eapply sc_set_failed|].
  exists row. split; [done|by apply sc_set_ok].
Qed.

(** The stages of a move from the old key to the fingerprint. *)
Inductive moved (key legacyKey : string) (a : Annotation) (m : gmap string Row) : gmap string Row → Prop :=
| Untouched : moved key legacyKey a m m
| Duplicated : moved key legacyKey a m (<[key := Good a]> m)
| Moved : moved key legacyKey a m (delete legacyKey (<[key := Good a]> m)).

Lemma migrate_spec key legacyKey a d d' err : legible a → migrate key legacyKey a d = (d', err) →
  moved key legacyKey a (rows d) (rows d') ∧ (err = None → rows d' = delete legacyKey (<[key := Good a]> (rows d))).
Proof.
  intros Ha. unfold migrate. destruct (marshal a) as [row|] eqn:Hm; [|by intros [= <- <-]; split; [constructor|]].
  rewrite (marshal_same _ _ Ha Hm). destruct (sc_set key (Good a) d) as [d1 [msg|]] eqn:E.
  { intros [= <- <-]. rewrite (sc_set_failed _ _ _ _ _ E). by split; [constructor|]. }
  apply sc_set_ok in E. destruct (sc_delete legacyKey d1) as [d2 [msg|]] eqn:E2; intros [= <- <-].
  - rewrite (sc_delete_failed _ _ _ _ E2) E. by split; [constructor|].
  - rewrite (sc_delete_ok _ _ _ E2) E. by split; [constructor|].
Qed.

Lemma decoded_note m k a : decoded m → note (m !! k) = Some a → legible a ∧ an_Values a ≠ ∅ ∧ m !! k = Some (Good a).
Proof.
  intros Hm. unfold note. destruct (m !! k) as [[b|]|] eqn:Hk; [|done..]. case_bool_decide; [done|]. intros [= <-]. eauto.
Qed.

(** Whatever a move leaves, the entity's note is the one it was. *)
Lemma moved_view key legacyKey a m m' : decoded m → note (m !! key) = None → has_legacy key legacyKey = true →
  note (m !! legacyKey) = Some a → moved key legacyKey a m m' → view key legacyKey m' = Some a.
Proof.
  intros Hd Hk Hl Ha Hm. destruct (decoded_note _ _ _ Hd Ha) as (Hleg & Hne & Hrow). unfold view.
  assert (legacyKey ≠ key) as Hneq by (unfold has_legacy in Hl; repeat case_bool_decide; naive_solver).
  destruct Hm; [by rewrite Hk Hl|by rewrite lookup_insert_eq /= bool_decide_eq_false_2|].
  by rewrite lookup_delete_ne // lookup_insert_eq /= bool_decide_eq_false_2.
Qed.

Lemma GetAt_cases key legacyKey d d' res : decoded (rows d) → GetAt key legacyKey d = (d', res) →
  (d' = d ∧ (∀ a, res = inr a → a = view key legacyKey (rows d) ∧ (a = None ∨ note (rows d !! key) = a))) ∨
  ∃ a, note (rows d !! key) = None ∧ has_legacy key legacyKey = true ∧ note (rows d !! legacyKey) = Some a ∧ legible a ∧
    d' = (migrate key legacyKey a d).1 ∧ res = inr (Some a).
Proof.
  intros Hd. unfold GetAt. destruct (Get key d) as [err|r] eqn:E; [by intros [= <- <-]; left|]. apply Get_sound in E.
  destruct r as [a|]; [intros [= <- <-]; left; split; [done|]; intros b [= <-]; unfold view; rewrite -E; auto|].
  unfold view. rewrite -E. assert (has_legacy key legacyKey = negb (bool_decide (legacyKey = ""%string) || bool_decide (legacyKey = key))) as -> by (unfold has_legacy; by rewrite negb_orb).
  destruct (_ || _); [intros [= <- <-]; left; split; [done|]; intros b [= <-]; auto|]. simpl.
  destruct (Get legacyKey d) as [err|r] eqn:E2; [by intros [= <- <-]; left|]. apply Get_sound in E2. destruct r as [a|].
  - intros [= <- <-]. right. exists a. split_and!; try done. by apply (decoded_note (rows d) legacyKey).
  - intros [= <- <-]. left. split; [done|]. intros b [= <-]. auto.
Qed.

Lemma moved_decoded key legacyKey a m m' : decoded m → legible a → moved key legacyKey a m m' → decoded m'.
Proof.
  intros Hd Ha [| |] k b; [apply Hd| |rewrite lookup_delete_Some; intros [_ Hk]; revert Hk]; rewrite lookup_insert_Some; naive_solver.
Qed.
Lemma moved_elsewhere key legacyKey a m m' k : moved key legacyKey a m m' → k ≠ key → k ≠ legacyKey → m' !! k = m !! k.
Proof. intros [| |] H1 H2; [done|by rewrite lookup_insert_ne|by rewrite lookup_delete_ne // lookup_insert_ne]. Qed.

Lemma GetAt_view key legacyKey d d' res : decoded (rows d) → GetAt key legacyKey d = (d', res) →
  (∀ a, res = inr a → a = view key legacyKey (rows d)) ∧
  (rows d' = rows d ∨ ∃ a, view key legacyKey (rows d) = Some a ∧ legible a ∧ moved key legacyKey a (rows d) (rows d')) ∧
  view key legacyKey (rows d') = view key legacyKey (rows d).
Proof.
  intros Hd [[-> Hres]|(a & Hk & Hl & Hn & Hleg & -> & ->)]%(GetAt_cases _ _ _ _ _ Hd); [split_and!; [naive_solver|by left|done]|].
  destruct (migrate key legacyKey a d) as [d1 err] eqn:E. destruct (migrate_spec _ _ _ _ _ _ Hleg E) as [Hm _]. simpl.
  assert (view key legacyKey (rows d) = Some a) as Hv by (unfold view; by rewrite Hk Hl).
  split_and!; [by intros b [= <-]|right; eauto|]. by rewrite Hv (moved_view _ _ _ _ _ Hd Hk Hl Hn Hm).
Qed.

(** Reading an entity's annotation also moves it from the entity's old key to its
    fingerprint. The read answers the note of the two keys, and whichever of the move's
    writes fail, the rows are as they were, or the note is under both keys, or under the
    fingerprint alone: the next read answers the same note, and no other row has changed. *)
Theorem move_keeps_the_note key legacyKey d d' res : decoded (rows d) → GetAt key legacyKey d = (d', res) →
  (∀ a, res = inr a → a = view key legacyKey (rows d)) ∧
  (rows d' = rows d ∨ ∃ a, view key legacyKey (rows d) = Some a ∧ moved key legacyKey a (rows d) (rows d')) ∧
  view key legacyKey (rows d') = view key legacyKey (rows d) ∧ decoded (rows d') ∧
  (∀ k, k ≠ key → k ≠ legacyKey → rows d' !! k = rows d !! k).
Proof.
  intros Hd H. destruct (GetAt_view _ _ _ _ _ Hd H) as (Hres & Hrows & Hview). split_and!; [done| |done| |].
  - destruct Hrows as [E|(a & Hv & _ & Hm)]; [by left|right; eauto].
  - destruct Hrows as [E|(a & Hv & Ha & Hm)]; [by rewrite E|by eapply moved_decoded].
  - intros k H1 H2. destruct Hrows as [E|(a & Hv & Ha & Hm)]; [by rewrite E|by eapply moved_elsewhere].
Qed.

(** The values a write leaves, from those that were there. *)
Definition merged (values : gmap string string) (cur : option Annotation) (new : gmap string string) : Prop :=
  ∀ k, new !! k = match values !! k with
    | Some v => if bool_decide (v = ""%string) then None else Some v
    | None => match cur with Some a => an_Values a !! k | None => None end
    end.

Lemma Set_values_spec id values author now d d' res : Set_values id values author now d = (d', res) →
  match res with
  | inl _ => rows d' = rows d
  | inr a => an_Author a = author ∧ an_UpdatedAt a = now ∧ merged values (note (rows d !! id)) (an_Values a) ∧
      rows d' = <[id := Good (read_back a)]> (rows d)
  end.
Proof.
  unfold Set_values. destruct (Get id d) as [err|cur] eqn:E; [by intros [= <- <-]|]. apply Get_sound in E as <-.
  destruct (Apply_row id _ d) as [d1 err] eqn:E2. apply Apply_row_spec in E2. destruct err as [err|]; intros [= <- <-]; [done|].
  destruct E2 as (row & Hm & ->). split_and!; [done..| |].
  - intros k. cbn [an_Values]. rewrite merge_values_lookup. destruct cur; [done|]. by rewrite lookup_empty.
  - unfold marshal in Hm. case_match; [|done]. by injection Hm as <-.
Qed.

(** The three branches of a write on a store whose row under the fingerprint is the note. *)
Lemma set_on_note key legacyKey values author now (m : gmap string Row) d d' res :
  note (rows d !! key) = view key legacyKey m → view key legacyKey (rows d) = view key legacyKey m →
  (∀ k, k ≠ key → k ≠ legacyKey → rows d !! k = m !! k) → Set_values key values author now d = (d', res) →
  match res with
  | inl _ => view key legacyKey (rows d') = view key legacyKey m
  | inr a => an_Author a = author ∧ an_UpdatedAt a = now ∧ merged values (view key legacyKey m) (an_Values a) ∧
      rows d' !! key = Some (Good (read_back a)) ∧
      note (rows d' !! key) = (if bool_decide (an_Values a = ∅) then None else Some (read_back a))
  end ∧ (∀ k, k ≠ key → k ≠ legacyKey → rows d' !! k = m !! k).
Proof.
  intros Hn Hv Ho H%Set_values_spec. destruct res as [err|a]; [by rewrite H|]. destruct H as (H1 & H2 & H3 & ->). rewrite Hn in H3.
  rewrite lookup_insert_eq. split; [split_and!; try done|intros k Hk Hl; rewrite lookup_insert_ne //; by apply Ho].
  unfold note. by rewrite (bool_decide_ext _ _ (read_back_empty a)).
Qed.
Lemma GetAt_moved key legacyKey d d' a : decoded (rows d) →
  (∀ old, note (rows d !! key) = None → view key legacyKey (rows d) = Some old → (migrate key legacyKey old d).2 = None) →
  GetAt key legacyKey d = (d', inr a) → note (rows d' !! key) = view key legacyKey (rows d).
Proof.
  intros Hd Hmig [[-> Hres]|(b & Hk & Hl & Hn & Hleg & -> & _)]%(GetAt_cases _ _ _ _ _ Hd).
  - destruct (Hres a eq_refl) as [-> [Hv|Hv]]; [|done]. rewrite Hv. unfold view in Hv. by destruct (note (rows d !! key)).
  - assert (view key legacyKey (rows d) = Some b) as Hv by (unfold view; by rewrite Hk Hl).
    rewrite Hv. specialize (Hmig b Hk Hv). destruct (migrate key legacyKey b d) as [d1 err] eqn:E. simpl in *.
    destruct (migrate_spec _ _ _ _ _ _ Hleg E) as [_ ->]; [|done]. destruct (decoded_note _ _ _ Hd Hn) as (_ & Hne & _).
    rewrite lookup_delete_ne; [|unfold has_legacy in Hl; repeat case_bool_decide; naive_solver]. by rewrite lookup_insert_eq /= bool_decide_eq_false_2.
Qed.

(** Setting values merges them onto the entity's note, whichever of its two keys held
    it, when the move to the fingerprint did not fail: a value replaces, an empty one
    removes, the rest stay. The row under the fingerprint is then what the merge reads
    back as, a tombstone with the time of the removal when nothing is left, and it reads
    as the merged note or as none. When the write fails the entity still has the note it
    had. *)
Lemma SetAt_merges key legacyKey values author now d d' res : decoded (rows d) →
  (∀ old, note (rows d !! key) = None → view key legacyKey (rows d) = Some old → (migrate key legacyKey old d).2 = None) →
  SetAt key legacyKey values author now d = (d', res) →
  match res with
  | inl _ => view key legacyKey (rows d') = view key legacyKey (rows d)
  | inr a => an_Author a = author ∧ an_UpdatedAt a = now ∧ merged values (view key legacyKey (rows d)) (an_Values a) ∧
      rows d' !! key = Some (Good (read_back a)) ∧
      note (rows d' !! key) = (if bool_decide (an_Values a = ∅) then None else Some (read_back a))
  end ∧ (∀ k, k ≠ key → k ≠ legacyKey → rows d' !! k = rows d !! k).
Proof.
  intros Hd Hmig. unfold SetAt. fold (has_legacy key legacyKey). destruct (has_legacy key legacyKey) eqn:Hl; intros H.
  - destruct (GetAt key legacyKey d) as [d1 r] eqn:E. destruct (GetAt_view _ _ _ _ _ Hd E) as (_ & Hrows & Hv).
    assert (∀ k, k ≠ key → k ≠ legacyKey → rows d1 !! k = rows d !! k) as Ho.
    { intros k H1 H2. destruct Hrows as [E1|(a & _ & _ & Hm)]; [by rewrite E1|by eapply moved_elsewhere]. }
    destruct r as [err|a]; [by simplify_eq|]. eapply set_on_note; [|exact Hv|exact Ho|exact H]. by eapply GetAt_moved.
  - eapply set_on_note; [|done|done|exact H]. unfold view. rewrite Hl. by destruct (note _).
Qed.

Lemma SetAt_decoded key legacyKey values author now d d' res : decoded (rows d) → SetAt key legacyKey values author now d = (d', res) → decoded (rows d').
Proof.
  intros Hd. assert (∀ d1 res1, decoded (rows d1) → Set_values key values author now d1 = (d', res1) → decoded (rows d')) as Hset.
  { intros d1 res1 Hd1 H%Set_values_spec. destruct res1 as [err|a]; [by rewrite H|]. destruct H as (_ & _ & _ & ->).
    intros k b. rewrite lookup_insert_Some. intros [[_ [= <-]]|[_ Hk]]; [apply read_back_legible|by apply (Hd1 k)]. }
  unfold SetAt. case_match; [|eauto]. destruct (GetAt key legacyKey d) as [d1 r] eqn:E. destruct (GetAt_view _ _ _ _ _ Hd E) as (_ & Hrows & _).
  assert (decoded (rows d1)) as Hd1 by (destruct Hrows as [->|(a & _ & Ha & Hm)]; [done|by eapply moved_decoded]).
  destruct r as [err|a]; [by intros [= <- <-]|eauto].
Qed.
End sidecar.
