(* ===== verification/AnnotationsSync.v ===== *)
(** * The annotations of several nodes

    What a pass of SyncOnce does to each key, the newest of the local and the shared row,
    and what passes over the nodes of a cluster come to: rows only become newer, and two
    rounds leave every node and the store with the newest row of each key. *)
From S2P Require Import Prelude GoStd Values Entities Events Keys Tenant Sink Annotations AnnotationsSpec.
Open Scope Z_scope.

(** ** Names *)

Lemma nameFor_inj prefix k k' : nameFor prefix k = nameFor prefix k' → k = k'.
Proof.
  unfold nameFor. intros H%string_app_inj_l. injection H as H. apply (f_equal (trimSuffix ".ann")) in H. rewrite !trimSuffix_app in H. by apply hex_encode_inj.
Qed.
Lemma nameFor_prefix prefix k : hasPrefix prefix (nameFor prefix k) = true.
Proof. apply hasPrefix_spec. by eexists. Qed.
Lemma keyFromName_nameFor prefix k : keyFromName prefix (nameFor prefix k) = Some k.
Proof.
  unfold keyFromName. assert (trimPrefix (prefix +++ "/") (nameFor prefix k) = hex_encode k +++ ".ann") as ->.
  { unfold nameFor. rewrite string_app_assoc. apply trimPrefix_app. }
  rewrite trimSuffix_app hex_decode_encode. rewrite bool_decide_eq_false_2.
  - rewrite (str_forall_no_byte (λ d, negb (Ascii.eqb d "/")) "/" (hex_encode k)) //. by apply (hex_encode_lacks "/").
  - intros H%(f_equal String.length). unfold nameFor in H. rewrite !string_length_app /= in H. lia.
Qed.

(** The names a list answers that mean a key are those a push would give it: no other
    writer uses the prefix with names of this form. *)
Definition canonical (prefix : string) (m : gmap string Row) : Prop :=
  ∀ name key, is_Some (m !! name) → hasPrefix prefix name = true → keyFromName prefix name = Some key → name = nameFor prefix key.

(** The prefix of a tenant, and that names the nodes push for all tenants are canonical for
    each: a tenant whose name starts another's does not take its rows. *)
Definition tenant_prefix (tenant : string) : string := "annotations/" +++ tenant.

Lemma contains_byte_lacks c s : contains_byte c s = false → lacks c s.
Proof.
  unfold contains_byte, lacks. induction s as [|d s IH]; [done|]. cbn [index_byte str_forall].
  rewrite (Ascii.eqb_sym d c). destruct (Ascii.eqb c d); [done|]. simpl. destruct (index_byte c s); [done|auto].
Qed.
Lemma tenants_canonical (m : gmap string Row) tenant : lacks "/" tenant →
  (∀ name, is_Some (m !! name) → hasPrefix "annotations/" name = true → ∃ t k, lacks "/" t ∧ name = nameFor (tenant_prefix t) k) →
  canonical (tenant_prefix tenant) m.
Proof.
  intros Ht Hall name key Hsome [rest ->]%hasPrefix_spec Hk.
  destruct (Hall _ Hsome) as (t & k & Hlt & E). { apply hasPrefix_spec. unfold tenant_prefix. rewrite -string_app_assoc. by eexists. }
  rewrite E in Hk |- *. destruct (decide (t = tenant)) as [->|Hne]; [rewrite keyFromName_nameFor in Hk; by injection Hk as ->|]. exfalso.
  unfold keyFromName in Hk. assert (trimPrefix (tenant_prefix tenant +++ "/") (nameFor (tenant_prefix t) k) = nameFor (tenant_prefix t) k) as Hp.
  { unfold trimPrefix. destruct (hasPrefix _ _) eqn:Hp; [|done]. apply hasPrefix_spec in Hp as [u Hu]. unfold nameFor, tenant_prefix in Hu. rewrite -!string_app_assoc in Hu. apply string_app_inj_l in Hu.
    by apply (str_sep_inj (λ d, negb (Ascii.eqb d "/")) "/") in Hu as [? _]. }
  rewrite Hp in Hk. assert (nameFor (tenant_prefix t) k = ("annotations/" +++ t +++ "/" +++ hex_encode k) +++ ".ann") as En by (unfold nameFor, tenant_prefix; by rewrite -!string_app_assoc).
  rewrite En trimSuffix_app in Hk. destruct (contains_byte "/" ("annotations/" +++ t +++ "/" +++ hex_encode k)) eqn:Hc; [by rewrite orb_true_r in Hk|].
  by apply contains_byte_lacks in Hc.
Qed.

(** ** The newer of two rows *)

Definition newest (l r : option Row) : option Row :=
  match l, r with
  | Some (Good a), Some (Good b) => if after (an_UpdatedAt b) (an_UpdatedAt a) then r else l
  | None, _ => r
  | _, _ => l
  end.
Definition older (l r : option Row) : Prop :=
  match l, r with
  | None, _ => True
  | Some (Good a), Some (Good b) => an_UpdatedAt a <= an_UpdatedAt b
  | _, _ => False
  end.
Definition decodes (r : option Row) : Prop := match r with Some (Bad _) => False | _ => True end.

#[export] Instance older_trans : Transitive older.
Proof. intros [[a|]|] [[b|]|] [[c|]|]; simpl; try done; lia. Qed.
Lemma older_refl r : decodes r → older r r.
Proof. destruct r as [[a|]|]; simpl; [lia|done..]. Qed.
Lemma newest_ub_l l r : decodes l → decodes r → older l (newest l r).
Proof. destruct l as [[a|]|], r as [[b|]|]; simpl; try done; intros _ _; try lia. unfold after. destruct (Z.ltb_spec (an_UpdatedAt a) (an_UpdatedAt b)); simpl; lia. Qed.
Lemma newest_ub_r l r : decodes l → decodes r → older r (newest l r).
Proof. destruct l as [[a|]|], r as [[b|]|]; simpl; try done; intros _ _; try lia. unfold after. destruct (Z.ltb_spec (an_UpdatedAt a) (an_UpdatedAt b)); simpl; lia. Qed.
Lemma newest_one l r : newest l r = l ∨ newest l r = r.
Proof. destruct l as [[a|]|], r as [[b|]|]; simpl; auto. case_match; auto. Qed.
Lemma newest_decodes l r : decodes l → decodes r → decodes (newest l r).
Proof. destruct (newest_one l r) as [-> | ->]; auto. Qed.
Lemma newest_old l r : older r l → newest l r = l.
Proof. destruct l as [[a|]|], r as [[b|]|]; simpl; try done. unfold after. destruct (Z.ltb_spec (an_UpdatedAt a) (an_UpdatedAt b)); [lia|done]. Qed.

Lemma newest_catch_up l r : older l r → (∀ a b, l = Some (Good a) → r = Some (Good b) → an_UpdatedAt a = an_UpdatedAt b → a = b) → newest l r = r.
Proof.
  destruct l as [[a|]|], r as [[b|]|]; simpl; try done. intros Hle Heq. unfold after. destruct (Z.ltb_spec (an_UpdatedAt a) (an_UpdatedAt b)); [done|].
  rewrite (Heq a b eq_refl eq_refl); [done|lia].
Qed.
Lemma newest_strict a r : decodes r → (∀ b, r = Some (Good b) → an_UpdatedAt b < an_UpdatedAt a) → newest r (Some (Good a)) = Some (Good a).
Proof.
  destruct r as [[b|]|]; simpl; [|done..]. intros _ Hlt. unfold after. by destruct (Z.ltb_spec (an_UpdatedAt b) (an_UpdatedAt a)); [|specialize (Hlt b eq_refl); lia].
Qed.

Section sync.
Context {D : Type} `{!Sidecar D, !SidecarLaws D} {R : Type} `{!Sink Row R, !SinkLaws Row R}.
Implicit Types (d : D) (r : R).

Definition remote (prefix key : string) r : option Row := objects r !! nameFor prefix key.

(** ** Pulling *)

(** One name that means a key: the pull ends there with the rows as they were, or goes on
    with the key's row the newer of the two. *)
Lemma pull_cons prefix r key names seen n d d' seen' n' err : decoded (objects r) →
  pull prefix r (nameFor prefix key :: names) seen n d = (d', seen', n', err) →
  (is_Some err ∧ rows d' = rows d) ∨
  ∃ ra n1 d1, remote prefix key r = Some (Good ra) ∧ decodes (rows d !! key) ∧
    (∀ k, rows d1 !! k = if bool_decide (k = key) then newest (rows d !! key) (remote prefix key r) else rows d !! k) ∧
    pull prefix r names (<[key := ra]> seen) n1 d1 = (d', seen', n', err).
Proof.
  intros Hdec. cbn [pull]. rewrite keyFromName_nameFor. unfold remote.
  destruct (sk_get (nameFor prefix key) r) as [msg|row] eqn:Eg; [intros [= <- <- <- <-]; left; by eexists|]. apply sk_get_sound in Eg. rewrite Eg.
  destruct row as [ra|msg]; cbn [unmarshal]; [|intros [= <- <- <- <-]; left; by eexists].
  destruct (rawGet key d) as [e|la] eqn:El; [intros [= <- <- <- <-]; left; by eexists|]. apply rawGet_sound in El. rewrite El.
  destruct (match la with Some la0 => after (an_UpdatedAt ra) (an_UpdatedAt la0) | None => true end) eqn:Hw.
  - destruct (Apply_row key ra d) as [d1 [e|]] eqn:Ea; apply Apply_row_spec in Ea; [intros [= <- <- <- <-]; left; split; [by eexists|done]|].
    destruct Ea as (row & Hrow & Hd1). apply marshal_same in Hrow as ->; [|by eapply Hdec]. intros Hp. right. exists ra, (S n), d1. split_and!; [done|by destruct la| |done].
    intros k. rewrite Hd1. case_bool_decide as Hk; [subst k; rewrite lookup_insert_eq; destruct la; cbn; by rewrite ?Hw|by rewrite lookup_insert_ne].
  - intros Hp. right. exists ra, n, d. split_and!; [done|by destruct la| |done].
    intros k. case_bool_decide as Hk; [subst k; rewrite El; destruct la; cbn; by rewrite ?Hw|done].
Qed.

Definition means_keys (prefix : string) (names : list string) : Prop :=
  ∀ name key, name ∈ names → keyFromName prefix name = Some key → name = nameFor prefix key.
Lemma means_keys_cons prefix name names : means_keys prefix (name :: names) →
  means_keys prefix names ∧ ((keyFromName prefix name = None ∧ ∀ key, nameFor prefix key ≠ name) ∨ ∃ key, name = nameFor prefix key).
Proof.
  intros H. split; [intros nm key Hin; apply H; by right|]. destruct (keyFromName prefix name) as [key|] eqn:E.
  - right. exists key. apply H; [by left|done].
  - left. split; [done|]. intros key <-. by rewrite keyFromName_nameFor in E.
Qed.

(** The names handled before the pull ended are all of them when it ended well; the rows
    of their keys are the newer ones, the others are untouched. *)
Lemma pull_rows prefix r names : ∀ seen n d d' seen' n' err, decoded (objects r) → NoDup names → means_keys prefix names →
  pull prefix r names seen n d = (d', seen', n', err) →
  ∃ handled rest, names = (handled ++ rest)%list ∧ (err = None → rest = []) ∧
    (∀ key, nameFor prefix key ∈ handled → decodes (rows d !! key) ∧ decodes (remote prefix key r) ∧ is_Some (remote prefix key r)) ∧
    ∀ key, rows d' !! key = if bool_decide (nameFor prefix key ∈ handled) then newest (rows d !! key) (remote prefix key r) else rows d !! key.
Proof.
  induction names as [|name names IH]; intros seen n d d' seen' n' err Hdec Hnd Hcan.
  { intros [= <- <- <- <-]. exists [], []. split_and!; [done..|by intros key ?%not_elem_of_nil|done]. }
  apply NoDup_cons in Hnd as [Hnin Hnd]. destruct (means_keys_cons _ _ _ Hcan) as [Hcan' [[Hname Hno]|[key0 ->]]].
  { cbn [pull]. rewrite Hname. intros H. destruct (IH _ _ _ _ _ _ _ Hdec Hnd Hcan' H) as (handled & rest & -> & Hrest & Hin & Hkeys).
    exists (name :: handled), rest. split_and!; [done..| |].
    - intros key [?|?]%elem_of_cons; [by destruct (Hno key)|auto].
    - intros key. rewrite Hkeys. erewrite bool_decide_ext; [done|]. rewrite elem_of_cons. naive_solver. }
  intros H. apply pull_cons in H as [[[e ->] Hrows]|(ra & n1 & d1 & Hra & Hd & Hd1 & H)]; [|..|done].
  { exists [], (nameFor prefix key0 :: names). split_and!; [done..|by intros key ?%not_elem_of_nil|]. intros key. by rewrite Hrows. }
  destruct (IH _ _ _ _ _ _ _ Hdec Hnd Hcan' H) as (handled & rest & -> & Hrest & Hin & Hkeys).
  assert (nameFor prefix key0 ∉ handled) as Hnh by (intros ?; apply Hnin, elem_of_app; by left).
  exists (nameFor prefix key0 :: handled), rest. split_and!; [done..| |].
  - intros key [->%nameFor_inj|Hk]%elem_of_cons; [by rewrite Hra|]. destruct (Hin key Hk) as (H1 & H2 & H3). rewrite Hd1 in H1.
    rewrite bool_decide_eq_false_2 in H1; [done|]. by intros ->.
  - intros key. rewrite Hkeys !Hd1. destruct (decide (key = key0)) as [->|Hne].
    + rewrite (bool_decide_eq_false_2 (_ ∈ handled)) // bool_decide_eq_true_2 // bool_decide_eq_true_2 //. by left.
    + rewrite (bool_decide_eq_false_2 (key = key0)) //. erewrite bool_decide_ext; [done|]. rewrite elem_of_cons. split; [by right|intros [?%nameFor_inj|?]; done].
Qed.
Lemma pull_seen prefix r names : ∀ seen n d d' seen' n', decoded (objects r) → NoDup names → means_keys prefix names →
  pull prefix r names seen n d = (d', seen', n', None) →
  ∀ key, Good <$> seen' !! key = if bool_decide (nameFor prefix key ∈ names) then remote prefix key r else Good <$> seen !! key.
Proof.
  induction names as [|name names IH]; intros seen n d d' seen' n' Hdec Hnd Hcan; [by intros [= <- <- <-]|].
  apply NoDup_cons in Hnd as [Hnin Hnd]. destruct (means_keys_cons _ _ _ Hcan) as [Hcan' [[Hname Hno]|[key0 ->]]].
  { cbn [pull]. rewrite Hname. intros H key. rewrite (IH _ _ _ _ _ _ Hdec Hnd Hcan' H). erewrite bool_decide_ext; [done|]. rewrite elem_of_cons. naive_solver. }
  intros H key. apply pull_cons in H as [[[e ?] _]|(ra & n1 & d1 & Hra & _ & _ & H)]; [done| |done].
  rewrite (IH _ _ _ _ _ _ Hdec Hnd Hcan' H). destruct (decide (key = key0)) as [->|Hne].
  - rewrite bool_decide_eq_false_2 // bool_decide_eq_true_2; [by rewrite lookup_insert_eq|by left].
  - rewrite lookup_insert_ne //. erewrite bool_decide_ext; [done|]. rewrite elem_of_cons. split; [by right|intros [?%nameFor_inj|?]; done].
Qed.

(** ** Pushing *)

Lemma decode_rows_spec l : ∀ l' err, decode_rows l = (l', err) →
  ((λ x, (x.1, Good x.2)) <$> l') `prefix_of` l ∧ (err = None → l = ((λ x, (x.1, Good x.2)) <$> l')).
Proof.
  induction l as [|[k [a|msg]] l IH]; intros l' err; cbn [decode_rows unmarshal]; [by intros [= <- <-]| |intros [= <- <-]; split; [apply prefix_nil|done]].
  destruct (decode_rows l) as [l1 e] eqn:E. intros [= <- <-]. destruct (IH _ _ eq_refl) as [H1 H2]. split; [by apply prefix_cons|]. intros He. cbn. by rewrite -(H2 He).
Qed.
Lemma Scan_rows_spec d l err : Scan_rows d = (l, err) →
  (∀ k a, (k, a) ∈ l → rows d !! k = Some (Good a)) ∧ NoDup l.*1 ∧
  (err = None → ∀ k, match rows d !! k with Some (Good a) => (k, a) ∈ l | Some (Bad _) => False | None => True end).
Proof.
  unfold Scan_rows. destruct (sc_iter d) as [msg|[l0 ie]] eqn:E; [intros [= <- <-]; split_and!; [by intros k a ?%not_elem_of_nil|constructor|done]|].
  pose proof (sc_iter_part _ _ _ E) as Hp. destruct (decode_rows l0) as [l1 de] eqn:Ed. intros [= <- Herr]. destruct (decode_rows_spec _ _ _ Ed) as [Hp1 Hall].
  pose proof (transitivity Hp1 Hp) as [t Ht].
  assert (∀ k row, (k, row) ∈ sort_by fst (map_to_list (rows d)) ↔ rows d !! k = Some row) as Hsort by (intros k row; by rewrite sort_by_elem elem_of_map_to_list).
  split_and!.
  - intros k a Hin. apply Hsort. rewrite Ht. apply elem_of_app. left. apply list_elem_of_fmap. by exists (k, a).
  - assert (NoDup (sort_by fst (map_to_list (rows d))).*1) as Hnd by (rewrite sort_by_perm; apply NoDup_fst_map_to_list).
    rewrite Ht fmap_app in Hnd. apply NoDup_app in Hnd as [Hnd _]. by rewrite -list_fmap_compose in Hnd.
  - intros -> k. destruct de as [e|]; [done|]. destruct ie as [msg|]; [done|]. apply sc_iter_sound in E. rewrite (Hall eq_refl) in E.
    destruct (rows d !! k) as [row|] eqn:Hk; [|done]. apply Hsort in Hk. rewrite -E in Hk. by apply list_elem_of_fmap in Hk as ([k' a] & [= -> ->] & Hin).
Qed.

Definition wins (seen : gmap string Annotation) (key : string) (la : Annotation) : bool :=
  match seen !! key with Some ra => after (an_UpdatedAt la) (an_UpdatedAt ra) | None => true end.
Lemma push_spec prefix seen l : ∀ n r r' n' err, NoDup l.*1 → (∀ k a, (k, a) ∈ l → legible a) → push prefix seen l n r = (r', n', err) →
  (∀ name, objects r' !! name = objects r !! name ∨
    ∃ key la, (key, la) ∈ l ∧ wins seen key la = true ∧ name = nameFor prefix key ∧ objects r' !! name = Some (Good la)) ∧
  (err = None → ∀ key la, (key, la) ∈ l → wins seen key la = true → remote prefix key r' = Some (Good la)).
Proof.
  unfold remote. induction l as [|[key la] l IH]; intros n r r' n' err Hnd Hleg; cbn [push].
  { intros [= <- <- <-]. split; [by left|]. by intros _ key la ?%not_elem_of_nil. }
  rewrite fmap_cons NoDup_cons in Hnd. destruct Hnd as [Hnin Hnd]. assert (∀ k a, (k, a) ∈ l → legible a) as Hleg' by (intros k a Hin; eapply Hleg; by right).
  assert (wins seen key la = negb match seen !! key with Some ra => negb (after (an_UpdatedAt la) (an_UpdatedAt ra)) | None => false end) as Hw.
  { unfold wins. destruct (seen !! key); [by rewrite negb_involutive|done]. }
  destruct (match seen !! key with Some ra => negb (after (an_UpdatedAt la) (an_UpdatedAt ra)) | None => false end).
  { intros H. destruct (IH _ _ _ _ _ Hnd Hleg' H) as [H1 H2]. split.
    - intros name. destruct (H1 name) as [|(k & a & Hin & Hrest)]; [by left|]. right. exists k, a. split; [by right|done].
    - intros He k a [[= -> ->]|Hin]%elem_of_cons; [by rewrite Hw|eauto]. }
  destruct (marshal la) as [row|] eqn:Hm; [|intros [= <- <- <-]; split; [by left|done]].
  apply marshal_same in Hm as ->; [|eapply Hleg; by left]. destruct (sk_put (nameFor prefix key) (Good la) r) as [r1 [msg|]] eqn:Ep.
  { intros [= <- <- <-]. split; [|done]. intros name. destruct (sk_put_failed _ _ _ _ _ Ep) as [-> | ->]; [by left|].
    destruct (decide (name = nameFor prefix key)) as [->|Hne]; [|left; by rewrite lookup_insert_ne].
    right. exists key, la. split_and!; [by left|done..|apply lookup_insert_eq]. }
  apply sk_put_ok in Ep. intros H. destruct (IH _ _ _ _ _ Hnd Hleg' H) as [H1 H2].
  assert (objects r' !! nameFor prefix key = Some (Good la)) as Hkey.
  { destruct (H1 (nameFor prefix key)) as [->|(k & a & Hin & _ & <-%nameFor_inj & _)]; [by rewrite Ep lookup_insert_eq|].
    destruct Hnin. apply list_elem_of_fmap. by exists (key, a). }
  split.
  - intros name. destruct (H1 name) as [Hn|(k & a & Hin & Hrest)]; [|right; exists k, a; split; [by right|done]].
    destruct (decide (name = nameFor prefix key)) as [->|Hne]; [|left; by rewrite Hn Ep lookup_insert_ne].
    right. exists key, la. split_and!; [by left|done..].
  - intros He k a [[= -> ->]|Hin]%elem_of_cons; [done|eauto].
Qed.

(** ** A pass *)

Lemma listed_means_keys prefix r names : canonical prefix (objects r) → sk_list prefix r = inr names →
  NoDup names ∧ means_keys prefix names ∧ ∀ key, nameFor prefix key ∈ names ↔ is_Some (remote prefix key r).
Proof.
  intros Hcan Hl. apply sk_list_sound in Hl as ->. split_and!.
  - apply NoDup_filter, sorted_keys_NoDup.
  - intros name key [Hp Hin%elem_of_sorted_keys]%list_elem_of_filter. by apply Hcan.
  - intros key. rewrite list_elem_of_filter elem_of_sorted_keys. pose proof (nameFor_prefix prefix key). unfold remote. naive_solver.
Qed.

(** What a key may hold after a pass, and does when the pass reports no error. *)
Definition settled (old new other : option Row) : Prop := decodes old ∧ decodes other ∧ new = newest old other.
Definition kept (old new other : option Row) : Prop := new = old ∨ settled old new other.

(** What a push finds under a key, against what it writes. *)
Lemma push_settles (own : option Row) (shared : option Annotation) la : newest own (Good <$> shared) = Some (Good la) →
  decodes own ∧ newest (Good <$> shared) own = if match shared with Some ra => after (an_UpdatedAt la) (an_UpdatedAt ra) | None => true end then Some (Good la) else Good <$> shared.
Proof.
  destruct own as [[a|]|], shared as [b|]; simpl; unfold after; try done; try (intros [= <-]; by rewrite ?Z.ltb_irrefl).
  destruct (Z.ltb_spec (an_UpdatedAt a) (an_UpdatedAt b)); intros [= <-]; split; try done.
  - rewrite Z.ltb_irrefl. by destruct (Z.ltb_spec (an_UpdatedAt b) (an_UpdatedAt a)); [lia|].
Qed.

(** After a whole pull. *)
Lemma pulled_keys prefix r names d d' seen n : decoded (rows d) → decoded (objects r) → canonical prefix (objects r) → sk_list prefix r = inr names →
  pull prefix r names ∅ 0 d = (d', seen, n, None) →
  decoded (rows d') ∧ ∀ key, rows d' !! key = newest (rows d !! key) (remote prefix key r) ∧ Good <$> seen !! key = remote prefix key r.
Proof.
  intros Hd Hr Hcan El Ep. destruct (listed_means_keys _ _ _ Hcan El) as (Hnd & Hmk & Hin).
  destruct (pull_rows _ _ _ _ _ _ _ _ _ _ Hr Hnd Hmk Ep) as (handled & rest & -> & Hrest & _ & Hrows). rewrite (Hrest eq_refl) app_nil_r in Hin Hnd Hmk Ep.
  assert (∀ key, rows d' !! key = newest (rows d !! key) (remote prefix key r)) as Hnew.
  { intros key. rewrite Hrows. case_bool_decide as Hk; [done|]. rewrite Hin in Hk. apply eq_None_not_Some in Hk as ->. by destruct (rows d !! key) as [[]|]. }
  split_and!; [|split; [done|]].
  - intros key a. rewrite Hnew. destruct (newest_one (rows d !! key) (remote prefix key r)) as [-> | ->]; [apply Hd|apply Hr].
  - rewrite (pull_seen _ _ _ _ _ _ _ _ _ Hr Hnd Hmk Ep). case_bool_decide as Hk; [done|]. rewrite Hin in Hk. apply eq_None_not_Some in Hk as ->. by rewrite lookup_empty.
Qed.

(** After a push of what a pull left. *)
Lemma pushed_keys prefix r d d1 seen l serr n r' err : decoded (rows d1) →
  (∀ key, rows d1 !! key = newest (rows d !! key) (remote prefix key r) ∧ Good <$> seen !! key = remote prefix key r) →
  Scan_rows d1 = (l, serr) → push prefix seen l 0 r = (r', n, err) →
  (∀ key, kept (remote prefix key r) (remote prefix key r') (rows d !! key)) ∧
  (∀ name, (∀ key, name ≠ nameFor prefix key) → objects r' !! name = objects r !! name) ∧
  (err = None → serr = None → ∀ key, settled (remote prefix key r) (remote prefix key r') (rows d !! key)).
Proof.
  intros Hd1 Hkeys Es Eu. destruct (Scan_rows_spec _ _ _ Es) as (Hl & Hlnd & Hlall).
  destruct (push_spec _ _ _ _ _ _ _ _ Hlnd (λ k a Hka, Hd1 k a (Hl k a Hka)) Eu) as [Hp Hpall].
  assert (∀ key, decodes (remote prefix key r)) as Hrd by (intros key; destruct (Hkeys key) as [_ <-]; by destruct (seen !! key)).
  assert (∀ key la, rows d1 !! key = Some (Good la) → decodes (rows d !! key) ∧
    newest (remote prefix key r) (rows d !! key) = if wins seen key la then Some (Good la) else remote prefix key r) as Hwin.
  { intros key la. destruct (Hkeys key) as [-> <-]. apply push_settles. }
  assert (∀ key, kept (remote prefix key r) (remote prefix key r') (rows d !! key)) as Hkept.
  { intros key. destruct (Hp (nameFor prefix key)) as [Hsame|(k & a & Hka & Hw & <-%nameFor_inj & Ho)]; [by left|]. right.
    destruct (Hwin key a (Hl _ _ Hka)) as [Hdec Hnew]. rewrite Hw in Hnew. split_and!; [done..|]. by rewrite Hnew. }
  split_and!; [done| |].
  - intros name Hno. destruct (Hp name) as [|(k & a & _ & _ & Hnm & _)]; [done|by destruct (Hno k)].
  - intros -> -> key. specialize (Hlall eq_refl key). destruct (rows d1 !! key) as [[la|]|] eqn:Hk; [|done|].
    + destruct (Hwin key la Hk) as [Hdec Hnew]. split_and!; [done..|]. rewrite Hnew. destruct (wins seen key la) eqn:Hw; [by apply Hpall|].
      destruct (Hkept key) as [->|(_ & _ & ->)]; [done|by rewrite Hnew].
    + destruct (Hkeys key) as [Hn _]. rewrite Hk in Hn. destruct (rows d !! key) as [[]|] eqn:Hd, (remote prefix key r) as [[]|] eqn:Hr; simpl in Hn; try done; [by case_match|].
      destruct (Hkept key) as [->|(_ & _ & ->)]; by rewrite Hr ?Hd.
Qed.

Lemma SyncOnce_keys prefix d r d' r' y : decoded (rows d) → decoded (objects r) → canonical prefix (objects r) → SyncOnce prefix d r = (d', r', y) →
  (∀ key, kept (rows d !! key) (rows d' !! key) (remote prefix key r) ∧ kept (remote prefix key r) (remote prefix key r') (rows d !! key)) ∧
  (∀ name, (∀ key, name ≠ nameFor prefix key) → objects r' !! name = objects r !! name) ∧
  (sy_err y = None → ∀ key, settled (rows d !! key) (rows d' !! key) (remote prefix key r) ∧ settled (remote prefix key r) (remote prefix key r') (rows d !! key)).
Proof.
  intros Hd Hr Hcan. unfold SyncOnce. destruct (sk_list prefix r) as [msg|names] eqn:El; [intros [= <- <- <-]; split_and!; [by split; left|done|done]|].
  destruct (listed_means_keys _ _ _ Hcan El) as (Hnd & Hmk & Hin). destruct (pull prefix r names ∅ 0 d) as [[[d1 seen] pulled] err] eqn:Ep.
  assert (∀ key, kept (rows d !! key) (rows d1 !! key) (remote prefix key r)) as Hkept.
  { destruct (pull_rows _ _ _ _ _ _ _ _ _ _ Hr Hnd Hmk Ep) as (handled & rest & _ & _ & Hh & Hrows). intros key. rewrite Hrows. case_bool_decide as Hk; [|by left].
    right. by destruct (Hh key Hk) as (? & ? & _). }
  destruct err as [e|]; [intros [= <- <- <-]; split_and!; [split; [done|by left]|done|done]|].
  destruct (pulled_keys _ _ _ _ _ _ _ Hd Hr Hcan El Ep) as [Hd1 Hkeys]. destruct (Scan_rows d1) as [l serr] eqn:Es.
  destruct (push prefix seen l 0 r) as [[r1 pushed] perr] eqn:Eu. destruct (pushed_keys _ _ _ _ _ _ _ _ _ _ Hd1 Hkeys Es Eu) as (Hrk & Hfor & Hall).
  destruct perr as [e|]; intros [= <- <- <-]; (split_and!; [by split|done|]); [done|]. simpl. intros -> key. specialize (Hall eq_refl eq_refl key).
  split; [|done]. destruct Hall as (H1 & H2 & _). split_and!; [done..|apply Hkeys].
Qed.

(** The shared store as a pass needs it. *)
Definition shared_ok (prefix : string) r : Prop := decoded (objects r) ∧ canonical prefix (objects r).

Lemma kept_decoded prefix d d' r : decoded (rows d) → decoded (objects r) →
  (∀ key, kept (rows d !! key) (rows d' !! key) (remote prefix key r)) → decoded (rows d').
Proof.
  intros Hd Hr Hk key a. destruct (Hk key) as [->|(_ & _ & ->)]; [apply Hd|].
  destruct (newest_one (rows d !! key) (remote prefix key r)) as [-> | ->]; [apply Hd|apply Hr].
Qed.
Lemma kept_shared prefix d r r' : decoded (rows d) → shared_ok prefix r → (∀ key, kept (remote prefix key r) (remote prefix key r') (rows d !! key)) →
  (∀ name, (∀ key, name ≠ nameFor prefix key) → objects r' !! name = objects r !! name) → shared_ok prefix r'.
Proof.
  intros Hd [Hr Hcan] Hk Hfor.
  assert (∀ name, (∃ key, name = nameFor prefix key) ∨ ∀ key, name ≠ nameFor prefix key) as Hname.
  { intros name. destruct (keyFromName prefix name) as [key|] eqn:E.
    - destruct (decide (name = nameFor prefix key)) as [->|Hne]; [left; by exists key|]. right. intros k ->. rewrite keyFromName_nameFor in E. by injection E as ->.
    - right. intros k ->. by rewrite keyFromName_nameFor in E. }
  split.
  - intros name a. destruct (Hname name) as [[key ->]|Hno]; [|rewrite (Hfor name Hno); apply Hr].
    destruct (Hk key) as [H|(_ & _ & H)]; unfold remote in H; rewrite H; [apply Hr|].
    destruct (newest_one (remote prefix key r) (rows d !! key)) as [E|E]; unfold remote in E; rewrite E; [apply Hr|apply Hd].
  - intros name key Hsome Hp E. destruct (Hname name) as [[k ->]|Hno]; [rewrite keyFromName_nameFor in E; by injection E as ->|].
    rewrite (Hfor name Hno) in Hsome. by apply (Hcan name key).
Qed.
Lemma SyncOnce_ok prefix d r d' r' y : decoded (rows d) → shared_ok prefix r → SyncOnce prefix d r = (d', r', y) → decoded (rows d') ∧ shared_ok prefix r'.
Proof.
  intros Hd Hs H. destruct (SyncOnce_keys _ _ _ _ _ _ Hd (proj1 Hs) (proj2 Hs) H) as (Hk & Hfor & _). split.
  - apply (kept_decoded prefix d d' r Hd (proj1 Hs)). apply Hk.
  - apply (kept_shared prefix d r r' Hd Hs); [apply Hk|done].
Qed.

Lemma kept_newer old new other a : kept old new other → old = Some (Good a) → older old new.
Proof. intros [->|(H1 & H2 & ->)] ->; [by apply older_refl|by apply newest_ub_l]. Qed.

(** C16. A pass of the sync between a node's annotations and the shared store, whatever
    fails in it: every row it finds on either side stays or gives way to the other side's
    row of the same key with a later time, so a removal, which is a row, is not undone by
    the value it removed; objects of other writers stay as they are. A pass that reports no
    error leaves on each side the newer of the two rows of every key. *)
Theorem sync_keeps_the_newest prefix d r d' r' y : decoded (rows d) → shared_ok prefix r → SyncOnce prefix d r = (d', r', y) →
  (∀ key, (rows d' !! key = rows d !! key ∨ rows d' !! key = newest (rows d !! key) (remote prefix key r)) ∧
          (remote prefix key r' = remote prefix key r ∨ remote prefix key r' = newest (remote prefix key r) (rows d !! key))) ∧
  (∀ key a, rows d !! key = Some (Good a) → older (Some (Good a)) (rows d' !! key)) ∧
  (∀ key a, remote prefix key r = Some (Good a) → older (Some (Good a)) (remote prefix key r')) ∧
  (∀ name, (∀ key, name ≠ nameFor prefix key) → objects r' !! name = objects r !! name) ∧
  (sy_err y = None → ∀ key, rows d' !! key = newest (rows d !! key) (remote prefix key r) ∧ remote prefix key r' = newest (remote prefix key r) (rows d !! key)).
Proof.
  intros Hd [Hr Hcan] H. destruct (SyncOnce_keys _ _ _ _ _ _ Hd Hr Hcan H) as (Hk & Hfor & Hall). split_and!; [|..|done|].
  - intros key. destruct (Hk key) as [Hl Hm]. unfold kept, settled in *. naive_solver.
  - intros key a Ha. rewrite -Ha. destruct (Hk key) as [Hl _]. by eapply kept_newer.
  - intros key a Ha. rewrite -Ha. destruct (Hk key) as [_ Hm]. by eapply kept_newer.
  - intros He key. destruct (Hall He key) as [(_ & _ & ->) (_ & _ & ->)]. done.
Qed.

(** ** Rounds over the nodes of a cluster *)

(** Each node runs a pass, one after the other; [None] when one reports an error. *)
Fixpoint sync_round (prefix : string) (ds : list D) r : option (list D * R) :=
  match ds with
  | [] => Some ([], r)
  | d :: ds =>
    match SyncOnce prefix d r with
    | (d, r, mkSynced _ _ None) => '(ds, r) ← sync_round prefix ds r; Some (d :: ds, r)
    | _ => None
    end
  end.
(** The rows a key has somewhere in the cluster. *)
Definition held (prefix : string) (ds : list D) r (key : string) (row : option Row) : Prop :=
  row = remote prefix key r ∨ ∃ d, d ∈ ds ∧ row = rows d !! key.
Definition cluster_ok (prefix : string) (ds : list D) r : Prop := shared_ok prefix r ∧ Forall (λ d, decoded (rows d)) ds.

Lemma sync_round_cons prefix d ds r ds' r' : cluster_ok prefix (d :: ds) r → sync_round prefix (d :: ds) r = Some (ds', r') →
  ∃ d1 r1 ds1, ds' = d1 :: ds1 ∧ sync_round prefix ds r1 = Some (ds1, r') ∧ cluster_ok prefix ds r1 ∧ decoded (rows d1) ∧
    ∀ key, settled (rows d !! key) (rows d1 !! key) (remote prefix key r) ∧ settled (remote prefix key r) (remote prefix key r1) (rows d !! key).
Proof.
  intros [Hs [Hd Hds]%Forall_cons]. cbn [sync_round]. destruct (SyncOnce prefix d r) as [[d1 r1] [pushed pulled [e|]]] eqn:E; [done|].
  destruct (sync_round prefix ds r1) as [[ds1 r2]|] eqn:Er; simpl; intros [= <- <-].
  destruct (SyncOnce_ok _ _ _ _ _ _ Hd Hs E) as [Hd1 Hs1]. destruct (SyncOnce_keys _ _ _ _ _ _ Hd (proj1 Hs) (proj2 Hs) E) as (_ & _ & Hall).
  exists d1, r1, ds1. split_and!; [done..| |by apply Hall]. done.
Qed.

Lemma held_cons prefix d ds r r1 key row : newest (remote prefix key r) (rows d !! key) = remote prefix key r1 → held prefix ds r1 key row → held prefix (d :: ds) r key row.
Proof.
  intros Hn [->|(d0 & Hin & ->)]; [|right; exists d0; split; [by right|done]]. rewrite -Hn.
  destruct (newest_one (remote prefix key r) (rows d !! key)) as [-> | ->]; [by left|right; exists d; split; [by left|done]].
Qed.

(** A round leaves in the store, under each key, a row that was somewhere and is as new as
    every row that was. *)
Lemma sync_round_spec prefix ds : ∀ r ds' r', cluster_ok prefix ds r → sync_round prefix ds r = Some (ds', r') →
  cluster_ok prefix ds' r' ∧ ∀ key, decodes (remote prefix key r) →
    held prefix ds r key (remote prefix key r') ∧ older (remote prefix key r) (remote prefix key r') ∧
    Forall (λ d, older (rows d !! key) (remote prefix key r')) ds ∧
    Forall (λ d, held prefix ds r key (rows d !! key) ∧ older (rows d !! key) (remote prefix key r')) ds'.
Proof.
  induction ds as [|d ds IH]; intros r ds' r' Hok.
  { intros [= <- <-]. split; [done|]. intros key Hk. split_and!; [by left|by apply older_refl|constructor..]. }
  intros (d1 & r1 & ds1 & -> & Hr & Hok1 & Hd1 & Hall)%(sync_round_cons _ _ _ _ _ _ Hok). destruct (IH _ _ _ Hok1 Hr) as [[Hs' Hds'] Hkeys].
  split; [by split; [|constructor]|]. intros key Hk. destruct (Hall key) as [(H1 & _ & H2) (_ & _ & H3)].
  pose proof (newest_ub_l _ _ Hk H1) as Hr1. pose proof (newest_ub_r _ _ Hk H1) as Hdr1. rewrite -H3 in Hr1. rewrite -H3 in Hdr1.
  destruct (Hkeys key) as (K1 & K2 & K3 & K4); [rewrite H3; by apply newest_decodes|]. symmetry in H3.
  split_and!; [by eapply held_cons|by etrans|constructor; [by etrans|done]|]. constructor.
  - rewrite H2. destruct (newest_one (rows d !! key) (remote prefix key r)) as [-> | ->]; (split; [|by etrans]); [right; exists d; split; [by left|done]|by left].
  - eapply Forall_impl; [exact K4|]. intros d0 [Hh Ho]. split; [by eapply held_cons|done].
Qed.

(** When the store is as new as every node, a round only brings the nodes up to it. *)
Lemma sync_round_settled prefix ds : ∀ r ds' r' key, cluster_ok prefix ds r → sync_round prefix ds r = Some (ds', r') →
  Forall (λ d, older (rows d !! key) (remote prefix key r) ∧
    ∀ a b, rows d !! key = Some (Good a) → remote prefix key r = Some (Good b) → an_UpdatedAt a = an_UpdatedAt b → a = b) ds →
  remote prefix key r' = remote prefix key r ∧ Forall (λ d, rows d !! key = remote prefix key r) ds'.
Proof.
  induction ds as [|d ds IH]; intros r ds' r' key Hok; [by intros [= <- <-]|].
  intros (d1 & r1 & ds1 & -> & Hr & Hok1 & _ & Hall)%(sync_round_cons _ _ _ _ _ _ Hok) [[Hold Htie] Hds]%Forall_cons.
  destruct (Hall key) as [(_ & _ & H2) (_ & _ & H3)]. rewrite (newest_old _ _ Hold) in H3. rewrite (newest_catch_up _ _ Hold Htie) in H2.
  rewrite -H3 in Hds. destruct (IH _ _ _ _ Hok1 Hr Hds) as [K1 K2]. rewrite K1 H3. split; [done|]. constructor; [done|]. by rewrite -H3.
Qed.

End sync.
