(* ===== verification/Annotate.v ===== *)
(** * Annotating from the read surfaces

    The one write the query surfaces offer: src/internal/mcp/annotate.go,
    src/internal/graphql/resolvers/annotations.go and the audit of it,
    src/internal/audit/audit.go. A handler has the graph and the sidecar of its tenant. *)
From S2P Require Import Prelude GoStd Values Entities Events Projection Tenant Auth Sink Annotations AnnotationsSpec AnnotationsSync.
Open Scope Z_scope.

(** ** The audit *)

Record AuditEvent := mkAuditEvent { ae_Time : Time; ae_Tenant : string; ae_Surface : string; ae_Action : string; ae_Target : string }.

(** What a writer does with the line of an event; a failure is its own affair, only a log
    line says so. *)
Class LineWriter (W : Type) := write_line : AuditEvent → W → W.

(** Without a sink there is no auditor; an event whose time has no JSON form is dropped. *)
Definition Record_audit {W} `{!LineWriter W} (ev : AuditEvent) (a : option W) : option W :=
  match a with
  | None => None
  | Some w => if time_marshals (ae_Time ev) then Some (write_line ev w) else Some w
  end.

(** ** The handlers *)

Inductive AnnotateError :=
| NotEnabled
| MayNotAnnotate
| IDRequired
| NoteRequired
| NoEntity (handle : string)
| NotWritten (err : AnnError).

Section annotate.
Context {D : Type} `{!Sidecar D} {W : Type} `{!LineWriter W}.

(** What a handler keeps: the sidecar when annotations are enabled, and the auditor. *)
Record Surface := mkSurface { sf_ann : option D; sf_audit : option W }.

Definition annotate_event (surface handle : string) (ten : option string) (now : Time) : AuditEvent :=
  mkAuditEvent now (FromContext ten) surface "annotate_entity" handle.

(** MCP. The clock is read for the row and again for the audit. *)
Definition annotateEntity (g : Graph) (cx : Ctx) (ten : option string) (EntityID : string) (notes : gmap string string) (now later : Time) (s : Surface)
    : Surface * (AnnotateError + Annotation) :=
  match sf_ann s with
  | None => (s, inl NotEnabled)
  | Some d =>
    if negb (CanWrite cx) then (s, inl MayNotAnnotate) else
    if bool_decide (EntityID = ""%string) then (s, inl IDRequired) else
    if bool_decide (size notes = 0%nat) then (s, inl NoteRequired) else
    match ResolveHandle g EntityID with
    | None => (s, inl (NoEntity EntityID))
    | Some entID =>
      match (GetEntity g entID).1 with
      | None => (s, inl (NoEntity EntityID))
      | Some e =>
        match SetAt (IdentityHash e) entID notes "" now d with
        | (d, inl err) => (mkSurface (Some d) (sf_audit s), inl (NotWritten err))
        | (d, inr a) => (mkSurface (Some d) (Record_audit (annotate_event "mcp" EntityID ten later) (sf_audit s)), inr a)
        end
      end
    end
  end.

(** The key of a read: the fingerprint when the id is an entity's, or else the id. *)
Definition annotation_key (g : Graph) (id : string) : string :=
  match (GetEntity g id).1 with Some e => IdentityHash e | None => id end.

Definition annotationFor (g : Graph) (id : string) (s : Surface) : Surface * option Annotation :=
  match sf_ann s with
  | None => (s, None)
  | Some d => let '(d, r) := GetAt (annotation_key g id) id d in (mkSurface (Some d) (sf_audit s), match r with inr a => a | inl _ => None end)
  end.

(** GraphQL: the notes are a list, of whose entries with the same key the last stays. *)
Definition AnnotateEntity (g : Graph) (cx : Ctx) (ten : option string) (id : string) (notes : list (string * string)) (now later : Time) (s : Surface)
    : Surface * (AnnotateError + Annotation) :=
  match sf_ann s with
  | None => (s, inl NotEnabled)
  | Some d =>
    if negb (CanWrite cx) then (s, inl MayNotAnnotate) else
    if bool_decide (length notes = 0%nat) then (s, inl NoteRequired) else
    match ResolveHandle g id with
    | None => (s, inl (NoEntity id))
    | Some eid =>
      match (GetEntity g eid).1 with
      | None => (s, inl (NoEntity id))
      | Some e =>
        match SetAt (IdentityHash e) id (Json.go_map notes) "" now d with
        | (d, inl err) => (mkSurface (Some d) (sf_audit s), inl (NotWritten err))
        | (d, inr a) => (mkSurface (Some d) (Record_audit (annotate_event "graphql" id ten later) (sf_audit s)), inr a)
        end
      end
    end
  end.

(** The field of an entity; here a failed read is an error. *)
Definition resolve_Annotations (g : Graph) (id : string) (s : Surface) : Surface * (AnnError + option Annotation) :=
  match sf_ann s with
  | None => (s, inr None)
  | Some d => let '(d, r) := GetAt (annotation_key g id) id d in (mkSurface (Some d) (sf_audit s), r)
  end.
End annotate.
#[global] Arguments Surface : clear implicits.

(** The GraphQL form: the entries by key, an author and a time when there are. *)
Definition annotationToGQL (a : Annotation) : list (string * string) * option string * option Time :=
  ((λ k, (k, default ""%string (an_Values a !! k))) <$> sorted_keys (an_Values a),
   if bool_decide (an_Author a = ""%string) then None else Some (an_Author a),
   if bool_decide (an_UpdatedAt a = 0) then None else Some (an_UpdatedAt a)).

(** ** Who may write, and what *)

Section spec.
Context {D : Type} `{!Sidecar D, !SidecarLaws D} {W : Type} `{!LineWriter W}.
Implicit Types s : Surface D W.


Lemma annotationFor_reads g id d s' a aud : decoded (rows d) → annotationFor g id (mkSurface (Some d) aud) = (s', a) →
  (∃ r, (GetAt (annotation_key g id) id d).2 = inr r) → a = view (annotation_key g id) id (rows d).
Proof.
  intros Hd H [r Hr]. unfold annotationFor in H. simpl in H. destruct (GetAt (annotation_key g id) id d) as [d' res] eqn:E. simpl in Hr. subst res.
  injection H as <- <-. by apply (GetAt_view _ _ _ _ _ Hd E).
Qed.
Lemma annotateEntity_write g cx ten handle notes now later d aud s' a : annotateEntity g cx ten handle notes now later (mkSurface (Some d) aud) = (s', inr a) →
  ∃ id e d', ResolveHandle g handle = Some id ∧ g_entities g !! id = Some e ∧ sf_ann s' = Some d' ∧ SetAt (IdentityHash e) id notes "" now d = (d', inr a).
Proof.
  unfold annotateEntity. simpl. destruct (CanWrite cx); simpl; [|done]. case_bool_decide; [done|]. case_bool_decide; [done|].
  destruct (ResolveHandle g handle) as [id|]; [|done]. destruct (g_entities g !! id) as [e|] eqn:He; [|done].
  destruct (SetAt (IdentityHash e) id notes "" now d) as [d' [err|b]] eqn:E; intros [= <- <-]. exists id, e, d'. by split_and!.
Qed.
End spec.

(** ** From one node to another *)

Section nodes.
Context {D : Type} `{!Sidecar D, !SidecarLaws D} {W : Type} `{!LineWriter W} {R : Type} `{!Sink Row R, !SinkLaws Row R}.

End nodes.
