(* ===== verification/AnnotationsExamples.v ===== *)
(** * Annotations on concrete nodes

    A sidecar in memory whose writes can fail, the witnesses, and four behaviours that
    differ from what the comments of the source say. *)
From S2P Require Import Prelude GoStd Values Entities Events Projection ProjectionSpec Tenant Auth Sink LogshipExamples Annotations AnnotationsSpec AnnotationsSync Annotate.
Open Scope Z_scope.

(** ** A sidecar in memory *)

(** The rows, and for the writes to come whether each fails. *)
Record Mem := mkMem { mm_rows : gmap string Row; mm_fails : list bool }.
Definition fails (d : Mem) : bool := default false (head (mm_fails d)).
#[export] Instance mem_sidecar : Sidecar Mem := {|
  sc_get k d := inr (mm_rows d !! k);
  sc_iter d := inr (sort_by fst (map_to_list (mm_rows d)), None);
  sc_set k row d := if fails d then (mkMem (mm_rows d) (tail (mm_fails d)), Some "disk"%string) else (mkMem (<[k := row]> (mm_rows d)) (tail (mm_fails d)), None);
  sc_delete k d := if fails d then (mkMem (mm_rows d) (tail (mm_fails d)), Some "disk"%string) else (mkMem (delete k (mm_rows d)) (tail (mm_fails d)), None);
|}.
#[export] Program Instance mem_sidecar_laws : SidecarLaws Mem := {| rows := mm_rows |}.
Next Obligation. by intros k d v [= <-]. Qed.
Next Obligation. by intros d l [= <-]. Qed.
Next Obligation. by intros d l err [= <- _]. Qed.
Next Obligation. intros k r d d'. cbn. case_match; [done|by intros [= <-]]. Qed.
Next Obligation. intros k r d d' msg. cbn. case_match; [by intros [= <-]|done]. Qed.
Next Obligation. intros k d d'. cbn. case_match; [done|by intros [= <-]]. Qed.
Next Obligation. intros k d d' msg. cbn. case_match; [by intros [= <-]|done]. Qed.
#[export] Instance events_writer : LineWriter (list AuditEvent) := λ ev w, (w ++ [ev])%list.

(** Rows that read back as they are. *)
Definition reads_back (m : gmap string Row) : bool :=
  forallb (λ x, match x.2 with Good a => bool_decide (read_back a = a) | Bad _ => true end) (map_to_list m).
Lemma reads_back_decoded m : reads_back m = true → decoded m.
Proof.
  unfold reads_back. rewrite forallb_forall. intros H k a Hk. specialize (H (k, Good a)). simpl in H.
  assert (read_back a = a) as <-; [|apply read_back_legible]. apply (bool_decide_eq_true (read_back a = a)), H. by apply list_elem_of_In, elem_of_map_to_list.
Qed.

Definition owner (who : string) (t : Time) : Annotation := mkAnnotation {["owner" := who]}%string "" t.
Definition tombstone (t : Time) : Annotation := mkAnnotation ∅ "" t.
Definition writer : Ctx := WithWritable true no_ctx.
Definition fp : string := IdentityHash host_a.
Definition old_rows : gmap string Row := {["A"%string := Good (owner "alice" 1000)]}.
Definition values_of (d : Mem) (k : string) : option (list (string * string)) :=
  match note (mm_rows d !! k) with Some a => Some (map_to_list (an_Values a)) | None => None end.

(** ** Witnesses *)

Lemma move_keeps_the_note_witness : decoded old_rows ∧ view fp "A" old_rows = Some (owner "alice" 1000) ∧
  view fp "A" (rows (GetAt fp "A" (mkMem old_rows [false; true])).1) = view fp "A" old_rows.
Proof.
  assert (decoded old_rows) as Hd by (apply reads_back_decoded; vm_compute; reflexivity). split; [exact Hd|]. split; [vm_compute; reflexivity|].
  destruct (GetAt fp "A" (mkMem old_rows [false; true])) as [d' res] eqn:E.
  exact (proj1 (proj2 (proj2 (move_keeps_the_note fp "A" (mkMem old_rows [false; true]) d' res Hd E)))).
Defined.

Definition runbook : gmap string string := {["runbook" := "wiki"]}%string.
Definition node_a : Surface Mem (list AuditEvent) := mkSurface (Some (mkMem old_rows [])) (Some []).
Definition annotated : Surface Mem (list AuditEvent) * (AnnotateError + Annotation) := annotateEntity demo writer None "A" runbook 2000 2001 node_a.

Lemma old_moves id e old : ResolveHandle demo "A" = Some id → g_entities demo !! id = Some e → note (old_rows !! IdentityHash e) = None →
  view (IdentityHash e) id old_rows = Some old → (migrate (IdentityHash e) id old (mkMem old_rows [])).2 = None.
Proof.
  assert (ResolveHandle demo "A" = Some "A"%string) as -> by (vm_compute; reflexivity). intros [= <-].
  assert (g_entities demo !! "A"%string = Some host_a) as -> by (vm_compute; reflexivity). intros [= <-] _.
  assert (view (IdentityHash host_a) "A" old_rows = Some (owner "alice" 1000)) as -> by (vm_compute; reflexivity). intros [= <-]. vm_compute. reflexivity.
Qed.


(** Two nodes and the store, with a note each and one that was removed on the second. *)
Definition left_rows : gmap string Row := {["x" := Good (owner "alice" 1000); "y" := Good (owner "bob" 10)]}%string.
Definition right_rows : gmap string Row := {["y" := Good (tombstone 20); "z" := Good (owner "carol" 5)]}%string.
Definition pair : list Mem := [mkMem left_rows []; mkMem right_rows []].
Definition store0 : gmap string Row := {[nameFor "annotations/acme" "x" := Good (owner "zoe" 900)]}.
Definition round1 : option (list Mem * gmap string Row) := sync_round "annotations/acme" pair store0.
Definition round2 : option (list Mem * gmap string Row) := match round1 with Some (ds, r) => sync_round "annotations/acme" ds r | None => None end.

Lemma store0_ok : shared_ok "annotations/acme" store0.
Proof.
  split; [apply reads_back_decoded; vm_compute; reflexivity|].
  intros name key [row Hrow] _. cbn [objects mem_sink_laws] in Hrow. unfold store0 in Hrow. apply lookup_singleton_Some in Hrow as [<- _].
  rewrite keyFromName_nameFor. by intros [= <-].
Qed.
Lemma pair_ok : cluster_ok "annotations/acme" pair store0.
Proof. split; [exact store0_ok|]. apply Forall_cons_2; [|apply Forall_singleton]; apply reads_back_decoded; vm_compute; reflexivity. Qed.

Lemma sync_keeps_the_newest_witness : decoded right_rows ∧ shared_ok "annotations/acme" store0 ∧
  ∃ d' r' y, SyncOnce "annotations/acme" (mkMem right_rows []) store0 = (d', r', y) ∧ sy_err y = None ∧
    ∀ key, rows d' !! key = newest (right_rows !! key) (remote "annotations/acme" key store0).
Proof.
  assert (decoded right_rows) as Hd by (apply reads_back_decoded; vm_compute; reflexivity). split; [exact Hd|]. split; [exact store0_ok|].
  destruct (SyncOnce "annotations/acme" (mkMem right_rows []) store0) as [[d' r'] y] eqn:E. exists d', r', y. split; [reflexivity|].
  assert (sy_err y = None) as Hy. { assert (sy_err (SyncOnce "annotations/acme" (mkMem right_rows []) store0).2 = None) as H by (vm_compute; reflexivity). rewrite E in H. exact H. }
  split; [exact Hy|]. intros key. exact (proj1 (proj2 (proj2 (proj2 (proj2 (sync_keeps_the_newest "annotations/acme" (mkMem right_rows []) store0 d' r' y Hd store0_ok E)))) Hy key)).
Defined.

(** What a key holds in the cluster has distinct times. *)
Lemma pair_stamps key a b : held "annotations/acme" pair store0 key (Some (Good a)) → held "annotations/acme" pair store0 key (Some (Good b)) →
  an_UpdatedAt a = an_UpdatedAt b → a = b.
Proof.
  assert (∀ c, held "annotations/acme" pair store0 key (Some (Good c)) →
    (key, c) ∈ [("x", owner "zoe" 900); ("x", owner "alice" 1000); ("y", owner "bob" 10); ("y", tombstone 20); ("z", owner "carol" 5)]%string) as Hc.
  { intros c [H|(d & Hd & H)].
    - symmetry in H. unfold remote, store0 in H. cbn [objects mem_sink_laws] in H. apply lookup_singleton_Some in H as [<-%nameFor_inj [= <-]]. left.
    - unfold pair in Hd. symmetry in H. repeat (apply elem_of_cons in Hd as [->|Hd]); [..|by apply not_elem_of_nil in Hd]; cbn [rows mem_sidecar_laws mm_rows] in H;
        unfold left_rows, right_rows in H; apply lookup_insert_Some in H as [[<- [= <-]]|[_ [<- [= <-]]%lookup_singleton_Some]]; by_decide. }
  intros Ha%Hc Hb%Hc Heq. clear Hc. rewrite !elem_of_cons in Ha. rewrite !elem_of_cons in Hb. rewrite elem_of_nil in Ha. rewrite elem_of_nil in Hb.
  destruct_or! Ha; destruct_or! Hb; simplify_eq; done.
Qed.


(** The second node, where the host has another id. *)
Definition graph_b : Graph := putEntity (mkEntity "Q" "host" [("host.name", KindString "a")] [] "") New.
Definition sidecar_of (s : Surface Mem (list AuditEvent)) : Mem := default (mkMem ∅ []) (sf_ann s).
Definition from_a : Mem * gmap string Row * Synced := SyncOnce "annotations/acme" (sidecar_of annotated.1) store0.
Definition to_b : Mem * gmap string Row * Synced := SyncOnce "annotations/acme" (mkMem right_rows []) from_a.1.2.
Definition read_b : Surface Mem (list AuditEvent) * option Annotation := annotationFor graph_b "Q" (mkSurface (Some to_b.1.1) None).

Lemma triple {A B C} (x : A * B * C) : x = (x.1.1, x.1.2, x.2).
Proof. by destruct x as [[a b] c]. Qed.


(** ** Divergences *)

(** A host annotated under its old key, moved by a read that stopped between the write and
    the delete, and whose note is then removed. *)
Definition half_moved : Mem := (GetAt fp "A" (mkMem old_rows [false; true])).1.
Definition remove_owner : gmap string string := {["owner" := ""]}%string.
Definition removed : Mem := (SetAt fp "A" remove_owner "" 2000 half_moved).1.

(** A removed note returns. A move that stopped half-way leaves the note under both
    keys; the comment says the next read resolves that, but a read that finds the
    fingerprint's row does not look further. A removal then writes its tombstone under the
    fingerprint alone, and the next read, for which a tombstone is absence, falls back to
    the old key and moves the removed note over the tombstone. *)
Theorem removed_note_returns :
  values_of half_moved fp = Some [("owner", "alice")]%string ∧ values_of removed fp = None ∧ mm_rows removed !! fp = Some (Good (tombstone 2000)) ∧
  values_of (GetAt fp "A" removed).1 fp = Some [("owner", "alice")]%string.
Proof. split; [vm_compute; reflexivity|]. split; [vm_compute; reflexivity|]. split; vm_compute; reflexivity. Qed.

(** A write whose move failed forgets the earlier notes. SetAt moves the old row first,
    so that the merge sees what was written earlier, and stops when that reports an error;
    but a failed move is not reported. The merge then starts from nothing, and its row
    hides the old one for good. *)
Theorem failed_move_forgets :
  values_of (SetAt fp "A" runbook "" 2000 (mkMem old_rows [])).1 fp = Some [("owner", "alice"); ("runbook", "wiki")]%string ∧
  let d := (SetAt fp "A" runbook "" 2000 (mkMem old_rows [true])).1 in
  values_of d fp = Some [("runbook", "wiki")]%string ∧ values_of d "A" = Some [("owner", "alice")]%string ∧
  values_of (GetAt fp "A" d).1 fp = Some [("runbook", "wiki")]%string.
Proof. split; [vm_compute; reflexivity|]. split; [vm_compute; reflexivity|]. split; vm_compute; reflexivity. Qed.

(** Over GraphQL a handle other than the entity's id is used as its old key. A note
    still kept under the id is then neither moved nor merged, and the new row hides it;
    over MCP the same handle resolves to the id first and both notes are kept. *)
Theorem graphql_handle_hides_old_note :
  let s := mkSurface (Some (mkMem old_rows [])) (None : option (list AuditEvent)) in
  values_of (sidecar_of (annotateEntity demo writer None fp runbook 2000 2001 s).1) fp = Some [("owner", "alice"); ("runbook", "wiki")]%string ∧
  let g := sidecar_of (AnnotateEntity demo writer None fp [("runbook", "wiki")]%string 2000 2001 s).1 in
  values_of g fp = Some [("runbook", "wiki")]%string ∧ values_of g "A" = Some [("owner", "alice")]%string ∧
  (resolve_Annotations demo "A" (mkSurface (Some g) (None : option (list AuditEvent)))).2 = inr (Some (mkAnnotation runbook "" 2000)).
Proof. split; [vm_compute; reflexivity|]. split; [vm_compute; reflexivity|]. split; vm_compute; reflexivity. Qed.

(** The count of annotated entities includes those whose annotation was removed. *)
Theorem count_includes_removed :
  let d := (SetAt fp "" remove_owner "" 2000 (mkMem {[fp := Good (owner "alice" 1000)]} [])).1 in
  values_of d fp = None ∧ Count d = inr 1%nat.
Proof. split; vm_compute; reflexivity. Qed.
