(* ===== verification/GoParse.v ===== *)
(** * Reading text as values

    What the configuration uses of strconv, time, strings and flag: booleans, integers,
    durations and doubles from text, case folding against ASCII words, and the command
    line as the flags it sets; and what the query tools use: base64 without padding, whose
    decoder skips line ends and ignores the bits of a last digit that fill no byte, and
    [sort.Search]. *)
From Stdlib Require Import Floats.SpecFloat.
From S2P Require Import Prelude GoStd Tenant Auth Projection.
Open Scope Z_scope.

Definition digit (c : ascii) : option Z :=
  let n := Z.of_N (N_of_ascii c) in if (48 <=? n) && (n <=? 57) then Some (n - 48) else None.
(** A digit in a base up to 36, letters of either case. *)
Definition digit_of (base : Z) (c : ascii) : option Z :=
  let n := Z.of_N (N_of_ascii (lower c)) in
  let d := if (48 <=? n) && (n <=? 57) then n - 48 else if (97 <=? n) && (n <=? 122) then n - 87 else 36 in
  if d <? base then Some d else None.

(** ** strconv.ParseBool *)

Definition ParseBool (s : string) : option bool :=
  if bool_decide (s ∈ ["1"; "t"; "T"; "TRUE"; "true"; "True"]%string) then Some true
  else if bool_decide (s ∈ ["0"; "f"; "F"; "FALSE"; "false"; "False"]%string) then Some false else None.

(** ** strconv.ParseInt *)

Definition cut_sign (s : string) : bool * string :=
  match s with
  | String c t => if Ascii.eqb c "-" then (true, t) else if Ascii.eqb c "+" then (false, t) else (false, s)
  | EmptyString => (false, s)
  end.

(** Digits separated by underscores, each underscore between two of them; [prev] is what
    came last: a digit or the base prefix, an underscore, or the beginning. *)
Inductive seen_last := LNothing | LDigit | LUnder | LOther.
Fixpoint under_ok (hex : bool) (prev : seen_last) (s : string) : bool :=
  match s with
  | EmptyString => match prev with LUnder => false | _ => true end
  | String c s =>
    if match digit c with Some _ => true | None => false end || (hex && match digit_of 16 c with Some _ => true | None => false end) then under_ok hex LDigit s
    else if Ascii.eqb c "_" then match prev with LDigit => under_ok hex LUnder s | _ => false end
    else match prev with LUnder => false | _ => under_ok hex LOther s end
  end.
Definition underscoreOK (s : string) : bool :=
  match (cut_sign s).2 with
  | String z (String b t) as u =>
    let b := lower b in
    if Ascii.eqb z "0" && (Ascii.eqb b "b" || Ascii.eqb b "o" || Ascii.eqb b "x") then under_ok (Ascii.eqb b "x") LDigit t else under_ok false LNothing u
  | u => under_ok false LNothing u
  end.

(** The digits of a number, and whether there was an underscore; where these are not
    allowed one is no digit. *)
Fixpoint digits_go (base : Z) (under : bool) (acc : Z) (seen : bool) (s : string) : option (Z * bool) :=
  match s with
  | EmptyString => Some (acc, seen)
  | String c s =>
    if under && Ascii.eqb c "_" then digits_go base under acc true s
    else match digit_of base c with Some d => digits_go base under (acc * base + d) seen s | None => None end
  end.
(** The prefix of base 0: the base and what follows. *)
Definition base_prefix (s : string) : Z * string :=
  match s with
  | String z (String b (String _ _ as t)) =>
    if negb (Ascii.eqb z "0") then (10, s) else
    let b' := lower b in
    if Ascii.eqb b' "b" then (2, t) else if Ascii.eqb b' "o" then (8, t) else if Ascii.eqb b' "x" then (16, t) else (8, String b t)
  | String z t => if Ascii.eqb z "0" then (8, t) else (10, s)
  | EmptyString => (10, s)
  end.
Definition int_range (neg : bool) (n : Z) : option Z :=
  if neg then (if n <=? 9223372036854775808 then Some (- n) else None) else (if n <=? max_int64 then Some n else None).
(** [strconv.Atoi], and [strconv.ParseInt] in base 0. *)
Definition Atoi (s : string) : option Z :=
  let '(neg, t) := cut_sign s in
  if bool_decide (t = ""%string) then None else '(n, _) ← digits_go 10 false 0 false t; int_range neg n.
Definition ParseInt0 (s : string) : option Z :=
  let '(neg, t) := cut_sign s in
  if bool_decide (t = ""%string) then None else
  let '(base, u) := base_prefix t in
  '(n, under) ← digits_go base true 0 false u;
  if under && negb (underscoreOK t) then None else int_range neg n.

(** ** strconv.ParseFloat *)

(** [m / d], rounded to nearest even: enough bits of the quotient, and whether any
    remain. *)
Definition f64_ratio (m d : Z) : float64 :=
  let k := Z.max 0 (66 + Z.log2 d - Z.log2 m) in
  let q := (m * 2 ^ k) / d in let r := (m * 2 ^ k) mod d in
  f64_make (2 * q + (if r =? 0 then 0 else 1)) (- k - 1).

(** The mantissa's digits: their value, how many follow the point, whether there was a
    point, a digit, an underscore, and what remains. *)
Record Mantissa := mkMantissa { mt_value : Z; mt_places : Z; mt_dot : bool; mt_digit : bool; mt_under : bool; mt_rest : string }.
Fixpoint mantissa_go (base : Z) (m : Mantissa) (s : string) : Mantissa :=
  let stop := mkMantissa (mt_value m) (mt_places m) (mt_dot m) (mt_digit m) (mt_under m) s in
  match s with
  | EmptyString => stop
  | String c t =>
    if Ascii.eqb c "_" then mantissa_go base (mkMantissa (mt_value m) (mt_places m) (mt_dot m) (mt_digit m) true s) t
    else if Ascii.eqb c "." then
      (if mt_dot m then stop else mantissa_go base (mkMantissa (mt_value m) (mt_places m) true (mt_digit m) (mt_under m) s) t)
    else match digit_of base c with
    | Some d => mantissa_go base (mkMantissa (mt_value m * base + d) (if mt_dot m then mt_places m + 1 else mt_places m) (mt_dot m) true (mt_under m) s) t
    | None => stop
    end
  end.
Fixpoint exponent_go (e : Z) (under : bool) (s : string) : option (Z * bool) :=
  match s with
  | EmptyString => Some (e, under)
  | String c t =>
    if Ascii.eqb c "_" then exponent_go e true t
    else match digit c with Some d => exponent_go (if e <? 10000 then e * 10 + d else e) under t | None => None end
  end.
(** The exponent part, all that remains: its value and whether it had an underscore. *)
Definition exponent (mark : ascii) (s : string) : option (Z * bool) :=
  match s with
  | String c t =>
    if Ascii.eqb (lower c) mark then
      let '(neg, u) := cut_sign t in
      match u with
      | String d _ => match digit d with Some _ => '(e, under) ← exponent_go 0 false u; Some (if neg then - e else e, under) | None => None end
      | EmptyString => None
      end
    else None
  | EmptyString => None
  end.

(** A decimal beyond these exponents is no double's, or zero. *)
Definition scale10 (v e : Z) : float64 :=
  if v =? 0 then f64_zero else
  let dp := Z.log2 v / 3 + 1 + e in
  if dp <? -340 then f64_zero else
  if 0 <=? e then (if 320 <? e then S754_infinity false else f64_of_int (v * 10 ^ e)) else f64_ratio v (10 ^ (- e)).

Definition inf_text (s : string) : bool := bool_decide (lower <$> list_of_string s ∈ list_of_string <$> ["inf"; "infinity"]%string).
Definition ParseFloat (s : string) : option float64 :=
  let '(neg, t) := cut_sign s in
  let signed (f : float64) := if neg then SFopp f else f in
  if inf_text t then Some (signed (S754_infinity false)) else
  if bool_decide (lower <$> list_of_string s = list_of_string "nan") then Some S754_nan else
  let '(hex, u) := match t with
    | String z (String x (String _ _ as u)) => if Ascii.eqb z "0" && Ascii.eqb (lower x) "x" then (true, u) else (false, t)
    | _ => (false, t)
    end in
  let m := mantissa_go (if hex then 16 else 10) (mkMantissa 0 0 false false false u) u in
  if negb (mt_digit m) then None else
  '(e, under) ← (if bool_decide (mt_rest m = ""%string) then (if hex then None else Some (0, false)) else exponent (if hex then "p"%char else "e"%char) (mt_rest m));
  if (mt_under m || under) && negb (underscoreOK s) then None else
  let f := if hex then (if mt_value m =? 0 then f64_zero else f64_make (mt_value m) (e - 4 * mt_places m)) else scale10 (mt_value m) (e - mt_places m) in
  match f with S754_infinity _ => None | _ => Some (signed f) end.

(** ** time.ParseDuration *)

(** The leading digits: the number and the rest, or an overflow. *)
Fixpoint leadingInt (x : Z) (s : string) : option (Z * string) :=
  match s with
  | String c t =>
    match digit c with
    | Some d =>
      if 922337203685477580 <? x then None else
      let x := x * 10 + d in if 9223372036854775808 <? x then None else leadingInt x t
    | None => Some (x, s)
    end
  | EmptyString => Some (x, s)
  end.
(** The digits after the point: their number, the power of ten they stand over, the rest;
    those that do not fit are dropped. *)
Fixpoint leadingFraction (x : Z) (places : nat) (overflow : bool) (s : string) : Z * nat * string :=
  match s with
  | String c t =>
    match digit c with
    | Some d =>
      if overflow then leadingFraction x places overflow t else
      if 922337203685477580 <? x then leadingFraction x places true t else
      let y := x * 10 + d in
      if 9223372036854775808 <? y then leadingFraction x places true t else leadingFraction y (S places) overflow t
    | None => (x, places, s)
    end
  | EmptyString => (x, places, s)
  end.
(** [scale *= 10] from 1. *)
Definition f64_pow10 (n : nat) : float64 := Nat.iter n (λ f, SFmul 53 1024 f (f64_of_int 10)) f64_one.
(** The conversion to uint64 of a double that is not negative: towards zero. *)
Definition f64_trunc (f : float64) : Z :=
  match f with S754_finite _ m e => if 0 <=? e then Zpos m * 2 ^ e else Zpos m / 2 ^ (- e) | _ => 0 end.
Definition fraction (f : Z) (places : nat) (unit : Z) : Z :=
  f64_trunc (SFmul 53 1024 (f64_of_int f) (SFdiv 53 1024 (f64_of_int unit) (f64_pow10 places))).

Definition micro (a b : N) : string := String (ascii_of_N a) (String (ascii_of_N b) "s").
Definition unitMap (u : string) : option Z :=
  if bool_decide (u = "ns"%string) then Some 1 else
  if bool_decide (u ∈ ["us"%string; micro 194 181; micro 206 188]) then Some 1000 else
  if bool_decide (u = "ms"%string) then Some 1000000 else
  if bool_decide (u = "s"%string) then Some 1000000000 else
  if bool_decide (u = "m"%string) then Some 60000000000 else
  if bool_decide (u = "h"%string) then Some 3600000000000 else None.
Fixpoint cut_unit (s : string) : string * string :=
  match s with
  | String c t =>
    if Ascii.eqb c "." || match digit c with Some _ => true | None => false end then (""%string, s)
    else let '(u, r) := cut_unit t in (String c u, r)
  | EmptyString => (""%string, s)
  end.

(** One number with its unit, added to the sum. *)
Definition duration_part (d : Z) (s : string) : option (Z * string) :=
  '(v, s1) ← leadingInt 0 s;
  let pre := negb (bool_decide (String.length s1 = String.length s)) in
  let '(f, places, s3, post) := match s1 with
    | String c s2 => if Ascii.eqb c "." then let '(f, p, s3) := leadingFraction 0 0 false s2 in (f, p, s3, negb (bool_decide (String.length s3 = String.length s2))) else (0, 0%nat, s1, false)
    | EmptyString => (0, 0%nat, s1, false)
    end in
  if negb pre && negb post then None else
  let '(u, rest) := cut_unit s3 in
  unit ← unitMap u;
  if 9223372036854775808 / unit <? v then None else
  let v := v * unit in
  let v := if 0 <? f then v + fraction f places unit else v in
  if 9223372036854775808 <? v then None else
  if 9223372036854775808 <? d + v then None else Some (d + v, rest).
(** With a turn for each byte: a part has at least one. *)
Fixpoint duration_go (fuel : nat) (d : Z) (s : string) : option Z :=
  match fuel, s with
  | _, EmptyString => Some d
  | S fuel, _ => '(d, s) ← duration_part d s; duration_go fuel d s
  | O, _ => None
  end.
Definition ParseDuration (s : string) : option Duration :=
  let '(neg, t) := cut_sign s in
  if bool_decide (t = "0"%string) then Some 0 else
  if bool_decide (t = ""%string) then None else
  d ← duration_go (String.length t) 0 t;
  if neg then Some (- d) else if max_int64 <? d then None else Some d.

(** ** strings *)

(** [strings.ToLower] as far as comparing the result with ASCII text goes: besides the
    letters, the two runes whose lower case is ASCII. *)
Fixpoint fold_runes (l : list ascii) : list ascii :=
  match l with
  | [] => []
  | c1 :: r1 =>
    match r1 with
    | c2 :: r2 =>
      if (N_of_ascii c1 =? 196)%N && (N_of_ascii c2 =? 176)%N then "i"%char :: fold_runes r2 else
      match r2 with
      | c3 :: r3 => if (N_of_ascii c1 =? 226)%N && (N_of_ascii c2 =? 132)%N && (N_of_ascii c3 =? 170)%N then "k"%char :: fold_runes r3 else lower c1 :: fold_runes r1
      | [] => lower c1 :: fold_runes r1
      end
    | [] => [lower c1]
    end
  end.
Definition ToLower (s : string) : string := string_of_list (fold_runes (list_of_string s)).

Fixpoint Join (sep : string) (l : list string) : string :=
  match l with [] => ""%string | [x] => x | x :: l => x +++ sep +++ Join sep l end.

(** ** flag *)

Inductive FlagError :=
| FlagSyntax (arg : string)
| FlagHelp
| FlagUnknown (name : string)
| FlagNeedsArgument (name : string)
| FlagInvalid (name value : string).

(** The name and the attached value of an argument that is a flag: [inl] is where the
    flags end. *)
Definition flag_arg (s : string) : FlagError + option (string * option string) :=
  match s with
  | String d (String c t) =>
    if negb (Ascii.eqb d "-") then inr None else
    if Ascii.eqb c "-" && bool_decide (t = ""%string) then inr None else
    let name := if Ascii.eqb c "-" then t else String c t in
    match name with
    | EmptyString => inl (FlagSyntax s)
    | String n _ =>
      if Ascii.eqb n "-" || Ascii.eqb n "=" then inl (FlagSyntax s) else
      let '(name, value, has) := cut_at "=" name in inr (Some (name, if has then Some value else None))
    end
  | _ => inr None
  end.

(** The flags a command line sets, in order, up to the first that is malformed;
    [isBool] answers for a defined flag whether it is boolean. *)
Fixpoint lex (isBool : string → option bool) (args : list string) : list (string * string) * option FlagError :=
  match args with
  | [] => ([], None)
  | s :: args =>
    match flag_arg s with
    | inl err => ([], Some err)
    | inr None => ([], None)
    | inr (Some (name, value)) =>
      let set v args := let '(l, err) := lex isBool args in ((name, v) :: l, err) in
      match isBool name with
      | None => ([], Some (if bool_decide (name ∈ ["help"; "h"]%string) then FlagHelp else FlagUnknown name))
      | Some true => set (default "true"%string value) args
      | Some false =>
        match value, args with
        | Some v, _ => set v args
        | None, [] => ([], Some (FlagNeedsArgument name))
        | None, v :: args => let '(l, err) := lex isBool args in ((name, v) :: l, err)
        end
      end
    end
  end.

(** Runs against what Go answers. *)
Example ParseInt0_runs : ParseInt0 <$> ["0"; "-12"; "+7"; "0x1F"; "0b101"; "017"; "0o17"; "1_000"; "1__0"; "0x_f"; "_1"; "9223372036854775808"; "-9223372036854775808"; ""; "08"]%string =
  [Some 0; Some (-12); Some 7; Some 31; Some 5; Some 15; Some 15; Some 1000; None; Some 15; None; None; Some (-9223372036854775808); None; None].
Proof. vm_compute. reflexivity. Qed.
Example ParseDuration_runs : ParseDuration <$> ["30s"; "1h15m30.918273645s"; "-1.5h"; ".5m"; "0"; "1"; "1d"; "9223372036854775807ns"; "9223372036854775808ns"; "-9223372036854775808ns"; "0.3333333333333333333h"; "1.s"; ".s"; "3000000h"]%string =
  [Some 30000000000; Some 4530918273645; Some (-5400000000000); Some 30000000000; Some 0; None; None; Some 9223372036854775807; None; Some (-9223372036854775808); Some 1200000000000; Some 1000000000; None; None].
Proof. vm_compute. reflexivity. Qed.
Example ParseFloat_runs : ParseFloat <$> ["0.9"; "1"; "1e3"; ".5"; "0x1p-1"; "-0"; "1_0"; "NaN"; "+inf"; "infi"; "1e400"; "1e"; "x"; "5e-324"; "2e-324"; "1.7976931348623157e308"; "1.7976931348623159e308"]%string =
  [Some f64_0_9; Some f64_one; Some (f64_of_int 1000); Some (f64_make 1 (-1)); Some (f64_make 1 (-1)); Some (S754_zero true); Some (f64_of_int 10); Some S754_nan; Some (S754_infinity false); None; None; None; None;
   Some (f64_make 1 (-1074)); Some f64_zero; Some (f64_make 9007199254740991 971); None].
Proof. vm_compute. reflexivity. Qed.

(** ** base64, [RawURLEncoding] *)

Definition byte_Z (c : ascii) : Z := Z.of_N (N_of_ascii c).
Definition Z_byte (z : Z) : ascii := ascii_of_N (Z.to_N z).

(** The sixty-four digits. *)
Definition enc6 (n : Z) : ascii :=
  Z_byte (if n <? 26 then 65 + n else if n <? 52 then 97 + (n - 26) else if n <? 62 then 48 + (n - 52) else if n =? 62 then 45 else 95).
Definition dec6 (c : ascii) : option Z :=
  let b := byte_Z c in
  if (65 <=? b) && (b <=? 90) then Some (b - 65)
  else if (97 <=? b) && (b <=? 122) then Some (b - 97 + 26)
  else if (48 <=? b) && (b <=? 57) then Some (b - 48 + 52)
  else if b =? 45 then Some 62 else if b =? 95 then Some 63 else None.

Fixpoint encode_bytes (l : list ascii) : list ascii :=
  match l with
  | [] => []
  | [a] => [enc6 (byte_Z a / 4); enc6 (byte_Z a mod 4 * 16)]
  | [a; b] => [enc6 (byte_Z a / 4); enc6 (byte_Z a mod 4 * 16 + byte_Z b / 16); enc6 (byte_Z b mod 16 * 4)]
  | a :: b :: c :: l =>
    enc6 (byte_Z a / 4) :: enc6 (byte_Z a mod 4 * 16 + byte_Z b / 16) :: enc6 (byte_Z b mod 16 * 4 + byte_Z c / 64) :: enc6 (byte_Z c mod 64) :: encode_bytes l
  end.
Fixpoint decode_digits (l : list ascii) : option (list ascii) :=
  match l with
  | [] => Some []
  | [_] => None
  | [a; b] => x ← dec6 a; y ← dec6 b; Some [Z_byte (x * 4 + y / 16)]
  | [a; b; c] => x ← dec6 a; y ← dec6 b; z ← dec6 c; Some [Z_byte (x * 4 + y / 16); Z_byte (y mod 16 * 16 + z / 4)]
  | a :: b :: c :: d :: l =>
    x ← dec6 a; y ← dec6 b; z ← dec6 c; w ← dec6 d; r ← decode_digits l;
    Some (Z_byte (x * 4 + y / 16) :: Z_byte (y mod 16 * 16 + z / 4) :: Z_byte (z mod 4 * 64 + w) :: r)
  end.
Definition line_end (c : ascii) : bool := (byte_Z c =? 10) || (byte_Z c =? 13).

Definition EncodeToString (s : string) : string := string_of_list (encode_bytes (list_of_string s)).
Definition DecodeString (s : string) : option string :=
  string_of_list <$> decode_digits (base.filter (λ c, line_end c = false) (list_of_string s)).

(** ** Round trip *)

Lemma digits_ok n : 0 <= n < 64 → dec6 (enc6 n) = Some n ∧ line_end (enc6 n) = false.
Proof.
  intros Hn. assert (forallb (λ n, bool_decide (dec6 (enc6 n) = Some n) && negb (line_end (enc6 n))) (seqZ 0 64) = true) as Hall by (vm_compute; reflexivity).
  rewrite forallb_forall in Hall. specialize (Hall n). rewrite andb_true_iff bool_decide_eq_true negb_true_iff in Hall.
  apply Hall, list_elem_of_In, elem_of_seqZ. lia.
Qed.
Lemma byte_range c : 0 <= byte_Z c < 256.
Proof. unfold byte_Z. pose proof (N_ascii_bounded c). lia. Qed.
Lemma byte_back c z : z = byte_Z c → Z_byte z = c.
Proof. intros ->. unfold Z_byte, byte_Z. rewrite N2Z.id. apply ascii_N_embedding. Qed.

(** Three bytes at a time. *)
Lemma by_threes (P : list ascii → Prop) : P [] → (∀ a, P [a]) → (∀ a b, P [a; b]) → (∀ a b c l, P l → P (a :: b :: c :: l)) → ∀ l, P l.
Proof. intros H0 H1 H2 H3. fix IH 1. intros [|a [|b [|c l]]]; [exact H0|exact (H1 a)|exact (H2 a b)|exact (H3 a b c l (IH l))]. Qed.

(** The digits of bytes, and the bytes of digits. *)
Ltac sextets := repeat match goal with |- context [byte_Z ?c] => pose proof (byte_range c); generalize dependent (byte_Z c); intros ? ? end;
  Z.div_mod_to_equations; lia.
Lemma encode_no_line_end l : base.filter (λ c, line_end c = false) (encode_bytes l) = encode_bytes l.
Proof.
  induction l as [|a|a b|a b c l IH] using by_threes; cbn [encode_bytes]; [done|..];
    repeat (rewrite filter_cons_True; [f_equal|apply digits_ok; sextets]); done.
Qed.
Lemma digits_roundtrip l : decode_digits (encode_bytes l) = Some l.
Proof.
  induction l as [|a|a b|a b c l IH] using by_threes; cbn [encode_bytes decode_digits]; [done|..];
    repeat (rewrite (proj1 (digits_ok _ _)); [|sextets]); cbn [mbind option_bind]; rewrite ?IH; cbn [mbind option_bind];
    repeat f_equal; apply byte_back; sextets.
Qed.

Lemma list_string_list l : list_of_string (string_of_list l) = l.
Proof. induction l as [|c l IH]; [done|]. simpl. by rewrite IH. Qed.
Lemma string_list_string s : string_of_list (list_of_string s) = s.
Proof. induction s as [|c s IH]; [done|]. simpl. by rewrite IH. Qed.

Lemma decode_encode_string s : DecodeString (EncodeToString s) = Some s.
Proof. unfold DecodeString, EncodeToString. by rewrite list_string_list encode_no_line_end digits_roundtrip /= string_list_string. Qed.
Lemma encode_nonempty s : s ≠ ""%string → EncodeToString s ≠ ""%string.
Proof. destruct s as [|a [|b [|c s]]]; [done|..]; intros _ E; by apply (f_equal list_of_string) in E; rewrite list_string_list in E. Qed.

Example base64_runs : EncodeToString <$> ["f"; "fo"; "foo"; "foob"; "??>"]%string = ["Zg"; "Zm8"; "Zm9v"; "Zm9vYg"; "Pz8-"]%string ∧
  DecodeString <$> ["Zm9v"; "Z"; "Zg=="; "Zh"]%string = [Some "foo"; None; None; Some "f"]%string.
Proof. split; vm_compute; reflexivity. Qed.

(** ** [sort.Search] *)

(** The least index from [i] up to [j] at which [f] holds, if it is monotone. *)
Fixpoint search_go (fuel : nat) (f : nat → bool) (i j : nat) : nat :=
  match fuel with
  | O => i
  | S fuel =>
    if (i <? j)%nat then
      let h := ((i + j) / 2)%nat in
      if f h then search_go fuel f i h else search_go fuel f (S h) j
    else i
  end.
(** Each turn at least halves the range, so [n] turns are enough. *)
Definition Search (n : nat) (f : nat → bool) : nat := search_go n f 0 n.

Section search.
Context (f : nat → bool).
Hypothesis Hmono : ∀ i j, (i <= j)%nat → f i = true → f j = true.

Lemma search_go_spec fuel : ∀ i j, (i <= j)%nat → (j - i <= fuel)%nat → (∀ k, (k < i)%nat → f k = false) → (∀ k, (j <= k)%nat → f k = true) →
  let r := search_go fuel f i j in (∀ k, (k < r)%nat → f k = false) ∧ ∀ k, (r <= k)%nat → f k = true.
Proof.
  induction fuel as [|fuel IH]; intros i j Hij Hf Hlo Hhi; cbn [search_go]; [split; [done|]; intros k Hk; apply Hhi; lia|].
  destruct (Nat.ltb_spec i j) as [Hlt|]; [|split; [done|]; intros k Hk; apply Hhi; lia].
  pose proof (Nat.Div0.div_lt_upper_bound (i + j) 2 j) as Hh. pose proof (Nat.div_le_lower_bound (i + j) 2 i) as Hl.
  cbv zeta. set (h := ((i + j) / 2)%nat) in *. clearbody h. destruct (f h) eqn:E.
  - apply IH; [lia..|done|]. intros k Hk. by apply (Hmono h).
  - apply IH; [lia..| |done]. intros k Hk. destruct (f k) eqn:Ek; [|done]. rewrite (Hmono k h) // in E; lia.
Qed.
Lemma Search_spec n : (∀ k, (n <= k)%nat → f k = true) → (∀ k, (k < Search n f)%nat → f k = false) ∧ ∀ k, (Search n f <= k)%nat → f k = true.
Proof. intros Hn. apply search_go_spec; [lia..|done]. Qed.
End search.
