(* ===== verification/Configuration.v ===== *)
(** * Configuration: internal/config/config.go

    The configuration struct as its fields by type, the layers that fill it (defaults, file,
    environment, command line), the production lockdown and the validation. What decoding a
    YAML file does to a configuration is an argument. *)
From S2P Require Import Prelude GoStd Tenant Auth Projection Canonical GoParse.
Open Scope Z_scope.

(** ** The struct *)

Inductive StrField :=
| Listen | OTLPListen | DataDir | LogFormat | LogLevel | TenantTrustMode
| TLSCertFile | TLSKeyFile | TLSClientCAFile | AuditLog | BackupDir | LogShipDir
| LogShipS3Endpoint | LogShipS3Bucket | LogShipS3Region | LogShipS3Prefix | LogShipS3AccessKey | LogShipS3SecretKey
| OIDCIssuer | OIDCAudience | OIDCTenantClaim | OIDCRoleClaim.
Inductive IntField := OTLPMaxRecvBytes | MaxTenants.
Inductive BoolField :=
| MCPStdio | Production | GraphQLIntrospection | Playground | DebugUI | AcceptUnknownTypes | AllowUnauthenticatedWrites
| TenantAutoCreate | MetricsPublic | TLSTerminatedUpstream | IngestMTLSOnly | LogShipS3UseSSL.
Inductive DurField :=
| RelationBufferTTL | LivenessSweepInterval | ResurrectionGrace | RetentionMaxAge | CompactionInterval | SnapshotInterval
| BackupInterval | LogShipInterval.
Inductive ListField :=
| TenantRetentionMaxAge | TenantNames | AllowedOrigins | ProductionOverrides | TenantAllowlist | AuthTokens | ReadTokens | IngestTokens
| TenantTokens | TenantReadTokens | TenantIngestTokens.
#[export] Instance StrField_eq_dec : EqDecision StrField. Proof. solve_decision. Defined.
#[export] Instance IntField_eq_dec : EqDecision IntField. Proof. solve_decision. Defined.
#[export] Instance BoolField_eq_dec : EqDecision BoolField. Proof. solve_decision. Defined.
#[export] Instance DurField_eq_dec : EqDecision DurField. Proof. solve_decision. Defined.
#[export] Instance ListField_eq_dec : EqDecision ListField. Proof. solve_decision. Defined.

Record Config := mkConfig {
  c_str : StrField → string;
  c_int : IntField → Z;
  c_bool : BoolField → bool;
  c_dur : DurField → Duration;
  c_list : ListField → list string;
  c_threshold : float64;   (* IdentityThreshold *)
}.
Definition upd {K V} `{!EqDecision K} (k : K) (v : V) (f : K → V) : K → V := λ k', if decide (k' = k) then v else f k'.

(** A field, and what one holds. *)
Inductive Field := FStr (f : StrField) | FInt (f : IntField) | FBool (f : BoolField) | FDur (f : DurField) | FList (f : ListField) | FThreshold.
#[export] Instance Field_eq_dec : EqDecision Field. Proof. solve_decision. Defined.
Inductive FieldValue := VStr (s : string) | VInt (z : Z) | VBool (b : bool) | VDur (d : Duration) | VList (l : list string) | VFloat (f : float64).

Definition get (f : Field) (c : Config) : FieldValue :=
  match f with
  | FStr f => VStr (c_str c f) | FInt f => VInt (c_int c f) | FBool f => VBool (c_bool c f)
  | FDur f => VDur (c_dur c f) | FList f => VList (c_list c f) | FThreshold => VFloat (c_threshold c)
  end.
(** An assignment; of a value of another type, nothing. *)
Definition put (f : Field) (v : FieldValue) (c : Config) : Config :=
  match f, v with
  | FStr f, VStr s => mkConfig (upd f s (c_str c)) (c_int c) (c_bool c) (c_dur c) (c_list c) (c_threshold c)
  | FInt f, VInt z => mkConfig (c_str c) (upd f z (c_int c)) (c_bool c) (c_dur c) (c_list c) (c_threshold c)
  | FBool f, VBool b => mkConfig (c_str c) (c_int c) (upd f b (c_bool c)) (c_dur c) (c_list c) (c_threshold c)
  | FDur f, VDur d => mkConfig (c_str c) (c_int c) (c_bool c) (upd f d (c_dur c)) (c_list c) (c_threshold c)
  | FList f, VList l => mkConfig (c_str c) (c_int c) (c_bool c) (c_dur c) (upd f l (c_list c)) (c_threshold c)
  | FThreshold, VFloat x => mkConfig (c_str c) (c_int c) (c_bool c) (c_dur c) (c_list c) x
  | _, _ => c
  end.

(** ** Defaults *)

Definition Default : Config := {|
  c_str f := match f with
    | Listen => "127.0.0.1:8080" | OTLPListen => "127.0.0.1:4317" | DataDir => "toise-data"
    | LogFormat => "text" | LogLevel => "info" | TenantTrustMode => "trust-header" | _ => "" end%string;
  c_int f := 0;
  c_bool f := match f with
    | GraphQLIntrospection | Playground | DebugUI | TenantAutoCreate | AllowUnauthenticatedWrites | LogShipS3UseSSL => true
    | _ => false end;
  c_dur f := match f with
    | RelationBufferTTL | LivenessSweepInterval => 30 * second
    | CompactionInterval => 3600 * second | SnapshotInterval => 300 * second | _ => 0 end;
  c_list f := [];
  c_threshold := f64_0_9;
|}.

Inductive ConfigError :=
| BadFile (path msg : string)
| BadEnv (name value : string)
| BadFlags (err : FlagError)
| BadConfig (problem : string).

(** ** The environment *)

Definition splitOrigins (s : string) : list string :=
  base.filter (λ p, p ≠ ""%string) (TrimSpace <$> split_at "," s).

(** A variable's text as a field's value. *)
Definition parse_env (f : Field) (v : string) : option FieldValue :=
  match f with
  | FStr _ => Some (VStr v)
  | FInt _ => VInt <$> Atoi v
  | FBool _ => VBool <$> ParseBool v
  | FDur _ => VDur <$> ParseDuration v
  | FList _ => Some (VList (splitOrigins v))
  | FThreshold => VFloat <$> ParseFloat v
  end.

(** The variables in the order they are read. *)
Definition env_vars : list (string * Field) := [
  ("TOISE_LISTEN", FStr Listen); ("TOISE_OTLP_LISTEN", FStr OTLPListen); ("TOISE_DATA_DIR", FStr DataDir);
  ("TOISE_LOG_FORMAT", FStr LogFormat); ("TOISE_LOG_LEVEL", FStr LogLevel); ("TOISE_TENANT_TOKENS", FList TenantTokens);
  ("TOISE_TENANT_READ_TOKENS", FList TenantReadTokens); ("TOISE_TENANT_INGEST_TOKENS", FList TenantIngestTokens);
  ("TOISE_ACCEPT_UNKNOWN_TYPES", FBool AcceptUnknownTypes); ("TOISE_METRICS_PUBLIC", FBool MetricsPublic);
  ("TOISE_TENANT_AUTO_CREATE", FBool TenantAutoCreate); ("TOISE_TENANT_RETENTION_MAX_AGE", FList TenantRetentionMaxAge);
  ("TOISE_TENANT_NAMES", FList TenantNames); ("TOISE_TENANT_ALLOWLIST", FList TenantAllowlist);
  ("TOISE_TENANT_TRUST_MODE", FStr TenantTrustMode); ("TOISE_MAX_TENANTS", FInt MaxTenants);
  ("TOISE_OTLP_MAX_RECV_BYTES", FInt OTLPMaxRecvBytes); ("TOISE_MCP_STDIO", FBool MCPStdio);
  ("TOISE_RELATION_BUFFER_TTL", FDur RelationBufferTTL); ("TOISE_LIVENESS_SWEEP_INTERVAL", FDur LivenessSweepInterval);
  ("TOISE_RESURRECTION_GRACE", FDur ResurrectionGrace); ("TOISE_RETENTION_MAX_AGE", FDur RetentionMaxAge);
  ("TOISE_RETENTION_COMPACTION_INTERVAL", FDur CompactionInterval); ("TOISE_SNAPSHOT_INTERVAL", FDur SnapshotInterval);
  ("TOISE_BACKUP_INTERVAL", FDur BackupInterval); ("TOISE_LOG_SHIPPING_INTERVAL", FDur LogShipInterval);
  ("TOISE_PRODUCTION", FBool Production); ("TOISE_GRAPHQL_INTROSPECTION", FBool GraphQLIntrospection);
  ("TOISE_PLAYGROUND", FBool Playground); ("TOISE_DEBUG_UI", FBool DebugUI); ("TOISE_INGEST_MTLS_ONLY", FBool IngestMTLSOnly);
  ("TOISE_ALLOW_UNAUTHENTICATED_WRITES", FBool AllowUnauthenticatedWrites); ("TOISE_TLS_TERMINATED_UPSTREAM", FBool TLSTerminatedUpstream);
  ("TOISE_ALLOWED_ORIGINS", FList AllowedOrigins); ("TOISE_AUTH_TOKENS", FList AuthTokens); ("TOISE_READ_TOKENS", FList ReadTokens);
  ("TOISE_INGEST_TOKENS", FList IngestTokens); ("TOISE_OIDC_ISSUER", FStr OIDCIssuer); ("TOISE_OIDC_AUDIENCE", FStr OIDCAudience);
  ("TOISE_OIDC_TENANT_CLAIM", FStr OIDCTenantClaim); ("TOISE_OIDC_ROLE_CLAIM", FStr OIDCRoleClaim); ("TOISE_BACKUP_DIR", FStr BackupDir);
  ("TOISE_LOG_SHIPPING_DIR", FStr LogShipDir); ("TOISE_LOG_SHIPPING_S3_ENDPOINT", FStr LogShipS3Endpoint);
  ("TOISE_LOG_SHIPPING_S3_BUCKET", FStr LogShipS3Bucket); ("TOISE_LOG_SHIPPING_S3_REGION", FStr LogShipS3Region);
  ("TOISE_LOG_SHIPPING_S3_PREFIX", FStr LogShipS3Prefix); ("TOISE_LOG_SHIPPING_S3_USE_SSL", FBool LogShipS3UseSSL);
  ("TOISE_LOG_SHIPPING_S3_ACCESS_KEY", FStr LogShipS3AccessKey); ("TOISE_LOG_SHIPPING_S3_SECRET_KEY", FStr LogShipS3SecretKey);
  ("TOISE_IDENTITY_CONFIDENCE_THRESHOLD", FThreshold); ("TOISE_AUDIT_LOG", FStr AuditLog); ("TOISE_TLS_CERT_FILE", FStr TLSCertFile);
  ("TOISE_TLS_CLIENT_CA_FILE", FStr TLSClientCAFile); ("TOISE_TLS_KEY_FILE", FStr TLSKeyFile)]%string.

Definition apply_var (getenv : string → string) (name : string) (f : Field) (c : Config) : ConfigError + Config :=
  let v := getenv name in
  if bool_decide (v = ""%string) then inr c else
  match parse_env f v with Some x => inr (put f x c) | None => inl (BadEnv name v) end.
Fixpoint apply_vars (getenv : string → string) (vars : list (string * Field)) (c : Config) : ConfigError + Config :=
  match vars with
  | [] => inr c
  | (name, f) :: vars => match apply_var getenv name f c with inl err => inl err | inr c => apply_vars getenv vars c end
  end.
Definition applyEnv (getenv : string → string) (c : Config) : ConfigError + Config := apply_vars getenv env_vars c.

(** ** The command line *)

(** The flags; the file's path is no field. *)
Definition flag_defs : list (string * option Field) := [
  ("config", None); ("listen", Some (FStr Listen)); ("otlp-listen", Some (FStr OTLPListen)); ("otlp-max-recv-bytes", Some (FInt OTLPMaxRecvBytes));
  ("data-dir", Some (FStr DataDir)); ("mcp-stdio", Some (FBool MCPStdio)); ("relation-buffer-ttl", Some (FDur RelationBufferTTL));
  ("liveness-sweep-interval", Some (FDur LivenessSweepInterval)); ("resurrection-grace", Some (FDur ResurrectionGrace));
  ("retention-max-age", Some (FDur RetentionMaxAge)); ("retention-compaction-interval", Some (FDur CompactionInterval));
  ("snapshot-interval", Some (FDur SnapshotInterval)); ("log-format", Some (FStr LogFormat)); ("log-level", Some (FStr LogLevel));
  ("production", Some (FBool Production)); ("graphql-introspection", Some (FBool GraphQLIntrospection)); ("playground", Some (FBool Playground));
  ("debug-ui", Some (FBool DebugUI)); ("allowed-origins", Some (FList AllowedOrigins)); ("accept-unknown-types", Some (FBool AcceptUnknownTypes));
  ("allow-unauthenticated-writes", Some (FBool AllowUnauthenticatedWrites)); ("tenant-auto-create", Some (FBool TenantAutoCreate));
  ("tenant-allowlist", Some (FList TenantAllowlist)); ("tenant-names", Some (FList TenantNames)); ("max-tenants", Some (FInt MaxTenants));
  ("tenant-trust-mode", Some (FStr TenantTrustMode)); ("oidc-issuer", Some (FStr OIDCIssuer)); ("oidc-audience", Some (FStr OIDCAudience));
  ("oidc-tenant-claim", Some (FStr OIDCTenantClaim)); ("oidc-role-claim", Some (FStr OIDCRoleClaim)); ("backup-dir", Some (FStr BackupDir));
  ("backup-interval", Some (FDur BackupInterval)); ("log-shipping-dir", Some (FStr LogShipDir)); ("log-shipping-interval", Some (FDur LogShipInterval));
  ("identity-confidence-threshold", Some FThreshold); ("audit-log", Some (FStr AuditLog)); ("tls-cert-file", Some (FStr TLSCertFile));
  ("tls-key-file", Some (FStr TLSKeyFile)); ("tls-client-ca-file", Some (FStr TLSClientCAFile)); ("ingest-mtls-only", Some (FBool IngestMTLSOnly));
  ("tls-terminated-upstream", Some (FBool TLSTerminatedUpstream))]%string.
Definition find_flag (name : string) : option (option Field) := snd <$> find (λ d, bool_decide (d.1 = name)) flag_defs.
Definition flag_isBool (name : string) : option bool :=
  match find_flag name with Some (Some (FBool _)) => Some true | Some _ => Some false | None => None end.

(** The variables behind the flags: the fields, and of the lists the joined text. *)
Record FlagSet := mkFlagSet { fl_cfg : Config; fl_text : ListField → string }.
(** Each flag's default is the value resolved so far. *)
Definition seed (c : Config) : FlagSet := mkFlagSet c (λ f, Join "," (c_list c f)).

Definition parse_flag (f : Field) (v : string) : option FieldValue :=
  match f with FInt _ => VInt <$> ParseInt0 v | _ => parse_env f v end.
Definition set_flag (name v : string) (fs : FlagSet) : FlagError + FlagSet :=
  match find_flag name with
  | Some (Some (FList f)) => inr (mkFlagSet (fl_cfg fs) (upd f v (fl_text fs)))
  | Some (Some f) => match parse_flag f v with Some x => inr (mkFlagSet (put f x (fl_cfg fs)) (fl_text fs)) | None => inl (FlagInvalid name v) end
  | _ => inr fs
  end.
Fixpoint set_flags (l : list (string * string)) (fs : FlagSet) : FlagError + FlagSet :=
  match l with [] => inr fs | (name, v) :: l => match set_flag name v fs with inl err => inl err | inr fs => set_flags l fs end end.
Definition Parse (args : list string) (fs : FlagSet) : FlagError + FlagSet :=
  let '(l, err) := lex flag_isBool args in
  match set_flags l fs with
  | inl e => inl e
  | inr fs => match err with Some e => inl e | None => inr fs end
  end.

(** The lists that have a flag are read back from its text. *)
Definition flag_lists : list ListField := [AllowedOrigins; TenantAllowlist; TenantNames].
Definition collect (fs : FlagSet) : Config := foldl (λ c f, put (FList f) (VList (splitOrigins (fl_text fs f))) c) (fl_cfg fs) flag_lists.

(** The first file named on the command line. *)
Fixpoint configPathFromArgs (args : list string) : option string :=
  match args with
  | [] => None
  | a :: args =>
    if bool_decide (a ∈ ["-config"; "--config"]%string) then
      match args with p :: _ => Some p | [] => None end
    else if String.prefix "-config=" a then Some (str_drop 8 a)
    else if String.prefix "--config=" a then Some (str_drop 9 a)
    else configPathFromArgs args
  end.

(** ** Resolution *)

Definition toggles : list (string * BoolField) :=
  [("graphql_introspection", GraphQLIntrospection); ("playground", Playground); ("debug_ui", DebugUI); ("allow_unauthenticated_writes", AllowUnauthenticatedWrites)]%string.
Definition lock (c : Config) (t : string * BoolField) : Config :=
  if c_bool c t.2 then put (FBool t.2) (VBool false) (put (FList ProductionOverrides) (VList (c_list c ProductionOverrides ++ [t.1])) c) else c.
Definition lockdown (c : Config) : Config := if c_bool c Production then foldl lock c toggles else c.

Section resolve.
(** Reading the file and decoding it onto a configuration: the message of a failure, or
    the result. *)
Variable decode : string → Config → string + Config.

Definition applyFile (path : string) (c : Config) : ConfigError + Config :=
  match decode path c with inl msg => inl (BadFile path msg) | inr c => inr c end.

Definition resolve (args : list string) (getenv : string → string) : ConfigError + Config :=
  let path := default (getenv "TOISE_CONFIG"%string) (configPathFromArgs args) in
  match (if bool_decide (path = ""%string) then inr Default else applyFile path Default) with
  | inl err => inl err
  | inr c =>
    match applyEnv getenv c with
    | inl err => inl err
    | inr c =>
      match Parse args (seed c) with
      | inl err => inl (BadFlags err)
      | inr fs => inr (lockdown (collect fs))
      end
    end
  end.
End resolve.

(** ** Validation *)

Definition TLSEnabled (c : Config) : bool := negb (bool_decide (c_str c TLSCertFile = ""%string)) && negb (bool_decide (c_str c TLSKeyFile = ""%string)).
Definition LogShipS3Enabled (c : Config) : bool := negb (bool_decide (c_str c LogShipS3Bucket = ""%string)).
Definition LogShipEnabled (c : Config) : bool :=
  (negb (bool_decide (c_str c LogShipDir = ""%string)) || LogShipS3Enabled c) && (0 <? c_dur c LogShipInterval).
Definition DeriveOnlyTenancy (c : Config) : bool := bool_decide (c_str c TenantTrustMode = "derive-only"%string).
Definition OIDCEnabled (c : Config) : bool := negb (bool_decide (c_str c OIDCIssuer = ""%string)).

(** The pairs of a list, by tenant; [parse] reads what follows the colon. *)
Fixpoint pairs_map {A} (parse : string → option A) (pairs : list string) (out : gmap string A) : option (gmap string A) :=
  match pairs with
  | [] => Some out
  | entry :: pairs =>
    let '(id, raw, found) := cut_at ":" entry in
    if negb found || negb (bool_decide (Sanitize id = Some id)) then None else
    match parse raw with
    | None => None
    | Some x => if bool_decide (is_Some (out !! id)) then None else pairs_map parse pairs (<[id := x]> out)
    end
  end.
Definition TenantRetentionMap (c : Config) : option (gmap string Duration) :=
  pairs_map (λ raw, d ← ParseDuration (TrimSpace raw); if d <=? 0 then None else Some d) (c_list c TenantRetentionMaxAge) ∅.
Definition maxNameLen : nat := 64.
Definition TenantNamesMap (c : Config) : option (gmap string string) :=
  pairs_map (λ raw, let name := TrimSpace raw in
    if bool_decide (name = ""%string) || (maxNameLen <? String.length name)%nat then None else Some name) (c_list c TenantNames) ∅.

Definition has_space (s : string) : bool := negb (str_forall (λ c, negb (bool_decide (c ∈ [" "%char; ascii_of_N 9; ascii_of_N 13; ascii_of_N 10]))) s).
Definition no_tokens (c : Config) (f : ListField) : bool := bool_decide (c_list c f = []).
Definition readAuth (c : Config) : bool :=
  negb (no_tokens c AuthTokens) || negb (no_tokens c ReadTokens) || negb (no_tokens c TenantTokens) || negb (no_tokens c TenantReadTokens) || OIDCEnabled c.

(** The first thing refused. *)
Definition Validate (c : Config) : option string :=
  let unset f := bool_decide (c_str c f = ""%string) in
  if negb (Bool.eqb (unset TLSCertFile) (unset TLSKeyFile)) then Some "half-set TLS"%string else
  if negb (unset TLSClientCAFile) && negb (TLSEnabled c) then Some "tls_client_ca_file without TLS"%string else
  if c_bool c IngestMTLSOnly && unset TLSClientCAFile then Some "ingest_mtls_only without tls_client_ca_file"%string else
  if c_bool c IngestMTLSOnly && negb (readAuth c) then Some "ingest_mtls_only leaves the read surfaces open"%string else
  if c_bool c IngestMTLSOnly && DeriveOnlyTenancy c then Some "ingest_mtls_only with derive-only"%string else
  if (0 <? c_dur c RetentionMaxAge) && (c_dur c CompactionInterval <=? 0) then Some "retention without compaction"%string else
  if negb (unset BackupDir) && (c_dur c BackupInterval <=? 0) then Some "backup_dir without interval"%string else
  if negb (unset LogShipDir) && (c_dur c LogShipInterval <=? 0) then Some "log_shipping_dir without interval"%string else
  if LogShipS3Enabled c && negb (unset LogShipDir) then Some "two shipping targets"%string else
  if LogShipS3Enabled c && (c_dur c LogShipInterval <=? 0) then Some "log_shipping_s3_bucket without interval"%string else
  if LogShipS3Enabled c && unset LogShipS3Endpoint then Some "log_shipping_s3_bucket without endpoint"%string else
  if f64_le (c_threshold c) f64_zero || f64_lt f64_one (c_threshold c) then Some "identity_confidence_threshold"%string else
  if negb (bool_decide (ToLower (c_str c LogLevel) ∈ ["debug"; "info"; "warn"; "warning"; "error"]%string)) then Some "log_level"%string else
  if negb (bool_decide (ToLower (c_str c LogFormat) ∈ ["text"; "json"]%string)) then Some "log_format"%string else
  match TenantNamesMap c with None => Some "tenant_names"%string | Some _ =>
  match parseTenantTokens (c_list c TenantTokens) with None => Some "tenant_tokens"%string | Some _ =>
  match parseTenantTokens (c_list c TenantReadTokens) with None => Some "tenant_read_tokens"%string | Some _ =>
  match parseTenantTokens (c_list c TenantIngestTokens) with None => Some "tenant_ingest_tokens"%string | Some _ =>
  if c_int c MaxTenants <? 0 then Some "max_tenants"%string else
  if negb (bool_decide (c_str c TenantTrustMode ∈ [""; "trust-header"; "derive-only"]%string)) then Some "tenant_trust_mode"%string else
  if existsb (λ t, bool_decide (t = ""%string) || has_space t) (c_list c TenantAllowlist) then Some "tenant_allowlist"%string else
  None end end end end.

Definition Load (decode : string → Config → string + Config) (args : list string) (getenv : string → string) : ConfigError + Config :=
  match resolve decode args getenv with
  | inl err => inl err
  | inr c => match Validate c with Some problem => inl (BadConfig problem) | None => inr c end
  end.
Definition LoadCold (decode : string → Config → string + Config) (args : list string) (getenv : string → string) : ConfigError + Config := resolve decode args getenv.

Inductive Level := LevelDebug | LevelInfo | LevelWarn | LevelError.
Definition SlogLevel (c : Config) : Level :=
  let l := ToLower (c_str c LogLevel) in
  if bool_decide (l = "debug"%string) then LevelDebug
  else if bool_decide (l ∈ ["warn"; "warning"]%string) then LevelWarn
  else if bool_decide (l = "error"%string) then LevelError else LevelInfo.
