(* ===== verification/ConfigSpec.v ===== *)
(** * Properties of the configuration

    What each field of a resolved configuration is, from the layers; what the production
    profile and the validation give the server that is built from it. *)
From S2P Require Import Prelude GoStd Tenant Auth Serving AuthSpec Projection Sink GoParse Configuration.
Open Scope Z_scope.

(** ** Fields *)

Definition typed (f : Field) (v : FieldValue) : bool :=
  match f, v with
  | FStr _, VStr _ | FInt _, VInt _ | FBool _, VBool _ | FDur _, VDur _ | FList _, VList _ | FThreshold, VFloat _ => true
  | _, _ => false
  end.
Lemma get_put f v c : typed f v = true → get f (put f v c) = v.
Proof. destruct f, v; try done; intros _; cbn; unfold upd; by rewrite ?decide_True. Qed.
Lemma get_put_ne f g v c : g ≠ f → get g (put f v c) = get g c.
Proof. destruct f, v; try done; destruct g; try done; cbn; unfold upd; intros Hne; rewrite ?decide_False //; congruence. Qed.

Lemma parse_env_typed f s v : parse_env f s = Some v → typed f v = true.
Proof. destruct f; cbn; intros H; first [by injection H as <- | by apply fmap_Some in H as (x & _ & ->)]. Qed.
Lemma parse_flag_typed f s v : parse_flag f s = Some v → typed f v = true.
Proof. destruct f; first [apply parse_env_typed | cbn; by intros (x & _ & ->)%fmap_Some]. Qed.

(** ** The environment *)

(** What the environment says of a field. *)
Definition env_in (getenv : string → string) (vars : list (string * Field)) (f : Field) : option FieldValue :=
  match find (λ x, bool_decide (x.2 = f)) vars with
  | Some (name, _) => if bool_decide (getenv name = ""%string) then None else parse_env f (getenv name)
  | None => None
  end.
Definition env_value (getenv : string → string) (f : Field) : option FieldValue := env_in getenv env_vars f.

Lemma apply_var_get getenv name f c c' : apply_var getenv name f c = inr c' →
  (∀ g, g ≠ f → get g c' = get g c) ∧
  get f c' = default (get f c) (if bool_decide (getenv name = ""%string) then None else parse_env f (getenv name)).
Proof.
  unfold apply_var. case_bool_decide; [by intros [= <-]|]. destruct (parse_env f (getenv name)) as [v|] eqn:E; intros [= <-]. split.
  - intros g Hg. by apply get_put_ne.
  - by apply get_put, (parse_env_typed _ _ _ E).
Qed.
Lemma apply_vars_other getenv vars : ∀ c c' f, apply_vars getenv vars c = inr c' → f ∉ vars.*2 → get f c' = get f c.
Proof.
  induction vars as [|[name g] vars IH]; intros c c' f; cbn [apply_vars]; [by intros [= <-]|].
  destruct (apply_var getenv name g c) as [err|c1] eqn:E; [done|]. intros H Hf. rewrite fmap_cons not_elem_of_cons in Hf. destruct Hf as [Hne Hf].
  rewrite (IH _ _ _ H Hf). by apply (apply_var_get _ _ _ _ _ E).
Qed.
Lemma apply_vars_get getenv vars : ∀ c c' f, NoDup vars.*2 → apply_vars getenv vars c = inr c' → get f c' = default (get f c) (env_in getenv vars f).
Proof.
  induction vars as [|[name g] vars IH]; intros c c' f Hnd; cbn [apply_vars]; [by intros [= <-]|].
  destruct (apply_var getenv name g c) as [err|c1] eqn:E; [done|]. intros H. apply NoDup_cons in Hnd as [Hnin Hnd].
  destruct (apply_var_get _ _ _ _ _ E) as [Hother Hsame]. unfold env_in. cbn [find snd]. destruct (decide (g = f)) as [->|Hg].
  - rewrite (bool_decide_eq_true_2 (f = f)) //. by rewrite (apply_vars_other _ _ _ _ _ H Hnin).
  - rewrite (bool_decide_eq_false_2 (g = f)) //. rewrite (IH _ _ _ Hnd H) Hother //.
Qed.
Lemma env_vars_NoDup : NoDup env_vars.*2.
Proof. by_decide. Qed.
Lemma applyEnv_get getenv c c' f : applyEnv getenv c = inr c' → get f c' = default (get f c) (env_value getenv f).
Proof. apply apply_vars_get, env_vars_NoDup. Qed.

(** ** The command line *)

(** The last text the command line gives a field. *)
Fixpoint last_flag (l : list (string * string)) (f : Field) : option string :=
  match l with
  | [] => None
  | (name, v) :: l =>
    match last_flag l f with
    | Some v => Some v
    | None => if bool_decide (find_flag name = Some (Some f)) then Some v else None
    end
  end.
Definition is_list (f : Field) : bool := match f with FList _ => true | _ => false end.

Lemma set_flag_field name v fs fs' g : find_flag name = Some (Some g) → is_list g = false → set_flag name v fs = inr fs' →
  ∃ x, parse_flag g v = Some x ∧ fs' = mkFlagSet (put g x (fl_cfg fs)) (fl_text fs).
Proof.
  unfold set_flag. intros -> Hg H. destruct g; try done; (destruct (parse_flag _ v) as [x|]; [|done]); injection H as <-; by exists x.
Qed.
Lemma set_flag_get name v fs fs' f : set_flag name v fs = inr fs' → is_list f = false →
  get f (fl_cfg fs') = default (get f (fl_cfg fs)) (if bool_decide (find_flag name = Some (Some f)) then parse_flag f v else None) ∧
  (find_flag name = Some (Some f) → is_Some (parse_flag f v)).
Proof.
  intros H Hf. destruct (decide (find_flag name = Some (Some f))) as [Ef|Ef].
  - destruct (set_flag_field _ _ _ _ _ Ef Hf H) as (x & Hx & ->). rewrite bool_decide_eq_true_2 // Hx. split; [|by eexists].
    cbn [fl_cfg default from_option]. by rewrite (get_put _ _ _ (parse_flag_typed _ _ _ Hx)).
  - rewrite bool_decide_eq_false_2 //. split; [|done]. cbn [default from_option]. destruct (find_flag name) as [[g|]|] eqn:Eg; [|unfold set_flag in H; rewrite Eg in H; by injection H as <-..].
    destruct (is_list g) eqn:Hg; [destruct g; try done; unfold set_flag in H; rewrite Eg in H; by injection H as <-|].
    destruct (set_flag_field _ _ _ _ _ Eg Hg H) as (x & _ & ->). cbn [fl_cfg]. apply get_put_ne. congruence.
Qed.
Lemma set_flag_text name v fs fs' f : set_flag name v fs = inr fs' →
  fl_text fs' f = (if bool_decide (find_flag name = Some (Some (FList f))) then v else fl_text fs f) ∧ get (FList f) (fl_cfg fs') = get (FList f) (fl_cfg fs).
Proof.
  intros H. destruct (find_flag name) as [[g|]|] eqn:Eg; [|unfold set_flag in H; rewrite Eg in H; by injection H as <-..].
  destruct (is_list g) eqn:Hg.
  - destruct g as [| | | |g|]; try done. unfold set_flag in H. rewrite Eg in H. injection H as <-. cbn [fl_cfg fl_text]. split; [|done].
    unfold upd. case_decide as Hf; case_bool_decide as Hb; naive_solver.
  - destruct (set_flag_field _ _ _ _ _ Eg Hg H) as (x & _ & ->). cbn [fl_cfg fl_text]. split; [|apply get_put_ne; by intros <-].
    rewrite bool_decide_eq_false_2 //. intros [= ->]. done.
Qed.

Lemma set_flags_get l : ∀ fs fs' f, set_flags l fs = inr fs' → is_list f = false →
  match last_flag l f with Some v => parse_flag f v = Some (get f (fl_cfg fs')) | None => get f (fl_cfg fs') = get f (fl_cfg fs) end.
Proof.
  induction l as [|[name v] l IH]; intros fs fs' f; cbn [set_flags last_flag]; [by intros [= <-]|].
  destruct (set_flag name v fs) as [err|fs1] eqn:E; [done|]. intros H Hf. specialize (IH _ _ f H Hf). destruct (set_flag_get _ _ _ _ f E Hf) as [Hget Hok].
  destruct (last_flag l f) as [w|]; [done|]. rewrite IH Hget. case_bool_decide as Hb; [|done]. by destruct (Hok Hb) as [x ->].
Qed.
Lemma set_flags_text l : ∀ fs fs' f, set_flags l fs = inr fs' →
  fl_text fs' f = default (fl_text fs f) (last_flag l (FList f)) ∧ get (FList f) (fl_cfg fs') = get (FList f) (fl_cfg fs).
Proof.
  induction l as [|[name v] l IH]; intros fs fs' f; cbn [set_flags last_flag]; [by intros [= <-]|].
  destruct (set_flag name v fs) as [err|fs1] eqn:E; [done|]. intros H. destruct (IH _ _ f H) as [-> ->]. destruct (set_flag_text _ _ _ _ f E) as [-> ->].
  split; [|done]. destruct (last_flag l (FList f)); [done|]. by case_bool_decide.
Qed.
Lemma collect_get fs f : get f (collect fs) =
  match f with FList g => if bool_decide (g ∈ flag_lists) then VList (splitOrigins (fl_text fs g)) else get f (fl_cfg fs) | _ => get f (fl_cfg fs) end.
Proof.
  unfold collect, flag_lists. cbn [foldl]. destruct f as [| | | |g|]; try (by rewrite !get_put_ne); [].
  destruct g; try (rewrite bool_decide_eq_false_2; [by rewrite !get_put_ne|by_decide]);
    (rewrite bool_decide_eq_true_2; [|by_decide]); by repeat first [rewrite get_put // | rewrite get_put_ne //].
Qed.

Lemma flag_lists_listed name g : find_flag name = Some (Some (FList g)) → g ∈ flag_lists.
Proof.
  unfold find_flag. intros (d & Hd & E)%fmap_Some. apply find_some in Hd as [Hin _]. apply list_elem_of_In in Hin.
  assert (Forall (λ d, match d.2 with Some (FList g) => g ∈ flag_lists | _ => True end) flag_defs) as Hall.
  { unfold flag_defs. repeat (apply Forall_cons_2; [first [exact I|by_decide]|]). apply Forall_nil_2. }
  rewrite Forall_forall in Hall. specialize (Hall d Hin). by rewrite -E in Hall.
Qed.
Lemma last_flag_listed l g s : last_flag l (FList g) = Some s → g ∈ flag_lists.
Proof.
  induction l as [|[name v] l IH]; cbn [last_flag]; [done|]. destruct (last_flag l (FList g)); [auto|]. case_bool_decide as Hf; [|done].
  intros _. by apply (flag_lists_listed name).
Qed.

(** ** The lists a flag reads back *)

(** A text that survives a comma-separated list. *)
Definition plain (s : string) : Prop := s ≠ ""%string ∧ TrimSpace s = s ∧ lacks "," s.
Lemma split_at_lacks c s : lacks c s → split_at c s = [s].
Proof.
  unfold lacks. induction s as [|d s IH]; [done|]. cbn [str_forall split_at]. intros [Hd Hs]%andb_true_iff. rewrite Ascii.eqb_sym. destruct (Ascii.eqb d c); [done|].
  by rewrite IH.
Qed.
Lemma split_at_some c s : ∃ p ps, split_at c s = p :: ps.
Proof. induction s as [|d s (p & ps & E)]; simpl; [by eexists _, _|]. rewrite E. destruct (Ascii.eqb c d); by eexists _, _. Qed.
Lemma split_at_app c s t : lacks c s → split_at c (s +++ String c t) = s :: split_at c t.
Proof.
  unfold lacks. induction s as [|d s IH]; simpl.
  { intros _. destruct (split_at_some c t) as (p & ps & E). by rewrite E Ascii.eqb_refl. }
  intros [Hd Hs]%andb_true_iff. rewrite Ascii.eqb_sym. destruct (Ascii.eqb d c); [done|]. by rewrite IH.
Qed.
Lemma splitOrigins_join l : Forall plain l → splitOrigins (Join "," l) = l.
Proof.
  unfold splitOrigins. induction 1 as [|x l (Hne & Htrim & Hlacks) Hl IH]; [vm_compute; reflexivity|].
  destruct l as [|y l].
  - cbn [Join]. rewrite split_at_lacks // fmap_cons Htrim. by rewrite filter_cons_True.
  - change (Join "," (x :: y :: l)) with (x +++ String "," (Join "," (y :: l))). rewrite split_at_app // fmap_cons Htrim filter_cons_True // IH //.
Qed.

(** ** Resolution *)

(** The configuration of the file, or the defaults. *)
Definition from_file (decode : string → Config → string + Config) (args : list string) (getenv : string → string) (base : Config) : Prop :=
  let path := default (getenv "TOISE_CONFIG"%string) (configPathFromArgs args) in
  if bool_decide (path = ""%string) then base = Default else decode path Default = inr base.
(** What the layers below the command line say, and what the flags make of it when none is
    given for the field. *)
Definition below (base : Config) (getenv : string → string) (f : Field) : FieldValue := default (get f base) (env_value getenv f).
Definition reread (f : Field) (v : FieldValue) : FieldValue :=
  match f, v with FList g, VList l => if bool_decide (g ∈ flag_lists) then VList (splitOrigins (Join "," l)) else v | _, _ => v end.
Definition layered (base : Config) (getenv : string → string) (l : list (string * string)) (f : Field) (v : FieldValue) : Prop :=
  match last_flag l f with Some s => parse_flag f s = Some v | None => v = reread f (below base getenv f) end.

Lemma resolve_collect decode args getenv c : resolve decode args getenv = inr c →
  ∃ base l c0, from_file decode args getenv base ∧ lex flag_isBool args = (l, None) ∧ c = lockdown c0 ∧ ∀ f, layered base getenv l f (get f c0).
Proof.
  unfold resolve, from_file. set (path := default _ _). intros H.
  destruct (if bool_decide (path = ""%string) then inr Default else applyFile decode path Default) as [err|base] eqn:Eb; [done|].
  destruct (applyEnv getenv base) as [err|c1] eqn:Ee; [done|]. destruct (Parse args (seed c1)) as [err|fs] eqn:Ep; [done|]. injection H as <-.
  unfold Parse in Ep. destruct (lex flag_isBool args) as [l lerr] eqn:El. destruct (set_flags l (seed c1)) as [e|fs1] eqn:Es; [done|].
  destruct lerr as [e|]; [done|]. injection Ep as ->. exists base, l, (collect fs). split_and!; [|done..|].
  - case_bool_decide; [by injection Eb as <-|]. unfold applyFile in Eb. destruct (decode path Default) as [msg|c2]; [done|]. by injection Eb as ->.
  - intros f. unfold layered, below. rewrite collect_get -(applyEnv_get _ _ _ f Ee).
    destruct (is_list f) eqn:Hf.
    + destruct f as [| | | |g|]; try done. destruct (set_flags_text _ _ _ g Es) as [Ht Hg]. cbn [seed fl_text fl_cfg] in *.
      destruct (last_flag l (FList g)) as [s|] eqn:Elast.
      * cbn. rewrite bool_decide_eq_true_2; [|by eapply last_flag_listed]. by rewrite Ht.
      * cbn [default from_option] in Ht. cbn [get] in Hg. injection Hg as Hg. cbn [reread get]. by rewrite Ht Hg.
    + pose proof (set_flags_get _ _ _ f Es Hf) as Hget. cbn [seed fl_cfg] in Hget. destruct f as [| | | |g|]; try done;
        (destruct (last_flag l _) as [s|]; [done|]; by rewrite Hget).
Qed.

(** ** The production profile *)

Definition locked (c : Config) (f : Field) : bool :=
  c_bool c Production && match f with FBool g => bool_decide (g ∈ toggles.*2) | FList ProductionOverrides => true | _ => false end.

Lemma lock_get c t f : f ≠ FBool t.2 → f ≠ FList ProductionOverrides → get f (lock c t) = get f c.
Proof. intros H1 H2. unfold lock. case_match; [|done]. by rewrite !get_put_ne. Qed.
Lemma lockdown_get c f : (∀ t, t ∈ toggles → f ≠ FBool t.2) → f ≠ FList ProductionOverrides → get f (lockdown c) = get f c.
Proof.
  intros H1 H2. unfold lockdown. case_match; [|done]. unfold toggles in *. cbn [foldl].
  rewrite !lock_get; try done; apply H1; set_solver.
Qed.
Lemma lockdown_production c : c_bool (lockdown c) Production = c_bool c Production.
Proof.
  assert (get (FBool Production) (lockdown c) = get (FBool Production) c) as H; [|by injection H].
  apply lockdown_get; [|done]. intros t Ht. unfold toggles in Ht. set_solver.
Qed.
Lemma lockdown_unlocked c f : locked (lockdown c) f = false → get f (lockdown c) = get f c.
Proof.
  unfold locked. rewrite lockdown_production. destruct (c_bool c Production) eqn:Hp; [simpl|by unfold lockdown; rewrite Hp].
  intros Hf. apply lockdown_get; [|by intros ->]. intros t Ht ->. case_bool_decide as Hn; [done|]. apply Hn. exact (list_elem_of_fmap_2 snd toggles t Ht).
Qed.

(** What the lockdown does to the toggles it finds, one after the other. *)
Lemma lock_bool c t g : c_bool (lock c t) g = if decide (g = t.2) then false else c_bool c g.
Proof. unfold lock. destruct (c_bool c t.2) eqn:E; cbn; unfold upd; case_decide; congruence. Qed.
Lemma lock_overrides c t : c_list (lock c t) ProductionOverrides = (c_list c ProductionOverrides ++ (if c_bool c t.2 then [t.1] else []))%list.
Proof. unfold lock. destruct (c_bool c t.2) eqn:E; cbn; [done|by rewrite app_nil_r]. Qed.
Lemma filter_ext_in {A} (P Q : A → Prop) `{!∀ x, Decision (P x), !∀ x, Decision (Q x)} (l : list A) :
  (∀ x, x ∈ l → P x ↔ Q x) → base.filter P l = base.filter Q l.
Proof.
  induction l as [|x l IH]; intros Hpq; [done|]. rewrite !filter_cons IH; [|intros y Hy; apply Hpq; by right].
  assert (P x ↔ Q x) as Hx by (apply Hpq; by left). repeat case_decide; first [done|exfalso; tauto].
Qed.
Lemma lock_all ts : ∀ c, NoDup ts.*2 →
  (∀ g, c_bool (foldl lock c ts) g = if decide (g ∈ ts.*2) then false else c_bool c g) ∧
  c_list (foldl lock c ts) ProductionOverrides = (c_list c ProductionOverrides ++ (base.filter (λ t, c_bool c t.2 = true) ts).*1)%list.
Proof.
  induction ts as [|t ts IH]; intros c Hnd; cbn [foldl]; [split; [done|by rewrite app_nil_r]|].
  apply NoDup_cons in Hnd as [Hnin Hnd]. destruct (IH (lock c t) Hnd) as [Hb Hl]. split.
  - intros g. rewrite Hb lock_bool. destruct (decide (g ∈ ts.*2)), (decide (g = t.2)), (decide (g ∈ (t :: ts).*2)); try done; set_solver.
  - rewrite Hl lock_overrides -app_assoc. f_equal. rewrite filter_cons.
    assert (base.filter (λ t0, c_bool (lock c t) t0.2 = true) ts = base.filter (λ t0, c_bool c t0.2 = true) ts) as ->; [|by destruct (c_bool c t.2)].
    apply filter_ext_in. intros x Hx. rewrite lock_bool decide_False //. intros E. apply Hnin. rewrite -E. by apply (list_elem_of_fmap_2 snd).
Qed.

(** ** The theorems *)

Lemma layered_fun base getenv l f v w : layered base getenv l f v → layered base getenv l f w → v = w.
Proof. unfold layered. destruct (last_flag l f); [congruence|by intros -> ->]. Qed.



(** ** The server a configuration builds *)

Definition serving (c : Config) : Serving.Config :=
  Serving.mkConfig (c_list c AuthTokens) (c_list c ReadTokens) (c_list c IngestTokens) (c_list c TenantTokens) (c_list c TenantReadTokens) (c_list c TenantIngestTokens)
    (DeriveOnlyTenancy c) (c_bool c IngestMTLSOnly) (c_bool c AllowUnauthenticatedWrites)
    (if OIDCEnabled c then Some (mkOIDCConfig (c_str c OIDCTenantClaim) (c_str c OIDCRoleClaim)) else None) (c_bool c DebugUI) (c_bool c MetricsPublic).

Lemma Validate_facts c : Validate c = None →
  (c_bool c IngestMTLSOnly = true → TLSEnabled c = true ∧ c_str c TLSClientCAFile ≠ ""%string ∧ readAuth c = true ∧ DeriveOnlyTenancy c = false) ∧
  is_Some (parseTenantTokens (c_list c TenantTokens)) ∧ is_Some (parseTenantTokens (c_list c TenantReadTokens)) ∧ is_Some (parseTenantTokens (c_list c TenantIngestTokens)).
Proof.
  unfold Validate. cbv zeta. intros H. repeat match type of H with context [if ?b then Some _ else _] => let E := fresh "E" in destruct b eqn:E; [discriminate H|] end.
  destruct (TenantNamesMap c); [|discriminate H]. destruct (parseTenantTokens (c_list c TenantTokens)); [|discriminate H].
  destruct (parseTenantTokens (c_list c TenantReadTokens)); [|discriminate H]. destruct (parseTenantTokens (c_list c TenantIngestTokens)); [|discriminate H].
  split_and!; [|by eexists..]. intros Hm. repeat match goal with E : (c_bool c IngestMTLSOnly && _)%bool = false |- _ => rewrite Hm in E; simpl in E end.
  destruct (bool_decide (c_str c TLSClientCAFile = ""%string)) eqn:Hca; [done|]. apply bool_decide_eq_false in Hca.
  destruct (TLSEnabled c), (readAuth c), (DeriveOnlyTenancy c); done.
Qed.
Lemma toBytes_nonempty t toks : t ∈ toks → TrimSpace t ≠ ""%string → toBytes toks ≠ [].
Proof.
  intros Hin Hne E. assert (hashToken (TrimSpace t) ∈ toBytes toks) as H; [|rewrite E in H; by apply elem_of_nil in H].
  apply toBytes_elem. exists (TrimSpace t). split; [|done]. split; [done|]. by exists t.
Qed.
Lemma parse_first pairs m : pairs ≠ [] → parseTenantTokens pairs = Some m → ∃ id, toBytes (tokens_of id pairs) ≠ [].
Proof.
  destruct pairs as [|p pairs]; [done|]. intros _. unfold parseTenantTokens. cbn [Auth.parse_pairs]. destruct (cut_colon p) as [[id tok]|] eqn:E; [|done].
  destruct (_ && _) eqn:Hb; [|done]. intros _. apply andb_true_iff in Hb as [_ Hb]. exists id. apply (toBytes_nonempty tok).
  - unfold tokens_of. apply list_elem_of_omap. exists p. split; [by left|]. by rewrite E decide_True.
  - intros E'. by rewrite E' bool_decide_eq_true_2 in Hb.
Qed.
Lemma scoped_nonempty (m : gmap string (list string)) id hs : at_tenant m id = hs → hs ≠ [] → m ≠ ∅.
Proof. intros <- Hne ->. by unfold at_tenant in Hne. Qed.
Lemma nonempty_true {A} (l : list A) : l ≠ [] → nonempty l = true.
Proof. by destruct l. Qed.

(** C30. What validation and the production profile give the server. A configuration that
    loads builds an authenticator. With ingest_mtls_only it has TLS, an authority for
    client certificates and tenants that are not derived, and unless the tokens it lists
    are blank the read surfaces ask for a credential. With production, a request over HTTP
    that may write presented a token with the full role, or an identity verified with
    it. *)
Theorem valid_config_protects decode args getenv c idVerify : Load decode args getenv = inr c →
  ∃ a, authenticator idVerify (serving c) = Some a ∧
    (c_bool c IngestMTLSOnly = true → TLSEnabled c = true ∧ c_str c TLSClientCAFile ≠ ""%string ∧ a_deriveOnly a = false ∧
      ((∀ t, t ∈ c_list c AuthTokens ∨ t ∈ c_list c ReadTokens → TrimSpace t ≠ ""%string) → Enabled a = true)) ∧
    (c_bool c Production = true → ∀ public r cx, HTTPMiddleware public r no_ctx a = Next cx → CanWrite cx = true →
      let h := rq_Authorization r in
      validHeader h surfaceRead a = true ∧ canWriteHeader h a = true ∨ ∃ verify t, a_oidc a = Some verify ∧ verify (bearer h) = Some (t, "full"%string)).
Proof.
  unfold Load. destruct (resolve decode args getenv) as [err|c0] eqn:Er; [done|]. destruct (Validate c0) eqn:Ev; [done|]. intros [= ->].
  destruct (Validate_facts _ Ev) as (Hm & [m1 H1] & [m2 H2] & [m3 H3]).
  assert (∃ a, authenticator idVerify (serving c) = Some a) as [a Ha].
  { unfold authenticator. cbn [serving cf_TenantTokens cf_TenantReadTokens cf_TenantIngestTokens]. rewrite H1 H2 H3. by eexists. }
  exists a. pose proof (authenticator_built idVerify (serving c) a Ha) as Hb. split_and!; [done| |].
  - intros Hmtls. destruct (Hm Hmtls) as (Htls & Hca & Hread & Hder). split_and!; [done..|by rewrite (bu_derive _ _ _ Hb)|]. intros Hblank.
    unfold readAuth, no_tokens in Hread. unfold Enabled. rewrite (bu_tokens _ _ _ Hb) (bu_read _ _ _ Hb) (bu_declared _ _ _ Hb). cbn [serving cf_AuthTokens cf_ReadTokens cf_OIDC].
    destruct (OIDCEnabled c); [by rewrite orb_true_r|]. rewrite orb_false_r in Hread.
    destruct (c_list c AuthTokens) as [|t ts] eqn:Et; [|rewrite (nonempty_true (toBytes (t :: ts))); [done|]; apply (toBytes_nonempty t); [by left|apply Hblank; left; by left]].
    destruct (c_list c ReadTokens) as [|t ts] eqn:Et2; [|rewrite (nonempty_true (toBytes (t :: ts))); [by rewrite !orb_true_r|]; apply (toBytes_nonempty t); [by left|apply Hblank; right; by left]].
    rewrite !(bool_decide_eq_true_2 ([] = [])) //= in Hread.
    assert (∀ f (m sc : gmap string (list string)), c_list c f ≠ [] → parseTenantTokens (c_list c f) = Some m → (∀ id, at_tenant sc id = toBytes (tokens_of id (c_list c f))) → bool_decide (sc = ∅) = false) as Hsc.
    { intros f m sc Hne Hp Hat. destruct (parse_first _ _ Hne Hp) as [id Hid]. apply bool_decide_eq_false_2. exact (scoped_nonempty sc id _ (Hat id) Hid). }
    destruct (bool_decide (c_list c TenantTokens = [])) eqn:E1.
    + destruct (bool_decide (c_list c TenantReadTokens = [])) eqn:E2; [done|]. apply bool_decide_eq_false in E2.
      rewrite (Hsc TenantReadTokens m2 (a_scopedRead a) E2 H2 (bu_scopedRead _ _ _ Hb)). by rewrite !orb_true_r.
    + apply bool_decide_eq_false in E1. rewrite (Hsc TenantTokens m1 (a_scoped a) E1 H1 (bu_scoped _ _ _ Hb)). by rewrite !orb_true_r.
  - intros Hp public r cx. assert (c_bool c AllowUnauthenticatedWrites = false) as Hw.
    { apply resolve_collect in Er as (_ & _ & c1 & _ & _ & -> & _). rewrite lockdown_production in Hp. unfold lockdown. rewrite Hp.
      assert (NoDup toggles.*2) as Hnd by by_decide. exact (proj1 (lock_all toggles c1 Hnd) AllowUnauthenticatedWrites). }
    unfold HTTPMiddleware. destruct (Enabled a) eqn:He; simpl.
    + case_bool_decide; [by intros [= <-] Hc; discriminate Hc|]. destruct (validHeader (rq_Authorization r) surfaceRead a).
      * intros Hnext Hcw. left. split; [done|]. destruct (EffectiveTenantHTTP r no_ctx a); [destruct (_ && _); [done|]|]; injection Hnext as <-; exact Hcw.
      * destruct (a_oidc a) as [verify|]; [|done]. destruct (verify (bearer (rq_Authorization r))) as [[t role]|] eqn:Everify; [|done].
        case_bool_decide; [done|]. intros [= <-]. cbn. intros Hfull. apply bool_decide_eq_true in Hfull as ->. right. by exists verify, t.
    + intros [= <-]. cbn. unfold UnauthenticatedWritesAllowed. rewrite (bu_writes _ _ _ Hb) /=. by rewrite Hw.
Qed.

(** ** The types of the values *)

Definition fits (v : FieldValue) : Prop := match v with VInt z | VDur z => min_int64 <= z <= max_int64 | _ => True end.

Lemma digit_of_nonneg base c d : digit_of base c = Some d → 0 <= d.
Proof.
  unfold digit_of. cbv zeta. set (n := Z.of_N (N_of_ascii (lower c))). intros H. destruct (_ <? base); [|done]. injection H as <-.
  destruct (Z.leb_spec 48 n), (Z.leb_spec n 57), (Z.leb_spec 97 n), (Z.leb_spec n 122); simpl; lia.
Qed.
Lemma digit_nonneg c d : digit c = Some d → 0 <= d.
Proof. unfold digit. cbv zeta. set (n := Z.of_N (N_of_ascii c)). destruct (Z.leb_spec 48 n); simpl; [|done]. case_match; [|done]. intros [= <-]. lia. Qed.
Lemma digits_go_nonneg base under s : 0 <= base → ∀ acc seen n seen', 0 <= acc → digits_go base under acc seen s = Some (n, seen') → 0 <= n.
Proof.
  intros Hb. induction s as [|c s IH]; intros acc seen n seen' Hacc; cbn [digits_go]; [by intros [= <- _]|].
  case_match; [by apply IH|]. destruct (digit_of base c) as [d|] eqn:E; [|done]. apply IH. pose proof (digit_of_nonneg _ _ _ E). nia.
Qed.
Lemma int_range_fits neg n z : 0 <= n → int_range neg n = Some z → min_int64 <= z <= max_int64.
Proof. unfold int_range, min_int64, max_int64. intros Hn. destruct neg; (case_match; [|done]); intros [= <-]; lia. Qed.
Lemma Atoi_fits s z : Atoi s = Some z → min_int64 <= z <= max_int64.
Proof.
  unfold Atoi. destruct (cut_sign s) as [neg t]. case_bool_decide; [done|]. destruct (digits_go 10 false 0 false t) as [[n seen]|] eqn:E; [|done]. cbn.
  apply int_range_fits. by eapply (digits_go_nonneg 10 false t); [..|exact E].
Qed.
Lemma ParseInt0_fits s z : ParseInt0 s = Some z → min_int64 <= z <= max_int64.
Proof.
  unfold ParseInt0. destruct (cut_sign s) as [neg t]. case_bool_decide; [done|]. destruct (base_prefix t) as [base u] eqn:Eb.
  assert (0 <= base) as Hb. { unfold base_prefix in Eb. destruct t as [|z0 [|b [|c r]]]; repeat case_match; simplify_eq; lia. }
  destruct (digits_go base true 0 false u) as [[n seen]|] eqn:E; [|done]. cbn. case_match; [done|].
  apply int_range_fits. by eapply (digits_go_nonneg base true u); [..|exact E].
Qed.

Lemma leadingInt_spec s : ∀ x v rest, 0 <= x → leadingInt x s = Some (v, rest) → 0 <= v ∧ (String.length rest <= String.length s)%nat.
Proof.
  induction s as [|c s IH]; intros x v rest Hx; cbn [leadingInt]; [by intros [= <- <-]|].
  destruct (digit c) as [d|] eqn:E; [|by intros [= <- <-]]. case_match; [done|]. cbv zeta. case_match; [done|]. intros Hr. pose proof (digit_nonneg _ _ E).
  apply IH in Hr as [Hv Hl]; [simpl; lia|lia].
Qed.
Lemma leadingFraction_length s : ∀ x p o, (String.length (leadingFraction x p o s).2 <= String.length s)%nat.
Proof.
  induction s as [|c s IH]; intros x p o; cbn [leadingFraction]; [done|]. destruct (digit c) as [d|]; [|done].
  cbv zeta. repeat case_match; cbn [String.length]; etrans; try apply IH; lia.
Qed.
Lemma cut_unit_length s : (String.length (cut_unit s).1 + String.length (cut_unit s).2 = String.length s)%nat.
Proof. induction s as [|c s IH]; cbn [cut_unit]; [done|]. case_match; [done|]. destruct (cut_unit s) as [u r]. simpl in *. lia. Qed.
Lemma fraction_nonneg f p u : 0 <= fraction f p u.
Proof. unfold fraction, f64_trunc. repeat case_match; try lia. apply Z.div_pos; [lia|]. apply Z.pow_pos_nonneg; lia. Qed.
Lemma unitMap_some u unit : unitMap u = Some unit → 0 < unit ∧ u ≠ ""%string.
Proof. unfold unitMap. repeat case_bool_decide; intros [= <-]; (split; [lia|]); first [by subst|set_solver]. Qed.

Lemma duration_part_spec d s d' rest : 0 <= d → duration_part d s = Some (d', rest) →
  0 <= d' <= 9223372036854775808 ∧ (String.length rest < String.length s)%nat.
Proof.
  unfold duration_part. intros Hd. destruct (leadingInt 0 s) as [[v s1]|] eqn:El; [|done]. destruct (leadingInt_spec _ 0 _ _ (Z.le_refl 0) El) as [Hv Hl]. cbn [mbind option_bind].
  match goal with |- context [match s1 with EmptyString => ?a | String c t => @?b c t end] => set (q := match s1 with EmptyString => a | String c t => b c t end) end.
  assert ((String.length q.1.2 <= String.length s)%nat) as Hq.
  { unfold q. destruct s1 as [|c s2]; [done|]. case_match; [|done]. pose proof (leadingFraction_length s2 0 0 false) as Hf.
    destruct (leadingFraction 0 0 false s2) as [[f p] s3]. simpl in *. lia. }
  destruct q as [[[f places] s3] post]. simpl in Hq. destruct (_ && _); [done|]. pose proof (cut_unit_length s3) as Hu. destruct (cut_unit s3) as [u r]. simpl in Hu.
  destruct (unitMap u) as [unit|] eqn:Eu; [|done]. destruct (unitMap_some _ _ Eu) as [Hunit Hne]. cbn [mbind option_bind].
  assert (0 < String.length u)%nat as Hpos by (destruct u; [done|simpl; lia]). case_match; [done|].
  pose proof (fraction_nonneg f places unit) as Hf. set (w := if 0 <? f then _ else _). assert (0 <= w) by (unfold w; case_match; nia).
  destruct (Z.ltb_spec 9223372036854775808 w); [done|]. destruct (Z.ltb_spec 9223372036854775808 (d + w)); [done|]. intros [= <- <-]. split; lia.
Qed.
Lemma duration_go_range n : ∀ d s d', 0 <= d <= 9223372036854775808 → duration_go n d s = Some d' → 0 <= d' <= 9223372036854775808.
Proof.
  induction n as [|n IH]; intros d s d' Hd; cbn [duration_go]; [destruct s; [by intros [= <-]|done]|]. destruct s as [|c s]; [by intros [= <-]|].
  destruct (duration_part d (String c s)) as [[d1 s1]|] eqn:E; [|done]. cbn. destruct (duration_part_spec d _ _ _ (proj1 Hd) E) as [Hr _]. by apply IH.
Qed.
(** A turn for each byte is enough: the loop of [ParseDuration] ends for want of text, not
    of turns. *)
Lemma duration_go_ends n : ∀ m d s, 0 <= d → (String.length s <= n)%nat → (String.length s <= m)%nat → duration_go n d s = duration_go m d s.
Proof.
  induction n as [|n IH]; intros m d s Hd Hn Hm; [destruct s; [by destruct m|simpl in Hn; lia]|]. destruct s as [|c s]; [by destruct m|].
  destruct m as [|m]; [simpl in Hm; lia|]. cbn [duration_go]. destruct (duration_part d (String c s)) as [[d1 s1]|] eqn:E; [|done]. cbn.
  destruct (duration_part_spec _ _ _ _ Hd E) as [Hr Hlt]. apply IH; simpl in *; lia.
Qed.
Lemma ParseDuration_fits s d : ParseDuration s = Some d → min_int64 <= d <= max_int64.
Proof.
  unfold ParseDuration, min_int64, max_int64. destruct (cut_sign s) as [neg t]. case_bool_decide; [intros [= <-]; lia|]. case_bool_decide; [done|].
  destruct (duration_go (String.length t) 0 t) as [n|] eqn:E; [|done]. cbn. assert (0 <= n <= 9223372036854775808) as Hr by (eapply duration_go_range; [|exact E]; lia).
  destruct neg; [intros [= <-]; lia|]. destruct (Z.ltb_spec 9223372036854775807 n); [done|]. intros [= <-]. lia.
Qed.
Lemma parse_env_fits f s v : parse_env f s = Some v → fits v.
Proof.
  destruct f; cbn; intros H; first [by injection H as <- | apply fmap_Some in H as (x & Hx & ->)]; cbn; [by eapply Atoi_fits|done|by eapply ParseDuration_fits|done].
Qed.
Lemma parse_flag_fits f s v : parse_flag f s = Some v → fits v.
Proof. destruct f; try apply parse_env_fits. cbn. intros (x & Hx & ->)%fmap_Some. by eapply ParseInt0_fits. Qed.

