(* ===== verification/ConfigExamples.v ===== *)
(** * Configurations on concrete layers

    The witnesses, and four configurations that differ from what the comments of the source
    say of them. *)
From Stdlib Require Import Floats.SpecFloat.
From S2P Require Import Prelude GoStd Tenant Auth Serving AuthSpec Projection Canonical Sink GoParse Configuration ConfigSpec.
Open Scope Z_scope.

(** A file that sets fields, an environment, and no others. *)
Definition yaml (fields : list (Field * FieldValue)) (path : string) (c : Config) : string + Config :=
  if bool_decide (path = "toise.yaml"%string) then inr (foldl (λ c fv, put fv.1 fv.2 c) c fields) else inl "no such file"%string.
Definition env (vars : list (string * string)) (name : string) : string := default ""%string (snd <$> find (λ v, bool_decide (v.1 = name)) vars).
Definition loaded (r : ConfigError + Config) : Config := match r with inr c => c | inl _ => Default end.
Lemma loaded_ok r : match r with inr _ => true | inl _ => false end = true → r = inr (loaded r).
Proof. by destruct r. Qed.

Lemma yaml_overrides fields path c1 c2 : forallb (λ fv, negb (bool_decide (fv.1 = FList ProductionOverrides))) fields = true →
  yaml fields path c1 = inr c2 → c_list c2 ProductionOverrides = c_list c1 ProductionOverrides.
Proof.
  intros Hf. unfold yaml. case_bool_decide; [|done]. intros [= <-]. revert c1 Hf. induction fields as [|[f v] fields IH]; intros c1 Hf; [done|].
  cbn [forallb foldl fst snd] in *. apply andb_true_iff in Hf as [Hne Hf]. rewrite IH //.
  assert (get (FList ProductionOverrides) (put f v c1) = get (FList ProductionOverrides) c1) as E; [|by injection E].
  apply get_put_ne. intros <-. by rewrite bool_decide_eq_true_2 in Hne.
Qed.
Lemma yaml_fits fields path c : forallb (λ fv, match fv.2 with VInt z | VDur z => (min_int64 <=? z) && (z <=? max_int64) | _ => true end) fields = true →
  yaml fields path Default = inr c → ∀ f, fits (get f c).
Proof.
  intros Hf. unfold yaml. case_bool_decide; [|done]. intros [= <-].
  assert (∀ f, fits (get f Default)) as Hd by (intros [| |?|[]| |]; cbn; unfold min_int64, max_int64, second; lia || done).
  revert Hf Hd. generalize Default. induction fields as [|[f v] fields IH]; intros d Hf Hd; [done|].
  cbn [forallb foldl fst snd] in *. apply andb_true_iff in Hf as [Hv Hf]. apply IH; [done|]. intros g. destruct (decide (g = f)) as [->|Hne]; [|by rewrite get_put_ne].
  destruct (typed f v) eqn:Ht; [rewrite get_put //|destruct f, v; try done; apply Hd].
  destruct v; try done; apply andb_true_iff in Hv as [H1%Z.leb_le H2%Z.leb_le]; done.
Qed.

(** ** Witnesses *)

Definition hardened : list (Field * FieldValue) :=
  [(FBool Production, VBool true); (FBool DebugUI, VBool true); (FList AuthTokens, VList ["s3cret"%string]); (FBool IngestMTLSOnly, VBool true);
   (FStr TLSCertFile, VStr "c.pem"); (FStr TLSKeyFile, VStr "k.pem"); (FStr TLSClientCAFile, VStr "ca.pem"); (FDur BackupInterval, VDur second)].
Definition args : list string := ["--config=toise.yaml"; "-playground"; "--listen"; "0.0.0.0:80"; "--graphql-introspection=0"]%string.
Definition vars : list (string * string) := [("TOISE_DATA_DIR", "/data"); ("TOISE_SNAPSHOT_INTERVAL", "1m30s"); ("TOISE_LISTEN", "ignored:1")]%string.
Definition server : Config := loaded (Load (yaml hardened) args (env vars)).
Lemma server_loads : Load (yaml hardened) args (env vars) = inr server.
Proof. apply loaded_ok. vm_compute. reflexivity. Qed.
Lemma server_resolves : resolve (yaml hardened) args (env vars) = inr server.
Proof. pose proof server_loads as H. unfold Load in H. destruct (resolve _ _ _) as [err|c]; [discriminate H|]. destruct (Validate c); [discriminate H|exact H]. Qed.



Lemma valid_config_protects_witness : Load (yaml hardened) args (env vars) = inr server ∧
  ∃ a, authenticator (λ _, None) (serving server) = Some a ∧ Enabled a = true ∧
    ∀ public r cx, HTTPMiddleware public r no_ctx a = Next cx → CanWrite cx = true →
      validHeader (rq_Authorization r) surfaceRead a = true ∧ canWriteHeader (rq_Authorization r) a = true ∨
      ∃ verify t, a_oidc a = Some verify ∧ verify (bearer (rq_Authorization r)) = Some (t, "full"%string).
Proof.
  split; [exact server_loads|]. destruct (valid_config_protects (yaml hardened) args (env vars) server (λ _, None) server_loads) as (a & Ha & Hm & Hp).
  exists a. split; [exact Ha|]. split; [|exact (Hp ltac:(vm_compute; reflexivity))].
  destruct (Hm ltac:(vm_compute; reflexivity)) as (_ & _ & _ & He). apply He. intros t [Ht|Ht].
  - assert (c_list server AuthTokens = ["s3cret"%string]) as E by (vm_compute; reflexivity). rewrite E in Ht. apply list_elem_of_singleton in Ht. rewrite Ht. by_decide.
  - assert (c_list server ReadTokens = []) as E by (vm_compute; reflexivity). rewrite E in Ht. destruct (not_elem_of_nil t Ht).
Defined.


(** ** Divergences *)

Definition from_yaml (fields : list (Field * FieldValue)) : ConfigError + Config := Load (yaml fields) ["-config"; "toise.yaml"]%string (env []).
Definition problem_of (r : ConfigError + Config) : option string := match r with inl (BadConfig p) => Some p | _ => None end.

(** A blank allowlist entry opens the allowlist. Validation means to refuse it as a
    malformed rule, but the lists that have a flag are joined and read back first, which
    drops it: the configuration loads with no allowlist, and any tenant may be created. *)
Theorem blank_allowlist_admits_all :
  Validate (put (FList TenantAllowlist) (VList [""%string]) Default) = Some "tenant_allowlist"%string ∧
  ∃ c, from_yaml [(FList TenantAllowlist, VList [""%string])] = inr c ∧ c_list c TenantAllowlist = [].
Proof.
  split; [vm_compute; reflexivity|]. exists (loaded (from_yaml [(FList TenantAllowlist, VList [""%string])])).
  split; [apply loaded_ok; vm_compute; reflexivity|vm_compute; reflexivity].
Qed.

(** A tenant's name from the file may not have a comma, although it is free text and
    the list of the file is a valid one: it is read back in pieces. *)
Theorem comma_in_name_refused :
  let names := ["acme:Acme, Inc."]%string in
  Validate (put (FList TenantNames) (VList names) Default) = None ∧ problem_of (from_yaml [(FList TenantNames, VList names)]) = Some "tenant_names"%string.
Proof. split; vm_compute; reflexivity. Qed.

(** Blank tokens pass for a read authenticator. With ingest_mtls_only validation
    requires one, so that the read surfaces are not left open; a list of blank tokens
    counts as one, the authenticator drops blank tokens, and is then disabled: every
    request is let through, and may write. *)
Theorem blank_token_opens_reads :
  let fields := [(FBool IngestMTLSOnly, VBool true); (FStr TLSCertFile, VStr "c.pem"); (FStr TLSKeyFile, VStr "k.pem"); (FStr TLSClientCAFile, VStr "ca.pem");
                 (FList AuthTokens, VList [" "%string])] in
  ∃ c a, from_yaml fields = inr c ∧ authenticator (λ _, None) (serving c) = Some a ∧ Enabled a = false ∧
    ∀ r, HTTPMiddleware [] r no_ctx a = Next (WithWritable true no_ctx).
Proof.
  intros fields. set (c := loaded (from_yaml fields)). set (a := default (NewWithRoles [] [] [] ∅) (authenticator (λ _, None) (serving c))). exists c, a.
  split; [apply loaded_ok; vm_compute; reflexivity|].
  assert (match authenticator (λ _, None) (serving c) with Some _ => true | None => false end = true) as Ha by (vm_compute; reflexivity).
  split; [unfold a; by destruct (authenticator (λ _, None) (serving c))|]. assert (Enabled a = false) as He by (vm_compute; reflexivity). split; [exact He|].
  intros r. unfold HTTPMiddleware. rewrite He. assert (UnauthenticatedWritesAllowed a = true) as -> by (vm_compute; reflexivity). reflexivity.
Qed.

(** A threshold that is not a number loads, although it must be in (0,1]. No confidence
    is below it, so every alias that carries one is believed, however low. *)
Theorem nan_threshold_believes_all : ∃ c, Load (yaml []) [] (env [("TOISE_IDENTITY_CONFIDENCE_THRESHOLD", "nan")]%string) = inr c ∧
  ∀ r, believed (c_threshold c) r = (Confidence r).2.
Proof.
  set (c := loaded (Load (yaml []) [] (env [("TOISE_IDENTITY_CONFIDENCE_THRESHOLD", "nan")]%string))). exists c.
  split; [apply loaded_ok; vm_compute; reflexivity|]. assert (c_threshold c = S754_nan) as -> by (vm_compute; reflexivity).
  intros r. unfold believed. destruct (Confidence r) as [conf ok]. simpl. destruct conf; by rewrite andb_true_r.
Qed.
