(* ===== verification/Query.v ===== *)
(** * The query tools of the MCP surface: find, get, neighbours, schema

    src/internal/mcp/tools.go (find_entities, get_entity, get_neighbors, describe_schema),
    resolve.go (which entity an observed endpoint denotes), asof.go, and of convert.go and
    server.go what they use: who asserts a thing, the provenance block, the messages of an
    unresolved handle. A sentence whose wording depends on the case alone is a constructor. *)
From S2P Require Import Prelude GoStd Values Vocabulary Entities Events DisplayNames Speakers Observations Aliases Projection Engine Keys Store Canonical Traverse GoParse.
From S2P Require Import Tenant Auth Sink Annotations Annotate.
Open Scope Z_scope.

(** ** What the engine tells of a thing *)

(** The interface [Cadence] with its two optional readers. *)
Record Cadence := mkCadence {
  cd_ObservationInterval : EntityID → Duration * bool;
  cd_AssertingProducers : EntityID → list string;
  cd_AssertingScopes : EntityID → list string;
  cd_RelationAssertingProducers : RelationID → list string;
  cd_RelationAssertingScopes : RelationID → list string;
  cd_AnonymousReferences : EntityID → Z;
  cd_ImplausiblePromise : EntityID → option badPromise;
}.
Definition engine_cadence {W X} (e : Engine W X) : Cadence :=
  mkCadence (ObservationInterval e) (AssertingProducers e) (AssertingScopes e) (RelationAssertingProducers e) (RelationAssertingScopes e)
    (AnonymousReferences e) (ImplausiblePromise e).

(** An entity with who asserts it; a list that is not rendered is [None]. *)
Inductive Provenance := NoRemark | WithheldProducers | Unnamed (references : Z).
Record Shown := mkShown { sh_Entity : EntityOut; sh_AssertedBy : option (list string); sh_CollectedBy : option (list string); sh_Provenance : Provenance }.
Definition bare (e : EntityOut) : Shown := mkShown e None None NoRemark.

Definition attachProducers (cad : option Cadence) (out : EntityOut) (id : EntityID) (compact : bool) (asOf : option Time) : Shown :=
  match cad with
  | None => bare out
  | Some c =>
    if compact then bare out else
    match asOf with
    | Some _ => mkShown out None None WithheldProducers
    | None =>
      let by_ := cd_AssertingProducers c id in
      let n := cd_AnonymousReferences c id in
      mkShown out (Some by_) (Some (cd_AssertingScopes c id)) (if bool_decide (by_ = []) && (0 <? n) then Unnamed n else NoRemark)
    end
  end.
Definition entityWithProducers (cad : option Cadence) (e : Entity) (deleted compact : bool) (asOf : option Time) : Shown :=
  attachProducers cad (entityOutV e deleted compact) (e_ID e) compact asOf.

(** How finely the timestamps of an entity may be read. *)
Inductive Resolution :=
| PastUnknown
| NoPromise
| RefusedPromise (who : string) (declared : Duration)
| Within (interval : Duration).
Definition resolutionFor (cad : option Cadence) (id : EntityID) (asOf : option Time) : option Resolution :=
  match cad with
  | None => None
  | Some c =>
    match asOf with
    | Some _ => Some PastUnknown
    | None =>
      match cd_ObservationInterval c id with
      | (interval, true) => Some (Within interval)
      | (_, false) =>
        match cd_ImplausiblePromise c id with
        | Some p => Some (RefusedPromise (if bool_decide (bp_producer p = "") then "an unidentified producer" else bp_producer p)%string (bp_declared p))
        | None => Some NoPromise
        end
      end
    end
  end.

(** ** Errors *)

(** Why no entity was found: by an instant it is told whether the handle resolves now; an
    inline identity with too few keys is told how many there are. *)
Inductive Missing := ExistsNow (at_ : Time) | NorNow (at_ : Time) | TooFewKeys (want given : Z) | Unresolved.
Inductive QueryError :=
| UnknownVerbosity (v : string)
| IDMissing
| NotFound (handle : string) (why : Missing)
| InvalidAfter (after : string)
| DepthExceeds (depth : Z)
| BeforeEpoch (t : Time)
| NotAnswerable (err : AtError)
| ReadFailed (err : StoreError).

Definition parseVerbosity (v : string) : QueryError + bool :=
  if bool_decide (v = "" ∨ v = "full")%string then inr false
  else if bool_decide (v = "compact"%string) then inr true else inl (UnknownVerbosity v).

Definition multiKeyIdentitySizes : gmap string Z := list_to_map [
  (TypeNetworkInterface, 2); (TypeNetworkNeighbor, 2); (TypeComputeVM, 2); (TypeProcess, 2); (TypeNetworkRoute, 3)].
Definition partialIdentityHint (handle : string) : option (Z * Z) :=
  let '(typ, rest, ok) := cut_at ":" handle in
  if negb ok || negb (contains_byte "=" rest) then None else
  match multiKeyIdentitySizes !! typ with
  | None => None
  | Some want => let given := Z.of_nat (length (split_at "," rest)) in if want <=? given then None else Some (want, given)
  end.
Definition notFoundMsg (current : Graph) (handle : string) (asOf : option Time) : QueryError :=
  NotFound handle (match asOf with
    | Some t => match ResolveHandle current handle with Some _ => ExistsNow t | None => NorNow t end
    | None => match partialIdentityHint handle with Some (want, given) => TooFewKeys want given | None => Unresolved end
    end).

(** ** Which entity an endpoint denotes (resolve.go) *)

(** The first value of a key in a list of attributes, rendered. *)
Definition kvValue (kvs : list KeyValue) (key : string) : string :=
  match find (λ kv, bool_decide (Key kv = key)) kvs with Some kv => (valueString (Val kv)).1 | None => "" end.
Definition identityValue (e : Entity) (key : string) : string := kvValue (e_Identity e) key.
Definition attrValue (e : Entity) (key : string) : string := kvValue (e_Attributes e) key.

(** What comes before and after the last of a byte, if there is one. *)
Fixpoint cut_last (c : ascii) (s : string) : option (string * string) :=
  match s with
  | EmptyString => None
  | String d s =>
    match cut_last c s with
    | Some (a, b) => Some (String d a, b)
    | None => if Ascii.eqb c d then Some (""%string, s) else None
    end
  end.
Definition listenerPort (l : Entity) : string :=
  let ep := identityValue l "service.endpoint" in
  let ep := match cut_last "/" ep with Some (a, _) => a | None => ep end in
  match cut_last ":" ep with Some (_, port) => port | None => ""%string end.
Definition listenerProto (l : Entity) : string :=
  match cut_last "/" (identityValue l "service.endpoint") with Some (_, proto) => proto | None => ""%string end.
Definition protoMismatch (l : Entity) (transport : string) : bool :=
  let p := listenerProto l in
  negb (bool_decide (p = ""%string)) && negb (bool_decide (transport = ""%string)) && negb (bool_decide (p = transport)).

Definition listenerByBind (g : Graph) (addr port transport : string) : option Entity :=
  find (λ l, bool_decide (attrValue l "listen.address" = addr) && (bool_decide (port = ""%string) || bool_decide (listenerPort l = port)) &&
             negb (protoMismatch l transport))
    (ListEntities g TypeServiceListener).
Definition hostByID (g : Graph) (id : string) : option Entity :=
  find (λ h, bool_decide (identityValue h "host.id" = id)) (ListEntities g TypeHost).

(** The entity of a type that is there and not deleted. *)
Definition live_of (g : Graph) (typ : string) (id : EntityID) : option Entity :=
  match GetEntity g id with (Some e, false) => if bool_decide (e_Type e = typ) then Some e else None | _ => None end.
(** The first answer of [f] along a list. *)
Fixpoint first_of {A B} (f : A → option B) (l : list A) : option B :=
  match l with [] => None | x :: l => match f x with Some y => Some y | None => first_of f l end end.

Definition hostForAddress (g : Graph) (addr : string) : option Entity :=
  match find (λ a, bool_decide (identityValue a "network.address" = addr)) (ListEntities g TypeNetworkAddress) with
  | None => None
  | Some a =>
    first_of (λ bt, first_of (λ hi, live_of g TypeHost (r_From hi)) (ListRelations g RelHasInterface "" (r_To bt)))
      (ListRelations g RelBoundTo (e_ID a) "")
  end.
Definition listenerOnHostPort (g : Graph) (host : Entity) (port transport : string) : option Entity :=
  first_of (λ r, match live_of g TypeServiceListener (r_From r) with
      | Some l => if bool_decide (listenerPort l = port) && negb (protoMismatch l transport) then Some l else None
      | None => None
      end) (ListRelations g RelRunsOn "" (e_ID host)).

(** The listener on the port, when one is asked for and there; otherwise the host. *)
Definition on_host (g : Graph) (host : Entity) (port transport : string) : Entity :=
  if bool_decide (port = ""%string) then host else default host (listenerOnHostPort g host port transport).
Definition resolveEndpoint (g : Graph) (endpoint : Entity) : option Entity :=
  let addr := identityValue endpoint "server.address" in
  if bool_decide (addr = ""%string) then None else
  let port := identityValue endpoint "server.port" in
  let transport := identityValue endpoint "network.transport" in
  let hostID := identityValue endpoint "host.id" in
  if negb (bool_decide (hostID = ""%string)) then (λ host, on_host g host port transport) <$> hostByID g hostID
  else match listenerByBind g addr port transport with
       | Some l => Some l
       | None => (λ host, on_host g host port transport) <$> hostForAddress g addr
       end.

(** ** The server *)

Section server.
Context {D : Type} `{!Pebble D} `{!Proto}.

Record Server := mkServer {
  sv_tenant : string;
  sv_tenantName : string;
  sv_graph : Graph;
  sv_store : Store D;
  sv_now : Time;
  sv_idThr : float64;
  sv_cadence : option Cadence;
}.

(** The graph a read is answered from: the live one, or the log folded up to an instant. *)
Definition graphAt (ctx : nat → option string) (asOf : option Time) (s : Server) : QueryError + Graph :=
  match asOf with
  | None => inr (sv_graph s)
  | Some t =>
    if before t unix_epoch then inl (BeforeEpoch t) else
    let '(evs, err) := ScanByTimeRange ctx (λ _, s_db (sv_store s)) (of_unix_nano 0) (time_add t 1) (sv_store s) in
    match At (λ _ _, evs) (PruneHorizon (sv_store s)) (sv_now s) t, err with
    | inr refused, _ => inl (NotAnswerable refused)
    | inl _, Some err => inl (ReadFailed err)
    | inl g, None => inr g
    end
  end.

Record GraphMeta := mkGraphMeta {
  gm_Tenant : string; gm_TenantName : string; gm_Entities : Z; gm_Relations : Z;
  gm_NewestEvent : option Time; gm_OldestAnswerable : option Time; gm_AsOf : option Time }.
Definition graphMeta (s : Server) (g : Graph) (asOf : option Time) : GraphMeta :=
  let h := PruneHorizon (sv_store s) in
  mkGraphMeta (sv_tenant s) (sv_tenantName s) (EntityCount g) (RelationCount g)
    (match NewestEventTime (sv_store s) with inr t => t | inl _ => None end) (if is_zero h then None else Some h) asOf.

(** ** find_entities *)

Definition encodeCursor (fp : string) : string := EncodeToString fp.
Definition decodeCursor (c : string) : option string := DecodeString c.

(** A page of a list in fingerprint order, from a cursor, and the cursor to the next. *)
Definition pageByFingerprint (all : list Entity) (after : string) (limit : Z) : QueryError + list Entity * string :=
  match (if bool_decide (after = ""%string) then Some all
         else fp ← decodeCursor after;
              Some (drop (Search (length all) (λ i, match all !! i with Some e => negb (String.leb (IdentityHash e) fp) | None => true end)) all)) with
  | None => inl (InvalidAfter after)
  | Some all =>
    if Z.of_nat (length all) <=? limit then inr (all, ""%string) else
    let page := take (Z.to_nat limit) all in
    inr (page, encodeCursor (from_option IdentityHash ""%string (last page)))
  end.

Definition has_key (e : Entity) (key : string) : bool :=
  existsb (λ kv, bool_decide (Key kv = key)) (e_Identity e) || existsb (λ kv, bool_decide (Key kv = key)) (e_Attributes e).
Definition typesCarryingKey (g : Graph) (key : string) : list string :=
  sort_by id (base.filter (λ t, existsb (λ e, has_key e key) (ListEntities g t) = true) (map_to_list (CountByType g)).*1).

(** What an empty answer covered. *)
Inductive Carriers := NoCarrier | OnlyHere | CarriedBy (types : list string).
Record NoMatch := mkNoMatch { nm_Type : string; nm_Searched : Z; nm_Keys : list (string * Carriers) }.
Definition carriers_of (g : Graph) (typ key : string) : Carriers :=
  match typesCarryingKey g key with
  | [] => NoCarrier
  | l => if bool_decide (typ ≠ ""%string ∧ l = [typ]) then OnlyHere else CarriedBy l
  end.
Definition noMatchReason (g : Graph) (typ : string) (match_ : gmap string string) : NoMatch :=
  mkNoMatch typ (if bool_decide (typ = ""%string) then EntityCount g else default 0 (CountByType g !! typ))
    ((λ k, (k, carriers_of g typ k)) <$> sort_by id (map_to_list match_).*1).

Definition dquote : string := String (ascii_of_N 34) "".
(** [Truncation]: how much came back, and how to get the rest. A cursor holds nothing to quote. *)
Definition truncation (shown : nat) (total : Z) (cursor : string) : string :=
  itoa (Z.of_nat shown) +++ " of " +++ itoa total +++ " returned; the rest is reachable by calling again with after=" +++
  dquote +++ cursor +++ dquote +++ ", and only that way — the limit is capped at " +++ itoa maxLimit +++ " and there is no offset".

Record FindEntitiesInput := mkFindEntitiesInput {
  fe_Type : string; fe_Match : gmap string string; fe_Limit : Z; fe_AsOf : option Time; fe_Verbosity : string; fe_After : string }.
Record FindEntitiesOutput := mkFindEntitiesOutput {
  fo_Graph : GraphMeta; fo_Entities : list Shown; fo_Total : Z; fo_Truncated : bool; fo_NextCursor : string; fo_Truncation : string; fo_NoMatch : option NoMatch }.

Definition found (s : Server) (i : FindEntitiesInput) (g : Graph) (compact : bool) (page : list Entity) (cursor : string) (total : Z) : FindEntitiesOutput :=
  let more := negb (bool_decide (cursor = ""%string)) in
  mkFindEntitiesOutput (graphMeta s g (fe_AsOf i)) ((λ e, attachProducers (sv_cadence s) (entityOutV e false compact) (e_ID e) compact (fe_AsOf i)) <$> page)
    total more cursor (if more then truncation (length page) total cursor else ""%string)
    (match page with [] => Some (noMatchReason g (fe_Type i) (fe_Match i)) | _ => None end).

Definition findEntities (ctx : nat → option string) (s : Server) (i : FindEntitiesInput) : QueryError + FindEntitiesOutput :=
  match parseVerbosity (fe_Verbosity i) with
  | inl err => inl err
  | inr compact =>
    match graphAt ctx (fe_AsOf i) s with
    | inl err => inl err
    | inr g =>
      let limit := clampLimit (fe_Limit i) in
      if bool_decide (fe_Match i = ∅) then
        match (if bool_decide (fe_After i = ""%string) then Some ""%string else decodeCursor (fe_After i)) with
        | None => inl (InvalidAfter (fe_After i))
        | Some afterFP =>
          let '(page, next, total) := PageEntitiesByFingerprint g (fe_Type i) afterFP limit in
          inr (found s i g compact page (if bool_decide (next = ""%string) then ""%string else encodeCursor next) total)
        end
      else
        let matched := base.filter (λ e, MatchAll e (fe_Match i) = true) (ListEntitiesByFingerprint g (fe_Type i)) in
        match pageByFingerprint matched (fe_After i) limit with
        | inl err => inl err
        | inr (page, cursor) => inr (found s i g compact page cursor (Z.of_nat (length matched)))
        end
    end
  end.

(** ** get_entity *)

Record GetEntityInput := mkGetEntityInput { gi_EntityID : string; gi_AsOf : option Time; gi_Verbosity : string }.
Record GetEntityOutput := mkGetEntityOutput {
  go_Graph : GraphMeta; go_Resolution : option Resolution; go_Entity : Shown; go_Annotations : option Annotation; go_Canonical : option CanonicalGroup }.

(** Reading the note may move it to its key. *)
Definition getEntity {N W : Type} `{!Sidecar N} (ctx : nat → option string) (s : Server) (sf : Surface N W) (i : GetEntityInput)
    : Surface N W * (QueryError + GetEntityOutput) :=
  if bool_decide (gi_EntityID i = ""%string) then (sf, inl IDMissing) else
  match parseVerbosity (gi_Verbosity i) with
  | inl err => (sf, inl err)
  | inr compact =>
    match graphAt ctx (gi_AsOf i) s with
    | inl err => (sf, inl err)
    | inr g =>
      match ResolveHandle g (gi_EntityID i) with
      | None => (sf, inl (notFoundMsg (sv_graph s) (gi_EntityID i) (gi_AsOf i)))
      | Some id =>
        match GetEntity g id with
        | (None, _) => (sf, inl (notFoundMsg (sv_graph s) (gi_EntityID i) (gi_AsOf i)))
        | (Some e, deleted) =>
          let '(sf, note) := annotationFor (sv_graph s) id sf in
          (sf, inr (mkGetEntityOutput (graphMeta s g (gi_AsOf i)) (resolutionFor (sv_cadence s) id (gi_AsOf i))
            (entityWithProducers (sv_cadence s) e deleted compact (gi_AsOf i)) note (canonicalGroup g (sv_idThr s) id)))
        end
      end
    end
  end.

(** ** get_neighbors *)

Definition maxDepth : Z := 5.

(** A neighbour with the edge that first reached it: who asserts that edge, and for an
    observed endpoint what it denotes. *)
Record Neighbor := mkNeighbor {
  nb_Entity : EntityOut; nb_ViaRelation : string; nb_Direction : string; nb_Depth : Z;
  nb_ViaAssertedBy : option (list string); nb_ViaCollectedBy : option (list string); nb_ViaWithheld : bool; nb_Resolved : option EntityOut }.

Definition attachEdgeProvenance (cad : option Cadence) (id : RelationID) (asOf : option Time) : option (list string) * option (list string) * bool :=
  match cad, asOf with
  | None, _ => (None, None, false)
  | Some _, Some _ => (None, None, true)
  | Some c, None => (Some (cd_RelationAssertingProducers c id), Some (cd_RelationAssertingScopes c id), false)
  end.

Record Wave := mkWave { wv_visited : gset string; wv_next : list EntityID; wv_found : list Neighbor }.

Section wave.
Context (g : Graph) (cad : option Cadence) (asOf : option Time) (compact : bool) (relType : string).

Definition neighborOf (d : Z) (e : edge) : Neighbor :=
  let ent := entity_of g (ed_other e) in
  let '(by_, collected, withheld) := attachEdgeProvenance cad (r_ID (ed_rel e)) asOf in
  mkNeighbor (entityOutV ent false compact) (r_Type (ed_rel e)) (ed_direction e) d by_ collected withheld
    (if bool_decide (e_Type ent = TypeNetworkEndpoint) then (λ r, entityOutV r false compact) <$> resolveEndpoint g ent else None).
Definition wave_edge (d : Z) (w : Wave) (e : edge) : Wave :=
  if bool_decide (ed_other e ∈ wv_visited w) then w
  else mkWave ({[ed_other e]} ∪ wv_visited w) (wv_next w ++ [ed_other e]) (wv_found w ++ [neighborOf d e]).
Definition wave_entity (d : Z) (w : Wave) (cur : EntityID) : Wave := foldl (wave_edge d) w (edgesOf g cur relType).
(** The rounds left, the round, and the frontier in [wv_next]. *)
Fixpoint wave_rounds (n : nat) (d : Z) (w : Wave) : Wave :=
  match n, wv_next w with
  | O, _ | _, [] => w
  | S n, frontier => wave_rounds n (d + 1) (foldl (wave_entity d) (mkWave (wv_visited w) [] (wv_found w)) frontier)
  end.
Definition wave (depth : Z) (start : EntityID) : Wave := wave_rounds (Z.to_nat depth) 1 (mkWave {[start]} [start] []).
End wave.

Definition neighbor_le (x y : Neighbor) : bool :=
  if nb_Depth x =? nb_Depth y then String.leb (eo_IdentityFingerprint (nb_Entity x)) (eo_IdentityFingerprint (nb_Entity y)) else nb_Depth x <? nb_Depth y.

(** ["%09d"] of a number that is not negative, a zero byte, the fingerprint. *)
Definition pad9 (z : Z) : string := let s := itoa z in string_of_list (replicate (9 - String.length s) "0"%char) +++ s.
Definition neighbor_key (n : Neighbor) : string := pad9 (nb_Depth n) +++ String (ascii_of_N 0) (eo_IdentityFingerprint (nb_Entity n)).
Fixpoint drop_while {A} (f : A → bool) (l : list A) : list A :=
  match l with [] => [] | x :: l' => if f x then drop_while f l' else l end.
Definition pageNeighbors (all : list Neighbor) (after : string) (limit : Z) : QueryError + list Neighbor * string :=
  match (if bool_decide (after = ""%string) then Some all
         else want ← decodeCursor after; Some (drop_while (λ n, String.leb (neighbor_key n) want) all)) with
  | None => inl (InvalidAfter after)
  | Some all =>
    if Z.of_nat (length all) <=? limit then inr (all, ""%string) else
    let page := take (Z.to_nat limit) all in
    inr (page, encodeCursor (from_option neighbor_key ""%string (last page)))
  end.

Record GetNeighborsInput := mkGetNeighborsInput {
  ni_EntityID : string; ni_RelationType : string; ni_MaxDepth : Z; ni_After : string; ni_Limit : Z; ni_AsOf : option Time; ni_Verbosity : string }.
Record GetNeighborsOutput := mkGetNeighborsOutput {
  no_Graph : GraphMeta; no_Neighbors : list Neighbor; no_Count : Z; no_NextCursor : string; no_Truncation : string; no_Total : Z; no_Truncated : bool }.

Definition neighbors_truncation (shown : nat) (total : Z) (cursor : string) : string :=
  itoa (Z.of_nat shown) +++ " of " +++ itoa total +++ " reachable neighbors returned, closest first; the rest is reachable by calling again with after=" +++
  dquote +++ cursor +++ dquote +++ ", and only that way".

Definition getNeighbors (ctx : nat → option string) (s : Server) (i : GetNeighborsInput) : QueryError + GetNeighborsOutput :=
  if bool_decide (ni_EntityID i = ""%string) then inl IDMissing else
  match parseVerbosity (ni_Verbosity i) with
  | inl err => inl err
  | inr compact =>
    let depth := if ni_MaxDepth i <=? 0 then 1 else ni_MaxDepth i in
    if maxDepth <? depth then inl (DepthExceeds (ni_MaxDepth i)) else
    let limit := clampLimit (ni_Limit i) in
    match graphAt ctx (ni_AsOf i) s with
    | inl err => inl err
    | inr g =>
      let missing := notFoundMsg (sv_graph s) (ni_EntityID i) (ni_AsOf i) in
      match ResolveHandle g (ni_EntityID i) with
      | None => inl missing
      | Some start =>
        match GetEntity g start with
        | (None, _) => inl missing
        | (Some _, _) =>
          let all := sort_stable neighbor_le (wv_found (wave g (sv_cadence s) (ni_AsOf i) compact (ni_RelationType i) depth start)) in
          match pageNeighbors all (ni_After i) limit with
          | inl err => inl err
          | inr (page, cursor) =>
            let total := Z.of_nat (length all) in
            let more := negb (bool_decide (cursor = ""%string)) in
            inr (mkGetNeighborsOutput (graphMeta s g (ni_AsOf i)) page (Z.of_nat (length page)) cursor
              (if more then neighbors_truncation (length page) total cursor else ""%string) total more)
          end
        end
      end
    end
  end.

(** ** describe_schema *)

(** A type's count, and whether it is decided to have no display name. *)
Record SchemaType := mkSchemaType { st_Count : TypeCount; st_DisplayNameAbsent : bool }.
Record DescribeSchemaOutput := mkDescribeSchemaOutput {
  ds_Graph : GraphMeta; ds_Description : string; ds_EntityTypes : list SchemaType; ds_RelationTypes : list TypeCount;
  ds_TotalEntities : Z; ds_TotalRelations : Z; ds_GovernanceAttributes : list GovernanceAttribute }.

Definition relationCounts (rels : list Relation) : gmap string Z := foldl (λ m r, bump (r_Type r) m) ∅ rels.
Definition joinCounts (tcs : list TypeCount) : string := join ", " ((λ tc, itoa (tc_Count tc) +++ " " +++ tc_Type tc) <$> tcs).
Definition describe (entities relations : Z) (entTypes relTypes : list TypeCount) (governance : nat) : string :=
  if entities =? 0 then "This Toise instance is empty: no entities have been observed yet." else
  "This Toise instance tracks " +++ itoa entities +++ " entities across " +++ itoa (Z.of_nat (length entTypes)) +++ " types" +++
  match entTypes with [] => "" | _ => " (" +++ joinCounts entTypes +++ ")" end +++
  (if 0 <? relations then ", connected by " +++ itoa relations +++ " relations across " +++ itoa (Z.of_nat (length relTypes)) +++ " types (" +++ joinCounts relTypes +++ ")"
   else ", with no relations recorded yet") +++ "." +++
  (if (0 <? governance)%nat then " Any entity may also carry " +++ itoa (Z.of_nat governance) +++
     " cross-cutting governance attributes (ownership, criticality, location, lifecycle) you can filter on — see governance_attributes." else "").

Definition describeSchema (ctx : nat → option string) (s : Server) (asOf : option Time) : QueryError + DescribeSchemaOutput :=
  match graphAt ctx asOf s with
  | inl err => inl err
  | inr g =>
    let entTypes := sortedCounts (CountByType g) in
    let relTypes := sortedCounts (relationCounts (ListRelations g "" "" "")) in
    inr (mkDescribeSchemaOutput (graphMeta s g asOf) (describe (EntityCount g) (RelationCount g) entTypes relTypes (length GovernanceAttributes))
      ((λ tc, mkSchemaType tc (DisplayNameAbsentReason (tc_Type tc)).2) <$> entTypes) relTypes (EntityCount g) (RelationCount g) GovernanceAttributes)
  end.
End server.
