(* ===== verification/QuerySpec.v ===== *)
(** * What the query tools answer

    Following the cursors of find_entities reads every matching entity once; get_neighbors
    answers the bounded neighbourhood at its least distances, and pages through it; an
    endpoint denotes what it is served by; an answer about the past says nothing of now. *)
From S2P Require Import Prelude GoStd Values Vocabulary Entities Events DisplayNames Projection ProjectionInv ProjectionSpec ProjectionReads Keys Store Traverse TraverseSpec GoParse Query.
Open Scope Z_scope.

(** ** Paging by key *)

Section client.
Context {A : Type} (key : A → string) (limit : nat) (M : list A).

(** What lies past a key, a page of it, and the key to resume from: none on the last. *)
Definition past (k : string) : list A := base.filter (λ x, bool_decide (k = ""%string) || negb (String.leb (key x) k) = true) M.
Definition page (k : string) : list A * string :=
  if (length (past k) <=? limit)%nat then (past k, ""%string)
  else (take limit (past k), from_option key ""%string (last (take limit (past k)))).
Fixpoint follow (fuel : nat) (k : string) : list (list A * string) :=
  match fuel with
  | O => []
  | S fuel => page k :: if bool_decide ((page k).2 = ""%string) then [] else follow fuel (page k).2
  end.

Hypothesis Hsorted : StronglySorted (key_le key) M.
Hypothesis Hnd : NoDup (key <$> M).
Hypothesis Hne : ∀ x, x ∈ M → key x ≠ ""%string.
Hypothesis Hlimit : (0 < limit)%nat.

Lemma past_start : past "" = M.
Proof. apply filter_all. done. Qed.
Lemma past_after l1 x l2 : M = (l1 ++ x :: l2)%list → past (key x) = l2.
Proof.
  intros E. assert (bool_decide (key x = ""%string) = false) as Hb by (apply bool_decide_eq_false, Hne; rewrite E; set_solver).
  pose proof Hsorted as Hs. pose proof Hnd as Hd. unfold past. rewrite Hb E in Hs, Hd |- *.
  apply StronglySorted_app in Hs as (Hle & _ & [Hall _]%StronglySorted_cons). rewrite fmap_app fmap_cons in Hd. apply NoDup_app in Hd as (_ & _ & [Hx _]%NoDup_cons).
  rewrite list.filter_app filter_none; [rewrite filter_cons_False; [apply filter_all|]|]; simpl.
  - intros y Hy. rewrite Forall_forall in Hall. apply negb_true_iff, not_true_iff_false. intros Hyx.
    apply Hx. rewrite (anti_symm str_le (key x) (key y) (Hall _ Hy) Hyx). by apply list_elem_of_fmap_2.
  - rewrite negb_true_iff not_false_iff_true. apply (reflexivity (R:=str_le)).
  - intros y Hy. rewrite negb_true_iff not_false_iff_true. apply (Hle y x Hy). left.
Qed.

Lemma follow_from fuel : ∀ k done_, M = (done_ ++ past k)%list → (length (past k) < fuel)%nat →
  concat (follow fuel k).*1 = past k ∧ (∃ p, last (follow fuel k) = Some (p, ""%string)) ∧
  Forall (λ p, p.2 = ""%string ∨ length p.1 = limit) (follow fuel k) ∧ Forall (λ p, (length p.1 <= limit)%nat) (follow fuel k).
Proof.
  induction fuel as [|fuel IH]; intros k done_ HM Hf; [lia|]. cbn [follow]. unfold page. destruct (Nat.leb_spec (length (past k)) limit) as [Hle|Hgt].
  { rewrite /= app_nil_r. split_and!; [done|by eexists|repeat constructor; by left|by repeat constructor]. }
  destruct (take limit (past k)) as [|y l _] eqn:Et using rev_ind.
  { apply (f_equal length) in Et. rewrite length_take /= in Et. lia. }
  assert (M = ((done_ ++ l) ++ y :: drop limit (past k))%list) as Hsplit.
  { rewrite HM -{1}(take_drop limit (past k)) Et -!(assoc_L app). done. }
  assert (key y ≠ ""%string) as Hy by (apply Hne; rewrite Hsplit; set_solver).
  pose proof (past_after _ _ _ Hsplit) as Hp. rewrite last_snoc. cbn [from_option fst snd]. rewrite bool_decide_eq_false_2 //.
  destruct (IH (key y) ((done_ ++ l) ++ [y])%list) as (H1 & (p & H2) & H3 & H4); [by rewrite Hp -(assoc_L app)|rewrite Hp length_drop; lia|].
  assert (length (l ++ [y]) = limit) as Hlen by (rewrite -Et length_take; lia).
  split_and!.
  - rewrite fmap_cons /= H1 Hp -Et take_drop. done.
  - exists p. destruct (follow fuel (key y)); [done|]. by rewrite last_cons_cons.
  - constructor; [by right|done].
  - constructor; [simpl; lia|done].
Qed.
Lemma follow_all fuel : (length M < fuel)%nat →
  concat (follow fuel "").*1 = M ∧ (∃ p, last (follow fuel "") = Some (p, ""%string)) ∧
  Forall (λ p, p.2 = ""%string ∨ length p.1 = limit) (follow fuel "") ∧ Forall (λ p, (length p.1 <= limit)%nat) (follow fuel "").
Proof. intros Hf. pose proof (follow_from fuel "" [] (eq_sym past_start)) as H. rewrite past_start in H. by apply H. Qed.
End client.

(** ** find_entities *)

Section listing.
Context (g : Graph) (Hwf : wf g) (typ : string).

Lemma indexed_hash fi : fi ∈ indexed g typ → IdentityHash (entity_at g fi.2) = fi.1.
Proof.
  unfold indexed. intros [_ Hin]%list_elem_of_filter. destruct fi as [h id]. apply elem_of_map_to_list in Hin.
  apply (wf_byHash g (wf_E _ Hwf)) in Hin as (e & He & <-). apply live_lookup in He as [He _]. unfold entity_at. by rewrite /= He.
Qed.
(** The listing is the index, and in its order. *)
Lemma listing_keys l : (∀ fi, fi ∈ l → fi ∈ indexed g typ) → IdentityHash <$> ((λ fi, entity_at g fi.2) <$> l) = l.*1.
Proof. intros Hl. rewrite -list_fmap_compose. apply list_fmap_ext. intros i fi Hi%list_elem_of_lookup_2. by apply indexed_hash, Hl. Qed.
Lemma listing_sorted : StronglySorted (key_le IdentityHash) (ListEntitiesByFingerprint g typ).
Proof.
  unfold ListEntitiesByFingerprint. pose proof (sort_by_sorted fst (indexed g typ)) as Hs.
  assert (∀ fi, fi ∈ sort_by fst (indexed g typ) → IdentityHash (entity_at g fi.2) = fi.1) as Hh by (intros fi; rewrite sort_by_elem; apply indexed_hash).
  induction Hs as [|fi l Hs IH Hall]; [constructor|]. cbn [map]. constructor; [apply IH; intros; apply Hh; by right|].
  apply Forall_fmap. rewrite Forall_forall in Hall. apply Forall_forall. intros fi' Hfi'. unfold key_le, compose. simpl.
  rewrite !Hh; [by apply Hall|by right|by left].
Qed.
Lemma listing_NoDup : NoDup (IdentityHash <$> ListEntitiesByFingerprint g typ).
Proof.
  unfold ListEntitiesByFingerprint. change (map ?f ?l) with (f <$> l). rewrite listing_keys; [|intros fi; apply sort_by_elem]. rewrite sort_by_perm. apply indexed_NoDup.
Qed.
Lemma listing_nonempty e : IdentityHash e ≠ ""%string.
Proof. unfold IdentityHash, identity_hash. by destruct (e_Type e). Qed.
End listing.

Lemma listing_elem g typ e : wf g → e ∈ ListEntitiesByFingerprint g typ ↔ live g !! e_ID e = Some e ∧ filter_ok typ (e_Type e) = true.
Proof.
  intros Hwf. unfold ListEntitiesByFingerprint. rewrite list_elem_of_fmap. setoid_rewrite (sort_by_elem fst). unfold indexed. setoid_rewrite list_elem_of_filter. split.
  - intros ([h id] & -> & Hf & Hin%elem_of_map_to_list). apply (wf_byHash g (wf_E _ Hwf)) in Hin as (e & He & _). pose proof He as [He' Hd]%live_lookup.
    unfold entity_at. simpl in *. rewrite He' in Hf |- *. simpl. apply andb_true_iff in Hf as [_ Hf]. rewrite (wf_ids g (wf_E _ Hwf) _ _ He'). done.
  - intros [He Hf]. pose proof He as [He' Hd]%live_lookup. exists (IdentityHash e, e_ID e). unfold entity_at. simpl. rewrite He'. split; [done|].
    split; [rewrite Hf andb_true_r; unfold is_deleted; by rewrite bool_decide_eq_false_2|]. apply elem_of_map_to_list, (wf_byHash g (wf_E _ Hwf)). by exists e.
Qed.

(** What an input asks for, and how it is shown. *)
Definition wanted (g : Graph) (i : FindEntitiesInput) : list Entity :=
  base.filter (λ e, MatchAll e (fe_Match i) = true) (ListEntitiesByFingerprint g (fe_Type i)).
Definition from_cursor (i : FindEntitiesInput) (after : string) : FindEntitiesInput :=
  mkFindEntitiesInput (fe_Type i) (fe_Match i) (fe_Limit i) (fe_AsOf i) (fe_Verbosity i) after.
Definition cursor (k : string) : string := if bool_decide (k = ""%string) then ""%string else encodeCursor k.

Lemma cursor_decodes k : k ≠ ""%string → decodeCursor (cursor k) = Some k ∧ cursor k ≠ ""%string.
Proof. intros Hk. unfold cursor, decodeCursor, encodeCursor. rewrite bool_decide_eq_false_2 // decode_encode_string. split; [done|by apply encode_nonempty]. Qed.

Lemma sorted_lookup {A} (R : relation A) (l : list A) : StronglySorted R l → ∀ i j x y, (i < j)%nat → l !! i = Some x → l !! j = Some y → R x y.
Proof.
  induction 1 as [|z l Hs IH Hall]; [done|]. intros [|i] [|j] x y Hij; try lia; simpl.
  - intros [= ->] Hy%list_elem_of_lookup_2. rewrite Forall_forall in Hall. by apply Hall.
  - apply IH. lia.
Qed.

(** Dropping up to the first element past a key is filtering, in order. *)
Lemma drop_past (M : list Entity) k : k ≠ ""%string → StronglySorted (key_le IdentityHash) M →
  drop (Search (length M) (λ i, match M !! i with Some e => negb (String.leb (IdentityHash e) k) | None => true end)) M = past IdentityHash M k.
Proof.
  intros Hk Hs. set (f := λ i, _). destruct (Search_spec f) with (n := length M) as [Hlo Hhi].
  - intros i j Hij. unfold f. destruct (M !! j) as [y|] eqn:Ej; [|done]. destruct (lookup_lt_is_Some_2 M i) as [x Ei]; [apply lookup_lt_Some in Ej; lia|]. rewrite Ei.
    rewrite !negb_true_iff. intros Hx. apply not_true_iff_false. intros Hy. apply not_true_iff_false in Hx. apply Hx.
    change (str_le (IdentityHash x) k). transitivity (IdentityHash y); [|done]. destruct (decide (i = j)) as [->|Hne]; [simplify_eq; reflexivity|].
    apply (sorted_lookup _ _ Hs i j); [lia|done..].
  - intros i Hi. unfold f. by rewrite (lookup_ge_None_2 M i).
  - set (n := Search _ f) in *. rewrite -{2}(take_drop n M). unfold past. rewrite bool_decide_eq_false_2 //= list.filter_app filter_none ?filter_all //.
    + intros x (i & Hi)%list_elem_of_lookup. rewrite lookup_drop in Hi. specialize (Hhi (n + i)%nat ltac:(lia)). unfold f in Hhi. by rewrite Hi in Hhi.
    + intros x (i & Hi)%list_elem_of_lookup. apply lookup_take_Some in Hi as [Hi Hlt]. specialize (Hlo i Hlt). unfold f in Hlo. rewrite Hi in Hlo. by rewrite Hlo.
Qed.

Lemma wanted_sorted g i : wf g → StronglySorted (key_le IdentityHash) (wanted g i).
Proof. intros Hwf. apply sorted_filter, listing_sorted, Hwf. Qed.
Lemma wanted_NoDup g i : wf g → NoDup (IdentityHash <$> wanted g i).
Proof. intros Hwf. apply NoDup_fmap_filter, listing_NoDup, Hwf. Qed.

Section find.
Context {D : Type} `{!Pebble D} `{!Proto}.
Context (ctx : nat → option string) (s : Server (D := D)) (i : FindEntitiesInput) (g : Graph) (compact : bool).
Hypothesis Hg : graphAt ctx (fe_AsOf i) s = inr g.
Hypothesis Hv : parseVerbosity (fe_Verbosity i) = inr compact.
Hypothesis Hwf : wf g.

Definition find_limit : nat := Z.to_nat (clampLimit (fe_Limit i)).
Lemma find_limit_pos : (0 < find_limit)%nat ∧ Z.of_nat find_limit = clampLimit (fe_Limit i).
Proof. unfold find_limit. pose proof (clampLimit_pos (fe_Limit i)). lia. Qed.

(** The projection's page is the page of the listing. *)
Lemma projected_page k : fe_Match i = ∅ →
  PageEntitiesByFingerprint g (fe_Type i) k (clampLimit (fe_Limit i)) =
  ((page IdentityHash find_limit (wanted g i) k).1, (page IdentityHash find_limit (wanted g i) k).2, Z.of_nat (length (wanted g i))).
Proof.
  intros Hm. assert (wanted g i = (λ fi, entity_at g fi.2) <$> sort_by fst (indexed g (fe_Type i))) as Hw.
  { unfold wanted, ListEntitiesByFingerprint. rewrite Hm. apply filter_all. intros e _. unfold MatchAll. by rewrite map_to_list_empty. }
  set (ks := base.filter (λ fi, bool_decide (k = ""%string) || negb (String.leb fi.1 k) = true) (sort_by fst (indexed g (fe_Type i)))).
  assert (∀ fi, fi ∈ sort_by fst (indexed g (fe_Type i)) → IdentityHash (entity_at g fi.2) = fi.1) as Hh by (intros fi; rewrite sort_by_elem; by apply indexed_hash).
  assert (past IdentityHash (wanted g i) k = (λ fi, entity_at g fi.2) <$> ks) as Hp.
  { unfold past, ks. rewrite Hw. clear -Hh. induction (sort_by fst _) as [|fi l IH]; [done|]. rewrite fmap_cons !filter_cons Hh; [|by left].
    rewrite IH; [|intros; apply Hh; by right]. by destruct (decide (_ || _ = true)). }
  assert (∀ fi, fi ∈ ks → IdentityHash (entity_at g fi.2) = fi.1) as Hh' by (intros fi [_ ?]%list_elem_of_filter; by apply Hh).
  rewrite (page_after _ _ _ k ks) //. pose proof find_limit_pos as [_ Hl]. unfold page. rewrite Hp length_fmap -Hl.
  assert (Z.of_nat (length (indexed g (fe_Type i))) = Z.of_nat (length (wanted g i))) as -> by (by rewrite Hw length_fmap sort_by_perm).
  rewrite Nat2Z.id. destruct (Z.ltb_spec (Z.of_nat find_limit) (Z.of_nat (length ks))), (Nat.leb_spec (length ks) find_limit); try lia; [|done]. simpl.
  rewrite -fmap_take. f_equal. f_equal. rewrite fmap_last. destruct (last (take find_limit ks)) as [fi|] eqn:E; [|done]. simpl. symmetry. apply Hh'.
  apply last_Some_elem_of in E. by apply elem_of_take in E as (n & E%list_elem_of_lookup_2 & _).
Qed.

(** One answer: a page of what is wanted. *)
Lemma find_page k : (∀ e, e ∈ wanted g i → IdentityHash e ≠ ""%string) →
  findEntities ctx s (from_cursor i (cursor k)) =
  inr (found s i g compact (page IdentityHash find_limit (wanted g i) k).1 (cursor (page IdentityHash find_limit (wanted g i) k).2) (Z.of_nat (length (wanted g i)))).
Proof.
  intros Hne. unfold findEntities. cbn [from_cursor fe_Verbosity fe_AsOf fe_Match fe_Type fe_Limit fe_After]. rewrite Hv Hg. case_bool_decide as Hm.
  - destruct (decide (k = ""%string)) as [->|Hk].
    + rewrite (bool_decide_eq_true_2 (cursor "" = ""%string)) // projected_page //.
    + destruct (cursor_decodes k Hk) as [Hd Hc]. rewrite bool_decide_eq_false_2 // Hd projected_page //.
  - fold (wanted g i). unfold pageByFingerprint. pose proof find_limit_pos as [_ Hl].
    assert ((if bool_decide (cursor k = ""%string) then Some (wanted g i) else
      fp ← decodeCursor (cursor k); Some (drop (Search (length (wanted g i)) (λ j, match wanted g i !! j with Some e => negb (String.leb (IdentityHash e) fp) | None => true end)) (wanted g i)))
      = Some (past IdentityHash (wanted g i) k)) as ->.
    { destruct (decide (k = ""%string)) as [->|Hk]; [by rewrite past_start|]. destruct (cursor_decodes k Hk) as [Hd Hc]. rewrite bool_decide_eq_false_2 // Hd /= drop_past //. by apply wanted_sorted. }
    unfold page. rewrite -Hl Nat2Z.id. destruct (Z.leb_spec (Z.of_nat (length (past IdentityHash (wanted g i) k))) (Z.of_nat find_limit)), (Nat.leb_spec (length (past IdentityHash (wanted g i) k)) find_limit); try lia; [done|].
    cbn [fst snd]. destruct (last (take find_limit _)) as [e|] eqn:E; [|apply last_None, (f_equal length) in E; rewrite length_take /= in E; pose proof find_limit_pos; lia].
    cbn [from_option]. unfold cursor at 2. rewrite (bool_decide_eq_false_2 (IdentityHash e = ""%string)) //. apply Hne. apply last_Some_elem_of in E. apply elem_of_take in E as (n & E%list_elem_of_lookup_2 & _). by apply list_elem_of_filter in E as [_ ?].
Qed.

(** A client that follows the cursor. *)
Fixpoint answers (fuel : nat) (after : string) : list (QueryError + FindEntitiesOutput) :=
  match fuel with
  | O => []
  | S fuel =>
    match findEntities ctx s (from_cursor i after) with
    | inl err => [inl err]
    | inr out => inr out :: if bool_decide (fo_NextCursor out = ""%string) then [] else answers fuel (fo_NextCursor out)
    end
  end.

Definition shown (e : Entity) : Shown := attachProducers (sv_cadence s) (entityOutV e false compact) (e_ID e) compact (fe_AsOf i).

Lemma answers_follow fuel : ∀ k, (∀ e, e ∈ wanted g i → IdentityHash e ≠ ""%string) →
  answers fuel (cursor k) = (λ p, inr (found s i g compact p.1 (cursor p.2) (Z.of_nat (length (wanted g i))))) <$> follow IdentityHash find_limit (wanted g i) fuel k.
Proof.
  induction fuel as [|fuel IH]; intros k Hne; [done|]. cbn [answers follow]. rewrite find_page // fmap_cons. f_equal. cbn [found fo_NextCursor].
  set (k' := (page IdentityHash find_limit (wanted g i) k).2). destruct (decide (k' = ""%string)) as [->|Hk]; [done|].
  destruct (cursor_decodes k' Hk) as [_ Hc]. rewrite !bool_decide_eq_false_2 //. by apply IH.
Qed.
End find.

(** C22. Following the cursor of find_entities reads everything. On a well-formed graph a
    client that starts without a cursor and passes each answer's next_cursor on gets
    answers only, no error; in no more calls than there are matches, and one, it comes to
    an answer without a cursor. The entities of the answers, in order, are each entity of
    the type that matches the filter, once, by fingerprint; every answer tells their number
    as its total; an answer holds at most the clamped limit, exactly that many when it is
    truncated, and says it is truncated just when it has a cursor. *)
Theorem find_enumerates {D : Type} `{!Pebble D} `{!Proto} (ctx : nat → option string) (s : Server (D := D)) (i : FindEntitiesInput) (g : Graph) (compact : bool) (fuel : nat)
    (Hg : graphAt ctx (fe_AsOf i) s = inr g) (Hv : parseVerbosity (fe_Verbosity i) = inr compact) (Hwf : wf g)
    (Hfuel : (length (wanted g i) < fuel)%nat) :
  ∃ outs, answers ctx s i fuel "" = inr <$> outs ∧
    concat (fo_Entities <$> outs) = shown s i compact <$> wanted g i ∧
    NoDup (wanted g i) ∧ (∀ e, e ∈ wanted g i ↔ live g !! e_ID e = Some e ∧ filter_ok (fe_Type i) (e_Type e) = true ∧ MatchAll e (fe_Match i) = true) ∧
    (∃ out, last outs = Some out ∧ fo_Truncated out = false) ∧
    ∀ out, out ∈ outs → fo_Total out = Z.of_nat (length (wanted g i)) ∧ (fo_Truncated out = true ↔ fo_NextCursor out ≠ ""%string) ∧
      Z.of_nat (length (fo_Entities out)) <= clampLimit (fe_Limit i) ∧
      (fo_Truncated out = true → Z.of_nat (length (fo_Entities out)) = clampLimit (fe_Limit i)).
Proof.
  assert (∀ e, e ∈ wanted g i → IdentityHash e ≠ ""%string) as Hne by (intros; apply listing_nonempty).
  pose proof (answers_follow ctx s i g compact Hg Hv Hwf fuel "" Hne) as Ha. change (cursor "") with ""%string in Ha.
  destruct (find_limit_pos i) as [Hpos Hl].
  destruct (follow_all IdentityHash (find_limit i) (wanted g i) (wanted_sorted g i Hwf) (wanted_NoDup g i Hwf) Hne Hpos fuel Hfuel) as (Hall & (p & Hlast) & Hfull & Hsz).
  set (fs := follow _ _ _ _ _) in *.
  exists ((λ p, found s i g compact p.1 (cursor p.2) (Z.of_nat (length (wanted g i)))) <$> fs). split; [by rewrite Ha -list_fmap_compose|].
  split.
  { rewrite -list_fmap_compose -Hall. clear. induction fs as [|p fs IH]; [done|]. rewrite !fmap_cons /= fmap_app IH. done. }
  split; [eapply NoDup_fmap_1, (wanted_NoDup g i Hwf)|]. split.
  { intros e. unfold wanted. rewrite list_elem_of_filter listing_elem //. tauto. }
  split.
  { rewrite fmap_last Hlast. eexists. split; [reflexivity|]. done. }
  intros out (p' & -> & Hp')%list_elem_of_fmap. rewrite Forall_forall in Hfull. rewrite Forall_forall in Hsz. specialize (Hfull p' Hp'). specialize (Hsz p' Hp').
  cbn [found fo_Total fo_Truncated fo_NextCursor fo_Entities]. rewrite length_fmap negb_true_iff bool_decide_eq_false. split_and!; [done..|lia|].
  intros Hc. destruct Hfull as [E|E]; [by rewrite E in Hc|lia].
Qed.

(** ** The neighbourhood *)

Section hood.
Context (g : Graph) (Hwf : wf g) (cad : option Cadence) (asOf : option Time) (compact : bool) (relType : string) (start : EntityID).

(** One hop: over a relation of the type, in either direction, to a live entity. *)
Definition hop (a : EntityID) (e : edge) (b : EntityID) : Prop :=
  ∃ r, g_relations g !! r_ID r = Some r ∧ filter_ok relType (r_Type r) = true ∧ (r_From r = a ∨ r_To r = a) ∧
    e = edge_from a r ∧ ed_other e = b ∧ is_Some (live g !! b).
Definition at_hops (n : nat) (b : EntityID) : Prop := nsteps (λ a b, ∃ e, hop a e b) n start b.
(** Reached in exactly so many hops, and at the earliest. *)
Definition nearest (n : nat) (b : EntityID) : Prop := at_hops n b ∧ ∀ k, (k < n)%nat → ¬ at_hops k b.
(** A neighbour: live, at its distance, with a last hop of a shortest way to it. *)
Definition neighbor_at (n : nat) (x : EntityID) (nb : Neighbor) : Prop :=
  ∃ a e, nearest (S n) x ∧ nearest n a ∧ hop a e x ∧ nb = neighborOf g cad asOf compact (Z.of_nat (S n)) e.

Lemma at_hops_S n b : at_hops (S n) b ↔ ∃ a e, at_hops n a ∧ hop a e b.
Proof.
  unfold at_hops. split.
  - intros (a & Ha & e & He)%nsteps_inv_r. eauto.
  - intros (a & e & Ha & He). eapply nsteps_r; eauto.
Qed.
Lemma nearest_S n a e b : nearest (S n) b → at_hops n a → hop a e b → nearest n a.
Proof. intros [_ Hmin] Ha He. split; [done|]. intros k Hk Hka. apply (Hmin (S k)); [lia|]. apply at_hops_S. eauto. Qed.
Lemma nearest_fun n m x : nearest n x → nearest m x → n = m.
Proof. intros [H1 H2] [H3 H4]. destruct (Nat.lt_trichotomy n m) as [?|[?|?]]; [by destruct (H4 n)|done|by destruct (H2 m)]. Qed.

(** The edges out of a frontier, in order. *)
Definition fan (frontier : list EntityID) : list edge := frontier ≫= λ cur, edgesOf g cur relType.
Lemma fan_elem frontier e b : e ∈ fan frontier ∧ ed_other e = b ↔ ∃ a, a ∈ frontier ∧ hop a e b.
Proof.
  unfold fan, hop. rewrite list_elem_of_bind. setoid_rewrite edges_elem; [|done]. naive_solver.
Qed.

Definition wave_add (d : Z) (w : Wave) (l : list edge) : Wave :=
  let D := discover ed_other (wv_visited w) l in
  mkWave (list_to_set (ed_other <$> D) ∪ wv_visited w) (wv_next w ++ (ed_other <$> D)) (wv_found w ++ (neighborOf g cad asOf compact d <$> D)).
Lemma wave_edges d es : ∀ w, foldl (wave_edge g cad asOf compact d) w es = wave_add d w es.
Proof.
  induction es as [|e es IH]; intros [V N F]; [unfold wave_add; simpl; rewrite !app_nil_r; f_equal; set_solver|].
  simpl. rewrite IH. unfold wave_add, wave_edge. simpl. case_bool_decide; [done|]. simpl. rewrite -!(assoc_L app). f_equal. set_solver.
Qed.
Lemma wave_frontier d frontier : ∀ w, foldl (wave_entity g cad asOf compact relType d) w frontier = wave_add d w (fan frontier).
Proof.
  induction frontier as [|cur frontier IH]; intros w; [destruct w; unfold wave_add; simpl; rewrite !app_nil_r; f_equal; set_solver|].
  simpl. rewrite IH. unfold wave_entity. rewrite wave_edges. unfold wave_add. simpl.
  rewrite discover_app !fmap_app -!(assoc_L app). f_equal. set_solver.
Qed.

Definition nb_ID (nb : Neighbor) : string := eo_ID (nb_Entity nb).
Lemma neighbor_id d e : is_Some (live g !! ed_other e) → nb_ID (neighborOf g cad asOf compact d e) = ed_other e.
Proof.
  intros [x Hx]. unfold nb_ID, neighborOf. rewrite (entity_of_live _ _ _ Hx). destruct (attachEdgeProvenance _ _ _) as [[] ]. simpl.
  apply live_lookup in Hx as [Hx _]. apply (wf_ids g (wf_E _ Hwf) _ _ Hx).
Qed.
Lemma neighbor_ids d (l : list edge) : (∀ e, e ∈ l → is_Some (live g !! ed_other e)) → nb_ID <$> (neighborOf g cad asOf compact d <$> l) = ed_other <$> l.
Proof. intros H. rewrite -list_fmap_compose. apply list_fmap_ext. intros i e He. apply neighbor_id, H. by eapply list_elem_of_lookup_2. Qed.

(** After so many rounds. *)
Record spread_to (d : nat) (w : Wave) : Prop := {
  sp_visited : ∀ x, x ∈ wv_visited w ↔ ∃ n, (n ≤ d)%nat ∧ at_hops n x;
  sp_next : ∀ x, x ∈ wv_next w ↔ nearest d x;
  sp_found : ∀ nb, nb ∈ wv_found w → ∃ n, (S n ≤ d)%nat ∧ neighbor_at n (nb_ID nb) nb;
  sp_all : ∀ n x, (S n ≤ d)%nat → nearest (S n) x → x ∈ nb_ID <$> wv_found w;
  sp_once : NoDup (nb_ID <$> wv_found w);
  sp_known : ∀ x, x ∈ nb_ID <$> wv_found w → x ∈ wv_visited w;
}.
Lemma spread_0 : spread_to 0 (mkWave {[start]} [start] []).
Proof.
  assert (∀ x, at_hops 0 x ↔ x = start) as H0 by (intros x; unfold at_hops; split; [intros H; inversion H; by subst|intros ->; constructor]).
  split; simpl.
  - intros x. rewrite elem_of_singleton -H0. split; [intros H; by exists 0%nat|intros (n & Hn & H); by assert (n = 0)%nat as -> by lia].
  - intros x. rewrite list_elem_of_singleton -H0. split; [intros H; split; [done|lia]|by intros [? _]].
  - by intros nb ?%elem_of_nil.
  - lia.
  - constructor.
  - by intros x ?%elem_of_nil.
Qed.

(** What one round discovers. *)
Lemma wave_new d w e : spread_to d w → e ∈ discover ed_other (wv_visited w) (fan (wv_next w)) →
  is_Some (live g !! ed_other e) ∧ nearest (S d) (ed_other e) ∧ ∃ a, nearest d a ∧ hop a e (ed_other e).
Proof.
  intros [V F _ _ _ _] [He Hn]%discover_elem. destruct (proj1 (fan_elem (wv_next w) e (ed_other e)) (conj He eq_refl)) as (a & Ha & Hs).
  split; [by destruct Hs as (r & _ & _ & _ & _ & _ & ?)|]. apply F in Ha. split; [|by exists a]. split.
  - apply at_hops_S. exists a, e. by destruct Ha.
  - intros k Hk Hka. apply Hn, V. exists k. split; [lia|done].
Qed.
Lemma wave_all d w x : spread_to d w → nearest (S d) x → x ∈ ed_other <$> discover ed_other (wv_visited w) (fan (wv_next w)).
Proof.
  intros [V F _ _ _ _] Hx. apply discover_keys. split.
  - destruct (Hx) as [(a & e & Ha & Hs)%at_hops_S _]. destruct (proj2 (fan_elem (wv_next w) e x)) as [He <-].
    { exists a. split; [|done]. apply F. by eapply nearest_S. }
    by apply list_elem_of_fmap_2.
  - intros (n & Hn & Ha)%V. destruct Hx as [_ Hmin]. apply (Hmin n); [lia|done].
Qed.

Lemma spread_S d w : spread_to d w →
  spread_to (S d) (foldl (wave_entity g cad asOf compact relType (Z.of_nat (S d))) (mkWave (wv_visited w) [] (wv_found w)) (wv_next w)).
Proof.
  intros Hw. rewrite wave_frontier. unfold wave_add. cbn [wv_visited wv_next wv_found]. rewrite app_nil_l.
  set (D := discover ed_other (wv_visited w) (fan (wv_next w))).
  assert (∀ e, e ∈ D → is_Some (live g !! ed_other e)) as Hlive by (intros e He; by apply (wave_new d w)).
  assert (∀ x, x ∈ ed_other <$> D ↔ nearest (S d) x) as HD.
  { intros x. split; [|by apply wave_all]. intros (e & -> & He)%list_elem_of_fmap. by apply (wave_new d w). }
  pose proof Hw as [V F E A O K]. split; cbn [wv_visited wv_next wv_found].
  - intros x. rewrite elem_of_union elem_of_list_to_set HD V. split.
    + intros [[? _]|(n & ? & ?)]; [by exists (S d)|]. exists n. split; [lia|done].
    + intros (n & Hn & Ha). destruct (decide (x ∈ wv_visited w)) as [?%V|Hnone]; [by right|].
      left. assert (∀ k, (k ≤ d)%nat → ¬ at_hops k x) as Hk by (intros k Hk Hak; apply Hnone, V; eauto).
      split; [|intros k ?; apply Hk; lia]. destruct (decide (n = S d)) as [->|]; [done|]. destruct (Hk n); [lia|done].
  - done.
  - intros nb [(n & Hn & H)%E|(e & -> & He)%list_elem_of_fmap]%elem_of_app; [exists n; split; [lia|done]|].
    destruct (wave_new d w e Hw He) as (Hl & Hf & a & Ha & Hs). exists d. split; [done|]. rewrite (neighbor_id _ _ Hl). by exists a, e.
  - intros n x Hn Hf. rewrite fmap_app elem_of_app (neighbor_ids _ _ Hlive) HD. destruct (decide (n = d)) as [->|]; [by right|left].
    apply (A n); [lia|done].
  - rewrite fmap_app (neighbor_ids _ _ Hlive). apply NoDup_app. split_and!; [done| |apply discover_NoDup].
    intros x Hx%K (_ & Hn)%discover_keys. done.
  - intros x. rewrite fmap_app elem_of_app (neighbor_ids _ _ Hlive) elem_of_union elem_of_list_to_set. intros [?%K|?]; [by right|by left].
Qed.

Lemma spread_stop d j w : spread_to d w → wv_next w = [] → (d ≤ j)%nat → spread_to j w.
Proof.
  intros Hw Hn Hj. assert (∀ j x, (d ≤ j)%nat → ¬ nearest j x) as Hnone.
  { intros k x Hk. revert x. induction Hk as [|k Hk IH]; intros x Hx.
    - apply (sp_next _ _ Hw) in Hx. rewrite Hn in Hx. by apply elem_of_nil in Hx.
    - destruct (Hx) as [(a & e & Ha & Hs)%at_hops_S _]. apply (IH a). by eapply nearest_S. }
  assert (∀ n x, at_hops n x → ∃ k, (k ≤ d)%nat ∧ at_hops k x) as Hnear.
  { intros n x. induction n as [n IH] using lt_wf_ind. intros Ha. destruct (decide (n ≤ d)%nat); [by exists n|].
    destruct (decide (x ∈ wv_visited w)) as [Hv|Hv]; [by apply (sp_visited _ _ Hw)|]. exfalso. apply (Hnone n x); [lia|]. split; [done|].
    intros k Hk Hka. apply Hv, (sp_visited _ _ Hw). by apply (IH k). }
  destruct Hw as [V F E A O K]. split; try done.
  - intros x. rewrite V. split; [intros (n & ? & ?); exists n; split; [lia|done]|]. intros (n & _ & Ha). by apply (Hnear n).
  - intros x. rewrite Hn. split; [by intros ?%elem_of_nil|]. intros Hx. by destruct (Hnone j x).
  - intros nb (n & ? & ?)%E. exists n. split; [lia|done].
  - intros n x Hnj Hx. destruct (decide (S n ≤ d)%nat); [by apply (A n)|]. destruct (Hnone (S n) x); [lia|done].
Qed.
Lemma wave_rounds_spec k : ∀ d w, spread_to d w → spread_to (d + k) (wave_rounds g cad asOf compact relType k (Z.of_nat (S d)) w).
Proof.
  induction k as [|k IH]; intros d w Hw; simpl wave_rounds; [by rewrite Nat.add_0_r|].
  destruct (wv_next w) as [|x l] eqn:Hn; [apply (spread_stop d); [done..|lia]|]. rewrite -Nat.add_succ_comm.
  replace (Z.of_nat (S d) + 1) with (Z.of_nat (S (S d))) by lia. apply IH. pose proof (spread_S d w Hw) as H. by rewrite Hn in H.
Qed.
Lemma wave_exact depth : spread_to (Z.to_nat depth) (wave g cad asOf compact relType depth start).
Proof. apply (wave_rounds_spec (Z.to_nat depth) 0). apply spread_0. Qed.
End hood.

(** *** The order of an answer, and its key *)

Lemma small_key x y : 1 <= nb_Depth x <= 5 → 1 <= nb_Depth y <= 5 → neighbor_le x y = true ↔ key_le neighbor_key x y.
Proof.
  unfold key_le, neighbor_key, neighbor_le. intros Hx Hy.
  assert (nb_Depth x ∈ [1; 2; 3; 4; 5]) as Hx' by (rewrite !elem_of_cons; lia). assert (nb_Depth y ∈ [1; 2; 3; 4; 5]) as Hy' by (rewrite !elem_of_cons; lia). clear Hx Hy.
  generalize (eo_IdentityFingerprint (nb_Entity x)) (eo_IdentityFingerprint (nb_Entity y)). generalize dependent (nb_Depth x). generalize dependent (nb_Depth y).
  intros d Hd d' Hd' f f'. rewrite !elem_of_cons in Hd, Hd'. unfold str_le, String.leb.
  destruct_or! Hd; destruct_or! Hd'; subst; try (by apply elem_of_nil in Hd); try (by apply elem_of_nil in Hd'); vm_compute; split; done.
Qed.
Lemma neighbor_le_total x y : neighbor_le x y = true ∨ neighbor_le y x = true.
Proof.
  unfold neighbor_le. rewrite (Z.eqb_sym (nb_Depth y)). destruct (Z.eqb_spec (nb_Depth x) (nb_Depth y)); [apply str_le_total|]. rewrite !Z.ltb_lt. lia.
Qed.
Lemma neighbor_le_trans x y z : neighbor_le x y = true → neighbor_le y z = true → neighbor_le x z = true.
Proof.
  unfold neighbor_le. destruct (Z.eqb_spec (nb_Depth x) (nb_Depth y)) as [E|], (Z.eqb_spec (nb_Depth y) (nb_Depth z)), (Z.eqb_spec (nb_Depth x) (nb_Depth z)); rewrite ?Z.ltb_lt; try lia.
  apply (transitivity (R:=str_le)).
Qed.

(** Skipping what is not past a key is filtering, in order. *)
Lemma drop_while_past (M : list Neighbor) k : k ≠ ""%string → StronglySorted (key_le neighbor_key) M →
  drop_while (λ n, String.leb (neighbor_key n) k) M = past neighbor_key M k.
Proof.
  intros Hk. unfold past. induction 1 as [|x l Hs IH Hall]; [done|]. cbn [drop_while]. destruct (String.leb (neighbor_key x) k) eqn:E.
  - rewrite filter_cons_False; [exact IH|]. by rewrite bool_decide_eq_false_2 //= E.
  - rewrite filter_all //. intros y Hy. rewrite bool_decide_eq_false_2 //=. apply negb_true_iff. apply elem_of_cons in Hy as [->|Hy]; [done|].
    rewrite Forall_forall in Hall. apply not_true_iff_false. intros Hyk. apply not_true_iff_false in E. apply E.
    change (str_le (neighbor_key x) k). transitivity (neighbor_key y); [by apply Hall|done].
Qed.

Lemma pad9_nonempty z : pad9 z ≠ ""%string.
Proof. unfold pad9. destruct (itoa z) as [|c t] eqn:E; [done|]. by destruct (string_of_list _). Qed.
Lemma neighbor_key_nonempty n : neighbor_key n ≠ ""%string.
Proof. unfold neighbor_key. pose proof (pad9_nonempty (nb_Depth n)). by destruct (pad9 _). Qed.

Lemma NoDup_rekey {A B C} (f : A → B) (k : A → C) (l : list A) : NoDup (f <$> l) → (∀ x y, x ∈ l → y ∈ l → k x = k y → f x = f y) → NoDup (k <$> l).
Proof.
  induction l as [|x l IH]; rewrite ?fmap_cons; [constructor|]. intros [Hx Hl]%NoDup_cons Hk. constructor.
  - intros (y & E & Hy)%list_elem_of_fmap. apply Hx, list_elem_of_fmap. exists y. split; [|done]. apply Hk; [by left|by right|done].
  - apply IH; [done|]. intros ? ? ? ?. by apply Hk; right.
Qed.

Section neighbors.
Context {D : Type} `{!Pebble D} `{!Proto}.
Context (ctx : nat → option string) (s : Server (D := D)) (i : GetNeighborsInput) (g : Graph) (compact : bool) (start : EntityID).
Hypothesis Hid : ni_EntityID i ≠ ""%string.
Hypothesis Hv : parseVerbosity (ni_Verbosity i) = inr compact.
Hypothesis Hdepth : ni_MaxDepth i <= maxDepth.
Hypothesis Hg : graphAt ctx (ni_AsOf i) s = inr g.
Hypothesis Hwf : wf g.
Hypothesis Hstart : ResolveHandle g (ni_EntityID i) = Some start ∧ is_Some (GetEntity g start).1.

Definition asked_depth : Z := if ni_MaxDepth i <=? 0 then 1 else ni_MaxDepth i.
Definition hood : list Neighbor := sort_stable neighbor_le (wv_found (wave g (sv_cadence s) (ni_AsOf i) compact (ni_RelationType i) asked_depth start)).
#[local] Abbreviation near := (neighbor_at g (sv_cadence s) (ni_AsOf i) compact (ni_RelationType i) start).

Lemma asked_range : 1 <= asked_depth <= 5.
Proof. unfold asked_depth. unfold maxDepth in Hdepth. destruct (Z.leb_spec (ni_MaxDepth i) 0); lia. Qed.
Lemma hood_spread : spread_to g (sv_cadence s) (ni_AsOf i) compact (ni_RelationType i) start (Z.to_nat asked_depth)
  (wave g (sv_cadence s) (ni_AsOf i) compact (ni_RelationType i) asked_depth start).
Proof. by apply wave_exact. Qed.
Lemma hood_perm : hood ≡ₚ wv_found (wave g (sv_cadence s) (ni_AsOf i) compact (ni_RelationType i) asked_depth start).
Proof. apply sort_stable_perm. Qed.

Lemma near_shown n x nb : near n x nb → ∃ e, live g !! x = Some e ∧ nb_Entity nb = entityOutV e false compact ∧ nb_Depth nb = Z.of_nat (S n) ∧ nb_ID nb = x.
Proof.
  intros (a & ed & _ & _ & (r & _ & _ & _ & _ & Ho & [e He]) & ->). exists e. pose proof (neighbor_id g Hwf (sv_cadence s) (ni_AsOf i) compact (Z.of_nat (S n)) ed) as Hi. rewrite Ho in Hi. specialize (Hi (ex_intro _ e He)).
  split; [done|]. split; [|split; [|done]]; unfold neighborOf; destruct (attachEdgeProvenance _ _ _) as [[] ?]; simpl; [by rewrite Ho (entity_of_live _ _ _ He)|done].
Qed.
Lemma hood_near nb : nb ∈ hood → ∃ n, Z.of_nat (S n) <= asked_depth ∧ near n (nb_ID nb) nb.
Proof. rewrite hood_perm. intros (n & Hn & Hx)%(sp_found _ _ _ _ _ _ _ _ hood_spread). exists n. split; [pose proof asked_range; lia|done]. Qed.
Lemma hood_depth nb : nb ∈ hood → 1 <= nb_Depth nb <= 5.
Proof. intros (n & Hn & Hx)%hood_near. apply near_shown in Hx as (e & _ & _ & -> & _). pose proof asked_range. lia. Qed.
Lemma hood_once : NoDup (nb_ID <$> hood).
Proof. rewrite hood_perm. apply (sp_once _ _ _ _ _ _ _ _ hood_spread). Qed.
Lemma hood_sorted : StronglySorted (λ x y, neighbor_le x y = true) hood.
Proof. apply sort_stable_sorted; [apply neighbor_le_total|apply neighbor_le_trans]. Qed.
Lemma hood_keys : StronglySorted (key_le neighbor_key) hood ∧ NoDup (neighbor_key <$> hood).
Proof.
  split.
  - pose proof hood_depth as Hd. induction hood_sorted as [|x l Hs IH Hall]; constructor; [apply IH; intros; apply Hd; by right|].
    rewrite Forall_forall in Hall. apply Forall_forall. intros y Hy. apply small_key; [apply Hd; by left|apply Hd; by right|by apply Hall].
  - apply (NoDup_rekey nb_ID); [apply hood_once|]. intros x y Hx Hy E. pose proof (hood_depth x Hx) as Dx. pose proof (hood_depth y Hy) as Dy.
    assert (∀ d, 1 <= d <= 5 → String.length (pad9 d) = 9%nat) as Hlen.
    { clear. intros d Hd. assert (d ∈ [1; 2; 3; 4; 5]) as Hin by (rewrite !elem_of_cons; lia). rewrite !elem_of_cons elem_of_nil in Hin. by destruct_or! Hin; subst. }
    unfold neighbor_key in E. apply string_app_inj_len in E as [_ E]; [|by rewrite !Hlen]. injection E as E.
    apply hood_near in Hx as (n & _ & (e & He & Hex & _ & _)%near_shown), Hy as (m & _ & (e' & He' & Hey & _ & _)%near_shown).
    rewrite Hex Hey in E. simpl in E. assert (g_byHash g !! IdentityHash e = Some (nb_ID x)) as H1 by (apply (wf_byHash g (wf_E _ Hwf)); by exists e).
    assert (g_byHash g !! IdentityHash e = Some (nb_ID y)) as H2 by (apply (wf_byHash g (wf_E _ Hwf)); by exists e'). congruence.
Qed.

Definition from_neighbor (after : string) : GetNeighborsInput :=
  mkGetNeighborsInput (ni_EntityID i) (ni_RelationType i) (ni_MaxDepth i) after (ni_Limit i) (ni_AsOf i) (ni_Verbosity i).
Definition hood_limit : nat := Z.to_nat (clampLimit (ni_Limit i)).
Definition hood_answer (p : list Neighbor * string) : GetNeighborsOutput :=
  let more := negb (bool_decide (cursor p.2 = ""%string)) in
  mkGetNeighborsOutput (graphMeta s g (ni_AsOf i)) p.1 (Z.of_nat (length p.1)) (cursor p.2)
    (if more then neighbors_truncation (length p.1) (Z.of_nat (length hood)) (cursor p.2) else ""%string) (Z.of_nat (length hood)) more.

(** One answer: a page of the neighbourhood. *)
Lemma neighbors_page k : getNeighbors ctx s (from_neighbor (cursor k)) = inr (hood_answer (page neighbor_key hood_limit hood k)).
Proof.
  unfold getNeighbors. cbn [from_neighbor ni_EntityID ni_Verbosity ni_MaxDepth ni_Limit ni_AsOf ni_RelationType ni_After].
  rewrite (bool_decide_eq_false_2 _ Hid) Hv. fold asked_depth. pose proof asked_range as Ha. destruct (Z.ltb_spec maxDepth asked_depth); [unfold maxDepth in *; lia|].
  rewrite Hg. destruct Hstart as [-> He]. destruct (GetEntity g start) as [[e|] del]; [|by destruct He]. fold hood. unfold pageNeighbors. pose proof hood_keys as [Hs _].
  assert ((if bool_decide (cursor k = ""%string) then Some hood else want ← decodeCursor (cursor k); Some (drop_while (λ n, String.leb (neighbor_key n) want) hood)) = Some (past neighbor_key hood k)) as ->.
  { destruct (decide (k = ""%string)) as [->|Hk]; [by rewrite past_start|]. destruct (cursor_decodes k Hk) as [Hd Hc]. rewrite bool_decide_eq_false_2 // Hd /= drop_while_past //. }
  assert (Z.of_nat hood_limit = clampLimit (ni_Limit i)) as Hl by (unfold hood_limit; pose proof (clampLimit_pos (ni_Limit i)); lia).
  unfold page, hood_answer. rewrite -Hl Nat2Z.id. destruct (Z.leb_spec (Z.of_nat (length (past neighbor_key hood k))) (Z.of_nat hood_limit)), (Nat.leb_spec (length (past neighbor_key hood k)) hood_limit); try lia; [done|].
  cbn [fst snd]. destruct (last (take hood_limit _)) as [n|] eqn:E.
  - cbn [from_option]. unfold cursor. by rewrite (bool_decide_eq_false_2 (neighbor_key n = ""%string)); [|apply neighbor_key_nonempty].
  - apply last_None, (f_equal length) in E. rewrite length_take /= in E. pose proof (clampLimit_pos (ni_Limit i)). lia.
Qed.

(** A client that follows the cursor. *)
Fixpoint hood_answers (fuel : nat) (after : string) : list (QueryError + GetNeighborsOutput) :=
  match fuel with
  | O => []
  | S fuel =>
    match getNeighbors ctx s (from_neighbor after) with
    | inl err => [inl err]
    | inr out => inr out :: if bool_decide (no_NextCursor out = ""%string) then [] else hood_answers fuel (no_NextCursor out)
    end
  end.
Lemma hood_follow fuel : ∀ k, hood_answers fuel (cursor k) = (inr ∘ hood_answer) <$> follow neighbor_key hood_limit hood fuel k.
Proof.
  induction fuel as [|fuel IH]; intros k; [done|]. cbn [hood_answers follow]. rewrite neighbors_page fmap_cons. f_equal. cbn [hood_answer no_NextCursor].
  set (k' := (page neighbor_key hood_limit hood k).2). destruct (decide (k' = ""%string)) as [->|Hk]; [done|].
  destruct (cursor_decodes k' Hk) as [_ Hc]. rewrite !bool_decide_eq_false_2 //.
Qed.
End neighbors.

(** C23. Following the cursor of get_neighbors explores the whole neighbourhood. On a
    well-formed graph, from an entity that is there, a client that passes each next_cursor
    on comes, without an error and in no more calls than there are neighbours, and one, to
    an answer without a cursor. The neighbours of the answers, in order, are each live
    entity other than the start within the asked depth (1 to 5) over relations of the type
    in either direction, once, at its least number of hops and with the last hop of a
    shortest way; closest first, then by fingerprint. Every answer tells their number, holds
    at most the clamped limit, and says it is truncated just when it has a cursor. *)
Theorem neighbors_enumerate {D : Type} `{!Pebble D} `{!Proto} (ctx : nat → option string) (s : Server (D := D)) (i : GetNeighborsInput) (g : Graph) (compact : bool) (start : EntityID) (fuel : nat)
    (Hid : ni_EntityID i ≠ ""%string) (Hv : parseVerbosity (ni_Verbosity i) = inr compact) (Hdepth : ni_MaxDepth i <= maxDepth)
    (Hg : graphAt ctx (ni_AsOf i) s = inr g) (Hwf : wf g)
    (Hstart : ResolveHandle g (ni_EntityID i) = Some start ∧ is_Some (GetEntity g start).1) (Hfuel : (size (g_entities g) < fuel)%nat) :
  ∃ outs, hood_answers ctx s i fuel "" = inr <$> outs ∧
    let all := concat (no_Neighbors <$> outs) in
    NoDup (nb_ID <$> all) ∧ StronglySorted (λ x y, neighbor_le x y = true) all ∧
    (∀ nb, nb ∈ all → ∃ n, Z.of_nat (S n) <= asked_depth i ∧ nb_Depth nb = Z.of_nat (S n) ∧ neighbor_at g (sv_cadence s) (ni_AsOf i) compact (ni_RelationType i) start n (nb_ID nb) nb) ∧
    (∀ n x, Z.of_nat (S n) <= asked_depth i → nearest g (ni_RelationType i) start (S n) x → x ∈ nb_ID <$> all) ∧
    (∃ out, last outs = Some out ∧ no_Truncated out = false) ∧
    ∀ out, out ∈ outs → no_Total out = Z.of_nat (length all) ∧ no_Count out = Z.of_nat (length (no_Neighbors out)) ∧ no_Count out <= clampLimit (ni_Limit i) ∧
      (no_Truncated out = true ↔ no_NextCursor out ≠ ""%string) ∧ (no_Truncated out = true → no_Count out = clampLimit (ni_Limit i)).
Proof.
  pose proof (hood_follow ctx s i g compact start Hid Hv Hdepth Hg Hwf Hstart fuel "") as Ha. change (cursor "") with ""%string in Ha.
  destruct (hood_keys s i g compact start Hdepth Hwf) as [Hs Hnd]. pose proof (clampLimit_pos (ni_Limit i)) as Hlim.
  pose proof (hood_once s i g compact start Hwf) as Honce. pose proof (hood_near s i g compact start Hdepth Hwf) as Hnear.
  assert (length (hood s i g compact start) < fuel)%nat as Hf.
  { eapply Nat.le_lt_trans; [|exact Hfuel]. rewrite -(length_fmap nb_ID) -size_dom -(size_list_to_set (C := gset string)) //. apply subseteq_size. intros x (nb & -> & Hnb)%elem_of_list_to_set%list_elem_of_fmap.
    apply Hnear in Hnb as (n & _ & (e & He & _)%(near_shown s i g compact start Hwf)). apply live_lookup in He as [He _]. by apply elem_of_dom_2 in He. }
  assert (0 < hood_limit i)%nat as Hpos by (unfold hood_limit; lia).
  destruct (follow_all neighbor_key (hood_limit i) (hood s i g compact start) Hs Hnd (λ x _, neighbor_key_nonempty x) Hpos fuel Hf) as (Hall & (p & Hlast) & Hfull & Hsz).
  set (fs := follow _ _ _ _ _) in *. exists (hood_answer s i g compact start <$> fs). split; [by rewrite Ha -list_fmap_compose|].
  assert (concat (no_Neighbors <$> (hood_answer s i g compact start <$> fs)) = hood s i g compact start) as -> by (rewrite -list_fmap_compose; exact Hall). cbv zeta.
  split; [done|]. split; [apply hood_sorted|]. split.
  { intros nb Hnb. destruct (Hnear nb Hnb) as (n & Hn & Hx). exists n. split; [done|]. split; [|done]. by apply near_shown in Hx as (e & _ & _ & ? & _). }
  split.
  { intros n x Hn Hx. rewrite hood_perm. apply (sp_all _ _ _ _ _ _ _ _ (hood_spread s i g compact start Hwf) n x); [lia|done]. }
  split.
  { rewrite fmap_last Hlast. eexists. split; [reflexivity|]. done. }
  intros out (p' & -> & Hp')%list_elem_of_fmap. rewrite Forall_forall in Hfull. rewrite Forall_forall in Hsz. specialize (Hfull p' Hp'). specialize (Hsz p' Hp').
  cbn [hood_answer no_Total no_Truncated no_NextCursor no_Neighbors no_Count]. unfold hood_limit in *. rewrite negb_true_iff bool_decide_eq_false. split_and!; [done|done|lia|done|].
  intros Hc. destruct Hfull as [E|E]; [by rewrite E in Hc|lia].
Qed.
