(* ===== verification/EndpointSpec.v ===== *)
(** * What an observed endpoint denotes, and what an answer about the past may say

    The resolution of mcp/resolve.go against the topology it walks; the schema's counts; and
    that an answer about an instant is a function of the log. *)
From S2P Require Import Prelude GoStd Values Vocabulary Entities Events DisplayNames Projection ProjectionInv ProjectionSpec Keys Store Traverse TraverseSpec Query QuerySpec.
Open Scope Z_scope.

(** No id is empty, as validation has it. *)
Definition named (g : Graph) : Prop :=
  (∀ id e, live g !! id = Some e → id ≠ ""%string) ∧ ∀ rid r, g_relations g !! rid = Some r → r_To r ≠ ""%string.

Section denotes.
Context (g : Graph) (Hwf : wf g) (Hnamed : named g).

Definition lives (typ : string) (e : Entity) : Prop := live g !! e_ID e = Some e ∧ e_Type e = typ.
(** A relation of a type between two entities. *)
Definition related (typ : string) (a b : EntityID) : Prop :=
  ∃ r, g_relations g !! r_ID r = Some r ∧ r_Type r = typ ∧ r_From r = a ∧ r_To r = b.
Definition on_port (l : Entity) (port transport : string) : Prop := listenerPort l = port ∧ protoMismatch l transport = false.
(** The first entity of an address, in the order of ids. *)
Definition address_entity (addr : string) (a : Entity) : Prop :=
  find (λ a, bool_decide (identityValue a "network.address" = addr)) (ListEntities g TypeNetworkAddress) = Some a.
(** The host that an interface carrying the address belongs to. *)
Definition owns (h : Entity) (addr : string) : Prop :=
  lives TypeHost h ∧ ∃ a i, address_entity addr a ∧ related RelBoundTo (e_ID a) i ∧ related RelHasInterface (e_ID h) i.
(** A host, or the listener on it that the port and the transport name. *)
Definition at_host (h : Entity) (port transport : string) (e : Entity) : Prop :=
  if bool_decide (port = ""%string) then e = h else
  lives TypeServiceListener e ∧ related RelRunsOn (e_ID e) (e_ID h) ∧ on_port e port transport ∨
  e = h ∧ ∀ l, lives TypeServiceListener l → related RelRunsOn (e_ID l) (e_ID h) → ¬ on_port l port transport.

Lemma list_entities typ e : typ ≠ ""%string → e ∈ ListEntities g typ ↔ lives typ e.
Proof.
  intros Ht. unfold ListEntities, lives. rewrite sort_by_elem list_elem_of_filter elem_of_values. unfold filter_ok. rewrite (bool_decide_eq_false_2 (typ = _)) //= bool_decide_eq_true. split.
  - intros [Hty [id Hl]]. pose proof Hl as [He _]%live_lookup. rewrite (wf_ids g (wf_E _ Hwf) _ _ He). done.
  - intros [Hl Hty]. eauto.
Qed.
Lemma list_relations typ from to r : typ ≠ ""%string → r ∈ ListRelations g typ from to ↔
  g_relations g !! r_ID r = Some r ∧ r_Type r = typ ∧ filter_ok from (r_From r) = true ∧ filter_ok to (r_To r) = true.
Proof.
  intros Ht. unfold ListRelations. rewrite sort_by_elem list_elem_of_filter elem_of_values. unfold filter_ok at 1. rewrite (bool_decide_eq_false_2 (typ = _)) //= !andb_true_iff bool_decide_eq_true. split.
  - intros [[[Hty Hf] Ht'] [id Hr]]. by rewrite (wf_rids g (wf_R _ Hwf) _ _ Hr).
  - intros (Hr & Hty & Hf & Ht'). eauto.
Qed.
Lemma filter_ok_ne want got : want ≠ ""%string → filter_ok want got = true ↔ got = want.
Proof. intros Hw. unfold filter_ok. by rewrite (bool_decide_eq_false_2 (want = _)) //= bool_decide_eq_true. Qed.

Lemma live_of_spec typ id e : live_of g typ id = Some e ↔ live g !! id = Some e ∧ e_Type e = typ.
Proof.
  rewrite live_lookup_eq. unfold live_of, GetEntity, is_deleted. destruct (g_entities g !! id) as [e'|]; repeat case_bool_decide; simpl; naive_solver.
Qed.
Lemma live_of_lives typ id e : live_of g typ id = Some e ↔ lives typ e ∧ e_ID e = id.
Proof.
  rewrite live_of_spec. unfold lives. split.
  - intros [Hl Ht]. pose proof Hl as [He _]%live_lookup. rewrite (wf_ids g (wf_E _ Hwf) _ _ He). done.
  - intros [[Hl Ht] <-]. done.
Qed.

Lemma first_of_some {A B} (f : A → option B) l y : first_of f l = Some y → ∃ x, x ∈ l ∧ f x = Some y.
Proof.
  induction l as [|x l IH]; [done|]. simpl. destruct (f x) eqn:E; [intros [= <-]; exists x; split; [by left|done]|].
  intros (x' & ? & ?)%IH. exists x'. split; [by right|done].
Qed.
Lemma first_of_none {A B} (f : A → option B) l : first_of f l = None ↔ ∀ x, x ∈ l → f x = None.
Proof.
  induction l as [|x l IH]; simpl; [split; [by intros _ x ?%elem_of_nil|done]|]. destruct (f x) eqn:E.
  - split; [done|]. intros H. specialize (H x ltac:(left)). congruence.
  - rewrite IH. split; [intros H y [->|Hy]%elem_of_cons; auto|intros H y Hy; apply H; by right].
Qed.
Lemma find_none {A} (f : A → bool) l : find f l = None ↔ ∀ x, x ∈ l → f x = false.
Proof.
  induction l as [|x l IH]; simpl; [split; [by intros _ x ?%elem_of_nil|done]|]. destruct (f x) eqn:E.
  - split; [done|]. intros H. specialize (H x ltac:(left)). congruence.
  - rewrite IH. split; [intros H y [->|Hy]%elem_of_cons; auto|intros H y Hy; apply H; by right].
Qed.
Lemma find_mem {A} (f : A → bool) l x : find f l = Some x → x ∈ l ∧ f x = true.
Proof. intros H. pose proof (find_some f l H) as [Hin Hf]. split; [by apply list_elem_of_In|done]. Qed.

Lemma id_named typ e : lives typ e → e_ID e ≠ ""%string.
Proof. intros [Hl _]. by apply (proj1 Hnamed _ _ Hl). Qed.
Lemma into_host typ (h : Entity) l : typ ≠ ""%string → e_ID h ≠ ""%string → (∃ r, r ∈ ListRelations g typ "" (e_ID h) ∧ r_From r = l) ↔ related typ l (e_ID h).
Proof.
  intros Ht Hne. unfold related. setoid_rewrite list_relations; [|done]. setoid_rewrite (filter_ok_ne (e_ID h)); [|done]. naive_solver.
Qed.

Lemma listener_on_spec h port transport : lives TypeHost h →
  match listenerOnHostPort g h port transport with
  | Some l => lives TypeServiceListener l ∧ related RelRunsOn (e_ID l) (e_ID h) ∧ on_port l port transport
  | None => ∀ l, lives TypeServiceListener l → related RelRunsOn (e_ID l) (e_ID h) → ¬ on_port l port transport
  end.
Proof.
  intros Hh. pose proof (id_named _ _ Hh) as Hne. unfold listenerOnHostPort. set (f := λ r, _).
  assert (∀ r l, f r = Some l ↔ lives TypeServiceListener l ∧ e_ID l = r_From r ∧ on_port l port transport) as Hf.
  { intros r l. unfold f, on_port. destruct (live_of g TypeServiceListener (r_From r)) as [l'|] eqn:E.
    - apply live_of_lives in E as [E1 E2]. destruct (bool_decide _ && _) eqn:Eb.
      + apply andb_true_iff in Eb as [Eb1%bool_decide_eq_true Eb2%negb_true_iff]. split; [intros [= <-]; done|]. intros ([Hl _] & Hid & _). destruct E1 as [E1 _]. congruence.
      + split; [done|]. intros ([Hl _] & Hid & Hp & Hm). destruct E1 as [E1 _]. assert (l' = l) as -> by congruence.
        rewrite Hm andb_true_r in Eb. by apply bool_decide_eq_false in Eb.
    - split; [done|]. intros (Hl & Hid & _). assert (live_of g TypeServiceListener (r_From r) = Some l) as Hsome by (by apply live_of_lives). congruence. }
  destruct (first_of f _) as [l|] eqn:E.
  - apply first_of_some in E as (r & Hr & (Hl & Hid & Hp)%Hf). split; [done|]. split; [|done]. rewrite Hid. apply into_host; [done..|]. eauto.
  - intros l Hl (r & Hr & Hid)%into_host Hp; [|done..]. pose proof (proj1 (first_of_none f _) E r Hr) as Hn. assert (f r = Some l) as Hsome by (by apply Hf). congruence.
Qed.
Lemma on_host_spec h port transport : lives TypeHost h → at_host h port transport (on_host g h port transport).
Proof.
  intros Hh. unfold at_host, on_host. case_bool_decide; [done|]. pose proof (listener_on_spec h port transport Hh) as Hl.
  destruct (listenerOnHostPort g h port transport) as [l|]; simpl; [by left|by right].
Qed.

Lemma host_for_address addr : match hostForAddress g addr with Some h => owns h addr | None => ∀ h, ¬ owns h addr end.
Proof.
  unfold hostForAddress, owns, address_entity. destruct (find _ _) as [a|] eqn:Ea; [|by intros h (_ & a & i & ? & _)].
  assert (e_ID a ≠ ""%string) as Hane by (apply find_mem in Ea as [Ha _]; apply list_entities in Ha; [by apply (id_named _ _ Ha)|done]).
  set (f := λ bt, _).
  assert (∀ bt h, f bt = Some h → g_relations g !! r_ID bt = Some bt → lives TypeHost h ∧ related RelHasInterface (e_ID h) (r_To bt)) as Hf.
  { intros bt h (hi & Hhi & [Hl Hid]%live_of_lives)%first_of_some Hbt. pose proof (proj2 Hnamed _ _ Hbt) as Hne. apply list_relations in Hhi as (H1 & H2 & _ & H4); [|done].
    apply filter_ok_ne in H4; [|done]. split; [done|]. exists hi. done. }
  assert (∀ bt, bt ∈ ListRelations g RelBoundTo (e_ID a) "" ↔ g_relations g !! r_ID bt = Some bt ∧ r_Type bt = RelBoundTo ∧ r_From bt = e_ID a) as Hbts.
  { intros bt. rewrite list_relations // (filter_ok_ne (e_ID a)) //. naive_solver. }
  destruct (first_of f _) as [h|] eqn:E.
  - apply first_of_some in E as (bt & (Hb1 & Hb2 & Hb3)%Hbts & Hh). destruct (Hf _ _ Hh Hb1) as [Hl Hr]. split; [done|]. exists a, (r_To bt). split_and!; [done| |done]. exists bt. done.
  - intros h (Hl & a' & i & Ha' & (bt & Hb1 & Hb2 & Hb3 & Hb4) & (hi & Hh1 & Hh2 & Hh3 & Hh4)). injection Ha' as <-.
    pose proof (proj1 (first_of_none f _) E bt (proj2 (Hbts bt) (conj Hb1 (conj Hb2 Hb3)))) as Hn. unfold f in Hn.
    assert (hi ∈ ListRelations g RelHasInterface "" (r_To bt)) as Hin.
    { apply list_relations; [done|]. split_and!; [done..|]. apply filter_ok_ne; [by apply (proj2 Hnamed _ _ Hb1)|congruence]. }
    pose proof (proj1 (first_of_none _ _) Hn hi Hin) as Hnone. simpl in Hnone. assert (live_of g TypeHost (r_From hi) = Some h) as Hsome by (by apply live_of_lives). congruence.
Qed.
End denotes.

(** C27. What an observed endpoint denotes. On a well-formed graph the resolution of an
    endpoint with an address, when it names a host, never leaves that host: it is the live
    host of that id, or the live listener that runs on it at the port, of no other
    transport, if there is one and a port is asked for; and there is no answer just when no
    live host has the id. Without a host it is first a live listener that binds the address
    itself, then in the same way the host whose interface carries the address or its
    listener, and nothing when there is neither. Without an address there is none. *)
Theorem endpoint_denotes (g : Graph) (ep : Entity) (Hwf : wf g) (Hnamed : named g) :
  let addr := identityValue ep "server.address" in
  let port := identityValue ep "server.port" in
  let transport := identityValue ep "network.transport" in
  let scope := identityValue ep "host.id" in
  let binds l := lives g TypeServiceListener l ∧ attrValue l "listen.address" = addr ∧ (port = ""%string ∨ listenerPort l = port) ∧ protoMismatch l transport = false in
  if bool_decide (addr = ""%string) then resolveEndpoint g ep = None else
  if bool_decide (scope = ""%string) then
    match resolveEndpoint g ep with
    | Some e => binds e ∨ (∀ l, ¬ binds l) ∧ ∃ h, owns g h addr ∧ at_host g h port transport e
    | None => (∀ l, ¬ binds l) ∧ ∀ h, ¬ owns g h addr
    end
  else
    match resolveEndpoint g ep with
    | Some e => ∃ h, lives g TypeHost h ∧ identityValue h "host.id" = scope ∧ at_host g h port transport e
    | None => ∀ h, lives g TypeHost h → identityValue h "host.id" ≠ scope
    end.
Proof.
  intros addr port transport scope binds. unfold resolveEndpoint. fold addr port transport scope. case_bool_decide as Ha; [done|]. case_bool_decide as Hs; simpl.
  - assert (∀ l, binds l ↔ l ∈ ListEntities g TypeServiceListener ∧ bool_decide (attrValue l "listen.address" = addr) && (bool_decide (port = ""%string) || bool_decide (listenerPort l = port)) && negb (protoMismatch l transport) = true) as Hb.
    { intros l. unfold binds. rewrite list_entities // !andb_true_iff orb_true_iff !bool_decide_eq_true negb_true_iff. tauto. }
    unfold listenerByBind. destruct (find _ (ListEntities g TypeServiceListener)) as [l|] eqn:E; [left; apply Hb; exact (find_mem _ _ _ E)|].
    assert (∀ l, ¬ binds l) as Hnone by (intros l [Hin Hok]%Hb; by rewrite (proj1 (find_none _ _) E l Hin) in Hok).
    pose proof (host_for_address g Hwf Hnamed addr) as Hh. destruct (hostForAddress g addr) as [h|]; simpl; [|done].
    right. split; [done|]. exists h. split; [done|]. apply on_host_spec; [done..|]. by destruct Hh.
  - unfold hostByID. destruct (find _ _) as [h|] eqn:E; simpl.
    + apply find_mem in E as [Hin%list_entities Hid%bool_decide_eq_true]; [|done..]. exists h. split_and!; [done..|]. by apply on_host_spec.
    + intros h Hh%list_entities; [|done..]. pose proof (proj1 (find_none _ _) E h Hh) as Hn. by apply bool_decide_eq_false in Hn.
Qed.

(** ** Answers about the past *)

Section past.
Context {D : Type} `{!Pebble D} `{!Proto}.

(** Two moments of one server: the log is the same, and so are its names and the clock of
    the fold; the live graph and what the engine tells may have changed. *)
Definition same_log (s s' : Server (D := D)) : Prop :=
  sv_store s = sv_store s' ∧ sv_tenant s = sv_tenant s' ∧ sv_tenantName s = sv_tenantName s' ∧ sv_now s = sv_now s' ∧
  (is_Some (sv_cadence s) ↔ is_Some (sv_cadence s')).

#[export] Instance same_log_equiv : Equivalence same_log.
Proof. unfold same_log. split; [intros s; naive_solver|intros s s' H1; naive_solver|intros s1 s2 s3 H1 H2; naive_solver congruence]. Qed.

Lemma graphAt_past ctx t s s' : same_log s s' → graphAt ctx (Some t) s = graphAt ctx (Some t) s'.
Proof. intros (Hst & _ & _ & Hn & _). unfold graphAt. by rewrite Hst Hn. Qed.
Lemma graphMeta_past s s' g t : same_log s s' → graphMeta s g (Some t) = graphMeta s' g (Some t).
Proof. intros (Hst & Ht & Htn & _). unfold graphMeta. by rewrite Hst Ht Htn. Qed.
Lemma producers_past s s' out id compact t : same_log s s' → attachProducers (sv_cadence s) out id compact (Some t) = attachProducers (sv_cadence s') out id compact (Some t).
Proof.
  intros (_ & _ & _ & _ & Hc). unfold attachProducers. destruct (sv_cadence s), (sv_cadence s'); try done; [destruct (proj1 Hc)|destruct (proj2 Hc)]; eauto; done.
Qed.
Lemma wave_past s s' g compact t relType depth start : same_log s s' →
  wave g (sv_cadence s) (Some t) compact relType depth start = wave g (sv_cadence s') (Some t) compact relType depth start.
Proof.
  intros (_ & _ & _ & _ & Hc). destruct (sv_cadence s), (sv_cadence s'); try reflexivity; [destruct (proj1 Hc)|destruct (proj2 Hc)]; eauto; done.
Qed.
Lemma wave_forall g cad asOf compact relType depth start (P : Neighbor → Prop) : (∀ d e, P (neighborOf g cad asOf compact d e)) →
  Forall P (wv_found (wave g cad asOf compact relType depth start)).
Proof.
  intros HP. unfold wave. generalize 1. assert (Forall P (wv_found (mkWave {[start]} [start] []))) as H0 by constructor. revert H0. generalize (mkWave {[start]} [start] []).
  assert (∀ d es w, Forall P (wv_found w) → Forall P (wv_found (foldl (wave_edge g cad asOf compact d) w es))) as He.
  { intros d es. induction es as [|e es IH]; intros w Hw; [done|]. simpl. apply IH. unfold wave_edge. case_bool_decide; [done|]. apply Forall_app. split; [done|by constructor]. }
  assert (∀ d l w, Forall P (wv_found w) → Forall P (wv_found (foldl (wave_entity g cad asOf compact relType d) w l))) as Hl.
  { intros d l. induction l as [|cur l IH]; intros w Hw; [done|]. simpl. apply IH, He, Hw. }
  induction (Z.to_nat depth) as [|n IH]; intros w Hw d; [done|]. cbn [wave_rounds]. destruct (wv_next w); [done|]. apply IH, Hl, Hw.
Qed.

Lemma drop_while_sub {A} (f : A → bool) l : drop_while f l ⊆ l.
Proof. induction l as [|x l IH]; [done|]. simpl. destruct (f x); [set_solver|done]. Qed.
Lemma page_sub all after limit page cur : pageNeighbors all after limit = inr (page, cur) → page ⊆ all.
Proof.
  unfold pageNeighbors. assert (∀ rest, rest ⊆ all → (if Z.of_nat (length rest) <=? limit then inr (rest, ""%string) else inr (take (Z.to_nat limit) rest, encodeCursor (from_option neighbor_key ""%string (last (take (Z.to_nat limit) rest))))) = (inr (page, cur) : QueryError + _) → page ⊆ all) as Hr.
  { intros rest Hrest. case_match; intros [= <- _]; [done|]. intros x (k & Hk & _)%elem_of_take. by apply Hrest, (list_elem_of_lookup_2 _ k). }
  case_bool_decide; [by apply Hr|]. destruct (decodeCursor after) as [want|]; [|done]. apply Hr, drop_while_sub.
Qed.

(** C26. An answer about an instant is a function of the log. Whatever happened since to the
    live graph, and whoever asserts what now, find_entities and describe_schema about a past
    instant answer the same, and so does get_neighbors unless the handle resolves to
    nothing, where only the explanation may differ; who asserts an entity or an edge is
    withheld, not told from the present. *)
Theorem past_reads_ignore_present (ctx : nat → option string) (s s' : Server (D := D)) (t : Time) (Hs : same_log s s') :
  (∀ i, fe_AsOf i = Some t → findEntities ctx s i = findEntities ctx s' i) ∧
  describeSchema ctx s (Some t) = describeSchema ctx s' (Some t) ∧
  (∀ i, ni_AsOf i = Some t → getNeighbors ctx s i = getNeighbors ctx s' i ∨
     ∃ why why', getNeighbors ctx s i = inl (NotFound (ni_EntityID i) why) ∧ getNeighbors ctx s' i = inl (NotFound (ni_EntityID i) why')) ∧
  (∀ i out e, fe_AsOf i = Some t → findEntities ctx s i = inr out → e ∈ fo_Entities out → sh_AssertedBy e = None ∧ sh_CollectedBy e = None) ∧
  (∀ i out nb, ni_AsOf i = Some t → getNeighbors ctx s i = inr out → nb ∈ no_Neighbors out → nb_ViaAssertedBy nb = None ∧ nb_ViaCollectedBy nb = None).
Proof.
  split_and!.
  - intros i Hi. unfold findEntities. rewrite Hi (graphAt_past _ _ s s') //. destruct (parseVerbosity _) as [|compact]; [done|]. destruct (graphAt _ _ _) as [|g]; [done|].
    assert (∀ page cursor total, found s i g compact page cursor total = found s' i g compact page cursor total) as Hf.
    { intros page cur total. unfold found. rewrite Hi (graphMeta_past s s') //. f_equal. apply list_fmap_ext. intros k e _. by apply producers_past. }
    case_bool_decide; [destruct (if bool_decide _ then _ else _); [|done]; destruct (PageEntitiesByFingerprint _ _ _ _) as [[] ]; by rewrite Hf|].
    destruct (pageByFingerprint _ _ _) as [|[]]; [done|]. by rewrite Hf.
  - unfold describeSchema. rewrite (graphAt_past _ _ s s') //. destruct (graphAt _ _ _); [done|]. by rewrite (graphMeta_past s s').
  - intros i Hi. unfold getNeighbors. rewrite Hi (graphAt_past _ _ s s') //. case_bool_decide; [by left|]. destruct (parseVerbosity _) as [|compact]; [by left|].
    case_match; [by left|]. destruct (graphAt _ _ _) as [|g]; [by left|]. unfold notFoundMsg.
    destruct (ResolveHandle g _) as [start|]; [|right; by eexists _, _]. destruct (GetEntity g start) as [[e|] del]; [|right; by eexists _, _].
    left. rewrite (wave_past s s') //. destruct (pageNeighbors _ _ _) as [|[]]; [done|]. by rewrite (graphMeta_past s s').
  - intros i out e Hi Hf (k & Hk)%list_elem_of_lookup. unfold findEntities in Hf. destruct (parseVerbosity _) as [|compact]; [done|]. destruct (graphAt _ _ _) as [|g]; [done|].
    assert (∀ page cursor total, inr (found s i g compact page cursor total) = (inr out : QueryError + _) → sh_AssertedBy e = None ∧ sh_CollectedBy e = None) as Hfound.
    { intros page cur total [= <-]. unfold found in Hk. simpl in Hk. rewrite Hi list_lookup_fmap in Hk. destruct (page !! k); [|done]. injection Hk as <-.
      unfold attachProducers. destruct (sv_cadence s); [|done]. by destruct compact. }
    revert Hf. case_bool_decide; [destruct (if bool_decide _ then _ else _); [|done]; destruct (PageEntitiesByFingerprint _ _ _ _) as [[] ]; apply Hfound|].
    destruct (pageByFingerprint _ _ _) as [|[]]; [done|]. apply Hfound.
  - intros i out nb Hi Hf Hnb. unfold getNeighbors in Hf. revert Hf. case_bool_decide; [done|]. destruct (parseVerbosity _) as [|compact]; [done|].
    case_match; [done|]. destruct (graphAt _ _ _) as [|g]; [done|]. destruct (ResolveHandle g _) as [start|]; [|done]. destruct (GetEntity g start) as [[e|] del]; [|done].
    destruct (pageNeighbors _ _ _) as [|[page cur]] eqn:Hp; [done|]. intros [= <-]. simpl in Hnb. apply page_sub in Hp. apply Hp in Hnb. rewrite sort_stable_perm in Hnb.
    match type of Hnb with _ ∈ wv_found (wave ?g ?c ?a ?cp ?r ?d ?st) => pose proof (wave_forall g c a cp r d st (λ nb, nb_ViaAssertedBy nb = None ∧ nb_ViaCollectedBy nb = None)) as HF end.
    rewrite Hi in HF, Hnb. rewrite Forall_forall in HF. apply HF; [|done]. intros d' e'. unfold neighborOf, attachEdgeProvenance. by destruct (sv_cadence s).
Qed.
End past.
