(* ===== verification/History.v ===== *)
(** * The timeline tools of the MCP surface: entity_history and recent_changes

    src/internal/mcp/tools.go, with the window of diff.go and the rendering of a change in
    convert.go. An instant of an input is given as parsed, none when it is absent; a
    sentence whose wording depends on the case alone is a constructor with its values. *)
From S2P Require Import Prelude GoStd Values Vocabulary Entities Events Observations Projection Keys Store Traverse Diff GoParse Query Tenant.
Open Scope Z_scope.

(** ** A change as it is shown *)

(** [disappearance] in words: reported gone, reported gone with the producer's own reason,
    silent, or gone with an end. *)
Inductive Gloss := NoGloss | ReportedGone | GoneBecause (reason : string) | WentSilent | Collateral.
Definition disappearanceGloss (src : DeleteSource) (reason : string) : Gloss :=
  match src with
  | DeleteSourceProducer => if bool_decide (reason = ""%string) then ReportedGone else GoneBecause reason
  | DeleteSourceLivenessExpiry => WentSilent
  | DeleteSourceCascade => Collateral
  | DeleteSourceUnknown => NoGloss
  end.

Record Change := mkChange {
  ch_EventID : string; ch_CommitSeq : Z; ch_Scope : string; ch_ChangeType : string; ch_EventTime : Time; ch_RecordedAt : Time;
  ch_ChangedKeys : list string; ch_DeleteReason : string; ch_DeleteSource : DeleteSource; ch_Disappearance : Gloss;
  ch_Entity : option EntityOut; ch_Relation : option RelationOut }.
Definition changeOut (ev : Event) : Change :=
  match ev_Entity ev, ev_Relation ev with
  | Some ee, _ =>
    mkChange (ee_EventID ee) (ee_CommitSeq ee) (ee_Scope ee) (ChangeType_String (ee_ChangeType ee)) (ee_EventTime ee) (ee_RecordedAt ee) (ee_ChangedKeys ee)
      (ee_DeleteReason ee) (ee_DeleteSource ee) (disappearanceGloss (ee_DeleteSource ee) (ee_DeleteReason ee))
      (Some (entityOut (ee_Entity ee) (bool_decide (ee_ChangeType ee = EntityDeleted)))) None
  | None, Some re =>
    mkChange (re_EventID re) (re_CommitSeq re) (re_Scope re) (ChangeType_String (re_ChangeType re)) (re_EventTime re) (re_RecordedAt re) (re_ChangedKeys re)
      "" (re_DeleteSource re) (disappearanceGloss (re_DeleteSource re) "") None (Some (relationOut (re_Relation re)))
  | None, None => mkChange "" 0 "" "" zero_time zero_time [] "" DeleteSourceUnknown NoGloss None None
  end.

Definition eventChangeType (ev : Event) : ChangeType :=
  match ev_Entity ev, ev_Relation ev with
  | Some ee, _ => ee_ChangeType ee
  | None, Some re => re_ChangeType re
  | None, None => ChangeUnspecified
  end.
Definition eventScope (ev : Event) : string :=
  match ev_Entity ev, ev_Relation ev with
  | Some ee, _ => ee_Scope ee
  | None, Some re => re_Scope re
  | None, None => ""
  end.
(** [Event.Times]: when it was observed, when it was recorded. *)
Definition Times (ev : Event) : Time * Time :=
  match ev_Entity ev, ev_Relation ev with
  | Some ee, _ => (ee_EventTime ee, ee_RecordedAt ee)
  | None, Some re => (re_EventTime re, re_RecordedAt re)
  | None, None => (zero_time, zero_time)
  end.

(** ** Filters *)

Inductive TimelineError :=
| BadInstant (t : Time)
| BadChangeType (s : string)
| BadKind (s : string)
| WindowAndFrom
| BadWindow (s : string)
| NoWindow
| ToBeforeFrom (from to : Time)
| NoID
| NoSuchEntity (err : QueryError)
| ReadError (err : StoreError).

(** An absent instant is the zero one; the index counts from the epoch. *)
Definition parseOptTime (t : option Time) : TimelineError + Time :=
  match t with
  | None => inr zero_time
  | Some t => if before t unix_epoch then inl (BadInstant t) else inr t
  end.

Record changeFilter := mkChangeFilter { cf_changeType : ChangeType; cf_scope : string; cf_match : gmap string string; cf_includeHeartbeats : bool }.

Definition named_changes : list ChangeType :=
  [EntityCreated; EntityDeleted; EntityIdentityChanged; EntityAttributeUpdated; EntityStateChanged; EntityUnchanged; RelationAdded; RelationRemoved; RelationAttributeChanged].
Definition parseChangeType (s : string) : TimelineError + ChangeType :=
  if bool_decide (s = ""%string) then inr ChangeUnspecified else
  match find (λ c, bool_decide (ChangeType_String c = s)) named_changes with Some c => inr c | None => inl (BadChangeType s) end.
Definition newChangeFilterFull (changeType scope : string) (match_ : gmap string string) (includeHeartbeats : bool) : TimelineError + changeFilter :=
  match parseChangeType changeType with inl err => inl err | inr ct => inr (mkChangeFilter ct scope match_ includeHeartbeats) end.
Definition newChangeFilter (changeType : string) (includeHeartbeats : bool) : TimelineError + changeFilter := newChangeFilterFull changeType "" ∅ includeHeartbeats.

Definition needsRecord (f : changeFilter) : bool := negb (bool_decide (cf_scope f = ""%string)) || negb (bool_decide (cf_match f = ∅)).
Definition keepScope (f : changeFilter) (ev : Event) : bool :=
  (bool_decide (cf_scope f = ""%string) || bool_decide (eventScope ev = cf_scope f)) &&
  (bool_decide (cf_match f = ∅) || match ev_Entity ev with Some ee => MatchAll (ee_Entity ee) (cf_match f) | None => false end).
(** Kept, and excluded as a heartbeat. *)
Definition keepClass (f : changeFilter) (ct : ChangeType) : bool * bool :=
  if negb (bool_decide (cf_changeType f = ChangeUnspecified)) then (bool_decide (ct = cf_changeType f), false)
  else if bool_decide (ct = EntityUnchanged) && negb (cf_includeHeartbeats f) then (false, true) else (true, false).
Definition keepKindClass (ct : ChangeType) (structural : bool) (kind : string) : bool :=
  if bool_decide (kind = "entity"%string) then IsEntity ct
  else if bool_decide (kind = "relation"%string) then IsRelation ct
  else if bool_decide (kind = "structural"%string) then structural else true.

(** ** The digest *)

(** The count of a type goes up where it is, or is added at the end. *)
Fixpoint tallyClass (ct : string) (l : list TypeCount) : list TypeCount :=
  match l with
  | [] => [mkTypeCount ct 1]
  | tc :: l => if bool_decide (tc_Type tc = ct) then mkTypeCount ct (tc_Count tc + 1) :: l else tc :: tallyClass ct l
  end.
Definition finishDigest (l : list TypeCount) : list TypeCount := merge_sort count_le l.

(** What retention takes from a window. *)
Inductive Horizon := AllPruned (from to horizon : Time) | PartPruned (from horizon to : Time).
Definition horizonWarning (horizon from to : Time) : option Horizon :=
  if is_zero horizon || negb (before from horizon) then None
  else if negb (after to horizon) then Some (AllPruned from to horizon) else Some (PartPruned from horizon to).

Section timeline.
Context {D : Type} `{!Pebble D} `{!Proto}.

(** ** entity_history *)

Record EntityHistoryInput := mkEntityHistoryInput {
  hi_EntityID : string; hi_Since : option Time; hi_Until : option Time; hi_AsKnownAt : option Time; hi_ChangeType : string; hi_IncludeHeartbeats : bool; hi_Limit : Z }.
(** The scope warns of pruned history and of earlier incarnations, opening at a creation. *)
Record EntityHistoryOutput := mkEntityHistoryOutput {
  ho_Graph : GraphMeta; ho_Resolution : option Resolution; ho_Pruned : option Horizon; ho_Incarnation : option Time;
  ho_Changes : list Change; ho_Count : Z; ho_Total : Z; ho_Truncated : bool; ho_HeartbeatsExcluded : Z; ho_ByChangeType : list TypeCount }.

Definition in_bounds (since until known : Time) (ev : Event) : bool :=
  let '(et, rt) := Times ev in
  negb (negb (is_zero since) && before et since) && negb (negb (is_zero until) && after et until) && negb (negb (is_zero known) && after rt known).
(** The loop: the events kept, the heartbeats excluded and the tally. *)
Fixpoint filter_history (since until known : Time) (f : changeFilter) (evs : list Event) (kept : list Event) (beats : Z) (tally : list TypeCount)
    : list Event * Z * list TypeCount :=
  match evs with
  | [] => (kept, beats, tally)
  | ev :: evs =>
    if negb (in_bounds since until known ev) then filter_history since until known f evs kept beats tally else
    let '(keep, beat) := keepClass f (eventChangeType ev) in
    let beats := if beat then beats + 1 else beats in
    if negb keep then filter_history since until known f evs kept beats tally
    else filter_history since until known f evs (kept ++ [ev]) beats (tallyClass (ChangeType_String (eventChangeType ev)) tally)
  end.
Definition observed_le (x y : Event) : bool := negb (before (Times y).1 (Times x).1).
(** The creation a timeline opens with. *)
Definition opening (evs : list Event) : option Time :=
  match evs with
  | ev :: _ => match ev_Entity ev with Some ee => if bool_decide (ee_ChangeType ee = EntityCreated) then Some (Times ev).1 else None | None => None end
  | [] => None
  end.

Definition entityHistory (ctx : nat → option string) (s : Server (D := D)) (i : EntityHistoryInput) : TimelineError + EntityHistoryOutput :=
  if bool_decide (hi_EntityID i = ""%string) then inl NoID else
  match parseOptTime (hi_Since i), parseOptTime (hi_Until i), parseOptTime (hi_AsKnownAt i), newChangeFilter (hi_ChangeType i) (hi_IncludeHeartbeats i) with
  | inl err, _, _, _ | inr _, inl err, _, _ | inr _, inr _, inl err, _ | inr _, inr _, inr _, inl err => inl err
  | inr since, inr until, inr known, inr f =>
    let limit := Z.to_nat (clampLimit (hi_Limit i)) in
    match ResolveHandle (sv_graph s) (hi_EntityID i) with
    | None => inl (NoSuchEntity (notFoundMsg (sv_graph s) (hi_EntityID i) None))
    | Some histID =>
      match ReadByEntity ctx (λ _, s_db (sv_store s)) histID (sv_store s) with
      | inl err => inl (ReadError err)
      | inr evs =>
        let '(filtered, beats, tally) := filter_history since until known f evs [] 0 [] in
        let filtered := sort_stable observed_le filtered in
        let kept := if (limit <? length filtered)%nat then drop (length filtered - limit) filtered else filtered in
        let upper := if is_zero until then sv_now s else until in
        inr (mkEntityHistoryOutput (graphMeta s (sv_graph s) None) (resolutionFor (sv_cadence s) histID None)
          (if is_zero since then None else horizonWarning (PruneHorizon (sv_store s)) since upper) (opening filtered)
          (changeOut <$> kept) (Z.of_nat (length kept)) (Z.of_nat (length filtered)) (limit <? length filtered)%nat beats (finishDigest tally))
      end
    end
  end.

(** ** recent_changes *)

Record RecentChangesInput := mkRecentChangesInput {
  ri_Window : string; ri_From : option Time; ri_To : option Time; ri_Kind : string; ri_ChangeType : string; ri_Scope : string;
  ri_Match : gmap string string; ri_IncludeHeartbeats : bool; ri_Limit : Z }.
(** What of the window came back: from the oldest shown, so many of so many. *)
Record Covered := mkCovered { cv_Pruned : option Horizon; cv_Partial : option (Z * Z * Time) }.
Record RecentChangesOutput := mkRecentChangesOutput {
  ro_Graph : GraphMeta; ro_Changes : list Change; ro_Count : Z; ro_WindowFrom : Time; ro_WindowTo : Time; ro_Covered : Covered;
  ro_Total : Z; ro_Truncated : bool; ro_HeartbeatsExcluded : Z; ro_ByChangeType : list TypeCount }.

(** The window of an input, looking back from now or given by its ends. *)
Definition diffBounds (now : Time) (window : string) (from to : option Time) : TimelineError + Time * Time :=
  if negb (bool_decide (window = ""%string)) && bool_decide (is_Some from) then inl WindowAndFrom
  else if negb (bool_decide (window = ""%string)) then
    match ParseDuration window with
    | Some d => if d <=? 0 then inl (BadWindow window) else inr (time_add now (- d), now)
    | None => inl (BadWindow window)
    end
  else match from with
  | None => inl NoWindow
  | Some _ =>
    match parseOptTime from with
    | inl err => inl err
    | inr from =>
      match (match to with None => inr now | Some _ => parseOptTime to end) with
      | inl err => inl err
      | inr to => if negb (after to from) then inl (ToBeforeFrom from to) else inr (from, to)
      end
    end
  end.

Record Scan := mkScan { sc_Changes : list Change; sc_Total : Z; sc_Beats : Z; sc_Tally : list TypeCount }.

(** One entry of the time index; none where the record behind it is gone. *)
Definition scan_entry (resolve : Z → StoreError + option Event) (f : changeFilter) (kind : string) (limit : nat) (e : TimeIndexEntry) (st : Scan) : StoreError + Scan :=
  match (if ti_Tagged e then inr (Some (ti_ChangeType e, ti_Structural e, None))
         else match resolve (ti_Seq e) with
              | inl err => inl err
              | inr None => inr None
              | inr (Some ev) => inr (Some (eventChangeType ev, match ev_Relation ev with Some re => r_Structural (re_Relation re) | None => false end, Some ev))
              end) with
  | inl err => inl err
  | inr None => inr st
  | inr (Some (ct, structural, ev)) =>
    if negb (keepKindClass ct structural kind) then inr st else
    let '(kept, beat) := keepClass f ct in
    let st := if beat then mkScan (sc_Changes st) (sc_Total st) (sc_Beats st + 1) (sc_Tally st) else st in
    if negb kept then inr st else
    let fetch := match ev with Some ev => inr (Some ev) | None => resolve (ti_Seq e) end in
    match (if needsRecord f then
             match fetch with
             | inl err => inl err
             | inr None => inr None
             | inr (Some ev) => if keepScope f ev then inr (Some (Some ev)) else inr None
             end
           else inr (Some ev)) with
    | inl err => inl err
    | inr None => inr st
    | inr (Some ev) =>
      let st := mkScan (sc_Changes st) (sc_Total st + 1) (sc_Beats st) (tallyClass (ChangeType_String ct) (sc_Tally st)) in
      if (length (sc_Changes st) <? limit)%nat then
        match (match ev with Some ev => inr (Some ev) | None => resolve (ti_Seq e) end) with
        | inl err => inl err
        | inr None => inr st
        | inr (Some ev) => inr (mkScan (sc_Changes st ++ [changeOut ev]) (sc_Total st) (sc_Beats st) (sc_Tally st))
        end
      else inr st
    end
  end.
Fixpoint scan_entries (resolve : Z → StoreError + option Event) (f : changeFilter) (kind : string) (limit : nat) (es : list TimeIndexEntry) (st : Scan) : StoreError + Scan :=
  match es with
  | [] => inr st
  | e :: es => match scan_entry resolve f kind limit e st with inl err => inl err | inr st => scan_entries resolve f kind limit es st end
  end.

Definition kinds : list string := [""; "all"; "entity"; "relation"; "structural"]%string.
Definition recentChanges (ctx : nat → option string) (s : Server (D := D)) (i : RecentChangesInput) : TimelineError + RecentChangesOutput :=
  let window := if bool_decide (ri_Window i = ""%string) && negb (bool_decide (is_Some (ri_From i))) then "1h"%string else ri_Window i in
  match diffBounds (sv_now s) window (ri_From i) (ri_To i) with
  | inl err => inl err
  | inr (from, to) =>
    let kind := ToLower (TrimSpace (ri_Kind i)) in
    if negb (bool_decide (kind ∈ kinds)) then inl (BadKind (ri_Kind i)) else
    match newChangeFilterFull (ri_ChangeType i) (ri_Scope i) (ri_Match i) (ri_IncludeHeartbeats i) with
    | inl err => inl err
    | inr f =>
      let limit := Z.to_nat (clampLimit (ri_Limit i)) in
      let '(entries, err) := ScanTimeIndex ctx from (time_add to 1) true (sv_store s) in
      match scan_entries (λ seq, Resolve seq (sv_store s)) f kind limit entries (mkScan [] 0 0 []), err with
      | inl err, _ | inr _, Some err => inl (ReadError err)
      | inr st, None =>
        let truncated := Z.of_nat limit <? sc_Total st in
        let count := Z.of_nat (length (sc_Changes st)) in
        inr (mkRecentChangesOutput (graphMeta s (sv_graph s) None) (sc_Changes st) count from to
          (mkCovered (horizonWarning (PruneHorizon (sv_store s)) from to)
             (if truncated then (λ c, (count, sc_Total st, ch_EventTime c)) <$> last (sc_Changes st) else None))
          (sc_Total st) truncated (sc_Beats st) (finishDigest (sc_Tally st)))
      end
    end
  end.
End timeline.
