(* ===== verification/HistorySpec.v ===== *)
(** * What the timeline tools answer

    recent_changes and entity_history against the log: which events of it are shown, in
    which order, and what the digest counts. *)
From S2P Require Import Prelude GoStd Values Vocabulary Entities Events Observations Projection ProjectionInv Keys Store StoreInv StoreSpec StoreReads EngineInv Traverse TraverseSpec Diff GoParse Tenant Query History.
Open Scope Z_scope.

(** ** The digest *)

Definition tally_all (l : list string) : list TypeCount := foldl (λ t ct, tallyClass ct t) [] l.

Lemma tally_types ct l : tc_Type <$> tallyClass ct l = if decide (ct ∈ tc_Type <$> l) then tc_Type <$> l else (tc_Type <$> l ++ [mkTypeCount ct 1])%list.
Proof.
  induction l as [|tc l IH]; cbn [tallyClass]; [case_decide as Hin; [by apply elem_of_nil in Hin|done]|]. rewrite !fmap_cons. case_bool_decide as E.
  - rewrite fmap_cons. cbn [tc_Type]. destruct (decide (ct ∈ tc_Type tc :: (tc_Type <$> l))) as [|Hn]; [by rewrite E|]. destruct Hn. rewrite E. by left.
  - rewrite fmap_cons IH. destruct (decide (ct ∈ tc_Type <$> l)) as [H1|H1], (decide (ct ∈ tc_Type tc :: (tc_Type <$> l))) as [H2|H2]; try done.
    + destruct H2. by right.
    + apply elem_of_cons in H2 as [?|?]; [by destruct E|done].
Qed.
Lemma tally_lookup ct l t c : NoDup (tc_Type <$> l) →
  mkTypeCount t c ∈ tallyClass ct l ↔ if bool_decide (t = ct) then mkTypeCount t (c - 1) ∈ l ∨ c = 1 ∧ t ∉ tc_Type <$> l else mkTypeCount t c ∈ l.
Proof.
  induction l as [|[t' c'] l IH]; cbn [tallyClass].
  - intros _. rewrite list_elem_of_singleton. case_bool_decide as E; [subst|]; split.
    + intros [= ->]. right. split; [done|apply not_elem_of_nil].
    + by intros [?%elem_of_nil|[-> _]].
    + by intros [= ? ?].
    + by intros ?%elem_of_nil.
  - rewrite !fmap_cons. cbn [tc_Type tc_Count]. intros [Hn Hnd]%NoDup_cons. specialize (IH Hnd). destruct (decide (t' = ct)) as [->|Hne].
    + rewrite (bool_decide_eq_true_2 (ct = ct)) // elem_of_cons. case_bool_decide as Et.
      * subst t. rewrite !elem_of_cons. split.
        -- intros [[= ->]|Hin]; [left; left; f_equal; lia|]. destruct Hn. by apply (list_elem_of_fmap_2 tc_Type _ _ Hin).
        -- intros [[[= <-]|Hin]|[_ Hx]]; [left; f_equal; lia| |]; [destruct Hn; by apply (list_elem_of_fmap_2 tc_Type _ _ Hin)|]. destruct Hx. by left.
      * rewrite !elem_of_cons. split; intros [[= ? ?]|?]; try done; by right.
    + rewrite (bool_decide_eq_false_2 (t' = ct)) // elem_of_cons IH. case_bool_decide as Et.
      * subst t. rewrite !elem_of_cons. split.
        -- intros [[= ? ?]|[?|[? ?]]]; [done|left; by right|]. right. split; [done|]. by intros [?|?].
        -- intros [[[= ? ?]|?]|[? Hx]]; [done|right; by left|]. right. right. split; [done|]. intros ?. apply Hx. by right.
      * rewrite !elem_of_cons. done.
Qed.

Lemma tally_all_snoc l t : tally_all (l ++ [t]) = tallyClass t (tally_all l).
Proof. unfold tally_all. by rewrite foldl_app. Qed.
Lemma tally_all_spec l : NoDup (tc_Type <$> tally_all l) ∧ (∀ t, t ∈ tc_Type <$> tally_all l ↔ t ∈ l) ∧ ∀ t c, mkTypeCount t c ∈ tally_all l ↔ 0 < c ∧ c = occurrences t l.
Proof.
  induction l as [|x l (Hnd & Hin & IH)] using rev_ind.
  - split; [constructor|]. split; [done|]. intros t c. split; [by intros ?%elem_of_nil|]. unfold occurrences. simpl. lia.
  - rewrite tally_all_snoc tally_types. split; [|split].
    + case_decide as Hx; [done|]. rewrite fmap_app. apply NoDup_app. split; [done|]. split; [|apply NoDup_singleton]. intros y Hy ->%list_elem_of_singleton. done.
    + intros t. rewrite elem_of_app list_elem_of_singleton -Hin. case_decide as Hx; [|rewrite fmap_app elem_of_app list_elem_of_singleton //]. naive_solver.
    + intros t c. rewrite tally_lookup //. unfold occurrences. rewrite list.filter_app length_app. case_bool_decide as E.
      * subst x. rewrite filter_cons_True // /= Hin IH. unfold occurrences. assert (t ∉ l ↔ length (base.filter (λ t', t' = t) l) = 0%nat) as ->; [|lia].
        rewrite length_zero_iff_nil. split.
        -- intros Hn. apply filter_none. intros y Hy ->. done.
        -- intros E Hl. assert (t ∈ base.filter (λ t', t' = t) l) as H by (by apply list_elem_of_filter). rewrite E in H. by apply elem_of_nil in H.
      * rewrite filter_cons_False; [|by intros ->]. rewrite /= Nat.add_0_r. apply IH.
Qed.
(** A digest of named changes: largest count first, exact. *)
Lemma digest_exact l : StronglySorted count_le (finishDigest (tally_all l)) ∧ ∀ t c, mkTypeCount t c ∈ finishDigest (tally_all l) ↔ 0 < c ∧ c = occurrences t l.
Proof.
  unfold finishDigest. split; [apply StronglySorted_merge_sort; apply _|]. intros t c. rewrite merge_sort_Permutation. apply tally_all_spec.
Qed.

(** ** A stable sort keeps the order of equals *)

Lemma insert_stable_filter {A} (le : A → A → bool) (P : A → Prop) `{!∀ x, Decision (P x)} x l :
  (∀ y, P x → P y → le x y = true) → base.filter P (insert_stable le x l) = base.filter P (x :: l).
Proof.
  intros HP. induction l as [|y l IH]; [done|]. simpl. destruct (le x y) eqn:E; [done|]. rewrite filter_cons IH !filter_cons.
  destruct (decide (P x)), (decide (P y)); try done. by rewrite HP in E.
Qed.
Lemma sort_stable_filter {A} (le : A → A → bool) (P : A → Prop) `{!∀ x, Decision (P x)} l :
  (∀ x y, P x → P y → le x y = true) → base.filter P (sort_stable le l) = base.filter P l.
Proof.
  intros HP. induction l as [|x l IH]; [done|]. change (sort_stable le (x :: l)) with (insert_stable le x (sort_stable le l)).
  rewrite insert_stable_filter; [by rewrite !filter_cons IH|]. intros y. apply HP.
Qed.

(** ** recent_changes *)

Definition type_name (ev : Event) : string := ChangeType_String (ev_ct ev).
(** The events of a kind in a window, newest first, and which of them a filter selects. *)
Definition newest_first (from to : Time) (L : list (Z * Event)) : list Event := reverse (by_time (unix_nano from) (unix_nano (time_add to 1)) L).*2.
Definition of_kind (kind : string) (ev : Event) : bool := keepKindClass (ev_ct ev) (ev_structural ev) kind.
Definition selected (f : changeFilter) (kind : string) (ev : Event) : bool := of_kind kind ev && (keepClass f (ev_ct ev)).1 && keepScope f ev.
Definition excluded_beat (f : changeFilter) (kind : string) (ev : Event) : bool := of_kind kind ev && (keepClass f (ev_ct ev)).2.

Lemma no_record f ev : needsRecord f = false → keepScope f ev = true.
Proof.
  unfold needsRecord, keepScope. intros [H1 H2]%orb_false_iff. rewrite negb_false_iff in H1. rewrite negb_false_iff in H2. by rewrite H1 H2.
Qed.

Section store.
Context {D : Type} `{!Pebble D} `{!PebbleLaws D} `{!Proto} `{!ProtoLaws}.

Definition tag_of (x : Z * Event) : TimeIndexEntry := mkTimeIndexEntry x.1 (ev_ct x.2) (ev_structural x.2) true.

Lemma resolve_logged (s : Store D) L n ev : store_ok s L → (n, ev) ∈ L →
  match Resolve n s with inr (Some ev') => ev' = ev | inr None => False | inl err => is_io err = true end.
Proof.
  intros Hok HL. pose proof (so_log s L Hok) as HR. pose proof (resolve_one (s_db s) L n HR) as H1. unfold Resolve.
  destruct (resolveSeq (s_db s) n) as [err|[ev'|]]; [done| |by destruct (H1 ev)].
  eapply (represents_fun _ L n); [done|apply H1; by eapply rp_range|done].
Qed.

Lemma scan_one (s : Store D) L f kind limit n ev st : store_ok s L → (n, ev) ∈ L →
  match scan_entry (λ seq, Resolve seq s) f kind limit (tag_of (n, ev)) st with
  | inl err => is_io err = true
  | inr st' => st' = mkScan (if selected f kind ev && (length (sc_Changes st) <? limit)%nat then (sc_Changes st ++ [changeOut ev])%list else sc_Changes st)
      (if selected f kind ev then sc_Total st + 1 else sc_Total st) (if excluded_beat f kind ev then sc_Beats st + 1 else sc_Beats st)
      (if selected f kind ev then tallyClass (type_name ev) (sc_Tally st) else sc_Tally st)
  end.
Proof.
  intros Hok HL. pose proof (resolve_logged s L n ev Hok HL) as Hr. unfold scan_entry, tag_of, selected, excluded_beat, of_kind. cbn [ti_Tagged ti_ChangeType ti_Structural ti_Seq fst snd].
  destruct st as [ch tot bt ta]. destruct (keepKindClass (ev_ct ev) (ev_structural ev) kind); cbn [negb andb sc_Changes sc_Total sc_Beats sc_Tally]; [|done].
  destruct (keepClass f (ev_ct ev)) as [kept beat]. cbn [fst snd]. destruct kept; cbn [negb andb]; [|by destruct beat].
  destruct (needsRecord f) eqn:En.
  - destruct (Resolve n s) as [err|[ev'|]]; [done| |done]. subst ev'. destruct (keepScope f ev); [|by destruct beat]. cbn [andb].
    destruct beat; cbn [sc_Changes sc_Total sc_Beats sc_Tally]; by destruct (length ch <? limit)%nat.
  - rewrite no_record //. destruct beat; cbn [sc_Changes sc_Total sc_Beats sc_Tally andb]; (destruct (length ch <? limit)%nat; [|done]); destruct (Resolve n s) as [err|[ev'|]]; done || by subst.
Qed.

Lemma scan_window (s : Store D) L f kind limit F : store_ok s L → (∀ x, x ∈ F → x ∈ L) → ∀ st, (length (sc_Changes st) <= limit)%nat →
  match scan_entries (λ seq, Resolve seq s) f kind limit (tag_of <$> F) st with
  | inl err => is_io err = true
  | inr st' => let sel := base.filter (λ ev, selected f kind ev = true) F.*2 in
      st' = mkScan (sc_Changes st ++ take (limit - length (sc_Changes st)) (changeOut <$> sel))%list (sc_Total st + Z.of_nat (length sel))
        (sc_Beats st + Z.of_nat (length (base.filter (λ ev, excluded_beat f kind ev = true) F.*2))) (foldl (λ t ct, tallyClass ct t) (sc_Tally st) (type_name <$> sel))
  end.
Proof.
  intros Hok. induction F as [|[n ev] F IH]; intros Hin st Hst.
  - destruct st. simpl. rewrite take_nil app_nil_r !Z.add_0_r. done.
  - rewrite fmap_cons. cbn [scan_entries]. pose proof (scan_one s L f kind limit n ev st Hok (Hin _ ltac:(left))) as H1.
    destruct (scan_entry _ _ _ _ _ _) as [err|st1]; [done|]. specialize (IH (λ x Hx, Hin x (list_elem_of_further _ _ _ Hx)) st1).
    assert (length (sc_Changes st1) <= limit)%nat as Hl1.
    { subst st1. simpl. destruct (selected f kind ev); simpl; [|done]. destruct (Nat.ltb_spec (length (sc_Changes st)) limit); [rewrite length_app /=; lia|done]. }
    specialize (IH Hl1). destruct (scan_entries _ _ _ _ _ _) as [err|st2]; [done|]. cbv zeta in IH |- *. rewrite IH. clear IH. subst st1. cbn [sc_Changes sc_Total sc_Beats sc_Tally].
    rewrite !fmap_cons. cbn [snd].
    assert (sc_Beats st + Z.of_nat (length (base.filter (λ ev, excluded_beat f kind ev = true) (ev :: F.*2))) =
      (if excluded_beat f kind ev then sc_Beats st + 1 else sc_Beats st) + Z.of_nat (length (base.filter (λ ev, excluded_beat f kind ev = true) F.*2))) as ->.
    { destruct (excluded_beat f kind ev) eqn:Eb; [rewrite filter_cons_True // /=; lia|by rewrite filter_cons_False ?Eb]. }
    destruct (selected f kind ev) eqn:Es; cbn [andb].
    + rewrite (filter_cons_True (λ ev, selected f kind ev = true)) // !fmap_cons. cbn [foldl length]. f_equal; [|lia].
      destruct (Nat.ltb_spec (length (sc_Changes st)) limit) as [Hlt|Hge].
      * rewrite length_app /= -(assoc_L app). f_equal. replace (limit - length (sc_Changes st))%nat with (S (limit - (length (sc_Changes st) + 1)))%nat by lia. done.
      * replace (limit - length (sc_Changes st))%nat with 0%nat by lia. done.
    + rewrite (filter_cons_False (λ ev, selected f kind ev = true)) ?Es //.
Qed.

Lemma bounds_input now w from to e : diffBounds now w from to ≠ inl (ReadError e).
Proof.
  unfold diffBounds, parseOptTime. repeat (case_match; simplify_eq/=; try done).
Qed.
Lemma filter_input ct sc m b e : newChangeFilterFull ct sc m b ≠ inl (ReadError e).
Proof. unfold newChangeFilterFull, parseChangeType. repeat (case_match; simplify_eq/=; try done). Qed.

(** The window and the filter of an input, unless it is refused. *)
Definition asked (now : Time) (i : RecentChangesInput) (from to : Time) (f : changeFilter) : Prop :=
  diffBounds now (if bool_decide (ri_Window i = ""%string) && negb (bool_decide (is_Some (ri_From i))) then "1h"%string else ri_Window i) (ri_From i) (ri_To i) = inr (from, to) ∧
  ToLower (TrimSpace (ri_Kind i)) ∈ kinds ∧ newChangeFilterFull (ri_ChangeType i) (ri_Scope i) (ri_Match i) (ri_IncludeHeartbeats i) = inr f.

(** Whatever the entries, only the database fails. *)
Lemma scan_io (s : Store D) L f kind limit es : ∀ st err, store_ok s L → scan_entries (λ seq, Resolve seq s) f kind limit es st = inl err → is_io err = true.
Proof.
  induction es as [|e es IH]; intros st err Hok; [done|]. cbn [scan_entries].
  assert (∀ n err, Resolve n s = inl err → is_io err = true) as Hr.
  { intros n err' E. pose proof (resolve_one (s_db s) L n (so_log s L Hok)) as H1. unfold Resolve in E. by rewrite E in H1. }
  destruct (scan_entry _ _ _ _ _ _) as [err'|st'] eqn:Es; [|by apply IH]. intros [= ->]. revert Es. unfold scan_entry.
  repeat (case_match; simplify_eq/=; try done); intros; simplify_eq/=; by eapply Hr.
Qed.

End store.

(** ** entity_history *)

(** The events of a timeline: within the bounds and of the type asked for. *)
Definition shown_in (since until known : Time) (f : changeFilter) (ev : Event) : bool := in_bounds since until known ev && (keepClass f (ev_ct ev)).1.
Definition beat_in (since until known : Time) (f : changeFilter) (ev : Event) : bool := in_bounds since until known ev && (keepClass f (ev_ct ev)).2.

Lemma filter_history_spec since until known f evs : ∀ kept beats tally,
  filter_history since until known f evs kept beats tally =
  ((kept ++ base.filter (λ ev, shown_in since until known f ev = true) evs)%list,
   beats + Z.of_nat (length (base.filter (λ ev, beat_in since until known f ev = true) evs)),
   foldl (λ t ct, tallyClass ct t) tally (type_name <$> base.filter (λ ev, shown_in since until known f ev = true) evs)).
Proof.
  induction evs as [|ev evs IH]; intros kept beats tally; [simpl; by rewrite app_nil_r Z.add_0_r|]. cbn [filter_history].
  assert (∀ b : bool, beat_in since until known f ev = b → beats + Z.of_nat (length (base.filter (λ ev, beat_in since until known f ev = true) (ev :: evs))) =
    (if b then beats + 1 else beats) + Z.of_nat (length (base.filter (λ ev, beat_in since until known f ev = true) evs))) as Hb.
  { intros b <-. destruct (beat_in since until known f ev) eqn:Eb; [rewrite filter_cons_True // /=; lia|by rewrite filter_cons_False ?Eb]. }
  unfold shown_in, beat_in in *. destruct (in_bounds since until known ev) eqn:Ei; cbn [negb andb] in *.
  - change (eventChangeType ev) with (ev_ct ev). destruct (keepClass f (ev_ct ev)) as [keep beat] eqn:Ek. cbn [fst snd] in *. rewrite (Hb beat) //. destruct keep; cbn [negb].
    + rewrite IH filter_cons_True ?Ei ?Ek //. rewrite fmap_cons -(assoc_L app). done.
    + rewrite IH filter_cons_False ?Ei ?Ek //.
  - rewrite IH (Hb false) // filter_cons_False ?Ei //.
Qed.

Lemma observed_total x y : observed_le x y = true ∨ observed_le y x = true.
Proof. unfold observed_le, before. rewrite !negb_true_iff !Z.ltb_ge. lia. Qed.
Lemma observed_trans x y z : observed_le x y = true → observed_le y z = true → observed_le x z = true.
Proof. unfold observed_le, before. rewrite !negb_true_iff !Z.ltb_ge. lia. Qed.

Section history.
Context {D : Type} `{!Pebble D} `{!PebbleLaws D} `{!Proto} `{!ProtoLaws}.

(** The bounds and the filter of an input, unless it is refused. *)
Definition asked_history (i : EntityHistoryInput) (since until known : Time) (f : changeFilter) : Prop :=
  hi_EntityID i ≠ ""%string ∧ parseOptTime (hi_Since i) = inr since ∧ parseOptTime (hi_Until i) = inr until ∧ parseOptTime (hi_AsKnownAt i) = inr known ∧
  newChangeFilter (hi_ChangeType i) (hi_IncludeHeartbeats i) = inr f.

(** An error of the input, and not of the graph or of the store. *)
Definition refusal (err : TimelineError) : bool := match err with ReadError _ | NoSuchEntity _ => false | _ => true end.
Lemma refused_instant t e : parseOptTime t = inl e → refusal e = true.
Proof. unfold parseOptTime. repeat case_match; naive_solver. Qed.
Lemma refused_filter ct b e : newChangeFilter ct b = inl e → refusal e = true.
Proof. unfold newChangeFilter, newChangeFilterFull, parseChangeType. repeat (case_match; simplify_eq/=; try done); naive_solver. Qed.
Lemma opening_spec evs t : opening evs = Some t ↔ ∃ ev, head evs = Some ev ∧ ev_ct ev = EntityCreated ∧ is_Some (ev_Entity ev) ∧ (Times ev).1 = t.
Proof.
  destruct evs as [|ev evs]; [naive_solver|]. cbn [opening head]. destruct (ev_Entity ev) as [ee|] eqn:Ee.
  - assert (ev_ct ev = ee_ChangeType ee) as Hct by (unfold ev_ct; by rewrite Ee). case_bool_decide as Hc; split; [intros [= <-]; exists ev; rewrite Hct; eauto|naive_solver|done|].
    intros (? & [= <-] & Hx & _). congruence.
  - split; [done|]. intros (? & [= <-] & _ & [? ?] & _). congruence.
Qed.

(** C25. entity_history is the log's record of an entity. On a store that holds the log it
    fails only where the input is refused, where the handle resolves to nothing in the live
    graph, or as the database or the caller's context does. Otherwise the timeline is of the
    events of the log that name the entity, observed within since and until, recorded by
    as_known_at and of the type asked for, oldest first, and those of one instant in the
    order of the log; the answer shows the newest of it, up to the clamped limit, its total,
    its counts per type and the heartbeats left out are those of the whole, it says it is
    truncated just when some are not shown, and it names the creation the timeline opens
    with. *)
Theorem history_exact (ctx : nat → option string) (s : Server (D := D)) (i : EntityHistoryInput) (L : list (Z * Event))
    (Hok : store_ok (sv_store s) L) (Hidx : indexed_log L) (Hids : ∀ n ev id, (n, ev) ∈ L → id ∈ touched ev → slash_free id)
    (Hlive : ∀ id, ResolveHandle (sv_graph s) (hi_EntityID i) = Some id → slash_free id) :
  match entityHistory ctx s i with
  | inl (ReadError err) => is_io err = true
  | inl (NoSuchEntity _) => ResolveHandle (sv_graph s) (hi_EntityID i) = None
  | inl _ => ¬ ∃ since until known f, asked_history i since until known f
  | inr out => ∃ since until known f id all, asked_history i since until known f ∧ ResolveHandle (sv_graph s) (hi_EntityID i) = Some id ∧
    let limit := Z.to_nat (clampLimit (hi_Limit i)) in
    let named := (base.filter (λ x, mentions id x.2) L).*2 in
    let matched := base.filter (λ ev, shown_in since until known f ev = true) named in
    all ≡ₚ matched ∧ StronglySorted (λ x y, observed_le x y = true) all ∧
    (∀ t, base.filter (λ ev, (Times ev).1 = t) all = base.filter (λ ev, (Times ev).1 = t) matched) ∧
    ho_Changes out = changeOut <$> drop (length all - limit) all ∧ ho_Total out = Z.of_nat (length all) ∧ ho_Count out = Z.of_nat (length (ho_Changes out)) ∧
    (ho_Truncated out = true ↔ (length (ho_Changes out) < length all)%nat) ∧
    ho_HeartbeatsExcluded out = Z.of_nat (length (base.filter (λ ev, beat_in since until known f ev = true) named)) ∧
    StronglySorted count_le (ho_ByChangeType out) ∧ (∀ t c, mkTypeCount t c ∈ ho_ByChangeType out ↔ 0 < c ∧ c = occurrences t (type_name <$> all)) ∧
    (∀ t, ho_Incarnation out = Some t ↔ ∃ ev, head all = Some ev ∧ ev_ct ev = EntityCreated ∧ is_Some (ev_Entity ev) ∧ (Times ev).1 = t)
  end.
Proof.
  destruct (entityHistory ctx s i) as [err|out] eqn:E; revert E; unfold entityHistory, asked_history.
  - destruct (decide (hi_EntityID i = ""%string)) as [He|He]; [rewrite bool_decide_eq_true_2 //; intros [= <-]; naive_solver|]. rewrite bool_decide_eq_false_2 //.
    destruct (parseOptTime (hi_Since i)) as [e1|since] eqn:E1; [intros [= <-]; by eapply refused_instant in E1; destruct e1; naive_solver|].
    destruct (parseOptTime (hi_Until i)) as [e1|until] eqn:E2; [intros [= <-]; by eapply refused_instant in E2; destruct e1; naive_solver|].
    destruct (parseOptTime (hi_AsKnownAt i)) as [e1|known] eqn:E3; [intros [= <-]; by eapply refused_instant in E3; destruct e1; naive_solver|].
    destruct (newChangeFilter _ _) as [e1|f] eqn:E4; [intros [= <-]; by eapply refused_filter in E4; destruct e1; naive_solver|].
    destruct (ResolveHandle _ _) as [id|] eqn:E5; [|by intros [= <-]].
    pose proof (read_by_entity_log ctx id (sv_store s) L Hok Hidx (Hlive id eq_refl) Hids) as Hr.
    destruct (ReadByEntity _ _ _ _) as [e1|evs]; [by intros [= <-]|]. by destruct (filter_history _ _ _ _ _ _ _ _) as [[? ?] ?].
  - destruct (decide (hi_EntityID i = ""%string)) as [He|He]; [by rewrite bool_decide_eq_true_2|]. rewrite bool_decide_eq_false_2 //.
    destruct (parseOptTime (hi_Since i)) as [e1|since] eqn:E1; [done|]. destruct (parseOptTime (hi_Until i)) as [e1|until] eqn:E2; [done|].
    destruct (parseOptTime (hi_AsKnownAt i)) as [e1|known] eqn:E3; [done|]. destruct (newChangeFilter _ _) as [e1|f] eqn:E4; [done|].
    destruct (ResolveHandle _ _) as [id|] eqn:E5; [|done].
    pose proof (read_by_entity_log ctx id (sv_store s) L Hok Hidx (Hlive id eq_refl) Hids) as Hr.
    destruct (ReadByEntity _ _ _ _) as [e1|evs]; [done|]. subst evs. rewrite filter_history_spec app_nil_l Z.add_0_l. intros [= <-].
    exists since, until, known, f, id, (sort_stable observed_le (base.filter (λ ev, shown_in since until known f ev = true) (base.filter (λ x, mentions id x.2) L).*2)).
    set (matched := base.filter _ (base.filter (λ x, mentions id x.2) L).*2). set (all := sort_stable observed_le matched). set (limit := Z.to_nat (clampLimit (hi_Limit i))).
    cbn [ho_Changes ho_Total ho_Count ho_Truncated ho_HeartbeatsExcluded ho_ByChangeType ho_Incarnation]. cbv zeta. fold limit.
    assert (all ≡ₚ matched) as Hp by apply sort_stable_perm.
    assert ((if (limit <? length all)%nat then drop (length all - limit) all else all) = drop (length all - limit) all) as ->.
    { destruct (Nat.ltb_spec limit (length all)); [done|]. by replace (length all - limit)%nat with 0%nat by lia. }
    pose proof (clampLimit_pos (hi_Limit i)) as Hlim. destruct (digest_exact (type_name <$> matched)) as [Hd1 Hd2].
    split_and!; [done..|exact Hp| | |done|done|by rewrite length_fmap| |done|exact Hd1| |].
    + apply sort_stable_sorted; [apply observed_total|apply observed_trans].
    + intros t. apply sort_stable_filter. intros x y Hx Hy. unfold observed_le, before. rewrite Hx Hy negb_true_iff Z.ltb_ge. lia.
    + rewrite length_fmap length_drop Nat.ltb_lt. lia.
    + intros t c. rewrite (occurrences_perm t (type_name <$> all) (type_name <$> matched)); [apply Hd2|by rewrite Hp].
    + intros t. rewrite opening_spec. done.
Qed.
End history.
