(* ===== verification/ToolExamples.v ===== *)
(** * The MCP tools on concrete runs

    The properties of the tools instantiated, on small graphs and on a server over the
    store of the earlier runs, and behaviours that differ from what the comments of the
    source say: of find_path, of graph_diff, and of the timelines. *)
From S2P Require Import Prelude GoStd Values Vocabulary Entities Events DisplayNames Speakers Observations Aliases Projection ProjectionInv Engine EngineInv EngineExamples ProjectionSpec Canonical Keys Store.
From S2P Require Import StoreInv StoreSpec StoreReads LogState StorePrune EngineStore StoreExamples Tenant Traverse TraverseSpec PathSpec Diff DiffSpec GoParse Query QuerySpec EndpointSpec History HistorySpec.
Open Scope Z_scope.

(** ** Traversal *)

(** The host of the demonstration graph that the other runs on. *)
Definition ask_b : ImpactOfInput := mkImpactOfInput "B" 0 0.
Definition blast_b : list string := match impactOf demo DefaultThreshold ask_b with inr out => im_ID <$> io_Impacted out | inl _ => [] end.

Lemma impact_is_exact_witness : wf demo ∧ blast_b = ["A"%string] ∧
  ∃ out root e group all, impactOf demo DefaultThreshold ask_b = inr out ∧ live_handle demo "B" root e ∧
    io_Impacted out = take 50 all ∧ ∀ j, j ∈ all → entry demo group j.
Proof.
  split; [exact demo_wf|]. split; [vm_compute; reflexivity|].
  pose proof (impact_is_exact demo DefaultThreshold ask_b demo_wf) as H.
  destruct (impactOf demo DefaultThreshold ask_b) as [err|out] eqn:E; [vm_compute in E; discriminate E|].
  destruct H as (root & e & group & all & Hh & _ & _ & _ & _ & _ & _ & Hall & _ & Htake & _).
  exists out, root, e, group, all. split; [reflexivity|]. split; [exact Hh|]. split; [exact Htake|]. intros j Hj. exact (proj1 (Hall j Hj)).
Defined.

(** ** Graphs for find_path *)

Definition node (id typ : string) : Entity := mkEntity id typ [("id", KindString id)] [] "".
Definition wire (id typ from to : string) : Relation := mkRelation id typ from to [] false.
Definition graph_of (nodes : list Entity) (wires : list Relation) : Graph :=
  foldl (λ g r, Apply 9 (link_at 5 RelationAdded r) g) (foldl (λ g e, putEntity e g) New nodes) wires.
Definition path_ids (r : ToolError + FindPathOutput) : option (list string) :=
  match r with inr out => if fo_Reachable out then Some ((λ h, eo_ID (ph_Entity h)) <$> fo_Path out) else None | inl _ => None end.

(** A host with an interface that another device also holds, and a cable that reaches the
    interface from a third one. *)
Definition two_ways : Graph := graph_of
  [node "S" TypeHost; node "K" TypeHost; node "I" TypeNetworkInterface; node "D" TypeNetworkDevice]
  [wire "r1" RelHasInterface "S" "I"; wire "r2" RelConnectedTo "S" "K"; wire "r3" RelConnectedTo "K" "I"; wire "r4" RelHasInterface "D" "I"].

(** The first arrival hides a route. An interface may be crossed by changing relation
    type, but the search keeps one arrival per entity: reached directly by has_interface it
    is never left by has_interface, and the lawful route that arrives by connected_to one
    hop later is not found, although it fits the depth. The comment says that false means
    that there is no path within the depth. *)
Theorem first_arrival_hides_route :
  path_ids (findPath two_ways DefaultThreshold (mkFindPathInput "S" "D" "" 10)) = None ∧
  ∃ es, lawful two_ways DefaultThreshold "" "S" "S" "" es "D" ∧ length es = 3%nat ∧ NoDup (stops "S" es).
Proof.
  split; [vm_compute; reflexivity|].
  exists [edge_from "S" (wire "r2" RelConnectedTo "S" "K"); edge_from "K" (wire "r3" RelConnectedTo "K" "I"); edge_from "I" (wire "r4" RelHasInterface "D" "I")].
  split; [by_decide|]. split; [reflexivity|by_decide].
Qed.

(** Two hosts joined by an interface that one may cross, four hops apart. *)
Definition joined : Graph := graph_of
  [node "A" TypeHost; node "X" TypeHost; node "I" TypeNetworkInterface; node "Y" TypeHost; node "B" TypeHost]
  [wire "r1" RelRunsOn "A" "X"; wire "r2" RelConnectedTo "X" "I"; wire "r3" RelHasInterface "Y" "I"; wire "r4" RelRunsOn "B" "Y"].

(** What the answer calls a convergence may be a waypoint. Every interface the search
    expands refuses the edge it came by, and is remembered as a terminal for that; asked
    with a depth one short of the route, the tool lists the interface in its middle as a
    destination both ends depend on and that is no evidence that they communicate, which
    its own answer at the next depth contradicts. *)
Theorem waypoint_listed_as_convergence :
  (match findPath joined DefaultThreshold (mkFindPathInput "A" "B" "" 3) with
   | inr out => fo_Reachable out = false ∧ eo_ID <$> fo_Convergences out = ["I"%string] ∧ fo_ConvergenceTotal out = 1
   | inl _ => False end) ∧
  path_ids (findPath joined DefaultThreshold (mkFindPathInput "A" "B" "" 4)) = Some ["A"; "X"; "I"; "Y"; "B"]%string.
Proof. split; vm_compute; [split_and!; reflexivity|reflexivity]. Qed.

(** ** The difference of two instants *)

Definition comeback : list Event :=
  [said 10 EntityCreated host_a; said 20 EntityCreated host_b; linked 25 RelationAdded link_ab; said 30 EntityDeleted host_a;
   said 40 EntityCreated host_a2; said 45 EntityUnchanged host_a2].
Definition logged : list (Z * Event) := numbered 0 (stamp_commit 1 <$> comeback).

#[local] Instance comeback_codec : Proto := table_codec (Event_ToProto <$> logged.*2).
#[local] Instance comeback_codec_laws : ProtoLaws := table_codec_laws _.

Definition comeback_store : Store (gmap string string) := (Append comeback (fresh ∅)).1.
Definition window_diff : StoreError + GraphDiffOutput := graphDiff (λ _, None) (at_second 15) (at_second 50) 0 comeback_store.

Lemma comeback_ok : store_ok comeback_store logged.
Proof.
  assert (Forall event_storable comeback) as Hst by (apply (bool_decide_unpack _); vm_compute; exact I).
  assert ((Append comeback (fresh ∅)).2 = inr (stamp_commit 1 <$> comeback)) as Happ by (vm_compute; reflexivity).
  pose proof (append_log (fresh ∅) [] comeback comeback_store (inr (stamp_commit 1 <$> comeback)) empty_store_ok Hst eq_refl) as Hl.
  destruct Hl as [Hl _]; [|done]. unfold comeback_store. rewrite -Happ. by destruct (Append comeback (fresh ∅)).
Qed.

(** Stories of a short log are lawful when those of its things are. *)
Lemma lawful_check E : Forall (λ ev, match thing ev with Some t => is_Some (presence ev_effect false (story t E)) | None => True end) E → lawful_history E.
Proof.
  intros Hall t. destruct (story t E) as [|ev S] eqn:Es; [by eexists|]. rewrite -Es. assert (ev ∈ story t E) as [Ht Hin]%list_elem_of_filter by (rewrite Es; left).
  rewrite Forall_forall in Hall. specialize (Hall ev Hin). by rewrite Ht in Hall.
Qed.

Lemma whole : by_time 0 (unix_nano (at_second 50)) logged = logged.
Proof. vm_compute. reflexivity. Qed.
Lemma logged_told : told eq logged.
Proof.
  apply (told_check eq).
  - repeat (apply Forall_cons; split; [split; reflexivity|]). exact (Forall_nil_2 _).
  - apply (bool_decide_unpack _). vm_compute. exact I.
  - repeat constructor; vm_compute; discriminate.
  - repeat constructor; vm_compute; reflexivity.
Qed.
Lemma logged_lawful : lawful_history logged.*2.
Proof. apply lawful_check. repeat (apply Forall_cons; split; [eexists; vm_compute; reflexivity|]). exact (Forall_nil_2 _). Qed.

Lemma diff_compares_instants_witness :
  (∃ out, window_diff = inr out ∧ eo_ID <$> gd_EntitiesCreated out = ["B"%string] ∧ ro_ID <$> gd_RelationsAdded out = ["R"%string]) ∧
  match window_diff with
  | inr out => compares eq (by_time (unix_nano (at_second 15)) (unix_nano (at_second 50)) logged).*2
      (Replay 0 (by_time 0 (unix_nano (at_second 15)) logged).*2 New) (Replay 0 (by_time 0 (unix_nano (at_second 50)) logged).*2 New) 50 out
  | inl err => is_io err = true
  end.
Proof.
  split; [eexists; vm_compute; split_and!; reflexivity|].
  assert (indexed_log logged) as Hidx.
  { assert (Forall (λ x, is_Some (indexEvent x.2 x.1)) logged) as HF by (apply (bool_decide_unpack _); vm_compute; exact I).
    rewrite Forall_forall in HF. intros n ev Hin. apply (HF _ Hin). }
  assert (∀ n ev, (n, ev) ∈ logged → ct_canonical (ev_ct ev) ∧ 0 <= ct_int (ev_ct ev) < 128) as Hcts.
  { assert (Forall (λ x, ct_canonical (ev_ct x.2) ∧ 0 <= ct_int (ev_ct x.2) < 128) logged) as HF.
    { unfold ct_canonical. apply (bool_decide_unpack _); vm_compute; exact I. }
    rewrite Forall_forall in HF. intros n ev Hin. apply (HF _ Hin). }
  assert (u64 (unix_nano (at_second 15)) <= u64 (unix_nano (at_second 50))) as Hle by (apply (bool_decide_unpack _); vm_compute; exact I).
  pose proof (td_known _ _ logged_told) as Hk. pose proof (td_steady _ _ logged_told) as Hs. pose proof logged_lawful as Hlaw. rewrite -whole in Hk Hs Hlaw.
  exact (diff_compares_instants eq (λ _, None) (at_second 15) (at_second 50) 0 0 comeback_store logged comeback_ok Hidx Hcts Hle Hk Hs Hlaw).
Defined.

(** A change across an absence is not reported. A host deleted and re-created under
    its id within the window, as the engine does for a tombstone that comes back, is there at both instants
    with other attributes; it is in no list and in no total, though the list of changes is
    described as the entities present at both instants whose attributes changed. *)
Theorem resurrected_change_unreported :
  (∃ e e', live (Replay 0 (by_time 0 (unix_nano (at_second 15)) logged).*2 New) !! "A"%string = Some e ∧
    live (Replay 0 (by_time 0 (unix_nano (at_second 50)) logged).*2 New) !! "A"%string = Some e' ∧ e_Attributes e ≠ e_Attributes e') ∧
  ∃ out, window_diff = inr out ∧ gd_EntitiesChanged out = [] ∧ dt_EntitiesChanged (gd_Totals out) = 0%nat ∧ gd_EntitiesDeleted out = [] ∧
    eo_ID <$> gd_EntitiesCreated out = ["B"%string] ∧ gd_EntitiesTransient out = [].
Proof.
  split; [|eexists; vm_compute; split_and!; reflexivity]. do 2 eexists. split; [vm_compute; reflexivity|]. split; [vm_compute; reflexivity|]. vm_compute. discriminate.
Qed.

(** ** The query tools *)

#[local] Existing Instance history_codec.
#[local] Existing Instance history_codec_laws.

Definition quiet : nat → option string := λ _, None.
Definition serving (g : Graph) : Server (D := gmap string string) := mkServer "t1" "Acme" g kept_store (at_second 100) f64_one None.

(** ** find_entities *)

Definition hosts_one_by_one : FindEntitiesInput := mkFindEntitiesInput "host" ∅ 1 None "" "".
Lemma find_enumerates_witness : graphAt quiet None (serving demo) = inr demo ∧
  ∃ outs, answers quiet (serving demo) hosts_one_by_one 3 "" = inr <$> outs ∧ length (concat (fo_Entities <$> outs)) = 2%nat.
Proof.
  split; [reflexivity|].
  destruct (find_enumerates quiet (serving demo) hosts_one_by_one demo false 3 eq_refl eq_refl demo_wf ltac:(vm_compute; lia)) as (outs & E & Hall & _).
  exists outs. split; [exact E|]. rewrite Hall. vm_compute. reflexivity.
Defined.

(** ** get_neighbors *)

Definition around_a : GetNeighborsInput := mkGetNeighborsInput "A" "" 2 "" 1 None "".
Lemma neighbors_enumerate_witness : wf demo ∧ ∃ outs, hood_answers quiet (serving demo) around_a 4 "" = inr <$> outs ∧
  ∀ nb, nb ∈ concat (no_Neighbors <$> outs) → 1 <= nb_Depth nb <= 2.
Proof.
  split; [exact demo_wf|].
  destruct (neighbors_enumerate quiet (serving demo) around_a demo false "A" 4 ltac:(by_decide) eq_refl ltac:(vm_compute; discriminate) eq_refl demo_wf
    ltac:(split; [reflexivity|by_decide]) ltac:(vm_compute; lia)) as (outs & E & _ & _ & Hall & _).
  exists outs. split; [exact E|]. intros nb Hin. destruct (Hall nb Hin) as (n & Hn & -> & _). change (asked_depth around_a) with 2 in Hn. lia.
Defined.

(** ** Which entity an endpoint denotes *)

Definition web_host : Entity := mkEntity "H" TypeHost [("host.id", KindString "h1")] [] "".
Definition web_listener : Entity :=
  mkEntity "L" TypeServiceListener [("host.id", KindString "h1"); ("service.endpoint", KindString "0.0.0.0:443/tcp")] [] "".
Definition runs_there : Relation := mkRelation "R" RelRunsOn "L" "H" [] true.
Definition web : Graph := Apply 9 (link_at 5 RelationAdded runs_there) (putEntity web_listener (putEntity web_host New)).
Lemma web_wf : wf web.
Proof.
  apply apply_wf; [|intros r0; rewrite lookup_empty; done].
  apply put_wf; [apply put_wf; [apply wf_new|apply entity_ok_new]|]. split; rewrite ?put_entities ?put_byHash.
  - intros e0. rewrite lookup_insert_ne; [done|by_decide].
  - intros id'. rewrite lookup_insert_ne; [done|by vm_compute].
Qed.
Lemma web_named : named web.
Proof.
  assert (map_Forall (λ id _, id ≠ ""%string) (live web)) as HE by by_decide.
  assert (map_Forall (λ _ r, r_To r ≠ ""%string) (g_relations web)) as HR by by_decide.
  split; [intros id e Hid; exact (HE id e Hid)|intros rid r Hr; exact (HR rid r Hr)].
Qed.
Definition https (scope : string) : Entity :=
  mkEntity "E" "service.endpoint" ((if bool_decide (scope = ""%string) then [] else [("host.id", KindString scope)]) ++
    [("server.address", KindString "10.0.0.9"); ("server.port", KindString "443")]) [] "".

Lemma endpoint_denotes_witness : wf web ∧ named web ∧ resolveEndpoint web (https "h1") = Some web_listener ∧
  at_host web web_host "443" "" web_listener ∧ resolveEndpoint web (https "h2") = None ∧ ∀ h, lives web TypeHost h → identityValue h "host.id" ≠ "h2"%string.
Proof.
  split; [exact web_wf|]. split; [exact web_named|].
  assert (resolveEndpoint web (https "h1") = Some web_listener) as E1 by (vm_compute; reflexivity).
  assert (resolveEndpoint web (https "h2") = None) as E2 by (vm_compute; reflexivity).
  pose proof (endpoint_denotes web (https "h1") web_wf web_named) as Hyes. cbv zeta in Hyes. rewrite E1 in Hyes. destruct Hyes as (h & Hh & Hid & Hat).
  pose proof (endpoint_denotes web (https "h2") web_wf web_named) as Hno. cbv zeta in Hno. rewrite E2 in Hno.
  split; [exact E1|].
  assert (h = web_host) as ->.
  { destruct Hh as [Hl Ht].
    assert (map_Forall (λ _ e, identityValue e "host.id" = "h1"%string → e_Type e = TypeHost → e = web_host) (live web)) as HF by by_decide.
    exact (HF _ _ Hl Hid Ht). }
  split; [exact Hat|]. split; [exact E2|exact Hno].
Defined.

(** ** Reads about the past *)

Definition hosts_at (k : Z) : FindEntitiesInput := mkFindEntitiesInput "host" ∅ 0 (Some (at_second k)) "" "".
Lemma serving_same g g' : same_log (serving g) (serving g').
Proof. split_and!; reflexivity. Qed.
Lemma past_reads_ignore_present_witness : same_log (serving demo) (serving web) ∧
  findEntities quiet (serving demo) (hosts_at 45) = findEntities quiet (serving web) (hosts_at 45) ∧
  match findEntities quiet (serving demo) (hosts_at 45) with inr out => fo_Total out = 2 | inl _ => False end.
Proof.
  split; [exact (serving_same demo web)|]. split; [|vm_compute; reflexivity].
  destruct (past_reads_ignore_present quiet (serving demo) (serving web) (at_second 45) (serving_same demo web)) as (Hf & _). exact (Hf (hosts_at 45) eq_refl).
Defined.

(** ** The timelines *)

Lemma held_indexed : indexed_log held.
Proof.
  assert (Forall (λ x, is_Some (indexEvent x.2 x.1)) held) as HF by by_decide.
  rewrite Forall_forall in HF. intros n ev Hin. apply (HF _ Hin).
Qed.
Lemma held_ids n ev id : (n, ev) ∈ held → id ∈ touched ev → slash_free id.
Proof.
  assert (Forall (λ x, Forall slash_free (touched x.2)) held) as HF by by_decide.
  rewrite Forall_forall in HF. intros Hin. specialize (HF _ Hin). rewrite Forall_forall in HF. apply HF.
Qed.
Lemma held_cts n ev : (n, ev) ∈ held → ct_canonical (ev_ct ev) ∧ 0 <= ct_int (ev_ct ev) < 128.
Proof.
  assert (Forall (λ x, ct_canonical (ev_ct x.2) ∧ 0 <= ct_int (ev_ct x.2) < 128) held) as HF by (unfold ct_canonical; by_decide).
  rewrite Forall_forall in HF. intros Hin. apply (HF _ Hin).
Qed.

(** Of the minute before, the two newest that are not heartbeats. *)
Definition last_minutes : RecentChangesInput := mkRecentChangesInput "95s" None None "" "" "" ∅ false 2.

(** The record of a host, without the heartbeats: it opens with its creation. *)
Definition of_b : EntityHistoryInput := mkEntityHistoryInput "B" None None None "" false 0.
Lemma history_exact_witness : store_ok kept_store held ∧
  match entityHistory quiet (serving demo) of_b with
  | inr out => ho_Total out = 2 ∧ ho_HeartbeatsExcluded out = 1 ∧ ho_Incarnation out = Some (at_second 20)
  | inl _ => False
  end.
Proof.
  split; [exact kept_store_ok|].
  pose proof (history_exact quiet (serving demo) of_b held kept_store_ok held_indexed held_ids ltac:(by intros id [= <-])) as Hex.
  assert (match entityHistory quiet (serving demo) of_b with inr out => ho_Incarnation out = Some (at_second 20) | inl _ => False end) as Ho by (clear; vm_compute; reflexivity).
  destruct (entityHistory quiet (serving demo) of_b) as [err|out]; [done|]. destruct Hex as (since & until & known & f & id & all & (_ & [= <-] & [= <-] & [= <-] & [= <-]) & [= <-] & Hp & _ & _ & _ & Htot & _ & _ & Hhb & _ & _ & Hopen).
  split_and!.
  - rewrite Htot Hp. vm_compute. reflexivity.
  - rewrite Hhb. vm_compute. reflexivity.
  - exact Ho.
Defined.

(** ** A window that reads nothing *)

(** The index counts nanoseconds from the epoch without a sign, so an instant before it
    lies above every record; those of an input are refused for that. The start of a
    window that reaches back further is not: it is read from, and finds nothing, where a
    shorter one finds every event. *)
Theorem wide_window_reads_nothing :
  let later := mkServer "t1" "Acme" demo kept_store (at_second 1767225600) f64_one None in
  let ask w := recentChanges quiet later (mkRecentChangesInput w None None "" "" "" ∅ true 0) in
  match ask "1767225595s"%string, ask "500000h"%string with
  | inr out, inr out' => ro_Total out = 7 ∧ ro_Total out' = 0 ∧ ro_WindowFrom out' < ro_WindowFrom out ∧ ro_WindowTo out' = ro_WindowTo out
  | _, _ => False
  end.
Proof. vm_compute. done. Qed.

(** The timeline of an entity that has left the projection: by its id the record is
    read, by its fingerprint it is refused, where the comment of entity_history says it
    passes through and finds nothing. *)
Theorem gone_fingerprint_refused :
  let ask handle := entityHistory quiet (serving New) (mkEntityHistoryInput handle None None None "" true 0) in
  ResolveHandle demo (IdentityHash host_a) = Some "A"%string ∧
  match ask "A"%string with inr out => ho_Total out = 5 | inl _ => False end ∧
  match ask (IdentityHash host_a) with inl (NoSuchEntity (NotFound handle Unresolved)) => handle = IdentityHash host_a | _ => False end.
Proof. vm_compute. done. Qed.
